(* ===== verification/_CoqProject ===== *)
-Q . S2P
Prelude.v
Errno.v
Crc32.v
Prot.v
Posix.v
Util.v
MemOs.v
Disk.v
Cleanup.v
Segment.v
SegmentInv.v
SegmentOps.v
SegmentSpec.v
SegmentTypes.v
SegmentBytes.v
SegmentFile.v
SegmentFileSpec.v
SegmentDurable.v
SegmentFrame.v
SegmentStub.v
SegmentCrash.v
SegmentCrashSpec.v
SegmentCrashGap.v
SegmentThreads.v
SegmentThreadsInv.v
SegmentThreadsOps.v
SegmentThreadsStep.v
SegmentThreadsSpec.v
SegmentThreadsSeen.v
SegmentThreadsSync.v
SegmentThreadsRest.v
Index.v
Mbptree.v
MbptreeInv.v
MbptreeOps.v
MbptreeAppend.v
MbptreeFind.v
MbptreeSpec.v
MbptreePrint.v
MbptreeThreads.v
MbptreeThreadsInv.v
MbptreeThreadsSpec.v
MbptreeIndex.v
Pthread.v
Mqlog.v
Layout.v
MqlogInv.v
MqlogSynced.v
MqlogOps.v
MqlogOpen.v
MqlogSpec.v
MqlogCommit.v
MqlogDurable.v
MqlogErrors.v
MqlogThreads.v
MqlogThreadsAlone.v
MqlogThreadsInv.v
MqlogThreadsOps.v
MqlogThreadsStep.v
MqlogThreadsSync.v
MqlogThreadsWrite.v
MqlogThreadsSpec.v
MqlogThreadsSeen.v
