(* ===== verification/Prelude.v ===== *)
(** * mqlog: an embeddable durable queue kept as an immutable log

    ** The program

    mqlog stores payloads one after the other and gives each an offset. A log
    ([struct mqlog], src/mqlog.c) is a directory of segments. A segment
    ([struct segment], src/segment.c) is a pair of memory-mapped files: the
    data file holds the frames, each a 12-byte header (src/prot.h) with the
    CRC-32 (src/crc32.c) of the payload that follows it; the index file holds
    the position of each frame in the data file. A segment that cannot take a
    payload is closed with an end-of-segment mark and the log rolls to a new
    one. The segments of a log are found by the offset of their first payload
    in a B+tree (src/mbptree.c) that only grows on the right. Every operation
    returns a non-negative result or a code of src/mqlogerrno.h.

    The calls go down this list: [mqlog_write], [mqlog_read], [mqlog_sync],
    [mqlog_open] and [mqlog_close] call the index, the mutex and the segments;
    the segments call the frame protocol, the CRC, the helpers of src/util.c
    and the kernel; the index calls the allocator only.

    ** How it is modelled

    C code is a function to [result]: [Ok] with the value and the new state,
    or [UB] where the C standard leaves the behaviour undefined or an [assert]
    fails. State that C keeps in a structure is a record passed along.
    Machine integers are [Z] with [u32], [u64], [i32], [i64] written where the
    code converts or may wrap (LP64). Mapped memory is a [region]: its base
    address and its bytes; an access outside it is [UB]. Nodes of the tree live
    in a heap from addresses to blocks. Pointers are addresses, 0 for [NULL].

    The kernel, [malloc], the mutex and [calloc] are not code of the
    repository. The first three are classes ([Posix], [Pthread]) whose worlds
    are parameters, with classes of laws ([PosixLaws], [PthreadLaws]) for the
    documented behaviour the theorems rely on; failures of every call are
    allowed by the laws. [munmap] is known only for a mapping passed whole,
    [mmap] returns page-aligned addresses, [closedir] wants an open stream, and
    [pthread_mutex_destroy] an initialised mutex. [calloc] in the tree is a pair of functions from the
    heap. MemOs.v and the end of Pthread.v give concrete instances, with which
    the witnesses compute.

    ** The files

    - Prelude.v, this file: outcomes, machine widths, memory as bytes;
      Errno.v: the codes of src/mqlogerrno.h.
    - Crc32.v: src/crc32.c, with the bit-serial register of its comment.
    - Prot.v: src/prot.h and src/prot.c, field by field in memory.
    - Posix.v, MemOs.v: the kernel and the allocator as a class, its laws, an
      instance; Disk.v: the laws of what the disk holds of a mapped file;
      Util.v: src/util.c and the C string functions; Cleanup.v: the helpers of
      src/util.c that only tests and benchmarks call.
    - Segment.v: src/segment.c on an open segment; SegmentFile.v: its names,
      [segment_open], [segment_close]. SegmentInv.v, SegmentOps.v,
      SegmentSpec.v, SegmentTypes.v, SegmentBytes.v are about the former,
      SegmentFileSpec.v, SegmentDurable.v, SegmentFrame.v about the latter.
      SegmentStub.v: the segment that a write too large for it leaves.
      SegmentCrash.v, SegmentCrashSpec.v and SegmentCrashGap.v: a segment and
      its disk, and what an open finds after a crash of the machine.
    - SegmentThreads.v: [segment_write] and [segment_read] as sequences of
      single accesses that interleave; SegmentThreadsInv.v,
      SegmentThreadsOps.v, SegmentThreadsStep.v, SegmentThreadsSpec.v and
      SegmentThreadsSeen.v prove what holds of every interleaving.
      SegmentThreadsSync.v: the accesses of [segment_sync];
      SegmentThreadsRest.v: a segment with one writer at a time, as a log
      has it.
    - Mbptree.v: src/mbptree.c; MbptreeInv.v, MbptreeOps.v, MbptreeAppend.v,
      MbptreeFind.v, MbptreeSpec.v are about it; MbptreePrint.v:
      [mbptree_print] and the breadth first iterator. MbptreeThreads.v:
      [mbptree_append], [mbptree_leaf_floor] and [mbptree_last_value] as single
      accesses that interleave, with MbptreeThreadsInv.v and MbptreeThreadsSpec.v.
    - Index.v: the class of the functions of mbptree.h that mqlog.c calls, with
      their laws; MbptreeIndex.v: the tree is an instance of both.
    - Layout.v: src/cassert.h and the sizes of the structures.
    - Pthread.v: the mutex. Mqlog.v: all of src/mqlog.c over the three classes;
      MqlogInv.v, MqlogSynced.v, MqlogOps.v, MqlogOpen.v, MqlogSpec.v,
      MqlogCommit.v, MqlogDurable.v, MqlogErrors.v are about it.
    - MqlogThreads.v: [mqlog_write], [mqlog_read] and [mqlog_sync] as single
      accesses that interleave, on top of those of the segments.
      MqlogThreadsAlone.v is about one call, MqlogThreadsInv.v,
      MqlogThreadsOps.v, MqlogThreadsStep.v, MqlogThreadsSync.v,
      MqlogThreadsWrite.v, MqlogThreadsSpec.v and MqlogThreadsSeen.v about all
      of them.

    ** What is proved

    Each theorem says in its comment what it assumes. Three assumptions come
    back. (1) Room in the index: the code maps an index of one entry for each
    96 bytes of data, rounded up to pages, and small payloads run past it
    ([index_too_small]). The theorems on a log ask that payloads have at least
    [lo] bytes, for an [lo] of which every payload that fits has a slot
    ([index_mapped]): 84 bytes are enough for any size ([mapped_84]) and no
    minimum is needed when a segment is one page ([mapped_page]). Payloads do
    not imitate an end mark ([payload_closes_segment]) and fit an empty
    segment ([oversized_write_bricks_log]). (2) A slot in the index file:
    reopening scans the file for a zero entry, and wants one after the last
    payload ([slots], [reopenable]). (3) Descriptor 0 is open, since the error
    paths of [segment_open] do not close it.

    Log. [log_refines_list]: any sequence of writes, reads and syncs on a log
    opened on a directory without segments is that of an append-only list,
    over any number of segments, with no undefined behaviour.
    [committed_log_refines_clog]: a log opened with [MQLOG_RDCMT] marks its
    payloads as the syncs reach them and shows the marked ones;
    [left_unsynced_stays_hidden] is what it never shows. The invariants hold
    in both read modes (the class [Mode]), and so do the theorems that do not
    say which.
    [log_close_stores] and [log_reopens]: what a close that returned 0 leaves
    on disk is what an open finds again, with either flag.
    [failed_read_keeps_lock], [oversized_write_bricks_log] and
    [unordered_directory_is_refused] are defects of the log, each stated for
    every log it can happen to.

    Segment. [segment_refines_queue]: a segment is an append-only queue bounded
    by its data and by its mapped index, in both read modes and for any
    payloads; where the index has no slot left the queue has no answer and the
    behaviour of the code is undefined. [segment_write_branches],
    [segment_read_safe], [segment_sync_branches] and
    [find_w_offset_pair_recovers] are its operations branch by branch.
    [index_too_small] and [payload_closes_segment] are its defects.
    [segment_open_releases], [segment_reopens] and [segment_names_roundtrip]
    are about the files and the resources. [operations_are_typed] (the fields
    stay in the ranges of their types) and [claim_is_claim_words] (the word
    that the code swaps stands for the pair that the model swaps) support the
    reading of the definitions.

    Durability. [synced_survives_crash]: the disk gets pages of a mapping when
    [msync] is called, and at any other time, in any order; what a positive
    result of [segment_sync] acknowledged is read again after a crash at any
    later point between two calls, as long as the index file keeps a slot.
    [sync_forgets_index] and [crash_repeats_payload] are what the code does not
    handle, for any segment that comes there.

    Concurrency on a segment. A state is a segment and the calls on it, each
    at one of its accesses; an event starts a call, lets one call make its
    next access, or moves the synced offset. [concurrent_calls_are_safe],
    [concurrent_writes_linearize], [concurrent_reads_are_stable] and
    [completed_writes_are_seen] hold of calm executions from a segment without
    end mark whose index has room: as long as at most one call of
    [segment_write] has not yet claimed its frame, or the frames of all that
    have not fit. mqlog.c calls [segment_write] with its mutex held, so that
    its executions are calm. The two halves of the write offset are loaded in
    one fixed order. [racing_marks_overrun] shows why calm is asked.
    [calls_are_wait_free] needs no condition, nor does [lost_race_is_progress]:
    a lost claim means that another call moved the write offset in between.
    The model cuts the operations a second time, into accesses;
    [alone_is_sequential] ties this translation to the sequential one.

    Concurrency on a log. The mutex makes one call the holder; what the holder
    has left to do is a suffix of the sequential operation on the log at rest,
    each segment sees its own calls, and the invariant of a segment holds of
    them, with one writer. [log_calls_are_safe], [log_writes_linearize],
    [log_reads_are_stable] and [completed_log_writes_are_seen] follow for every
    interleaving, any number of segments and any failure of the system, as
    long as no [mqlog_sync] reads the index within an append, which is a data
    race of the code ([sync_race], [last_value_meets_half_entry]).
    [log_calls_are_wait_free] holds with no condition and no law of the
    interfaces. [log_alone_is_sequential] ties the accesses to Mqlog.v.

    Index. [tree_refines_sorted_list]: the tree is an ascending list;
    [append_in_order], [leaf_floor_iterates], [lookup_is_logarithmic],
    [free_releases_every_node], [append_out_of_memory] and
    [print_visits_levels] are its operations.

    Concurrency on the index. [tree_lock_excludes]: with one lookup at a time
    under the lock, appends and lookups exclude each other and the tree stores
    what the appends stored; [tree_alone_is_sequential] ties the accesses to
    the sequential definitions. [stale_lookup_locks_tree],
    [two_lookups_lose_exclusion], [scan_meets_half_entry] and
    [last_value_meets_half_entry] are executions in which the lock fails, or is
    not there. mqlog.c holds its mutex when it appends or looks up, so that but
    for the last, from [mqlog_sync], they do not happen to a log.

    Frames and checksums. [header_write_read], [crc32_is_bitwise],
    [crc32_detects_burst].

    ** Bounds and fuel

    A decimal number is printed with 20 digits, which hold any 64-bit value.
    [mbptree_find_leaf] and [mbptree_free_node] take the size of the heap as
    fuel, which the height of a tree in the heap does not exceed; the walk of
    [mqlog_close] takes the number of segments and one more; the theorems show
    that these are enough. [mbptree_print] has a turn for each cell of the
    queue, [queue_cells], and one more, since each turn moves the head on.
    Loops over arrays and directory entries are structural.

    ** What is not modelled

    - The tests and the benchmarks; messages printed in debug builds.
    - The addresses and the release of iterators, which the library allocates
      and frees within a call.
    - Concurrent calls of [mqlog_open] and [mqlog_close], which mqlog.h does not
      declare thread safe. Weak memory: the concurrent models are sequentially
      consistent.
    - Files that other processes change. But for the theorems on durability, a
      file has what was stored in its mapping. A crash of the machine within a
      call, the order in which the disk gets the entries of a directory, and a
      log whose segments went down are not modelled. *)

From stdpp Require Export base list sorting gmap strings.
From coqutil Require Export Byte Word.LittleEndianList.
From Stdlib Require Export ZArith Lia ZifyBool.

#[export] Set Default Proof Using "Type".
#[export] Set Default Goal Selector "!".
#[global] Open Scope Z_scope.

(** ** Outcomes of C code

    [UB] is what the C standard leaves undefined and what an [assert] stops:
    an access outside an object, a null dereference, a failed assertion.
    [NoFuel] marks a recursion that was given too little fuel; the theorems
    exclude it. *)

Inductive result (A : Type) : Type :=
  | Ok (a : A)
  | UB
  | NoFuel.
Arguments Ok {A} _.
Arguments UB {A}.
Arguments NoFuel {A}.

#[export] Instance result_ret : MRet result := λ A, Ok.
#[export] Instance result_bind : MBind result := λ A B f m,
  match m with
  | Ok a => f a
  | UB => UB
  | NoFuel => NoFuel
  end.
#[export] Instance result_fmap : FMap result := λ A B f m,
  match m with
  | Ok a => Ok (f a)
  | UB => UB
  | NoFuel => NoFuel
  end.

(** [assert(b)] *)
Definition assertb (b : bool) : result unit := if b then Ok () else UB.

Definition of_option {A} (o : option A) : result A :=
  match o with Some a => Ok a | None => UB end.

Lemma bind_Ok {A B} (f : A → result B) a : (Ok a ≫= f) = f a.
Proof. done. Qed.

Lemma bind_Ok_inv {A B} (m : result A) (f : A → result B) b :
  m ≫= f = Ok b → ∃ a, m = Ok a ∧ f a = Ok b.
Proof. destruct m; simpl; [eauto | done | done]. Qed.

(** The parts of a result, without evaluating them. *)
Lemma Ok_triple {A B C} (a a' : A) (b b' : B) (c c' : C) :
  Ok (a, b, c) = Ok (a', b', c') → a = a' ∧ b = b' ∧ c = c'.
Proof. by intros [= -> -> ->]. Qed.

(** ** Machine widths (LP64: [int] 32 bits, [size_t] and [ssize_t] 64) *)

Definition u32 (z : Z) : Z := z mod 2 ^ 32.
Definition u64 (z : Z) : Z := z mod 2 ^ 64.
Definition i32 (z : Z) : Z := (z + 2 ^ 31) mod 2 ^ 32 - 2 ^ 31.
Definition i64 (z : Z) : Z := (z + 2 ^ 63) mod 2 ^ 64 - 2 ^ 63.

Lemma u32_small z : 0 ≤ z < 2 ^ 32 → u32 z = z.
Proof. apply Z.mod_small. Qed.
Lemma u64_small z : 0 ≤ z < 2 ^ 64 → u64 z = z.
Proof. apply Z.mod_small. Qed.
Lemma i32_small z : -2 ^ 31 ≤ z < 2 ^ 31 → i32 z = z.
Proof. intros. unfold i32. rewrite Z.mod_small; lia. Qed.
Lemma i64_small z : -2 ^ 63 ≤ z < 2 ^ 63 → i64 z = z.
Proof. intros. unfold i64. rewrite Z.mod_small; lia. Qed.
Lemma u32_range z : 0 ≤ u32 z < 2 ^ 32.
Proof. apply Z.mod_pos_bound. lia. Qed.
Lemma u64_range z : 0 ≤ u64 z < 2 ^ 64.
Proof. apply Z.mod_pos_bound. lia. Qed.

(** ** Byte memory

    A mapped region is the list of its bytes; an access outside it is [UB].
    Multi-byte fields are little endian. *)

Abbreviation bytes := (list Init.Byte.byte).
Abbreviation zlen l := (Z.of_nat (length l)).

Definition in_range {A} (off n : Z) (m : list A) : bool :=
  (0 <=? off) && (0 <=? n) && (off + n <=? zlen m).

Definition load (off n : Z) (m : bytes) : result bytes :=
  if in_range off n m
  then Ok (take (Z.to_nat n) (drop (Z.to_nat off) m)) else UB.

Definition store (off : Z) (bs : bytes) (m : bytes) : result bytes :=
  if in_range off (zlen bs) m
  then Ok (take (Z.to_nat off) m ++ bs ++ drop (Z.to_nat off + length bs) m)
  else UB.

Abbreviation le_bytes := le_split.
Abbreviation le_value := le_combine.

Definition load_le (n : nat) (off : Z) (m : bytes) : result Z :=
  bs ← load off (Z.of_nat n) m; Ok (le_value bs).

Definition store_le (n : nat) (off v : Z) (m : bytes) : result bytes :=
  store off (le_bytes n v) m.

#[global] Arguments load : simpl never.
#[global] Arguments store : simpl never.
#[global] Arguments load_le : simpl never.
#[global] Arguments store_le : simpl never.

Definition zeros (n : Z) : bytes := repeat Byte.x00 (Z.to_nat n).

(** ** Automation *)

(** [len]: length arithmetic. [peel]: locate a field in a concatenation. *)
Create Rewrite HintDb len.

Lemma length_zeros n : length (zeros n) = Z.to_nat n.
Proof. apply repeat_length. Qed.

#[export] Hint Rewrite @length_app @length_take @length_drop @length_insert
  @length_fmap @length_replicate @length_nil @length_cons
  @length_seq @Nat2Z.inj_add @Nat2Z.inj_succ
  @length_le_split @length_zeros Z2Nat.id Nat2Z.id using lia : len.

(** Sizes of the C structures, unfolded only for arithmetic. *)
Create HintDb sizes.
Ltac size_lia := autounfold with sizes in *; lia.

(** Lengths of lists, then linear arithmetic. *)
Ltac len :=
  autorewrite with len; simpl length in *; autorewrite with len in *; try lia;
  try size_lia.

(** Turn boolean comparisons in hypotheses into propositions. *)
Ltac bool_to_prop :=
  repeat match goal with
  | H : (_ && _)%bool = true |- _ => apply andb_true_iff in H as [? ?]
  | H : (_ && _)%bool = false |- _ => apply andb_false_iff in H
  | H : (_ || _)%bool = false |- _ => apply orb_false_iff in H as [? ?]
  | H : (_ <=? _) = true |- _ => apply Z.leb_le in H
  | H : (_ <=? _) = false |- _ => apply Z.leb_gt in H
  | H : (_ <? _) = true |- _ => apply Z.ltb_lt in H
  | H : (_ <? _) = false |- _ => apply Z.ltb_ge in H
  | H : (_ =? _) = true |- _ => apply Z.eqb_eq in H
  | H : (_ =? _) = false |- _ => apply Z.eqb_neq in H
  end.

(** Run the first step of a monadic computation with an equation for it. *)
Tactic Notation "run" uconstr(H) := rewrite H, ?bind_Ok.
Tactic Notation "run" uconstr(H) "by" tactic3(t) := rewrite H by t; rewrite ?bind_Ok.

(** Split [E : x ← m; k = Ok r] into the equations of its steps, and run the
    same steps in the goal. *)
Ltac run_along E :=
  repeat match type of E with
  | (_ ≫= _) = Ok _ =>
    let m := fresh "m" in let E1 := fresh "E" in
    apply bind_Ok_inv in E as (m & E1 & E); rewrite E1, ?bind_Ok
  end; rewrite E, ?bind_Ok.

(** ** Lemmas on the byte memory *)

Section memory.
Implicit Types (m pre mid post bs : bytes).

Lemma in_range_true {A} off n (m : list A) :
  in_range off n m = true ↔ 0 ≤ off ∧ 0 ≤ n ∧ off + n ≤ zlen m.
Proof. unfold in_range. rewrite !andb_true_iff, !Z.leb_le. tauto. Qed.

Lemma load_app pre mid post off n :
  off = zlen pre → n = zlen mid → load off n (pre ++ mid ++ post) = Ok mid.
Proof.
  intros -> ->. unfold load.
  rewrite (proj2 (in_range_true _ _ _)) by len.
  by rewrite !Nat2Z.id, drop_app_length, take_app_length.
Qed.

Lemma store_app pre mid post bs off :
  off = zlen pre → length mid = length bs →
  store off bs (pre ++ mid ++ post) = Ok (pre ++ bs ++ post).
Proof.
  intros -> Hl. unfold store.
  rewrite (proj2 (in_range_true _ _ _)) by len.
  rewrite Nat2Z.id, take_app_length, <- drop_drop, drop_app_length.
  by rewrite <- Hl, drop_app_length.
Qed.

Lemma load_le_app n pre mid post off :
  off = zlen pre → n = length mid →
  load_le n off (pre ++ mid ++ post) = Ok (le_value mid).
Proof. intros -> ->. unfold load_le. by rewrite load_app. Qed.

Lemma store_le_app n v pre mid post off :
  off = zlen pre → length mid = n →
  store_le n off v (pre ++ mid ++ post) = Ok (pre ++ le_bytes n v ++ post).
Proof. intros -> Hl. unfold store_le. apply store_app; [done|len]. Qed.

(** Peel a prefix: an access past [pre] happens in the rest. *)
Lemma load_skip pre m off k n :
  off = zlen pre + k → 0 ≤ k → load off n (pre ++ m) = load k n m.
Proof.
  intros -> Hk. unfold load, in_range.
  replace (zlen pre + k + n <=? zlen (pre ++ m)) with (k + n <=? zlen m)
    by (rewrite length_app; lia).
  replace (0 <=? zlen pre + k) with (0 <=? k) by lia.
  replace (Z.to_nat (zlen pre + k)) with (length pre + Z.to_nat k)%nat by lia.
  by rewrite <- drop_drop, drop_app_length.
Qed.

Lemma store_skip pre m bs off k :
  off = zlen pre + k → 0 ≤ k →
  store off bs (pre ++ m) = (m' ← store k bs m; Ok (pre ++ m')).
Proof.
  intros -> Hk. unfold store, in_range.
  replace (zlen pre + k + zlen bs <=? zlen (pre ++ m)) with (k + zlen bs <=? zlen m)
    by (rewrite length_app; lia).
  replace (0 <=? zlen pre + k) with (0 <=? k) by lia.
  replace (Z.to_nat (zlen pre + k)) with (length pre + Z.to_nat k)%nat by lia.
  destruct (_ && _)%bool; [|done]. simpl. f_equal.
  by rewrite <- Nat.add_assoc, take_app_add, <- drop_drop, drop_app_length, <- app_assoc.
Qed.

Lemma load_peel pre m off n :
  zlen pre ≤ off → load off n (pre ++ m) = load (off - zlen pre) n m.
Proof. intros. apply load_skip; lia. Qed.

Lemma store_peel pre m bs off :
  zlen pre ≤ off →
  store off bs (pre ++ m) = (m' ← store (off - zlen pre) bs m; Ok (pre ++ m')).
Proof. intros. apply store_skip; lia. Qed.

Lemma load_le_peel n pre m off :
  zlen pre ≤ off → load_le n off (pre ++ m) = load_le n (off - zlen pre) m.
Proof. intros. unfold load_le. by rewrite load_peel. Qed.

Lemma store_le_peel n v pre m off :
  zlen pre ≤ off →
  store_le n off v (pre ++ m) = (m' ← store_le n (off - zlen pre) v m; Ok (pre ++ m')).
Proof. apply store_peel. Qed.

Lemma load_le_head n mid post off :
  off = 0 → n = length mid → load_le n off (mid ++ post) = Ok (le_value mid).
Proof. intros -> ->. by apply (load_le_app _ []). Qed.

Lemma store_le_head n v mid post off :
  off = 0 → length mid = n →
  store_le n off v (mid ++ post) = Ok (le_bytes n v ++ post).
Proof. intros -> ?. by apply (store_le_app _ _ []). Qed.

Lemma load_out off n m : ¬ (0 ≤ off ∧ 0 ≤ n ∧ off + n ≤ zlen m) → load off n m = UB.
Proof.
  intros H. unfold load. destruct (in_range off n m) eqn:E; [|done].
  by apply in_range_true in E.
Qed.

Lemma store_out off bs m :
  ¬ (0 ≤ off ∧ off + zlen bs ≤ zlen m) → store off bs m = UB.
Proof.
  intros H. unfold store. destruct (in_range off (zlen bs) m) eqn:E; [|done].
  apply in_range_true in E. destruct H. lia.
Qed.

Lemma store_length off bs m m' : store off bs m = Ok m' → length m' = length m.
Proof.
  unfold store. destruct (in_range off (zlen bs) m) eqn:E; intros; simplify_eq.
  apply in_range_true in E. len.
Qed.

Lemma le_value_bytes n v : 0 ≤ v < 2 ^ (Z.of_nat n * 8) → le_value (le_bytes n v) = v.
Proof. intros. by rewrite le_combine_split, Z.mod_small. Qed.

Lemma zeros_split a b : 0 ≤ a ≤ b → zeros b = zeros a ++ zeros (b - a).
Proof.
  intros. unfold zeros. rewrite <- repeat_app. f_equal. lia.
Qed.

Lemma le_value_zeros n : le_value (zeros n) = 0.
Proof. apply le_combine_0. Qed.

(** Every list cuts at an in-range offset. *)
Lemma cut_at m off n :
  0 ≤ off → 0 ≤ n → off + n ≤ zlen m →
  ∃ pre mid post, m = pre ++ mid ++ post ∧ zlen pre = off ∧ zlen mid = n.
Proof.
  intros. exists (take (Z.to_nat off) m), (take (Z.to_nat n) (drop (Z.to_nat off) m)),
    (drop (Z.to_nat n) (drop (Z.to_nat off) m)).
  rewrite take_drop, take_drop. split; [done|]. len.
Qed.

Lemma load_Ok off n m :
  0 ≤ off → 0 ≤ n → off + n ≤ zlen m → ∃ bs, load off n m = Ok bs ∧ zlen bs = n.
Proof.
  intros. destruct (cut_at m off n) as (pre & mid & post & -> & <- & <-); [done..|].
  exists mid. by rewrite load_app.
Qed.

Lemma store_Ok off bs m :
  0 ≤ off → off + zlen bs ≤ zlen m → ∃ m', store off bs m = Ok m'.
Proof.
  intros. destruct (cut_at m off (zlen bs)) as (pre & mid & post & -> & <- & Hmid); [lia..|].
  exists (pre ++ bs ++ post). apply store_app; [done|lia].
Qed.
End memory.

(** Walk to the field a load or a store addresses: drop the parts of the
    concatenation before it, then read or replace it. *)
Ltac peel :=
  repeat first
    [ rewrite load_le_peel by len
    | rewrite store_le_peel by len ];
  first [ rewrite load_le_head by len | rewrite store_le_head by len ];
  rewrite ?bind_Ok.

(** ** Maps *)

Lemma length_le_size {A} (m : gmap Z A) (L : list Z) :
  NoDup L → (∀ x, x ∈ L → x ∈ dom m) → (length L ≤ size m)%nat.
Proof.
  intros Hnd Hsub. rewrite <- (size_list_to_set (C := gset Z)) by done. rewrite <- size_dom.
  apply subseteq_size. intros x Hx%elem_of_list_to_set. by apply Hsub.
Qed.
