(* ===== verification/Errno.v ===== *)
(** * Error codes (src/mqlogerrno.h)

    Every fallible operation of the library returns one of these negative
    codes, or a non-negative result. *)

From S2P Require Import Prelude.

Definition ELALLC  : Z := -1.   (* allocation error *)
Definition ELNOPGM : Z := -2.   (* size is not a multiple of page size *)
Definition ELSOFLW : Z := -3.   (* string overflow *)
Definition ELUNKWN : Z := -4.
Definition ELFLEOP : Z := -5.   (* file operation error *)
Definition ELFSTAT : Z := -6.
Definition ELSGRMT : Z := -7.
Definition ELSGSMT : Z := -8.
Definition ELMMAP  : Z := -9.   (* mmap error *)
Definition ELMADV  : Z := -10.  (* madvise error *)
Definition ELNOWCP : Z := -11.  (* no write capacity error *)
Definition ELNORD  : Z := -12.  (* nothing to read *)
Definition ELINVHD : Z := -13.  (* invalid frame error *)
Definition ELLGDIR : Z := -14.  (* log directory error *)
Definition ELLGCLS : Z := -15.  (* closing log error *)
Definition ELLGDTR : Z := -16.
Definition ELSGMNF : Z := -17.
Definition ELDTSYN : Z := -18.  (* segment sync error *)
Definition ELMTSYN : Z := -19.
Definition ELEOS   : Z := -20.  (* end of segment *)
Definition ELLOCK  : Z := -21.  (* lock held *)
Definition ELOSLOW : Z := -22.
Definition ELIDXCR : Z := -23.  (* failed to create index *)
Definition ELIDXOP : Z := -24.  (* index operation failed *)
Definition ELWOFFS : Z := -25.  (* failed to find write offset *)
Definition ELLDSGM : Z := -26.  (* failed to load segments *)
Definition ELLCKOP : Z := -28.  (* failed on lock operation *)
Definition ELIDXPC : Z := -29.  (* index operation panic *)
Definition ELIDXLK : Z := -30.  (* index is locked *)
Definition ELIDXNM : Z := -31.  (* key inserted violates monotonicity *)
