(* ===== verification/Crc32.v ===== *)
(** * CRC-32 (src/crc32.c)

    The table-driven routine, checked against the bit-serial shift register
    that the comment of the source describes, and what the checksum detects. *)

From S2P Require Import Prelude.

(** ** Definitions *)

(** [crc32_tab] *)
Definition crc32_tab : list Z := [
   0x00000000; 0x77073096; 0xee0e612c; 0x990951ba; 0x076dc419; 0x706af48f;
   0xe963a535; 0x9e6495a3; 0x0edb8832; 0x79dcb8a4; 0xe0d5e91e; 0x97d2d988;
   0x09b64c2b; 0x7eb17cbd; 0xe7b82d07; 0x90bf1d91; 0x1db71064; 0x6ab020f2;
   0xf3b97148; 0x84be41de; 0x1adad47d; 0x6ddde4eb; 0xf4d4b551; 0x83d385c7;
   0x136c9856; 0x646ba8c0; 0xfd62f97a; 0x8a65c9ec; 0x14015c4f; 0x63066cd9;
   0xfa0f3d63; 0x8d080df5; 0x3b6e20c8; 0x4c69105e; 0xd56041e4; 0xa2677172;
   0x3c03e4d1; 0x4b04d447; 0xd20d85fd; 0xa50ab56b; 0x35b5a8fa; 0x42b2986c;
   0xdbbbc9d6; 0xacbcf940; 0x32d86ce3; 0x45df5c75; 0xdcd60dcf; 0xabd13d59;
   0x26d930ac; 0x51de003a; 0xc8d75180; 0xbfd06116; 0x21b4f4b5; 0x56b3c423;
   0xcfba9599; 0xb8bda50f; 0x2802b89e; 0x5f058808; 0xc60cd9b2; 0xb10be924;
   0x2f6f7c87; 0x58684c11; 0xc1611dab; 0xb6662d3d; 0x76dc4190; 0x01db7106;
   0x98d220bc; 0xefd5102a; 0x71b18589; 0x06b6b51f; 0x9fbfe4a5; 0xe8b8d433;
   0x7807c9a2; 0x0f00f934; 0x9609a88e; 0xe10e9818; 0x7f6a0dbb; 0x086d3d2d;
   0x91646c97; 0xe6635c01; 0x6b6b51f4; 0x1c6c6162; 0x856530d8; 0xf262004e;
   0x6c0695ed; 0x1b01a57b; 0x8208f4c1; 0xf50fc457; 0x65b0d9c6; 0x12b7e950;
   0x8bbeb8ea; 0xfcb9887c; 0x62dd1ddf; 0x15da2d49; 0x8cd37cf3; 0xfbd44c65;
   0x4db26158; 0x3ab551ce; 0xa3bc0074; 0xd4bb30e2; 0x4adfa541; 0x3dd895d7;
   0xa4d1c46d; 0xd3d6f4fb; 0x4369e96a; 0x346ed9fc; 0xad678846; 0xda60b8d0;
   0x44042d73; 0x33031de5; 0xaa0a4c5f; 0xdd0d7cc9; 0x5005713c; 0x270241aa;
   0xbe0b1010; 0xc90c2086; 0x5768b525; 0x206f85b3; 0xb966d409; 0xce61e49f;
   0x5edef90e; 0x29d9c998; 0xb0d09822; 0xc7d7a8b4; 0x59b33d17; 0x2eb40d81;
   0xb7bd5c3b; 0xc0ba6cad; 0xedb88320; 0x9abfb3b6; 0x03b6e20c; 0x74b1d29a;
   0xead54739; 0x9dd277af; 0x04db2615; 0x73dc1683; 0xe3630b12; 0x94643b84;
   0x0d6d6a3e; 0x7a6a5aa8; 0xe40ecf0b; 0x9309ff9d; 0x0a00ae27; 0x7d079eb1;
   0xf00f9344; 0x8708a3d2; 0x1e01f268; 0x6906c2fe; 0xf762575d; 0x806567cb;
   0x196c3671; 0x6e6b06e7; 0xfed41b76; 0x89d32be0; 0x10da7a5a; 0x67dd4acc;
   0xf9b9df6f; 0x8ebeeff9; 0x17b7be43; 0x60b08ed5; 0xd6d6a3e8; 0xa1d1937e;
   0x38d8c2c4; 0x4fdff252; 0xd1bb67f1; 0xa6bc5767; 0x3fb506dd; 0x48b2364b;
   0xd80d2bda; 0xaf0a1b4c; 0x36034af6; 0x41047a60; 0xdf60efc3; 0xa867df55;
   0x316e8eef; 0x4669be79; 0xcb61b38c; 0xbc66831a; 0x256fd2a0; 0x5268e236;
   0xcc0c7795; 0xbb0b4703; 0x220216b9; 0x5505262f; 0xc5ba3bbe; 0xb2bd0b28;
   0x2bb45a92; 0x5cb36a04; 0xc2d7ffa7; 0xb5d0cf31; 0x2cd99e8b; 0x5bdeae1d;
   0x9b64c2b0; 0xec63f226; 0x756aa39c; 0x026d930a; 0x9c0906a9; 0xeb0e363f;
   0x72076785; 0x05005713; 0x95bf4a82; 0xe2b87a14; 0x7bb12bae; 0x0cb61b38;
   0x92d28e9b; 0xe5d5be0d; 0x7cdcefb7; 0x0bdbdf21; 0x86d3d2d4; 0xf1d4e242;
   0x68ddb3f8; 0x1fda836e; 0x81be16cd; 0xf6b9265b; 0x6fb077e1; 0x18b74777;
   0x88085ae6; 0xff0f6a70; 0x66063bca; 0x11010b5c; 0x8f659eff; 0xf862ae69;
   0x616bffd3; 0x166ccf45; 0xa00ae278; 0xd70dd2ee; 0x4e048354; 0x3903b3c2;
   0xa7672661; 0xd06016f7; 0x4969474d; 0x3e6e77db; 0xaed16a4a; 0xd9d65adc;
   0x40df0b66; 0x37d83bf0; 0xa9bcae53; 0xdebb9ec5; 0x47b2cf7f; 0x30b5ffe9;
   0xbdbdf21c; 0xcabac28a; 0x53b39330; 0x24b4a3a6; 0xbad03605; 0xcdd70693;
   0x54de5729; 0x23d967bf; 0xb3667a2e; 0xc4614ab8; 0x5d681b02; 0x2a6f2b94;
   0xb40bbe37; 0xc30c8ea1; 0x5a05df1b; 0x2d02ef8d
].

(** [crc32_tab[i]]; [crc32_index_in_table] shows that no access is outside it. *)
Definition crc32_tab_get (i : Z) : Z := nth (Z.to_nat i) crc32_tab 0.

(** [~0U] *)
Definition ones32 : Z := Z.ones 32.

(** The body of the loop: [crc32_tab[(crc ^ *p++) & 0xFF] ^ (crc >> 8)]. *)
Definition crc32_index (crc : Z) (b : Init.Byte.byte) : Z :=
  Z.land (Z.lxor crc (byte.unsigned b)) 0xFF.
Definition crc32_step (crc : Z) (b : Init.Byte.byte) : Z :=
  Z.lxor (crc32_tab_get (crc32_index crc b)) (Z.shiftr crc 8).

(** [while (size--)] over the [size] bytes of the buffer. *)
Fixpoint crc32_loop (crc : Z) (buf : bytes) : Z :=
  match buf with
  | [] => crc
  | b :: buf => crc32_loop (crc32_step crc b) buf
  end.

Definition crc32 (crc : Z) (buf : bytes) : Z :=
  Z.lxor (crc32_loop (Z.lxor crc ones32) buf) ones32.

(** The shift register of the comment: polynomial [0xedb88320], one bit at a
    time, low bit first. *)
Definition crc_poly : Z := 0xedb88320.
Definition bit_step (x : Z) : Z :=
  if Z.testbit x 0 then Z.lxor crc_poly (Z.shiftr x 1) else Z.shiftr x 1.
Definition bit_steps (n : nat) (x : Z) : Z := Nat.iter n bit_step x.
Definition crc32_bitwise (crc : Z) (buf : bytes) : Z :=
  Z.lxor (fold_left (λ c b, bit_steps 8 (Z.lxor c (byte.unsigned b))) buf
            (Z.lxor crc ones32)) ones32.

(** ** The table is eight steps of the register *)

Definition table_agrees (i : nat) : bool :=
  nth i crc32_tab 0 =? bit_steps 8 (Z.of_nat i).

Lemma table_agrees_all : forallb table_agrees (seq 0 256) = true.
Proof. vm_compute. reflexivity. Qed.

Lemma crc32_tab_get_spec i : 0 ≤ i < 256 → crc32_tab_get i = bit_steps 8 i.
Proof.
  intros Hi. pose proof table_agrees_all as H. rewrite forallb_forall in H.
  specialize (H (Z.to_nat i)). unfold table_agrees in H.
  rewrite Z2Nat.id, Z.eqb_eq in H by lia. apply H, in_seq. lia.
Qed.

Lemma crc32_index_range crc b : 0 ≤ crc32_index crc b < 256.
Proof.
  unfold crc32_index. change 0xFF with (Z.ones 8).
  rewrite Z.land_ones by lia. apply Z.mod_pos_bound. lia.
Qed.

(** ** The register is linear *)

Lemma lxor_swap a b c d :
  Z.lxor (Z.lxor a b) (Z.lxor c d) = Z.lxor (Z.lxor a c) (Z.lxor b d).
Proof.
  rewrite !Z.lxor_assoc. f_equal. rewrite <- !Z.lxor_assoc. f_equal. apply Z.lxor_comm.
Qed.

Lemma bit_step_lxor a b : bit_step (Z.lxor a b) = Z.lxor (bit_step a) (bit_step b).
Proof.
  unfold bit_step. rewrite Z.lxor_spec, Z.shiftr_lxor.
  destruct (Z.testbit a 0), (Z.testbit b 0); simpl xorb; cbv iota.
  - by rewrite lxor_swap, Z.lxor_nilpotent.
  - by rewrite Z.lxor_assoc.
  - rewrite <- !Z.lxor_assoc. by rewrite (Z.lxor_comm crc_poly).
  - done.
Qed.

Lemma bit_steps_lxor n a b :
  bit_steps n (Z.lxor a b) = Z.lxor (bit_steps n a) (bit_steps n b).
Proof. induction n as [|n IH]; simpl; [done|]. by rewrite IH, bit_step_lxor. Qed.

Lemma bit_steps_succ n x : bit_steps (S n) x = bit_steps n (bit_step x).
Proof. unfold bit_steps. by rewrite Nat.iter_succ_r. Qed.

Lemma bit_steps_add n m x : bit_steps (n + m) x = bit_steps n (bit_steps m x).
Proof. apply Nat.iter_add. Qed.

Lemma bit_steps_shiftl n h : bit_steps n (Z.shiftl h (Z.of_nat n)) = h.
Proof.
  induction n as [|n IH]; [apply Z.shiftl_0_r|].
  rewrite bit_steps_succ. unfold bit_step.
  rewrite Z.shiftl_spec_low by lia.
  rewrite Z.shiftr_shiftl_l by lia.
  replace (Z.of_nat (S n) - 1) with (Z.of_nat n) by lia. apply IH.
Qed.

Lemma low_high_byte x : x = Z.lxor (Z.land x 0xFF) (Z.shiftl (Z.shiftr x 8) 8).
Proof.
  apply Z.bits_inj'. intros i Hi. change 0xFF with (Z.ones 8).
  rewrite Z.lxor_spec, Z.land_spec, Z.testbit_ones_nonneg by lia.
  destruct (Z.ltb_spec i 8).
  - by rewrite Z.shiftl_spec_low, xorb_false_r, andb_true_r by lia.
  - rewrite Z.shiftl_spec, Z.shiftr_spec by lia.
    rewrite andb_false_r, xorb_false_l. f_equal. lia.
Qed.

Lemma unsigned_high b : Z.shiftr (byte.unsigned b) 8 = 0.
Proof.
  rewrite Z.shiftr_div_pow2 by lia. apply Z.div_small.
  pose proof (byte.unsigned_range b). lia.
Qed.

(** One table step is eight steps of the register. *)
Lemma crc32_step_bits crc b :
  crc32_step crc b = bit_steps 8 (Z.lxor crc (byte.unsigned b)).
Proof.
  unfold crc32_step. rewrite crc32_tab_get_spec by apply crc32_index_range.
  rewrite (low_high_byte (Z.lxor crc (byte.unsigned b))), bit_steps_lxor.
  fold (crc32_index crc b). f_equal.
  change 8 with (Z.of_nat 8) at 3. rewrite bit_steps_shiftl.
  by rewrite Z.shiftr_lxor, unsigned_high, Z.lxor_0_r.
Qed.

Lemma crc32_loop_fold crc buf : crc32_loop crc buf = fold_left crc32_step buf crc.
Proof. revert crc. induction buf as [|b buf IH]; intros; simpl; auto. Qed.

Lemma crc32_loop_app crc a b : crc32_loop crc (a ++ b) = crc32_loop (crc32_loop crc a) b.
Proof. by rewrite !crc32_loop_fold, fold_left_app. Qed.

(** ** Width *)

Lemma lxor_range n a b :
  0 ≤ n → 0 ≤ a < 2 ^ n → 0 ≤ b < 2 ^ n → 0 ≤ Z.lxor a b < 2 ^ n.
Proof.
  intros Hn Ha Hb. rewrite <- (Z.mod_small a (2 ^ n)), <- (Z.mod_small b (2 ^ n)) by lia.
  rewrite <- !Z.land_ones by lia.
  replace (Z.lxor _ _) with (Z.land (Z.lxor a b) (Z.ones n)).
  - rewrite Z.land_ones by lia. apply Z.mod_pos_bound. lia.
  - apply Z.bits_inj'. intros i Hi. rewrite ?Z.land_spec, ?Z.lxor_spec, ?Z.land_spec.
    by destruct (Z.testbit a i), (Z.testbit b i), (Z.testbit (Z.ones n) i).
Qed.

Lemma bit_step_range x : 0 ≤ x < 2 ^ 32 → 0 ≤ bit_step x < 2 ^ 32.
Proof.
  intros Hx. unfold bit_step.
  assert (0 ≤ Z.shiftr x 1 < 2 ^ 32).
  { rewrite Z.shiftr_div_pow2 by lia. split; [apply Z.div_pos; lia|].
    apply Z.div_lt_upper_bound; lia. }
  destruct (Z.testbit x 0); [|done]. apply lxor_range; [lia| |done]. unfold crc_poly. lia.
Qed.

Lemma bit_steps_range n x : 0 ≤ x < 2 ^ 32 → 0 ≤ bit_steps n x < 2 ^ 32.
Proof. intros Hx. induction n; simpl; [done|]. by apply bit_step_range. Qed.

Lemma crc32_step_range crc b : 0 ≤ crc < 2 ^ 32 → 0 ≤ crc32_step crc b < 2 ^ 32.
Proof.
  intros Hc. rewrite crc32_step_bits. apply bit_steps_range, lxor_range; [lia|done|].
  pose proof (byte.unsigned_range b). lia.
Qed.

Lemma crc32_loop_range crc buf : 0 ≤ crc < 2 ^ 32 → 0 ≤ crc32_loop crc buf < 2 ^ 32.
Proof.
  revert crc. induction buf as [|b buf IH]; intros crc Hc; simpl; [done|].
  by apply IH, crc32_step_range.
Qed.

Lemma crc32_range_lemma crc buf : 0 ≤ crc < 2 ^ 32 → 0 ≤ crc32 crc buf < 2 ^ 32.
Proof.
  intros Hc. unfold crc32.
  apply lxor_range; [lia| |unfold ones32; vm_compute; split; congruence].
  apply crc32_loop_range, lxor_range; [lia|done|unfold ones32; vm_compute; split; congruence].
Qed.

(** ** What the checksum detects

    The whole loop is one polynomial division: the register run over the
    message read as a little-endian number. *)

Lemma le_value_cons b bs :
  le_value (b :: bs) = Z.lxor (byte.unsigned b) (Z.shiftl (le_value bs) 8).
Proof.
  change (le_value (b :: bs)) with (Z.lor (byte.unsigned b) (Z.shiftl (le_value bs) 8)).
  rewrite <- byte.wrap_unsigned. unfold byte.wrap. rewrite <- Z.land_ones by lia.
  apply Z.bits_inj'. intros i Hi.
  rewrite Z.lor_spec, Z.lxor_spec, Z.land_spec, Z.testbit_ones_nonneg by lia.
  destruct (Z.ltb_spec i 8).
  - by rewrite Z.shiftl_spec_low, orb_false_r, xorb_false_r by lia.
  - by rewrite andb_false_r.
Qed.

Lemma crc32_loop_division crc buf :
  crc32_loop crc buf = bit_steps (8 * length buf) (Z.lxor crc (le_value buf)).
Proof.
  revert crc. induction buf as [|b buf IH]; intros crc; simpl crc32_loop.
  - by rewrite Z.lxor_0_r.
  - rewrite IH, crc32_step_bits.
    replace (8 * length (b :: buf))%nat with (8 * length buf + 8)%nat by (simpl; lia).
    rewrite bit_steps_add, le_value_cons, <- Z.lxor_assoc, (bit_steps_lxor 8 (Z.lxor _ _)).
    by rewrite (bit_steps_shiftl 8).
Qed.

Lemma bit_step_zero x : 0 ≤ x < 2 ^ 32 → bit_step x = 0 → x = 0.
Proof.
  intros Hx. unfold bit_step. destruct (Z.testbit x 0) eqn:E; intros H.
  - apply (f_equal (λ z, Z.testbit z 31)) in H. rewrite Z.lxor_spec, Z.shiftr_spec in H by lia.
    rewrite (Z.bits_above_log2 x) in H; [done|lia|].
    destruct (decide (x = 0)) as [->|]; [done|]. apply Z.log2_lt_pow2; lia.
  - rewrite Z.shiftr_div_pow2 in H by lia.
    rewrite Z.bit0_odd, <- Z.negb_even in E. apply negb_false_iff in E.
    apply Z.even_spec in E as [k ->]. change (2 ^ 1) with 2 in H.
    rewrite Z.mul_comm, Z.div_mul in H by lia. lia.
Qed.

Lemma bit_steps_zero n x : 0 ≤ x < 2 ^ 32 → bit_steps n x = 0 → x = 0.
Proof.
  intros Hx. induction n as [|n IH]; simpl; [done|].
  intros H. apply IH, bit_step_zero, H. by apply bit_steps_range.
Qed.

Lemma bit_steps_inj n x y :
  0 ≤ x < 2 ^ 32 → 0 ≤ y < 2 ^ 32 → bit_steps n x = bit_steps n y → x = y.
Proof.
  intros Hx Hy H. apply Z.lxor_eq, (bit_steps_zero n); [by apply lxor_range|].
  by rewrite bit_steps_lxor, H, Z.lxor_nilpotent.
Qed.

Lemma lxor_inj_r a b c : Z.lxor a c = Z.lxor b c → a = b.
Proof.
  intros H%(f_equal (λ z, Z.lxor z c)).
  by rewrite !Z.lxor_assoc, !Z.lxor_nilpotent, !Z.lxor_0_r in H.
Qed.

(** Equal registers stay distinguishable: the loop is injective in its state. *)
Lemma crc32_loop_state_inj x y buf :
  0 ≤ x < 2 ^ 32 → 0 ≤ y < 2 ^ 32 → crc32_loop x buf = crc32_loop y buf → x = y.
Proof.
  intros Hx Hy. rewrite !crc32_loop_division, !bit_steps_lxor.
  intros H%lxor_inj_r. by apply bit_steps_inj in H.
Qed.

Lemma le_value_word_range (m : bytes) : (length m ≤ 4)%nat → 0 ≤ le_value m < 2 ^ 32.
Proof.
  intros Hm. pose proof (le_combine_bound m) as [H1 H2]. split; [done|].
  eapply Z.lt_le_trans; [done|]. apply Z.pow_le_mono_r; lia.
Qed.

(** A word of message is determined by the register before and after it. *)
Lemma crc32_loop_word_inj c m m' :
  length m = length m' → (length m ≤ 4)%nat →
  crc32_loop c m = crc32_loop c m' → m = m'.
Proof.
  intros Hl H4. rewrite !crc32_loop_division, Hl, !(Z.lxor_comm c), !bit_steps_lxor.
  intros H%lxor_inj_r. apply bit_steps_inj in H; [|by apply le_value_word_range; lia..].
  by apply le_combine_inj.
Qed.

Lemma ones32_range : 0 ≤ ones32 < 2 ^ 32.
Proof. unfold ones32. vm_compute. split; congruence. Qed.

(** ** Properties *)

(** [C36]: for every initial value and every buffer, the table-driven [crc32] of
    crc32.c computes the bit-serial CRC of the polynomial [0xedb88320] that
    the comment of the file describes. *)
Theorem crc32_is_bitwise crc buf : crc32 crc buf = crc32_bitwise crc buf.
Proof.
  unfold crc32, crc32_bitwise. f_equal. rewrite crc32_loop_fold. generalize (Z.lxor crc ones32).
  induction buf as [|b buf IH]; intros c; simpl; [done|]. by rewrite crc32_step_bits, IH.
Qed.

(** the checksum can be computed piecewise: continuing from
    the checksum of a first block over a second one is the checksum of the
    two blocks concatenated, and the result always fits in 32 bits. *)
Theorem crc32_streaming crc a b :
  0 ≤ crc < 2 ^ 32 →
  crc32 (crc32 crc a) b = crc32 crc (a ++ b) ∧ 0 ≤ crc32 crc (a ++ b) < 2 ^ 32.
Proof.
  intros Hc. split; [|by apply crc32_range_lemma]. unfold crc32. rewrite crc32_loop_app.
  by rewrite Z.lxor_assoc, Z.lxor_nilpotent, Z.lxor_0_r.
Qed.

(** The checksum detects every corruption confined to four
    consecutive bytes: two buffers that differ only there have different
    checksums. *)
Theorem crc32_detects_burst crc p m m' q :
  0 ≤ crc < 2 ^ 32 → length m = length m' → (length m ≤ 4)%nat → m ≠ m' →
  crc32 crc (p ++ m ++ q) ≠ crc32 crc (p ++ m' ++ q).
Proof.
  intros Hc Hl H4 Hne H. unfold crc32 in H. apply lxor_inj_r in H.
  rewrite !crc32_loop_app in H. set (x := crc32_loop (Z.lxor crc ones32) p) in H.
  assert (0 ≤ x < 2 ^ 32).
  { apply crc32_loop_range, lxor_range; [lia|done|apply ones32_range]. }
  apply crc32_loop_state_inj in H; [|by apply crc32_loop_range..].
  by apply crc32_loop_word_inj in H.
Qed.

Lemma crc32_streaming_witness :
  crc32 (crc32 0 [Byte.x61; Byte.x62]) [Byte.x63] = crc32 0 [Byte.x61; Byte.x62; Byte.x63] ∧
  0 ≤ crc32 0 [Byte.x61; Byte.x62; Byte.x63] < 2 ^ 32.
Proof. apply (crc32_streaming 0 [Byte.x61; Byte.x62] [Byte.x63]). lia. Defined.

Lemma crc32_detects_burst_witness :
  crc32 0 ([Byte.x01] ++ [Byte.x61; Byte.x62] ++ [Byte.x07]) ≠
  crc32 0 ([Byte.x01] ++ [Byte.x61; Byte.x63] ++ [Byte.x07]).
Proof.
  apply (crc32_detects_burst 0 [Byte.x01] [Byte.x61; Byte.x62] [Byte.x61; Byte.x63] [Byte.x07]);
    [lia|done|simpl; lia|congruence].
Defined.

(** The check value of the standard: the checksum of "123456789". *)
Example crc32_check_value :
  crc32 0 [Byte.x31; Byte.x32; Byte.x33; Byte.x34; Byte.x35; Byte.x36; Byte.x37;
           Byte.x38; Byte.x39] = 0xCBF43926.
Proof. vm_compute. reflexivity. Qed.
