(* ===== verification/Prot.v ===== *)
(** * Frame protocol (src/prot.h, src/prot.c)

    A frame is a 12-byte header followed by its payload. The header is read
    and written field by field in the mapped memory; [read_header] and
    [header_bytes] are its value and its encoding. *)

From S2P Require Import Prelude.

(** ** Definitions *)

Definition HEADER_FLAGS_EMPTY : Z := 0x0000.
Definition HEADER_FLAGS_READY : Z := 0xbeef.
Definition HEADER_FLAGS_EOS   : Z := 0xaaaa.
Definition HEADER_VERSION     : Z := 0x0.
Definition HEADER_PAD         : Z := 0x0.

(** [struct header] *)
Record header := Header {
  h_flags   : Z;  (* uint16_t *)
  h_version : Z;  (* uint8_t *)
  h_pad     : Z;  (* uint8_t *)
  h_size    : Z;  (* uint32_t *)
  h_crc32   : Z;  (* uint32_t *)
}.

(** [sizeof(struct header)] *)
Definition header_size : Z := 12.
#[export] Hint Unfold header_size : sizes.

(** A mapped region: the address it is mapped at and its bytes. *)
Record region := Region { r_base : Z; r_mem : bytes }.

(** [struct frame]: the two pointers a read hands to its caller. *)
Record frame := Frame { fr_hdr : Z; fr_buffer : Z }.

(** The fields of the header at offset [off]. *)
Definition get_flags (off : Z) (m : bytes) : result Z := load_le 2 off m.
Definition get_version (off : Z) (m : bytes) : result Z := load_le 1 (off + 2) m.
Definition get_pad (off : Z) (m : bytes) : result Z := load_le 1 (off + 3) m.
Definition get_size (off : Z) (m : bytes) : result Z := load_le 4 (off + 4) m.
Definition get_crc32 (off : Z) (m : bytes) : result Z := load_le 4 (off + 8) m.
Definition set_flags (off v : Z) (m : bytes) : result bytes := store_le 2 off v m.
Definition set_version (off v : Z) (m : bytes) : result bytes := store_le 1 (off + 2) v m.
Definition set_pad (off v : Z) (m : bytes) : result bytes := store_le 1 (off + 3) v m.
Definition set_size (off v : Z) (m : bytes) : result bytes := store_le 4 (off + 4) v m.
Definition set_crc32 (off v : Z) (m : bytes) : result bytes := store_le 4 (off + 8) v m.

Definition read_header (off : Z) (m : bytes) : result header :=
  flags ← get_flags off m;
  version ← get_version off m;
  pad ← get_pad off m;
  size ← get_size off m;
  crc ← get_crc32 off m;
  Ok (Header flags version pad size crc).

Definition header_bytes (h : header) : bytes :=
  le_bytes 2 (h_flags h) ++ le_bytes 1 (h_version h) ++ le_bytes 1 (h_pad h) ++
  le_bytes 4 (h_size h) ++ le_bytes 4 (h_crc32 h).

Definition header_init (off : Z) (m : bytes) : result bytes :=
  m ← set_flags off HEADER_FLAGS_EMPTY m;
  m ← set_version off HEADER_VERSION m;
  set_pad off HEADER_PAD m.

Definition frame_payload_size (r : region) (fr : frame) : result Z :=
  size ← get_size (fr_hdr fr - r_base r) (r_mem r);
  Ok (u64 (size - header_size)).

Definition prot_is_header (off : Z) (m : bytes) : result bool :=
  flags ← get_flags off m;
  Ok ((flags =? HEADER_FLAGS_READY) || (flags =? HEADER_FLAGS_EOS)).

(** What a client reads through the [buffer] pointer of a frame. *)
Definition frame_payload (r : region) (fr : frame) : result bytes :=
  n ← frame_payload_size r fr;
  load (fr_buffer fr - r_base r) n (r_mem r).

#[global] Arguments get_flags : simpl never.
#[global] Arguments get_version : simpl never.
#[global] Arguments get_pad : simpl never.
#[global] Arguments get_size : simpl never.
#[global] Arguments get_crc32 : simpl never.
#[global] Arguments set_flags : simpl never.
#[global] Arguments set_version : simpl never.
#[global] Arguments set_pad : simpl never.
#[global] Arguments set_size : simpl never.
#[global] Arguments set_crc32 : simpl never.

(** ** Well-formed headers and their encoding *)

Definition header_ok (h : header) : Prop :=
  0 ≤ h_flags h < 2 ^ 16 ∧ 0 ≤ h_version h < 2 ^ 8 ∧ 0 ≤ h_pad h < 2 ^ 8 ∧
  0 ≤ h_size h < 2 ^ 32 ∧ 0 ≤ h_crc32 h < 2 ^ 32.

Lemma length_header_bytes h : length (header_bytes h) = 12%nat.
Proof. done. Qed.
#[export] Hint Rewrite length_header_bytes : len.

Lemma zlen_header_bytes h : zlen (header_bytes h) = header_size.
Proof. done. Qed.

(** The five fields of a header as they lie in memory. *)
Definition fields (f v p s c : bytes) : bytes := f ++ v ++ p ++ s ++ c.
#[global] Arguments fields : simpl never.

Section fields.
Context (pre post f v p s c : bytes).
Hypothesis (Hf : length f = 2%nat) (Hv : length v = 1%nat) (Hp : length p = 1%nat).
Hypothesis (Hs : length s = 4%nat) (Hc : length c = 4%nat).
Let m := pre ++ fields f v p s c ++ post.

Local Ltac field :=
  unfold get_flags, get_version, get_pad, get_size, get_crc32,
    set_flags, set_version, set_pad, set_size, set_crc32, m, fields;
  rewrite <- ?app_assoc; peel; rewrite <- ?app_assoc; done.

Lemma get_flags_fields : get_flags (zlen pre) m = Ok (le_value f).
Proof using All. field. Qed.
Lemma get_version_fields : get_version (zlen pre) m = Ok (le_value v).
Proof using All. field. Qed.
Lemma get_pad_fields : get_pad (zlen pre) m = Ok (le_value p).
Proof using All. field. Qed.
Lemma get_size_fields : get_size (zlen pre) m = Ok (le_value s).
Proof using All. field. Qed.
Lemma get_crc32_fields : get_crc32 (zlen pre) m = Ok (le_value c).
Proof using All. field. Qed.

Lemma set_flags_fields x :
  set_flags (zlen pre) x m = Ok (pre ++ fields (le_bytes 2 x) v p s c ++ post).
Proof using All. field. Qed.
Lemma set_version_fields x :
  set_version (zlen pre) x m = Ok (pre ++ fields f (le_bytes 1 x) p s c ++ post).
Proof using All. field. Qed.
Lemma set_pad_fields x :
  set_pad (zlen pre) x m = Ok (pre ++ fields f v (le_bytes 1 x) s c ++ post).
Proof using All. field. Qed.
Lemma set_size_fields x :
  set_size (zlen pre) x m = Ok (pre ++ fields f v p (le_bytes 4 x) c ++ post).
Proof using All. field. Qed.
Lemma set_crc32_fields x :
  set_crc32 (zlen pre) x m = Ok (pre ++ fields f v p s (le_bytes 4 x) ++ post).
Proof using All. field. Qed.
End fields.

Lemma fields_cut (old : bytes) :
  length old = 12%nat →
  ∃ f v p s c, old = fields f v p s c ∧ length f = 2%nat ∧ length v = 1%nat ∧
    length p = 1%nat ∧ length s = 4%nat ∧ length c = 4%nat.
Proof.
  intros H. do 12 (destruct old as [|? old]; [done|]). destruct old; [|done].
  by eexists [_; _], [_], [_], [_; _; _; _], [_; _; _; _].
Qed.

(** The header a successful write leaves: every field is overwritten, the
    flags last. *)
Lemma write_header pre old post crc size flags :
  length old = 12%nat →
  (m ← header_init (zlen pre) (pre ++ old ++ post);
   m ← set_crc32 (zlen pre) crc m;
   m ← set_size (zlen pre) size m;
   set_flags (zlen pre) flags m) =
  Ok (pre ++ header_bytes (Header flags HEADER_VERSION HEADER_PAD size crc) ++ post).
Proof.
  intros (f & v & p & s & c & -> & ? & ? & ? & ? & ?)%fields_cut.
  unfold header_init. run set_flags_fields by done.
  run set_version_fields by done. run set_pad_fields by done.
  run set_crc32_fields by done. run set_size_fields by done.
  by rewrite set_flags_fields.
Qed.

(** An end-of-segment mark does not write the checksum: the four bytes that
    were there stay. *)
Lemma write_eos_header pre old post size flags :
  length old = 12%nat →
  (m ← header_init (zlen pre) (pre ++ old ++ post);
   m ← set_size (zlen pre) size m;
   set_flags (zlen pre) flags m) =
  Ok (pre ++ header_bytes (Header flags HEADER_VERSION HEADER_PAD size
                             (le_value (drop 8 old))) ++ post).
Proof.
  intros (f & v & p & s & c & -> & ? & ? & ? & ? & Hc)%fields_cut.
  unfold header_init. run set_flags_fields by done.
  run set_version_fields by done. run set_pad_fields by done.
  run set_size_fields by done. run set_flags_fields by done.
  do 3 f_equal. unfold fields, header_bytes; simpl.
  do 4 f_equal. rewrite (drop_app_ge _ _ 8), (drop_app_ge _ _), (drop_app_ge _ _),
    (drop_app_ge _ _) by len.
  replace (_ - _ - _ - _ - _)%nat with 0%nat by lia. rewrite drop_0.
  by rewrite <- Hc, split_le_combine.
Qed.

Section encoded.
Context (pre post : bytes) (h : header) (Hok : header_ok h).
Let m := pre ++ header_bytes h ++ post.

Local Ltac encoded L :=
  destruct Hok as (? & ? & ? & ? & ?); unfold m; fold (fields (le_bytes 2 (h_flags h))
    (le_bytes 1 (h_version h)) (le_bytes 1 (h_pad h)) (le_bytes 4 (h_size h))
    (le_bytes 4 (h_crc32 h)));
  etransitivity; [apply L; done|]; by rewrite le_value_bytes.

Lemma get_flags_encoded : get_flags (zlen pre) m = Ok (h_flags h).
Proof using All. encoded get_flags_fields. Qed.
Lemma get_version_encoded : get_version (zlen pre) m = Ok (h_version h).
Proof using All. encoded get_version_fields. Qed.
Lemma get_pad_encoded : get_pad (zlen pre) m = Ok (h_pad h).
Proof using All. encoded get_pad_fields. Qed.
Lemma get_size_encoded : get_size (zlen pre) m = Ok (h_size h).
Proof using All. encoded get_size_fields. Qed.
Lemma get_crc32_encoded : get_crc32 (zlen pre) m = Ok (h_crc32 h).
Proof using All. encoded get_crc32_fields. Qed.

Lemma read_header_encoded : read_header (zlen pre) m = Ok h.
Proof using All.
  unfold read_header.
  run get_flags_encoded. run get_version_encoded. run get_pad_encoded.
  run get_size_encoded. run get_crc32_encoded. by destruct h.
Qed.
End encoded.

(** ** Properties *)

(** The fields a writer stores are the fields a reader loads: whatever 12 bytes
    were at an offset, running [header_init] and storing a checksum, a size
    and flags there succeeds, leaves every byte outside the header alone, and
    [read_header] then returns exactly the version-0 header with those
    fields; [prot_is_header] holds of it exactly when the flags are READY or
    EOS. *)
Theorem header_write_read pre old post crc size flags :
  length old = 12%nat →
  0 ≤ flags < 2 ^ 16 → 0 ≤ size < 2 ^ 32 → 0 ≤ crc < 2 ^ 32 →
  ∃ hb, length hb = 12%nat ∧
    (m ← header_init (zlen pre) (pre ++ old ++ post);
     m ← set_crc32 (zlen pre) crc m;
     m ← set_size (zlen pre) size m;
     set_flags (zlen pre) flags m) = Ok (pre ++ hb ++ post) ∧
    read_header (zlen pre) (pre ++ hb ++ post) = Ok (Header flags 0 0 size crc) ∧
    prot_is_header (zlen pre) (pre ++ hb ++ post) =
      Ok (bool_decide (flags = HEADER_FLAGS_READY ∨ flags = HEADER_FLAGS_EOS)).
Proof.
  intros Hold Hf Hs Hc. set (h := Header flags 0 0 size crc).
  assert (header_ok h) by (unfold header_ok; simpl; lia).
  exists (header_bytes h). split; [done|]. split; [by apply write_header|].
  split; [by apply read_header_encoded|].
  unfold prot_is_header. run get_flags_encoded by done. f_equal.
  simpl h_flags. case_bool_decide; lia.
Qed.

Lemma header_write_read_witness :
  ∃ hb, length hb = 12%nat ∧
    (m ← header_init 1 ([Byte.x07] ++ zeros 12 ++ []);
     m ← set_crc32 1 77 m; m ← set_size 1 15 m;
     set_flags 1 HEADER_FLAGS_READY m) = Ok ([Byte.x07] ++ hb ++ []) ∧
    read_header 1 ([Byte.x07] ++ hb ++ []) = Ok (Header HEADER_FLAGS_READY 0 0 15 77) ∧
    prot_is_header 1 ([Byte.x07] ++ hb ++ []) =
      Ok (bool_decide (HEADER_FLAGS_READY = HEADER_FLAGS_READY ∨
                       HEADER_FLAGS_READY = HEADER_FLAGS_EOS)).
Proof.
  apply (header_write_read [Byte.x07] (zeros 12) [] 77 15 HEADER_FLAGS_READY);
    [done|unfold HEADER_FLAGS_READY; lia..].
Defined.
