(* ===== verification/Posix.v ===== *)
(** * The operating system, as the library sees it

    The calls the sources make to the kernel and the allocator are not code
    of the repository: they are the operations of a class over an abstract
    world, which every definition that uses them takes as a parameter. *)

From S2P Require Import Prelude Prot.

(** [MAP_FAILED] is [(void * )-1]. *)
Definition MAP_FAILED : Z := 2 ^ 64 - 1.

Class Posix (W : Type) := {
  (* sysconf(_SC_PAGESIZE) *)
  os_pagesize : Z;
  (* malloc: an address, 0 when it fails *)
  os_malloc : Z → W → Z * W;
  os_free : Z → W → W;
  (* stat: the size of an existing file or directory *)
  os_stat : string → W → option Z;
  os_mkdir : string → W → Z * W;
  (* open(path, O_RDWR | O_CREAT, ...) *)
  os_open : string → W → Z * W;
  os_fstat : Z → W → option Z;
  os_ftruncate : Z → Z → W → Z * W;
  (* mmap(0, size, PROT_READ | PROT_WRITE, MAP_SHARED, fd, 0) *)
  os_mmap : Z → Z → W → region * W;
  os_madvise : Z → Z → W → Z * W;
  (* msync and munmap see the contents of the mapping *)
  os_msync : region → Z → Z → W → Z * W;
  os_munmap : region → Z → W → Z * W;
  os_close : Z → W → Z * W;
  (* a directory stream, 0 when it fails *)
  os_opendir : string → W → Z * W;
  (* the names the stream yields up to its end, in its order *)
  os_readdir : Z → W → list string;
  (* undefined for what is not an open stream *)
  os_closedir : Z → W → result (Z * W)
}.

(** ** What the code relies on

    The observable state is the contents of the files, the open descriptors,
    the mappings, the allocated blocks and the open directory streams. [MAP_SHARED] makes a mapping its
    file: what the mapping holds is written back to the file, up to the size of
    the file. *)

Record os_view := View {
  v_files : gmap string bytes;
  v_fds : gmap Z string;
  v_maps : gmap Z string;
  v_blocks : gset Z;
  v_dirs : gmap Z string
}.

Definition view_files (f : gmap string bytes → gmap string bytes) (v : os_view) : os_view :=
  View (f (v_files v)) (v_fds v) (v_maps v) (v_blocks v) (v_dirs v).
Definition view_fds (f : gmap Z string → gmap Z string) (v : os_view) : os_view :=
  View (v_files v) (f (v_fds v)) (v_maps v) (v_blocks v) (v_dirs v).
Definition view_maps (f : gmap Z string → gmap Z string) (v : os_view) : os_view :=
  View (v_files v) (v_fds v) (f (v_maps v)) (v_blocks v) (v_dirs v).
Definition view_blocks (f : gset Z → gset Z) (v : os_view) : os_view :=
  View (v_files v) (v_fds v) (v_maps v) (f (v_blocks v)) (v_dirs v).
Definition view_dirs (f : gmap Z string → gmap Z string) (v : os_view) : os_view :=
  View (v_files v) (v_fds v) (v_maps v) (v_blocks v) (f (v_dirs v)).

(** Bytes of a mapping of [n] bytes: whole pages. *)
Definition page_round (page n : Z) : Z := (n + (page - 1)) / page * page.

(** A shared mapping is its file. *)
Definition write_back (r : region) (maps : gmap Z string) (fs : gmap string bytes)
    : gmap string bytes :=
  match maps !! r_base r with
  | Some p => match fs !! p with Some c => <[p := take (length c) (r_mem r)]> fs | None => fs end
  | None => fs
  end.

Class PosixLaws (W : Type) `{!Posix W} := {
  ps_view : W → os_view;

  law_page : ∃ k, 0 ≤ k ≤ 31 ∧ os_pagesize = 2 ^ k;
  law_malloc n w p w' : os_malloc n w = (p, w') →
    if p =? 0 then ps_view w' = ps_view w
    else p ∉ v_blocks (ps_view w) ∧ ps_view w' = view_blocks (λ b, {[p]} ∪ b) (ps_view w);
  law_free p w : ps_view (os_free p w) = view_blocks (λ b, b ∖ {[p]}) (ps_view w);
  law_stat p w n c : os_stat p w = Some n → v_files (ps_view w) !! p = Some c → n = zlen c;
  law_mkdir d w rc w' : os_mkdir d w = (rc, w') → ps_view w' = ps_view w;
  law_open p w fd w' : os_open p w = (fd, w') →
    if fd <? 0 then ps_view w' = ps_view w
    else v_fds (ps_view w) !! fd = None ∧
      ps_view w' = view_files (λ fs, <[p := default [] (fs !! p)]> fs)
                     (view_fds (<[fd := p]>) (ps_view w));
  law_fstat fd w n p c : v_fds (ps_view w) !! fd = Some p → v_files (ps_view w) !! p = Some c →
    os_fstat fd w = Some n → n = zlen c;
  law_ftruncate fd n w rc w' p c :
    v_fds (ps_view w) !! fd = Some p → v_files (ps_view w) !! p = Some c → 0 ≤ n →
    os_ftruncate fd n w = (rc, w') →
    ps_view w' = if rc <? 0 then ps_view w
      else view_files (<[p := take (Z.to_nat n) c ++ zeros (n - zlen c)]>) (ps_view w);
  law_mmap n fd w r w' p c :
    v_fds (ps_view w) !! fd = Some p → v_files (ps_view w) !! p = Some c →
    os_mmap n fd w = (r, w') →
    if r_base r =? MAP_FAILED then ps_view w' = ps_view w
    else v_maps (ps_view w) !! r_base r = None ∧ r_base r ≠ 0 ∧
      ps_view w' = view_maps (<[r_base r := p]>) (ps_view w) ∧
      r_mem r = take (Z.to_nat n) c ++ zeros (page_round os_pagesize n - Z.min n (zlen c));
  (* a page-aligned address, within the address space *)
  law_mmap_address n fd w r w' : os_mmap n fd w = (r, w') → r_base r ≠ MAP_FAILED →
    0 ≤ r_base r ∧ r_base r mod os_pagesize = 0 ∧ r_base r + zlen (r_mem r) < 2 ^ 64;
  law_madvise a n w rc w' : os_madvise a n w = (rc, w') →
    ps_view w' = ps_view w ∧ (a = MAP_FAILED → rc ≠ 0);
  law_msync r a n w rc w' p c :
    v_maps (ps_view w) !! r_base r = Some p → v_files (ps_view w) !! p = Some c →
    os_msync r a n w = (rc, w') →
    if rc =? 0 then ps_view w' = view_files (<[p := take (length c) (r_mem r)]>) (ps_view w)
    else ∃ c', length c' = length c ∧ ps_view w' = view_files (<[p := c']>) (ps_view w);
  (* a mapping goes when all its pages are unmapped: the errors of munmap are about
     arguments that are no mapping; nothing is said of other lengths *)
  law_munmap r n w rc w' p : r_base r ≠ MAP_FAILED → v_maps (ps_view w) !! r_base r = Some p →
    page_round os_pagesize n = zlen (r_mem r) → os_munmap r n w = (rc, w') →
    rc = 0 ∧ ps_view w' = view_files (write_back r (v_maps (ps_view w)))
                   (view_maps (delete (r_base r)) (ps_view w));
  law_munmap_failed r n w rc w' : r_base r = MAP_FAILED → os_munmap r n w = (rc, w') →
    ps_view w' = ps_view w;
  law_close fd w rc w' : os_close fd w = (rc, w') → ps_view w' = view_fds (delete fd) (ps_view w);
  law_opendir d w s w' : os_opendir d w = (s, w') →
    if s =? 0 then ps_view w' = ps_view w
    else v_dirs (ps_view w) !! s = None ∧ ps_view w' = view_dirs (<[s := d]>) (ps_view w);
  law_closedir s w d : v_dirs (ps_view w) !! s = Some d →
    ∃ rc w', os_closedir s w = Ok (rc, w') ∧ ps_view w' = view_dirs (delete s) (ps_view w)
}.
