(* ===== verification/Util.v ===== *)
(** * Helpers (src/util.h, src/util.c) and the C string functions they use *)

From S2P Require Import Prelude Prot Posix.
From Stdlib Require Import Ascii.

(** ** Page arithmetic *)

(** [addr & ~(pagesize() - 1)] on [size_t]. *)
Definition page_aligned_addr (pagesize addr : Z) : Z :=
  Z.land addr (u64 (Z.lnot (u64 (pagesize - 1)))).

Lemma page_aligned_addr_eq k addr :
  0 ≤ k ≤ 63 → 0 ≤ addr < 2 ^ 64 →
  page_aligned_addr (2 ^ k) addr = addr - addr mod 2 ^ k.
Proof.
  intros Hk Ha. unfold page_aligned_addr.
  assert (2 ^ k ≤ 2 ^ 63) by (apply Z.pow_le_mono_r; lia).
  assert (0 < 2 ^ k) by (apply Z.pow_pos_nonneg; lia).
  rewrite (u64_small (2 ^ k - 1)) by lia.
  replace (2 ^ k - 1) with (Z.ones k) by (rewrite Z.ones_equiv; lia).
  unfold u64. rewrite <- Z.land_ones by lia.
  rewrite (Z.land_comm (Z.lnot _)), Z.land_assoc, Z.land_ones, Z.mod_small by lia.
  rewrite <- Z.ldiff_land, Z.ldiff_ones_r by lia.
  rewrite Z.shiftl_mul_pow2, Z.shiftr_div_pow2 by lia.
  rewrite (Z.div_mod addr (2 ^ k)) at 2 by lia. lia.
Qed.

(** ** C strings

    [strlen], [strncmp] and [snprintf] on strings without a null character. *)

(** [snprintf(buf, len, ...)] of the text [s]: the value returned and the
    buffer, truncated to leave room for the terminator. *)
Definition snprintf (len : nat) (s : string) : Z * string :=
  (Z.of_nat (String.length s), String.substring 0 (len - 1) s).

(** The decimal digits of a natural number, most significant first. *)
Definition digit (d : Z) : ascii := ascii_of_N (Z.to_N (48 + d)).

Fixpoint print_nat (fuel : nat) (n : Z) (acc : string) : string :=
  match fuel with
  | O => acc
  | S fuel =>
    let acc := String (digit (n mod 10)) acc in
    if n <? 10 then acc else print_nat fuel (n / 10) acc
  end.

(** [%jd] of a [uint64_t]: its bits read as an [intmax_t]; 19 digits hold it. *)
Definition print_jd (n : Z) : string :=
  let n := i64 n in
  if n <? 0 then String "-" (print_nat 20 (- n) "") else print_nat 20 n "".

Definition is_digit (c : ascii) : bool :=
  (48 <=? N_of_ascii c)%N && (N_of_ascii c <=? 57)%N.

(** The digits [strtoll] reads, saturated at the bounds of [long long]. *)
Fixpoint read_digits (s : string) (acc : Z) : Z :=
  match s with
  | String c s =>
    if is_digit c then read_digits s (acc * 10 + (Z.of_N (N_of_ascii c) - 48)) else acc
  | EmptyString => acc
  end.

(** [isspace] *)
Definition is_space (c : ascii) : bool :=
  (N_of_ascii c =? 32)%N || ((9 <=? N_of_ascii c)%N && (N_of_ascii c <=? 13)%N).

Fixpoint skip_spaces (s : string) : string :=
  match s with
  | String c s' => if is_space c then skip_spaces s' else s
  | EmptyString => s
  end.

Definition clamp64 (z : Z) : Z := Z.max (- 2 ^ 63) (Z.min (2 ^ 63 - 1) z).

(** [strtoll(s, NULL, 10)] *)
Definition strtoll (s : string) : Z :=
  match skip_spaces s with
  | String "-" s => clamp64 (- read_digits s 0)
  | String "+" s => clamp64 (read_digits s 0)
  | s => clamp64 (read_digits s 0)
  end.

(** ** src/util.c *)

(** [has_suffix] on strings that are not null. *)
Definition has_suffix (str suffix : string) : bool :=
  let lenstr := String.length str in
  let lensuffix := String.length suffix in
  if (lenstr <? lensuffix)%nat then false
  else bool_decide (String.substring (lenstr - lensuffix) lensuffix str = suffix).

(** The last character of [dir]; [dir\[strlen(dir) - 1\]] is outside an empty one. *)
Fixpoint last_char (s : string) : result ascii :=
  match s with
  | EmptyString => UB
  | String c EmptyString => Ok c
  | String _ s => last_char s
  end.

(** The code and the buffer. *)
Definition append_file_to_dir (len : nat) (dir file : string) : result (Z * string) :=
  c ← last_char dir;
  let '(n, buf) :=
    if bool_decide (c = "/"%char) then snprintf len (dir +:+ file)
    else snprintf len (dir +:+ "/" +:+ file) in
  Ok (if n <=? Z.of_nat len then 0 else -1, buf).

Section files.
Context {W : Type} `{!Posix W}.

Definition pagesize : Z := os_pagesize.

Definition file_exists (filename : string) (w : W) : bool :=
  match os_stat filename w with Some _ => true | None => false end.

Definition file_size (filename : string) (w : W) : Z :=
  match os_stat filename w with Some st_size => st_size | None => -1 end.

Definition ensure_directory (dir : string) (w : W) : Z * W :=
  if negb (file_exists dir w) then os_mkdir dir w else (0, w).
End files.

(** ** Round trip of the file names *)

Lemma digit_code d : 0 ≤ d < 10 → Z.of_N (N_of_ascii (digit d)) = 48 + d.
Proof.
  intros. unfold digit. rewrite N_ascii_embedding by lia. lia.
Qed.

Lemma is_digit_digit d : 0 ≤ d < 10 → is_digit (digit d) = true.
Proof.
  intros Hd. pose proof (digit_code d Hd). unfold is_digit. lia.
Qed.

(** Reading back what [print_nat] put before [acc]. *)
Lemma read_print_nat fuel : ∀ n acc z,
  0 ≤ n < 10 ^ Z.of_nat fuel →
  ∃ k, read_digits (print_nat fuel n acc) z = read_digits acc (z * 10 ^ k + n) ∧ 0 ≤ k.
Proof.
  induction fuel as [|fuel IH]; intros n acc z Hn; simpl.
  - exists 0. split; [|lia]. f_equal. simpl in Hn. lia.
  - pose proof (Z.mod_pos_bound n 10). destruct (Z.ltb_spec n 10).
    + exists 1. split; [|lia]. simpl. rewrite is_digit_digit, digit_code by lia. f_equal.
      rewrite Z.mod_small by lia. lia.
    + destruct (IH (n / 10) (String (digit (n mod 10)) acc) z) as (k & -> & Hk).
      { split; [apply Z.div_pos; lia|]. apply Z.div_lt_upper_bound; [lia|].
        rewrite Nat2Z.inj_succ, Z.pow_succ_r in Hn by lia. lia. }
      exists (k + 1). split; [|lia]. simpl. rewrite is_digit_digit, digit_code by lia. f_equal.
      rewrite Z.pow_add_r, Z.pow_1_r by lia. pose proof (Z.div_mod n 10). lia.
Qed.

Lemma print_nat_app fuel : ∀ n acc s,
  (print_nat fuel n acc +:+ s)%string = print_nat fuel n (acc +:+ s).
Proof.
  induction fuel as [|fuel IH]; intros n acc s; simpl; [done|].
  destruct (n <? 10); [done|]. apply IH.
Qed.

Lemma print_nat_head fuel : ∀ n acc, 0 ≤ n →
  ∃ d rest, 0 ≤ d < 10 ∧ print_nat (S fuel) n acc = String (digit d) rest.
Proof.
  induction fuel as [|fuel IH]; intros n acc Hn; pose proof (Z.mod_pos_bound n 10).
  - exists (n mod 10), acc. split; [lia|]. simpl. by destruct (n <? 10).
  - remember (S fuel) as f. simpl. destruct (n <? 10).
    + exists (n mod 10), acc. split; [lia|done].
    + subst f. apply IH. apply Z.div_pos; lia.
Qed.

(** A digit is neither a space nor a sign. *)
Lemma strtoll_digit d s : 0 ≤ d < 10 →
  strtoll (String (digit d) s) = clamp64 (read_digits (String (digit d) s) 0).
Proof.
  intros Hd. assert (d = 0 ∨ d = 1 ∨ d = 2 ∨ d = 3 ∨ d = 4 ∨ d = 5 ∨ d = 6 ∨ d = 7 ∨ d = 8 ∨ d = 9)
    as Hcases by lia.
  destruct Hcases as [->|[->|[->|[->|[->|[->|[->|[->|[->| ->]]]]]]]]]; reflexivity.
Qed.

(** The text of a number, followed by something that is not a digit. *)
Lemma strtoll_print_jd n s :
  0 ≤ n < 2 ^ 64 → u64 (strtoll (print_jd n +:+ String "." s)) = n.
Proof.
  intros Hn. unfold print_jd.
  assert (Hi : (i64 n = n ∧ n < 2 ^ 63) ∨ i64 n = n - 2 ^ 64 ∧ 2 ^ 63 ≤ n).
  { unfold i64. destruct (decide (n < 2 ^ 63)).
    - left. split; [rewrite Z.mod_small; lia|done].
    - right. split; [|lia]. replace (n + 2 ^ 63) with (n - 2 ^ 63 + 1 * 2 ^ 64) by lia.
      rewrite Z.mod_add, Z.mod_small; lia. }
  destruct (Z.ltb_spec (i64 n) 0).
  - change (String "-" ?x +:+ ?y)%string with (String "-" (x +:+ y)).
    rewrite print_nat_app.
    change (strtoll (String "-" ?x)) with (clamp64 (- read_digits x 0)).
    destruct (read_print_nat 20 (- i64 n) ("" +:+ String "." s) 0) as (k & -> & _); [lia|].
    simpl read_digits. unfold clamp64. rewrite Z.mul_0_l.
    replace (Z.max _ _) with (n + (-1) * 2 ^ 64) by lia.
    unfold u64. rewrite Z.mod_add, Z.mod_small; lia.
  - rewrite print_nat_app.
    destruct (print_nat_head 19 (i64 n) ("" +:+ String "." s)) as (d & rest & Hd & Hp); [lia|].
    rewrite Hp, strtoll_digit, <- Hp by done.
    destruct (read_print_nat 20 (i64 n) ("" +:+ String "." s) 0) as (k & -> & _); [lia|].
    simpl read_digits. unfold clamp64. rewrite Z.mul_0_l.
    replace (Z.max _ _) with n by lia. apply u64_small. lia.
Qed.

(** ** Names that fit their buffers *)

Lemma string_length_app s1 s2 :
  String.length (s1 +:+ s2) = (String.length s1 + String.length s2)%nat.
Proof. induction s1 as [|c s1 IH]; simpl; [done|]. by rewrite IH. Qed.

Lemma substring_all s n : (String.length s ≤ n)%nat → String.substring 0 n s = s.
Proof.
  revert n. induction s as [|c s IH]; intros [|n] Hn; simpl in *; try done; [lia|].
  rewrite IH; [done|lia].
Qed.

Lemma snprintf_fits len s :
  (String.length s < len)%nat → snprintf len s = (Z.of_nat (String.length s), s).
Proof. intros. unfold snprintf. rewrite substring_all by lia. done. Qed.

Lemma print_nat_length fuel : ∀ n acc,
  (String.length (print_nat fuel n acc) ≤ fuel + String.length acc)%nat.
Proof.
  induction fuel as [|fuel IH]; intros n acc; simpl; [lia|].
  destruct (n <? 10); [simpl; lia|]. pose proof (IH (n / 10) (String (digit (n mod 10)) acc)).
  simpl in *. lia.
Qed.

Lemma print_jd_length n : (String.length (print_jd n) ≤ 21)%nat.
Proof.
  unfold print_jd. destruct (i64 n <? 0).
  - cbn [String.length]. pose proof (print_nat_length 20 (- i64 n) "") as H.
    cbn [String.length] in H. lia.
  - pose proof (print_nat_length 20 (i64 n) "") as H. cbn [String.length] in H. lia.
Qed.

(** A file of a directory, as [append_file_to_dir] joins them. *)
Definition path_in (dir file : string) : string :=
  match last_char dir with
  | Ok c => if bool_decide (c = "/"%char) then dir +:+ file else dir +:+ "/" +:+ file
  | _ => file
  end.

Lemma last_char_Ok s : s ≠ ""%string → ∃ c, last_char s = Ok c.
Proof.
  induction s as [|c s IH]; [done|]. intros _. simpl.
  destruct s as [|c' s]; [eauto|]. by apply IH.
Qed.

Lemma append_file_fits dir file :
  dir ≠ ""%string → (String.length dir + String.length file + 1 < 256)%nat →
  append_file_to_dir 256 dir file = Ok (0, path_in dir file).
Proof.
  intros Hne Hlen. unfold append_file_to_dir, path_in.
  destruct (last_char_Ok dir Hne) as [c Hc].
  rewrite Hc, bind_Ok. destruct (bool_decide _);
    rewrite snprintf_fits by (rewrite ?string_length_app; simpl; lia);
    rewrite (proj2 (Z.leb_le _ _)) by (rewrite ?string_length_app; simpl; lia); done.
Qed.

Lemma append_inj s s1 s2 : (s +:+ s1 = s +:+ s2)%string → s1 = s2.
Proof. induction s as [|c s IH]; simpl; [done|]. intros H. injection H as H. by apply IH. Qed.

Lemma path_in_inj dir f1 f2 : path_in dir f1 = path_in dir f2 → f1 = f2.
Proof.
  unfold path_in. destruct (last_char dir) as [c| |]; [|done..].
  destruct (bool_decide _); intros H%append_inj; [done|]. by apply append_inj in H.
Qed.
