(* ===== verification/MemOs.v ===== *)
(** * A concrete operating system kept in memory

    An instance of the [Posix] class that never fails for lack of resources,
    and of its laws. It is not code of the repository: it shows that the class
    and the laws can be instantiated, and the witnesses compute with it. *)

From S2P Require Import Prelude Prot Posix.

Record mem_os := MemOs {
  mo_files : gmap string bytes;   (* path to contents *)
  mo_dirs  : gset string;
  mo_fds   : gmap Z string;       (* open descriptors *)
  mo_maps  : gmap Z string;       (* base address to path *)
  mo_blocks : gmap Z unit;        (* allocated blocks *)
  mo_streams : gmap Z string      (* open directory streams *)
}.

Definition mo_page : Z := 4096.
Definition mo_empty : mem_os := MemOs ∅ ∅ ∅ ∅ ∅ ∅.

(** A process with nothing open but standard input, and [files] on disk. *)
Definition mo_boot (files : gmap string bytes) : mem_os :=
  MemOs files ∅ {[ 0 := "/dev/tty"%string ]} ∅ ∅ ∅.

Definition mo_set_file (p : string) (c : bytes) (w : mem_os) : mem_os :=
  MemOs (<[p := c]> (mo_files w)) (mo_dirs w) (mo_fds w) (mo_maps w) (mo_blocks w) (mo_streams w).

(** A key above all those of a map. *)
Definition above_keys {A} (m : gmap Z A) : Z := 1 + map_fold (λ k _ z, Z.max k z) 2 m.

Lemma above_keys_fresh {A} (m : gmap Z A) k : above_keys m ≤ k → m !! k = None.
Proof.
  intros Hk. destruct (m !! k) as [x|] eqn:Hl; [|done]. exfalso.
  cut (k ≤ map_fold (λ k _ z, Z.max k z) 2 m); [unfold above_keys in Hk; lia|]. revert k x Hl Hk.
  apply (map_fold_weak_ind (λ z m, ∀ k x, m !! k = Some x → _ → k ≤ z)).
  - intros k x. by rewrite lookup_empty.
  - intros i x m0 r Hi IH k y [[-> _]|[_ Hl]]%lookup_insert_Some Hk; [lia|].
    specialize (IH k y Hl Hk). lia.
Qed.

Lemma above_keys_pos {A} (m : gmap Z A) : 3 ≤ above_keys m.
Proof.
  unfold above_keys. apply (map_fold_weak_ind (λ z m, 3 ≤ 1 + z)); [lia|]. intros. lia.
Qed.

Definition mo_malloc (n : Z) (w : mem_os) : Z * mem_os :=
  let p := above_keys (mo_blocks w) in
  (p, MemOs (mo_files w) (mo_dirs w) (mo_fds w) (mo_maps w) (<[p := ()]> (mo_blocks w)) (mo_streams w)).

Definition mo_free (p : Z) (w : mem_os) : mem_os :=
  MemOs (mo_files w) (mo_dirs w) (mo_fds w) (mo_maps w) (delete p (mo_blocks w)) (mo_streams w).

Definition mo_stat (p : string) (w : mem_os) : option Z :=
  match mo_files w !! p with
  | Some c => Some (zlen c)
  | None => if decide (p ∈ mo_dirs w) then Some mo_page else None
  end.

Definition mo_mkdir (p : string) (w : mem_os) : Z * mem_os :=
  match mo_stat p w with
  | Some _ => (-1, w)
  | None => (0, MemOs (mo_files w) ({[p]} ∪ mo_dirs w) (mo_fds w) (mo_maps w) (mo_blocks w) (mo_streams w))
  end.

Definition mo_open (p : string) (w : mem_os) : Z * mem_os :=
  let fd := above_keys (mo_fds w) in
  (fd, MemOs (<[p := default [] (mo_files w !! p)]> (mo_files w)) (mo_dirs w)
         (<[fd := p]> (mo_fds w)) (mo_maps w) (mo_blocks w) (mo_streams w)).

Definition mo_fd_file (fd : Z) (w : mem_os) : option (string * bytes) :=
  p ← mo_fds w !! fd; c ← mo_files w !! p; Some (p, c).

Definition mo_fstat (fd : Z) (w : mem_os) : option Z :=
  '(_, c) ← mo_fd_file fd w; Some (zlen c).

Definition mo_ftruncate (fd n : Z) (w : mem_os) : Z * mem_os :=
  match mo_fd_file fd w with
  | Some (p, c) => (0, mo_set_file p (take (Z.to_nat n) c ++ zeros (n - zlen c)) w)
  | None => (-1, w)
  end.

(** Mappings are 8 GB apart. *)
Definition mo_mmap (n fd : Z) (w : mem_os) : region * mem_os :=
  match mo_fd_file fd w with
  | Some (p, c) =>
    let base := (above_keys (mo_maps w) / 2 ^ 33 + 1) * 2 ^ 33 in
    if (n <=? 0) || (2 ^ 64 <=? base + page_round mo_page n) then (Region MAP_FAILED [], w)
    else
      (Region base (take (Z.to_nat n) c ++ zeros (page_round mo_page n - Z.min n (zlen c))),
       MemOs (mo_files w) (mo_dirs w) (mo_fds w) (<[base := p]> (mo_maps w))
         (mo_blocks w) (mo_streams w))
  | None => (Region MAP_FAILED [], w)
  end.

(** A shared mapping is its file: the contents go back to it. *)
Definition mo_write_back (r : region) (w : mem_os) : Z * mem_os :=
  match mo_maps w !! r_base r with
  | Some p =>
    match mo_files w !! p with
    | Some c => (0, mo_set_file p (take (length c) (r_mem r)) w)
    | None => (-1, w)
    end
  | None => (-1, w)
  end.

Definition mo_msync (r : region) (addr n : Z) (w : mem_os) : Z * mem_os :=
  if addr mod mo_page =? 0 then mo_write_back r w else (-1, w).

Definition mo_munmap (r : region) (n : Z) (w : mem_os) : Z * mem_os :=
  if r_base r =? MAP_FAILED then (-1, w)
  else if negb (page_round mo_page n =? zlen (r_mem r)) then (-1, w)
  else
    let '(_, w) := mo_write_back r w in
    (0, MemOs (mo_files w) (mo_dirs w) (mo_fds w) (delete (r_base r) (mo_maps w))
           (mo_blocks w) (mo_streams w)).

Definition mo_close (fd : Z) (w : mem_os) : Z * mem_os :=
  (0, MemOs (mo_files w) (mo_dirs w) (delete fd (mo_fds w)) (mo_maps w) (mo_blocks w) (mo_streams w)).

(** The files directly under [dir], in the order of the map. *)
Definition mo_basename (dir path : string) : list string :=
  let d := (dir +:+ "/")%string in
  if String.prefix d path
  then [String.substring (String.length d) (String.length path) path] else [].

Definition mo_list (dir : string) (w : mem_os) : list string :=
  flat_map (λ pc, mo_basename dir pc.1) (map_to_list (mo_files w)).

Definition mo_opendir (dir : string) (w : mem_os) : Z * mem_os :=
  if decide (dir ∈ mo_dirs w)
  then
    let s := above_keys (mo_streams w) in
    (s, MemOs (mo_files w) (mo_dirs w) (mo_fds w) (mo_maps w) (mo_blocks w) (<[s := dir]> (mo_streams w)))
  else (0, w).

Definition mo_readdir (s : Z) (w : mem_os) : list string :=
  match mo_streams w !! s with Some dir => mo_list dir w | None => [] end.

Definition mo_closedir (s : Z) (w : mem_os) : result (Z * mem_os) :=
  match mo_streams w !! s with
  | Some _ =>
    Ok (0, MemOs (mo_files w) (mo_dirs w) (mo_fds w) (mo_maps w) (mo_blocks w) (delete s (mo_streams w)))
  | None => UB
  end.

#[export] Instance mem_posix : Posix mem_os := {
  os_pagesize := mo_page;
  os_malloc := mo_malloc;
  os_free := mo_free;
  os_stat := mo_stat;
  os_mkdir := mo_mkdir;
  os_open := mo_open;
  os_fstat := mo_fstat;
  os_ftruncate := mo_ftruncate;
  os_mmap := mo_mmap;
  os_madvise addr _ w := (if addr =? MAP_FAILED then -1 else 0, w);
  os_msync := mo_msync;
  os_munmap := mo_munmap;
  os_close := mo_close;
  os_opendir := mo_opendir;
  os_readdir := mo_readdir;
  os_closedir := mo_closedir;
}.

Lemma mo_write_back_ok r w p c :
  mo_maps w !! r_base r = Some p → mo_files w !! p = Some c →
  mo_write_back r w = (0, mo_set_file p (take (length c) (r_mem r)) w).
Proof. unfold mo_write_back. by intros -> ->. Qed.

Lemma mo_fd_file_ok fd w p c :
  mo_fds w !! fd = Some p → mo_files w !! p = Some c → mo_fd_file fd w = Some (p, c).
Proof. unfold mo_fd_file. intros ->. simpl. by intros ->. Qed.

Definition mo_view (w : mem_os) : os_view :=
  View (mo_files w) (mo_fds w) (mo_maps w) (dom (mo_blocks w)) (mo_streams w).

#[export] Program Instance mem_laws : PosixLaws mem_os := { ps_view := mo_view }.
Next Obligation. exists 12. split; [lia|done]. Qed.
Next Obligation.
  intros n w p w' [= <- <-]. pose proof (above_keys_pos (mo_blocks w)).
  rewrite (proj2 (Z.eqb_neq _ _)) by lia. split.
  - simpl. apply not_elem_of_dom. by apply above_keys_fresh.
  - unfold mo_view, view_blocks. simpl. f_equal. by rewrite dom_insert_L.
Qed.
Next Obligation.
  intros p w. unfold mo_view, view_blocks. simpl. f_equal. by rewrite dom_delete_L.
Qed.
Next Obligation. intros p w n c Hs Hc. simpl in *. unfold mo_stat in Hs. rewrite Hc in Hs. by injection Hs. Qed.
Next Obligation. intros d w rc w'. simpl. unfold mo_mkdir. destruct (mo_stat d w); by intros [= <- <-]. Qed.
Next Obligation.
  intros p w fd w' [= <- <-]. pose proof (above_keys_pos (mo_fds w)).
  rewrite (proj2 (Z.ltb_ge _ _)) by lia. split; [by apply above_keys_fresh|done].
Qed.
Next Obligation.
  intros fd w n p c Hp Hc. simpl. unfold mo_fstat. rewrite (mo_fd_file_ok _ _ _ _ Hp Hc).
  by intros [= <-].
Qed.
Next Obligation.
  intros fd n w rc w' p c Hp Hc Hn. simpl. unfold mo_ftruncate.
  rewrite (mo_fd_file_ok _ _ _ _ Hp Hc). by intros [= <- <-].
Qed.
Next Obligation.
  intros n fd w r w' p c Hp Hc. simpl. unfold mo_mmap. rewrite (mo_fd_file_ok _ _ _ _ Hp Hc).
  pose proof (above_keys_pos (mo_maps w)).
  destruct (_ || _); intros [= <- <-]; [done|]. cbn [r_base r_mem].
  pose proof (Z.div_mod (above_keys (mo_maps w)) (2 ^ 33)) as Hdiv.
  pose proof (Z.mod_pos_bound (above_keys (mo_maps w)) (2 ^ 33)).
  rewrite (proj2 (Z.eqb_neq _ _)) by (unfold MAP_FAILED; lia).
  split_and!; [|lia|done..]. apply above_keys_fresh. lia.
Qed.
Next Obligation.
  intros n fd w r w'. simpl. unfold mo_mmap. pose proof (above_keys_pos (mo_maps w)).
  pose proof (Z.div_pos (above_keys (mo_maps w)) (2 ^ 33)).
  destruct (mo_fd_file fd w) as [[p c]|]; [|by intros [= <- <-]].
  destruct (Z.leb_spec n 0) as [|Hn]; [by intros [= <- <-]|]. cbn [orb].
  destruct (2 ^ 64 <=? _) eqn:Hb; intros [= <- <-]; [done|]. intros _. cbn [r_base r_mem].
  assert (n ≤ page_round mo_page n).
  { unfold page_round, mo_page. pose proof (Z.div_mod (n + (4096 - 1)) 4096). pose proof (Z.mod_pos_bound (n + (4096 - 1)) 4096). lia. }
  apply Z.leb_gt in Hb. split_and!; [lia| |len].
  replace (2 ^ 33) with (2 ^ 21 * mo_page) at 2 by done. rewrite Z.mul_assoc. apply Z.mod_mul. done.
Qed.
Next Obligation. intros a n w rc w' [= <- <-]. split; [done|]. by intros ->. Qed.
Next Obligation.
  intros r a n w rc w' p c Hm Hc. simpl. unfold mo_msync.
  destruct (_ =? _).
  - rewrite (mo_write_back_ok _ _ _ _ Hm Hc). by intros [= <- <-].
  - intros [= <- <-]. exists c. split; [done|]. unfold view_files. destruct w. simpl.
    unfold mo_view. simpl in *. by rewrite insert_id.
Qed.
Next Obligation.
  intros r n w rc w' p Hb Hm Hn. simpl in *. unfold mo_munmap. rewrite Hn, Z.eqb_refl. cbn [negb].
  rewrite (proj2 (Z.eqb_neq _ _)) by done. unfold mo_view, view_files, write_back, mo_write_back. simpl.
  rewrite Hm. destruct (mo_files w !! p); by intros [= <- <-].
Qed.
Next Obligation. intros r n w rc w' Hb. simpl. unfold mo_munmap. rewrite Hb. by intros [= <- <-]. Qed.
Next Obligation. intros fd w rc w' [= <- <-]. done. Qed.
Next Obligation.
  intros d w s w'. simpl. unfold mo_opendir. destruct (decide _); intros [= <- <-]; [|done].
  pose proof (above_keys_pos (mo_streams w)). rewrite (proj2 (Z.eqb_neq _ _)) by lia.
  split; [by apply above_keys_fresh|done].
Qed.
Next Obligation. intros s w d. simpl. unfold mo_closedir. intros ->. by eexists _, _. Qed.
