(* ===== verification/Disk.v ===== *)
(** * What a disk holds of a mapped file

    A store in a mapping reaches the disk when [msync] asks for it, or when the
    kernel writes the page back on its own. [DiskLaws] extends the laws of the
    system with the contents of the disk, which are what a file has after the
    machine has crashed; [disked] adds a disk to a system. *)

From S2P Require Import Prelude Prot Posix.

(** ** Writing pages back *)

(** [old] with the pages of [pages] as in [mem]. *)
Definition flush (page : Z) (pages : Z → bool) (mem old : bytes) : bytes :=
  imap (λ k b, if pages (Z.of_nat k / page) then default b (mem !! k) else b) old.

Lemma length_flush page pages mem old : length (flush page pages mem old) = length old.
Proof. apply length_imap. Qed.

(** A byte is as it was or as in memory. *)
Lemma flush_lookup page pages mem old k b :
  flush page pages mem old !! k = Some b → old !! k = Some b ∨ mem !! k = Some b.
Proof.
  unfold flush. rewrite list_lookup_imap. destruct (old !! k) as [b0|]; [|done]. simpl.
  destruct (pages _); [|by left]. destruct (mem !! k) as [b1|]; simpl; intros [= <-]; [by right|by left].
Qed.

Lemma flush_lookup_out page pages mem old k :
  pages (Z.of_nat k / page) = false → flush page pages mem old !! k = old !! k.
Proof. intros Hp. unfold flush. rewrite list_lookup_imap, Hp. by destruct (old !! k). Qed.

Lemma flush_lookup_in page pages mem old k :
  pages (Z.of_nat k / page) = true → (k < length old)%nat → (k < length mem)%nat →
  flush page pages mem old !! k = mem !! k.
Proof.
  intros Hp [b Hb]%lookup_lt_is_Some_2 [c Hc]%lookup_lt_is_Some_2. unfold flush.
  by rewrite list_lookup_imap, Hp, Hb, Hc.
Qed.

(** ** The laws *)

(** [msync] may write any pages, and when it returns 0 it has written those of
    its range. *)
Class DiskLaws (W : Type) `{!Posix W, !PosixLaws W} := {
  disk : W → gmap string bytes;
  law_disk_msync r a n w rc w' p c :
    v_maps (ps_view w) !! r_base r = Some p → disk w !! p = Some c → os_msync r a n w = (rc, w') →
    ∃ pages, disk w' = <[p := flush os_pagesize pages (r_mem r) c]> (disk w) ∧
      (rc = 0 → ∀ k, 0 ≤ k → a ≤ r_base r + k < a + n → pages (k / os_pagesize) = true)
}.

(** ** A system with a disk *)

Record disked (W : Type) := Disked { dk_os : W; dk_disk : gmap string bytes }.
#[global] Arguments Disked {W}.
#[global] Arguments dk_os {W}.
#[global] Arguments dk_disk {W}.

Section disked.
Context {W : Type} `{!Posix W, !PosixLaws W}.
Implicit Types w : disked W.

(** A call that does not reach the disk. *)
Definition lift {A} (f : W → A * W) w : A * disked W :=
  let '(a, w') := f (dk_os w) in (a, Disked w' (dk_disk w)).

(** The pages of the mapping at [base] with a byte from [a] to [a + n]. *)
Definition overlaps (base a n j : Z) : bool :=
  (a <=? base + os_pagesize * (j + 1) - 1) && (base + os_pagesize * j <? a + n).

Definition disked_msync (r : region) (a n : Z) w : Z * disked W :=
  let '(rc, w') := os_msync r a n (dk_os w) in
  (rc, Disked w' (match v_maps (ps_view (dk_os w)) !! r_base r with
                  | Some p => if rc =? 0
                      then alter (flush os_pagesize (overlaps (r_base r) a n) (r_mem r)) p (dk_disk w)
                      else dk_disk w
                  | None => dk_disk w
                  end)).

#[export] Instance disked_posix : Posix (disked W) := {
  os_pagesize := os_pagesize (W := W);
  os_malloc n := lift (os_malloc n);
  os_free p w := Disked (os_free p (dk_os w)) (dk_disk w);
  os_stat p w := os_stat p (dk_os w);
  os_mkdir d := lift (os_mkdir d);
  os_open p := lift (os_open p);
  os_fstat fd w := os_fstat fd (dk_os w);
  os_ftruncate fd n := lift (os_ftruncate fd n);
  os_mmap n fd := lift (os_mmap n fd);
  os_madvise a n := lift (os_madvise a n);
  os_msync := disked_msync;
  os_munmap r n := lift (os_munmap r n);
  os_close fd := lift (os_close fd);
  os_opendir d := lift (os_opendir d);
  os_readdir s w := os_readdir s (dk_os w);
  os_closedir s w := '(rc, w') ← os_closedir s (dk_os w); Ok (rc, Disked w' (dk_disk w))
}.

Lemma lift_inv {A} (f : W → A * W) w a w' : lift f w = (a, w') → f (dk_os w) = (a, dk_os w').
Proof using Type. unfold lift. destruct (f (dk_os w)). by intros [= <- <-]. Qed.

Lemma disked_msync_inv r a n w rc w' :
  disked_msync r a n w = (rc, w') → os_msync r a n (dk_os w) = (rc, dk_os w').
Proof using Type. unfold disked_msync. destruct (os_msync _ _ _ _). by intros [= <- <-]. Qed.

#[export] Program Instance disked_laws : PosixLaws (disked W) := { ps_view w := ps_view (dk_os w) }.
Next Obligation. exact (law_page (W := W)). Qed.
Next Obligation. intros n w p w' H%lift_inv. by apply law_malloc in H. Qed.
Next Obligation. intros p w. apply (law_free (W := W)). Qed.
Next Obligation. intros p w n c. apply (law_stat (W := W)). Qed.
Next Obligation. intros d w rc w' H%lift_inv. by apply law_mkdir in H. Qed.
Next Obligation. intros p w fd w' H%lift_inv. by apply law_open in H. Qed.
Next Obligation. intros fd w n p c. apply (law_fstat (W := W)). Qed.
Next Obligation. intros fd n w rc w' p c Hp Hc Hn H%lift_inv. by apply (law_ftruncate _ _ _ _ _ p c) in H. Qed.
Next Obligation. intros n fd w r w' p c Hp Hc H%lift_inv. by apply (law_mmap _ _ _ _ _ p c) in H. Qed.
Next Obligation. intros n fd w r w' H%lift_inv. exact (law_mmap_address _ _ _ _ _ H). Qed.
Next Obligation. intros a n w rc w' H%lift_inv. by apply law_madvise in H. Qed.
Next Obligation. intros r a n w rc w' p c Hp Hc H%disked_msync_inv. by apply (law_msync _ _ _ _ _ _ p c) in H. Qed.
Next Obligation. intros r n w rc w' p Hb Hm Hn H%lift_inv. by apply (law_munmap _ _ _ _ _ p) in H. Qed.
Next Obligation. intros r n w rc w' Hb H%lift_inv. by apply law_munmap_failed in H. Qed.
Next Obligation. intros fd w rc w' H%lift_inv. by apply law_close in H. Qed.
Next Obligation. intros d w s w' H%lift_inv. by apply law_opendir in H. Qed.
Next Obligation.
  intros s w d Hs. destruct (law_closedir s (dk_os w) d Hs) as (rc & w' & Hc & Hv). cbn [os_closedir disked_posix].
  run Hc. by eexists _, _.
Qed.

#[export] Program Instance disked_disk_laws : DiskLaws (disked W) := { disk := dk_disk }.
Next Obligation.
  intros r a n w rc w' p c Hp Hc. cbn [os_msync disked_posix]. unfold disked_msync. simpl in Hp. rewrite Hp.
  destruct (os_msync r a n (dk_os w)) as [rc1 w1]. intros [= <- <-]. simpl.
  destruct (Z.eqb_spec rc1 0) as [->|Hne].
  - exists (overlaps (r_base r) a n). split.
    + apply map_eq. intros q. destruct (decide (q = p)) as [->|Hq].
      * by rewrite lookup_alter_eq, lookup_insert_eq, Hc.
      * by rewrite lookup_alter_ne, lookup_insert_ne.
    + intros _ k Hk Ha. unfold overlaps. destruct (law_page (W := W)) as (e & He & Hpage).
      change (os_pagesize (W := disked W)) with (os_pagesize (W := W)). rewrite Hpage.
      assert (0 < 2 ^ e) by (apply Z.pow_pos_nonneg; lia).
      pose proof (Z.div_mod k (2 ^ e)). pose proof (Z.mod_pos_bound k (2 ^ e)). lia.
  - exists (λ _, false). split; [|done]. symmetry. apply insert_id. rewrite Hc. f_equal.
    unfold flush. apply list_eq. intros k. rewrite list_lookup_imap. by destruct (c !! k).
Qed.
End disked.
