(* ===== verification/Cleanup.v ===== *)
(** * Helpers of the tests and the benchmarks (src/util.c)

    [delete_directory] and [file_limit], which the library itself does not
    call. The walk of a directory tree, [remove] and [getrlimit] are calls to
    the system that nothing else uses, and parameters of this file. *)

From S2P Require Import Prelude Posix Util MemOs.

Section cleanup.
Context {W : Type} `{!Posix W}.
(** The files a walk of the tree visits with [FTW_DEPTH | FTW_PHYS]: the
    contents of a directory before it. None when the walk cannot start. *)
Context (os_walk : string → W → option (list string)).
Context (os_remove : string → W → Z * W).
(** The soft limit [getrlimit(RLIMIT_NOFILE)] reports. *)
Context (os_nofile : W → option Z).

Definition remove_callback (file : string) (w : W) : Z * W := os_remove file w.

(** [nftw] stops at the first callback that does not return 0. *)
Fixpoint nftw_visit (fn : string → W → Z * W) (files : list string) (w : W) : Z * W :=
  match files with
  | [] => (0, w)
  | file :: files =>
    let '(rc, w) := fn file w in
    if negb (rc =? 0) then (rc, w) else nftw_visit fn files w
  end.

Definition delete_directory (dir : string) (w : W) : Z * W :=
  match os_stat dir w with
  | Some _ =>
    match os_walk dir w with
    | Some files => nftw_visit remove_callback files w
    | None => (-1, w)
    end
  | None => (0, w)
  end.

(** [rlim_cur] returned as an [int]: [RLIM_INFINITY] comes out as [-1]. *)
Definition file_limit (w : W) : Z :=
  match os_nofile w with
  | Some n => i32 n
  | None => -1
  end.
End cleanup.

Section laws.
Context {W : Type} `{!Posix W, !PosixLaws W}.
Context (os_walk : string → W → option (list string)) (os_remove : string → W → Z * W).
Context (law_remove : ∀ p w rc w', os_remove p w = (rc, w') →
  v_files (ps_view w') = if rc =? 0 then delete p (v_files (ps_view w)) else v_files (ps_view w)).

Lemma nftw_visit_removes files : ∀ w rc w',
  nftw_visit (remove_callback os_remove) files w = (rc, w') →
  ∀ p, v_files (ps_view w') !! p = None ∨ v_files (ps_view w') !! p = v_files (ps_view w) !! p ∧
    (rc = 0 → p ∉ files).
Proof using law_remove.
  induction files as [|file files IH]; intros w rc w' Hrun p; cbn [nftw_visit] in Hrun.
  { injection Hrun as <- <-. right. split; [done|]. intros _. apply not_elem_of_nil. }
  unfold remove_callback at 1 in Hrun. destruct (os_remove file w) as [rc1 w1] eqn:Hr.
  apply law_remove in Hr. destruct (rc1 =? 0) eqn:Hz; cbn [negb] in Hrun.
  - destruct (IH _ _ _ Hrun p) as [|[Heq Hni]]; [by left|]. rewrite Hr in Heq.
    destruct (decide (p = file)) as [->|Hne]; [left; by rewrite Heq, lookup_delete_eq|].
    right. rewrite Heq, lookup_delete_ne by done. split; [done|]. intros H0. apply not_elem_of_cons. auto.
  - injection Hrun as <- <-. right. rewrite Hr. split; [done|]. intros ->. by rewrite Z.eqb_refl in Hz.
Qed.

(** A [delete_directory] that returns 0 has removed every file the walk
    visited, and no other. *)
Lemma delete_directory_removes dir files n w w' :
  os_stat dir w = Some n → os_walk dir w = Some files →
  delete_directory os_walk os_remove dir w = (0, w') →
  ∀ p, (p ∈ files → v_files (ps_view w') !! p = None) ∧
    (v_files (ps_view w') !! p = None ∨ v_files (ps_view w') !! p = v_files (ps_view w) !! p).
Proof using law_remove.
  intros Hs Hw. unfold delete_directory. rewrite Hs, Hw. intros Hrun p.
  destruct (nftw_visit_removes _ _ _ _ Hrun p) as [Hn|[Heq Hni]]; [split; [done|by left]|].
  split; [|by right]. intros Hin. by destruct (Hni eq_refl).
Qed.
End laws.

(** On the operating system of MemOs.v. *)
Definition mo_remove (p : string) (w : mem_os) : Z * mem_os :=
  match mo_files w !! p with
  | Some _ => (0, MemOs (delete p (mo_files w)) (mo_dirs w) (mo_fds w) (mo_maps w) (mo_blocks w) (mo_streams w))
  | None =>
    if decide (p ∈ mo_dirs w)
    then (0, MemOs (mo_files w) (mo_dirs w ∖ {[p]}) (mo_fds w) (mo_maps w) (mo_blocks w) (mo_streams w)) else (-1, w)
  end.
Definition mo_walk (dir : string) (w : mem_os) : option (list string) :=
  if decide (dir ∈ mo_dirs w) then Some (((λ n, dir +:+ "/" +:+ n)%string <$> mo_list dir w) ++ [dir]) else None.

Lemma mo_law_remove p w rc w' : mo_remove p w = (rc, w') →
  v_files (ps_view w') = if rc =? 0 then delete p (v_files (ps_view w)) else v_files (ps_view w).
Proof.
  unfold mo_remove. simpl. destruct (mo_files w !! p) eqn:Hp; [by intros [= <- <-]|].
  destruct (decide _); intros [= <- <-]; simpl; [|done]. by rewrite delete_id.
Qed.

Definition mo_full : mem_os :=
  MemOs {[ "/log/0.log" := []; "/log/0.idx" := []; "/etc/motd" := [] ]}%string {[ "/log"%string ]} ∅ ∅ ∅ ∅.

Example delete_directory_demo :
  ∃ w', delete_directory mo_walk mo_remove "/log" mo_full = (0, w') ∧
    mo_files w' = {[ "/etc/motd" := [] ]}%string ∧ mo_dirs w' = ∅.
Proof. eexists. by vm_compute. Qed.
