(* ===== verification/Segment.v ===== *)
(** * Segments (src/segment.h, src/segment.c): the mapped log file

    A segment is a data region holding the frames one after the other and an
    index region holding, for each frame, its offset in the data region. This
    file translates the operations on an open segment; opening and closing
    are in SegmentFile.v. *)

From S2P Require Import Prelude Errno Crc32 Prot Util Posix.

(** ** Data *)

Definition SGM_RDDRT : Z := 0x0.
Definition SGM_RDCMT : Z := 0x1.
Definition LATEST_SEGMENT_VERSION : Z := 0.
Definition CRC32_INIT : Z := 0.

(** [sizeof(struct index_entry)]: one [size_t]. *)
Definition index_entry_size : Z := 8.
#[export] Hint Unfold index_entry_size : sizes.

(** [struct offset_pair]: two [uint32_t], compared and swapped as one word. *)
Record offset_pair := OffsetPair { op_index : Z; op_data : Z }.

#[export] Instance offset_pair_eq_dec : EqDecision offset_pair.
Proof. solve_decision. Defined.

(** [struct segment] *)
Record segment := Segment {
  version       : Z;
  flags         : Z;
  index_fd      : Z;
  data_fd       : Z;
  size          : Z;          (* uint32_t: bytes of the data region *)
  base_offset   : Z;          (* uint64_t *)
  buffer        : region;
  index         : region;
  s_offset_pair : offset_pair;
  w_offset_pair : offset_pair
}.

(** Field assignments. *)
Definition set_w_offset_pair (w : offset_pair) (sgm : segment) : segment :=
  Segment (version sgm) (flags sgm) (index_fd sgm) (data_fd sgm) (size sgm)
    (base_offset sgm) (buffer sgm) (index sgm) (s_offset_pair sgm) w.
Definition set_s_offset_pair (s : offset_pair) (sgm : segment) : segment :=
  Segment (version sgm) (flags sgm) (index_fd sgm) (data_fd sgm) (size sgm)
    (base_offset sgm) (buffer sgm) (index sgm) s (w_offset_pair sgm).
Definition set_buffer (m : bytes) (sgm : segment) : segment :=
  Segment (version sgm) (flags sgm) (index_fd sgm) (data_fd sgm) (size sgm)
    (base_offset sgm) (Region (r_base (buffer sgm)) m) (index sgm)
    (s_offset_pair sgm) (w_offset_pair sgm).
Definition set_index (m : bytes) (sgm : segment) : segment :=
  Segment (version sgm) (flags sgm) (index_fd sgm) (data_fd sgm) (size sgm)
    (base_offset sgm) (buffer sgm) (Region (r_base (index sgm)) m)
    (s_offset_pair sgm) (w_offset_pair sgm).

(** [index[i].physical_offset], a [size_t] at byte [8 * i]. *)
Definition get_index (i : Z) (m : bytes) : result Z := load_le 8 (index_entry_size * i) m.
Definition put_index (i v : Z) (m : bytes) : result bytes :=
  store_le 8 (index_entry_size * i) v m.

(** ** Operations *)

(** Bytes of the index file for a data file of [data_size] bytes. *)
Definition calculate_index_size (data_size : Z) : Z := u64 (data_size + 1) / header_size.

(** The loop of [find_w_offset_pair] from entry [i], with [n] entries left. *)
Fixpoint find_w_loop (n : nat) (i prev_physical_offset : Z) (buffer index : bytes)
    : result (Z * option offset_pair) :=
  match n with
  | O => Ok (ELWOFFS, None)
  | S n =>
    phys ← get_index i index;
    next ← (if phys =? 0 then
                   if i =? 0 then prot_is_header 0 buffer else Ok false
                 else Ok true);
    if (next : bool) then find_w_loop n (i + 1) phys buffer index
    else
      offset ← (if i =? 0 then Ok 0 else get_size prev_physical_offset buffer);
      Ok (0, Some (OffsetPair (u32 i) (u32 (prev_physical_offset + offset))))
  end.

Definition find_w_offset_pair (buffer index : bytes) (size : Z)
    : result (Z * option offset_pair) :=
  let max_index_entries := size / index_entry_size in
  find_w_loop (Z.to_nat max_index_entries) 0 0 buffer index.

(** [__sync_bool_compare_and_swap] on the write offset. *)
Definition claim (sgm : segment) (old new : offset_pair) : Z * segment :=
  if decide (w_offset_pair sgm = old) then (0, set_w_offset_pair new sgm)
  else (ELLOCK, sgm).

Definition mark_eos (sgm : segment) (curr : offset_pair) : result (Z * segment) :=
  let new := OffsetPair (op_index curr) (u32 (op_data curr + header_size)) in
  let '(rc, sgm) := claim sgm curr new in
  if negb (rc =? 0) then Ok (rc, sgm)
  else
    let w_offset := op_data curr in
    m ← header_init w_offset (r_mem (buffer sgm));
    m ← set_size w_offset header_size m;
    m ← set_flags w_offset HEADER_FLAGS_EOS m;
    Ok (ELEOS, set_buffer m sgm).

Definition marked_eos (sgm : segment) : result bool :=
  let w_offset := op_data (w_offset_pair sgm) in
  if w_offset <? header_size then Ok false
  else
    let last_header_offset := w_offset - header_size in
    flags ← get_flags last_header_offset (r_mem (buffer sgm));
    Ok (flags =? HEADER_FLAGS_EOS).

Definition segment_base_offset (sgm : segment) : Z := base_offset sgm.

Definition segment_write_offset (sgm : segment) : Z :=
  u64 (base_offset sgm + op_index (w_offset_pair sgm)).

Definition segment_read_offset (sgm : segment) : Z :=
  u64 (base_offset sgm + op_index (w_offset_pair sgm)).

(** [segment_write(sgm, buf, size)], [size] being the length of [buf]. *)
Definition segment_write (sgm : segment) (buf : bytes) : result (Z * segment) :=
  let sz := zlen buf in
  eos ← marked_eos sgm;
  if (eos : bool) then Ok (ELEOS, sgm)
  else
    let curr := w_offset_pair sgm in
    let frame_size := u64 (header_size + sz) in
    let w_offset := op_data curr in
    if u64 (header_size + frame_size) >? u64 (size sgm - w_offset) then
      mark_eos sgm curr
    else
      let new := OffsetPair (u32 (op_index curr + 1)) (u32 (op_data curr + frame_size)) in
      let '(rc, sgm) := claim sgm curr new in
      if negb (rc =? 0) then Ok (rc, sgm)
      else
        let payload_offset := u64 (w_offset + header_size) in
        m ← store payload_offset buf (r_mem (buffer sgm));
        m ← header_init w_offset m;
        m ← set_crc32 w_offset (crc32 CRC32_INIT buf) m;
        m ← set_size w_offset frame_size m;
        m ← set_flags w_offset HEADER_FLAGS_READY m;
        let sgm := set_buffer m sgm in
        let i_offset := op_index curr in
        ix ← put_index i_offset w_offset (r_mem (index sgm));
        Ok (i64 sz, set_index ix sgm).

(** [segment_read]: the code returned and the frame as the call leaves it. *)
Definition segment_read (sgm : segment) (relative_offset : Z) (fr : frame)
    : result (Z * frame) :=
  let boundary :=
    if Z.land (flags sgm) SGM_RDCMT =? SGM_RDCMT
    then op_data (s_offset_pair sgm) else op_data (w_offset_pair sgm) in
  let i_offset := op_index (w_offset_pair sgm) in
  if relative_offset >=? i_offset then Ok (ELNORD, fr)
  else
    physical_offset ← get_index relative_offset (r_mem (index sgm));
    if negb (relative_offset =? 0) && (physical_offset =? 0) then Ok (ELNORD, fr)
    else if physical_offset >=? boundary then Ok (ELNORD, fr)
    else
      let hdr := r_base (buffer sgm) + physical_offset in
      flags ← get_flags physical_offset (r_mem (buffer sgm));
      if flags =? HEADER_FLAGS_READY then
        let fr := Frame hdr (r_base (buffer sgm) + physical_offset + header_size) in
        sz ← get_size physical_offset (r_mem (buffer sgm));
        Ok (i64 (u64 (sz - header_size)), fr)
      else if flags =? HEADER_FLAGS_EOS then Ok (ELEOS, Frame hdr (fr_buffer fr))
      else Ok (ELINVHD, fr).

Section sync.
Context {W : Type} `{!Posix W}.

(** [msync] from the page of the first unsynced byte to the write offset. *)
Definition sync_data (sgm : segment) (w : W) : Z * segment * W :=
  let s_data := op_data (s_offset_pair sgm) in
  let addr := u64 (r_base (buffer sgm) + s_data) in
  let w_offset := op_data (w_offset_pair sgm) in
  let sz := u64 (w_offset - s_data) in
  let sync_addr := page_aligned_addr os_pagesize addr in
  let diff := u64 (addr - sync_addr) in
  let sync_size := u64 (sz + diff) in
  let '(rc, w) := os_msync (buffer sgm) sync_addr sync_size w in
  if negb (rc =? 0) then (ELDTSYN, sgm, w)
  else (i32 sync_size,
        set_s_offset_pair (OffsetPair (op_index (s_offset_pair sgm)) w_offset) sgm, w).

Definition sync_index (sgm : segment) (w : W) : Z * segment * W :=
  let s_index := op_index (s_offset_pair sgm) in
  let addr := u64 (r_base (index sgm) + index_entry_size * s_index) in
  let w_index := op_index (w_offset_pair sgm) in
  let len := u64 (w_index - s_index) in
  let sz := u64 (index_entry_size * len) in
  let sync_addr := page_aligned_addr os_pagesize addr in
  let diff := u64 (addr - sync_addr) in
  let sync_size := u64 (sz + diff) in
  let '(rc, w) := os_msync (index sgm) sync_addr sync_size w in
  if negb (rc =? 0) then (ELDTSYN, sgm, w)
  else (i32 len,
        set_s_offset_pair (OffsetPair w_index (op_data (s_offset_pair sgm))) sgm, w).

Definition segment_sync (sgm : segment) (w : W) : Z * segment * W :=
  let '(sz, sgm, w) := sync_data sgm w in
  if sz <=? 0 then (sz, sgm, w) else sync_index sgm w.
End sync.
