(* ===== verification/SegmentInv.v ===== *)
(** * What a segment holds: the layout invariant

    [seg_inv sgm ps eos] says that the two regions of [sgm] hold the payloads
    [ps], framed one after the other and indexed, followed by an
    end-of-segment mark when [eos], and that the write offsets agree. *)

From S2P Require Import Prelude Errno Crc32 Prot Util Posix Segment.

(** ** Layout *)

(** A payload as [segment_write] frames it. *)
Definition frame_header (p : bytes) : header :=
  Header HEADER_FLAGS_READY HEADER_VERSION HEADER_PAD (header_size + zlen p)
    (crc32 CRC32_INIT p).
Definition frame_bytes (p : bytes) : bytes := header_bytes (frame_header p) ++ p.
Definition frames (ps : list bytes) : bytes := flat_map frame_bytes ps.

(** Where the frames start, and the index entries that say so. *)
Fixpoint offsets (o : Z) (ps : list bytes) : list Z :=
  match ps with
  | [] => []
  | p :: ps => o :: offsets (o + zlen (frame_bytes p)) ps
  end.
Definition index_bytes (ps : list bytes) : bytes := flat_map (le_bytes 8) (offsets 0 ps).

(** Bytes of the data region in use: the frames, and the end-of-segment
    header when the segment is marked. *)
Definition used (ps : list bytes) (eos : bool) : Z :=
  zlen (frames ps) + (if eos then header_size else 0).

Record seg_inv (sgm : segment) (ps : list bytes) (eos : bool) : Prop := {
  inv_size : 0 ≤ size sgm < 2 ^ 32;
  (* the data region starts with the frames; what follows them is free *)
  inv_len : zlen (r_mem (buffer sgm)) = size sgm;
  inv_frames : frames ps `prefix_of` r_mem (buffer sgm);
  (* the mark is an end-of-segment header right after the frames *)
  inv_eos : eos = true →
    get_flags (zlen (frames ps)) (r_mem (buffer sgm)) = Ok HEADER_FLAGS_EOS ∧
    get_size (zlen (frames ps)) (r_mem (buffer sgm)) = Ok header_size;
  (* an empty, unmarked segment does not start with a header *)
  inv_fresh : ps = [] → eos = false → prot_is_header 0 (r_mem (buffer sgm)) = Ok false;
  (* there is always room left for an end-of-segment header *)
  inv_used : used ps eos ≤ size sgm;
  inv_room : eos = false → used ps eos + header_size ≤ size sgm;
  (* one index entry per frame, then zeros *)
  inv_index :
    r_mem (index sgm) =
      index_bytes ps ++ zeros (zlen (r_mem (index sgm)) - index_entry_size * zlen ps);
  inv_index_room : index_entry_size * zlen ps ≤ zlen (r_mem (index sgm));
  inv_w : w_offset_pair sgm = OffsetPair (zlen ps) (used ps eos);
  inv_base : 0 ≤ base_offset sgm ∧ base_offset sgm + 2 ^ 32 < 2 ^ 63;
}.

(** The last twelve bytes written read as an end-of-segment header: this is
    what [marked_eos] tests, and a payload can forge it. *)
Definition forged_eos (ps : list bytes) : bool :=
  let n := zlen (frames ps) in
  (header_size <=? n) &&
  (le_value (take 2 (drop (Z.to_nat (n - header_size)) (frames ps))) =? HEADER_FLAGS_EOS).

(** ** Lengths *)

Lemma zlen_frame_bytes p : zlen (frame_bytes p) = header_size + zlen p.
Proof. unfold frame_bytes. rewrite length_app, length_header_bytes. unfold header_size. lia. Qed.

Lemma frames_app ps qs : frames (ps ++ qs) = frames ps ++ frames qs.
Proof. apply flat_map_app. Qed.

Lemma frames_snoc ps p : frames (ps ++ [p]) = frames ps ++ frame_bytes p.
Proof. rewrite frames_app. unfold frames at 2. simpl. by rewrite app_nil_r. Qed.

Lemma frames_length ps : header_size * zlen ps ≤ zlen (frames ps).
Proof.
  induction ps as [|p ps IH]; [done|].
  change (frames (p :: ps)) with (frame_bytes p ++ frames ps).
  rewrite length_app, Nat2Z.inj_add, zlen_frame_bytes, length_cons. unfold header_size in *. lia.
Qed.

Lemma frames_length_pos ks : ks ≠ [] → header_size ≤ zlen (frames ks).
Proof. pose proof (frames_length ks). destruct ks; [done|]. simpl length in *. size_lia. Qed.

Lemma offsets_app o ps qs :
  offsets o (ps ++ qs) = offsets o ps ++ offsets (o + zlen (frames ps)) qs.
Proof.
  revert o. induction ps as [|p ps IH]; intros o; simpl.
  - f_equal. simpl. lia.
  - f_equal. rewrite IH. do 2 f_equal.
    change (frames (p :: ps)) with (frame_bytes p ++ frames ps). len.
Qed.

Lemma length_offsets o ps : length (offsets o ps) = length ps.
Proof. revert o. induction ps; intros; simpl; auto. Qed.

Lemma length_le_bytes_flat (zs : list Z) :
  length (flat_map (le_bytes 8) zs) = (8 * length zs)%nat.
Proof.
  induction zs as [|z zs IH]; [done|].
  change (flat_map (le_bytes 8) (z :: zs)) with (le_bytes 8 z ++ flat_map (le_bytes 8) zs).
  rewrite length_app, length_le_split, IH. simpl. lia.
Qed.

Lemma zlen_index_bytes ps : zlen (index_bytes ps) = index_entry_size * zlen ps.
Proof.
  unfold index_bytes. rewrite length_le_bytes_flat, length_offsets. unfold index_entry_size. lia.
Qed.

Lemma index_bytes_snoc ps p :
  index_bytes (ps ++ [p]) = index_bytes ps ++ le_bytes 8 (zlen (frames ps)).
Proof.
  unfold index_bytes. rewrite offsets_app, flat_map_app. f_equal.
Qed.

(** The offset of a frame is the length of the frames before it. *)
Lemma offsets_lookup ps i p :
  ps !! i = Some p → offsets 0 ps !! i = Some (zlen (frames (take i ps))).
Proof.
  intros Hp. rewrite <- (take_drop_middle ps i p Hp) at 1. rewrite offsets_app.
  rewrite lookup_app_r; rewrite length_offsets, length_take_le;
    try (apply lookup_lt_Some in Hp; lia).
  by rewrite Nat.sub_diag.
Qed.

Lemma frames_split ps i p :
  ps !! i = Some p →
  frames ps = frames (take i ps) ++ frame_bytes p ++ frames (drop (S i) ps).
Proof.
  intros Hp. rewrite <- (take_drop_middle ps i p Hp) at 1. by rewrite frames_app.
Qed.

Lemma index_split ps i p :
  ps !! i = Some p →
  ∃ post, index_bytes ps =
    index_bytes (take i ps) ++ le_bytes 8 (zlen (frames (take i ps))) ++ post.
Proof.
  intros Hp. exists (flat_map (le_bytes 8) (offsets (zlen (frames (take (S i) ps))) (drop (S i) ps))).
  rewrite <- (take_drop (S i) ps) at 1.
  unfold index_bytes at 1. rewrite offsets_app, flat_map_app, Z.add_0_l.
  fold (index_bytes (take (S i) ps)). rewrite (take_S_r _ _ p Hp), index_bytes_snoc.
  by rewrite <- app_assoc.
Qed.

#[export] Hint Rewrite zlen_frame_bytes zlen_index_bytes length_offsets : len.
