(* ===== verification/SegmentOps.v ===== *)
(** * Segments: what the operations do to the layout

    Every operation of an open segment, against the invariant of
    SegmentInv.v: on each branch, the code it returns and the payloads the
    segment holds afterwards. *)

From S2P Require Import Prelude Errno Crc32 Prot Util Posix Segment SegmentInv.

(** Everything of a segment that its operations leave alone. *)
Record same_segment (a b : segment) : Prop := {
  same_version : version b = version a;
  same_flags : flags b = flags a;
  same_index_fd : index_fd b = index_fd a;
  same_data_fd : data_fd b = data_fd a;
  same_size : size b = size a;
  same_base : base_offset b = base_offset a;
  same_buffer_base : r_base (buffer b) = r_base (buffer a);
  same_index_base : r_base (index b) = r_base (index a);
  same_index_len : length (r_mem (index b)) = length (r_mem (index a));
}.

#[export] Instance same_segment_equiv : Equivalence same_segment.
Proof.
  split.
  - by intros a.
  - intros a b []. by split.
  - intros a b c [] []. split; congruence.
Qed.

(** ** End of segment *)

Lemma used_true ps : used ps true = used ps false + header_size.
Proof. unfold used. size_lia. Qed.

Lemma used_false ps : used ps false = zlen (frames ps).
Proof. unfold used. lia. Qed.

Lemma zlen_snoc {A} (l : list A) x : zlen (l ++ [x]) = zlen l + 1.
Proof. rewrite length_app. simpl. lia. Qed.

Lemma zlen_frames_snoc ps p :
  zlen (frames (ps ++ [p])) = zlen (frames ps) + (header_size + zlen p).
Proof. rewrite frames_snoc, length_app, Nat2Z.inj_add, zlen_frame_bytes. done. Qed.

Lemma used_snoc ps p : used (ps ++ [p]) false = used ps false + (header_size + zlen p).
Proof. by rewrite !used_false, zlen_frames_snoc. Qed.

(** The free space of the data region, cut where a frame would go. *)
Lemma free_cut sgm ps eos n :
  seg_inv sgm ps eos → 0 ≤ n → zlen (frames ps) + n ≤ size sgm →
  ∃ old post, r_mem (buffer sgm) = frames ps ++ old ++ post ∧ zlen old = n.
Proof.
  intros I Hn Hr. destruct (inv_frames _ _ _ I) as [tail E].
  assert (zlen (frames ps) + zlen tail = size sgm).
  { rewrite <- (inv_len _ _ _ I), E. len. }
  exists (take (Z.to_nat n) tail), (drop (Z.to_nat n) tail).
  rewrite take_drop. split; [done|]. len.
Qed.

Lemma marked_eos_inv sgm ps eos :
  seg_inv sgm ps eos → marked_eos sgm = Ok (eos || forged_eos ps).
Proof.
  intros I. unfold marked_eos. rewrite (inv_w _ _ _ I). cbn [op_data].
  unfold used. destruct eos; cbn [orb].
  - replace (_ <? _) with false by size_lia.
    replace (_ + _ - _) with (zlen (frames ps)) by lia.
    destruct (inv_eos _ _ _ I eq_refl) as [Hf _]. by run Hf.
  - unfold forged_eos. rewrite Z.add_0_r.
    destruct (Z.ltb_spec (zlen (frames ps)) header_size) as [H|H].
    { by replace (header_size <=? _) with false by lia. }
    replace (header_size <=? _) with true by lia. cbn [andb].
    destruct (inv_frames _ _ _ I) as [tail ->].
    set (n := zlen (frames ps)) in *.
    destruct (cut_at (frames ps) (n - header_size) 2) as (pre & mid & post & E & Hp & Hm);
      [unfold n in *; size_lia..|].
    rewrite E, <- Hp, Nat2Z.id, drop_app_length, (take_app_length' _ _ 2) by lia.
    unfold get_flags. rewrite <- !app_assoc. by run load_le_app by lia.
Qed.

Lemma mark_eos_inv sgm ps :
  seg_inv sgm ps false →
  ∃ sgm', mark_eos sgm (w_offset_pair sgm) = Ok (ELEOS, sgm') ∧
    seg_inv sgm' ps true ∧ same_segment sgm sgm'.
Proof.
  intros I. pose proof (inv_room _ _ _ I eq_refl) as Hr. pose proof (inv_size _ _ _ I) as Hsz.
  pose proof (frames_length ps) as Hfl. rewrite used_false in Hr.
  destruct (free_cut _ _ _ header_size I) as (old & post & Hbuf & Hold); [size_lia..|].
  assert (E := write_eos_header (frames ps) old post header_size HEADER_FLAGS_EOS
    ltac:(size_lia)).
  set (h := Header _ _ _ _ _) in E.
  assert (Hh : header_ok h).
  { pose proof (le_combine_bound (drop 8 old)) as Hc. rewrite length_drop in Hc.
    replace (length old - 8)%nat with 4%nat in Hc by size_lia.
    unfold header_ok, h; cbn [h_flags h_version h_pad h_size h_crc32].
    unfold HEADER_FLAGS_EOS, HEADER_VERSION, HEADER_PAD. size_lia. }
  unfold mark_eos, claim. rewrite decide_True by done. cbn [negb Z.eqb].
  rewrite (inv_w _ _ _ I). cbn [op_data op_index].
  change (buffer (set_w_offset_pair ?w sgm)) with (buffer sgm).
  rewrite Hbuf, used_false. run_along E. rewrite u32_small by size_lia.
  eexists; split; [done|]. split; [|by split].
  split; try apply I; cbn; rewrite ?used_true, ?used_false; try done.
  - pose proof (inv_len _ _ _ I) as Hl. rewrite Hbuf in Hl. len.
  - eexists. done.
  - intros _. rewrite get_flags_encoded, get_size_encoded by done. done.
Qed.

(** ** Writing *)

(** Room for the frame of [p] and an end-of-segment header after it. *)
Definition fits (sgm : segment) (ps : list bytes) (p : bytes) : Prop :=
  header_size + (header_size + zlen p) ≤ size sgm - used ps false.
(** Room for one more entry in the mapped index. *)
Definition index_fits (sgm : segment) (ps : list bytes) : Prop :=
  index_entry_size * (zlen ps + 1) ≤ zlen (r_mem (index sgm)).

(** The frame lands right after the frames already there. *)
Lemma write_frame ps p old area post :
  zlen old = header_size → length area = length p →
  let w := zlen (frames ps) in
  (m ← store (w + header_size) p (frames ps ++ old ++ area ++ post);
   m ← header_init w m;
   m ← set_crc32 w (crc32 CRC32_INIT p) m;
   m ← set_size w (header_size + zlen p) m;
   set_flags w HEADER_FLAGS_READY m) = Ok (frames (ps ++ [p]) ++ post).
Proof.
  intros Hold Harea w. rewrite (app_assoc (frames ps)).
  run store_app by (unfold w; len). rewrite <- app_assoc. unfold w.
  assert (E := write_header (frames ps) old (p ++ post)
    (crc32 CRC32_INIT p) (header_size + zlen p) HEADER_FLAGS_READY ltac:(size_lia)).
  rewrite E, frames_snoc. unfold frame_bytes. by rewrite <- !app_assoc.
Qed.

Lemma write_index sgm ps p :
  seg_inv sgm ps false → index_fits sgm ps →
  put_index (zlen ps) (zlen (frames ps)) (r_mem (index sgm)) =
  Ok (index_bytes (ps ++ [p]) ++
      zeros (zlen (r_mem (index sgm)) - index_entry_size * zlen (ps ++ [p]))).
Proof.
  intros I Hi. unfold index_fits in Hi. unfold put_index.
  rewrite (inv_index _ _ _ I) at 1.
  rewrite (zeros_split index_entry_size) by size_lia.
  rewrite store_le_app by len. rewrite index_bytes_snoc, <- app_assoc, zlen_snoc.
  by replace (zlen (r_mem (index sgm)) - index_entry_size * (zlen ps + 1))
    with (zlen (r_mem (index sgm)) - index_entry_size * zlen ps - index_entry_size)
    by size_lia.
Qed.

Lemma write_index_out sgm ps v :
  ¬ index_fits sgm ps → put_index (zlen ps) v (r_mem (index sgm)) = UB.
Proof.
  unfold index_fits. intros H. apply store_out. rewrite length_le_split. size_lia.
Qed.

(** A write neither refused nor rolled over, up to its index entry: the frame
    lands where the data ends, whatever entry [k] the write offset names. *)
Lemma segment_write_at v sgm ps p k :
  seg_inv v ps false → buffer sgm = buffer v → size sgm = size v →
  w_offset_pair sgm = OffsetPair k (used ps false) → 0 ≤ k < 2 ^ 32 - 1 →
  forged_eos ps = false → fits v ps p →
  ∃ post, zlen (frames (ps ++ [p]) ++ post) = size sgm ∧
  segment_write sgm p =
    (ix ← put_index k (zlen (frames ps)) (r_mem (index sgm));
     Ok (zlen p, set_index ix (set_buffer (frames (ps ++ [p]) ++ post)
       (set_w_offset_pair (OffsetPair (k + 1) (used (ps ++ [p]) false)) sgm)))).
Proof.
  intros I Hb Hs Hw Hk Hforged Hf. pose proof (inv_size _ _ _ I) as Hsz.
  pose proof (inv_used _ _ _ I) as Hu. unfold fits in Hf. rewrite used_false in *.
  destruct (free_cut _ _ _ (header_size + zlen p) I) as (old' & post & Hbuf & Hold);
    [size_lia..|].
  assert (E := write_frame ps p (take 12 old') (drop 12 old') post ltac:(len) ltac:(len)).
  rewrite (app_assoc (take _ _)), take_drop, <- Hbuf, <- Hb in E. cbv zeta in E.
  exists post. split.
  { rewrite Hs, <- (inv_len _ _ _ I), Hbuf, frames_snoc. len. }
  assert (Hm : marked_eos sgm = Ok (forged_eos ps)).
  { pose proof (marked_eos_inv _ _ _ I) as Hm. unfold marked_eos in *.
    rewrite (inv_w _ _ _ I), used_false in Hm. rewrite Hw, Hb. exact Hm. }
  unfold segment_write. run Hm. rewrite Hforged, Hw, Hs. cbn [op_data op_index].
  rewrite (u64_small (header_size + zlen p)), !u64_small by size_lia.
  destruct (Z.gtb_spec (header_size + (header_size + zlen p)) (size v - zlen (frames ps)));
    [lia|].
  unfold claim. rewrite decide_True by done.
  cbn [Z.eqb negb]. change (buffer (set_w_offset_pair ?w sgm)) with (buffer sgm).
  run_along E. rewrite !u32_small by size_lia. rewrite i64_small by size_lia.
  by rewrite ?used_snoc, ?used_false, ?zlen_frames_snoc.
Qed.

Lemma segment_write_fits sgm ps p :
  seg_inv sgm ps false → forged_eos ps = false → fits sgm ps p →
  ∃ post, zlen (frames (ps ++ [p]) ++ post) = size sgm ∧
  segment_write sgm p =
    (ix ← put_index (zlen ps) (zlen (frames ps)) (r_mem (index sgm));
     Ok (zlen p, set_index ix (set_buffer (frames (ps ++ [p]) ++ post)
       (set_w_offset_pair (OffsetPair (zlen (ps ++ [p])) (used (ps ++ [p]) false)) sgm)))).
Proof.
  intros I Hforged Hf. pose proof (inv_size _ _ _ I). pose proof (inv_used _ _ _ I).
  pose proof (frames_length ps). rewrite zlen_snoc.
  apply (segment_write_at sgm); try done; [apply I|]. rewrite used_false in *. size_lia.
Qed.

Lemma after_write_inv sgm ps p post :
  seg_inv sgm ps false → fits sgm ps p → index_fits sgm ps →
  zlen (frames (ps ++ [p]) ++ post) = size sgm →
  let ix := index_bytes (ps ++ [p]) ++
            zeros (zlen (r_mem (index sgm)) - index_entry_size * zlen (ps ++ [p])) in
  let sgm' := set_index ix (set_buffer (frames (ps ++ [p]) ++ post)
    (set_w_offset_pair (OffsetPair (zlen (ps ++ [p])) (used (ps ++ [p]) false)) sgm)) in
  seg_inv sgm' (ps ++ [p]) false ∧ same_segment sgm sgm'.
Proof.
  intros I Hf Hi Hlen ix sgm'. unfold fits, index_fits in *.
  assert (Hl : zlen ix = zlen (r_mem (index sgm))).
  { unfold ix. rewrite length_app, Nat2Z.inj_add, zlen_index_bytes, zlen_snoc, length_zeros. lia. }
  split.
  - split; cbn; rewrite ?used_snoc; try apply I; try done.
    + by eexists.
    + intros Hnil. by destruct ps.
    + size_lia.
    + intros _. size_lia.
    + by rewrite Hl.
    + rewrite Hl, zlen_snoc. lia.
  - split; cbn; done || lia.
Qed.

(** Every branch of [segment_write]. *)
Lemma segment_write_inv sgm ps eos p :
  seg_inv sgm ps eos → zlen p < 2 ^ 63 →
  if eos || forged_eos ps then segment_write sgm p = Ok (ELEOS, sgm)
  else if header_size + (header_size + zlen p) >? size sgm - used ps false then
    ∃ sgm', segment_write sgm p = Ok (ELEOS, sgm') ∧
      seg_inv sgm' ps true ∧ same_segment sgm sgm'
  else if index_entry_size * (zlen ps + 1) <=? zlen (r_mem (index sgm)) then
    ∃ sgm', segment_write sgm p = Ok (zlen p, sgm') ∧
      seg_inv sgm' (ps ++ [p]) false ∧ same_segment sgm sgm'
  else segment_write sgm p = UB.
Proof.
  intros I Hp. destruct (eos || forged_eos ps)%bool eqn:He.
  { unfold segment_write. run (marked_eos_inv _ _ _ I). by rewrite He. }
  apply orb_false_iff in He as [-> Hforged].
  destruct (Z.gtb_spec (header_size + (header_size + zlen p)) (size sgm - used ps false))
    as [Hfull|Hfit].
  - unfold segment_write. run (marked_eos_inv _ _ _ I). rewrite Hforged. cbn [orb].
    cbv zeta. replace (op_data (w_offset_pair sgm)) with (used ps false)
      by (by rewrite (inv_w _ _ _ I)).
    pose proof (inv_size _ _ _ I). pose proof (inv_used _ _ _ I).
    assert (0 ≤ used ps false) by (rewrite used_false; lia).
    rewrite (u64_small (header_size + zlen p)), !u64_small by size_lia.
    destruct (Z.gtb_spec (header_size + (header_size + zlen p)) (size sgm - used ps false));
      [|lia].
    by apply mark_eos_inv.
  - destruct (segment_write_fits sgm ps p) as (post & Hlen & ->); [done..|].
    destruct (Z.leb_spec (index_entry_size * (zlen ps + 1)) (zlen (r_mem (index sgm)))).
    + run (write_index sgm ps p) by done. eexists. split; [done|]. by apply after_write_inv.
    + by run write_index_out by (unfold index_fits; lia).
Qed.

(** ** Reading *)

(** The first byte the reader may not touch: everything written, or only what
    was synced for a segment opened with [SGM_RDCMT]. *)
Definition read_boundary (sgm : segment) : Z :=
  if Z.land (flags sgm) SGM_RDCMT =? SGM_RDCMT
  then op_data (s_offset_pair sgm) else op_data (w_offset_pair sgm).

Definition frame_offset (ps : list bytes) (i : nat) : Z := zlen (frames (take i ps)).

Definition frame_at (sgm : segment) (off : Z) : frame :=
  Frame (r_base (buffer sgm) + off) (r_base (buffer sgm) + off + header_size).

Lemma frame_offset_bound ps i p :
  ps !! i = Some p →
  0 ≤ frame_offset ps i ∧ frame_offset ps i + header_size + zlen p ≤ zlen (frames ps).
Proof.
  intros Hp. unfold frame_offset. rewrite (frames_split ps i p Hp).
  rewrite !length_app, !Nat2Z.inj_add, zlen_frame_bytes. size_lia.
Qed.

Lemma frame_offset_prefix ps ks i : (i ≤ length ps)%nat → frame_offset (ps ++ ks) i = frame_offset ps i.
Proof. intros Hi. unfold frame_offset. by rewrite take_app_le. Qed.

Lemma frame_offset_pos ps i p :
  ps !! i = Some p → i ≠ 0%nat → header_size ≤ frame_offset ps i.
Proof.
  intros Hp Hi. unfold frame_offset. pose proof (frames_length (take i ps)) as H.
  rewrite length_take_le in H by (apply lookup_lt_Some in Hp; lia). size_lia.
Qed.

Lemma frame_header_ok p : zlen p + header_size < 2 ^ 32 → header_ok (frame_header p).
Proof.
  intros Hp. pose proof (crc32_range_lemma CRC32_INIT p).
  unfold header_ok, frame_header; simpl.
  unfold HEADER_FLAGS_READY, HEADER_VERSION, HEADER_PAD, CRC32_INIT in *. size_lia.
Qed.

(** A read of an entry that points to the header of a finished frame. *)
Lemma segment_read_slot sgm rel off n fr :
  rel < op_index (w_offset_pair sgm) → get_index rel (r_mem (index sgm)) = Ok off →
  (rel ≠ 0 → off ≠ 0) → get_flags off (r_mem (buffer sgm)) = Ok HEADER_FLAGS_READY →
  get_size off (r_mem (buffer sgm)) = Ok (header_size + n) → 0 ≤ n < 2 ^ 63 →
  segment_read sgm rel fr =
    if off >=? read_boundary sgm then Ok (ELNORD, fr) else Ok (n, frame_at sgm off).
Proof.
  intros Hrel Hix Hpos Hflags Hsize Hn. unfold segment_read. fold (read_boundary sgm). cbv zeta.
  destruct (Z.geb_spec rel (op_index (w_offset_pair sgm))); [lia|].
  run Hix. destruct (negb (rel =? 0) && (off =? 0))%bool eqn:Hz; [lia|].
  destruct (_ >=? _); [done|]. run Hflags. cbn [Z.eqb HEADER_FLAGS_READY Pos.eqb].
  run Hsize. rewrite u64_small, i64_small by size_lia.
  unfold frame_at. do 2 f_equal. lia.
Qed.

Section read.
Context (sgm : segment) (ps : list bytes) (eos : bool) (I : seg_inv sgm ps eos).

Lemma seg_frames_bound : zlen (frames ps) ≤ size sgm.
Proof using I.
  pose proof (inv_used _ _ _ I) as H. unfold used in H. destruct eos; size_lia.
Qed.

(** The data region, cut at a frame. *)
Lemma buffer_at_frame i p :
  ps !! i = Some p →
  ∃ post, r_mem (buffer sgm) =
    frames (take i ps) ++ header_bytes (frame_header p) ++ p ++ post.
Proof using I.
  intros Hp. destruct (inv_frames _ _ _ I) as [tail ->]. rewrite (frames_split ps i p Hp).
  unfold frame_bytes. rewrite <- !app_assoc. eauto.
Qed.

Lemma payload_bound i p : ps !! i = Some p → zlen p + header_size ≤ size sgm.
Proof using I.
  intros Hp. pose proof (frame_offset_bound _ _ _ Hp). pose proof seg_frames_bound. lia.
Qed.

Lemma header_at_frame i p :
  ps !! i = Some p → zlen p + header_size < 2 ^ 32 ∧
  get_flags (frame_offset ps i) (r_mem (buffer sgm)) = Ok HEADER_FLAGS_READY ∧
  get_size (frame_offset ps i) (r_mem (buffer sgm)) = Ok (header_size + zlen p) ∧
  get_crc32 (frame_offset ps i) (r_mem (buffer sgm)) = Ok (crc32 CRC32_INIT p).
Proof using I.
  intros Hp. pose proof (inv_size _ _ _ I). pose proof (payload_bound _ _ Hp).
  assert (header_ok (frame_header p)) by (apply frame_header_ok; lia).
  destruct (buffer_at_frame i p Hp) as [post ->]. unfold frame_offset.
  split; [lia|]. rewrite get_flags_encoded, get_size_encoded, get_crc32_encoded by done. done.
Qed.

Lemma index_at i p :
  ps !! i = Some p → get_index (Z.of_nat i) (r_mem (index sgm)) = Ok (frame_offset ps i).
Proof using I.
  intros Hp. pose proof (frame_offset_bound _ _ _ Hp). pose proof seg_frames_bound.
  pose proof (inv_size _ _ _ I). pose proof (lookup_lt_Some _ _ _ Hp).
  rewrite (inv_index _ _ _ I). destruct (index_split ps i p Hp) as [post ->].
  unfold get_index. rewrite <- !app_assoc. fold (frame_offset ps i).
  run load_le_app by (rewrite ?zlen_index_bytes, ?length_take_le by lia; done || lia).
  rewrite le_value_bytes; [done|]. size_lia.
Qed.

Lemma segment_read_frame i p fr :
  ps !! i = Some p →
  segment_read sgm (Z.of_nat i) fr =
    if frame_offset ps i >=? read_boundary sgm then Ok (ELNORD, fr)
    else Ok (zlen p, frame_at sgm (frame_offset ps i)).
Proof using I.
  intros Hp. pose proof (lookup_lt_Some _ _ _ Hp) as Hi.
  pose proof (frame_offset_pos _ _ _ Hp) as Hpos.
  destruct (header_at_frame i p Hp) as (Hsz & Hflags & Hsize & _).
  apply segment_read_slot; try done.
  - rewrite (inv_w _ _ _ I). cbn [op_index]. lia.
  - by eapply index_at.
  - unfold header_size in Hpos. lia.
  - size_lia.
Qed.

Lemma segment_read_past rel fr :
  zlen ps ≤ rel → segment_read sgm rel fr = Ok (ELNORD, fr).
Proof using I.
  intros H. unfold segment_read. cbv zeta.
  replace (op_index (w_offset_pair sgm)) with (zlen ps) by (by rewrite (inv_w _ _ _ I)).
  by destruct (Z.geb_spec rel (zlen ps)); [|lia].
Qed.

(** What the client finds behind the pointers of the frame. *)
Lemma frame_payload_at i p :
  ps !! i = Some p →
  frame_payload (buffer sgm) (frame_at sgm (frame_offset ps i)) = Ok p ∧
  frame_payload_size (buffer sgm) (frame_at sgm (frame_offset ps i)) = Ok (zlen p).
Proof using I.
  intros Hp. destruct (header_at_frame i p Hp) as (Hsz & _ & Hsize & _).
  unfold frame_payload, frame_payload_size, frame_at; cbn [fr_hdr fr_buffer].
  replace (r_base (buffer sgm) + frame_offset ps i - r_base (buffer sgm))
    with (frame_offset ps i) by lia.
  run Hsize. rewrite u64_small by size_lia.
  replace (header_size + zlen p - header_size) with (zlen p) by lia. split; [|done].
  destruct (buffer_at_frame i p Hp) as [post ->].
  rewrite app_assoc. apply load_app; [|done].
  rewrite length_app, Nat2Z.inj_add, zlen_header_bytes. unfold frame_offset. lia.
Qed.
End read.

(** ** Recovering the write offset of a file *)

Section recovery.
Context (sgm : segment) (ps : list bytes) (eos : bool) (I : seg_inv sgm ps eos).
(** [find_w_offset_pair] scans [max] entries, all of them mapped. *)
Context (max : nat) (Hmax : index_entry_size * Z.of_nat max ≤ zlen (r_mem (index sgm))).

Local Abbreviation buf := (r_mem (buffer sgm)).
Local Abbreviation idx := (r_mem (index sgm)).

Lemma index_end :
  (length ps < max)%nat → get_index (zlen ps) idx = Ok 0.
Proof using All.
  intros H. rewrite (inv_index _ _ _ I).
  rewrite (zeros_split index_entry_size) by size_lia.
  unfold get_index. run load_le_app by len. by rewrite le_value_zeros.
Qed.

Lemma frames_take_S i p :
  ps !! i = Some p → frame_offset ps (S i) = frame_offset ps i + (header_size + zlen p).
Proof using Type.
  intros Hp. unfold frame_offset. by rewrite (take_S_r _ _ _ Hp), zlen_frames_snoc.
Qed.

Lemma find_w_loop_inv n i :
  (i + n)%nat = max → (0 < i)%nat → (i ≤ length ps)%nat →
  find_w_loop n (Z.of_nat i) (frame_offset ps (i - 1)) buf idx =
    if (max <=? length ps)%nat then Ok (ELWOFFS, None)
    else Ok (0, Some (OffsetPair (zlen ps) (zlen (frames ps)))).
Proof using All.
  pose proof (inv_size _ _ _ I). pose proof (seg_frames_bound _ _ _ I).
  pose proof (frames_length ps).
  revert i. induction n as [|n IH]; intros i Hn Hi0 Hi; cbn [find_w_loop].
  { by destruct (Nat.leb_spec max (length ps)); [|lia]. }
  destruct (decide (i = length ps)) as [->|].
  - run index_end by lia. cbn [Z.eqb].
    replace (zlen ps =? 0) with false by lia. rewrite bind_Ok.
    destruct (lookup_lt_is_Some_2 ps (length ps - 1)) as [p Hp]; [lia|].
    destruct (header_at_frame _ _ _ I _ _ Hp) as (_ & _ & Hs & _). run Hs.
    pose proof (frames_take_S _ _ Hp) as Hf.
    replace (S (length ps - 1)) with (length ps) in Hf by lia.
    unfold frame_offset at 1 in Hf. rewrite firstn_all in Hf. rewrite <- Hf.
    rewrite !u32_small by size_lia. by destruct (Nat.leb_spec max (length ps)); [lia|].
  - destruct (lookup_lt_is_Some_2 ps i) as [p Hp]; [lia|].
    run (index_at _ _ _ I _ _ Hp).
    pose proof (frame_offset_pos _ _ _ Hp ltac:(lia)).
    replace (frame_offset ps i =? 0) with false by size_lia. rewrite bind_Ok.
    replace (Z.of_nat i + 1) with (Z.of_nat (S i)) by lia.
    specialize (IH (S i) ltac:(lia) ltac:(lia) ltac:(lia)).
    by replace (S i - 1)%nat with i in IH by lia.
Qed.

(** What is found: the frames indexed, the mark forgotten. *)
Definition recovered : Z * option offset_pair :=
  if (max <=? length ps)%nat then (ELWOFFS, None)
  else (0, Some (OffsetPair (zlen ps) (zlen (frames ps)))).

Lemma find_w_inv sz :
  sz / index_entry_size = Z.of_nat max → (0 < max)%nat → (ps = [] → eos = false) →
  find_w_offset_pair buf idx sz = Ok recovered.
Proof using All.
  intros Hsz Hmax0 Hne. unfold find_w_offset_pair, recovered. rewrite Hsz, Nat2Z.id.
  replace max with (S (max - 1)) at 1 by lia. cbn [find_w_loop].
  assert (Hoff0 : frame_offset ps 0 = 0) by (unfold frame_offset; by rewrite take_0).
  destruct (decide (ps = [])) as [Hps|Hps].
  - assert (Hl : length ps = 0%nat) by (by rewrite Hps).
    assert (Hfr : frames ps = []) by (by rewrite Hps).
    assert (H1 := index_end ltac:(lia)). rewrite Hl in H1. change (Z.of_nat 0) with 0 in H1. run H1. cbn [Z.eqb].
    run (inv_fresh _ _ _ I Hps (Hne Hps)). rewrite Hl, Hfr.
    by destruct (Nat.leb_spec max 0); [lia|].
  - destruct (lookup_lt_is_Some_2 ps 0) as [p Hp].
    { destruct ps; [done|simpl; lia]. }
    assert (H1 := index_at _ _ _ I _ _ Hp). rewrite Hoff0 in H1.
    change (Z.of_nat 0) with 0 in H1. run H1. cbn [Z.eqb].
    destruct (header_at_frame _ _ _ I _ _ Hp) as (_ & Hf & _ & _). rewrite Hoff0 in Hf.
    unfold prot_is_header. run Hf. cbn [Z.eqb Pos.eqb HEADER_FLAGS_READY orb].
    rewrite ?bind_Ok. apply lookup_lt_Some in Hp.
    assert (H2 := find_w_loop_inv (max - 1) 1 ltac:(lia) ltac:(lia) ltac:(lia)).
    change (1 - 1)%nat with 0%nat in H2. rewrite Hoff0 in H2.
    change (0 + 1) with (Z.of_nat 1). rewrite H2.
    by destruct (_ <=? _)%nat.
Qed.

(** A segment holding nothing but an end-of-segment mark is recovered as if
    the mark were its first entry. *)
Lemma find_w_eos_only sz :
  sz / index_entry_size = Z.of_nat max → (1 < max)%nat → ps = [] → eos = true →
  find_w_offset_pair buf idx sz = Ok (0, Some (OffsetPair 1 header_size)).
Proof using All.
  intros Hsz Hmax1 Hps Heos. unfold find_w_offset_pair. rewrite Hsz, Nat2Z.id.
  replace max with (S (S (max - 2))) at 1 by lia. cbn [find_w_loop].
  destruct (inv_eos _ _ _ I Heos) as [Hf Hs].
  assert (Hl : length ps = 0%nat) by (by rewrite Hps).
  replace (zlen (frames ps)) with 0 in * by (by rewrite Hps).
  assert (H1 := index_end ltac:(lia)). rewrite Hl in H1. change (Z.of_nat 0) with 0 in H1. run H1. cbn [Z.eqb].
  unfold prot_is_header. run Hf. cbn [Z.eqb Pos.eqb HEADER_FLAGS_READY HEADER_FLAGS_EOS orb].
  rewrite ?bind_Ok.
  assert (H2 : get_index (0 + 1) idx = Ok 0).
  { rewrite (inv_index _ _ _ I), Hps. cbn [index_bytes offsets flat_map app length].
    rewrite (zeros_split index_entry_size), (zeros_split index_entry_size (_ - _)) by size_lia.
    unfold get_index. run load_le_app by len. by rewrite le_value_zeros. }
  run H2. cbn [Z.eqb Z.add Pos.eqb]. rewrite ?bind_Ok. run Hs. by rewrite !u32_small by size_lia.
Qed.
End recovery.

(** ** Syncing *)

Section sync.
Context {W : Type} `{!Posix W}.
(** Pages are a power of two, and [mmap] returns page-aligned addresses. *)
Context (k : Z) (Hk : 0 ≤ k ≤ 31) (Hpage : os_pagesize = 2 ^ k).
Context (sgm : segment) (w : W).

(** An unsynced stretch [from, upto) of a mapping at [base]: the call
    to [msync] it takes. *)
Lemma msync_range base from upto :
  0 ≤ base → base mod 2 ^ k = 0 → 0 ≤ from ≤ upto → base + upto < 2 ^ 64 →
  let addr := u64 (base + from) in
  let start := page_aligned_addr os_pagesize addr in
  start = base + (from - from mod 2 ^ k) ∧
  u64 (u64 (upto - from) + u64 (addr - start)) = upto - (from - from mod 2 ^ k).
Proof using Hk Hpage.
  intros Hb Hal Hf Hu. rewrite Hpage. cbv zeta.
  assert (0 < 2 ^ k) by (apply Z.pow_pos_nonneg; lia).
  rewrite (u64_small (base + from)) by lia.
  rewrite page_aligned_addr_eq by lia.
  assert (Hm : (base + from) mod 2 ^ k = from mod 2 ^ k).
  { rewrite Z.add_mod, Hal, Z.add_0_l, Z.mod_mod by lia. done. }
  pose proof (Z.mod_pos_bound from (2 ^ k) ltac:(lia)).
  pose proof (Z.mod_le from (2 ^ k) ltac:(lia) ltac:(lia)).
  rewrite Hm. rewrite (u64_small (upto - from)), (u64_small (base + from - _)) by lia.
  rewrite u64_small by lia. lia.
Qed.

Lemma sync_data_eq :
  0 ≤ r_base (buffer sgm) → r_base (buffer sgm) mod 2 ^ k = 0 →
  let s := op_data (s_offset_pair sgm) in
  let e := op_data (w_offset_pair sgm) in
  let start := s - s mod 2 ^ k in
  0 ≤ s ≤ e → e < 2 ^ 31 → r_base (buffer sgm) + e < 2 ^ 64 →
  sync_data sgm w =
    let '(rc, w) := os_msync (buffer sgm) (r_base (buffer sgm) + start) (e - start) w in
    if rc =? 0
    then (e - start, set_s_offset_pair (OffsetPair (op_index (s_offset_pair sgm)) e) sgm, w)
    else (ELDTSYN, sgm, w).
Proof using Hk Hpage.
  intros Hb Hal s e start Hs He Hbe.
  destruct (msync_range (r_base (buffer sgm)) s e) as [E1 E2]; [done..|].
  unfold sync_data. fold s e. rewrite E1 in *. rewrite E2. fold start.
  destruct (os_msync _ _ _ w) as [rc w']. destruct (rc =? 0); [|done]. cbn [negb].
  assert (0 < 2 ^ k) by (apply Z.pow_pos_nonneg; lia).
  rewrite i32_small; [done|]. unfold start.
  pose proof (Z.mod_pos_bound s (2 ^ k) ltac:(lia)).
  pose proof (Z.mod_le s (2 ^ k) ltac:(lia) ltac:(lia)). lia.
Qed.

Lemma sync_index_eq :
  0 ≤ r_base (index sgm) → r_base (index sgm) mod 2 ^ k = 0 →
  let s := op_index (s_offset_pair sgm) in
  let e := op_index (w_offset_pair sgm) in
  let start := index_entry_size * s - (index_entry_size * s) mod 2 ^ k in
  0 ≤ s ≤ e → e < 2 ^ 31 → r_base (index sgm) + index_entry_size * e < 2 ^ 64 →
  sync_index sgm w =
    let '(rc, w) := os_msync (index sgm) (r_base (index sgm) + start)
                      (index_entry_size * e - start) w in
    if rc =? 0
    then (e - s, set_s_offset_pair (OffsetPair e (op_data (s_offset_pair sgm))) sgm, w)
    else (ELDTSYN, sgm, w).
Proof using Hk Hpage.
  intros Hb Hal s e start Hs He Hbe.
  destruct (msync_range (r_base (index sgm)) (index_entry_size * s) (index_entry_size * e))
    as [E1 E2]; [done|done|size_lia|done|].
  unfold sync_index. fold s e. rewrite (u64_small (e - s)) by lia.
  rewrite Z.mul_sub_distr_l, E1 in *. rewrite E2. fold start.
  destruct (os_msync _ _ _ w) as [rc w']. destruct (rc =? 0); [|done]. cbn [negb].
  by rewrite i32_small by lia.
Qed.
End sync.
