(* ===== verification/SegmentSpec.v ===== *)
(** * Segments: the properties

    A segment is a bounded append-only queue: [segment_refines_queue] states
    it for whole sequences of operations, with the two limits the
    implementation has (room in the data region, room in the index) and the
    payloads that close it; the other theorems go branch by branch. *)

From S2P Require Import Prelude Errno Crc32 Prot Util Posix MemOs Segment SegmentInv SegmentOps.

(** ** The abstract queue *)

Record queue := Queue { q_items : list bytes; q_closed : bool }.

(** Bytes a queue of capacity [cap] has left. *)
Definition q_free (cap : Z) (q : queue) : Z := cap - zlen (frames (q_items q)).

Definition queue_write (cap : Z) (q : queue) (p : bytes) : Z * queue :=
  if q_closed q then (ELEOS, q)
  else if q_free cap q <? 2 * header_size + zlen p then (ELEOS, Queue (q_items q) true)
  else (zlen p, Queue (q_items q ++ [p]) false).

Definition queue_read (q : queue) (i : nat) : Z * option bytes :=
  match q_items q !! i with
  | Some p => (zlen p, Some p)
  | None => (ELNORD, None)
  end.

(** ** Sequences of operations *)

Inductive op := Write (p : bytes) | Read (i : nat).
Inductive reply := Wrote (rc : Z) | Got (rc : Z) (payload : option bytes).

(** A read, and the payload behind the frame it returns. *)
Definition read_payload (sgm : segment) (i : nat) : result (Z * option bytes) :=
  '(rc, fr) ← segment_read sgm (Z.of_nat i) (Frame 0 0);
  if rc <? 0 then Ok (rc, None)
  else p ← frame_payload (buffer sgm) fr; Ok (rc, Some p).

Fixpoint run_segment (ops : list op) (sgm : segment) : result (list reply * segment) :=
  match ops with
  | [] => Ok ([], sgm)
  | Write p :: ops =>
    '(rc, sgm) ← segment_write sgm p;
    '(rs, sgm) ← run_segment ops sgm;
    Ok (Wrote rc :: rs, sgm)
  | Read i :: ops =>
    '(rc, payload) ← read_payload sgm i;
    '(rs, sgm) ← run_segment ops sgm;
    Ok (Got rc payload :: rs, sgm)
  end.

(** The payload makes the segment look closed: the last twelve bytes of its
    frame start with the flags of an end-of-segment header. *)
Definition forges (p : bytes) : bool :=
  le_value (take 2 (drop (length p) (frame_bytes p))) =? HEADER_FLAGS_EOS.

(** The limits of a segment: the bytes of its data region and of its mapped
    index, and the offset of the first frame a committed reader is refused. *)
Record limits := Limits { l_data : Z; l_index : Z; l_synced : option Z }.

Definition limits_of (sgm : segment) : limits :=
  Limits (size sgm) (zlen (r_mem (index sgm)))
    (if Z.land (flags sgm) SGM_RDCMT =? SGM_RDCMT
     then Some (op_data (s_offset_pair sgm)) else None).

(** The queue within these limits: a write without an index slot is no
    operation at all ([None]), and a payload that imitates an end mark closes
    the queue it is appended to. *)
Definition bounded_write (l : limits) (q : queue) (p : bytes) : option (Z * queue) :=
  if q_closed q then Some (ELEOS, q)
  else if q_free (l_data l) q <? 2 * header_size + zlen p then
    Some (ELEOS, Queue (q_items q) true)
  else if index_entry_size * (zlen (q_items q) + 1) <=? l_index l then
    Some (zlen p, Queue (q_items q ++ [p]) (forges p))
  else None.

Definition bounded_read (l : limits) (q : queue) (i : nat) : Z * option bytes :=
  let hidden := match l_synced l with
                | Some s => s <=? frame_offset (q_items q) i
                | None => false
                end in
  if hidden then (ELNORD, None) else queue_read q i.

Fixpoint run_bounded (l : limits) (ops : list op) (q : queue) : option (list reply * queue) :=
  match ops with
  | [] => Some ([], q)
  | Write p :: ops =>
    match bounded_write l q p with
    | Some (rc, q) =>
      match run_bounded l ops q with
      | Some (rs, q) => Some (Wrote rc :: rs, q)
      | None => None
      end
    | None => None
    end
  | Read i :: ops =>
    let '(rc, payload) := bounded_read l q i in
    match run_bounded l ops q with
    | Some (rs, q) => Some (Got rc payload :: rs, q)
    | None => None
    end
  end.

(** What a C object can hold. *)
Definition op_sized (o : op) : Prop :=
  match o with Write p => zlen p < 2 ^ 63 | Read _ => True end.

(** A freshly created segment over zeroed files. *)
Definition fresh_segment (data_size index_len flags : Z) : segment :=
  Segment LATEST_SEGMENT_VERSION flags 3 4 data_size 0
    (Region 0x10000 (zeros data_size)) (Region 0x80000 (zeros index_len))
    (OffsetPair 0 0) (OffsetPair 0 0).

(** ** Lemmas *)

Lemma forged_snoc ps p : forged_eos (ps ++ [p]) = forges p.
Proof.
  unfold forged_eos, forges. rewrite frames_snoc.
  assert (zlen (frame_bytes p) = header_size + zlen p) by apply zlen_frame_bytes.
  replace (header_size <=? _) with true by (rewrite length_app; size_lia). cbn [andb].
  do 3 f_equal. rewrite drop_app_ge by (rewrite length_app; size_lia).
  f_equal. rewrite length_app. size_lia.
Qed.

Lemma forged_all ps : Forall (λ p, forges p = false) ps → forged_eos ps = false.
Proof.
  destruct ps as [|p ps] using rev_ind; [done|].
  intros [_ H]%Forall_app. rewrite forged_snoc. by inversion H.
Qed.

Lemma get_flags_zeros n : 2 ≤ n → get_flags 0 (zeros n) = Ok 0.
Proof.
  intros. rewrite (zeros_split 2) by lia. unfold get_flags.
  rewrite load_le_head by len. by rewrite le_value_zeros.
Qed.

Lemma fresh_inv n m flags :
  header_size ≤ n < 2 ^ 32 → 0 ≤ m → seg_inv (fresh_segment n m flags) [] false.
Proof.
  intros Hn Hm. unfold fresh_segment. split; cbn; unfold used; cbn; try size_lia; try done.
  - len.
  - apply prefix_nil.
  - intros _ _. unfold prot_is_header. run get_flags_zeros by size_lia.
    done.
  - f_equal. len.
Qed.

Section payloads.
Context (sgm : segment) (ps : list bytes) (eos : bool) (I : seg_inv sgm ps eos).

Lemma read_payload_below i :
  zlen (frames ps) ≤ read_boundary sgm →
  read_payload sgm i = Ok (queue_read (Queue ps eos) i).
Proof using I.
  intros Hd. unfold read_payload, queue_read. cbn [q_items].
  destruct (ps !! i) as [p|] eqn:Hp.
  - run (segment_read_frame _ _ _ I _ _ (Frame 0 0) Hp).
    pose proof (frame_offset_bound _ _ _ Hp).
    destruct (Z.geb_spec (frame_offset ps i) (read_boundary sgm)); [size_lia|].
    rewrite bind_Ok. replace (zlen p <? 0) with false by lia.
    by run (proj1 (frame_payload_at _ _ _ I _ _ Hp)).
  - run (segment_read_past _ _ _ I) by (apply lookup_ge_None in Hp; lia). done.
Qed.

Lemma read_payload_inv i :
  Z.land (flags sgm) SGM_RDCMT ≠ SGM_RDCMT →
  read_payload sgm i = Ok (queue_read (Queue ps eos) i).
Proof using I.
  intros Hd. apply read_payload_below. unfold read_boundary.
  rewrite (proj2 (Z.eqb_neq _ _)), (inv_w _ _ _ I) by done. cbn [op_data].
  unfold used. destruct eos; size_lia.
Qed.

Lemma read_payload_bounded i closed :
  read_payload sgm i = Ok (bounded_read (limits_of sgm) (Queue ps closed) i).
Proof using I.
  unfold bounded_read, limits_of. cbn [l_synced q_items].
  destruct (Z.eqb_spec (Z.land (flags sgm) SGM_RDCMT) SGM_RDCMT) as [Hc|Hc];
    [|by apply read_payload_inv].
  unfold read_payload, queue_read. cbn [q_items]. destruct (ps !! i) as [p|] eqn:Hp.
  - run (segment_read_frame _ _ _ I _ _ (Frame 0 0) Hp).
    unfold read_boundary. rewrite Hc, Z.eqb_refl, Z.geb_leb.
    destruct (_ <=? _); [done|]. rewrite bind_Ok. replace (zlen p <? 0) with false by lia.
    by run (proj1 (frame_payload_at _ _ _ I _ _ Hp)).
  - run (segment_read_past _ _ _ I) by (apply lookup_ge_None in Hp; lia).
    by destruct (_ <=? _).
Qed.
End payloads.

(** A write leaves the synced offsets. *)
Lemma segment_write_synced sgm buf rc sgm' :
  segment_write sgm buf = Ok (rc, sgm') → s_offset_pair sgm' = s_offset_pair sgm.
Proof.
  unfold segment_write, mark_eos, claim. intros H.
  repeat first [apply bind_Ok_inv in H as (? & _ & H) | case_match | by simplify_eq].
Qed.

(** An accepted or refused write leaves the limits. *)
Lemma write_limits sgm buf rc sgm' :
  same_segment sgm sgm' → segment_write sgm buf = Ok (rc, sgm') → limits_of sgm' = limits_of sgm.
Proof.
  intros [_ Hf _ _ Hz _ _ _ Hl] Hw. unfold limits_of.
  by rewrite Hf, Hz, (segment_write_synced _ _ _ _ Hw), Hl.
Qed.

(** One write simulates one write of the queue. *)
Lemma write_simulates sgm ps eos p :
  seg_inv sgm ps eos → forged_eos ps = false →
  (eos = false → fits sgm ps p → index_fits sgm ps) → zlen p < 2 ^ 63 →
  forges p = false →
  let '(rc, q) := queue_write (size sgm) (Queue ps eos) p in
  ∃ sgm', segment_write sgm p = Ok (rc, sgm') ∧ seg_inv sgm' (q_items q) (q_closed q) ∧
    forged_eos (q_items q) = false ∧ same_segment sgm sgm'.
Proof.
  intros I Hforged Hc Hp Hfp. pose proof (segment_write_inv _ _ _ p I Hp) as H.
  unfold queue_write, q_free. cbn [q_items q_closed].
  rewrite Hforged, orb_false_r in H. destruct eos; cbn [orb] in H; [by exists sgm|].
  rewrite used_false in H.
  destruct (Z.gtb_spec (header_size + (header_size + zlen p)) (size sgm - zlen (frames ps))).
  - replace (_ <? _) with true by lia. destruct H as (sgm' & ? & ? & ?). by exists sgm'.
  - replace (_ <? _) with false by lia.
    destruct (Z.leb_spec (index_entry_size * (zlen ps + 1)) (zlen (r_mem (index sgm)))).
    + destruct H as (sgm' & ? & ? & ?). exists sgm'. cbn [q_items q_closed].
      by rewrite forged_snoc.
    + assert (Hf : index_fits sgm ps); [|unfold index_fits in Hf; lia].
      apply Hc; [done|].
      unfold fits. rewrite used_false. lia.
Qed.

Lemma bounded_write_simulates sgm ps eos p :
  seg_inv sgm ps eos → zlen p < 2 ^ 63 →
  match bounded_write (limits_of sgm) (Queue ps (eos || forged_eos ps)) p with
  | Some (rc, q) => ∃ sgm' eos', segment_write sgm p = Ok (rc, sgm') ∧
      seg_inv sgm' (q_items q) eos' ∧ q_closed q = (eos' || forged_eos (q_items q))%bool ∧
      same_segment sgm sgm'
  | None => segment_write sgm p = UB
  end.
Proof.
  intros I Hp. pose proof (segment_write_inv _ _ _ p I Hp) as H.
  unfold bounded_write, q_free, limits_of. cbn [q_items q_closed l_data l_index].
  destruct (eos || forged_eos ps)%bool eqn:He; [by exists sgm, eos|].
  apply orb_false_iff in He as [-> Hf]. rewrite used_false in H.
  destruct (Z.gtb_spec (header_size + (header_size + zlen p)) (size sgm - zlen (frames ps))).
  - replace (_ <? _) with true by lia. destruct H as (sgm' & ? & ? & ?). by exists sgm', true.
  - replace (_ <? _) with false by lia. destruct (_ <=? _); [|done].
    destruct H as (sgm' & ? & ? & ?). exists sgm', false. cbn [q_items q_closed].
    by rewrite forged_snoc.
Qed.

Lemma run_bounded_simulates ops sgm ps eos :
  seg_inv sgm ps eos → Forall op_sized ops →
  match run_bounded (limits_of sgm) ops (Queue ps (eos || forged_eos ps)) with
  | Some (rs, q) => ∃ sgm' eos', run_segment ops sgm = Ok (rs, sgm') ∧
      seg_inv sgm' (q_items q) eos' ∧ q_closed q = (eos' || forged_eos (q_items q))%bool
  | None => run_segment ops sgm = UB
  end.
Proof.
  revert sgm ps eos. induction ops as [|o ops IH]; intros sgm ps eos I Hops;
    cbn [run_bounded run_segment]; [by exists sgm, eos|].
  inversion_clear Hops as [|? ? Ho Hops']. destruct o as [p|i].
  - pose proof (bounded_write_simulates sgm ps eos p I Ho) as H.
    destruct (bounded_write _ _ p) as [[rc [ps' c']]|]; [|by run H].
    cbn [q_items q_closed] in H. destruct H as (sgm1 & eos' & Hw & I1 & -> & Hs).
    run Hw. specialize (IH sgm1 ps' eos' I1 Hops'). rewrite (write_limits _ _ _ _ Hs Hw) in IH.
    destruct (run_bounded _ ops _) as [[rs q]|]; [|by run IH].
    destruct IH as (sgm' & eos2 & Hr & I'). run Hr. by exists sgm', eos2.
  - run (read_payload_bounded _ _ _ I i (eos || forged_eos ps)%bool).
    destruct (bounded_read _ _ i) as [rc payload]. specialize (IH sgm ps eos I Hops').
    destruct (run_bounded _ ops _) as [[rs q]|]; [|by run IH].
    destruct IH as (sgm' & eos2 & Hr & I'). run Hr. by exists sgm', eos2.
Qed.

(** A write that returned a size appended its payload. *)
Lemma write_success sgm ps eos p rc sgm' :
  seg_inv sgm ps eos → zlen p < 2 ^ 63 → segment_write sgm p = Ok (rc, sgm') → 0 ≤ rc →
  rc = zlen p ∧ seg_inv sgm' (ps ++ [p]) false ∧ same_segment sgm sgm' ∧
  header_size + (header_size + zlen p) ≤ size sgm - used ps false ∧ eos = false.
Proof.
  intros I Hp Hw Hrc. pose proof (segment_write_inv _ _ _ p I Hp) as H.
  destruct (eos || forged_eos ps)%bool eqn:He; [rewrite Hw in H; by simplify_eq|].
  destruct (_ >? _) eqn:Hfull.
  { destruct H as (s & H & _). rewrite Hw in H. by simplify_eq. }
  destruct (_ <=? _); [|by rewrite Hw in H].
  destruct H as (s & H & ? & ?). rewrite Hw in H. simplify_eq.
  apply orb_false_iff in He as [-> _]. split_and!; [done..| |done]. lia.
Qed.

(** A write that reported the end of the segment did so for good. *)
Lemma write_eos_state sgm ps eos p sgm' :
  seg_inv sgm ps eos → zlen p < 2 ^ 63 → segment_write sgm p = Ok (ELEOS, sgm') →
  ∃ eos', seg_inv sgm' ps eos' ∧ (eos' || forged_eos ps)%bool = true ∧
    same_segment sgm sgm'.
Proof.
  intros I Hp Hw. pose proof (segment_write_inv _ _ _ p I Hp) as H.
  destruct (eos || forged_eos ps)%bool eqn:He.
  { rewrite Hw in H. simplify_eq. by exists eos. }
  destruct (_ >? _).
  { destruct H as (s & H & ? & ?). rewrite Hw in H. simplify_eq. by exists true. }
  destruct (_ <=? _); [|by rewrite Hw in H].
  destruct H as (s & H & ? & ?). rewrite Hw in H. simplify_eq. unfold ELEOS in *. lia.
Qed.

Lemma write_refused sgm ps eos p :
  seg_inv sgm ps eos → (eos || forged_eos ps)%bool = true →
  segment_write sgm p = Ok (ELEOS, sgm).
Proof. intros I He. unfold segment_write. run (marked_eos_inv _ _ _ I). by rewrite He. Qed.

(** [n] successful writes of the same payload. *)
Fixpoint write_times (n : nat) (p : bytes) (sgm : segment) : result segment :=
  match n with
  | O => Ok sgm
  | S n =>
    '(rc, sgm) ← segment_write sgm p;
    if rc =? zlen p then write_times n p sgm else UB
  end.

Lemma zlen_frames_repeat n p :
  zlen (frames (repeat p n)) = Z.of_nat n * (header_size + zlen p).
Proof.
  induction n as [|n IH]; [done|].
  change (frames (repeat p (S n))) with (frame_bytes p ++ frames (repeat p n)).
  rewrite length_app, Nat2Z.inj_add, zlen_frame_bytes, IH. lia.
Qed.

Lemma repeat_snoc {A} (x : A) n : repeat x n ++ [x] = repeat x (S n).
Proof. induction n as [|n IH]; [done|]. simpl. f_equal. apply IH. Qed.

Lemma forged_repeat n p : forges p = false → forged_eos (repeat p n) = false.
Proof.
  intros Hf. destruct n as [|n]; [done|]. by rewrite <- repeat_snoc, forged_snoc.
Qed.

Lemma write_times_ok n i p sgm :
  seg_inv sgm (repeat p i) false → forges p = false → zlen p < 2 ^ 63 →
  Z.of_nat (i + n) * (header_size + zlen p) + header_size ≤ size sgm →
  index_entry_size * Z.of_nat (i + n) ≤ zlen (r_mem (index sgm)) →
  ∃ sgm', write_times n p sgm = Ok sgm' ∧ seg_inv sgm' (repeat p (i + n)) false ∧
    same_segment sgm sgm'.
Proof.
  revert i sgm. induction n as [|n IH]; intros i sgm I Hf Hp Hroom Hidx.
  { exists sgm. by rewrite Nat.add_0_r. }
  pose proof (segment_write_inv _ _ _ p I Hp) as H.
  rewrite forged_repeat, used_false, zlen_frames_repeat in H by done. cbn [orb] in H.
  rewrite repeat_length in H.
  replace (_ >? _) with false in H by (autounfold with sizes in *; nia).
  replace (_ <=? _) with true in H by size_lia.
  destruct H as (s & Hw & I1 & Hs). rewrite repeat_snoc in I1.
  pose proof Hs as [_ _ _ _ Hsz _ _ _ Hl].
  destruct (IH (S i) s) as (sgm' & Hr & I' & Hs'); [done|done|done| | |].
  { rewrite Hsz. by replace (S i + n)%nat with (i + S n)%nat by lia. }
  { rewrite Hl. by replace (S i + n)%nat with (i + S n)%nat by lia. }
  exists sgm'. cbn [write_times]. run Hw. rewrite Z.eqb_refl, Hr.
  replace (i + S n)%nat with (S i + n)%nat by lia. split_and!; [done|done|].
  by etransitivity.
Qed.

(** ** Properties *)

(** [C3]: On any segment that satisfies the invariant, in both read modes and
    with an index mapping of any length, every sequence of [segment_write] and
    [segment_read] calls with payloads below 2^63 bytes returns the codes and
    payloads of a queue bounded by the data region and by the slots of the
    mapped index, and leaves a segment that holds what the queue holds. In the
    queue a payload that imitates an end mark closes it, as a write without
    room does; in committed mode reads return the payloads below the synced
    offset; and when a payload fits the data but the mapped index has no slot
    for it, which happens to small payloads in a segment of several pages, the
    queue has no answer and the behaviour of the sequence is undefined. *)
Theorem segment_refines_queue sgm ps eos ops :
  seg_inv sgm ps eos → Forall op_sized ops →
  match run_bounded (limits_of sgm) ops (Queue ps (eos || forged_eos ps)) with
  | Some (replies, q) => ∃ sgm' eos', run_segment ops sgm = Ok (replies, sgm') ∧
      seg_inv sgm' (q_items q) eos' ∧ q_closed q = (eos' || forged_eos (q_items q))%bool
  | None => run_segment ops sgm = UB
  end.
Proof. apply run_bounded_simulates. Qed.

(** [C21]: every branch of [segment_write]: a closed segment refuses with ELEOS
    and is unchanged; a payload that would not leave room for a final header
    gets ELEOS and closes the segment; otherwise the payload is appended and
    its size returned, provided the index has a slot; without one the index
    store leaves the mapping. *)
Theorem segment_write_branches sgm ps eos p :
  seg_inv sgm ps eos → zlen p < 2 ^ 63 →
  if eos || forged_eos ps then segment_write sgm p = Ok (ELEOS, sgm)
  else if header_size + (header_size + zlen p) >? size sgm - used ps false then
    ∃ sgm', segment_write sgm p = Ok (ELEOS, sgm') ∧
      seg_inv sgm' ps true ∧ same_segment sgm sgm'
  else if index_entry_size * (zlen ps + 1) <=? zlen (r_mem (index sgm)) then
    ∃ sgm', segment_write sgm p = Ok (zlen p, sgm') ∧
      seg_inv sgm' (ps ++ [p]) false ∧ same_segment sgm sgm'
  else segment_write sgm p = UB.
Proof. apply segment_write_inv. Qed.

(** what is written is read back: after a successful write, the
    write offset has advanced by one, reading at the old write offset returns
    the payload, and every earlier offset reads as before. *)
Theorem segment_write_then_read sgm ps eos p rc sgm' :
  seg_inv sgm ps eos → zlen p < 2 ^ 63 → Z.land (flags sgm) SGM_RDCMT ≠ SGM_RDCMT →
  segment_write sgm p = Ok (rc, sgm') → 0 ≤ rc →
  rc = zlen p ∧
  segment_write_offset sgm' = segment_write_offset sgm + 1 ∧
  read_payload sgm' (Z.to_nat (segment_write_offset sgm - base_offset sgm)) =
    Ok (zlen p, Some p) ∧
  ∀ i, (i < length ps)%nat → read_payload sgm' i = read_payload sgm i.
Proof.
  intros I Hp Hd Hw Hrc.
  destruct (write_success _ _ _ _ _ _ I Hp Hw Hrc) as (-> & I' & Hs & Hroom & ->).
  pose proof Hs as [_ Hfl _ _ _ Hb _ _ _]. pose proof (inv_base _ _ _ I).
  pose proof (frames_length ps). pose proof (inv_size _ _ _ I). rewrite used_false in Hroom.
  assert (Hd' : Z.land (flags sgm') SGM_RDCMT ≠ SGM_RDCMT) by (by rewrite Hfl).
  unfold segment_write_offset. rewrite (inv_w _ _ _ I'), (inv_w _ _ _ I), Hb. cbn [op_index].
  rewrite zlen_snoc, !u64_small by size_lia.
  split_and!; [done|lia| |].
  - replace (Z.to_nat _) with (length ps) by lia.
    rewrite (read_payload_inv _ _ _ I') by done. unfold queue_read; cbn [q_items].
    by rewrite list_lookup_middle.
  - intros i Hi. rewrite (read_payload_inv _ _ _ I'), (read_payload_inv _ _ _ I) by done.
    unfold queue_read; cbn [q_items]. by rewrite lookup_app_l.
Qed.

(** a read never leaves the mapped regions: it either reports ELNORD and
    leaves the frame alone, or returns pointers to a header and a payload
    that lie inside the data region, the payload is the one written at that
    offset, and the checksum in the header is the checksum of the payload. *)
Theorem segment_read_safe sgm ps eos rel fr :
  seg_inv sgm ps eos → 0 ≤ rel →
  segment_read sgm rel fr = Ok (ELNORD, fr) ∨
  ∃ p fr', segment_read sgm rel fr = Ok (zlen p, fr') ∧
    ps !! Z.to_nat rel = Some p ∧
    r_base (buffer sgm) ≤ fr_hdr fr' ∧
    fr_buffer fr' = fr_hdr fr' + header_size ∧
    fr_buffer fr' + zlen p ≤ r_base (buffer sgm) + size sgm ∧
    frame_payload (buffer sgm) fr' = Ok p ∧
    get_crc32 (fr_hdr fr' - r_base (buffer sgm)) (r_mem (buffer sgm)) =
      Ok (crc32 CRC32_INIT p).
Proof.
  intros I Hrel. destruct (ps !! Z.to_nat rel) as [p|] eqn:Hp.
  2:{ left. apply (segment_read_past _ _ _ I). apply lookup_ge_None in Hp. lia. }
  pose proof (segment_read_frame _ _ _ I _ _ fr Hp) as Hr. rewrite Z2Nat.id in Hr by done.
  destruct (_ >=? _); [by left|]. right.
  exists p, (frame_at sgm (frame_offset ps (Z.to_nat rel))).
  pose proof (frame_offset_bound _ _ _ Hp). pose proof (seg_frames_bound _ _ _ I).
  destruct (header_at_frame _ _ _ I _ _ Hp) as (_ & _ & _ & Hcrc).
  destruct (frame_payload_at _ _ _ I _ _ Hp) as [Hpay _].
  split_and!; try done; cbn; try size_lia.
  by replace (_ + _ - _) with (frame_offset ps (Z.to_nat rel)) by lia.
Qed.

(** the end of a segment is final: once a write has returned ELEOS, every
    later write returns ELEOS and changes nothing, and what was readable
    before is still there. *)
Theorem segment_eos_is_final sgm ps eos p sgm' :
  seg_inv sgm ps eos → zlen p < 2 ^ 63 → segment_write sgm p = Ok (ELEOS, sgm') →
  (∀ q, segment_write sgm' q = Ok (ELEOS, sgm')) ∧
  segment_write_offset sgm' = segment_write_offset sgm ∧
  (Z.land (flags sgm) SGM_RDCMT ≠ SGM_RDCMT →
   ∀ i, read_payload sgm' i = read_payload sgm i).
Proof.
  intros I Hp Hw. destruct (write_eos_state _ _ _ _ _ I Hp Hw) as (eos' & I' & He & Hs).
  split_and!.
  - intros q. by eapply write_refused.
  - unfold segment_write_offset. rewrite (inv_w _ _ _ I'), (inv_w _ _ _ I).
    by rewrite (same_base _ _ Hs).
  - intros Hd i. rewrite (read_payload_inv _ _ _ I' i), (read_payload_inv _ _ _ I i); [done|done|].
    by rewrite (same_flags _ _ Hs).
Qed.

(** [C38]: An end-of-segment mark can be forged by data: after any successful
    write of a payload below 2^63 bytes whose twelfth- and eleventh-last bytes
    are [0xaa 0xaa], to any segment that satisfies the invariant, every
    further write is refused with [ELEOS], however much room the segment has.
    *)
Theorem payload_closes_segment sgm ps eos body tail rc sgm' q :
  length tail = 10%nat → zlen (body ++ [Byte.xaa; Byte.xaa] ++ tail) < 2 ^ 63 →
  seg_inv sgm ps eos →
  segment_write sgm (body ++ [Byte.xaa; Byte.xaa] ++ tail) = Ok (rc, sgm') → 0 ≤ rc →
  segment_write sgm' q = Ok (ELEOS, sgm').
Proof.
  intros Ht Hp I Hw Hrc.
  destruct (write_success _ _ _ _ _ _ I Hp Hw Hrc) as (_ & I' & _).
  eapply write_refused; [done|]. rewrite forged_snoc. cbn [orb]. unfold forges, frame_bytes.
  set (h := header_bytes _).
  replace (length (body ++ _)) with (length (h ++ body))
    by (unfold h; rewrite !length_app, Ht, length_header_bytes; simpl; lia).
  by rewrite (app_assoc h), drop_app_length.
Qed.

(** Bytes [mmap] gives for a file of [n] bytes with 4096-byte pages. *)
Definition mapped_len (n : Z) : Z := (n + 4095) / 4096 * 4096.

(** [C34]: the index that [calculate_index_size] provides is too small: for
    every segment size of at least two 4096-byte pages, there is a number of
    one-byte payloads that a fresh segment accepts and after which the next
    write, although it fits the data, stores its index entry outside the
    mapping. *)
Theorem index_too_small n b :
  n mod 4096 = 0 → 8192 ≤ n < 2 ^ 32 →
  let sgm := fresh_segment n (mapped_len (calculate_index_size n)) 0 in
  ∃ count sgm', write_times count [b] sgm = Ok sgm' ∧
    Z.of_nat (S count) * (header_size + 1) + header_size ≤ n ∧
    segment_write sgm' [b] = UB.
Proof.
  intros Hmod Hn sgm. set (m := mapped_len (calculate_index_size n)) in *.
  assert (Hm : m mod 8 = 0 ∧ 0 ≤ m ∧ 12 * m ≤ n + 1 + 12 * 4095).
  { unfold m, mapped_len, calculate_index_size. rewrite u64_small by lia.
    autounfold with sizes. 
    split_and!; Z.to_euclidean_division_equations; lia. }
  assert (Hcount : 13 * (m / 8 + 1) + 12 ≤ n).
  { destruct (decide (n = 8192)) as [->|]; [vm_compute; congruence|].
    Z.to_euclidean_division_equations; lia. }
  assert (Hm8 : 8 * (m / 8) = m ∧ 0 ≤ m / 8) by (Z.to_euclidean_division_equations; lia).
  assert (Hf : forges [b] = false) by (destruct b; vm_compute; reflexivity).
  assert (Hl : zlen (r_mem (index sgm)) = m) by (unfold sgm; cbn; len).
  destruct (write_times_ok (Z.to_nat (m / 8)) 0 [b] sgm) as (sgm' & Hw & I & Hs).
  { apply fresh_inv; size_lia. }
  { done. }
  { simpl; lia. }
  { cbn [length size sgm fresh_segment]. size_lia. }
  { rewrite Hl. size_lia. }
  exists (Z.to_nat (m / 8)), sgm'. split; [done|]. split; [size_lia|].
  pose proof (segment_write_inv _ _ _ [b] I ltac:(simpl; lia)) as H.
  rewrite forged_repeat, used_false, zlen_frames_repeat in H by done. cbn [orb] in H.
  rewrite repeat_length, (same_size _ _ Hs), (same_index_len _ _ Hs), Hl in H.
  cbn [length] in H. change (size sgm) with n in H.
  replace (_ >? _) with false in H by size_lia.
  by replace (_ <=? _) with false in H by size_lia.
Qed.

(** [C37]: Scanning the index of any segment that satisfies the invariant, but
    one with nothing except its end mark, gives back the index and data offset
    after its last frame when the scanned length of the index has an entry
    left after the frames, and fails with [ELWOFFS] when it does not. The
    scanned length is at least one entry and at most what is mapped. *)
Theorem find_w_offset_pair_recovers sgm ps eos index_size :
  seg_inv sgm ps eos → ps ≠ [] ∨ eos = false →
  index_entry_size ≤ index_size ≤ zlen (r_mem (index sgm)) →
  find_w_offset_pair (r_mem (buffer sgm)) (r_mem (index sgm)) index_size =
    if index_size / index_entry_size <=? zlen ps then Ok (ELWOFFS, None)
    else Ok (0, Some (OffsetPair (zlen ps) (zlen (frames ps)))).
Proof.
  intros I Hne Hsz.
  assert (1 ≤ index_size / index_entry_size) by (apply Z.div_le_lower_bound; size_lia).
  assert (index_entry_size * (index_size / index_entry_size) ≤ index_size)
    by (apply Z.mul_div_le; size_lia).
  rewrite (find_w_inv _ _ _ I (Z.to_nat (index_size / index_entry_size))); [|size_lia..|].
  - unfold recovered. destruct (Nat.leb_spec (Z.to_nat (index_size / index_entry_size)) (length ps)).
    + by replace (_ <=? _) with true by lia.
    + by replace (_ <=? _) with false by lia.
  - by intros ->; destruct Hne.
Qed.

(** a segment that refused its very first payload is recovered wrongly: its
    mark is taken for a frame, and the recovered segment, with write offset
    [(1, 12)], refuses every write. *)
Theorem eos_only_recovers_stuck sgm index_size sgm' q :
  seg_inv sgm [] true →
  2 * index_entry_size ≤ index_size ≤ zlen (r_mem (index sgm)) →
  sgm' = set_w_offset_pair (OffsetPair 1 header_size) sgm →
  find_w_offset_pair (r_mem (buffer sgm)) (r_mem (index sgm)) index_size =
    Ok (0, Some (w_offset_pair sgm')) ∧
  segment_write sgm' q = Ok (ELEOS, sgm').
Proof.
  intros I Hsz ->.
  assert (2 ≤ index_size / index_entry_size) by (apply Z.div_le_lower_bound; size_lia).
  assert (index_entry_size * (index_size / index_entry_size) ≤ index_size)
    by (apply Z.mul_div_le; size_lia).
  split.
  - cbn [w_offset_pair set_w_offset_pair].
    apply (find_w_eos_only _ _ _ I (Z.to_nat (index_size / index_entry_size))); [|..|done|done].
    + rewrite Z2Nat.id; lia.
    + rewrite Z2Nat.id; lia.
    + lia.
  - unfold segment_write, marked_eos. cbn [w_offset_pair set_w_offset_pair op_data buffer].
    rewrite Z.ltb_irrefl, Z.sub_diag. destruct (inv_eos _ _ _ I eq_refl) as [Hf _].
    change (zlen (frames [])) with 0 in Hf. by run Hf.
Qed.

(** Where the kernel put the two mappings, and how far they are synced. *)
Record sync_ready (k : Z) (sgm : segment) (ps : list bytes) (eos : bool) : Prop := {
  sr_buffer : 0 ≤ r_base (buffer sgm) ∧ r_base (buffer sgm) mod 2 ^ k = 0 ∧
              r_base (buffer sgm) + size sgm < 2 ^ 64;
  sr_index : 0 ≤ r_base (index sgm) ∧ r_base (index sgm) mod 2 ^ k = 0 ∧
             r_base (index sgm) + zlen (r_mem (index sgm)) < 2 ^ 64;
  sr_data : 0 ≤ op_data (s_offset_pair sgm) ≤ used ps eos;
  sr_entries : 0 ≤ op_index (s_offset_pair sgm) ≤ zlen ps;
}.

(** [segment_sync] asks the kernel to write exactly what is missing: from
    the page of the first unsynced byte to the write offset, for the data and
    then for the index, and records the new synced offset only after the
    kernel said yes; any refusal is ELDTSYN. The segment is below 2 GiB. *)
Theorem segment_sync_branches {W} `{!Posix W} k sgm ps eos (w : W) :
  0 ≤ k ≤ 31 → os_pagesize = 2 ^ k → seg_inv sgm ps eos → sync_ready k sgm ps eos →
  used ps eos < 2 ^ 31 →
  let s := s_offset_pair sgm in
  let d := op_data s - op_data s mod 2 ^ k in
  let i := index_entry_size * op_index s - (index_entry_size * op_index s) mod 2 ^ k in
  let '(rc, w1) := os_msync (buffer sgm) (r_base (buffer sgm) + d) (used ps eos - d) w in
  if negb (rc =? 0) then segment_sync sgm w = (ELDTSYN, sgm, w1)
  else
    let sgm1 := set_s_offset_pair (OffsetPair (op_index s) (used ps eos)) sgm in
    if used ps eos =? d then segment_sync sgm w = (0, sgm1, w1)
    else
      let '(rc, w2) := os_msync (index sgm) (r_base (index sgm) + i)
                         (index_entry_size * zlen ps - i) w1 in
      if negb (rc =? 0) then segment_sync sgm w = (ELDTSYN, sgm1, w2)
      else segment_sync sgm w =
        (zlen ps - op_index s, set_s_offset_pair (w_offset_pair sgm) sgm, w2).
Proof.
  intros Hk Hpage I [[? [? ?]] [? [? ?]] Hsd Hsi] Hu s d i.
  pose proof (inv_used _ _ _ I) as Hused. pose proof (inv_index_room _ _ _ I) as Hroom.
  pose proof (frames_length ps) as Hfl. pose proof (inv_size _ _ _ I) as Hsize.
  assert (Hui : zlen ps < 2 ^ 31) by (unfold used in *; destruct eos; size_lia).
  assert (E : sync_data sgm w = let '(rc, w1) := os_msync (buffer sgm)
      (r_base (buffer sgm) + d) (used ps eos - d) w in
    if rc =? 0
    then (used ps eos - d, set_s_offset_pair (OffsetPair (op_index s) (used ps eos)) sgm, w1)
    else (ELDTSYN, sgm, w1)).
  { rewrite (sync_data_eq k Hk Hpage); rewrite ?(inv_w _ _ _ I); cbn [op_data]; done || lia. }
  unfold segment_sync. rewrite E.
  destruct (os_msync (buffer sgm) _ _ w) as [rc w1]. destruct (rc =? 0); cbn [negb]; [|done].
  assert (0 < 2 ^ k) by (apply Z.pow_pos_nonneg; lia).
  pose proof (Z.mod_pos_bound (op_data s) (2 ^ k) ltac:(lia)).
  destruct (Z.eqb_spec (used ps eos) d) as [->|Hne].
  { by rewrite Z.sub_diag. }
  fold s in Hsd, Hsi. replace (_ <=? 0) with false by lia.
  set (sgm1 := set_s_offset_pair _ sgm).
  assert (E2 : sync_index sgm1 w1 = let '(rc, w2) := os_msync (index sgm)
      (r_base (index sgm) + i) (index_entry_size * zlen ps - i) w1 in
    if rc =? 0
    then (zlen ps - op_index s, set_s_offset_pair (w_offset_pair sgm) sgm, w2)
    else (ELDTSYN, sgm1, w2)).
  { rewrite (sync_index_eq k Hk Hpage); cbn [sgm1 set_s_offset_pair index s_offset_pair
      w_offset_pair op_index op_data]; rewrite ?(inv_w _ _ _ I); cbn [op_index]; done || lia. }
  rewrite E2. by destruct (os_msync (index sgm) _ _ w1) as [rc' w2]; destruct (rc' =? 0).
Qed.

(** a reader opened in committed mode sees exactly the frames that were
    synced: with the first [j] frames synced, an offset below [j] reads its
    payload and every other offset reports ELNORD. *)
Theorem committed_reads_are_gated sgm ps eos j i :
  seg_inv sgm ps eos → Z.land (flags sgm) SGM_RDCMT = SGM_RDCMT →
  (j ≤ length ps)%nat → op_data (s_offset_pair sgm) = zlen (frames (take j ps)) →
  read_payload sgm i =
    Ok (if (i <? j)%nat then queue_read (Queue ps eos) i else (ELNORD, None)).
Proof.
  intros I Hc Hj Hs. unfold read_payload, queue_read. cbn [q_items].
  destruct (ps !! i) as [p|] eqn:Hp.
  - run (segment_read_frame _ _ _ I _ _ (Frame 0 0) Hp).
    unfold read_boundary. rewrite Hc, Z.eqb_refl, Hs.
    assert ((frame_offset ps i <? zlen (frames (take j ps))) = (i <? j)%nat) as Hb.
    { unfold frame_offset. destruct (Nat.ltb_spec i j) as [Hij|Hij].
      - rewrite <- (take_drop i (take j ps)), take_take, frames_app.
        replace (i `min` j)%nat with i by lia. rewrite (drop_S _ p) by (by rewrite lookup_take_lt).
        change (frames (p :: ?l)) with (frame_bytes p ++ frames l).
        rewrite !length_app, !Nat2Z.inj_add, zlen_frame_bytes. size_lia.
      - rewrite <- (take_drop j (take i ps)), take_take, frames_app.
        replace (j `min` i)%nat with j by lia. rewrite length_app. lia. }
    destruct (Z.geb_spec (frame_offset ps i) (zlen (frames (take j ps)))).
    + replace (i <? j)%nat with false by lia. done.
    + replace (i <? j)%nat with true by lia. rewrite bind_Ok.
      replace (zlen p <? 0) with false by lia.
      by run (proj1 (frame_payload_at _ _ _ I _ _ Hp)).
  - apply lookup_ge_None in Hp. run (segment_read_past _ _ _ I) by lia.
    by replace (i <? j)%nat with false by lia.
Qed.

(** ** Witnesses

    A 256-byte segment, empty ([demo]), after one write ([demo1]), and closed
    by an oversized first write ([demo_eos]). *)

Definition demo : segment := fresh_segment 256 256 0.
Definition abc : bytes := [Byte.x61; Byte.x62; Byte.x63].
Definition seg_of (r : result (Z * segment)) : segment :=
  match r with Ok (_, s) => s | _ => demo end.
Definition demo1 : segment := seg_of (segment_write demo abc).
Definition demo_eos : segment := seg_of (segment_write demo (zeros 300)).

Lemma demo_inv : seg_inv demo [] false.
Proof. apply fresh_inv; size_lia. Qed.

Lemma demo1_inv : seg_inv demo1 [abc] false.
Proof.
  pose proof (segment_write_inv demo [] false abc demo_inv ltac:(vm_compute; done)) as H.
  vm_compute in H. destruct H as (s & H & I & _). unfold demo1. vm_compute in H |- *.
  injection H as H. by rewrite H.
Qed.

Lemma demo_eos_inv : seg_inv demo_eos [] true.
Proof.
  destruct (segment_write_inv demo [] false (zeros 300) demo_inv ltac:(vm_compute; done))
    as (s & H & I & _).
  unfold demo_eos. by rewrite H.
Qed.

Definition demo_ops : list op := [Write abc; Read 0; Read 1; Write (zeros 300); Write abc].

Lemma segment_refines_queue_witness :
  ∃ sgm' eos',
    run_segment demo_ops demo =
      Ok ([Wrote 3; Got 3 (Some abc); Got ELNORD None; Wrote ELEOS; Wrote ELEOS], sgm') ∧
    seg_inv sgm' [abc] eos' ∧ true = (eos' || forged_eos [abc])%bool.
Proof.
  apply (segment_refines_queue demo [] false demo_ops).
  - apply demo_inv.
  - unfold demo_ops. repeat constructor; vm_compute; done.
Defined.

Lemma segment_write_branches_witness :
  ∃ sgm', segment_write demo abc = Ok (3, sgm') ∧ seg_inv sgm' [abc] false ∧
    same_segment demo sgm'.
Proof. apply (segment_write_branches demo [] false abc); [apply demo_inv | vm_compute; done]. Defined.

Lemma segment_write_then_read_witness :
  3 = zlen abc ∧ segment_write_offset demo1 = segment_write_offset demo + 1 ∧
  read_payload demo1 (Z.to_nat (segment_write_offset demo - base_offset demo)) =
    Ok (zlen abc, Some abc) ∧
  ∀ i, (i < length (@nil bytes))%nat → read_payload demo1 i = read_payload demo i.
Proof.
  apply (segment_write_then_read demo [] false abc 3 demo1).
  - apply demo_inv.
  - vm_compute. done.
  - vm_compute. congruence.
  - vm_compute. reflexivity.
  - lia.
Defined.

Lemma segment_read_safe_witness :
  segment_read demo1 0 (Frame 0 0) = Ok (ELNORD, Frame 0 0) ∨
  ∃ p fr', segment_read demo1 0 (Frame 0 0) = Ok (zlen p, fr') ∧
    [abc] !! Z.to_nat 0 = Some p ∧
    r_base (buffer demo1) ≤ fr_hdr fr' ∧
    fr_buffer fr' = fr_hdr fr' + header_size ∧
    fr_buffer fr' + zlen p ≤ r_base (buffer demo1) + size demo1 ∧
    frame_payload (buffer demo1) fr' = Ok p ∧
    get_crc32 (fr_hdr fr' - r_base (buffer demo1)) (r_mem (buffer demo1)) =
      Ok (crc32 CRC32_INIT p).
Proof. apply (segment_read_safe demo1 [abc] false 0 (Frame 0 0)); [apply demo1_inv | lia]. Defined.

Lemma segment_eos_is_final_witness :
  (∀ q, segment_write demo_eos q = Ok (ELEOS, demo_eos)) ∧
  segment_write_offset demo_eos = segment_write_offset demo ∧
  (Z.land (flags demo) SGM_RDCMT ≠ SGM_RDCMT →
   ∀ i, read_payload demo_eos i = read_payload demo i).
Proof.
  apply (segment_eos_is_final demo [] false (zeros 300) demo_eos).
  - apply demo_inv.
  - vm_compute. done.
  - vm_compute. reflexivity.
Defined.

Definition forging : bytes := [Byte.x01] ++ [Byte.xaa; Byte.xaa] ++ zeros 10.

Lemma payload_closes_segment_witness :
  segment_write (seg_of (segment_write demo forging)) abc =
    Ok (ELEOS, seg_of (segment_write demo forging)).
Proof.
  apply (payload_closes_segment demo [] false [Byte.x01] (zeros 10) 13 _ abc).
  - reflexivity.
  - vm_compute. done.
  - apply demo_inv.
  - vm_compute. reflexivity.
  - lia.
Defined.

Lemma index_too_small_witness :
  let sgm := fresh_segment 8192 (mapped_len (calculate_index_size 8192)) 0 in
  ∃ count sgm', write_times count [Byte.x61] sgm = Ok sgm' ∧
    Z.of_nat (S count) * (header_size + 1) + header_size ≤ 8192 ∧
    segment_write sgm' [Byte.x61] = UB.
Proof. apply (index_too_small 8192 Byte.x61); [reflexivity | lia]. Defined.

Lemma find_w_offset_pair_recovers_witness :
  find_w_offset_pair (r_mem (buffer demo1)) (r_mem (index demo1)) 21 =
    if 21 / index_entry_size <=? zlen [abc] then Ok (ELWOFFS, None)
    else Ok (0, Some (OffsetPair (zlen [abc]) (zlen (frames [abc])))).
Proof.
  apply (find_w_offset_pair_recovers demo1 [abc] false 21).
  - apply demo1_inv.
  - by left.
  - vm_compute. split; congruence.
Defined.

Lemma eos_only_recovers_stuck_witness :
  find_w_offset_pair (r_mem (buffer demo_eos)) (r_mem (index demo_eos)) 21 =
    Ok (0, Some (w_offset_pair (set_w_offset_pair (OffsetPair 1 header_size) demo_eos))) ∧
  segment_write (set_w_offset_pair (OffsetPair 1 header_size) demo_eos) abc =
    Ok (ELEOS, set_w_offset_pair (OffsetPair 1 header_size) demo_eos).
Proof.
  apply (eos_only_recovers_stuck demo_eos 21 _ abc).
  - apply demo_eos_inv.
  - vm_compute. split; congruence.
  - reflexivity.
Defined.

(** The files behind the mappings of [demo1]. *)
Definition demo_os : mem_os :=
  MemOs (<["d"%string := zeros 256]> {["i"%string := zeros 21]}) ∅ ∅
    (<[0x10000 := "d"%string]> {[0x80000 := "i"%string]}) ∅ ∅.

Lemma segment_sync_branches_witness :
  let s := s_offset_pair demo1 in
  let d := op_data s - op_data s mod 2 ^ 12 in
  let i := index_entry_size * op_index s - (index_entry_size * op_index s) mod 2 ^ 12 in
  let '(rc, w1) := os_msync (buffer demo1) (r_base (buffer demo1) + d)
                     (used [abc] false - d) demo_os in
  if negb (rc =? 0) then segment_sync demo1 demo_os = (ELDTSYN, demo1, w1)
  else
    let sgm1 := set_s_offset_pair (OffsetPair (op_index s) (used [abc] false)) demo1 in
    if used [abc] false =? d then segment_sync demo1 demo_os = (0, sgm1, w1)
    else
      let '(rc, w2) := os_msync (index demo1) (r_base (index demo1) + i)
                         (index_entry_size * zlen [abc] - i) w1 in
      if negb (rc =? 0) then segment_sync demo1 demo_os = (ELDTSYN, sgm1, w2)
      else segment_sync demo1 demo_os =
        (zlen [abc] - op_index s, set_s_offset_pair (w_offset_pair demo1) demo1, w2).
Proof.
  apply (segment_sync_branches 12 demo1 [abc] false demo_os).
  - lia.
  - reflexivity.
  - apply demo1_inv.
  - split; vm_compute; repeat split; congruence.
  - vm_compute. reflexivity.
Defined.

Definition demo_committed : segment :=
  seg_of (segment_write (fresh_segment 256 256 1) abc).

Lemma demo_committed_inv : seg_inv demo_committed [abc] false.
Proof.
  pose proof (segment_write_inv (fresh_segment 256 256 1) [] false abc
    ltac:(apply fresh_inv; size_lia) ltac:(vm_compute; done)) as H.
  vm_compute in H. destruct H as (s & H & I & _). unfold demo_committed.
  vm_compute in H |- *. injection H as H. by rewrite H.
Qed.

Lemma committed_reads_are_gated_witness :
  read_payload demo_committed 0 =
    Ok (if (0 <? 0)%nat then queue_read (Queue [abc] false) 0 else (ELNORD, None)).
Proof.
  apply (committed_reads_are_gated demo_committed [abc] false 0 0).
  - apply demo_committed_inv.
  - reflexivity.
  - simpl. lia.
  - reflexivity.
Defined.
