(* ===== verification/SegmentTypes.v ===== *)
(** * Segments: every value stays in its C type

    The model computes with integers; this file shows that the operations of
    segment.c, on any segment, whatever its files hold, keep each field in the
    range of its declared type and return values of theirs. *)

From S2P Require Import Prelude Errno Crc32 Prot Util Posix MemOs Segment SegmentInv SegmentOps SegmentSpec.

Definition is_u32 (z : Z) : Prop := 0 ≤ z < 2 ^ 32.
Definition is_u64 (z : Z) : Prop := 0 ≤ z < 2 ^ 64.
Definition is_int (z : Z) : Prop := -2 ^ 31 ≤ z < 2 ^ 31.
Definition is_ssize (z : Z) : Prop := -2 ^ 63 ≤ z < 2 ^ 63.

Definition pair_typed (p : offset_pair) : Prop := is_u32 (op_index p) ∧ is_u32 (op_data p).

(** A mapping lies in the address space. *)
Definition region_typed (r : region) : Prop := 0 ≤ r_base r ∧ r_base r + zlen (r_mem r) < 2 ^ 64.

Definition frame_typed (fr : frame) : Prop := is_u64 (fr_hdr fr) ∧ is_u64 (fr_buffer fr).

Record typed (sgm : segment) : Prop := {
  ty_version : is_u32 (version sgm);
  ty_flags : is_u32 (flags sgm);
  ty_index_fd : is_int (index_fd sgm);
  ty_data_fd : is_int (data_fd sgm);
  ty_size : is_u32 (size sgm);
  ty_base_offset : is_u64 (base_offset sgm);
  ty_buffer : region_typed (buffer sgm);
  ty_index : region_typed (index sgm);
  ty_s_offset_pair : pair_typed (s_offset_pair sgm);
  ty_w_offset_pair : pair_typed (w_offset_pair sgm)
}.

Lemma i32_range z : is_int (i32 z).
Proof. unfold is_int, i32. pose proof (Z.mod_pos_bound (z + 2 ^ 31) (2 ^ 32)). lia. Qed.

Lemma i64_range z : is_ssize (i64 z).
Proof. unfold is_ssize, i64. pose proof (Z.mod_pos_bound (z + 2 ^ 63) (2 ^ 64)). lia. Qed.

Lemma int_ssize z : is_int z → is_ssize z.
Proof. unfold is_int, is_ssize. lia. Qed.

Lemma set_w_typed p sgm : pair_typed p → typed sgm → typed (set_w_offset_pair p sgm).
Proof. intros Hp []. by split. Qed.

Lemma set_buffer_typed m sgm :
  length m = length (r_mem (buffer sgm)) → typed sgm → typed (set_buffer m sgm).
Proof. intros Hm []. split; try done. unfold region_typed in *. simpl. by rewrite Hm. Qed.

Lemma set_index_typed m sgm :
  length m = length (r_mem (index sgm)) → typed sgm → typed (set_index m sgm).
Proof. intros Hm []. split; try done. unfold region_typed in *. simpl. by rewrite Hm. Qed.

Lemma claim_typed sgm old new rc sgm' :
  claim sgm old new = (rc, sgm') → typed sgm → pair_typed new →
  typed sgm' ∧ is_ssize rc ∧ r_mem (buffer sgm') = r_mem (buffer sgm) ∧ r_mem (index sgm') = r_mem (index sgm).
Proof.
  unfold claim. intros Hc Ht Hn. destruct (decide _); injection Hc as <- <-.
  - split; [by apply set_w_typed|done].
  - by split.
Qed.

(** The length of the memory after a sequence of stores. *)
Lemma header_init_length off m m' : header_init off m = Ok m' → length m' = length m.
Proof.
  unfold header_init. intros (m1 & H1 & (m2 & H2 & H3)%bind_Ok_inv)%bind_Ok_inv.
  apply store_length in H1, H2, H3. congruence.
Qed.

Lemma mark_eos_typed sgm rc sgm' :
  mark_eos sgm (w_offset_pair sgm) = Ok (rc, sgm') → typed sgm → typed sgm' ∧ is_ssize rc.
Proof.
  unfold mark_eos. intros Hrun Ht. destruct (claim _ _ _) as [rc1 sgm1] eqn:Hc.
  destruct (claim_typed _ _ _ _ _ Hc Ht) as (Ht1 & Hrc & Hb & _).
  { split; [apply Ht|apply u32_range]. }
  destruct (negb (rc1 =? 0)); [by injection Hrun as <- <-|].
  apply bind_Ok_inv in Hrun as (m & H1 & Hrun). apply bind_Ok_inv in Hrun as (m1 & H2 & Hrun).
  apply bind_Ok_inv in Hrun as (m2 & H3 & [= <- <-]). apply header_init_length in H1.
  apply store_length in H2, H3. split; [|done]. apply set_buffer_typed; [congruence|done].
Qed.

Lemma segment_write_typed sgm buf rc sgm' :
  segment_write sgm buf = Ok (rc, sgm') → typed sgm → typed sgm' ∧ is_ssize rc.
Proof.
  unfold segment_write. intros Hrun Ht. apply bind_Ok_inv in Hrun as (eos & _ & Hrun).
  destruct eos; [injection Hrun as <- <-; by split|]. cbv zeta in Hrun.
  destruct (u64 _ >? u64 _); [by eapply mark_eos_typed|].
  destruct (claim _ _ _) as [rc1 sgm1] eqn:Hc.
  destruct (claim_typed _ _ _ _ _ Hc Ht) as (Ht1 & Hrc & Hb & Hi).
  { split; apply u32_range. }
  destruct (negb (rc1 =? 0)); [by injection Hrun as <- <-|].
  apply bind_Ok_inv in Hrun as (m & H1 & Hrun). apply bind_Ok_inv in Hrun as (m1 & H2 & Hrun).
  apply bind_Ok_inv in Hrun as (m2 & H3 & Hrun). apply bind_Ok_inv in Hrun as (m3 & H4 & Hrun).
  apply bind_Ok_inv in Hrun as (m4 & H5 & Hrun). apply bind_Ok_inv in Hrun as (ix & H6 & [= <- <-]).
  apply header_init_length in H2. apply store_length in H1, H3, H4, H5, H6.
  split; [|apply i64_range]. apply set_index_typed; [done|]. apply set_buffer_typed; [congruence|done].
Qed.

Lemma load_le_bounds n off m v : load_le n off m = Ok v → 0 ≤ off ∧ off + Z.of_nat n ≤ zlen m.
Proof.
  unfold load_le. intros (bs & Hl & _)%bind_Ok_inv. unfold load in Hl.
  destruct (in_range off (Z.of_nat n) m) eqn:Hr; [|done]. apply in_range_true in Hr. lia.
Qed.

(** A mapping of a segment is not the last 12 bytes of the address space. *)
Lemma segment_read_typed sgm off fr rc fr' :
  segment_read sgm off fr = Ok (rc, fr') → typed sgm → frame_typed fr →
  r_base (buffer sgm) + zlen (r_mem (buffer sgm)) + header_size ≤ 2 ^ 64 →
  is_ssize rc ∧ frame_typed fr'.
Proof.
  unfold segment_read. cbv zeta. intros Hrun Ht Hfr Hend. destruct (ty_buffer _ Ht) as [Hb _].
  destruct (off >=? _); [by injection Hrun as <- <-|].
  apply bind_Ok_inv in Hrun as (phys & _ & Hrun).
  destruct (negb (off =? 0) && (phys =? 0)); [by injection Hrun as <- <-|].
  destruct (phys >=? _); [by injection Hrun as <- <-|].
  apply bind_Ok_inv in Hrun as (fl & Hfl & Hrun). apply load_le_bounds in Hfl.
  unfold frame_typed, is_u64 in *. destruct (fl =? HEADER_FLAGS_READY).
  - apply bind_Ok_inv in Hrun as (sz & _ & [= <- <-]). split; [apply i64_range|]. simpl. size_lia.
  - destruct (fl =? HEADER_FLAGS_EOS); injection Hrun as <- <-; (split; [done|]); simpl; size_lia.
Qed.

Lemma segment_sync_typed {W} `{!Posix W} sgm (w : W) rc sgm' w' :
  segment_sync sgm w = (rc, sgm', w') → typed sgm → typed sgm' ∧ is_ssize rc.
Proof.
  unfold segment_sync. intros Hrun Ht. destruct (sync_data sgm w) as [[sz sgm1] w1] eqn:Hd.
  assert (H1 : typed sgm1 ∧ is_ssize sz).
  { unfold sync_data in Hd. cbv zeta in Hd. destruct (os_msync _ _ _ _) as [rc1 w2].
    destruct (negb (rc1 =? 0)); injection Hd as <- <- _; [by split|].
    split; [|apply int_ssize, i32_range]. destruct Ht as [? ? ? ? ? ? ? ? [] []]. by split. }
  destruct H1 as [Ht1 Hsz]. destruct (sz <=? 0); [by injection Hrun as <- <- _|].
  unfold sync_index in Hrun. cbv zeta in Hrun. destruct (os_msync _ _ _ _) as [rc1 w2].
  destruct (negb (rc1 =? 0)); injection Hrun as <- <- _; [by split|].
  split; [|apply int_ssize, i32_range]. destruct Ht1 as [? ? ? ? ? ? ? ? [] []]. by split.
Qed.

Lemma find_w_loop_typed n : ∀ i prev buf ix rc p,
  find_w_loop n i prev buf ix = Ok (rc, Some p) → pair_typed p.
Proof.
  induction n as [|n IH]; intros i prev buf ix rc p; cbn [find_w_loop]; [done|].
  intros (phys & _ & Hrun)%bind_Ok_inv. apply bind_Ok_inv in Hrun as (next & _ & Hrun).
  destruct next; [by eapply IH|]. apply bind_Ok_inv in Hrun as (o & _ & [= _ <-]).
  split; apply u32_range.
Qed.

(** On any segment whose fields have values of their types, whatever
    bytes its files hold, [segment_write], [segment_read] and [segment_sync]
    leave fields, frames and results of their types, and so do the write
    offset recovered by [find_w_offset_pair] and the offsets a segment reports. *)
Theorem operations_are_typed {W} `{!Posix W} (sgm : segment) (w : W) :
  typed sgm → r_base (buffer sgm) + zlen (r_mem (buffer sgm)) + header_size ≤ 2 ^ 64 →
  (∀ buf rc sgm', segment_write sgm buf = Ok (rc, sgm') → typed sgm' ∧ is_ssize rc) ∧
  (∀ off fr rc fr', segment_read sgm off fr = Ok (rc, fr') → frame_typed fr → is_ssize rc ∧ frame_typed fr') ∧
  (∀ rc sgm' w', segment_sync sgm w = (rc, sgm', w') → typed sgm' ∧ is_ssize rc) ∧
  (∀ sz rc p, find_w_offset_pair (r_mem (buffer sgm)) (r_mem (index sgm)) sz = Ok (rc, Some p) → pair_typed p) ∧
  is_u64 (segment_write_offset sgm) ∧ is_u64 (segment_read_offset sgm).
Proof.
  intros Ht Hend. split_and!.
  - intros buf rc sgm' Hrun. by eapply segment_write_typed.
  - intros off fr rc fr' Hrun Hfr. by eapply segment_read_typed.
  - intros rc sgm' w' Hrun. by eapply segment_sync_typed.
  - intros sz rc p. apply find_w_loop_typed.
  - apply u64_range.
  - apply u64_range.
Qed.

Lemma demo_typed : typed demo.
Proof. by split; vm_compute. Qed.

Lemma operations_are_typed_witness :
  (∀ buf rc sgm', segment_write demo buf = Ok (rc, sgm') → typed sgm' ∧ is_ssize rc) ∧
  (∀ off fr rc fr', segment_read demo off fr = Ok (rc, fr') → frame_typed fr → is_ssize rc ∧ frame_typed fr') ∧
  (∀ rc sgm' w', segment_sync demo (mo_boot ∅) = (rc, sgm', w') → typed sgm' ∧ is_ssize rc) ∧
  (∀ sz rc p, find_w_offset_pair (r_mem (buffer demo)) (r_mem (index demo)) sz = Ok (rc, Some p) → pair_typed p) ∧
  is_u64 (segment_write_offset demo) ∧ is_u64 (segment_read_offset demo).
Proof.
  apply (operations_are_typed demo (mo_boot ∅)).
  - apply demo_typed.
  - by vm_compute.
Defined.
