(* ===== verification/SegmentBytes.v ===== *)
(** * Which bytes the operations of a segment touch

    A write changes the bytes between the old write offset and the new one
    only; two memories that agree on a range read the same there. *)

From S2P Require Import Prelude Errno Crc32 Prot Util Posix Segment SegmentInv SegmentOps SegmentSpec.

(** ** Stores in a range *)

(** Equal but for the bytes from [lo] to [hi]. *)
Record outside (lo hi : Z) (m m' : bytes) : Prop := {
  out_length : length m' = length m;
  out_same k : Z.of_nat k < lo ∨ hi ≤ Z.of_nat k → m' !! k = m !! k
}.

#[export] Instance outside_preorder lo hi : PreOrder (outside lo hi).
Proof.
  split; [by split|]. intros a b c [L1 S1] [L2 S2]. split; [congruence|].
  intros k Hk. by rewrite S2, S1.
Qed.

Lemma store_outside lo hi off bs m m' :
  store off bs m = Ok m' → lo ≤ off → off + zlen bs ≤ hi → outside lo hi m m'.
Proof.
  unfold store. destruct (in_range off (zlen bs) m) eqn:Hr; [|done]. intros [= <-] Hlo Hhi.
  apply in_range_true in Hr as (H0 & _ & Hlen). split.
  - rewrite !length_app, length_take, length_drop. lia.
  - intros k Hk. destruct (decide (Z.of_nat k < off)) as [Hb|Hb].
    + rewrite lookup_app_l by (rewrite length_take; lia). apply lookup_take_lt. lia.
    + rewrite lookup_app_r, length_take by (rewrite length_take; lia).
      rewrite lookup_app_r by lia. rewrite lookup_drop. f_equal. lia.
Qed.

Lemma store_le_outside lo hi n off v m m' :
  store_le n off v m = Ok m' → lo ≤ off → off + Z.of_nat n ≤ hi → outside lo hi m m'.
Proof. intros H Hlo Hhi. eapply store_outside; [exact H|done|]. by rewrite length_le_split. Qed.

Lemma header_init_outside lo hi off m m' :
  header_init off m = Ok m' → lo ≤ off → off + header_size ≤ hi → outside lo hi m m'.
Proof.
  unfold header_init, set_flags, set_version, set_pad, header_size. intros H Hlo Hhi.
  apply bind_Ok_inv in H as (m1 & H1 & (m2 & H2 & H3)%bind_Ok_inv).
  transitivity m1; [by eapply store_le_outside; [exact H1|lia..]|].
  transitivity m2; [by eapply store_le_outside; [exact H2|lia..]|by eapply store_le_outside; [exact H3|lia..]].
Qed.

(** ** Loads from a range *)

Lemma load_same off n m m' :
  length m' = length m → (∀ k, off ≤ Z.of_nat k < off + n → m' !! k = m !! k) → load off n m' = load off n m.
Proof.
  intros Hl Hs. unfold load. unfold in_range. rewrite Hl. destruct (_ && _)%bool eqn:Hr; [|done].
  f_equal. apply list_eq. intros k. destruct (decide (k < Z.to_nat n)%nat) as [Hk|Hk].
  - rewrite !lookup_take_lt, !lookup_drop by done. apply Hs. lia.
  - rewrite !lookup_take_ge by lia. done.
Qed.

Lemma le_value_cons_sum b bs : le_value (b :: bs) = byte.unsigned b + 256 * le_value bs.
Proof.
  cbn [le_combine]. pose proof (byte.unsigned_range b).
  symmetry. rewrite Z.mul_comm. change 256 with (2 ^ 8). rewrite <- Z.shiftl_mul_pow2 by lia. apply Z.add_nocarry_lor.
  apply Z.bits_inj. intros n. rewrite Z.land_spec, Z.bits_0. destruct (Z.ltb_spec n 8) as [Hn|Hn].
  - destruct (Z.ltb_spec n 0); [by rewrite Z.testbit_neg_r|]. by rewrite Z.shiftl_spec_low, andb_false_r.
  - rewrite <- (Z.mod_small (byte.unsigned b) (2 ^ 8)) by lia. by rewrite Z.mod_pow2_bits_high by lia.
Qed.

(** Bytes that are zero or as in another list make a smaller number. *)
Lemma le_value_zeroed bs' bs :
  Forall2 (λ b' b, b' = Byte.x00 ∨ b' = b) bs' bs → le_value bs' ≤ le_value bs.
Proof.
  induction 1 as [|b' b bs' bs Hb _ IH]; [done|]. rewrite !le_value_cons_sum.
  pose proof (byte.unsigned_range b). destruct Hb as [->| ->]; [|lia].
  change (byte.unsigned Byte.x00) with 0. lia.
Qed.

Lemma load_le_zeroed n off m m' v :
  (∀ k b, m' !! k = Some b → b = Byte.x00 ∨ m !! k = Some b) → length m' = length m →
  load_le n off m = Ok v → ∃ v', load_le n off m' = Ok v' ∧ 0 ≤ v' ≤ v.
Proof.
  intros Hb Hl. unfold load_le, load, in_range. rewrite Hl. destruct (_ && _)%bool eqn:Hr; [|done].
  cbn [mbind result_bind]. intros [= <-]. eexists. split; [done|].
  split; [apply le_combine_bound|]. apply le_value_zeroed. apply Forall2_same_length_lookup_2.
  - rewrite !length_take, !length_drop. lia.
  - intros k b' b [Hk' Hlt]%lookup_take_Some [Hk _]%lookup_take_Some. rewrite lookup_drop in Hk, Hk'.
    apply Hb in Hk'. destruct Hk' as [->|Hk']; [by left|right]. congruence.
Qed.

(** ** Writes *)

Lemma mark_eos_outside sgm curr rc sgm' :
  mark_eos sgm curr = Ok (rc, sgm') → curr = w_offset_pair sgm → op_data curr + header_size < 2 ^ 32 →
  0 ≤ op_data curr →
  outside (op_data curr) (op_data curr + header_size) (r_mem (buffer sgm)) (r_mem (buffer sgm')).
Proof.
  unfold mark_eos, claim. intros H -> Hlt H0. rewrite decide_True in H by done. cbn [Z.eqb negb] in H.
  apply bind_Ok_inv in H as (m1 & H1 & (m2 & H2 & (m3 & H3 & [= <- <-])%bind_Ok_inv)%bind_Ok_inv).
  simpl in H1 |- *. unfold set_size, set_flags, header_size in *. transitivity m1; [by eapply header_init_outside; [exact H1|lia|unfold header_size; lia]|].
  transitivity m2; [by eapply store_le_outside; [exact H2|lia..]|by eapply store_le_outside; [exact H3|lia..]].
Qed.

(** The stores of a frame are between the old and the new write offset. *)
Lemma write_outside sgm ps p rc sgm' :
  seg_inv sgm ps false → fits sgm ps p → segment_write sgm p = Ok (rc, sgm') → forged_eos ps = false →
  outside (used ps false) (used ps false + header_size + zlen p) (r_mem (buffer sgm)) (r_mem (buffer sgm')).
Proof.
  intros I Hf H Hforged. pose proof (inv_size _ _ _ I) as Hsz. pose proof (frames_length ps). unfold fits in Hf.
  unfold segment_write in H. rewrite (marked_eos_inv _ _ _ I), Hforged, bind_Ok in H. cbn [orb] in H.
  rewrite (inv_w _ _ _ I) in H. cbn [op_data op_index] in H. rewrite used_false in *.
  rewrite (u64_small (header_size + zlen p)), !u64_small in H by size_lia.
  destruct (Z.gtb_spec (header_size + (header_size + zlen p)) (size sgm - zlen (frames ps))); [size_lia|].
  unfold claim in H. rewrite decide_True in H by (by rewrite (inv_w _ _ _ I), used_false).
  cbn [Z.eqb negb] in H. cbn [buffer set_w_offset_pair] in H.
  set (u := zlen (frames ps)) in *. clearbody u. set (hi := u + header_size + zlen p) in *.
  apply bind_Ok_inv in H as (m1 & K1 & (m2 & K2 & (m3 & K3 & (m4 & K4 & (m5 & K5 & (ix & K6 & [= <- <-])%bind_Ok_inv)%bind_Ok_inv)%bind_Ok_inv)%bind_Ok_inv)%bind_Ok_inv).
  simpl. unfold set_size, set_flags, set_crc32 in *.
  transitivity m1; [by eapply store_outside; [exact K1|size_lia..]|].
  transitivity m2; [by eapply header_init_outside; [exact K2|size_lia..]|].
  transitivity m3; [by eapply store_le_outside; [exact K3|size_lia..]|].
  transitivity m4; by eapply store_le_outside; [eassumption|size_lia..].
Qed.

(** The payloads after a write that returned [rc]. *)
Definition written (ps : list bytes) (p : bytes) (rc : Z) (ps' : list bytes) : Prop :=
  rc = zlen p ∧ ps' = ps ++ [p] ∨ rc = ELEOS ∧ ps' = ps.

Lemma written_prefix ps p rc ps' : written ps p rc ps' → ps `prefix_of` ps'.
Proof. intros [[_ ->]|[_ ->]]; [by apply prefix_app_r|done]. Qed.

(** What a write that returns does to the payloads and to the bytes. *)
Lemma write_changes sgm ps eos p rc sgm' :
  seg_inv sgm ps eos → zlen p < 2 ^ 63 → segment_write sgm p = Ok (rc, sgm') →
  ∃ ps' eos', seg_inv sgm' ps' eos' ∧ same_segment sgm sgm' ∧ written ps p rc ps' ∧
    used ps eos ≤ used ps' eos' ∧
    outside (used ps eos) (used ps' eos') (r_mem (buffer sgm)) (r_mem (buffer sgm')).
Proof.
  intros I Hp Hw. pose proof (segment_write_inv sgm ps eos p I Hp) as H. rewrite Hw in H.
  destruct (eos || forged_eos ps)%bool eqn:He.
  { injection H as -> ->. exists ps, eos. split; [done|]. split; [done|]. split; [by right|done]. }
  apply orb_false_iff in He as [-> Hforged].
  destruct (Z.gtb_spec (header_size + (header_size + zlen p)) (size sgm - used ps false)) as [Hfull|Hfit].
  - destruct H as (s & [= -> ->] & I' & Hs). exists ps, true. split; [done|]. split; [done|]. split; [by right|].
    rewrite used_true. split; [size_lia|]. unfold segment_write in Hw.
    rewrite (marked_eos_inv _ _ _ I), Hforged, bind_Ok in Hw. cbn [orb] in Hw. cbv zeta in Hw.
    pose proof (inv_size _ _ _ I). pose proof (inv_room _ _ _ I eq_refl). pose proof (frames_length ps).
    assert (Hd : op_data (w_offset_pair sgm) = used ps false) by (by rewrite (inv_w _ _ _ I)).
    rewrite Hd, used_false in *.
    rewrite (u64_small (header_size + zlen p)), !u64_small in Hw by size_lia.
    destruct (Z.gtb_spec (header_size + (header_size + zlen p)) (size sgm - zlen (frames ps))); [|lia].
    rewrite <- Hd. eapply mark_eos_outside; [exact Hw|done|rewrite Hd; size_lia|lia].
  - destruct (_ <=? _); [|done]. destruct H as (s & [= -> ->] & I' & Hs). exists (ps ++ [p]), false.
    split; [done|]. split; [done|]. split; [by left|]. rewrite used_snoc. split; [size_lia|].
    replace (used ps false + (header_size + zlen p)) with (used ps false + header_size + zlen p) by lia.
    by apply (write_outside _ _ _ (zlen p)).
Qed.

(** Loads from the first of two lists. *)
Lemma load_app_first off n m t : 0 ≤ off → 0 ≤ n → off + n ≤ zlen m → load off n (m ++ t) = load off n m.
Proof.
  intros Ho Hn Hl. unfold load, in_range. rewrite length_app.
  rewrite (proj2 (Z.leb_le _ _) Ho), (proj2 (Z.leb_le _ _) Hn), !(proj2 (Z.leb_le _ _)) by lia. cbn [andb].
  f_equal. rewrite drop_app_le by lia. rewrite take_app_le; [done|]. rewrite length_drop. lia.
Qed.
