(* ===== verification/SegmentFile.v ===== *)
(** * Segment files (src/segment.c): opening and closing a segment

    The two files of a segment are named after its base offset; both are
    mapped, and the write offset is recovered from them. The kernel calls are
    those of the [Posix] class. *)

From S2P Require Import Prelude Errno Prot Posix Util Segment.

Definition DATA_SUFFIX : string := "log".
Definition INDEX_SUFFIX : string := "idx".

(** The code and the file name: [snprintf(filename, len, "%jd.%s", ...)]. *)
Definition index_filename (len : nat) (offset : Z) : Z * string :=
  let '(n, filename) := snprintf len (print_jd offset +:+ "." +:+ INDEX_SUFFIX) in
  (if n <=? Z.of_nat len then 0 else -1, filename).

Definition data_filename (len : nat) (offset : Z) : Z * string :=
  let '(n, filename) := snprintf len (print_jd offset +:+ "." +:+ DATA_SUFFIX) in
  (if n <=? Z.of_nat len then 0 else -1, filename).

(** [sizeof(struct segment)] *)
Definition sizeof_segment : Z := 64.

Section files.
Context {W : Type} `{!Posix W}.

(** The [error] label of [open_index] and [open_data]. *)
Definition open_error (fd : Z) (w : W) : Z * W :=
  if fd >? 0 then let '(_, w) := os_close fd w in (ELFLEOP, w) else (ELFLEOP, w).

(** What [open_index] and [open_data] do with the name of their file. *)
Definition open_sized (name : Z * string) (dir : string) (sz : Z) (w : W) : result (Z * W) :=
  let '(rc, filename) := name in
  if rc =? -1 then Ok (ELSOFLW, w)
  else
    let '(rc, w) := ensure_directory dir w in
    if negb (rc =? 0) then Ok (ELFLEOP, w)
    else
      '(rc, file) ← append_file_to_dir 256 dir filename;
      if rc =? -1 then Ok (ELSOFLW, w)
      else
        let '(fd, w) := os_open file w in
        if fd <? 0 then Ok (ELFLEOP, w)
        else
          match os_fstat fd w with
          | None => Ok (open_error fd w)
          | Some file_size =>
            if (file_size >? 0) && negb (file_size =? sz) then Ok (open_error fd w)
            else if file_size =? 0 then
              let '(rc, w) := os_ftruncate fd sz w in
              if rc <? 0 then Ok (open_error fd w) else Ok (fd, w)
            else Ok (fd, w)
          end.

Definition open_index (dir : string) (offset sz : Z) : W → result (Z * W) :=
  open_sized (index_filename 64 offset) dir sz.

Definition open_data (dir : string) (offset sz : Z) : W → result (Z * W) :=
  open_sized (data_filename 64 offset) dir sz.

(** The code and the mapping. *)
Definition mmap_helper (sz fd : Z) (w : W) : Z * option region * W :=
  let '(ptr0, w) := os_mmap sz fd w in
  if r_base ptr0 =? 0 then (ELMMAP, None, w)
  else
    let '(rc, w) := os_madvise (r_base ptr0) sz w in
    if negb (rc =? 0) then
      let '(_, w) := os_munmap ptr0 sz w in (ELMADV, None, w)
    else (0, Some ptr0, w).

(** [close] and [munmap] on the error paths, their results ignored. *)
Definition do_close (fd : Z) (w : W) : W := (os_close fd w).2.
Definition do_munmap (r : region) (sz : Z) (w : W) : W := (os_munmap r sz w).2.

(** [segment_open]: the code, and the address and value of the new segment. *)
Definition segment_open (dir : string) (base_offset sz flags : Z) (w : W)
    : result (Z * option (Z * segment) * W) :=
  if negb (sz mod pagesize =? 0) then Ok (ELNOPGM, None, w)
  else
    let '(sgm, w) := os_malloc sizeof_segment w in
    if sgm =? 0 then Ok (ELALLC, None, w)
    else
      let index_size := calculate_index_size sz in
      '(index_fd, w) ← open_index dir base_offset index_size w;
      if index_fd <? 0 then Ok (index_fd, None, os_free sgm w)
      else
        let '(rc, ix, w) := mmap_helper index_size index_fd w in
        match ix with
        | None => Ok (rc, None, os_free sgm (do_close index_fd w))
        | Some ix =>
          '(data_fd, w) ← open_data dir base_offset sz w;
          if data_fd <? 0 then
            let w := do_close index_fd w in
            let w := do_munmap ix index_size w in
            Ok (data_fd, None, os_free sgm w)
          else
            let '(rc, buffer, w) := mmap_helper sz data_fd w in
            match buffer with
            | None =>
              let w := do_close data_fd w in
              let w := do_close index_fd w in
              let w := do_munmap ix index_size w in
              Ok (rc, None, os_free sgm w)
            | Some buffer =>
              '(rc, wp) ← find_w_offset_pair (r_mem buffer) (r_mem ix) index_size;
              match wp with
              | Some wp =>
                Ok (0, Some (sgm, Segment LATEST_SEGMENT_VERSION flags index_fd data_fd sz
                                    base_offset buffer ix wp wp), w)
              | None =>
                let w := do_close data_fd w in
                let w := do_close index_fd w in
                let w := do_munmap ix index_size w in
                let w := do_munmap buffer sz w in
                Ok (rc, None, os_free sgm w)
              end
            end
        end.

(** [segment_close] of the segment at [addr]: the code; nothing is released
    when the sync fails. *)
Definition segment_close (addr : Z) (sgm : segment) (w : W) : Z * segment * W :=
  let '(rc, sgm, w) := segment_sync sgm w in
  if rc <? 0 then (rc, sgm, w)
  else
    let index_size := calculate_index_size (size sgm) in
    let w := do_munmap (buffer sgm) (size sgm) w in
    let w := do_munmap (index sgm) index_size w in
    let w := do_close (data_fd sgm) w in
    let w := do_close (index_fd sgm) w in
    let w := os_free addr w in
    (0, sgm, w).
End files.
