(* ===== verification/SegmentFileSpec.v ===== *)
(** * Segment files: the properties

    Against the laws of [PosixLaws]: a segment that was closed is found again
    when it is opened, and an open that fails releases what it took. *)

From S2P Require Import Prelude Errno Crc32 Prot Posix Util MemOs Segment SegmentInv SegmentOps SegmentFile.

Section view.
Context {W : Type} `{!Posix W, !PosixLaws W}.
Implicit Types (w : W) (v : os_view).

(** ** The calls, on views *)

Lemma do_close_view fd w : ps_view (do_close fd w) = view_fds (delete fd) (ps_view w).
Proof. unfold do_close. destruct (os_close fd w) eqn:E. by apply law_close in E. Qed.

Lemma page_round_exact sz : sz mod os_pagesize = 0 → page_round os_pagesize sz = sz.
Proof using All.
  destruct law_page as (k & Hk & ->). intros Hmod. unfold page_round.
  assert (0 < 2 ^ k) by (apply Z.pow_pos_nonneg; lia).
  pose proof (Z.div_mod sz (2 ^ k)). 
  replace (sz + (2 ^ k - 1)) with ((2 ^ k - 1) + (sz / 2 ^ k) * 2 ^ k) by lia.
  rewrite Z.div_add, Z.div_small by lia. lia.
Qed.

Lemma page_round_ge sz : 0 ≤ sz → sz ≤ page_round os_pagesize sz.
Proof using All.
  destruct law_page as (k & Hk & ->). intros. unfold page_round.
  assert (0 < 2 ^ k) by (apply Z.pow_pos_nonneg; lia).
  pose proof (Z.div_mod (sz + (2 ^ k - 1)) (2 ^ k)).
  pose proof (Z.mod_pos_bound (sz + (2 ^ k - 1)) (2 ^ k)). lia.
Qed.

(** Unmapping all of a mapping. *)
Lemma do_munmap_view r n w p :
  r_base r ≠ MAP_FAILED → v_maps (ps_view w) !! r_base r = Some p → page_round os_pagesize n = zlen (r_mem r) →
  ps_view (do_munmap r n w) =
    view_files (write_back r (v_maps (ps_view w))) (view_maps (delete (r_base r)) (ps_view w)).
Proof. unfold do_munmap. destruct (os_munmap r n w) eqn:E. intros. by edestruct law_munmap. Qed.

Lemma mapped_length sz c : zlen c = sz → zlen (c ++ zeros (page_round os_pagesize sz - sz)) = page_round os_pagesize sz.
Proof using All. intros <-. pose proof (page_round_ge (zlen c) ltac:(lia)). len. Qed.

Lemma write_back_ok r maps fs p c :
  maps !! r_base r = Some p → fs !! p = Some c →
  write_back r maps fs = <[p := take (length c) (r_mem r)]> fs.
Proof. unfold write_back. by intros -> ->. Qed.

Lemma ensure_directory_view dir w rc w' :
  ensure_directory dir w = (rc, w') → ps_view w' = ps_view w.
Proof.
  unfold ensure_directory. destruct (negb _); [apply law_mkdir|]. by intros [= _ <-].
Qed.

(** A mapping of a whole file. *)
Lemma mmap_helper_view sz fd w p c rc o w' :
  v_fds (ps_view w) !! fd = Some p → v_files (ps_view w) !! p = Some c → zlen c = sz →
  mmap_helper sz fd w = (rc, o, w') →
  match o with
  | None => rc ≠ 0 ∧ ps_view w' = ps_view w
  | Some r => rc = 0 ∧ r_base r ≠ MAP_FAILED ∧ v_maps (ps_view w) !! r_base r = None ∧
      ps_view w' = view_maps (<[r_base r := p]>) (ps_view w) ∧
      r_mem r = c ++ zeros (page_round os_pagesize sz - sz)
  end.
Proof.
  intros Hfd Hp Hc. unfold mmap_helper. destruct (os_mmap sz fd w) as [r w1] eqn:Em.
  pose proof (law_mmap _ _ _ _ _ _ _ Hfd Hp Em) as Hm.
  destruct (Z.eqb_spec (r_base r) MAP_FAILED) as [Hf|Hf].
  - rewrite Hf. simpl (MAP_FAILED =? 0). cbn iota.
    destruct (os_madvise MAP_FAILED sz w1) as [rc1 w2] eqn:Ea.
    destruct (law_madvise _ _ _ _ _ Ea) as [Hv2 Hrc]. rewrite (proj2 (Z.eqb_neq _ _)) by auto.
    simpl negb. cbn iota. destruct (os_munmap r sz w2) as [rc2 w3] eqn:Eu. intros [= <- <- <-].
    split; [done|]. rewrite (law_munmap_failed _ _ _ _ _ Hf Eu). congruence.
  - destruct Hm as (Hfresh & H0 & Hv1 & Hmem). rewrite (proj2 (Z.eqb_neq _ _)) by done.
    rewrite <- Hc, Nat2Z.id, firstn_all, Z.min_id, Hc in Hmem.
    destruct (os_madvise (r_base r) sz w1) as [rc1 w2] eqn:Ea.
    destruct (law_madvise _ _ _ _ _ Ea) as [Hv2 _].
    destruct (Z.eqb_spec rc1 0) as [->|Hrc]; simpl negb; cbn iota.
    + intros [= <- <- <-]. split_and!; try done. congruence.
    + destruct (os_munmap r sz w2) as [rc2 w3] eqn:Eu. intros [= <- <- <-]. split; [done|].
      assert (Hl : v_maps (ps_view w2) !! r_base r = Some p) by (rewrite Hv2, Hv1; apply lookup_insert_eq).
      assert (Hf2 : v_files (ps_view w2) !! p = Some c) by (by rewrite Hv2, Hv1).
      pose proof (mapped_length sz c Hc) as Hlen. rewrite <- Hmem in Hlen.
      rewrite (proj2 (law_munmap _ _ _ _ _ _ Hf Hl (eq_sym Hlen) Eu)). unfold view_files at 1. simpl.
      rewrite (write_back_ok _ _ _ _ _ Hl Hf2), Hmem, Hv2, Hv1, take_app_length. unfold view_files, view_maps. simpl.
      rewrite delete_insert_id by done. rewrite insert_id by done. by destruct (ps_view w).
Qed.

(** The contents of a file after [open_sized], from what they were before. *)
Definition sized (sz : Z) (c0 : option bytes) : bytes :=
  match c0 with Some (b :: c) => b :: c | _ => zeros sz end.

(** Files that differ at most at [p], and there only by filling an empty file. *)
Definition same_but (p : string) (sz : Z) (fs fs' : gmap string bytes) : Prop :=
  (∀ q, q ≠ p → fs' !! q = fs !! q) ∧ sized sz (fs' !! p) = sized sz (fs !! p).

Lemma same_but_refl p sz fs : same_but p sz fs fs.
Proof. done. Qed.

Lemma sized_empty sz c0 : zlen (default [] c0) = 0 → default [] c0 = [] ∧ sized sz c0 = zeros sz.
Proof. by destruct c0 as [[|b c]|]. Qed.

Lemma sized_nonempty sz c0 : zlen (default [] c0) ≠ 0 → ∃ b c, c0 = Some (b :: c) ∧ sized sz c0 = b :: c.
Proof. destruct c0 as [[|b c]|]; simpl; [done| |done]. by exists b, c. Qed.

Lemma sized_sized sz c0 : sized sz (Some (sized sz c0)) = sized sz c0.
Proof.
  destruct c0 as [[|b c]|]; simpl; [|done|]; unfold zeros; by destruct (Z.to_nat sz).
Qed.

Lemma same_but_sized p sz fs : same_but p sz fs (<[p := sized sz (fs !! p)]> fs).
Proof.
  split; [intros q Hq; by apply lookup_insert_ne|]. by rewrite lookup_insert_eq, sized_sized.
Qed.

Lemma same_but_opened p sz fs : same_but p sz fs (<[p := default [] (fs !! p)]> fs).
Proof.
  split; [intros q Hq; by apply lookup_insert_ne|]. rewrite lookup_insert_eq.
  by destruct (fs !! p).
Qed.

(** What a failed open leaves: descriptor 0 is in use, so that a new one is
    closed; the file may have been created. *)
Definition open_failed (dir filename : string) (sz : Z) (v v' : os_view) : Prop :=
  v_maps v' = v_maps v ∧ v_blocks v' = v_blocks v ∧ v_dirs v' = v_dirs v ∧
  (is_Some (v_fds v !! 0) → v_fds v' = v_fds v) ∧
  (∀ p, append_file_to_dir 256 dir filename = Ok (0, p) → same_but p sz (v_files v) (v_files v')).

Lemma open_error_view dir filename sz fd0 p v w fd w' (c0 := default [] (v_files v !! p)) :
  append_file_to_dir 256 dir filename = Ok (0, p) → 0 ≤ fd0 → v_fds v !! fd0 = None →
  ps_view w = view_files (λ fs, <[p := c0]> fs) (view_fds (<[fd0 := p]>) v) →
  open_error fd0 w = (fd, w') → fd <? 0 = true ∧ open_failed dir filename sz v (ps_view w').
Proof.
  intros Hpath Hpos Hfresh Hv. unfold open_error, open_failed. rewrite Hpath.
  destruct (Z.gtb_spec fd0 0).
  - destruct (os_close fd0 w) as [rc w1] eqn:Ec. apply law_close in Ec. intros [= <- <-].
    rewrite Ec, Hv. simpl. split_and!; [done..| |].
    + intros _. by apply delete_insert_id.
    + intros q [= <-]. apply same_but_opened.
  - intros [= <- <-]. rewrite Hv. simpl. split_and!; [done..| |].
    + assert (fd0 = 0) as -> by lia. intros [x Hx]. congruence.
    + intros q [= <-]. apply same_but_opened.
Qed.

(** Opening a file: on success it has the right size. *)
Lemma open_sized_view name dir sz w fd w' :
  0 ≤ sz → open_sized name dir sz w = Ok (fd, w') →
  if fd <? 0 then open_failed dir name.2 sz (ps_view w) (ps_view w')
  else ∃ p, append_file_to_dir 256 dir name.2 = Ok (0, p) ∧
    v_fds (ps_view w) !! fd = None ∧ zlen (sized sz (v_files (ps_view w) !! p)) = sz ∧
    ps_view w' = view_files (λ fs, <[p := sized sz (fs !! p)]> fs) (view_fds (<[fd := p]>) (ps_view w)).
Proof.
  intros Hsz. unfold open_sized. destruct name as [rc filename]. cbn [snd].
  assert (Hrefl : ∀ v, open_failed dir filename sz v v) by (intros v; split_and!; [done..|intros p _; by split]).
  destruct (rc =? -1); [by intros [= <- <-]|].
  destruct (ensure_directory dir w) as [rc1 w1] eqn:Ed. apply ensure_directory_view in Ed.
  destruct (negb (rc1 =? 0)); [intros [= <- <-]; by rewrite Ed|].
  intros H. apply bind_Ok_inv in H as ([rc2 p] & Hpath & H).
  destruct (Z.eqb_spec rc2 (-1)) as [->|Hrc2]; [injection H as <- <-; by rewrite Ed|].
  assert (rc2 = 0) as ->.
  { unfold append_file_to_dir in Hpath. apply bind_Ok_inv in Hpath as (ch & _ & Hpath).
    destruct (bool_decide _); destruct (snprintf _ _); destruct (_ <=? _); by simplify_eq. }
  destruct (os_open p w1) as [fd1 w2] eqn:Eo. pose proof (law_open _ _ _ _ Eo) as Ho. rewrite Ed in Ho.
  destruct (Z.ltb_spec fd1 0) as [Hneg|Hpos]; [injection H as <- <-; by rewrite Ho|].
  destruct Ho as [Hfresh Hv2]. set (v := ps_view w) in *. set (c0 := default [] (v_files v !! p)) in *.
  assert (Hfd2 : v_fds (ps_view w2) !! fd1 = Some p) by (rewrite Hv2; apply lookup_insert_eq).
  assert (Hp2 : v_files (ps_view w2) !! p = Some c0) by (rewrite Hv2; apply lookup_insert_eq).
  pose proof (λ w fd w', open_error_view dir filename sz fd1 p v w fd w' Hpath Hpos Hfresh) as Herr.
  destruct (os_fstat fd1 w2) as [n|] eqn:Ef.
  2:{ injection H as H. by destruct (Herr _ _ _ Hv2 H) as [-> ?]. }
  apply (law_fstat _ _ _ _ _ Hfd2 Hp2) in Ef. subst n.
  destruct ((zlen c0 >? 0) && negb (zlen c0 =? sz)) eqn:Eb.
  { injection H as H. by destruct (Herr _ _ _ Hv2 H) as [-> ?]. }
  destruct (Z.eqb_spec (zlen c0) 0) as [Hc0|Hc0].
  - destruct (os_ftruncate fd1 sz w2) as [rc3 w3] eqn:Et.
    apply (law_ftruncate _ _ _ _ _ _ _ Hfd2 Hp2 Hsz) in Et.
    destruct (Z.ltb_spec rc3 0); [injection H as H; rewrite Hv2 in Et; by destruct (Herr _ _ _ Et H) as [-> ?]|].
    injection H as <- <-. rewrite (proj2 (Z.ltb_ge _ _)) by done. exists p.
    destruct (sized_empty sz (v_files v !! p)) as [Hc00 Hs]; [exact Hc0|]. fold c0 in Hc00.
    rewrite Hs. split_and!; [done|done|rewrite length_zeros; lia|].
    rewrite Et, Hv2, Hc00, take_nil, Z.sub_0_r. unfold view_files, view_fds. simpl.
    by rewrite insert_insert_eq, Hs.
  - injection H as <- <-. rewrite (proj2 (Z.ltb_ge _ _)) by done. exists p.
    destruct (sized_nonempty sz (v_files v !! p)) as (b & c & Hc & Hs); [exact Hc0|]. rewrite Hs.
    assert (Hc1 : c0 = b :: c) by (unfold c0; by rewrite Hc). rewrite Hc1 in *.
    split_and!; [done|done|lia|]. rewrite Hv2. unfold view_files, view_fds. simpl. by rewrite Hc.
Qed.

Lemma find_w_loop_code buffer index n : ∀ i prev rc o,
  find_w_loop n i prev buffer index = Ok (rc, o) → (rc = ELWOFFS ∧ o = None) ∨ (rc = 0 ∧ is_Some o).
Proof.
  induction n as [|n IH]; intros i prev rc o; simpl; [intros [= <- <-]; by left|].
  intros (phys & _ & H)%bind_Ok_inv. apply bind_Ok_inv in H as ([] & _ & H); [by eapply IH|].
  apply bind_Ok_inv in H as (offset & _ & [= <- <-]). right. eauto.
Qed.

Lemma os_free_view p w : ps_view (os_free p w) = view_blocks (λ b, b ∖ {[p]}) (ps_view w).
Proof. apply law_free. Qed.

(** ** Opening a segment *)

(** What a process holds: descriptors, mappings, blocks and directory streams. *)
Definition held (w : W) : gmap Z string * gmap Z string * gset Z * gmap Z string :=
  (v_fds (ps_view w), v_maps (ps_view w), v_blocks (ps_view w), v_dirs (ps_view w)).

Lemma free_fresh (b : gset Z) p : p ∉ b → ({[p]} ∪ b) ∖ {[p]} = b.
Proof. intros. apply set_eq. set_solver. Qed.

Definition index_path (dir : string) (off : Z) : result (Z * string) :=
  append_file_to_dir 256 dir (index_filename 64 off).2.
Definition data_path (dir : string) (off : Z) : result (Z * string) :=
  append_file_to_dir 256 dir (data_filename 64 off).2.

(** Between [w] and [w'] the process gets the two descriptors, mappings and
    the block of [sgm], none of which it had. *)
Record acquires w w' (a : Z) (sgm : segment) (pi pd : string) : Prop := {
  acq_held : held w' =
    (<[data_fd sgm := pd]> (<[index_fd sgm := pi]> (v_fds (ps_view w))),
     <[r_base (buffer sgm) := pd]> (<[r_base (index sgm) := pi]> (v_maps (ps_view w))),
     {[a]} ∪ v_blocks (ps_view w), v_dirs (ps_view w));
  acq_index_fd : v_fds (ps_view w) !! index_fd sgm = None;
  acq_data_fd : <[index_fd sgm := pi]> (v_fds (ps_view w)) !! data_fd sgm = None;
  acq_index_map : v_maps (ps_view w) !! r_base (index sgm) = None;
  acq_data_map : <[r_base (index sgm) := pi]> (v_maps (ps_view w)) !! r_base (buffer sgm) = None;
  acq_block : a ∉ v_blocks (ps_view w)
}.

Lemma calculate_index_size_pos sz : 0 ≤ calculate_index_size sz.
Proof.
  unfold calculate_index_size. apply Z.div_pos; [|unfold header_size; lia].
  pose proof (u64_range (sz + 1)). lia.
Qed.

Lemma region_eta r : Region (r_base r) (r_mem r) = r.
Proof. by destruct r. Qed.

(** What is left of [segment_open] once the index is mapped. *)
Definition open_rest (dir : string) (base_offset sz flags sgm index_fd : Z) (ix : region) (w : W)
    : result (Z * option (Z * segment) * W) :=
  let index_size := calculate_index_size sz in
  '(data_fd, w) ← open_data dir base_offset sz w;
  if data_fd <? 0 then Ok (data_fd, None, os_free sgm (do_munmap ix index_size (do_close index_fd w)))
  else
    let '(rc, buffer, w) := mmap_helper sz data_fd w in
    match buffer with
    | None => Ok (rc, None, os_free sgm (do_munmap ix index_size (do_close index_fd (do_close data_fd w))))
    | Some buffer =>
      '(rc, wp) ← find_w_offset_pair (r_mem buffer) (r_mem ix) index_size;
      match wp with
      | Some wp =>
        Ok (0, Some (sgm, Segment LATEST_SEGMENT_VERSION flags index_fd data_fd sz base_offset buffer ix wp wp), w)
      | None =>
        Ok (rc, None, os_free sgm (do_munmap buffer sz (do_munmap ix index_size (do_close index_fd (do_close data_fd w)))))
      end
    end.

Lemma segment_open_rest dir base_offset sz flags w :
  segment_open dir base_offset sz flags w =
    if negb (sz mod pagesize =? 0) then Ok (ELNOPGM, None, w)
    else
      let '(sgm, w) := os_malloc sizeof_segment w in
      if sgm =? 0 then Ok (ELALLC, None, w)
      else
        '(index_fd, w) ← open_index dir base_offset (calculate_index_size sz) w;
        if index_fd <? 0 then Ok (index_fd, None, os_free sgm w)
        else
          let '(rc, ix, w) := mmap_helper (calculate_index_size sz) index_fd w in
          match ix with
          | None => Ok (rc, None, os_free sgm (do_close index_fd w))
          | Some ix => open_rest dir base_offset sz flags sgm index_fd ix w
          end.
Proof. reflexivity. Qed.

(** The data file: the process that opens it holds the index and the block. *)
Lemma open_rest_held dir off sz fl a ifd ix pi w3 v rc o w' :
  0 ≤ sz < 2 ^ 32 → is_Some (v_fds v !! 0) → r_base ix ≠ MAP_FAILED →
  page_round os_pagesize (calculate_index_size sz) = zlen (r_mem ix) →
  v_fds v !! ifd = None → v_maps v !! r_base ix = None → a ∉ v_blocks v →
  held w3 = (<[ifd := pi]> (v_fds v), <[r_base ix := pi]> (v_maps v), {[a]} ∪ v_blocks v, v_dirs v) →
  open_rest dir off sz fl a ifd ix w3 = Ok (rc, o, w') →
  match o with
  | None => rc ≠ 0 ∧ held w' = (v_fds v, v_maps v, v_blocks v, v_dirs v)
  | Some (a', sgm) => rc = 0 ∧ a' = a ∧ index_fd sgm = ifd ∧ index sgm = ix ∧
      ∃ pd, data_path dir off = Ok (0, pd) ∧ <[ifd := pi]> (v_fds v) !! data_fd sgm = None ∧
        <[r_base ix := pi]> (v_maps v) !! r_base (buffer sgm) = None ∧
        held w' = (<[data_fd sgm := pd]> (<[ifd := pi]> (v_fds v)),
          <[r_base (buffer sgm) := pd]> (<[r_base ix := pi]> (v_maps v)), {[a]} ∪ v_blocks v, v_dirs v)
  end.
Proof.
  intros Hsz H0 Hixf Hixl Hifd Hixm Hab [= Hf3 Hm3 Hb3 Hd3] H. unfold open_rest, open_data, held in *.
  apply bind_Ok_inv in H as ([dfd w4] & Hod & H). apply open_sized_view in Hod; [|lia].
  assert (H03 : is_Some (v_fds (ps_view w3) !! 0)).
  { rewrite Hf3. destruct (decide (ifd = 0)) as [->|]; [by rewrite lookup_insert_eq|by rewrite lookup_insert_ne]. }
  destruct (Z.ltb_spec dfd 0) as [Hneg|Hpos'].
  { injection H as <- <- <-. destruct Hod as (Hm4 & Hb4 & Hd4 & Hf4 & _). specialize (Hf4 H03).
    split; [lia|].
    rewrite os_free_view, (do_munmap_view _ _ _ pi), do_close_view; rewrite ?do_close_view; simpl;
      [|done|by rewrite Hm4, Hm3, lookup_insert_eq|done].
    by rewrite Hm4, Hb4, Hf4, Hd4, Hm3, Hb3, Hf3, Hd3, !delete_insert_id, free_fresh. }
  destruct Hod as (pd & Hpd & Hdfd & Hlend & Hv4).
  destruct (mmap_helper sz dfd w4) as [[rc5 buf] w5] eqn:Emd.
  eapply mmap_helper_view in Emd;
    [|rewrite Hv4; apply lookup_insert_eq|rewrite Hv4; apply lookup_insert_eq|exact Hlend].
  destruct buf as [buf|].
  2:{ injection H as <- <- <-. destruct Emd as [Hrc Hv5]. split; [done|].
      rewrite os_free_view, (do_munmap_view _ _ _ pi); rewrite ?do_close_view, ?Hv5, ?Hv4; simpl;
        [|done|by rewrite Hm3, lookup_insert_eq|done].
      rewrite Hf3 in Hdfd |- *. by rewrite Hm3, Hb3, Hd3, !delete_insert_id, free_fresh. }
  destruct Emd as (-> & Hbf & Hbm & Hv5 & Hbmem). rewrite Hv4 in Hbm. simpl in Hbm.
  assert (Hbl : page_round os_pagesize sz = zlen (r_mem buf)) by (rewrite Hbmem; symmetry; by apply mapped_length).
  apply bind_Ok_inv in H as ([rc6 wp] & Hfw & H). apply find_w_loop_code in Hfw.
  rewrite Hf3 in Hdfd. rewrite Hm3 in Hbm. destruct wp as [wp|]; injection H as <- <- <-.
  - split_and!; [done..|]. exists pd. split_and!; [done..|]. by rewrite Hv5, Hv4; simpl; rewrite Hf3, Hm3, Hb3, Hd3.
  - split; [destruct Hfw as [[-> _]|[_ [? ?]]]; done|].
    assert (Hne : r_base buf ≠ r_base ix) by (intros Heq; rewrite Heq, lookup_insert_eq in Hbm; done).
    rewrite os_free_view, (do_munmap_view buf _ _ pd), (do_munmap_view ix _ _ pi); rewrite ?do_close_view, ?Hv5, ?Hv4; simpl;
      [|done|by rewrite Hm3, lookup_insert_ne, lookup_insert_eq|done|done| |done].
    2:{ rewrite (do_munmap_view ix _ _ pi); rewrite ?do_close_view, ?Hv5, ?Hv4; simpl; [|done| |done].
        - by rewrite lookup_delete_ne, lookup_insert_eq.
        - by rewrite Hm3, lookup_insert_ne, lookup_insert_eq. }
    rewrite Hf3, Hm3, Hb3, Hd3, !delete_insert_id by done.
    rewrite delete_delete, !delete_insert_id, free_fresh by done. done.
Qed.

(** The states of [segment_open], one resource after the other. *)
Lemma segment_open_held dir off sz fl w rc o w' :
  0 ≤ sz < 2 ^ 32 → is_Some (v_fds (ps_view w) !! 0) →
  segment_open dir off sz fl w = Ok (rc, o, w') →
  match o with
  | None => rc ≠ 0 ∧ held w' = held w
  | Some (a, sgm) => rc = 0 ∧ ∃ pi pd,
      index_path dir off = Ok (0, pi) ∧ data_path dir off = Ok (0, pd) ∧
      acquires w w' a sgm pi pd
  end.
Proof.
  intros Hsz H0. rewrite segment_open_rest.
  destruct (negb _); [by intros [= <- <- <-]|].
  destruct (os_malloc sizeof_segment w) as [a w1] eqn:Em. apply law_malloc in Em.
  destruct (Z.eqb_spec a 0) as [->|Ha]; [intros [= <- <- <-]; unfold held; by rewrite Em|].
  destruct Em as [Hab Hv1]. pose proof (calculate_index_size_pos sz) as Hix.
  intros ([ifd w2] & Hoi & H)%bind_Ok_inv.
  apply open_sized_view in Hoi; [|done]. rewrite Hv1 in Hoi.
  destruct (Z.ltb_spec ifd 0) as [Hneg|Hpos].
  { injection H as <- <- <-. destruct Hoi as (Hm2 & Hb2 & Hd2 & Hf2 & _). split; [lia|].
    unfold held. rewrite os_free_view. simpl. rewrite Hm2, Hb2, Hd2, Hf2 by done. simpl. by rewrite free_fresh. }
  destruct Hoi as (pi & Hpi & Hifd & Hlen & Hv2). simpl in Hifd, Hlen, Hv2.
  destruct (mmap_helper _ ifd w2) as [[rc3 ix] w3] eqn:Emi.
  eapply mmap_helper_view in Emi; [|rewrite Hv2; apply lookup_insert_eq|rewrite Hv2; apply lookup_insert_eq|done].
  destruct ix as [ix|].
  2:{ injection H as <- <- <-. destruct Emi as [Hrc Hv3]. split; [done|].
      unfold held. rewrite os_free_view, do_close_view, Hv3, Hv2. simpl. by rewrite delete_insert_id, free_fresh. }
  destruct Emi as (-> & Hixf & Hixm & Hv3 & Hixmem). rewrite Hv2 in Hixm. simpl in Hixm.
  assert (Hixl : page_round os_pagesize (calculate_index_size sz) = zlen (r_mem ix))
    by (rewrite Hixmem; symmetry; by apply mapped_length).
  apply (open_rest_held _ _ _ _ _ _ _ pi _ (ps_view w)) in H; [|done..|unfold held; by rewrite Hv3, Hv2].
  destruct o as [[a' sgm]|]; [|done]. destruct H as (-> & -> & Hi & Hx & pd & Hpd & Hdfd & Hbm & Hheld).
  split; [done|]. exists pi, pd. split_and!; [done..|]. split; rewrite ?Hi, ?Hx; done.
Qed.

(** [C17]: [segment_open] releases what it takes, if descriptor 0 is open when
    it is called: when it fails, at whichever call, it leaves the descriptors,
    mappings and blocks of the process as they were, and when it succeeds it
    holds exactly the two files, the two mappings and the block of the
    segment, all of them new. [munmap] is only assumed to release a mapping
    that is passed whole, with its address and its length. The size is below
    2^32. With descriptor 0 closed a file can get that number, and the error
    paths, which close positive descriptors only, leak it. *)
Theorem segment_open_releases dir off sz fl w rc o w' :
  0 ≤ sz < 2 ^ 32 → is_Some (v_fds (ps_view w) !! 0) →
  segment_open dir off sz fl w = Ok (rc, o, w') →
  match o with
  | None => rc ≠ 0 ∧ held w' = held w
  | Some (a, sgm) => rc = 0 ∧ ∃ pi pd,
      index_path dir off = Ok (0, pi) ∧ data_path dir off = Ok (0, pd) ∧
      acquires w w' a sgm pi pd
  end.
Proof. apply segment_open_held. Qed.
End view.

(** ** The paths of a segment *)

Definition dir_ok (dir : string) : Prop := dir ≠ ""%string ∧ (String.length dir ≤ 200)%nat.

Definition index_name (off : Z) : string := print_jd off +:+ ".idx".
Definition data_name (off : Z) : string := print_jd off +:+ ".log".

Lemma index_filename_ok off : index_filename 64 off = (0, index_name off).
Proof.
  unfold index_filename. pose proof (print_jd_length off).
  rewrite snprintf_fits by (rewrite string_length_app; simpl; lia).
  by rewrite (proj2 (Z.leb_le _ _)) by (rewrite string_length_app; simpl; lia).
Qed.

Lemma data_filename_ok off : data_filename 64 off = (0, data_name off).
Proof.
  unfold data_filename. pose proof (print_jd_length off).
  rewrite snprintf_fits by (rewrite string_length_app; simpl; lia).
  by rewrite (proj2 (Z.leb_le _ _)) by (rewrite string_length_app; simpl; lia).
Qed.

Lemma index_path_ok dir off : dir_ok dir → index_path dir off = Ok (0, path_in dir (index_name off)).
Proof.
  intros [? ?]. unfold index_path. rewrite index_filename_ok. pose proof (print_jd_length off).
  apply append_file_fits; [done|]. simpl. unfold index_name. rewrite string_length_app. simpl. lia.
Qed.

Lemma data_path_ok dir off : dir_ok dir → data_path dir off = Ok (0, path_in dir (data_name off)).
Proof.
  intros [? ?]. unfold data_path. rewrite data_filename_ok. pose proof (print_jd_length off).
  apply append_file_fits; [done|]. simpl. unfold data_name. rewrite string_length_app. simpl. lia.
Qed.

Lemma paths_ne dir off : path_in dir (index_name off) ≠ path_in dir (data_name off).
Proof. intros H%path_in_inj. by apply append_inj in H. Qed.

(** ** A segment on disk *)

Section stored.
Context {W : Type} `{!Posix W, !PosixLaws W}.
Implicit Types w : W.

(** The files of a segment that holds the payloads [ps]; a missing or empty
    file is one full of zeros. The scan needs an index slot after the last. *)
Definition data_on_disk w (dir : string) (off sz : Z) : bytes :=
  sized sz (v_files (ps_view w) !! path_in dir (data_name off)).
Definition index_on_disk w (dir : string) (off sz : Z) : bytes :=
  sized (calculate_index_size sz) (v_files (ps_view w) !! path_in dir (index_name off)).

Record stored w (dir : string) (off sz : Z) (ps : list bytes) : Prop := {
  st_len : zlen (data_on_disk w dir off sz) = sz;
  st_frames : frames ps `prefix_of` data_on_disk w dir off sz;
  st_fresh : ps = [] → prot_is_header 0 (data_on_disk w dir off sz) = Ok false;
  st_room : zlen (frames ps) + header_size ≤ sz;
  st_index : index_on_disk w dir off sz =
    index_bytes ps ++ zeros (calculate_index_size sz - index_entry_size * zlen ps);
  st_slot : index_entry_size * (zlen ps + 1) ≤ calculate_index_size sz
}.

(** An open segment and the files it maps. *)
Record attached w (dir : string) (off : Z) (sgm : segment) : Prop := {
  at_buffer : r_base (buffer sgm) ≠ MAP_FAILED;
  at_index : r_base (index sgm) ≠ MAP_FAILED;
  at_ne : r_base (buffer sgm) ≠ r_base (index sgm);
  at_data_map : v_maps (ps_view w) !! r_base (buffer sgm) = Some (path_in dir (data_name off));
  at_index_map : v_maps (ps_view w) !! r_base (index sgm) = Some (path_in dir (index_name off));
  at_data_file : ∃ c, v_files (ps_view w) !! path_in dir (data_name off) = Some c ∧
    zlen c = size sgm;
  at_index_file : ∃ c, v_files (ps_view w) !! path_in dir (index_name off) = Some c ∧
    zlen c = calculate_index_size (size sgm);
  at_data_mem : zlen (r_mem (buffer sgm)) = size sgm;
  at_index_mem : zlen (r_mem (index sgm)) = page_round os_pagesize (calculate_index_size (size sgm));
  at_pages : size sgm mod os_pagesize = 0
}.

Lemma attached_index w dir off sgm :
  attached w dir off sgm → calculate_index_size (size sgm) ≤ zlen (r_mem (index sgm)).
Proof using All. intros []. pose proof (page_round_ge _ (calculate_index_size_pos (size sgm))). lia. Qed.

(** The data file is whole pages. *)
Lemma unmap_data w dir off sgm :
  attached w dir off sgm → page_round os_pagesize (size sgm) = zlen (r_mem (buffer sgm)).
Proof using All. intros []. rewrite at_data_mem0. by apply page_round_exact. Qed.

(** What [segment_open] finds in the mapped files of a stored segment. *)
Lemma stored_inv w dir off sz fl ps bb ib fd1 fd2 :
  stored w dir off sz ps → 0 ≤ sz < 2 ^ 32 → sz mod os_pagesize = 0 → 0 ≤ off < 2 ^ 63 - 2 ^ 32 →
  let buffer := Region bb (data_on_disk w dir off sz ++ zeros (page_round os_pagesize sz - sz)) in
  let ix_size := calculate_index_size sz in
  let index := Region ib (index_on_disk w dir off sz ++
                          zeros (page_round os_pagesize ix_size - ix_size)) in
  let wp := OffsetPair (zlen ps) (zlen (frames ps)) in
  seg_inv (Segment LATEST_SEGMENT_VERSION fl fd1 fd2 sz off buffer index wp wp) ps false ∧
  find_w_offset_pair (r_mem buffer) (r_mem index) ix_size = Ok (0, Some wp).
Proof.
  intros [Hlen Hfr Hfresh Hroom Hix Hslot] Hsz Hmod Hoff buffer ix_size index wp.
  assert (Hix0 : 0 ≤ ix_size) by (subst ix_size; unfold index_entry_size in Hslot; lia).
  assert (Hb : r_mem buffer = data_on_disk w dir off sz).
  { subst buffer. simpl. rewrite page_round_exact, Z.sub_diag by done. apply app_nil_r. }
  assert (Hi : r_mem index = index_bytes ps ++
    zeros (page_round os_pagesize ix_size - index_entry_size * zlen ps)).
  { subst index. simpl. rewrite Hix, <- app_assoc. f_equal. pose proof (page_round_ge ix_size Hix0).
    rewrite (zeros_split (ix_size - index_entry_size * zlen ps)
      (page_round os_pagesize ix_size - index_entry_size * zlen ps)) by size_lia.
    do 2 f_equal. lia. }
  assert (Hil : zlen (r_mem index) = page_round os_pagesize ix_size).
  { rewrite Hi. pose proof (page_round_ge ix_size Hix0). len. }
  pose proof (page_round_ge ix_size Hix0).
  assert (I : seg_inv (Segment LATEST_SEGMENT_VERSION fl fd1 fd2 sz off buffer index wp wp) ps false).
  { split; cbn [size Segment.buffer Segment.index w_offset_pair base_offset]; rewrite ?Hb; try done.
    - intros Hps _. by apply Hfresh.
    - unfold used. size_lia.
    - unfold used. intros _. size_lia.
    - by rewrite Hil.
    - rewrite Hil. size_lia.
    - unfold wp, used. f_equal. lia.
    - lia. }
  split; [done|].
  assert (zlen ps + 1 ≤ ix_size / index_entry_size) by (apply Z.div_le_lower_bound; size_lia).
  assert (index_entry_size * (ix_size / index_entry_size) ≤ ix_size) by (apply Z.mul_div_le; size_lia).
  rewrite (find_w_inv _ _ _ I (Z.to_nat (ix_size / index_entry_size)));
    [|cbn [Segment.index]; rewrite Hil; size_lia|size_lia|size_lia|done].
  unfold recovered. by destruct (Nat.leb_spec (Z.to_nat (ix_size / index_entry_size)) (length ps)); [lia|].
Qed.

Lemma open_sized_total name dir sz w p :
  append_file_to_dir 256 dir name.2 = Ok (0, p) → name.1 = 0 →
  ∃ fd w', open_sized name dir sz w = Ok (fd, w') ∧ (fd = ELFLEOP ∨ 0 ≤ fd).
Proof using Type.
  destruct name as [rc f]. cbn [fst snd]. intros Hp ->. unfold open_sized. cbn [Z.eqb].
  destruct (ensure_directory dir w) as [rc1 w1]. destruct (negb _); [eauto|].
  run Hp. cbn [Z.eqb]. destruct (os_open p w1) as [fd w2].
  assert (Herr : ∀ w, ∃ w', open_error fd w = (ELFLEOP, w')).
  { intros w0. unfold open_error. destruct (_ >? _); [destruct (os_close fd w0)|]; eauto. }
  destruct (Z.ltb_spec fd 0); [eauto|]. destruct (os_fstat fd w2) as [n|].
  2:{ destruct (Herr w2) as [w' ->]. eauto. }
  destruct (_ && _)%bool; [destruct (Herr w2) as [w' ->]; eauto|].
  destruct (n =? 0); [|eauto]. destruct (os_ftruncate fd sz w2) as [rc3 w3].
  destruct (rc3 <? 0); [destruct (Herr w3) as [w' ->]; eauto|eauto].
Qed.

Lemma mmap_helper_code sz fd w rc w' :
  mmap_helper sz fd w = (rc, None, w') → rc = ELMMAP ∨ rc = ELMADV.
Proof using Type.
  unfold mmap_helper. destruct (os_mmap sz fd w) as [r w1]. destruct (_ =? 0); [intros [= <- _]; by left|].
  destruct (os_madvise _ _ _) as [rc1 w2]. destruct (negb _); [|done].
  destruct (os_munmap r sz w2). intros [= <- _]. by right.
Qed.

(** The segment [segment_open] makes of the files of [w]: mapped, with the
    write offset that was found, as the synced one too. *)
Definition opened w (dir : string) (off sz fl : Z) (sgm : segment) : Prop :=
  ∃ ifd dfd bb ib wp, sgm = Segment LATEST_SEGMENT_VERSION fl ifd dfd sz off
    (Region bb (data_on_disk w dir off sz))
    (Region ib (index_on_disk w dir off sz ++
      zeros (page_round os_pagesize (calculate_index_size sz) - calculate_index_size sz))) wp wp.

(** The data file of a segment whose index is mapped. *)
Lemma open_rest_found dir off sz fl w a ifd ix w3 rc0 wp (ix_size := calculate_index_size sz) :
  dir_ok dir → zlen (data_on_disk w dir off sz) = sz → 0 ≤ sz → sz mod os_pagesize = 0 →
  r_base ix ≠ MAP_FAILED → zlen (index_on_disk w dir off sz) = ix_size →
  v_files (ps_view w3) =
    <[path_in dir (index_name off) := index_on_disk w dir off sz]> (v_files (ps_view w)) →
  v_maps (ps_view w3) !! r_base ix = Some (path_in dir (index_name off)) →
  r_mem ix = index_on_disk w dir off sz ++ zeros (page_round os_pagesize ix_size - ix_size) →
  find_w_offset_pair (data_on_disk w dir off sz) (r_mem ix) ix_size = Ok (rc0, wp) →
  ∃ rc o w', open_rest dir off sz fl a ifd ix w3 = Ok (rc, o, w') ∧
    match o with
    | Some (_, sgm) => rc = 0 ∧ opened w dir off sz fl sgm ∧ wp = Some (w_offset_pair sgm) ∧ attached w' dir off sgm
    | None => rc ∈ [ELALLC; ELFLEOP; ELMMAP; ELMADV] ∨ wp = None ∧ rc = rc0
    end.
Proof using All.
  intros Hdir Hdlen0 Hsz Hmod Hixf Hixlen Hf3 Hm3 Hixmem Hfind. unfold open_rest, open_data.
  pose proof (data_path_ok dir off Hdir) as Hdp. unfold data_path in Hdp.
  set (pi := path_in dir (index_name off)) in *. set (pd := path_in dir (data_name off)) in *.
  destruct (open_sized_total (data_filename 64 off) dir sz w3 _ Hdp) as (dfd & w4 & Hod & Hdfd).
  { by rewrite data_filename_ok. }
  run Hod. apply open_sized_view in Hod; [|lia].
  destruct (Z.ltb_spec dfd 0) as [|Hdpos].
  { destruct Hdfd as [->|]; [|lia]. eexists _, _, _. split; [done|]. left. set_solver. }
  destruct Hod as (p & Hp & _ & Hdlen & Hv4). rewrite Hdp in Hp. injection Hp as <-.
  assert (Hfd3 : v_files (ps_view w3) !! pd = v_files (ps_view w) !! pd).
  { rewrite Hf3. apply lookup_insert_ne, paths_ne. }
  rewrite Hfd3 in Hdlen. change (sized sz (v_files (ps_view w) !! pd)) with (data_on_disk w dir off sz) in Hdlen.
  assert (Hv4d : v_files (ps_view w4) !! pd = Some (data_on_disk w dir off sz)).
  { rewrite Hv4. simpl. by rewrite lookup_insert_eq, Hfd3. }
  assert (Hv4i : v_files (ps_view w4) !! pi = Some (index_on_disk w dir off sz)).
  { rewrite Hv4. simpl. rewrite lookup_insert_ne by (apply not_eq_sym, paths_ne).
    rewrite Hf3. apply lookup_insert_eq. }
  destruct (mmap_helper sz dfd w4) as [[rc5 buf] w5] eqn:Emd.
  assert (Hmd := Emd). eapply mmap_helper_view in Hmd; [|rewrite Hv4; apply lookup_insert_eq|exact Hv4d|exact Hdlen].
  destruct buf as [buf|].
  2:{ eexists _, _, _. split; [done|]. left. apply mmap_helper_code in Emd as [->| ->]; set_solver. }
  destruct Hmd as (-> & Hbf & Hbm & Hv5 & Hbmem).
  assert (Hm4 : v_maps (ps_view w4) !! r_base ix = Some pi) by (rewrite Hv4; exact Hm3).
  rewrite page_round_exact, Z.sub_diag, app_nil_r in Hbmem by done. rewrite <- Hbmem in Hfind.
  subst ix_size. run Hfind. destruct wp as [wp|]; [|eexists _, _, _; split; [done|by right]].
  eexists _, _, _. split; [done|]. cbn beta iota.
  split; [done|]. split; [|split; [done|]].
  { exists ifd, dfd, (r_base buf), (r_base ix), wp. by rewrite <- Hbmem, <- Hixmem, !region_eta. }
  split; cbn [buffer index size]; rewrite ?Hv5; simpl; eauto.
  - intros Heq. congruence.
  - apply lookup_insert_eq.
  - rewrite lookup_insert_ne; [done|]. intros Heq. congruence.
  - by rewrite Hbmem.
  - rewrite Hixmem. pose proof (page_round_ge _ (calculate_index_size_pos sz)). rewrite length_app. len.
Qed.

(** An open whose scan of the index ends: the segment, an error of the system,
    or the code of the scan. *)
Lemma segment_open_found dir off sz fl w rc0 wp :
  dir_ok dir → zlen (data_on_disk w dir off sz) = sz → 0 ≤ sz → sz mod os_pagesize = 0 →
  find_w_offset_pair (data_on_disk w dir off sz) (index_on_disk w dir off sz ++
    zeros (page_round os_pagesize (calculate_index_size sz) - calculate_index_size sz)) (calculate_index_size sz)
    = Ok (rc0, wp) →
  ∃ rc o w', segment_open dir off sz fl w = Ok (rc, o, w') ∧
    match o with
    | Some (_, sgm) => rc = 0 ∧ opened w dir off sz fl sgm ∧ wp = Some (w_offset_pair sgm) ∧ attached w' dir off sgm
    | None => rc ∈ [ELALLC; ELFLEOP; ELMMAP; ELMADV] ∨ wp = None ∧ rc = rc0
    end.
Proof using All.
  intros Hdir Hdlen Hsz Hmod Hfind. rewrite segment_open_rest. unfold pagesize. rewrite Hmod. cbn [Z.eqb negb].
  destruct (os_malloc sizeof_segment w) as [a w1] eqn:Em. apply law_malloc in Em.
  destruct (a =? 0) eqn:Ea; [eexists _, _, _; split; [done|]; left; set_solver|].
  destruct Em as [_ Hv1]. pose proof (calculate_index_size_pos sz) as Hix0.
  pose proof (index_path_ok dir off Hdir) as Hip. unfold index_path in Hip.
  destruct (open_sized_total (index_filename 64 off) dir (calculate_index_size sz) w1 _ Hip) as (ifd & w2 & Hoi & Hifd).
  { by rewrite index_filename_ok. }
  unfold open_index. run Hoi. apply open_sized_view in Hoi; [|done].
  destruct (Z.ltb_spec ifd 0) as [|Hpos].
  { destruct Hifd as [->|]; [|lia]. eexists _, _, _. split; [done|]. left. set_solver. }
  destruct Hoi as (p & Hp & _ & Hlen & Hv2). rewrite Hip in Hp. injection Hp as <-.
  rewrite Hv1 in Hlen, Hv2. simpl in Hlen.
  destruct (mmap_helper (calculate_index_size sz) ifd w2) as [[rc3 ix] w3] eqn:Emi.
  assert (Hmi := Emi). eapply mmap_helper_view in Hmi;
    [|rewrite Hv2; apply lookup_insert_eq|rewrite Hv2; apply lookup_insert_eq|exact Hlen].
  destruct ix as [ix|].
  2:{ eexists _, _, _. split; [done|]. left. apply mmap_helper_code in Emi as [->| ->]; set_solver. }
  destruct Hmi as (-> & Hixf & _ & Hv3 & Hixmem).
  apply (open_rest_found _ _ _ _ w); [done..|exact Hlen| | |exact Hixmem|].
  - by rewrite Hv3, Hv2.
  - rewrite Hv3. apply lookup_insert_eq.
  - by rewrite Hixmem.
Qed.

(** An open of stored files: the segment, or an error of the system. *)
Lemma segment_open_stored dir off sz fl w ps :
  dir_ok dir → stored w dir off sz ps → 0 ≤ sz < 2 ^ 32 → sz mod os_pagesize = 0 →
  0 ≤ off < 2 ^ 63 - 2 ^ 32 →
  ∃ rc o w', segment_open dir off sz fl w = Ok (rc, o, w') ∧
    match o with
    | Some (a, sgm) => rc = 0 ∧ seg_inv sgm ps false ∧ attached w' dir off sgm ∧
        size sgm = sz ∧ base_offset sgm = off ∧ flags sgm = fl ∧ s_offset_pair sgm = w_offset_pair sgm
    | None => rc ∈ [ELALLC; ELFLEOP; ELMMAP; ELMADV]
    end.
Proof using All.
  intros Hdir Hst Hsz Hmod Hoff. set (wp := OffsetPair (zlen ps) (zlen (frames ps))).
  assert (Hinv : ∀ ifd dfd bb ib, _) by (intros ifd dfd bb ib; exact (stored_inv w dir off sz fl ps bb ib ifd dfd Hst Hsz Hmod Hoff)).
  cbv zeta in Hinv. rewrite page_round_exact, Z.sub_diag, app_nil_r in Hinv by done. fold wp in Hinv.
  destruct (segment_open_found dir off sz fl w 0 (Some wp)) as (rc & o & w' & Hrun & Ho);
    [done|apply Hst|lia|done|apply (Hinv 0 0 0 0)|].
  exists rc, o, w'. split; [done|]. destruct o as [[a sgm]|]; [|naive_solver].
  destruct Ho as (-> & (ifd & dfd & bb & ib & wp' & ->) & [= <-] & Hat). split_and!; try done. apply Hinv.
Qed.

(** ** Closing *)

(** Files change only in what they hold, not in their size. *)
Definition same_lengths w w' : Prop :=
  held w' = held w ∧ ∀ p c, v_files (ps_view w) !! p = Some c →
    ∃ c', v_files (ps_view w') !! p = Some c' ∧ length c' = length c.

Lemma same_lengths_refl w : same_lengths w w.
Proof using Type. split; eauto. Qed.

Lemma same_lengths_trans w1 w2 w3 : same_lengths w1 w2 → same_lengths w2 w3 → same_lengths w1 w3.
Proof using Type.
  intros [H1 L1] [H2 L2]. split; [congruence|]. intros p c Hc.
  destruct (L1 _ _ Hc) as (c1 & Hc1 & Hl1). destruct (L2 _ _ Hc1) as (c2 & Hc2 & Hl2).
  exists c2. split; [done|congruence].
Qed.

Lemma attached_same w w' dir off sgm sgm' :
  attached w dir off sgm → same_lengths w w' →
  buffer sgm' = buffer sgm → index sgm' = index sgm → size sgm' = size sgm →
  attached w' dir off sgm'.
Proof using Type.
  intros [? ? ? ? ? (c & Hc & Hl) (c' & Hc' & Hl') ? ?] [Hh L] Hb Hi Hs.
  assert (Hm : v_maps (ps_view w') = v_maps (ps_view w)) by (unfold held in Hh; congruence).
  destruct (L _ _ Hc) as (d & Hd & Hdl). destruct (L _ _ Hc') as (d' & Hd' & Hdl').
  split; rewrite ?Hb, ?Hi, ?Hs, ?Hm; try done.
  - exists d. split; [done|lia].
  - exists d'. split; [done|lia].
Qed.

(** Both mappings cover their files. *)
Definition covers_file w (r : region) : Prop :=
  ∃ p c, v_maps (ps_view w) !! r_base r = Some p ∧ v_files (ps_view w) !! p = Some c ∧
    (length c ≤ length (r_mem r))%nat.

Lemma attached_covers w dir off sgm :
  attached w dir off sgm → covers_file w (buffer sgm) ∧ covers_file w (index sgm).
Proof using All.
  intros [? ? ? ? ? (c & Hc & Hl) (c' & Hc' & Hl') ? ? ?].
  pose proof (page_round_ge _ (calculate_index_size_pos (size sgm))).
  split; eexists _, _; (split; [done|]); (split; [done|lia]).
Qed.

Lemma msync_lengths r a n w rc w' :
  covers_file w r → os_msync r a n w = (rc, w') → same_lengths w w'.
Proof using Type.
  intros (p & c & Hm & Hc & Hl) E. apply (law_msync _ _ _ _ _ _ _ _ Hm Hc) in E.
  assert (∃ c', length c' = length c ∧ ps_view w' = view_files (<[p := c']>) (ps_view w)) as (c' & Hl' & Hv).
  { destruct (rc =? 0); [|done]. eexists. split; [|done]. rewrite length_take. lia. }
  split; [unfold held; by rewrite Hv|]. rewrite Hv. simpl. intros q d Hd.
  destruct (decide (q = p)) as [->|]; [rewrite lookup_insert_eq|rewrite lookup_insert_ne by done; eauto].
  exists c'. split; [done|congruence].
Qed.

Lemma segment_sync_view dir off sgm w rc sgm' w' :
  attached w dir off sgm → segment_sync sgm w = (rc, sgm', w') →
  same_lengths w w' ∧ buffer sgm' = buffer sgm ∧ index sgm' = index sgm ∧ size sgm' = size sgm ∧
  data_fd sgm' = data_fd sgm ∧ index_fd sgm' = index_fd sgm.
Proof using All.
  intros Hat. destruct (attached_covers _ _ _ _ Hat) as [Hcb _]. unfold segment_sync, sync_data.
  destruct (os_msync (buffer sgm) _ _ w) as [rc1 w1] eqn:E1.
  pose proof (msync_lengths _ _ _ _ _ _ Hcb E1) as HL1.
  destruct (negb (rc1 =? 0)).
  { change (ELDTSYN <=? 0) with true. cbn iota. by intros [= <- <- <-]. }
  set (sgm1 := set_s_offset_pair _ sgm).
  destruct (_ <=? 0); [by intros [= <- <- <-]|].
  unfold sync_index. destruct (os_msync (index sgm1) _ _ w1) as [rc2 w2] eqn:E2.
  assert (Hat1 : attached w1 dir off sgm1) by (by eapply attached_same).
  destruct (attached_covers _ _ _ _ Hat1) as [_ Hci].
  pose proof (msync_lengths _ _ _ _ _ _ Hci E2) as HL2.
  assert (same_lengths w w2) by (by eapply same_lengths_trans).
  destruct (negb (rc2 =? 0)); by intros [= <- <- <-].
Qed.

Lemma sized_exact sz c : zlen c = sz → sized sz (Some c) = c.
Proof using Type. destruct c; [|done]. by intros <-. Qed.

Lemma take_index_bytes ps n k :
  index_entry_size * zlen ps ≤ Z.of_nat n → Z.of_nat n ≤ index_entry_size * zlen ps + k →
  take n (index_bytes ps ++ zeros k) =
    index_bytes ps ++ zeros (Z.of_nat n - index_entry_size * zlen ps).
Proof using Type.
  intros Hn Hk. pose proof (zlen_index_bytes ps). rewrite take_app, take_ge by lia. f_equal.
  set (j := Z.of_nat n - _). rewrite (zeros_split j k) by lia.
  replace (n - length (index_bytes ps))%nat with (length (zeros j)) by (rewrite length_zeros; lia).
  apply take_app_length.
Qed.

(** A close that returns 0 has written both mappings to their files and given
    everything back. *)
Lemma segment_close_held dir off a sgm w sgm' w' :
  attached w dir off sgm → segment_close a sgm w = (0, sgm', w') →
  (∃ fs n, Z.of_nat n = calculate_index_size (size sgm) ∧ v_files (ps_view w') =
    <[path_in dir (index_name off) := take n (r_mem (index sgm))]> (<[path_in dir (data_name off) := r_mem (buffer sgm)]> fs)) ∧
  held w' = (delete (index_fd sgm) (delete (data_fd sgm) (v_fds (ps_view w))),
             delete (r_base (index sgm)) (delete (r_base (buffer sgm)) (v_maps (ps_view w))),
             v_blocks (ps_view w) ∖ {[a]}, v_dirs (ps_view w)).
Proof using All.
  intros Hat. unfold segment_close. destruct (segment_sync sgm w) as [[rc s1] w1] eqn:Es.
  destruct (segment_sync_view _ _ _ _ _ _ _ Hat Es) as (HL & Hb & Hi & Hs & Hdf & Hif).
  assert (Hat1 := attached_same _ _ _ _ _ _ Hat HL Hb Hi Hs).
  destruct (Z.ltb_spec rc 0); [intros [= -> _ _]; lia|]. intros [= _ <-].
  pose proof (unmap_data _ _ _ _ Hat1) as Hn.
  destruct Hat1 as [Hbf Hixf Hne Hbm Him (c & Hc & Hcl) (c' & Hc' & Hcl') Hmem Himem _].
  rewrite Hb, Hi, Hs, ?Hdf, ?Hif in *.
  set (pi := path_in dir (index_name off)) in *. set (pd := path_in dir (data_name off)) in *.
  set (w2 := do_munmap (buffer sgm) _ w1). set (w3 := do_munmap (index sgm) _ w2).
  assert (Hv2 : ps_view w2 = view_files (<[pd := r_mem (buffer sgm)]>) (view_maps (delete (r_base (buffer sgm))) (ps_view w1))).
  { unfold w2. rewrite (do_munmap_view _ _ _ pd) by done. unfold view_files at 1. simpl.
    rewrite (write_back_ok _ _ _ _ _ Hbm Hc). by rewrite take_ge by lia. }
  assert (Hv3 : ps_view w3 = view_files (λ fs, <[pi := take (length c') (r_mem (index sgm))]> (<[pd := r_mem (buffer sgm)]> fs))
    (view_maps (λ m, delete (r_base (index sgm)) (delete (r_base (buffer sgm)) m)) (ps_view w1))).
  { unfold w3. rewrite (do_munmap_view _ _ _ pi); rewrite ?Hv2; [|done| |done].
    2:{ simpl. by rewrite lookup_delete_ne. }
    unfold view_files at 1. simpl. rewrite (write_back_ok _ _ _ pi c'); [done|by rewrite lookup_delete_ne|].
    rewrite lookup_insert_ne by (apply not_eq_sym, paths_ne). done. }
  split.
  - exists (v_files (ps_view w1)), (length c'). split; [done|]. by rewrite os_free_view, !do_close_view, Hv3.
  - destruct HL as [Hh _]. unfold held in *. injection Hh as Hf1 Hm1 Hb1 Hd1.
    rewrite os_free_view, !do_close_view, Hv3. simpl. by rewrite Hf1, Hm1, Hb1, Hd1.
Qed.

(** What it leaves is the payloads on disk. *)
Lemma segment_close_stored dir off sz a sgm w ps eos sgm' w' :
  attached w dir off sgm → seg_inv sgm ps eos → ps ≠ [] ∨ eos = false → size sgm = sz →
  index_entry_size * (zlen ps + 1) ≤ calculate_index_size sz →
  segment_close a sgm w = (0, sgm', w') → stored w' dir off sz ps.
Proof using All.
  intros Hat I Hps Hsz Hslot Hclose.
  destruct (segment_close_held _ _ _ _ _ _ _ Hat Hclose) as [(fs & n & Hn & Hfiles) _]. rewrite Hsz in Hn.
  pose proof (attached_index _ _ _ _ Hat) as Himem. rewrite Hsz in Himem.
  assert (Hdat : data_on_disk w' dir off sz = r_mem (buffer sgm)).
  { unfold data_on_disk. rewrite Hfiles, lookup_insert_ne, lookup_insert_eq by apply paths_ne.
    apply sized_exact. by rewrite (inv_len _ _ _ I). }
  assert (Hix : index_on_disk w' dir off sz =
    index_bytes ps ++ zeros (calculate_index_size sz - index_entry_size * zlen ps)).
  { unfold index_on_disk. rewrite Hfiles, lookup_insert_eq, sized_exact by (rewrite length_take; lia).
    rewrite (inv_index _ _ _ I), <- Hn. unfold index_entry_size in *. apply take_index_bytes; unfold index_entry_size; lia. }
  pose proof (inv_used _ _ _ I) as Hu. pose proof (inv_room _ _ _ I) as Hr.
  split; rewrite ?Hdat; try done.
  - by rewrite (inv_len _ _ _ I).
  - exact (inv_frames _ _ _ I).
  - intros ->. destruct Hps as [| ->]; [done|]. by apply (inv_fresh _ _ _ I).
  - unfold used in *. rewrite Hsz in *. destruct eos; [lia|]. specialize (Hr eq_refl). lia.
Qed.

End stored.

(** ** A concrete run: a data file of the wrong size *)

Definition torn_world : mem_os := mo_boot {[ "/log/0.log"%string := zeros 100 ]}.
Definition torn_open : result (Z * option (Z * segment) * mem_os) :=
  segment_open "/log" 0 4096 0 torn_world.
Definition torn_after : mem_os := match torn_open with Ok (_, _, w) => w | _ => torn_world end.

Lemma segment_open_releases_witness :
  torn_open = Ok (ELFLEOP, None, torn_after) ∧ ELFLEOP ≠ 0 ∧ held torn_after = held torn_world.
Proof.
  assert (H : torn_open = Ok (ELFLEOP, None, torn_after)) by (by vm_compute).
  split; [exact H|].
  apply (segment_open_releases "/log" 0 4096 0 torn_world ELFLEOP None torn_after);
    [lia|done|exact H].
Defined.
