(* ===== verification/SegmentDurable.v ===== *)
(** * Segment files: what a reopened segment holds

    Sessions of writes and syncs on an open segment, and the files they leave
    once the segment is closed. *)

From S2P Require Import Prelude Errno Crc32 Prot Posix Util MemOs Segment SegmentInv SegmentOps SegmentSpec SegmentFile SegmentFileSpec.

(** ** Sessions *)

Inductive action := Append (p : bytes) | Flush.

(** The codes of the writes, in order. *)
Fixpoint session {W} `{!Posix W} (acts : list action) (sgm : segment) (w : W)
    : result (list Z * segment * W) :=
  match acts with
  | [] => Ok ([], sgm, w)
  | Append p :: acts =>
    '(rc, sgm) ← segment_write sgm p;
    '(rs, sgm, w) ← session acts sgm w;
    Ok (rc :: rs, sgm, w)
  | Flush :: acts => let '(_, sgm, w) := segment_sync sgm w in session acts sgm w
  end.

(** The same on a queue: a sync does not show. *)
Fixpoint appended (cap : Z) (acts : list action) (q : queue) : list Z * queue :=
  match acts with
  | [] => ([], q)
  | Append p :: acts =>
    let '(rc, q) := queue_write cap q p in
    let '(rs, q) := appended cap acts q in (rc :: rs, q)
  | Flush :: acts => appended cap acts q
  end.

Definition action_ok (a : action) : Prop :=
  match a with Append p => zlen p < 2 ^ 63 ∧ forges p = false | Flush => True end.

(** The index file has a free slot after those of [n] payloads. *)
Definition slots (sz n : Z) : Prop := index_entry_size * (n + 1) ≤ calculate_index_size sz.

Lemma queue_write_grows cap q p :
  zlen (q_items q) ≤ zlen (q_items (queue_write cap q p).2).
Proof.
  unfold queue_write. repeat case_match; simpl; rewrite ?length_app; lia.
Qed.

Lemma appended_grows cap acts q : zlen (q_items q) ≤ zlen (q_items (appended cap acts q).2).
Proof.
  revert q. induction acts as [|[p|] acts IH]; intros q; simpl; [done| |apply IH].
  pose proof (queue_write_grows cap q p) as H. destruct (queue_write cap q p) as [rc q'].
  specialize (IH q'). destruct (appended cap acts q'). simpl in *. lia.
Qed.

(** A write that fits adds one item. *)
Lemma queue_write_fits sgm ps p :
  fits sgm ps p → queue_write (size sgm) (Queue ps false) p = (zlen p, Queue (ps ++ [p]) false).
Proof.
  unfold fits, queue_write, q_free. rewrite used_false. cbn [q_items q_closed]. intros H.
  by rewrite (proj2 (Z.ltb_ge _ _)) by size_lia.
Qed.

(** A reopened segment, synced up to where it is written, reads in full
    whatever its flags. *)
Lemma read_recovered sgm ps i :
  seg_inv sgm ps false → s_offset_pair sgm = w_offset_pair sgm →
  read_payload sgm i = Ok (queue_read (Queue ps false) i).
Proof.
  intros I Hs. apply (read_payload_below _ _ _ I). unfold read_boundary.
  rewrite Hs, (inv_w _ _ _ I). cbn [op_data]. rewrite used_false. by destruct (_ =? _).
Qed.

Section sessions.
Context {W : Type} `{!Posix W, !PosixLaws W}.
Implicit Types w : W.

(** What a session keeps: the segment, apart from its contents and offsets. *)
Record carried (a b : segment) : Prop := {
  car_size : size b = size a;
  car_flags : flags b = flags a;
  car_index_fd : index_fd b = index_fd a;
  car_data_fd : data_fd b = data_fd a;
  car_buffer : r_base (buffer b) = r_base (buffer a);
  car_index : r_base (index b) = r_base (index a)
}.

#[local] Instance carried_preorder : PreOrder carried.
Proof using Type.
  split.
  - by intros a.
  - intros a b c [] []. split; congruence.
Qed.

Lemma same_carried a b : same_segment a b → carried a b.
Proof using Type. by intros []. Qed.

Lemma attached_write w dir off sgm sgm' ps eos :
  attached w dir off sgm → seg_inv sgm' ps eos → same_segment sgm sgm' → attached w dir off sgm'.
Proof using Type.
  intros [] I []. pose proof (inv_len _ _ _ I) as Hl.
  assert (Hsz : size sgm' = size sgm) by done. split; rewrite ?Hsz; congruence || done.
Qed.

(** A sync that returns a code from 0 on has raised the synced offset to what
    was written; another one raised it or left it. *)
Lemma sync_raises sgm w rc sgm' w' :
  segment_sync sgm w = (rc, sgm', w') →
  op_data (s_offset_pair sgm') = op_data (w_offset_pair sgm) ∨
  rc < 0 ∧ s_offset_pair sgm' = s_offset_pair sgm.
Proof using Type.
  intros H. unfold segment_sync, sync_data, sync_index in H.
  repeat (case_match; simplify_eq; try (by left; simpl)). all: by right.
Qed.

(** A sync touches the synced offsets only. *)
Lemma sync_inv sgm w rc sgm' w' ps eos :
  segment_sync sgm w = (rc, sgm', w') → seg_inv sgm ps eos →
  seg_inv sgm' ps eos ∧ same_segment sgm sgm'.
Proof using Type.
  intros H I. unfold segment_sync, sync_data, sync_index in H.
  repeat (case_match; simplify_eq; try (by split)); split; try (by split); destruct I; by split.
Qed.

Lemma session_ok acts dir off sgm ps eos w :
  attached w dir off sgm → seg_inv sgm ps eos → forged_eos ps = false →
  Forall action_ok acts →
  let '(rs, q) := appended (size sgm) acts (Queue ps eos) in
  slots (size sgm) (zlen (q_items q)) →
  ∃ sgm' w', session acts sgm w = Ok (rs, sgm', w') ∧ seg_inv sgm' (q_items q) (q_closed q) ∧
    attached w' dir off sgm' ∧ held w' = held w ∧ carried sgm sgm'.
Proof using All.
  revert sgm ps eos w. induction acts as [|[p|] acts IH]; intros sgm ps eos w Hat I Hf Hacts;
    cbn [appended session].
  - intros _. exists sgm, w. split_and!; done.
  - apply Forall_cons in Hacts as [[Hp Hfp] Hacts].
    destruct (appended (size sgm) (Append p :: acts) (Queue ps eos)) as [rs0 q0] eqn:Hq0.
    destruct (queue_write (size sgm) (Queue ps eos) p) as [rc q] eqn:Hqw.
    pose proof (appended_grows (size sgm) acts q) as Hgrow.
    destruct (appended (size sgm) acts q) as [rs q'] eqn:Hq. simpl in Hgrow. intros Hslots.
    assert (Hix : eos = false → fits sgm ps p → index_fits sgm ps).
    { intros -> Hfit. rewrite (queue_write_fits _ _ _ Hfit) in Hqw. injection Hqw as <- <-.
      cbn [q_items] in Hgrow. rewrite length_app in Hgrow. cbn [length] in Hgrow.
      unfold index_fits, slots in *. pose proof (attached_index _ _ _ _ Hat).
      unfold index_entry_size in *. lia. }
    pose proof (write_simulates sgm ps eos p I Hf Hix Hp Hfp) as H. rewrite Hqw in H.
    destruct H as (sgm1 & Hw & I1 & Hf1 & Hs). run Hw.
    pose proof (same_size _ _ Hs) as Hsz.
    specialize (IH sgm1 (q_items q) (q_closed q) w (attached_write _ _ _ _ _ _ _ Hat I1 Hs) I1 Hf1 Hacts).
    replace (Queue (q_items q) (q_closed q)) with q in IH by (by destruct q). rewrite Hsz, Hq in IH.
    destruct (IH Hslots) as (sgm' & w' & Hses & I' & Hat' & Hh & Hcar). run Hses.
    exists sgm', w'. split_and!; try done. by rewrite <- Hcar, (same_carried _ _ Hs).
  - apply Forall_cons in Hacts as [_ Hacts].
    destruct (segment_sync sgm w) as [[rc sgm1] w1] eqn:Es.
    destruct (segment_sync_view _ _ _ _ _ _ _ Hat Es) as (HL & Hb & Hi & Hsz & _).
    destruct (sync_inv _ _ _ _ _ _ _ Es I) as [I1 Hs].
    pose proof (attached_same _ _ _ _ _ _ Hat HL Hb Hi Hsz) as Hat1.
    specialize (IH sgm1 ps eos w1 Hat1 I1 Hf Hacts). rewrite Hsz in IH.
    destruct (appended (size sgm) acts (Queue ps eos)) as [rs q]. intros Hslots.
    destruct (IH Hslots) as (sgm' & w' & Hses & I' & Hat' & Hh & Hcar).
    exists sgm', w'. split_and!; try done.
    + by rewrite Hh, (proj1 HL).
    + by rewrite <- Hcar, (same_carried _ _ Hs).
Qed.
(** What the two paths of an open segment are. *)
Lemma acquires_released w w' a sgm sgm' pi pd w3 w4 :
  acquires w w' a sgm pi pd → held w3 = held w' → carried sgm sgm' →
  held w4 = (delete (index_fd sgm') (delete (data_fd sgm') (v_fds (ps_view w3))),
             delete (r_base (index sgm')) (delete (r_base (buffer sgm')) (v_maps (ps_view w3))),
             v_blocks (ps_view w3) ∖ {[a]}, v_dirs (ps_view w3)) →
  held w4 = held w.
Proof using Type.
  intros [Hh Hi Hd Him Hdm Ha] Hh3 [_ _ -> -> -> ->] ->. rewrite Hh in Hh3. injection Hh3 as -> -> -> ->.
  rewrite !delete_insert_id by done. by rewrite free_fresh.
Qed.

(** The descriptors of a new segment are not those of the process. *)
Lemma acquires_stdin w w' a sgm pi pd :
  acquires w w' a sgm pi pd → is_Some (v_fds (ps_view w) !! 0) →
  index_fd sgm ≠ 0 ∧ data_fd sgm ≠ 0 ∧ is_Some (v_fds (ps_view w') !! 0).
Proof using Type.
  intros [Hh Hif Hdf _ _ _] H0. unfold held in Hh. injection Hh as -> _ _ _.
  assert (Hif0 : index_fd sgm ≠ 0) by (intros Heq; rewrite Heq in Hif; destruct H0; congruence).
  assert (Hdf0 : data_fd sgm ≠ 0).
  { intros Heq. rewrite Heq, lookup_insert_ne in Hdf by done. destruct H0; congruence. }
  split; [done|]. split; [done|]. by rewrite !lookup_insert_ne.
Qed.

(** [C12]: What is written is there after a restart: a segment opened over
    stored files takes any session of writes and syncs as the queue does,
    without undefined behaviour; when closing it returns 0, the files hold the
    payloads, the process holds the descriptors, mappings and blocks it held
    before the open, and opening the files again gives a segment that reads
    every payload back, or fails with an error of the system. Assumed: the
    index file has a free slot after the last payload of the session (else the
    open fails with [ELWOFFS]); no payload imitates an end mark; the session
    does not leave a segment with nothing but its end mark; descriptor 0 is
    open (the error paths do not close it); the size is a multiple of the page
    size below 2^32, the base offset below 2^63 - 2^32, the directory name has
    1 to 200 characters. *)
Theorem segment_reopens dir off sz fl fl' ps acts w a sgm w1 :
  dir_ok dir → stored w dir off sz ps → is_Some (v_fds (ps_view w) !! 0) →
  0 ≤ sz < 2 ^ 32 → sz mod os_pagesize = 0 → 0 ≤ off < 2 ^ 63 - 2 ^ 32 →
  Forall (λ p, forges p = false) ps → Forall action_ok acts →
  segment_open dir off sz fl w = Ok (0, Some (a, sgm), w1) →
  let '(rs, q) := appended sz acts (Queue ps false) in
  slots sz (zlen (q_items q)) → q_items q ≠ [] ∨ q_closed q = false →
  ∃ sgm' w2, session acts sgm w1 = Ok (rs, sgm', w2) ∧
    ∀ s w3, segment_close a sgm' w2 = (0, s, w3) →
      stored w3 dir off sz (q_items q) ∧ held w3 = held w ∧
      ∃ rc o w4, segment_open dir off sz fl' w3 = Ok (rc, o, w4) ∧
        match o with
        | Some (_, sgm2) => rc = 0 ∧ segment_write_offset sgm2 = off + zlen (q_items q) ∧
            ∀ i, read_payload sgm2 i = Ok (queue_read (Queue (q_items q) false) i)
        | None => rc ∈ [ELALLC; ELFLEOP; ELMMAP; ELMADV]
        end.
Proof using All.
  intros Hdir Hst H0 Hsz Hmod Hoff Hfp Hacts Hopen.
  destruct (segment_open_stored dir off sz fl w ps Hdir Hst Hsz Hmod Hoff) as (rc & o & w' & Ho & Hs).
  rewrite Hopen in Ho. injection Ho as <- <- <-.
  destruct Hs as (_ & I & Hat & Hsize & _ & _ & _).
  pose proof (session_ok acts dir off sgm ps false w1 Hat I (forged_all _ Hfp) Hacts) as Hses.
  rewrite Hsize in Hses. destruct (appended sz acts (Queue ps false)) as [rs q]. intros Hslots Hq.
  destruct (Hses Hslots) as (sgm' & w2 & Hr & I' & Hat' & Hh2 & Hcar).
  exists sgm', w2. split; [done|]. intros s w3 Hclose.
  assert (Hsize' : size sgm' = sz) by (by rewrite (car_size _ _ Hcar)).
  pose proof (segment_close_stored _ _ _ _ _ _ _ _ _ _ Hat' I' Hq Hsize' Hslots Hclose) as Hst3.
  destruct (segment_close_held _ _ _ _ _ _ _ Hat' Hclose) as [_ Hh3].
  split; [done|]. split.
  { apply segment_open_held in Hopen as (_ & pi & pd & _ & _ & Hacq); [|done|done].
    by eapply acquires_released. }
  destruct (segment_open_stored dir off sz fl' w3 _ Hdir Hst3 Hsz Hmod Hoff) as (rc & o & w4 & Ho & Hs).
  exists rc, o, w4. split; [done|]. destruct o as [[a2 sgm2]|]; [|done].
  destruct Hs as (-> & I2 & _ & Hsz2 & Hb2 & _ & Hsw). split; [done|]. split.
  - unfold segment_write_offset. rewrite Hb2, (inv_w _ _ _ I2). cbn [op_index].
    pose proof (inv_used _ _ _ I2). pose proof (frames_length (q_items q)). rewrite used_false in *.
    rewrite u64_small; size_lia.
  - intros i. by apply read_recovered.
Qed.
End sessions.

(** ** A concrete run *)

Definition demo_world : mem_os := mo_boot ∅.

Lemma stored_fresh {W} `{!Posix W, !PosixLaws W} (w : W) dir off sz :
  v_files (ps_view w) !! path_in dir (data_name off) = None →
  v_files (ps_view w) !! path_in dir (index_name off) = None →
  header_size ≤ sz → slots sz 0 → stored w dir off sz [].
Proof.
  intros Hd Hi Hsz Hslots. unfold slots in Hslots. split; unfold data_on_disk, index_on_disk; rewrite ?Hd, ?Hi; cbn.
  - len.
  - apply prefix_nil.
  - intros _. unfold prot_is_header. run get_flags_zeros by size_lia. done.
  - size_lia.
  - f_equal. lia.
  - done.
Qed.

Definition demo_opened : result (Z * option (Z * segment) * mem_os) :=
  segment_open "/log" 0 4096 SGM_RDDRT demo_world.
Definition opened_addr (r : result (Z * option (Z * segment) * mem_os)) : Z :=
  match r with Ok (_, Some (a, _), _) => a | _ => 0 end.
Definition opened_segment (r : result (Z * option (Z * segment) * mem_os)) : segment :=
  match r with Ok (_, Some (_, sgm), _) => sgm | _ => demo end.
Definition opened_world (r : result (Z * option (Z * segment) * mem_os)) : mem_os :=
  match r with Ok (_, _, w) => w | _ => demo_world end.
Definition demo_acts : list action := [Append abc; Flush; Append abc; Append []].
Definition demo_session : result (list Z * segment * mem_os) :=
  session demo_acts (opened_segment demo_opened) (opened_world demo_opened).
Definition demo_closed : Z * segment * mem_os :=
  match demo_session with
  | Ok (_, sgm, w) => segment_close (opened_addr demo_opened) sgm w
  | _ => (-1, demo, demo_world)
  end.


Lemma demo_segment_opened :
  demo_opened = Ok (0, Some (opened_addr demo_opened, opened_segment demo_opened),
                    opened_world demo_opened).
Proof. by vm_compute. Qed.

Lemma segment_reopens_witness :
  demo_closed.1.1 = 0 ∧
  ∃ sgm' w2, demo_session = Ok ([3; 3; 0], sgm', w2) ∧
    ∀ s w3, segment_close (opened_addr demo_opened) sgm' w2 = (0, s, w3) →
      stored w3 "/log" 0 4096 [abc; abc; []] ∧ held w3 = held demo_world ∧
      ∃ rc o w4, segment_open "/log" 0 4096 SGM_RDCMT w3 = Ok (rc, o, w4) ∧
        match o with
        | Some (_, sgm2) => rc = 0 ∧ segment_write_offset sgm2 = 0 + 3 ∧
            ∀ i, read_payload sgm2 i = Ok (queue_read (Queue [abc; abc; []] false) i)
        | None => rc ∈ [ELALLC; ELFLEOP; ELMMAP; ELMADV]
        end.
Proof.
  split; [by vm_compute|].
  apply (segment_reopens "/log" 0 4096 SGM_RDDRT SGM_RDCMT [] demo_acts demo_world _ _ _).
  - split; [done|]. simpl. lia.
  - apply stored_fresh; done.
  - done.
  - lia.
  - done.
  - lia.
  - done.
  - repeat constructor.
  - apply demo_segment_opened.
  - done.
  - by left.
Defined.
