(* ===== verification/SegmentFrame.v ===== *)
(** * Segment files: what a call on one segment leaves alone

    The files of a segment are named after its base offset, so that the calls
    on one segment do not touch the files, mappings and contents of another. *)

From S2P Require Import Prelude Errno Prot Posix Util Segment SegmentInv SegmentOps SegmentFile SegmentFileSpec SegmentDurable.

(** ** Names *)

Lemma append_inj_tail s1 : ∀ s2 t1 t2,
  (s1 +:+ t1 = s2 +:+ t2)%string → String.length t1 = String.length t2 → s1 = s2 ∧ t1 = t2.
Proof.
  induction s1 as [|c s1 IH]; intros [|c2 s2] t1 t2 Heq Hl; [done|..].
  - apply (f_equal String.length) in Heq. rewrite !string_length_app in Heq. simpl in Heq. lia.
  - apply (f_equal String.length) in Heq. rewrite !string_length_app in Heq. simpl in Heq. lia.
  - injection Heq as -> Heq. by destruct (IH _ _ _ Heq Hl) as [-> ->].
Qed.

Lemma print_jd_inj n m : 0 ≤ n < 2 ^ 64 → 0 ≤ m < 2 ^ 64 → print_jd n = print_jd m → n = m.
Proof.
  intros Hn Hm Heq. by rewrite <- (strtoll_print_jd n "" Hn), Heq, strtoll_print_jd.
Qed.

Lemma substring_tail s : ∀ t, String.substring (String.length s) (String.length t) (s +:+ t) = t.
Proof.
  induction s as [|c s IH]; intros t; [by apply substring_all|]. exact (IH t).
Qed.

Lemma has_suffix_app s t : has_suffix (s +:+ t) t = true.
Proof.
  unfold has_suffix. rewrite string_length_app. rewrite (proj2 (Nat.ltb_ge _ _)) by lia.
  replace (_ - _)%nat with (String.length s) by lia. rewrite substring_tail. by apply bool_decide_true.
Qed.

Lemma has_suffix_other s t u :
  String.length t = String.length u → t ≠ u → has_suffix (s +:+ t) u = false.
Proof.
  intros Hl Hne. unfold has_suffix. rewrite string_length_app, <- Hl.
  rewrite (proj2 (Nat.ltb_ge _ _)) by lia.
  replace (_ - _)%nat with (String.length s) by lia. rewrite substring_tail. by apply bool_decide_false.
Qed.

(** [C40]: The names of the files of a segment determine its base offset, over
    the whole range of 64 bits (a name is negative from 2^63 on): the suffix
    test of [load_segments] recognises the data file and not the index file,
    and [strtoll], as the C standard defines it, reads back from the name the
    offset the file was created for. *)
Theorem segment_names_roundtrip off :
  0 ≤ off < 2 ^ 64 →
  ∃ data_name index_name, data_filename 64 off = (0, data_name) ∧
    index_filename 64 off = (0, index_name) ∧
    has_suffix data_name ".log" = true ∧ has_suffix index_name ".log" = false ∧
    u64 (strtoll data_name) = off.
Proof.
  intros Hoff. exists (data_name off), (index_name off).
  split; [apply data_filename_ok|]. split; [apply index_filename_ok|].
  split; [apply has_suffix_app|]. split; [by apply has_suffix_other|]. by apply strtoll_print_jd.
Qed.

Section paths.
Context (dir : string) (off off' : Z) (Ho : 0 ≤ off < 2 ^ 64) (Ho' : 0 ≤ off' < 2 ^ 64).

Lemma data_path_inj : path_in dir (data_name off) = path_in dir (data_name off') → off = off'.
Proof using Ho Ho'. intros [H _]%path_in_inj%append_inj_tail; [|done]. by apply print_jd_inj. Qed.

Lemma index_path_inj : path_in dir (index_name off) = path_in dir (index_name off') → off = off'.
Proof using Ho Ho'. intros [H _]%path_in_inj%append_inj_tail; [|done]. by apply print_jd_inj. Qed.

Lemma data_index_ne : path_in dir (data_name off) ≠ path_in dir (index_name off').
Proof using Type. by intros [_ H]%path_in_inj%append_inj_tail. Qed.
End paths.

Section frame.
Context {W : Type} `{!Posix W, !PosixLaws W}.
Implicit Types w : W.

(** ** One segment's files *)

(** Only the files of the segment at [off] change. *)
Definition elsewhere (dir : string) (off : Z) w w' : Prop :=
  ∀ q, q ≠ path_in dir (data_name off) → q ≠ path_in dir (index_name off) →
    v_files (ps_view w') !! q = v_files (ps_view w) !! q.

(** They change only by being created and filled with zeros. *)
Definition touched (dir : string) (off sz : Z) w w' : Prop :=
  elsewhere dir off w w' ∧ data_on_disk w' dir off sz = data_on_disk w dir off sz ∧
  index_on_disk w' dir off sz = index_on_disk w dir off sz.

#[export] Instance elsewhere_preorder dir off : PreOrder (elsewhere dir off).
Proof using Type.
  split; [done|]. intros w1 w2 w3 H1 H2 q Hd Hi. by rewrite H2, H1.
Qed.

#[export] Instance touched_preorder dir off sz : PreOrder (touched dir off sz).
Proof using Type.
  split; [done|]. intros w1 w2 w3 (He1 & Hd1 & Hi1) (He2 & Hd2 & Hi2).
  split; [by transitivity w2|]. split; congruence.
Qed.

Lemma touched_files dir off sz w w' :
  v_files (ps_view w') = v_files (ps_view w) → touched dir off sz w w'.
Proof using Type.
  intros Hf. unfold touched, elsewhere, data_on_disk, index_on_disk. by rewrite Hf.
Qed.

Lemma touched_index dir off sz w w' :
  same_but (path_in dir (index_name off)) (calculate_index_size sz)
    (v_files (ps_view w)) (v_files (ps_view w')) → touched dir off sz w w'.
Proof using Type.
  intros [Hne Hs]. split; [by intros q _ Hq; apply Hne|]. split; [|exact Hs].
  unfold data_on_disk. by rewrite Hne by (apply not_eq_sym, paths_ne).
Qed.

Lemma touched_data dir off sz w w' :
  same_but (path_in dir (data_name off)) sz (v_files (ps_view w)) (v_files (ps_view w')) →
  touched dir off sz w w'.
Proof using Type.
  intros [Hne Hs]. split; [by intros q Hq _; apply Hne|]. split; [exact Hs|].
  unfold index_on_disk. by rewrite Hne by apply paths_ne.
Qed.

Lemma stored_same w w' dir off sz ps :
  data_on_disk w' dir off sz = data_on_disk w dir off sz →
  index_on_disk w' dir off sz = index_on_disk w dir off sz →
  stored w dir off sz ps → stored w' dir off sz ps.
Proof using Type. intros Hd Hi []. split; rewrite ?Hd, ?Hi; done. Qed.

(** Stored segments at other offsets stay. *)
Lemma stored_elsewhere w w' dir off off' sz ps :
  elsewhere dir off w w' → off ≠ off' → 0 ≤ off < 2 ^ 64 → 0 ≤ off' < 2 ^ 64 →
  stored w dir off' sz ps → stored w' dir off' sz ps.
Proof using Type.
  intros He Hne Ho Ho'. apply stored_same; unfold data_on_disk, index_on_disk; rewrite He; try done.
  - by intros H%data_path_inj.
  - apply data_index_ne.
  - apply not_eq_sym, data_index_ne.
  - by intros H%index_path_inj.
Qed.

Lemma stored_touched w w' dir off off' sz ps :
  touched dir off sz w w' → 0 ≤ off < 2 ^ 64 → 0 ≤ off' < 2 ^ 64 →
  stored w dir off' sz ps → stored w' dir off' sz ps.
Proof using Type.
  intros (He & Hd & Hi) Ho Ho'. destruct (decide (off = off')) as [<-|]; [by apply stored_same|].
  by apply (stored_elsewhere _ _ _ off).
Qed.

(** No mapping of other files goes. *)
Definition keeps_maps (dir : string) (off : Z) w w' : Prop :=
  ∀ k p, v_maps (ps_view w) !! k = Some p → p ≠ path_in dir (data_name off) →
    p ≠ path_in dir (index_name off) → v_maps (ps_view w') !! k = Some p.

(** Open segments at other offsets stay. *)
Lemma attached_elsewhere w w' dir off off' sgm :
  elsewhere dir off w w' → keeps_maps dir off w w' → off ≠ off' →
  0 ≤ off < 2 ^ 64 → 0 ≤ off' < 2 ^ 64 → attached w dir off' sgm → attached w' dir off' sgm.
Proof using Type.
  intros He Hm Hne Ho Ho' [].
  assert (Hd : path_in dir (data_name off') ≠ path_in dir (data_name off)).
  { intros H%data_path_inj; [|done..]. by subst off'. }
  assert (Hi : path_in dir (index_name off') ≠ path_in dir (index_name off)).
  { intros H%index_path_inj; [|done..]. by subst off'. }
  assert (Hdi : path_in dir (data_name off') ≠ path_in dir (index_name off)) by apply data_index_ne.
  assert (Hid : path_in dir (index_name off') ≠ path_in dir (data_name off))
    by (apply not_eq_sym, data_index_ne).
  split; rewrite ?He by done; eauto.
Qed.

(** ** Sync *)

Lemma msync_elsewhere r a n w rc w' p c q :
  v_maps (ps_view w) !! r_base r = Some p → v_files (ps_view w) !! p = Some c →
  os_msync r a n w = (rc, w') → q ≠ p → v_files (ps_view w') !! q = v_files (ps_view w) !! q.
Proof using Type.
  intros Hm Hc E Hq. apply (law_msync _ _ _ _ _ _ _ _ Hm Hc) in E.
  destruct (rc =? 0); [|destruct E as (c' & _ & E)]; rewrite E; simpl; by apply lookup_insert_ne.
Qed.

Lemma segment_sync_elsewhere dir off sgm w rc sgm' w' :
  attached w dir off sgm → segment_sync sgm w = (rc, sgm', w') → elsewhere dir off w w'.
Proof using All.
  intros Hat. destruct (attached_covers _ _ _ _ Hat) as [Hcb _].
  unfold segment_sync, sync_data.
  destruct (os_msync (buffer sgm) _ _ w) as [rc1 w1] eqn:E1.
  pose proof (msync_lengths _ _ _ _ _ _ Hcb E1) as HL1.
  assert (He1 : elsewhere dir off w w1).
  { destruct (at_data_file _ _ _ _ Hat) as (c & Hc & _). intros q Hq _.
    exact (msync_elsewhere _ _ _ _ _ _ _ _ q (at_data_map _ _ _ _ Hat) Hc E1 Hq). }
  destruct (negb (rc1 =? 0)).
  { change (ELDTSYN <=? 0) with true. cbn iota. by intros [= <- <- <-]. }
  set (sgm1 := set_s_offset_pair _ sgm).
  assert (Hat1 : attached w1 dir off sgm1) by (by eapply attached_same).
  destruct (_ <=? 0); [by intros [= <- <- <-]|].
  unfold sync_index. destruct (os_msync (index sgm1) _ _ w1) as [rc2 w2] eqn:E2.
  assert (He2 : elsewhere dir off w1 w2).
  { destruct (at_index_file _ _ _ _ Hat1) as (c & Hc & _). intros q _ Hq.
    exact (msync_elsewhere _ _ _ _ _ _ _ _ q (at_index_map _ _ _ _ Hat1) Hc E2 Hq). }
  destruct (negb (rc2 =? 0)); intros [= <- <- <-]; by transitivity w1.
Qed.

(** ** Close *)

Lemma munmap_elsewhere r n w p q :
  r_base r ≠ MAP_FAILED → v_maps (ps_view w) !! r_base r = Some p →
  page_round os_pagesize n = zlen (r_mem r) → q ≠ p →
  v_files (ps_view (do_munmap r n w)) !! q = v_files (ps_view w) !! q.
Proof using Type.
  intros Hf Hm Hn Hq. rewrite (do_munmap_view _ _ _ p) by done. simpl. unfold write_back. rewrite Hm.
  destruct (v_files (ps_view w) !! p); [|done]. by apply lookup_insert_ne.
Qed.

Lemma segment_close_elsewhere dir off sgm a w rc sgm' w' :
  attached w dir off sgm → segment_close a sgm w = (rc, sgm', w') →
  elsewhere dir off w w' ∧ keeps_maps dir off w w' ∧ (rc = 0 ∨ rc < 0).
Proof using All.
  intros Hat. unfold segment_close. destruct (segment_sync sgm w) as [[rc1 s1] w1] eqn:Es.
  pose proof (segment_sync_elsewhere _ _ _ _ _ _ _ Hat Es) as He1.
  destruct (segment_sync_view _ _ _ _ _ _ _ Hat Es) as ([Hh HL] & Hb & Hi & Hs & _).
  assert (Hat1 : attached w1 dir off s1) by (by eapply attached_same).
  unfold held in Hh. injection Hh as _ Hm1 _ _.
  destruct (Z.ltb_spec rc1 0); intros [= <- <- <-].
  { split; [done|]. split; [|by right]. intros k p. by rewrite Hm1. }
  pose proof (unmap_data _ _ _ _ Hat1) as Hn.
  destruct Hat1 as [Hbf Hif Hne Hbm Him _ _ _ Hl _]. symmetry in Hl. rewrite Hb, Hi, Hs in *.
  set (w2 := do_munmap (buffer sgm) _ _).
  assert (Hv2 : v_maps (ps_view w2) = delete (r_base (buffer sgm)) (v_maps (ps_view w1)))
    by (unfold w2; by rewrite (do_munmap_view _ _ _ _ Hbf Hbm)).
  assert (Him2 : v_maps (ps_view w2) !! r_base (index sgm) = Some (path_in dir (index_name off)))
    by (by rewrite Hv2, lookup_delete_ne).
  split; [|split; [|by left]].
  - intros q Hqd Hqi. rewrite os_free_view, !do_close_view. simpl.
    rewrite (munmap_elsewhere _ _ _ _ _ Hif Him2) by done. unfold w2.
    rewrite (munmap_elsewhere _ _ _ _ _ Hbf Hbm) by done. by apply He1.
  - intros k p Hk Hpd Hpi. rewrite os_free_view, !do_close_view, (do_munmap_view _ _ _ _ Hif Him2) by done. simpl.
    rewrite Hv2. rewrite <- Hm1 in Hk. rewrite !lookup_delete_ne; [done|intros <-; congruence..].
Qed.

(** A close whose sync fails gives nothing back. *)
Lemma segment_close_failed dir off sgm a w rc sgm' w' :
  attached w dir off sgm → segment_close a sgm w = (rc, sgm', w') → rc < 0 → held w' = held w.
Proof using All.
  intros Hat. unfold segment_close. destruct (segment_sync sgm w) as [[rc1 s1] w1] eqn:Es.
  destruct (segment_sync_view _ _ _ _ _ _ _ Hat Es) as ([Hh _] & _).
  destruct (rc1 <? 0); intros [= <- <- <-]; [done|lia].
Qed.

(** ** Open *)

Lemma open_sized_same name dir sz w fd w' p :
  0 ≤ sz → append_file_to_dir 256 dir name.2 = Ok (0, p) → open_sized name dir sz w = Ok (fd, w') →
  same_but p sz (v_files (ps_view w)) (v_files (ps_view w')).
Proof using Type.
  intros Hsz Hp H. apply open_sized_view in H; [|done]. destruct (fd <? 0).
  - destruct H as (_ & _ & _ & _ & Hs). by apply Hs.
  - destruct H as (p' & Hp' & _ & _ & ->). rewrite Hp in Hp'. injection Hp' as <-.
    simpl. apply same_but_sized.
Qed.

(** Unmapping a region that holds its file, padded, changes no file. *)
Lemma munmap_unchanged r n w p c pad :
  r_base r ≠ MAP_FAILED → v_maps (ps_view w) !! r_base r = Some p →
  v_files (ps_view w) !! p = Some c → r_mem r = c ++ pad → page_round os_pagesize n = zlen (r_mem r) →
  v_files (ps_view (do_munmap r n w)) = v_files (ps_view w).
Proof using Type.
  intros Hf Hm Hc Hmem Hn. rewrite (do_munmap_view _ _ _ p) by done. simpl.
  rewrite (write_back_ok _ _ _ _ _ Hm Hc), Hmem, take_app_length. by rewrite insert_id.
Qed.

(** The data file, while the mapped index holds what its file holds. *)
Lemma open_rest_touched dir off sz fl a ifd ix c pad w w3 rc o w' :
  dir_ok dir → 0 ≤ sz < 2 ^ 32 → touched dir off sz w w3 → r_base ix ≠ MAP_FAILED →
  v_maps (ps_view w3) !! r_base ix = Some (path_in dir (index_name off)) →
  v_files (ps_view w3) !! path_in dir (index_name off) = Some c → r_mem ix = c ++ pad →
  page_round os_pagesize (calculate_index_size sz) = zlen (r_mem ix) →
  open_rest dir off sz fl a ifd ix w3 = Ok (rc, o, w') → touched dir off sz w w'.
Proof using All.
  intros Hdir Hsz H03 Hixf Him3 Hix3 Himem Hixl H. unfold open_rest, open_data in H.
  pose proof (data_path_ok dir off Hdir) as Hdp. unfold data_path in Hdp.
  apply bind_Ok_inv in H as ([dfd w4] & Hod & H).
  pose proof (open_sized_same _ dir sz w3 dfd w4 _ ltac:(lia) Hdp Hod) as Hsame.
  assert (H04 : touched dir off sz w w4) by (transitivity w3; [done|by apply touched_data]).
  assert (Hix4 : v_files (ps_view w4) !! path_in dir (index_name off) = Some c).
  { destruct Hsame as [Hs _]. rewrite <- Hix3. apply Hs, paths_ne. }
  apply open_sized_view in Hod; [|lia].
  set (n := calculate_index_size sz) in *.
  assert (Hunmap : ∀ w5, v_maps (ps_view w5) !! r_base ix = Some (path_in dir (index_name off)) →
    v_files (ps_view w5) = v_files (ps_view w4) → v_files (ps_view (do_munmap ix n w5)) = v_files (ps_view w4)).
  { intros w5 Hm5 Hf5. rewrite <- Hf5. eapply munmap_unchanged; [done|done|rewrite Hf5; exact Hix4|done|done]. }
  destruct (Z.ltb_spec dfd 0).
  { injection H as <- <- <-. destruct Hod as (Hm4 & _). transitivity w4; [done|].
    apply touched_files. rewrite os_free_view. apply Hunmap; [|by rewrite do_close_view].
    rewrite do_close_view. simpl. by rewrite Hm4. }
  destruct Hod as (p & Hp & _ & Hdlen & Hv4). rewrite Hdp in Hp. injection Hp as <-.
  assert (Him4 : v_maps (ps_view w4) !! r_base ix = Some (path_in dir (index_name off))) by (by rewrite Hv4).
  destruct (mmap_helper sz dfd w4) as [[rc5 buf] w5] eqn:Emd. eapply mmap_helper_view in Emd;
    [|rewrite Hv4; apply lookup_insert_eq|rewrite Hv4; apply lookup_insert_eq|exact Hdlen].
  transitivity w4; [done|]. apply touched_files. destruct buf as [buf|].
  2:{ injection H as <- <- <-. destruct Emd as [_ Hv5]. rewrite os_free_view.
      apply Hunmap; rewrite !do_close_view; simpl; by rewrite Hv5. }
  destruct Emd as (_ & Hbf & Hbm & Hv5 & Hbmem).
  assert (Hne : r_base buf ≠ r_base ix) by (intros Heq; congruence).
  assert (Hbl : page_round os_pagesize sz = zlen (r_mem buf)) by (rewrite Hbmem; symmetry; by apply mapped_length).
  apply bind_Ok_inv in H as ([rc6 wp] & _ & H).
  destruct wp as [wp|]; injection H as <- <- <-; [by rewrite Hv5|].
  rewrite os_free_view. simpl. set (w6 := do_munmap ix _ _).
  assert (Hf6 : v_files (ps_view w6) = v_files (ps_view w4)).
  { apply Hunmap; rewrite !do_close_view, Hv5; [|done]. simpl. by rewrite lookup_insert_ne. }
  rewrite <- Hf6. eapply munmap_unchanged; [done| |rewrite Hf6, Hv4; apply lookup_insert_eq|done|done].
  unfold w6. rewrite (do_munmap_view _ _ _ (path_in dir (index_name off))); rewrite ?do_close_view, ?Hv5; simpl; try done.
  - rewrite lookup_delete_ne by done. apply lookup_insert_eq.
  - by rewrite lookup_insert_ne.
Qed.

Lemma segment_open_touched dir off sz fl w rc o w' :
  dir_ok dir → 0 ≤ sz < 2 ^ 32 → segment_open dir off sz fl w = Ok (rc, o, w') →
  touched dir off sz w w'.
Proof using All.
  intros Hdir Hsz. rewrite segment_open_rest.
  destruct (negb _); [by intros [= <- <- <-]|].
  destruct (os_malloc sizeof_segment w) as [a w1] eqn:Em. apply law_malloc in Em.
  assert (H01 : touched dir off sz w w1).
  { apply touched_files. destruct (a =? 0); [|destruct Em as [_ Em]]; by rewrite Em. }
  destruct (a =? 0); [by intros [= <- <- <-]|]. clear Em.
  pose proof (calculate_index_size_pos sz) as Hix.
  intros ([ifd w2] & Hoi & H)%bind_Ok_inv. unfold open_index in Hoi.
  pose proof (index_path_ok dir off Hdir) as Hip. unfold index_path in Hip.
  assert (H02 : touched dir off sz w w2).
  { transitivity w1; [done|]. apply touched_index. by eapply open_sized_same. }
  apply open_sized_view in Hoi; [|done]. destruct (Z.ltb_spec ifd 0).
  { injection H as <- <- <-. transitivity w2; [done|]. apply touched_files. by rewrite os_free_view. }
  destruct Hoi as (p & Hp & _ & Hilen & Hv2). rewrite Hip in Hp. injection Hp as <-.
  destruct (mmap_helper _ ifd w2) as [[rc3 ix] w3] eqn:Emi. eapply mmap_helper_view in Emi;
    [|rewrite Hv2; apply lookup_insert_eq|rewrite Hv2; apply lookup_insert_eq|done].
  destruct ix as [ix|].
  2:{ injection H as <- <- <-. destruct Emi as [_ Hv3]. transitivity w2; [done|]. apply touched_files.
      by rewrite os_free_view, do_close_view, Hv3. }
  destruct Emi as (_ & Hixf & _ & Hv3 & Himem). eapply open_rest_touched; [done|done| |done| | |exact Himem| |exact H].
  - transitivity w2; [done|]. apply touched_files. by rewrite Hv3.
  - rewrite Hv3. apply lookup_insert_eq.
  - rewrite Hv3, Hv2. apply lookup_insert_eq.
  - rewrite Himem. symmetry. by apply mapped_length.
Qed.
End frame.

Lemma segment_names_roundtrip_witness :
  ∃ data_name index_name, data_filename 64 (2 ^ 64 - 1) = (0, data_name) ∧
    index_filename 64 (2 ^ 64 - 1) = (0, index_name) ∧
    has_suffix data_name ".log" = true ∧ has_suffix index_name ".log" = false ∧
    u64 (strtoll data_name) = 2 ^ 64 - 1.
Proof. apply (segment_names_roundtrip (2 ^ 64 - 1)). lia. Defined.
