(* ===== verification/SegmentStub.v ===== *)
(** * A segment with nothing but its end mark

    Opening such a segment again takes the mark for a frame
    ([eos_only_recovers_stuck] in SegmentSpec.v): it refuses every payload, and
    closing it leaves its files as they were. *)

From S2P Require Import Prelude Errno Prot Posix Util Segment SegmentInv SegmentOps SegmentSpec SegmentFile SegmentFileSpec SegmentDurable SegmentFrame.

Section stub.
Context {W : Type} `{!Posix W, !PosixLaws W}.
Context (dir : string) (off sz : Z).
Context (Hdir : dir_ok dir) (Hsz : 0 ≤ sz < 2 ^ 32) (Hmod : sz mod os_pagesize = 0).
Context (Hoff : 0 ≤ off < 2 ^ 63 - 2 ^ 32) (Hslots : slots sz 1).
Implicit Types w : W.

(** [msync] of whole pages of a mapping succeeds: there is room on the disk,
    and it works. *)
Definition msync_works : Prop := ∀ r a n w rc w' p c,
  v_maps (ps_view w) !! r_base r = Some p → v_files (ps_view w) !! p = Some c →
  a mod os_pagesize = 0 → r_base r ≤ a → 0 ≤ n → a + n ≤ r_base r + zlen (r_mem r) →
  os_msync r a n w = (rc, w') → rc = 0.

(** The files of the segment. *)
Record stub w : Prop := {
  sb_len : zlen (data_on_disk w dir off sz) = sz;
  sb_flags : get_flags 0 (data_on_disk w dir off sz) = Ok HEADER_FLAGS_EOS;
  sb_size : get_size 0 (data_on_disk w dir off sz) = Ok header_size;
  sb_index : index_on_disk w dir off sz = zeros (calculate_index_size sz)
}.

Lemma stub_same w w' : touched dir off sz w w' → stub w → stub w'.
Proof using Type. intros (_ & Hd & Hi) []. split; by rewrite ?Hd, ?Hi. Qed.

(** The same segment in memory, whatever its write offset was found to be. *)
Definition marked (sgm : segment) : Prop :=
  seg_inv (set_w_offset_pair (OffsetPair 0 header_size) sgm) [] true.

(** How far it is written and synced. *)
Definition at_mark (sgm : segment) : Prop :=
  0 ≤ op_index (s_offset_pair sgm) ≤ op_index (w_offset_pair sgm) ∧ op_index (w_offset_pair sgm) ≤ 1 ∧
  0 ≤ op_data (s_offset_pair sgm) ≤ header_size ∧ op_data (w_offset_pair sgm) = header_size.

Lemma marked_inv sgm : seg_inv sgm [] true → marked sgm.
Proof using Type. intros []. by split. Qed.

Lemma size_room : 2 * header_size ≤ sz.
Proof using Hslots Hsz.
  clear -Hslots Hsz. unfold slots, calculate_index_size in Hslots. rewrite u64_small in Hslots by lia.
  autounfold with sizes in *. pose proof (Z.div_mod (sz + 1) 12). pose proof (Z.mod_pos_bound (sz + 1) 12). lia.
Qed.

Lemma stub_marked w fl ifd dfd bb ib wp sp :
  stub w → marked (Segment LATEST_SEGMENT_VERSION fl ifd dfd sz off (Region bb (data_on_disk w dir off sz))
    (Region ib (index_on_disk w dir off sz ++
      zeros (page_round os_pagesize (calculate_index_size sz) - calculate_index_size sz))) wp sp).
Proof using All.
  intros [Hl Hf Hs Hi]. pose proof size_room. pose proof (calculate_index_size_pos sz) as Hix.
  pose proof (page_round_ge _ Hix). rewrite Hi, <- (zeros_split (calculate_index_size sz)) by lia.
  split; cbn [size buffer index w_offset_pair base_offset set_w_offset_pair r_mem used]; try done.
  - apply prefix_nil.
  - unfold used. change (zlen (frames [])) with 0. size_lia.
  - change (zlen []) with 0. rewrite Z.mul_0_r, Z.sub_0_r. cbn. f_equal. len.
  - change (zlen []) with 0. rewrite Z.mul_0_r. lia.
  - lia.
Qed.

(** ** Opening it *)

Lemma open_stub fl w :
  stub w → ∃ rc o w', segment_open dir off sz fl w = Ok (rc, o, w') ∧
    match o with
    | Some (_, sgm) => rc = 0 ∧ marked sgm ∧ at_mark sgm ∧ size sgm = sz ∧ attached w' dir off sgm
    | None => rc ∈ [ELALLC; ELFLEOP; ELMMAP; ELMADV]
    end.
Proof using All.
  intros Hst. pose proof (stub_marked w fl 0 0 0 0 (OffsetPair 0 0) (OffsetPair 0 0) Hst) as I. unfold marked in I.
  pose proof (calculate_index_size_pos sz) as Hix. pose proof (page_round_ge _ Hix).
  pose proof (λ H, proj1 (eos_only_recovers_stuck _ (calculate_index_size sz) _ [] I H eq_refl)) as Hfind.
  cbn [buffer index set_w_offset_pair r_mem w_offset_pair] in Hfind.
  specialize (Hfind ltac:(rewrite (sb_index _ Hst), <- (zeros_split (calculate_index_size sz)) by lia;
    unfold slots in Hslots; len)).
  destruct (segment_open_found dir off sz fl w 0 (Some (OffsetPair 1 header_size))) as (rc & o & w' & Hrun & Ho);
    [done|apply Hst|lia|done|done|].
  exists rc, o, w'. split; [done|]. destruct o as [[a sgm]|]; [|naive_solver].
  destruct Ho as (-> & (ifd & dfd & bb & ib & wp & ->) & [= <-] & Hat).
  split_and!; try done. by apply stub_marked.
Qed.

Lemma write_marked sgm q :
  marked sgm → op_data (w_offset_pair sgm) = header_size → segment_write sgm q = Ok (ELEOS, sgm).
Proof using Type.
  intros I Hw. unfold segment_write, marked_eos. rewrite Hw, Z.ltb_irrefl, Z.sub_diag.
  destruct (inv_eos _ _ _ I eq_refl) as [Hf _]. cbn [buffer set_w_offset_pair] in Hf.
  change (zlen (frames [])) with 0 in Hf. by run Hf.
Qed.

(** ** Closing it *)

(** Where [mmap] put a mapping. *)
Definition aligned (r : region) : Prop :=
  0 ≤ r_base r ∧ r_base r mod os_pagesize = 0 ∧ r_base r + zlen (r_mem r) < 2 ^ 64.

Lemma page_start x : 0 ≤ x → ∃ y, x - x mod os_pagesize = y ∧ 0 ≤ y ≤ x ∧ y mod os_pagesize = 0.
Proof using All.
  clear Hslots. destruct (law_page (W := W)) as (k & Hk & ->).
  assert (0 < 2 ^ k) by (apply Z.pow_pos_nonneg; lia). intros.
  exists (x - x mod 2 ^ k). split; [done|]. pose proof (Z.mod_pos_bound x (2 ^ k)).
  pose proof (Z.mod_le x (2 ^ k)). split; [lia|]. rewrite Zminus_mod_idemp_r, Z.sub_diag. by apply Z.mod_0_l; lia.
Qed.

Lemma sync_at_mark sgm w :
  msync_works → at_mark sgm → size sgm = sz → aligned (buffer sgm) → aligned (index sgm) →
  attached w dir off sgm → ∃ rc sgm' w', segment_sync sgm w = (rc, sgm', w') ∧ 0 ≤ rc.
Proof using All.
  intros Hsync (Hi & Hi1 & Hd & Hw) Hsize (Hb0 & Hba & Hb1) (Hx0 & Hxa & Hx1) Hat.
  destruct (law_page (W := W)) as (k & Hk & Hpage). pose proof size_room as Hroom.
  pose proof (attached_index _ _ _ _ Hat) as Hix. rewrite Hsize in Hix. unfold slots in Hslots.
  destruct (page_start (op_data (s_offset_pair sgm))) as (y & Hy & Hy0 & Hya); [lia|].
  destruct (page_start (index_entry_size * op_index (s_offset_pair sgm))) as (x & Hx & Hxr & Hxm); [size_lia|].
  unfold segment_sync. rewrite Hpage in Hba, Hxa, Hy, Hx. pose proof (at_data_mem _ _ _ _ Hat) as Hbl.
  rewrite (sync_data_eq k Hk Hpage), Hw, Hy by (done || size_lia).
  destruct (os_msync (buffer sgm) _ _ w) as [rc1 w1] eqn:E1.
  destruct (at_data_file _ _ _ _ Hat) as (c & Hc & _).
  apply attached_covers in Hat as Hcov. destruct Hcov as [Hcov _].
  pose proof (msync_lengths _ _ _ _ _ _ Hcov E1) as HL.
  apply (Hsync _ _ _ _ _ _ _ _ (at_data_map _ _ _ _ Hat) Hc) in E1;
    [|rewrite Z.add_mod by lia; rewrite <- Hpage in Hba; by rewrite Hba, Hya, Z.mod_0_l by lia|size_lia..].
  subst rc1. cbn [Z.eqb]. destruct (Z.leb_spec (header_size - y) 0); [eexists _, _, _; split; [done|lia]|].
  set (sgm1 := set_s_offset_pair _ sgm).
  assert (Hat1 : attached w1 dir off sgm1) by (by apply (attached_same _ _ _ _ _ _ Hat HL)).
  rewrite (sync_index_eq k Hk Hpage);
    cbn [sgm1 set_s_offset_pair index s_offset_pair w_offset_pair op_index op_data]; [|done || size_lia..].
  rewrite Hx. destruct (os_msync (index sgm) _ _ w1) as [rc2 w2] eqn:E2.
  destruct (at_index_file _ _ _ _ Hat1) as (c' & Hc' & _).
  apply (Hsync _ _ _ _ _ _ _ _ (at_index_map _ _ _ _ Hat1) Hc') in E2;
    [|rewrite Z.add_mod by lia; rewrite <- Hpage in Hxa; by rewrite Hxa, Hxm, Z.mod_0_l by lia|change (index sgm1) with (index sgm); size_lia..].
  subst rc2. cbn [Z.eqb]. eexists _, _, _. split; [done|]. lia.
Qed.

(** The files it is closed to. *)
Lemma close_at_mark a sgm w :
  msync_works → marked sgm → at_mark sgm → size sgm = sz → aligned (buffer sgm) → aligned (index sgm) →
  attached w dir off sgm → ∃ sgm' w', segment_close a sgm w = (0, sgm', w') ∧ stub w'.
Proof using All.
  intros Hsync I Hm Hsize Hb Hx Hat.
  destruct (sync_at_mark sgm w) as (rc & s1 & w1 & Es & Hrc); try done.
  destruct (segment_close a sgm w) as [[rc' sgm'] w'] eqn:Ec. assert (Hc := Ec).
  unfold segment_close in Hc. rewrite Es, (proj2 (Z.ltb_ge _ _)) in Hc by done. injection Hc as <- _ _.
  exists sgm', w'. split; [done|].
  destruct (segment_close_held _ _ _ _ _ _ _ Hat Ec) as [(fs & n & Hn & Hfiles) _]. rewrite Hsize in Hn.
  pose proof (attached_index _ _ _ _ Hat) as Hil. rewrite Hsize in Hil.
  assert (Hd : data_on_disk w' dir off sz = r_mem (buffer sgm)).
  { unfold data_on_disk. rewrite Hfiles, lookup_insert_ne, lookup_insert_eq by apply paths_ne.
    apply sized_exact. by rewrite (at_data_mem _ _ _ _ Hat). }
  destruct (inv_eos _ _ _ I eq_refl) as [Hf Hs].
  split; rewrite ?Hd; try done; [by rewrite (at_data_mem _ _ _ _ Hat)|].
  unfold index_on_disk. rewrite Hfiles, lookup_insert_eq, sized_exact by (rewrite length_take; lia).
  pose proof (inv_index _ _ _ I) as Hi. cbn [index set_w_offset_pair index_bytes offsets flat_map app] in Hi.
  rewrite Hi, (zeros_split (calculate_index_size sz)) by (split; [apply calculate_index_size_pos|change (zlen []) with 0; size_lia]).
  rewrite <- Hn. rewrite take_app_le by (rewrite length_zeros; lia). apply take_ge. rewrite length_zeros. lia.
Qed.

(** [mmap] aligned both mappings of an open segment. *)
Lemma mmap_helper_aligned n fd w rc r w' :
  mmap_helper n fd w = (rc, Some r, w') → aligned r.
Proof using All.
  unfold mmap_helper. destruct (os_mmap n fd w) as [r0 w1] eqn:Em. destruct (r_base r0 =? 0); [done|].
  destruct (os_madvise (r_base r0) n w1) as [rc1 w2] eqn:Ea. apply law_madvise in Ea as [_ Ha].
  destruct (Z.eqb_spec rc1 0); cbn [negb]; [|by destruct (os_munmap _ _ _)].
  intros [= _ <- _]. apply (law_mmap_address _ _ _ _ _ Em). by intros ?%Ha.
Qed.

Lemma segment_open_aligned fl w rc a sgm w' :
  segment_open dir off sz fl w = Ok (rc, Some (a, sgm), w') → aligned (buffer sgm) ∧ aligned (index sgm).
Proof using All.
  rewrite segment_open_rest. destruct (negb _); [done|]. destruct (os_malloc _ w) as [a1 w1].
  destruct (a1 =? 0); [done|]. intros ([ifd w2] & _ & H)%bind_Ok_inv. destruct (ifd <? 0); [done|].
  destruct (mmap_helper _ ifd w2) as [[rc3 [ix|]] w3] eqn:Ei; [|done]. unfold open_rest in H.
  apply bind_Ok_inv in H as ([dfd w4] & _ & H). destruct (dfd <? 0); [done|].
  destruct (mmap_helper sz dfd w4) as [[rc5 [buf|]] w5] eqn:Eb; [|done].
  apply bind_Ok_inv in H as ([rc6 [wp|]] & _ & H); [|done]. injection H as _ _ <- _.
  split; by eapply mmap_helper_aligned.
Qed.

(** ** All at once *)

(** A payload that the segment must refuse: it is a stub, or the payload is
    too long for an empty segment. *)
Definition refuses w (q : bytes) : Prop :=
  stub w ∨ stored w dir off sz [] ∧ sz < 2 * header_size + zlen q.

Lemma refuses_touched w w' q : touched dir off sz w w' → refuses w q → refuses w' q.
Proof using Hoff.
  intros Ht [Hs|[Hs Hq]]; [left; by eapply stub_same|right; split; [|done]].
  destruct Ht as (_ & Hd & Hi). by eapply stored_same.
Qed.

Lemma refused_once fl w q :
  msync_works → is_Some (v_fds (ps_view w) !! 0) → zlen q < 2 ^ 63 → refuses w q →
  ∃ rc o w1, segment_open dir off sz fl w = Ok (rc, o, w1) ∧
    match o with
    | None => rc ∈ [ELALLC; ELFLEOP; ELMMAP; ELMADV] ∧ held w1 = held w ∧ touched dir off sz w w1
    | Some (a, sgm) => rc = 0 ∧ a ∉ v_blocks (ps_view w) ∧
        ∃ sgm' sgm2 w2, segment_write sgm q = Ok (ELEOS, sgm') ∧
          segment_close a sgm' w1 = (0, sgm2, w2) ∧ stub w2 ∧ held w2 = held w ∧ elsewhere dir off w w2
    end.
Proof using All.
  intros Hsync H0 Hq Href.
  assert (Ho : ∃ rc o w1, segment_open dir off sz fl w = Ok (rc, o, w1) ∧
    match o with
    | None => rc ∈ [ELALLC; ELFLEOP; ELMMAP; ELMADV]
    | Some (a, sgm) => ∃ sgm', segment_write sgm q = Ok (ELEOS, sgm') ∧ marked sgm' ∧ at_mark sgm' ∧
        size sgm' = sz ∧ attached w1 dir off sgm' ∧ same_segment sgm sgm' ∧
        (aligned (buffer sgm) → aligned (buffer sgm')) ∧ (aligned (index sgm) → aligned (index sgm'))
    end).
  { destruct Href as [Hstub|[Hst Hbig]].
    - destruct (open_stub fl w Hstub) as (rc & o & w1 & Hrun & Ho). exists rc, o, w1. split; [done|].
      destruct o as [[a sgm]|]; [|done]. destruct Ho as (-> & I & Hm & Hs & Hat). exists sgm.
      split; [apply write_marked; [done|apply Hm]|]. split_and!; done.
    - destruct (segment_open_stored dir off sz fl w [] Hdir Hst Hsz Hmod Hoff) as (rc & o & w1 & Hrun & Ho).
      exists rc, o, w1. split; [done|]. destruct o as [[a sgm]|]; [|done].
      destruct Ho as (-> & I & Hat & Hs & _ & _ & Hso).
      pose proof (segment_write_inv _ _ _ q I Hq) as Hw. cbn [orb forged_eos] in Hw.
      change (false || forged_eos [])%bool with false in Hw. cbn iota in Hw. rewrite used_false, Hs in Hw.
      change (zlen (frames [])) with 0 in Hw. rewrite (proj2 (Z.gtb_lt _ _)) in Hw by lia.
      destruct Hw as (sgm' & Hw & I' & Hsame). exists sgm'. split; [done|].
      pose proof Hsame as [_ _ _ _ Hsz' _ Hbb Hib Hil]. pose proof (attached_write _ _ _ _ _ _ _ Hat I' Hsame) as Hat'.
      pose proof (segment_write_synced _ _ _ _ Hw) as Hsy.
      rewrite Hso, (inv_w _ _ _ I) in Hsy. split; [by apply marked_inv|]. split; [|split_and!].
      + unfold at_mark. rewrite Hsy, (inv_w _ _ _ I'). unfold used. simpl. size_lia.
      + congruence.
      + done.
      + done.
      + unfold aligned. rewrite Hbb, (inv_len _ _ _ I'), (inv_len _ _ _ I). congruence.
      + unfold aligned. by rewrite Hib, Hil. }
  destruct Ho as (rc & o & w1 & Hrun & Ho). exists rc, o, w1. split; [done|].
  pose proof (segment_open_touched _ _ _ _ _ _ _ _ Hdir Hsz Hrun) as Ht.
  assert (Hh := Hrun). apply segment_open_held in Hh; [|done|done].
  destruct o as [[a sgm]|]; [|by destruct Hh].
  destruct Hh as (-> & pi & pd & _ & _ & Hacq). split; [done|]. split; [apply Hacq|].
  destruct Ho as (sgm' & Hw & I & Hm & Hs & Hat & Hsame & Hb & Hx).
  destruct (segment_open_aligned _ _ _ _ _ _ Hrun) as [Hba Hxa].
  destruct (close_at_mark a sgm' w1) as (sgm2 & w2 & Hc & Hst2); auto.
  exists sgm', sgm2, w2. split; [done|]. split; [done|]. split; [done|]. split.
  - destruct (segment_close_held _ _ _ _ _ _ _ Hat Hc) as [_ Hh2].
    apply (acquires_released _ _ _ _ sgm' _ _ w1 _ Hacq eq_refl (same_carried _ _ Hsame) Hh2).
  - destruct (segment_close_elsewhere _ _ _ _ _ _ _ _ Hat Hc) as [He _]. transitivity w1; [apply Ht|done].
Qed.
End stub.
