(* ===== verification/SegmentCrash.v ===== *)
(** * A segment and its disk

    What the disk holds of the two files of an open segment while it is
    written, synced, and written back by the kernel page by page: everything up
    to the synced offsets, and beyond them bytes that are still zero or already
    those of the mapping. *)

From S2P Require Import Prelude Errno Crc32 Prot Util Posix Disk Segment SegmentInv SegmentOps SegmentSpec SegmentBytes SegmentFile SegmentFileSpec SegmentDurable.

(** ** The contents of the two files *)

(** The data file, below the synced offset [d] and above it. *)
Record data_synced (d : Z) (mem dd : bytes) : Prop := {
  da_length : length dd = length mem;
  da_below k : Z.of_nat k < d → dd !! k = mem !! k;
  da_bytes k b : dd !! k = Some b → b = Byte.x00 ∨ mem !! k = Some b
}.

(** The index file: the entries below [n] are there, and no other is wrong. *)
Record index_synced (n : Z) (ps : list bytes) (di : bytes) : Prop := {
  xa_entry i : index_entry_size * (Z.of_nat i + 1) ≤ zlen di →
    get_index (Z.of_nat i) di = Ok 0 ∨
    ∃ p, ps !! i = Some p ∧ get_index (Z.of_nat i) di = Ok (frame_offset ps i);
  xa_below i p : Z.of_nat i < n → ps !! i = Some p → get_index (Z.of_nat i) di = Ok (frame_offset ps i)
}.

(** Nothing was ever written past [u]. *)
Definition blank_from (u : Z) (mem : bytes) : Prop :=
  ∀ k b, u ≤ Z.of_nat k → mem !! k = Some b → b = Byte.x00.

Lemma data_synced_write d u u' mem mem' dd :
  data_synced d mem dd → d ≤ u → blank_from u mem → outside u u' mem mem' → data_synced d mem' dd.
Proof.
  intros [Hl Hb Hz] Hd Hu [Hl' Hs]. split; [congruence| |].
  - intros k Hk. rewrite Hb, Hs by lia. done.
  - intros k b Hk. destruct (Hz k b Hk) as [|Hm]; [by left|]. destruct (decide (Z.of_nat k < u)) as [Hlt|Hlt].
    + right. by rewrite Hs by lia.
    + left. apply (Hu k); [lia|done].
Qed.

Lemma blank_from_write u u' mem mem' :
  blank_from u mem → u ≤ u' → outside u u' mem mem' → blank_from u' mem'.
Proof. intros Hb Hle [_ Hs] k b Hk. rewrite Hs by lia. apply Hb. lia. Qed.

Lemma data_synced_flush page pages d mem dd :
  data_synced d mem dd → data_synced d mem (flush page pages mem dd).
Proof.
  intros [Hl Hb Hz]. split.
  - by rewrite length_flush.
  - intros k Hk. unfold flush. rewrite list_lookup_imap, Hb by done.
    destruct (mem !! k); [|done]. simpl. by destruct (pages _).
  - intros k b [Hk|Hk]%flush_lookup; [by apply Hz|by right].
Qed.

(** Flushing the pages from that of [d] to that of [e] moves the offset on. *)
Lemma data_synced_raise page pages d e mem dd :
  data_synced d mem dd → 0 < page → 0 ≤ d →
  (∀ k, d - d mod page ≤ k < e → pages (k / page) = true) → e ≤ zlen mem →
  data_synced e mem (flush page pages mem dd).
Proof.
  intros Hs Hp Hd Hpages He. destruct (data_synced_flush page pages _ _ _ Hs) as [Hl Hb Hz].
  split; [done| |done]. intros k Hk. destruct (decide (Z.of_nat k < d)) as [|Hge]; [by apply Hb|].
  pose proof (da_length _ _ _ Hs). pose proof (Z.mod_pos_bound d page Hp).
  apply flush_lookup_in; [apply Hpages|..]; lia.
Qed.

Lemma frame_offset_extends ps ps' i p :
  ps `prefix_of` ps' → ps !! i = Some p → ps' !! i = Some p ∧ frame_offset ps' i = frame_offset ps i.
Proof.
  intros [k ->] Hp. split; [by apply lookup_app_l_Some|].
  apply frame_offset_prefix. apply lookup_lt_Some in Hp. lia.
Qed.

Lemma index_synced_write n ps ps' di :
  index_synced n ps di → n ≤ zlen ps → ps `prefix_of` ps' → index_synced n ps' di.
Proof.
  intros [He Hb] Hn Hpre. split.
  - intros i Hi. destruct (He i Hi) as [|(p & Hp & Hg)]; [by left|right].
    destruct (frame_offset_extends _ _ _ _ Hpre Hp) as [Hp' <-] in Hg |- *. by exists p.
  - intros i p Hi Hp'. destruct (lookup_lt_is_Some_2 ps i) as [q Hq]; [lia|].
    destruct (frame_offset_extends _ _ _ _ Hpre Hq) as [_ ->]. by apply (Hb i q).
Qed.

(** An entry of the index lies within a page. *)
Lemma get_index_flush e pages mem di i :
  3 ≤ e → 0 ≤ i → index_entry_size * (i + 1) ≤ zlen di → zlen di ≤ zlen mem →
  get_index i (flush (2 ^ e) pages mem di) =
    if pages (index_entry_size * i / 2 ^ e) then get_index i mem else get_index i di.
Proof.
  intros He Hi Hdi Hmem. assert (0 < 2 ^ e) by (apply Z.pow_pos_nonneg; lia).
  assert (Hpage : ∀ k, index_entry_size * i ≤ k < index_entry_size * i + 8 → k / 2 ^ e = index_entry_size * i / 2 ^ e).
  { intros k Hk. unfold index_entry_size in *.
    assert (H8 : 2 ^ e = 8 * 2 ^ (e - 3)).
    { replace e with (3 + (e - 3)) at 1 by lia. rewrite Z.pow_add_r by lia. done. }
    assert (0 < 2 ^ (e - 3)) by (apply Z.pow_pos_nonneg; lia).
    rewrite H8, <- !Z.div_div by lia. replace (k / 8) with i by (apply (Z.div_unique k 8 i (k - 8 * i)); lia).
    by replace (8 * i / 8) with i by (apply (Z.div_unique _ 8 i 0); lia). }
  unfold get_index, load_le. destruct (pages _) eqn:Hp; f_equal.
  - unfold load, in_range, index_entry_size in *. rewrite length_flush.
    rewrite (proj2 (Z.leb_le (8 * i + _) (zlen di))), (proj2 (Z.leb_le (8 * i + _) (zlen mem))) by lia.
    destruct (_ && _)%bool; [|done]. f_equal. apply list_eq. intros k.
    destruct (decide (k < Z.to_nat (Z.of_nat 8))%nat) as [Hk|Hk]; [|by rewrite !lookup_take_ge by lia].
    rewrite !lookup_take_lt, !lookup_drop by done. apply flush_lookup_in; [|lia..].
    rewrite Hpage; [done|lia].
  - apply load_same; [apply length_flush|]. intros k Hk. apply flush_lookup_out. by rewrite Hpage by lia.
Qed.

(** The entries of the mapping. *)
Lemma get_index_mem sgm ps eos i :
  seg_inv sgm ps eos → index_entry_size * (Z.of_nat i + 1) ≤ zlen (r_mem (index sgm)) →
  get_index (Z.of_nat i) (r_mem (index sgm)) =
    Ok (match ps !! i with Some _ => frame_offset ps i | None => 0 end).
Proof.
  intros I Hi. destruct (ps !! i) as [p|] eqn:Hp; [by eapply index_at|]. apply lookup_ge_None in Hp.
  rewrite (inv_index _ _ _ I).
  rewrite (zeros_split (index_entry_size * (Z.of_nat i - zlen ps)) (zlen (r_mem (index sgm)) - _)) by size_lia.
  rewrite (zeros_split index_entry_size (_ - _ - _)) by size_lia. rewrite app_assoc. unfold get_index.
  run load_le_app by len. by rewrite le_value_zeros.
Qed.

Lemma index_synced_flush e pages n sgm ps eos di :
  index_synced n ps di → seg_inv sgm ps eos → 3 ≤ e → zlen di ≤ zlen (r_mem (index sgm)) →
  n ≤ zlen ps → index_entry_size * zlen ps ≤ zlen di →
  index_synced n ps (flush (2 ^ e) pages (r_mem (index sgm)) di).
Proof.
  intros [He Hb] I H3 Hdi Hn Hslots. split.
  - intros i. rewrite length_flush. intros Hi. rewrite get_index_flush by lia.
    destruct (pages _); [|by apply He]. rewrite (get_index_mem _ _ _ _ I) by lia.
    destruct (ps !! i) as [p|]; [right; by exists p|by left].
  - intros i p Hi Hp. apply lookup_lt_Some in Hp as Hlt. rewrite get_index_flush by size_lia.
    destruct (pages _); [|by apply (Hb i p)]. by eapply index_at.
Qed.

Lemma index_synced_raise e pages n sgm ps eos di :
  index_synced n ps di → seg_inv sgm ps eos → 3 ≤ e → zlen di ≤ zlen (r_mem (index sgm)) →
  0 ≤ n ≤ zlen ps → index_entry_size * zlen ps ≤ zlen di →
  (∀ k, index_entry_size * n - (index_entry_size * n) mod 2 ^ e ≤ k < index_entry_size * zlen ps →
    pages (k / 2 ^ e) = true) →
  index_synced (zlen ps) ps (flush (2 ^ e) pages (r_mem (index sgm)) di).
Proof.
  intros Hx I H3 Hdi Hn Hslots Hpages. destruct (index_synced_flush _ pages _ _ _ _ _ Hx I H3 Hdi ltac:(lia) Hslots) as [He Hb].
  split; [done|]. intros i p Hi Hp. destruct (decide (Z.of_nat i < n)) as [|Hge]; [by apply (Hb i p)|].
  assert (0 < 2 ^ e) by (apply Z.pow_pos_nonneg; lia). pose proof (Z.mod_pos_bound (index_entry_size * n) (2 ^ e)).
  rewrite get_index_flush by size_lia. rewrite Hpages by size_lia. by eapply index_at.
Qed.

Lemma prefix_take {A} (l l' : list A) n : l `prefix_of` l' → (n ≤ length l)%nat → take n l' = take n l.
Proof. intros [k ->] Hn. by rewrite take_app_le. Qed.

Lemma prefix_zlen {A} (l l' : list A) : l `prefix_of` l' → zlen l ≤ zlen l'.
Proof. intros [k ->]. rewrite length_app. lia. Qed.

(** ** A segment over its disk *)

Section crash.
Context {W : Type} `{!Posix W, !PosixLaws W, !DiskLaws W}.
Context (dir : string) (off : Z).
(** Pages hold whole index entries. *)
Context (e : Z) (He : 3 ≤ e ≤ 31) (Hpage : os_pagesize = 2 ^ e).
Implicit Types (w : W) (sgm : segment).
Abbreviation pd := (path_in dir (data_name off)).
Abbreviation pi := (path_in dir (index_name off)).

(** [mmap] returns page-aligned addresses; segments are below 2 GiB. *)
Record placed sgm : Prop := {
  pl_buffer : 0 ≤ r_base (buffer sgm) ∧ r_base (buffer sgm) mod 2 ^ e = 0 ∧
              r_base (buffer sgm) + size sgm < 2 ^ 64;
  pl_index : 0 ≤ r_base (index sgm) ∧ r_base (index sgm) mod 2 ^ e = 0 ∧
             r_base (index sgm) + zlen (r_mem (index sgm)) < 2 ^ 64;
  pl_size : size sgm < 2 ^ 31
}.

Record on_disk w sgm (ps : list bytes) (eos : bool) : Prop := {
  od_attached : attached w dir off sgm;
  od_inv : seg_inv sgm ps eos;
  od_placed : placed sgm;
  od_blank : blank_from (used ps eos) (r_mem (buffer sgm));
  od_data : ∃ dd, disk w !! pd = Some dd ∧ data_synced (op_data (s_offset_pair sgm)) (r_mem (buffer sgm)) dd;
  od_index : ∃ di, disk w !! pi = Some di ∧ zlen di = calculate_index_size (size sgm) ∧
    index_synced (op_index (s_offset_pair sgm)) ps di;
  od_slots : slots (size sgm) (zlen ps);
  od_entries : 0 ≤ op_index (s_offset_pair sgm) ≤ zlen ps;
  od_offset : zlen (frames (take (Z.to_nat (op_index (s_offset_pair sgm))) ps)) ≤
    op_data (s_offset_pair sgm) ≤ used ps eos
}.

(** Writes, syncs, and the kernel writing back any pages at any time. The
    index file keeps a slot after the last entry. *)
Inductive lives : segment → W → segment → W → Prop :=
  | lives_still sgm w : lives sgm w sgm w
  | lives_write sgm w p rc sgm1 sgm2 w2 :
      zlen p < 2 ^ 63 → segment_write sgm p = Ok (rc, sgm1) →
      slots (size sgm1) (op_index (w_offset_pair sgm1)) → lives sgm1 w sgm2 w2 → lives sgm w sgm2 w2
  | lives_sync sgm w rc sgm1 w1 sgm2 w2 :
      segment_sync sgm w = (rc, sgm1, w1) → lives sgm1 w1 sgm2 w2 → lives sgm w sgm2 w2
  | lives_flush sgm w dd di f g w1 sgm2 w2 :
      disk w !! pd = Some dd → disk w !! pi = Some di → ps_view w1 = ps_view w →
      disk w1 = <[pd := flush os_pagesize f (r_mem (buffer sgm)) dd]>
                  (<[pi := flush os_pagesize g (r_mem (index sgm)) di]> (disk w)) →
      lives sgm w1 sgm2 w2 → lives sgm w sgm2 w2.

Lemma attached_view w w' sgm : ps_view w' = ps_view w → attached w dir off sgm → attached w' dir off sgm.
Proof using Type. intros Hv []. split; by rewrite ?Hv. Qed.

Lemma same_placed a b : same_segment a b → length (r_mem (index b)) = length (r_mem (index a)) → placed a → placed b.
Proof using Type. intros [] Hl []. split; rewrite ?Hl; congruence. Qed.

Lemma write_on_disk w sgm ps eos p rc sgm' :
  on_disk w sgm ps eos → zlen p < 2 ^ 63 → segment_write sgm p = Ok (rc, sgm') →
  slots (size sgm') (op_index (w_offset_pair sgm')) →
  ∃ ps' eos', on_disk w sgm' ps' eos' ∧ written ps p rc ps' ∧ s_offset_pair sgm' = s_offset_pair sgm.
Proof using He.
  intros [Hat I Hpl Hb (dd & Hdd & Hds) (di & Hdi & Hlen & Hix) Hsl Hn Ho] Hp Hw Hslots.
  pose proof (segment_write_synced _ _ _ _ Hw) as Hs.
  destruct (write_changes _ _ _ _ _ _ I Hp Hw) as (ps' & eos' & I' & Hsame & Hwr & Hused & Hout).
  exists ps', eos'. split; [|done]. pose proof (written_prefix _ _ _ _ Hwr) as Hpre. pose proof (prefix_zlen _ _ Hpre). split; rewrite ?Hs.
  - by eapply attached_write.
  - done.
  - eapply same_placed; [exact Hsame|apply Hsame|done].
  - by eapply blank_from_write.
  - exists dd. split; [done|]. apply (data_synced_write _ _ _ _ _ _ Hds ltac:(apply Ho) Hb Hout).
  - exists di. split; [done|]. split; [by rewrite (same_size _ _ Hsame)|]. by apply (index_synced_write _ ps); [|lia|].
  - by rewrite (inv_w _ _ _ I') in Hslots.
  - lia.
  - rewrite (prefix_take ps ps') by (done || lia). lia.
Qed.

Lemma flush_on_disk w sgm ps eos dd di f g w1 :
  on_disk w sgm ps eos → disk w !! pd = Some dd → disk w !! pi = Some di → ps_view w1 = ps_view w →
  disk w1 = <[pd := flush os_pagesize f (r_mem (buffer sgm)) dd]>
              (<[pi := flush os_pagesize g (r_mem (index sgm)) di]> (disk w)) →
  on_disk w1 sgm ps eos.
Proof using He Hpage.
  intros [Hat I Hpl Hb (dd' & Hdd & Hds) (di' & Hdi & Hlen & Hix) Hsl Hn Ho] Hdd' Hdi' Hv Hd.
  rewrite Hdd in Hdd'. rewrite Hdi in Hdi'. injection Hdd' as <-. injection Hdi' as <-.
  pose proof (attached_index _ _ _ _ Hat). unfold slots in Hsl.
  split; try done.
  - by eapply attached_view.
  - eexists. split; [by rewrite Hd, lookup_insert_eq|]. by apply data_synced_flush.
  - eexists. split; [by rewrite Hd, lookup_insert_ne, lookup_insert_eq by (apply not_eq_sym, paths_ne)|].
    rewrite length_flush. split; [done|]. rewrite Hpage.
    apply (index_synced_flush _ _ _ _ _ eos); try done; size_lia.
Qed.

(** ** A sync *)

Lemma msync_disk r a n w rc w' p c sgm :
  attached w dir off sgm → r = buffer sgm ∧ p = pd ∨ r = index sgm ∧ p = pi →
  disk w !! p = Some c → os_msync r a n w = (rc, w') →
  ∃ pages, disk w' = <[p := flush os_pagesize pages (r_mem r) c]> (disk w) ∧
    (rc = 0 → ∀ k, 0 ≤ k → a ≤ r_base r + k < a + n → pages (k / os_pagesize) = true).
Proof using Type.
  intros Hat Hr Hc Hm. apply (law_disk_msync r a n w rc w' p c); [|done..].
  destruct Hr as [[-> ->]|[-> ->]]; apply Hat.
Qed.

(** What [sync_data] puts on the disk. *)
Lemma sync_data_on_disk w sgm ps eos rc sgm' w' :
  on_disk w sgm ps eos → sync_data sgm w = (rc, sgm', w') →
  on_disk w' sgm' ps eos ∧ op_index (s_offset_pair sgm') = op_index (s_offset_pair sgm) ∧
  (0 < rc → op_data (s_offset_pair sgm') = used ps eos).
Proof using He Hpage.
  intros [Hat I Hpl Hb (dd & Hdd & Hds) (di & Hdi & Hlen & Hix) Hsl Hn Ho] Hs.
  destruct Hpl as [(Hb0 & Hal & Hbs) Hpi Hsz]. pose proof (inv_used _ _ _ I) as Hu.
  assert (Hd0 : 0 ≤ op_data (s_offset_pair sgm)) by lia.
  assert (Hw : op_data (w_offset_pair sgm) = used ps eos) by (by rewrite (inv_w _ _ _ I)).
  pose proof (sync_data_eq e ltac:(lia) Hpage sgm w Hb0 Hal) as E. cbv zeta in E. rewrite Hw, Hs in E.
  specialize (E ltac:(lia) ltac:(lia) ltac:(lia)).
  destruct (os_msync (buffer sgm) _ _ w) as [rc1 w1] eqn:Em.
  destruct (msync_disk _ _ _ _ _ _ _ _ sgm Hat (or_introl (conj eq_refl eq_refl)) Hdd Em) as (pages & Hd & Hpages).
  assert (HL : same_lengths w w1) by (eapply msync_lengths; [exact (proj1 (attached_covers _ _ _ _ Hat))|exact Em]).
  assert (Hdi1 : disk w1 !! pi = Some di) by (rewrite Hd, lookup_insert_ne by (apply not_eq_sym, paths_ne); done).
  destruct (Z.eqb_spec rc1 0) as [->|Hrc]; injection E as -> -> ->.
  - cbn [s_offset_pair set_s_offset_pair op_index op_data].
    split; [|done]. split; cbn [s_offset_pair set_s_offset_pair op_index op_data buffer index size]; try done.
    + by apply (attached_same w w1 dir off sgm).
    + destruct I. by split.
    + eexists. split; [by rewrite Hd, lookup_insert_eq|]. rewrite Hpage.
      apply (data_synced_raise _ _ (op_data (s_offset_pair sgm))); try done.
      * by apply Z.pow_pos_nonneg; lia.
      * intros k Hk. rewrite <- Hpage. pose proof (Z.mod_le (op_data (s_offset_pair sgm)) (2 ^ e)). apply Hpages; [done|lia|lia].
      * rewrite (inv_len _ _ _ I). lia.
    + by exists di.
    + lia.
  - split; [|by unfold ELDTSYN]. split; try done; [by apply (attached_same w w1 dir off sgm)| |by exists di].
    eexists. split; [by rewrite Hd, lookup_insert_eq|]. by apply data_synced_flush.
Qed.

(** What [sync_index] puts on the disk, once the data are there. *)
Lemma sync_index_on_disk w sgm ps eos rc sgm' w' :
  on_disk w sgm ps eos → op_data (s_offset_pair sgm) = used ps eos → sync_index sgm w = (rc, sgm', w') →
  on_disk w' sgm' ps eos ∧ op_index (s_offset_pair sgm) ≤ op_index (s_offset_pair sgm') ∧
  (0 ≤ rc → op_index (s_offset_pair sgm') = zlen ps).
Proof using He Hpage.
  intros [Hat I Hpl Hb (dd & Hdd & Hds) (di & Hdi & Hlen & Hix) Hsl Hn Ho] Hu Hs.
  destruct Hpl as [Hpb (Hi0 & Hal & Hbs) Hsz]. pose proof (inv_used _ _ _ I). pose proof (frames_length ps).
  pose proof (inv_index_room _ _ _ I). pose proof (attached_index _ _ _ _ Hat). unfold slots in Hsl.
  assert (Hzl : zlen ps < 2 ^ 31) by (unfold used in *; destruct eos; size_lia).
  assert (Hw : op_index (w_offset_pair sgm) = zlen ps) by (by rewrite (inv_w _ _ _ I)).
  pose proof (sync_index_eq e ltac:(lia) Hpage sgm w Hi0 Hal) as E. cbv zeta in E. rewrite Hw, Hs in E.
  specialize (E ltac:(lia) ltac:(lia) ltac:(lia)).
  destruct (os_msync (index sgm) _ _ w) as [rc1 w1] eqn:Em.
  destruct (msync_disk _ _ _ _ _ _ _ _ sgm Hat (or_intror (conj eq_refl eq_refl)) Hdi Em) as (pages & Hd & Hpages).
  assert (HL : same_lengths w w1) by (eapply msync_lengths; [exact (proj2 (attached_covers _ _ _ _ Hat))|exact Em]).
  assert (Hdd1 : disk w1 !! pd = Some dd) by (rewrite Hd, lookup_insert_ne by (apply paths_ne); done).
  destruct (Z.eqb_spec rc1 0) as [->|Hrc]; injection E as -> -> ->.
  - cbn [s_offset_pair set_s_offset_pair op_index op_data]. split; [|lia].
    split; cbn [s_offset_pair set_s_offset_pair op_index op_data buffer index size]; try done.
    + by apply (attached_same w w1 dir off sgm).
    + destruct I. by split.
    + by exists dd.
    + eexists. split; [by rewrite Hd, lookup_insert_eq|]. rewrite length_flush. split; [done|].
      rewrite Hpage in *. apply (index_synced_raise _ _ (op_index (s_offset_pair sgm)) _ _ eos); try done; [lia..|size_lia|].
      intros k Hk. pose proof (Z.mod_le (index_entry_size * op_index (s_offset_pair sgm)) (2 ^ e)).
      assert (0 < 2 ^ e) by (apply Z.pow_pos_nonneg; lia). apply Hpages; [done|size_lia|size_lia].
    + lia.
    + rewrite Nat2Z.id, firstn_all. unfold used in *. destruct eos; size_lia.
  - split; [|unfold ELDTSYN; lia]. split; try done; [by apply (attached_same w w1 dir off sgm)|by exists dd|].
    eexists. split; [by rewrite Hd, lookup_insert_eq|]. rewrite length_flush. split; [done|]. rewrite Hpage.
    apply (index_synced_flush _ _ _ _ _ eos); try done; size_lia.
Qed.

(** A sync: the synced offsets tell the truth about the disk, and a positive
    code says that every entry is there. *)
Lemma sync_on_disk w sgm ps eos rc sgm' w' :
  on_disk w sgm ps eos → segment_sync sgm w = (rc, sgm', w') →
  on_disk w' sgm' ps eos ∧ op_index (s_offset_pair sgm) ≤ op_index (s_offset_pair sgm') ∧
  (0 < rc → op_index (s_offset_pair sgm') = zlen ps).
Proof using He Hpage.
  intros H. unfold segment_sync. destruct (sync_data sgm w) as [[sz sgm1] w1] eqn:Ed.
  destruct (sync_data_on_disk _ _ _ _ _ _ _ H Ed) as (H1 & Hi & Hd).
  destruct (Z.leb_spec sz 0) as [|Hpos].
  - intros [= -> -> ->]. split; [done|]. split; [lia|lia].
  - intros Hs. destruct (sync_index_on_disk _ _ _ _ _ _ _ H1 (Hd Hpos) Hs) as (H2 & Hle & Hall).
    split; [done|]. rewrite <- Hi. split; [done|]. intros. apply Hall. lia.
Qed.

Lemma lives_on_disk sgm w sgm' w' :
  lives sgm w sgm' w' → ∀ ps eos, on_disk w sgm ps eos →
  ∃ ps' eos', on_disk w' sgm' ps' eos' ∧ ps `prefix_of` ps' ∧ size sgm' = size sgm ∧
    op_index (s_offset_pair sgm) ≤ op_index (s_offset_pair sgm').
Proof using He Hpage.
  induction 1 as [sgm w|sgm w p rc sgm1 sgm2 w2 Hp Hw Hsl _ IH|sgm w rc sgm1 w1 sgm2 w2 Hs _ IH|
    sgm w dd di f g w1 sgm2 w2 Hdd Hdi Hv Hd _ IH]; intros ps eos H.
  - by exists ps, eos.
  - destruct (write_on_disk _ _ _ _ _ _ _ H Hp Hw Hsl) as (ps1 & eos1 & H1 & Hwr & Hs1). pose proof (written_prefix _ _ _ _ Hwr) as Hpre.
    destruct (IH ps1 eos1 H1) as (ps2 & eos2 & H2 & Hpre2 & Hsz & Hle). exists ps2, eos2.
    destruct (write_changes _ _ _ _ _ _ (od_inv _ _ _ _ H) Hp Hw) as (? & ? & _ & Hsame & _).
    split; [done|]. split; [by etransitivity|]. rewrite Hsz, (same_size _ _ Hsame). by rewrite <- Hs1.
  - destruct (sync_on_disk _ _ _ _ _ _ _ H Hs) as (H1 & Hle1 & _).
    destruct (IH ps eos H1) as (ps2 & eos2 & H2 & Hpre2 & Hsz & Hle). exists ps2, eos2.
    destruct (sync_inv _ _ _ _ _ _ _ Hs (od_inv _ _ _ _ H)) as [_ Hsame].
    split; [done|]. split; [done|]. rewrite Hsz, (same_size _ _ Hsame). split; [done|lia].
  - apply IH with eos. by apply (flush_on_disk w _ _ _ dd di f g).
Qed.
End crash.
