(* ===== verification/SegmentCrashSpec.v ===== *)
(** * What survives a crash of the machine

    After a crash the files of a segment are what was on the disk. Opening them
    again finds every payload that a sync has acknowledged
    ([synced_survives_crash]). *)

From S2P Require Import Prelude Errno Crc32 Prot Util Posix MemOs Disk Segment SegmentInv SegmentOps SegmentSpec SegmentBytes SegmentFile SegmentFileSpec SegmentDurable SegmentCrash.

(** ** The scan of a crashed index *)

Lemma frame_offset_mono ps i j : (i ≤ j)%nat → frame_offset ps i ≤ frame_offset ps j.
Proof.
  intros Hij. unfold frame_offset. rewrite <- (take_drop i (take j ps)), take_take, frames_app.
  replace (i `min` j)%nat with i by lia. rewrite length_app. lia.
Qed.

Section recover.
Context (sgm : segment) (ps : list bytes) (eos : bool) (I : seg_inv sgm ps eos).
Context (n d : Z) (dd di tail : bytes).
Context (Hdd : data_synced d (r_mem (buffer sgm)) dd) (Hdi : index_synced n ps di).
Context (Hn : 0 ≤ n ≤ zlen ps) (Hd : zlen (frames (take (Z.to_nat n) ps)) ≤ d).
Context (Hslots : index_entry_size * (zlen ps + 1) ≤ zlen di) (Hone : index_entry_size * 2 ≤ zlen di).

Lemma crashed_entry i :
  index_entry_size * (Z.of_nat i + 1) ≤ zlen di →
  get_index (Z.of_nat i) (di ++ tail) = get_index (Z.of_nat i) di.
Proof using Type. intros Hi. unfold get_index, load_le. rewrite load_app_first; [done|clear -Hi; size_lia..]. Qed.

(** The header of a frame on the disk: its size is at most what was written,
    and it is what was written below the synced entries. *)
Lemma crashed_size i p :
  ps !! i = Some p → ∃ s, get_size (frame_offset ps i) dd = Ok s ∧ 0 ≤ s ≤ header_size + zlen p ∧
    (Z.of_nat i < n → s = header_size + zlen p).
Proof using All.
  intros Hp. destruct (header_at_frame _ _ _ I i p Hp) as (_ & _ & Hs & _). unfold get_size in *.
  destruct (load_le_zeroed 4 _ _ dd _ (da_bytes _ _ _ Hdd) (da_length _ _ _ Hdd) Hs) as (s & Hs' & Hle).
  exists s. split; [done|]. split; [done|]. intros Hi.
  pose proof (frames_take_S ps i p Hp). pose proof (frame_offset_mono ps (S i) (Z.to_nat n) ltac:(lia)) as Hmono.
  unfold frame_offset at 2 in Hmono. unfold load_le in *.
  rewrite (load_same _ _ (r_mem (buffer sgm))) in Hs'; [rewrite Hs' in Hs; by injection Hs|apply Hdd|].
  intros k Hk. apply Hdd. size_lia.
Qed.

(** There is room for a header at the start of the data. *)
Lemma header_room o k : 0 ≤ o → 0 ≤ k → o + k ≤ header_size → ∃ bs, load o k dd = Ok bs.
Proof using All.
  intros Ho Hk Hok. destruct (load_Ok o k dd) as (bs & Hbs & _); [done|done| |by exists bs].
  rewrite (da_length _ _ _ Hdd), (inv_len _ _ _ I). pose proof (inv_used _ _ _ I) as Hu. pose proof (inv_room _ _ _ I) as Hr.
  unfold used in *. destruct eos; [|specialize (Hr eq_refl)]; lia.
Qed.

Lemma crashed_loop fuel i :
  (0 < i ≤ Nat.max 1 (length ps))%nat → (Nat.max 1 (length ps) < i + fuel)%nat →
  ∃ j d', find_w_loop fuel (Z.of_nat i) (frame_offset ps (i - 1)) dd (di ++ tail) =
      Ok (0, Some (OffsetPair j d')) ∧
    n ≤ j ∧ zlen (frames (take (Z.to_nat n) ps)) ≤ d'.
Proof using All.
  pose proof (inv_size _ _ _ I). pose proof (seg_frames_bound _ _ _ I). pose proof (frames_length ps).
  revert i. induction fuel as [|fuel IH]; intros i Hi Hf; [lia|]. cbn [find_w_loop].
  assert (Hin : index_entry_size * (Z.of_nat i + 1) ≤ zlen di) by size_lia.
  rewrite (crashed_entry i Hin).
  destruct (xa_entry _ _ _ Hdi i Hin) as [Hz|(p & Hp & Hg)].
  - run Hz. cbn [Z.eqb]. rewrite (proj2 (Z.eqb_neq (Z.of_nat i) 0)) by lia. rewrite bind_Ok.
    assert (Hni : n ≤ Z.of_nat i).
    { destruct (Z.leb_spec n (Z.of_nat i)); [done|exfalso]. destruct (lookup_lt_is_Some_2 ps i) as [q Hq]; [lia|].
      rewrite (xa_below _ _ _ Hdi i q) in Hz by (lia || done). injection Hz as Hz.
      pose proof (frame_offset_pos _ _ _ Hq). size_lia. }
    destruct (ps !! (i - 1)%nat) as [q|] eqn:Hq.
    + destruct (crashed_size _ _ Hq) as (s & Hs & Hle & Hexact). run Hs. eexists _, _. split; [done|].
      pose proof (frame_offset_bound _ _ _ Hq). rewrite !u32_small by size_lia. split; [lia|].
      destruct (decide (Z.of_nat (i - 1) < n)) as [Hlt|Hge].
      * rewrite (Hexact Hlt), <- (frames_take_S ps _ _ Hq). apply frame_offset_mono; lia.
      * pose proof (frame_offset_mono ps (Z.to_nat n) (i - 1) ltac:(lia)) as Hmono. unfold frame_offset at 1 in Hmono. lia.
    + apply lookup_ge_None in Hq. assert (ps = []) as Hnil by (destruct ps; [done|simpl in *; lia]).
      assert (i = 1%nat) as -> by (rewrite Hnil in Hi; simpl in Hi; lia).
      assert (Hfz : frame_offset ps (1 - 1) = 0) by (by rewrite Hnil). rewrite Hfz.
      destruct (header_room 4 4) as [bs Hbs]; [size_lia..|]. unfold get_size, load_le. change (0 + 4) with 4.
      change (Z.of_nat 4) with 4. rewrite Hbs, !bind_Ok. eexists _, _. split; [done|].
      replace n with 0 by (rewrite Hnil in Hn; simpl in Hn; lia). rewrite Hnil. split; [apply u32_range|]. apply u32_range.
  - run Hg. pose proof (frame_offset_pos _ _ _ Hp ltac:(lia)) as Hpos.
    rewrite (proj2 (Z.eqb_neq (frame_offset ps i) 0)) by size_lia. rewrite bind_Ok.
    replace (Z.of_nat i + 1) with (Z.of_nat (S i)) by lia. apply lookup_lt_Some in Hp.
    destruct (IH (S i)) as (j & d' & Hrun & Hres); [lia..|]. replace (S i - 1)%nat with i in Hrun by lia. by exists j, d'.
Qed.

(** The first header: what [prot_is_header] finds of it. *)
Lemma crashed_first : ∃ b, prot_is_header 0 dd = Ok b ∧ (0 < n → b = true).
Proof using All.
  destruct (header_room 0 2) as [bs Hbs]; [size_lia..|]. unfold prot_is_header, get_flags, load_le.
  change (Z.of_nat 2) with 2. rewrite Hbs, !bind_Ok. eexists. split; [done|]. intros Hpos.
  destruct (lookup_lt_is_Some_2 ps 0) as [p Hp]; [lia|].
  destruct (header_at_frame _ _ _ I 0 p Hp) as (_ & Hf & _). unfold get_flags, load_le in Hf.
  pose proof (frames_take_S ps 0 p Hp) as Hfo. pose proof (frame_offset_mono ps 1 (Z.to_nat n) ltac:(lia)) as Hmono.
  unfold frame_offset at 2 in Hmono. change (frame_offset ps 0) with 0 in *.
  change (Z.of_nat 2) with 2 in Hf.
  rewrite <- (load_same 0 2 (r_mem (buffer sgm)) dd) in Hf; [|apply Hdd|intros k Hk; apply Hdd; size_lia]. rewrite Hbs, bind_Ok in Hf. injection Hf as ->. done.
Qed.

(** The scan finds at least the synced entries, and a write offset past them. *)
Lemma crashed_scan :
  ∃ j d', find_w_offset_pair dd (di ++ tail) (zlen di) = Ok (0, Some (OffsetPair j d')) ∧
    n ≤ j ∧ zlen (frames (take (Z.to_nat n) ps)) ≤ d'.
Proof using All.
  unfold find_w_offset_pair.
  assert (Hmax : Z.of_nat (S (Nat.max 1 (length ps))) ≤ zlen di / index_entry_size) by (apply Z.div_le_lower_bound; size_lia).
  destruct (Z.to_nat (zlen di / index_entry_size)) as [|fuel] eqn:Hfuel; [lia|]. cbn [find_w_loop].
  assert (Hin : index_entry_size * (Z.of_nat 0 + 1) ≤ zlen di) by size_lia.
  assert (Hz : get_index 0 (di ++ tail) = Ok 0).
  { rewrite (crashed_entry 0 Hin : get_index 0 (di ++ tail) = _).
    destruct (xa_entry _ _ _ Hdi 0 Hin) as [Hz|(p & _ & Hg)]; [done|exact Hg]. }
  run Hz. cbn [Z.eqb]. destruct crashed_first as (b & Hb & Hbn). run Hb. destruct b.
  - destruct (crashed_loop fuel 1) as (j & d' & Hrun & Hres); [lia..|]. exists j, d'. split; [exact Hrun|done].
  - assert (n = 0) as -> by (destruct (Z.ltb_spec 0 n) as [Hlt|]; [by specialize (Hbn Hlt)|lia]).
    exists 0, 0. split; [done|]. split; [done|]. simpl. lia.
Qed.

(** ** Reading the payloads below the synced entries *)

Lemma synced_frames : frames (take (Z.to_nat n) ps) `prefix_of` dd.
Proof using All.
  set (qs := take (Z.to_nat n) ps) in *.
  assert (Hpre : frames qs `prefix_of` r_mem (buffer sgm)).
  { etransitivity; [|apply (inv_frames _ _ _ I)]. rewrite <- (take_drop (Z.to_nat n) ps), frames_app. by eexists. }
  destruct Hpre as [t Ht]. exists (drop (length (frames qs)) dd).
  rewrite <- (take_drop (length (frames qs)) dd) at 1. f_equal. apply list_eq. intros k.
  destruct (decide (k < length (frames qs))%nat) as [Hk|Hk].
  - rewrite lookup_take_lt, (da_below _ _ _ Hdd), Ht by lia. by apply lookup_app_l.
  - rewrite lookup_take_ge by lia. symmetry. apply lookup_ge_None. lia.
Qed.

(** The synced part of a segment over the disk, as a segment. *)
Definition synced_part (sgm2 : segment) : segment :=
  Segment LATEST_SEGMENT_VERSION 0 0 0 (size sgm) (base_offset sgm) (buffer sgm2)
    (Region 0 (index_bytes (take (Z.to_nat n) ps))) (OffsetPair 0 0)
    (OffsetPair (zlen (take (Z.to_nat n) ps)) (used (take (Z.to_nat n) ps) false)).

Lemma synced_part_inv sgm2 :
  r_mem (buffer sgm2) = dd → 0 < n → seg_inv (synced_part sgm2) (take (Z.to_nat n) ps) false.
Proof using All.
  intros Hb Hpos. set (qs := take (Z.to_nat n) ps) in *.
  pose proof (da_length _ _ _ Hdd). pose proof (inv_len _ _ _ I). pose proof (inv_used _ _ _ I) as Hu.
  pose proof (inv_room _ _ _ I) as Hr.
  assert (Hle : zlen (frames qs) ≤ zlen (frames ps)).
  { pose proof (frame_offset_mono ps (Z.to_nat n) (length ps) ltac:(lia)) as Hm. unfold frame_offset in Hm.
    by rewrite firstn_all in Hm. }
  assert (Hroom : zlen (frames qs) + header_size ≤ size sgm).
  { unfold used in *. destruct eos; [|specialize (Hr eq_refl)]; size_lia. }
  split; cbn [synced_part size buffer Segment.index w_offset_pair base_offset r_mem]; rewrite ?used_false, ?Hb; try apply I; try done.
  - lia.
  - apply synced_frames.
  - intros Hnil. apply (f_equal length) in Hnil. unfold qs in Hnil. rewrite length_take in Hnil. simpl in Hnil. lia.
  - size_lia.
  - rewrite zlen_index_bytes, Z.sub_diag. by rewrite app_nil_r.
  - by rewrite zlen_index_bytes.
Qed.

(** A segment over the disk reads them. *)
Lemma crashed_read sgm2 i p :
  r_mem (buffer sgm2) = dd → r_mem (index sgm2) = di ++ tail → s_offset_pair sgm2 = w_offset_pair sgm2 →
  n ≤ op_index (w_offset_pair sgm2) → zlen (frames (take (Z.to_nat n) ps)) ≤ op_data (w_offset_pair sgm2) →
  Z.of_nat i < n → ps !! i = Some p → read_payload sgm2 i = Ok (zlen p, Some p).
Proof using All.
  intros Hb Hx Hs Hj Hd' Hi Hp. set (qs := take (Z.to_nat n) ps) in *.
  assert (Hq : qs !! i = Some p) by (unfold qs; rewrite lookup_take_lt by lia; done).
  assert (Hfo : frame_offset qs i = frame_offset ps i).
  { unfold frame_offset, qs. rewrite take_take. by replace (i `min` Z.to_nat n)%nat with i by lia. }
  pose proof (synced_part_inv sgm2 Hb ltac:(lia)) as IV. fold qs in IV.
  destruct (header_at_frame _ _ _ IV i p Hq) as (Hsz & Hf & Hsize & _). cbn [synced_part buffer] in Hf, Hsize.
  rewrite Hfo in Hf, Hsize.
  assert (Hg : get_index (Z.of_nat i) (r_mem (index sgm2)) = Ok (frame_offset ps i)).
  { rewrite Hx, crashed_entry by size_lia. by apply (xa_below _ _ _ Hdi i p). }
  unfold read_payload. rewrite (segment_read_slot sgm2 (Z.of_nat i) (frame_offset ps i) (zlen p)); try done; [|lia| |size_lia].
  2:{ intros Hne. pose proof (frame_offset_pos _ _ _ Hp ltac:(lia)). size_lia. }
  assert (Hbound : read_boundary sgm2 = op_data (w_offset_pair sgm2)) by (unfold read_boundary; rewrite Hs; by destruct (_ =? _)).
  pose proof (frame_offset_bound _ _ _ Hq) as Hbd. rewrite Hfo in Hbd. rewrite Hbound.
  destruct (Z.geb_spec (frame_offset ps i) (op_data (w_offset_pair sgm2))); [size_lia|]. rewrite bind_Ok.
  rewrite (proj2 (Z.ltb_ge _ _)) by lia. pose proof (proj1 (frame_payload_at _ _ _ IV i p Hq)) as Hpay.
  change (frame_payload (buffer sgm2) (frame_at sgm2 (frame_offset qs i)) = Ok p) in Hpay.
  rewrite Hfo in Hpay. by run Hpay.
Qed.
End recover.

(** ** Opening after a crash *)

Section crash.
Context {W : Type} `{!Posix W, !PosixLaws W, !DiskLaws W}.
Context (dir : string) (off e : Z) (Hdir : dir_ok dir) (He : 3 ≤ e ≤ 31) (Hpage : os_pagesize = 2 ^ e).
Implicit Types (w : W) (sgm : segment).
Abbreviation pd := (path_in dir (data_name off)).
Abbreviation pi := (path_in dir (index_name off)).
Abbreviation on_disk := (on_disk dir off e).
Abbreviation lives := (lives dir off).

(** The machine went down in [w] and is up again in [w0]. *)
Definition crashed (w w0 : W) : Prop :=
  v_files (ps_view w0) !! pd = disk w !! pd ∧ v_files (ps_view w0) !! pi = disk w !! pi.

(** What an open finds of a segment that went down. *)
Lemma open_crashed fl w sgm ps eos w0 :
  on_disk w sgm ps eos → crashed w w0 → 0 < size sgm → size sgm mod os_pagesize = 0 → slots (size sgm) 1 →
  ∃ rc o w', segment_open dir off (size sgm) fl w0 = Ok (rc, o, w') ∧
    match o with
    | Some (_, sgm2) => rc = 0 ∧ ∀ i p, Z.of_nat i < op_index (s_offset_pair sgm) → ps !! i = Some p →
        read_payload sgm2 i = Ok (zlen p, Some p)
    | None => rc ∈ [ELALLC; ELFLEOP; ELMMAP; ELMADV]
    end.
Proof using All.
  intros [Hat I _ _ (dd & Hdd & Hds) (di & Hdi & Hlen & Hix) Hsl Hn Ho] [Hfd Hfi] Hsz Hmod Hone.
  rewrite Hdd in Hfd. rewrite Hdi in Hfi. unfold slots in Hsl, Hone.
  assert (Hdl : zlen dd = size sgm) by (rewrite (da_length _ _ _ Hds); apply I).
  assert (Hdata : data_on_disk w0 dir off (size sgm) = dd).
  { unfold data_on_disk. rewrite Hfd. by apply sized_exact. }
  assert (Hindex : index_on_disk w0 dir off (size sgm) = di).
  { unfold index_on_disk. rewrite Hfi. by apply sized_exact. }
  set (tail := zeros (page_round os_pagesize (calculate_index_size (size sgm)) - calculate_index_size (size sgm))).
  destruct (crashed_scan sgm ps eos I (op_index (s_offset_pair sgm)) (op_data (s_offset_pair sgm)) dd di tail Hds Hix Hn
    (proj1 Ho)) as (j & d' & Hscan & Hj & Hd'); [lia|lia|].
  destruct (segment_open_found dir off (size sgm) fl w0 0 (Some (OffsetPair j d'))) as (rc & o & w' & Hrun & Hres);
    rewrite ?Hdata, ?Hindex; try done; [lia|by rewrite Hlen in Hscan|].
  exists rc, o, w'. split; [done|]. destruct o as [[a sgm2]|]; [|destruct Hres as [|[? _]]; done].
  destruct Hres as (-> & (ifd & dfd & bb & ib & wp & Heq) & [= Hwp] & _). split; [done|]. intros i p Hi Hp.
  apply (crashed_read sgm ps eos I (op_index (s_offset_pair sgm)) (op_data (s_offset_pair sgm)) dd di tail Hds Hix Hn
    (proj1 Ho)); rewrite <- ?Hwp; try done; [lia|lia| | |].
  - rewrite Heq. exact Hdata.
  - rewrite Heq. cbn [index r_mem]. by rewrite Hindex.
  - by rewrite Hwp, Heq.
Qed.

(** [C11]: What [segment_sync] acknowledged survives a crash of the machine:
    when it has returned a positive code, then whatever is written (payloads
    below 2^63 bytes, as long as each write leaves a free slot in the index
    file) and synced afterwards, and whichever pages the kernel has written
    back, [segment_open] of the files that the disk holds gives a segment that
    reads every payload the segment held at the sync, or the system refuses
    with one of [ELALLC], [ELFLEOP], [ELMMAP] and [ELMADV]. Assumed: at the
    sync the files are those of the segment, whose index file has a free slot,
    with the synced prefix on the disk ([on_disk]); the segment is a positive
    whole number of pages below 2 GiB, its mappings are page aligned below
    2^64, a page has 2^e bytes, 3 <= e <= 31; the crash falls between two
    calls. Small payloads that fill the index file make the open fail with
    [ELWOFFS] instead. *)
Theorem synced_survives_crash fl w sgm ps eos rc sgm1 w1 sgm2 w2 w0 :
  on_disk w sgm ps eos → 0 < size sgm → size sgm mod os_pagesize = 0 → slots (size sgm) 1 →
  segment_sync sgm w = (rc, sgm1, w1) → 0 < rc → lives sgm1 w1 sgm2 w2 → crashed w2 w0 →
  ∃ rc' o w3, segment_open dir off (size sgm) fl w0 = Ok (rc', o, w3) ∧
    match o with
    | Some (_, sgm3) => rc' = 0 ∧ ∀ i p, ps !! i = Some p → read_payload sgm3 i = Ok (zlen p, Some p)
    | None => rc' ∈ [ELALLC; ELFLEOP; ELMMAP; ELMADV]
    end.
Proof using All.
  intros H Hsz Hmod Hone Hs Hrc Hl Hc. destruct (sync_on_disk dir off e He Hpage _ _ _ _ _ _ _ H Hs) as (H1 & _ & Hall).
  specialize (Hall Hrc). destruct (sync_inv _ _ _ _ _ _ _ Hs (od_inv _ _ _ _ _ _ _ H)) as [_ Hsame].
  destruct (lives_on_disk dir off e He Hpage _ _ _ _ Hl _ _ H1) as (ps2 & eos2 & H2 & [k Hpre] & Hsize & Hle).
  rewrite (same_size _ _ Hsame) in Hsize. rewrite <- Hsize in *.
  destruct (open_crashed fl w2 sgm2 ps2 eos2 w0 H2 Hc Hsz Hmod Hone) as (rc' & o & w3 & Hrun & Hres).
  exists rc', o, w3. split; [done|]. destruct o as [[a sgm3]|]; [|done]. destruct Hres as [-> Hread].
  split; [done|]. intros i p Hp. apply lookup_lt_Some in Hp as Hlt. apply Hread; [lia|].
  rewrite Hpre. by apply lookup_app_l_Some.
Qed.

(** A segment just opened from files that are on the disk. *)
Lemma opened_on_disk w w' sz fl sgm ps :
  opened w dir off sz fl sgm → stored w dir off sz ps → attached w' dir off sgm → placed e sgm →
  0 ≤ sz < 2 ^ 32 → sz mod os_pagesize = 0 → 0 ≤ off < 2 ^ 63 - 2 ^ 32 →
  (* what the scan found *)
  w_offset_pair sgm = OffsetPair (zlen ps) (zlen (frames ps)) →
  blank_from (zlen (frames ps)) (data_on_disk w dir off sz) →
  disk w' !! pd = Some (data_on_disk w dir off sz) → disk w' !! pi = Some (index_on_disk w dir off sz) →
  on_disk w' sgm ps false.
Proof using He.
  intros (ifd & dfd & bb & ib & wp & ->) Hst Hat Hpl Hsz Hmod Hoff Hwp Hb Hd Hi. cbn [w_offset_pair] in Hwp. subst wp.
  pose proof (stored_inv w dir off sz fl ps bb ib ifd dfd Hst Hsz Hmod Hoff) as [I _].
  cbv zeta in I. rewrite page_round_exact, Z.sub_diag, app_nil_r in I by done.
  assert (Hix : zlen (index_on_disk w dir off sz) = calculate_index_size sz).
  { rewrite (st_index _ _ _ _ _ Hst), length_app, Nat2Z.inj_add, zlen_index_bytes, length_zeros.
    pose proof (st_slot _ _ _ _ _ Hst). size_lia. }
  assert (Hentry : ∀ i, index_entry_size * (Z.of_nat i + 1) ≤ calculate_index_size sz →
    get_index (Z.of_nat i) (index_on_disk w dir off sz) =
      Ok (match ps !! i with Some _ => frame_offset ps i | None => 0 end)).
  { intros i Hin. rewrite <- (get_index_mem _ _ _ i I).
    - cbn [index r_mem]. unfold get_index, load_le. rewrite load_app_first; [done|size_lia..].
    - cbn [index r_mem]. rewrite length_app. lia. }
  pose proof (st_slot _ _ _ _ _ Hst) as Hslot.
  split; cbn [s_offset_pair op_index op_data buffer index r_mem size]; rewrite ?used_false; try done.
  - exists (data_on_disk w dir off sz). split; [done|]. split; [done|done|]. by right.
  - exists (index_on_disk w dir off sz). split; [done|]. split; [done|]. split.
    + intros i Hin. rewrite Hentry by lia. destruct (ps !! i) as [p|]; [right; by exists p|by left].
    + intros i p Hlt Hp. rewrite Hentry by size_lia. by rewrite Hp.
  - lia.
  - rewrite Nat2Z.id, firstn_all. lia.
Qed.
(** [C31]: a sync that could flush the data but not the index is not made up
    for: when what is written ends on a page, the next syncs flush no byte of
    the index and return 0, although its last entries are not on the disk. *)
Theorem sync_forgets_index w sgm ps eos rc sgm' w' :
  on_disk w sgm ps eos → op_data (s_offset_pair sgm) = used ps eos → used ps eos mod os_pagesize = 0 →
  segment_sync sgm w = (rc, sgm', w') →
  (rc = 0 ∨ rc = ELDTSYN) ∧ s_offset_pair sgm' = s_offset_pair sgm ∧ disk w' !! pi = disk w !! pi.
Proof using He Hpage.
  intros [Hat I [(Hb0 & Hal & Hbs) _ Hsz] _ (dd & Hdd & _) _ _ _ Ho] Hd Hmod. rewrite Hpage in Hmod.
  pose proof (inv_used _ _ _ I). assert (Hw : op_data (w_offset_pair sgm) = used ps eos) by (by rewrite (inv_w _ _ _ I)).
  pose proof (sync_data_eq e ltac:(lia) Hpage sgm w Hb0 Hal) as E. cbv zeta in E. rewrite Hw, Hd, Hmod, Z.sub_0_r, Z.sub_diag in E.
  unfold segment_sync. rewrite E by lia. clear E. destruct (os_msync (buffer sgm) _ _ w) as [rc1 w1] eqn:Em.
  destruct (msync_disk dir off _ _ _ _ _ _ _ _ sgm Hat (or_introl (conj eq_refl eq_refl)) Hdd Em) as (pages & Hdisk & _).
  assert (Hpi : disk w1 !! pi = disk w !! pi) by (rewrite Hdisk; apply lookup_insert_ne, not_eq_sym, paths_ne).
  destruct (rc1 =? 0); intros [= <- <- <-]; [|split; [by right|done]].
  split; [by left|]. split; [|done]. cbn [s_offset_pair set_s_offset_pair]. rewrite <- Hd. by destruct (s_offset_pair sgm).
Qed.
End crash.

(** ** A concrete crash *)

(** The kernel writes back the pages of [f] of the data and those of [g] of the
    index. *)
Definition flush_files {W} `{!Posix W} (dir : string) (off : Z) (f g : Z → bool) (sgm : segment) (dd di : bytes)
    (w : disked W) : disked W :=
  Disked (dk_os w)
    (<[path_in dir (data_name off) := flush os_pagesize f (r_mem (buffer sgm)) dd]>
       (<[path_in dir (index_name off) := flush os_pagesize g (r_mem (index sgm)) di]> (dk_disk w))).

Lemma lives_flush_files {W} `{!Posix W, !PosixLaws W} dir off f g sgm dd di (w : disked W) :
  dk_disk w !! path_in dir (data_name off) = Some dd → dk_disk w !! path_in dir (index_name off) = Some di →
  lives dir off sgm w sgm (flush_files dir off f g sgm dd di w).
Proof.
  intros Hd Hi. by apply (lives_flush _ _ _ _ dd di f g (flush_files dir off f g sgm dd di w)); try constructor.
Qed.

(** A new segment, its empty files on the disk. *)
Definition demo_disk_open : result (Z * option (Z * segment) * disked mem_os) :=
  segment_open "/log" 0 8192 SGM_RDDRT (Disked demo_world ∅).
Definition disk_sgm (r : result (Z * option (Z * segment) * disked mem_os)) : segment :=
  match r with Ok (_, Some (_, s), _) => s | _ => demo end.
Definition demo_disk_world : disked mem_os :=
  match demo_disk_open with Ok (_, _, w) => Disked (dk_os w) (mo_files (dk_os w)) | _ => Disked demo_world ∅ end.

(** A payload, a sync, another payload; the kernel writes back the index but
    not the data, and the machine goes down. *)
Definition demo_disk_first : segment := seg_of (segment_write (disk_sgm demo_disk_open) abc).
Definition demo_disk_sync : Z * segment * disked mem_os := segment_sync demo_disk_first demo_disk_world.
Definition demo_disk_second : segment := seg_of (segment_write demo_disk_sync.1.2 abc).
Definition demo_data : bytes := default [] (dk_disk demo_disk_sync.2 !! path_in "/log" (data_name 0)).
Definition demo_index : bytes := default [] (dk_disk demo_disk_sync.2 !! path_in "/log" (index_name 0)).
Definition demo_disk_flushed : disked mem_os :=
  flush_files "/log" 0 (λ _, false) (λ _, true) demo_disk_second demo_data demo_index demo_disk_sync.2.
Definition demo_disk_restart : disked mem_os := Disked (mo_boot (dk_disk demo_disk_flushed)) ∅.

Lemma demo_disk_placed : placed 12 (disk_sgm demo_disk_open).
Proof. split; vm_compute; repeat split; congruence. Qed.

Lemma demo_disk_files :
  data_on_disk (Disked demo_world ∅) "/log" 0 8192 = zeros 8192 ∧
  index_on_disk (Disked demo_world ∅) "/log" 0 8192 = zeros 682 ∧
  dk_disk demo_disk_world !! path_in "/log" (data_name 0) = Some (zeros 8192) ∧
  dk_disk demo_disk_world !! path_in "/log" (index_name 0) = Some (zeros 682).
Proof. by vm_compute. Qed.

Lemma demo_disk_opens : match demo_disk_open with Ok (_, Some _, _) => true | _ => false end = true.
Proof. by vm_compute. Qed.

Lemma demo_disk_page : 8192 mod os_pagesize (W := disked mem_os) = 0.
Proof. by vm_compute. Qed.

Lemma demo_disk_pow : os_pagesize (W := disked mem_os) = 2 ^ 12.
Proof. done. Qed.

Lemma demo_disk_scan :
  find_w_offset_pair (data_on_disk (Disked demo_world ∅) "/log" 0 8192) (index_on_disk (Disked demo_world ∅) "/log" 0 8192 ++
    zeros (page_round (os_pagesize (W := disked mem_os)) (calculate_index_size 8192) - calculate_index_size 8192))
    (calculate_index_size 8192) = Ok (0, Some (OffsetPair 0 0)).
Proof. by vm_compute. Qed.

Lemma blank_zeros n : blank_from 0 (zeros n).
Proof. intros k b _ Hk. apply list_elem_of_lookup_2, list_elem_of_In in Hk. by apply (repeat_spec (Z.to_nat n)). Qed.

Lemma demo_disk_started : on_disk "/log" 0 12 demo_disk_world (disk_sgm demo_disk_open) [] false.
Proof.
  assert (Hst : stored (Disked demo_world ∅) "/log" 0 8192 []) by (apply stored_fresh; by vm_compute).
  destruct demo_disk_files as (Hd & Hi & Hdd & Hdi).
  destruct (segment_open_found "/log" 0 8192 SGM_RDDRT (Disked demo_world ∅) 0 (Some (OffsetPair 0 0))) as (rc & o & w' & Hrun & Hres);
    [split; [done|simpl; lia]|by rewrite Hd| |exact demo_disk_page|exact demo_disk_scan|].
  { clear. lia. }
  pose proof demo_disk_placed as Hpl. pose proof demo_disk_opens as Hopen. fold demo_disk_open in Hrun. unfold demo_disk_world in *. rewrite Hrun in *.
  destruct o as [[a s]|]; [|discriminate Hopen].
  cbn [disk_sgm] in *. destruct Hres as (_ & Ho & Hwp & Hat).
  apply (opened_on_disk "/log" 0 12 ltac:(lia) (Disked demo_world ∅) _ 8192 SGM_RDDRT s [] Ho Hst).
  - by eapply (attached_view "/log" 0 w').
  - exact Hpl.
  - lia.
  - by vm_compute.
  - lia.
  - by injection Hwp.
  - rewrite Hd. apply blank_zeros.
  - by rewrite Hd.
  - by rewrite Hi.
Qed.

Lemma demo_disk_wrote : ∃ eos, on_disk "/log" 0 12 demo_disk_world demo_disk_first [abc] eos.
Proof.
  assert (Hw : segment_write (disk_sgm demo_disk_open) abc = Ok (3, demo_disk_first)) by (by vm_compute).
  destruct (write_on_disk "/log" 0 12 ltac:(lia) _ _ _ _ _ _ _ demo_disk_started (eq_refl : zlen abc < 2 ^ 63) Hw) as (ps & eos & H & Hps & _);
    [by vm_compute|]. exists eos. destruct Hps as [[_ ->]|[Hbad _]]; [exact H|by vm_compute in Hbad].
Qed.

Lemma demo_disk_code : demo_disk_sync.1.1 = 1.
Proof. by vm_compute. Qed.

Lemma demo_disk_synced :
  segment_sync demo_disk_first demo_disk_world = (demo_disk_sync.1.1, demo_disk_sync.1.2, demo_disk_sync.2).
Proof. unfold demo_disk_sync. by destruct (segment_sync _ _) as [[? ?] ?]. Qed.

Lemma demo_disk_lives : lives "/log" 0 demo_disk_sync.1.2 demo_disk_sync.2 demo_disk_second demo_disk_flushed.
Proof.
  apply (lives_write _ _ _ _ abc 3 demo_disk_second); [by vm_compute..|].
  apply lives_flush_files; by vm_compute.
Qed.

Lemma demo_disk_crashed : crashed "/log" 0 demo_disk_flushed demo_disk_restart.
Proof. by split. Qed.

Lemma synced_survives_crash_witness :
  ∃ rc o w, segment_open "/log" 0 8192 SGM_RDCMT demo_disk_restart = Ok (rc, o, w) ∧
    match o with
    | Some (_, sgm) => rc = 0 ∧ ∀ i p, [abc] !! i = Some p → read_payload sgm i = Ok (zlen p, Some p)
    | None => rc ∈ [ELALLC; ELFLEOP; ELMMAP; ELMADV]
    end.
Proof.
  destruct demo_disk_wrote as [eos H].
  apply (synced_survives_crash (W := disked mem_os) "/log" 0 12 ltac:(split; [done|simpl; lia]) ltac:(lia) eq_refl SGM_RDCMT demo_disk_world demo_disk_first
    [abc] eos 1 demo_disk_sync.1.2 demo_disk_sync.2 demo_disk_second demo_disk_flushed).
  - exact H.
  - by vm_compute.
  - by vm_compute.
  - by vm_compute.
  - rewrite <- demo_disk_code. apply demo_disk_synced.
  - lia.
  - exact demo_disk_lives.
  - exact demo_disk_crashed.
Defined.

(** Two payloads that fill a page of the data, which [sync_data] flushes; the
    index is refused. *)
Definition half_page : bytes := zeros 2036.
Definition demo_half : segment := seg_of (segment_write (disk_sgm demo_disk_open) half_page).
Definition demo_page : segment := seg_of (segment_write demo_half half_page).
Definition demo_page_synced : Z * segment * disked mem_os := sync_data demo_page demo_disk_world.

Lemma demo_page_on_disk : ∃ eos, on_disk "/log" 0 12 demo_page_synced.2 demo_page_synced.1.2 [half_page; half_page] eos ∧
  used [half_page; half_page] eos = 4096.
Proof.
  assert (Hw : segment_write (disk_sgm demo_disk_open) half_page = Ok (2036, demo_half)) by (by vm_compute).
  assert (Hw' : segment_write demo_half half_page = Ok (2036, demo_page)) by (by vm_compute).
  destruct (write_on_disk "/log" 0 12 ltac:(lia) _ _ _ _ _ _ _ demo_disk_started (eq_refl : zlen half_page < 2 ^ 63) Hw)
    as (ps1 & eos1 & H1 & [[_ ->]|[Hbad _]] & _); [by vm_compute| |by vm_compute in Hbad].
  destruct (write_on_disk "/log" 0 12 ltac:(lia) _ _ _ _ _ _ _ H1 (eq_refl : zlen half_page < 2 ^ 63) Hw')
    as (ps2 & eos & H2 & [[_ ->]|[Hbad _]] & _); [by vm_compute| |by vm_compute in Hbad].
  destruct demo_page_synced as [[rc s] w] eqn:Es. exists eos.
  unfold demo_page_synced in Es.
  destruct (sync_data_on_disk (W := disked mem_os) "/log" 0 12 ltac:(lia) demo_disk_pow _ _ _ _ _ _ _ H2 Es) as (H3 & _ & _).
  split; [exact H3|]. pose proof (inv_w _ _ _ (od_inv _ _ _ _ _ _ _ H2)) as Hwp.
  assert (Hd : op_data (w_offset_pair demo_page) = 4096) by (by vm_compute).
  rewrite Hwp in Hd. exact Hd.
Qed.

Lemma sync_forgets_index_witness :
  op_index (s_offset_pair demo_page_synced.1.2) = 0 ∧
  ∀ rc sgm w, segment_sync demo_page_synced.1.2 demo_page_synced.2 = (rc, sgm, w) →
    (rc = 0 ∨ rc = ELDTSYN) ∧ s_offset_pair sgm = s_offset_pair demo_page_synced.1.2 ∧
    disk w !! path_in "/log" (index_name 0) = disk demo_page_synced.2 !! path_in "/log" (index_name 0).
Proof.
  split; [by vm_compute|]. intros rc sgm w Hs. destruct demo_page_on_disk as (eos & H & Hu).
  apply (sync_forgets_index (W := disked mem_os) "/log" 0 12 ltac:(lia) demo_disk_pow demo_page_synced.2 demo_page_synced.1.2
    [half_page; half_page] eos rc sgm w H).
  - rewrite Hu. by vm_compute.
  - by rewrite Hu.
  - exact Hs.
Defined.
