(* ===== verification/SegmentCrashGap.v ===== *)
(** * An index entry without its frame

    The scan of [segment_open] looks at the index and at the size in the last
    header, not at its flags. After a crash in which the kernel had written
    back the index entry of a payload but not its frame, the segment opens with
    that entry, and the next payload is read at two offsets. *)

From S2P Require Import Prelude Errno Crc32 Prot Util Posix MemOs Disk Segment SegmentInv SegmentOps SegmentSpec SegmentBytes SegmentFile SegmentFileSpec SegmentDurable SegmentCrash SegmentCrashSpec.

(** The segment that was opened: the data ends after the frames of [ps], the
    index has one entry more. *)
Record gap (ps : list bytes) (sgm : segment) : Prop := {
  gp_size : 0 ≤ size sgm < 2 ^ 32;
  gp_data : r_mem (buffer sgm) = frames ps ++ zeros (size sgm - zlen (frames ps));
  gp_room : zlen (frames ps) + header_size ≤ size sgm;
  gp_w : w_offset_pair sgm = OffsetPair (zlen ps + 1) (zlen (frames ps));
  gp_s : op_data (s_offset_pair sgm) = zlen (frames ps);
  gp_entry : get_index (zlen ps) (r_mem (index sgm)) = Ok (zlen (frames ps));
  gp_index : index_entry_size * (zlen ps + 2) ≤ zlen (r_mem (index sgm));
  gp_base : 0 ≤ base_offset sgm ∧ base_offset sgm + 2 ^ 32 < 2 ^ 63
}.

Section gap.
Context (ps : list bytes) (sgm : segment) (G : gap ps sgm).
Context (Hne : ps ≠ []).

Lemma gap_offset : 0 < zlen ps ∧ header_size ≤ zlen (frames ps).
Proof using Hne.
  assert (0 < zlen ps) by (clear -Hne; destruct ps; [done|simpl; lia]).
  pose proof (frames_length ps). split; [done|]. clear -H H0. size_lia.
Qed.

(** The segment without that entry. *)
Definition no_gap : segment :=
  set_index (index_bytes ps ++ zeros (zlen (r_mem (index sgm)) - index_entry_size * zlen ps))
    (set_w_offset_pair (OffsetPair (zlen ps) (zlen (frames ps))) sgm).

Lemma no_gap_inv : seg_inv no_gap ps false.
Proof using G Hne.
  destruct G as [Hs Hd Hr Hw _ _ Hi Hb]. pose proof gap_offset. pose proof (zlen_index_bytes ps) as Hx.
  assert (Hl : zlen (index_bytes ps ++ zeros (zlen (r_mem (index sgm)) - index_entry_size * zlen ps)) = zlen (r_mem (index sgm))).
  { rewrite length_app, Nat2Z.inj_add, Hx, length_zeros. size_lia. }
  split; cbn [no_gap size buffer index r_mem set_index set_w_offset_pair w_offset_pair base_offset]; rewrite ?used_false, ?Hd, ?Hl; try done.
  - len.
  - by eexists.
  - size_lia.
  - size_lia.
Qed.

(** Nothing is read at the entry. *)
Lemma gap_read : read_payload sgm (length ps) = Ok (ELNORD, None).
Proof using G Hne.
  destruct G as [_ _ _ Hw Hs He _ _]. pose proof gap_offset. unfold read_payload, segment_read. rewrite Hw, Hs.
  cbn [op_index op_data]. rewrite Z.geb_leb, (proj2 (Z.leb_gt _ _)) by lia. run He.
  rewrite (proj2 (Z.eqb_neq (zlen (frames ps)) 0)) by size_lia. rewrite andb_false_r.
  assert (Hb : (zlen (frames ps) >=? (if Z.land (flags sgm) SGM_RDCMT =? SGM_RDCMT then zlen (frames ps) else zlen (frames ps))) = true)
    by (destruct (_ =? _); by rewrite Z.geb_leb, Z.leb_refl).
  rewrite Hb. done.
Qed.

(** The entry of the next payload has the same offset. *)
Lemma gap_put :
  ∃ ix, put_index (zlen ps + 1) (zlen (frames ps)) (r_mem (index sgm)) = Ok ix ∧
    get_index (zlen ps) ix = Ok (zlen (frames ps)) ∧ get_index (zlen ps + 1) ix = Ok (zlen (frames ps)).
Proof using G.
  destruct G as [Hs _ Hr _ _ He Hi _].
  destruct (cut_at (r_mem (index sgm)) (index_entry_size * (zlen ps + 1)) 8) as (pre & mid & post & E & Hp & Hm); [size_lia..|].
  exists (pre ++ le_bytes 8 (zlen (frames ps)) ++ post). unfold put_index. rewrite E at 1.
  rewrite store_le_app by len. split; [done|]. split.
  - rewrite E in He. unfold get_index, load_le in *. rewrite load_app_first in He |- *; [done|size_lia..].
  - unfold get_index. run load_le_app by len. rewrite le_value_bytes; [done|]. size_lia.
Qed.

(** A payload is read at both. *)
Lemma gap_write q :
  forged_eos ps = false → zlen (frames ps) + 2 * header_size + zlen q ≤ size sgm → Z.land (flags sgm) SGM_RDCMT ≠ SGM_RDCMT →
  ∃ sgm3, segment_write sgm q = Ok (zlen q, sgm3) ∧
    segment_write_offset sgm3 = base_offset sgm + zlen ps + 2 ∧
    read_payload sgm3 (length ps) = Ok (zlen q, Some q) ∧ read_payload sgm3 (S (length ps)) = Ok (zlen q, Some q).
Proof using All.
  intros Hforged Hq Hfl. pose proof no_gap_inv as I. pose proof gap_offset as Ho. pose proof (frames_length ps).
  pose proof (gp_size _ _ G). pose proof (gp_base _ _ G).
  assert (Hf : fits no_gap ps q).
  { unfold fits. rewrite used_false. cbn [no_gap size set_index set_w_offset_pair]. lia. }
  destruct (segment_write_at no_gap sgm ps q (zlen ps + 1) I) as (post & Hlen & Hrun); try done.
  { by rewrite (gp_w _ _ G), used_false. } { size_lia. }
  destruct gap_put as (ix & Hput & Hn & Hn1). rewrite Hrun. clear Hrun. run Hput. eexists. split; [done|].
  set (sgm3 := set_index ix _). split.
  { unfold segment_write_offset. cbn [sgm3 set_index set_buffer set_w_offset_pair base_offset w_offset_pair op_index].
    rewrite u64_small; size_lia. }
  assert (Hi : index_fits no_gap ps).
  { unfold index_fits. cbn [no_gap index set_index r_mem]. pose proof (gp_index _ _ G). pose proof (zlen_index_bytes ps).
    rewrite length_app, Nat2Z.inj_add, length_zeros. size_lia. }
  destruct (after_write_inv no_gap ps q post I Hf Hi Hlen) as [IV _]. set (v := set_index _ _) in IV.
  assert (Hq' : (ps ++ [q]) !! length ps = Some q) by (rewrite lookup_app_r, Nat.sub_diag by lia; done).
  assert (Hfo : frame_offset (ps ++ [q]) (length ps) = zlen (frames ps)).
  { unfold frame_offset. by rewrite take_app_length. }
  assert (Hread : ∀ i, (i = length ps ∨ i = S (length ps)) → get_index (Z.of_nat i) ix = Ok (zlen (frames ps)) →
    read_payload sgm3 i = Ok (zlen q, Some q)); [|split; apply Hread; auto; by rewrite Nat2Z.inj_succ, <- Z.add_1_r].
  intros i Hcase Hget. destruct (header_at_frame _ _ _ IV _ _ Hq') as (Hz & Hflags & Hsize & _). rewrite Hfo in Hflags, Hsize.
  unfold read_payload. rewrite (segment_read_slot sgm3 (Z.of_nat i) (zlen (frames ps)) (zlen q)); try done;
    [|cbn; lia|size_lia|size_lia].
  assert (Hb : read_boundary sgm3 = used (ps ++ [q]) false).
  { unfold read_boundary. cbn [sgm3 set_index set_buffer set_w_offset_pair flags]. by rewrite (proj2 (Z.eqb_neq _ _)). }
  rewrite Hb, used_false, frames_snoc, length_app, Nat2Z.inj_add, zlen_frame_bytes, Z.geb_leb.
  rewrite (proj2 (Z.leb_gt _ _)) by size_lia. rewrite bind_Ok, (proj2 (Z.ltb_ge _ _)) by lia.
  pose proof (proj1 (frame_payload_at _ _ _ IV _ q Hq')) as Hpay. rewrite Hfo in Hpay.
  change (frame_payload (buffer sgm3) (frame_at sgm3 (zlen (frames ps))) = Ok q) in Hpay. by run Hpay.
Qed.
End gap.

(** ** The scan *)

Section scan.
Context (ps : list bytes) (Hne : ps ≠ []).
Context (p : bytes) (mem ix : bytes).
Context (Hfirst : prot_is_header 0 mem = Ok true).
Context (Hblank : get_size (zlen (frames ps)) mem = Ok 0).
Context (Hsize : zlen (frames ps) + header_size < 2 ^ 32).
Context (Hix : ∀ i, (i ≤ S (length ps))%nat →
  get_index (Z.of_nat i) ix = Ok (match (ps ++ [p]) !! i with Some _ => frame_offset (ps ++ [p]) i | None => 0 end)).

Lemma gap_loop fuel : ∀ i, (0 < i ≤ S (length ps))%nat → (S (length ps) < i + fuel)%nat →
  find_w_loop fuel (Z.of_nat i) (frame_offset (ps ++ [p]) (i - 1)) mem ix =
    Ok (0, Some (OffsetPair (zlen ps + 1) (zlen (frames ps)))).
Proof using All.
  pose proof (frames_length ps) as Hl.
  induction fuel as [|fuel IH]; intros i Hi Hf; [lia|]. cbn [find_w_loop].
  destruct (decide (i = S (length ps))) as [->|].
  - rewrite Hix, lookup_ge_None_2 by (rewrite ?length_app; simpl; lia). rewrite bind_Ok. cbn [Z.eqb].
    rewrite (proj2 (Z.eqb_neq (Z.of_nat (S (length ps))) 0)) by lia. rewrite bind_Ok.
    replace (S (length ps) - 1)%nat with (length ps) by lia.
    rewrite frame_offset_prefix by lia. unfold frame_offset. rewrite firstn_all. run Hblank.
    rewrite !u32_small by size_lia. do 4 f_equal; lia.
  - destruct (lookup_lt_is_Some_2 (ps ++ [p]) i) as [x Hx]; [rewrite length_app; simpl; lia|].
    rewrite Hix, Hx by lia. rewrite bind_Ok.
    pose proof (frame_offset_pos _ _ _ Hx ltac:(lia)).
    rewrite (proj2 (Z.eqb_neq (frame_offset (ps ++ [p]) i) 0)) by size_lia. rewrite bind_Ok.
    replace (Z.of_nat i + 1) with (Z.of_nat (S i)) by lia.
    specialize (IH (S i)). replace (S i - 1)%nat with i in IH by lia. apply IH; lia.
Qed.

Lemma gap_scan n : index_entry_size * (zlen ps + 2) ≤ n →
  find_w_offset_pair mem ix n = Ok (0, Some (OffsetPair (zlen ps + 1) (zlen (frames ps)))).
Proof using All.
  intros Hn. unfold find_w_offset_pair.
  assert (zlen ps + 2 ≤ n / index_entry_size) by (apply Z.div_le_lower_bound; size_lia).
  destruct (Z.to_nat (n / index_entry_size)) as [|fuel] eqn:Hfuel; [lia|]. cbn [find_w_loop].
  destruct (lookup_lt_is_Some_2 (ps ++ [p]) 0) as [x Hx]; [rewrite length_app; simpl; lia|].
  pose proof (Hix 0%nat ltac:(lia)) as H0. rewrite Hx in H0. change (frame_offset (ps ++ [p]) 0) with 0 in H0.
  change (Z.of_nat 0) with 0 in H0. run H0. cbn [Z.eqb]. run Hfirst.
  apply (gap_loop fuel 1); [lia|]. destruct ps; [done|simpl in *; lia].
Qed.
End scan.

(** ** The crash *)

Section crash.
Context {W : Type} `{!Posix W, !PosixLaws W, !DiskLaws W}.
Context (dir : string) (off e : Z) (Hdir : dir_ok dir) (He : 3 ≤ e ≤ 31) (Hpage : os_pagesize = 2 ^ e).
Implicit Types (w : W) (sgm : segment).
Abbreviation pd := (path_in dir (data_name off)).
Abbreviation pi := (path_in dir (index_name off)).
Abbreviation on_disk := (on_disk dir off e).

(** The disk has the data of a segment that was synced to its end, and zeros. *)
Lemma synced_data w sgm ps :
  on_disk w sgm ps false → op_index (s_offset_pair sgm) = zlen ps →
  disk w !! pd = Some (frames ps ++ zeros (size sgm - zlen (frames ps))).
Proof using He.
  intros [_ I _ Hb (dd & Hdd & [Hl Hbelow Hbytes]) _ _ _ Ho] Hs. rewrite Hs, Nat2Z.id, firstn_all, used_false in Ho.
  assert (Hd : op_data (s_offset_pair sgm) = zlen (frames ps)) by lia. rewrite Hd in Hbelow. rewrite used_false in Hb.
  rewrite Hdd. f_equal. pose proof (inv_len _ _ _ I) as Hm. pose proof (inv_used _ _ _ I) as Hu. rewrite used_false in Hu.
  destruct (inv_frames _ _ _ I) as [tail Hfr]. apply list_eq. intros k.
  destruct (decide (k < length (frames ps))%nat) as [Hk|Hk].
  { rewrite Hbelow, Hfr by lia. by rewrite !lookup_app_l. }
  rewrite lookup_app_r by lia. destruct (dd !! k) as [b|] eqn:Hkb.
  - assert (b = Byte.x00) as -> by (destruct (Hbytes k b Hkb) as [|Hmem]; [done|]; apply (Hb k); [lia|done]).
    apply lookup_lt_Some in Hkb.
    destruct (lookup_lt_is_Some_2 (zeros (size sgm - zlen (frames ps))) (k - length (frames ps))) as [c Hc]; [rewrite length_zeros; lia|].
    rewrite Hc. by rewrite (blank_zeros _ _ _ ltac:(lia) Hc).
  - symmetry. apply lookup_ge_None in Hkb. apply lookup_ge_None. rewrite length_zeros. lia.
Qed.

(** The index, when the kernel has written back the page of the new entry. *)
Lemma flushed_entries sgm1 ps p g di i (ix := flush os_pagesize g (r_mem (index sgm1)) di) :
  seg_inv sgm1 (ps ++ [p]) false → index_synced (zlen ps) ps di → zlen di ≤ zlen (r_mem (index sgm1)) →
  index_entry_size * (zlen ps + 2) ≤ zlen di → g (index_entry_size * zlen ps / os_pagesize) = true →
  (i ≤ S (length ps))%nat →
  get_index (Z.of_nat i) ix = Ok (match (ps ++ [p]) !! i with Some _ => frame_offset (ps ++ [p]) i | None => 0 end).
Proof using He Hpage.
  intros I Hix Hdi Hsl Hg Hi. unfold ix. rewrite Hpage in *. rewrite get_index_flush by size_lia.
  destruct (g (index_entry_size * Z.of_nat i / 2 ^ e)) eqn:Hgi; [apply (get_index_mem _ _ _ _ I); size_lia|].
  destruct (decide (i = length ps)) as [->|Hn]; [congruence|]. destruct (decide (i < length ps)%nat) as [Hlt|Hge].
  - destruct (lookup_lt_is_Some_2 ps i Hlt) as [x Hx]. rewrite lookup_app_l, Hx, frame_offset_prefix by lia.
    by apply (xa_below _ _ _ Hix i x); [lia|].
  - rewrite lookup_ge_None_2 by (rewrite length_app; simpl; lia).
    destruct (xa_entry _ _ _ Hix i) as [|(x & Hx & _)]; [size_lia|done|]. apply lookup_lt_Some in Hx. lia.
Qed.

(** The first header of a segment with payloads. *)
Lemma frames_first ps t : ps ≠ [] → (∀ i p, ps !! i = Some p → zlen p + header_size < 2 ^ 32) →
  prot_is_header 0 (frames ps ++ t) = Ok true.
Proof using Type.
  destruct ps as [|p ps]; [done|]. intros _ Hps. pose proof (Hps 0%nat p eq_refl) as Hp.
  change (frames (p :: ps)) with (header_bytes (frame_header p) ++ p ++ frames ps). rewrite <- !app_assoc.
  unfold prot_is_header. pose proof (get_flags_encoded [] (p ++ frames ps ++ t) (frame_header p) (frame_header_ok p Hp)) as Hf.
  cbn [app length] in Hf. change (Z.of_nat 0) with 0 in Hf. by run Hf.
Qed.

(** What [segment_open] makes of such files. *)
Lemma gap_opens w0 sz fl ps p (F := zlen (frames ps)) (ix := index_on_disk w0 dir off sz) :
  data_on_disk w0 dir off sz = frames ps ++ zeros (sz - F) → zlen ix = calculate_index_size sz →
  index_entry_size * (zlen ps + 2) ≤ zlen ix →
  (∀ i, (i ≤ S (length ps))%nat → get_index (Z.of_nat i) ix =
    Ok (match (ps ++ [p]) !! i with Some _ => frame_offset (ps ++ [p]) i | None => 0 end)) →
  (∀ i x, ps !! i = Some x → zlen x + header_size < 2 ^ 32) → F + header_size ≤ sz → ps ≠ [] →
  0 ≤ sz < 2 ^ 32 → sz mod os_pagesize = 0 → 0 ≤ off ∧ off + 2 ^ 32 < 2 ^ 63 →
  ∃ rc o w3, segment_open dir off sz fl w0 = Ok (rc, o, w3) ∧
    match o with
    | Some (_, sgm2) => rc = 0 ∧ gap ps sgm2 ∧ flags sgm2 = fl ∧ base_offset sgm2 = off ∧ size sgm2 = sz
    | None => rc ∈ [ELALLC; ELFLEOP; ELMMAP; ELMADV]
    end.
Proof using Hdir.
  clear He Hpage. intros Hd Hxl Hsl Hentry Hps Hroom Hne Hsz Hmod Hoff.
  assert (Hdl : zlen (data_on_disk w0 dir off sz) = sz) by (rewrite Hd; len).
  set (tail := zeros (page_round os_pagesize (calculate_index_size sz) - calculate_index_size sz)).
  assert (Hentry' : ∀ i, (i ≤ S (length ps))%nat → get_index (Z.of_nat i) (ix ++ tail) = get_index (Z.of_nat i) ix).
  { intros i Hi. unfold get_index, load_le. rewrite load_app_first; [done|size_lia..]. }
  assert (Hblank : get_size F (frames ps ++ zeros (sz - F)) = Ok 0).
  { rewrite (zeros_split 4), (zeros_split 4 (_ - 4)) by size_lia. unfold get_size. rewrite app_assoc.
    run load_le_app by len. by rewrite le_value_zeros. }
  assert (Hscan : find_w_offset_pair (data_on_disk w0 dir off sz) (ix ++ tail) (calculate_index_size sz) =
    Ok (0, Some (OffsetPair (zlen ps + 1) F))).
  { rewrite Hd, <- Hxl. apply (gap_scan ps Hne p); [by apply frames_first|done|size_lia| |done].
    intros i Hi. by rewrite Hentry', Hentry. }
  destruct (segment_open_found dir off sz fl w0 0 (Some (OffsetPair (zlen ps + 1) F))) as (rc & o & w3 & Hrun & Ho);
    [done|done|lia|done|exact Hscan|].
  exists rc, o, w3. split; [done|]. destruct o as [[a sgm2]|]; [|naive_solver].
  destruct Ho as (-> & (ifd & dfd & bb & ib & wp & ->) & [= <-] & _). split; [done|]. split; [|done].
  pose proof (Hentry (length ps) ltac:(lia)) as Hlast. rewrite <- Hentry', lookup_app_r, Nat.sub_diag in Hlast by lia.
  cbn [lookup list_lookup] in Hlast. rewrite frame_offset_prefix in Hlast by lia.
  unfold frame_offset in Hlast. rewrite firstn_all in Hlast.
  split; cbn [size buffer index r_mem w_offset_pair s_offset_pair base_offset op_data]; try done.
  fold ix. fold tail. rewrite length_app. lia.
Qed.

(** [C32]: The scan of the index does not look at the frames. Take any
    segment, not at its end, with at least one payload and all of them synced,
    to which one more payload is written with success, and suppose that when
    the machine goes down the kernel has written back the page of its index
    entry, and none of the data since the sync. Then [segment_open] without
    [SGM_RDCMT] fails with an error of the system, or gives a segment that
    counts the lost payload and reads nothing at its offset until the next
    write: the payload of that write is appended after the entry, and is read
    at both offsets. Assumed: the first payloads do not end like an end mark,
    the index file has a free slot after the lost entry, the next payload
    fits, pages have 2^e bytes, 3 <= e <= 31. *)
Theorem crash_repeats_payload w sgm ps p sgm1 di g w1 w0 fl q :
  on_disk w sgm ps false → ps ≠ [] → forged_eos ps = false → op_index (s_offset_pair sgm) = zlen ps →
  base_offset sgm = off → zlen p < 2 ^ 63 → segment_write sgm p = Ok (zlen p, sgm1) → slots (size sgm) (zlen ps + 1) →
  disk w !! pi = Some di → g (index_entry_size * zlen ps / os_pagesize) = true →
  disk w1 = <[pi := flush os_pagesize g (r_mem (index sgm1)) di]> (disk w) → crashed dir off w1 w0 →
  Z.land fl SGM_RDCMT ≠ SGM_RDCMT → zlen (frames ps) + 2 * header_size + zlen q ≤ size sgm →
  ∃ rc o w3, segment_open dir off (size sgm) fl w0 = Ok (rc, o, w3) ∧
    match o with
    | Some (_, sgm2) => rc = 0 ∧ segment_write_offset sgm2 = off + zlen ps + 1 ∧
        read_payload sgm2 (length ps) = Ok (ELNORD, None) ∧
        ∃ sgm3, segment_write sgm2 q = Ok (zlen q, sgm3) ∧ segment_write_offset sgm3 = off + zlen ps + 2 ∧
          read_payload sgm3 (length ps) = Ok (zlen q, Some q) ∧
          read_payload sgm3 (S (length ps)) = Ok (zlen q, Some q)
    | None => rc ∈ [ELALLC; ELFLEOP; ELMMAP; ELMADV]
    end.
Proof using All.
  intros H Hne Hforged Hs Hbase Hp Hw Hslots Hdi Hg Hw1 [Hfd Hfi] Hfl Hq.
  pose proof (synced_data w sgm ps H Hs) as Hdata. pose proof H as [Hat I _ _ _ (di' & Hdi' & Hlen & Hix) _ _ _].
  rewrite Hdi in Hdi'. injection Hdi' as <-. rewrite Hs in Hix. unfold slots in Hslots.
  destruct (write_success _ _ _ _ _ _ I Hp Hw ltac:(lia)) as (_ & I1 & Hsame & _ & _).
  pose proof (attached_index _ _ _ _ Hat) as Hil. rewrite <- (same_index_len _ _ Hsame) in Hil.
  pose proof (inv_room _ _ _ I eq_refl) as Hroom. rewrite used_false in Hroom. pose proof (inv_base _ _ _ I) as Hb.
  rewrite Hw1, lookup_insert_ne, Hdata in Hfd by apply paths_ne. rewrite Hw1, lookup_insert_eq in Hfi.
  assert (Hi0 : index_on_disk w0 dir off (size sgm) = flush os_pagesize g (r_mem (index sgm1)) di).
  { unfold index_on_disk. rewrite Hfi. apply sized_exact. by rewrite length_flush. }
  destruct (gap_opens w0 (size sgm) fl ps p) as (rc & o & w3 & Hrun & Ho); rewrite ?Hi0, ?length_flush; try done.
  - unfold data_on_disk. rewrite Hfd. apply sized_exact. pose proof (inv_size _ _ _ I). len.
  - lia.
  - intros i Hi. apply flushed_entries; try done; lia.
  - intros i x Hx. apply (header_at_frame _ _ _ I _ _ Hx).
  - apply I.
  - apply Hat.
  - by rewrite <- Hbase.
  - exists rc, o, w3. split; [done|]. destruct o as [[a sgm2]|]; [|done]. destruct Ho as (-> & G & Hfl2 & Hb2 & Hsz2).
    split; [done|]. rewrite <- Hfl2 in Hfl. rewrite <- Hb2. split; [|split; [by apply gap_read|]].
    + unfold segment_write_offset. rewrite (gp_w _ _ G). cbn [op_index]. pose proof (gp_base _ _ G).
      pose proof (frames_length ps). pose proof (gp_size _ _ G). pose proof (gp_room _ _ G). rewrite u64_small; size_lia.
    + destruct (gap_write ps sgm2 G Hne q Hforged) as (sgm3 & Hw3 & Ho3 & Hr3); [by rewrite Hsz2|done|by exists sgm3].
Qed.
End crash.

(** ** A concrete crash *)

(** The index of the run of SegmentCrashSpec.v is written back, its data not. *)
Definition gap_disk : gmap string bytes :=
  <[path_in "/log" (index_name 0) :=
      flush (os_pagesize (W := disked mem_os)) (λ _, true) (r_mem (index demo_disk_second)) demo_index]>
    (dk_disk demo_disk_sync.2).

Lemma demo_synced_on_disk : on_disk "/log" 0 12 demo_disk_sync.2 demo_disk_sync.1.2 [abc] false.
Proof.
  destruct demo_disk_wrote as [eos H].
  destruct (sync_on_disk (W := disked mem_os) "/log" 0 12 ltac:(lia) demo_disk_pow _ _ _ _ _ _ _ H demo_disk_synced) as (H1 & _).
  destruct eos; [exfalso|exact H1]. pose proof (inv_w _ _ _ (od_inv _ _ _ _ _ _ _ H1)) as Hw.
  apply (f_equal op_data) in Hw. assert (Hd : op_data (w_offset_pair demo_disk_sync.1.2) = 15) by (by vm_compute).
  rewrite Hd in Hw. clear -Hw. vm_compute in Hw. discriminate Hw.
Qed.

Lemma crash_repeats_payload_witness :
  ∃ rc o w3, segment_open "/log" 0 (size demo_disk_sync.1.2) SGM_RDDRT (Disked (mo_boot gap_disk) ∅) = Ok (rc, o, w3) ∧
    match o with
    | Some (_, sgm2) => rc = 0 ∧ segment_write_offset sgm2 = 2 ∧
        read_payload sgm2 1 = Ok (ELNORD, None) ∧
        ∃ sgm3, segment_write sgm2 half_page = Ok (zlen half_page, sgm3) ∧ segment_write_offset sgm3 = 3 ∧
          read_payload sgm3 1 = Ok (zlen half_page, Some half_page) ∧
          read_payload sgm3 2 = Ok (zlen half_page, Some half_page)
    | None => rc ∈ [ELALLC; ELFLEOP; ELMMAP; ELMADV]
    end.
Proof.
  apply (crash_repeats_payload (W := disked mem_os) "/log" 0 12 ltac:(split; [done|simpl; lia]) ltac:(lia) demo_disk_pow
    demo_disk_sync.2 demo_disk_sync.1.2 [abc] abc demo_disk_second demo_index (λ _, true)
    (Disked (dk_os demo_disk_sync.2) gap_disk) _ SGM_RDDRT half_page demo_synced_on_disk).
  - done.
  - by vm_compute.
  - by vm_compute.
  - by vm_compute.
  - by vm_compute.
  - by vm_compute.
  - by vm_compute.
  - by vm_compute.
  - done.
  - done.
  - by split.
  - by vm_compute.
  - by vm_compute.
Defined.
