(* ===== verification/SegmentThreads.v ===== *)
(** * Segments under concurrent calls (src/segment.c)

    segment.h declares [segment_write], [segment_read] and [segment_sync]
    thread safe. This file cuts the calls at their accesses to the memory the
    threads share, so that calls can interleave between any two of them: the
    model of memory is sequential consistency, with the accesses of a call in
    the order of the program, [memcpy] byte by byte, and the two halves of the
    write offset loaded one after the other, the index first: C does not fix
    the order in which a [volatile] structure is copied, and the model follows
    that of its fields. *)

From S2P Require Import Prelude Errno Crc32 Prot Util Posix Segment.

(** ** Where a call stands *)

(** The stores of [segment_write] after its claim; [Copy k] has copied [k]
    bytes. *)
Inductive stage :=
  | Copy (k : nat) | Init_flags | Init_version | Init_pad | Crc | Size | Ready | Entry.

#[export] Instance stage_eq_dec : EqDecision stage.
Proof. solve_decision. Defined.

(** The stores of [mark_eos] after its claim. *)
Inductive mark_stage := Mark_flags | Mark_version | Mark_pad | Mark_size | Mark_eos.

Inductive write_pc :=
  | W_begin                                   (* [marked_eos]: load the write offset *)
  | W_last (w_offset : Z)                     (* [marked_eos]: load the flags of the last header *)
  | W_index                                   (* load the index half of the write offset *)
  | W_data (i : Z)                            (* load its data half *)
  | W_mark (curr : offset_pair)               (* [mark_eos]: compare and swap *)
  | W_marking (st : mark_stage) (curr : offset_pair)
  | W_claim (curr : offset_pair)              (* compare and swap *)
  | W_fill (st : stage) (curr : offset_pair)
  | W_return (rc : Z).

Inductive read_pc :=
  | R_begin                                   (* load the data half of the write offset *)
  | R_synced                                  (* load the synced offset *)
  | R_count (boundary : Z)                    (* load the index half of the write offset *)
  | R_entry (boundary : Z)                    (* load the index entry *)
  | R_flags (physical_offset : Z)             (* load the flags *)
  | R_size (physical_offset : Z)              (* load the size *)
  | R_return (rc : Z) (fr : frame).

(** A call with its arguments. *)
Inductive call :=
  | Write (buf : bytes) (pc : write_pc)
  | Read (relative_offset : Z) (fr : frame) (pc : read_pc).

Definition returned (c : call) : bool :=
  match c with
  | Write _ (W_return _) | Read _ _ (R_return _ _) => true
  | _ => false
  end.

(** ** One access *)

Definition stored_at (next : write_pc) (sgm : segment) (m : result bytes) : result (write_pc * segment) :=
  m ← m; Ok (next, set_buffer m sgm).

Definition fill_step (buf : bytes) (st : stage) (curr : offset_pair) (sgm : segment)
    : result (write_pc * segment) :=
  let w_offset := op_data curr in
  let m := r_mem (buffer sgm) in
  match st with
  | Copy k =>
    let payload_offset := u64 (w_offset + header_size) in
    match buf !! k with
    | Some b =>
      stored_at (W_fill (Copy (S k)) curr) sgm (store (payload_offset + Z.of_nat k) [b] m)
    | None => Ok (W_fill Init_flags curr, sgm)
    end
  | Init_flags => stored_at (W_fill Init_version curr) sgm (set_flags w_offset HEADER_FLAGS_EMPTY m)
  | Init_version => stored_at (W_fill Init_pad curr) sgm (set_version w_offset HEADER_VERSION m)
  | Init_pad => stored_at (W_fill Crc curr) sgm (set_pad w_offset HEADER_PAD m)
  | Crc => stored_at (W_fill Size curr) sgm (set_crc32 w_offset (crc32 CRC32_INIT buf) m)
  | Size => stored_at (W_fill Ready curr) sgm (set_size w_offset (u64 (header_size + zlen buf)) m)
  | Ready => stored_at (W_fill Entry curr) sgm (set_flags w_offset HEADER_FLAGS_READY m)
  | Entry =>
    ix ← put_index (op_index curr) w_offset (r_mem (index sgm));
    Ok (W_return (i64 (zlen buf)), set_index ix sgm)
  end.

Definition mark_step (st : mark_stage) (curr : offset_pair) (sgm : segment)
    : result (write_pc * segment) :=
  let w_offset := op_data curr in
  let m := r_mem (buffer sgm) in
  match st with
  | Mark_flags => stored_at (W_marking Mark_version curr) sgm (set_flags w_offset HEADER_FLAGS_EMPTY m)
  | Mark_version => stored_at (W_marking Mark_pad curr) sgm (set_version w_offset HEADER_VERSION m)
  | Mark_pad => stored_at (W_marking Mark_size curr) sgm (set_pad w_offset HEADER_PAD m)
  | Mark_size => stored_at (W_marking Mark_eos curr) sgm (set_size w_offset header_size m)
  | Mark_eos => stored_at (W_return ELEOS) sgm (set_flags w_offset HEADER_FLAGS_EOS m)
  end.

Definition write_step (buf : bytes) (pc : write_pc) (sgm : segment) : result (write_pc * segment) :=
  let frame_size := u64 (header_size + zlen buf) in
  match pc with
  | W_begin =>
    let w_offset := op_data (w_offset_pair sgm) in
    Ok (if w_offset <? header_size then W_index else W_last w_offset, sgm)
  | W_last w_offset =>
    flags ← get_flags (w_offset - header_size) (r_mem (buffer sgm));
    Ok (if flags =? HEADER_FLAGS_EOS then W_return ELEOS else W_index, sgm)
  | W_index => Ok (W_data (op_index (w_offset_pair sgm)), sgm)
  | W_data i =>
    let curr := OffsetPair i (op_data (w_offset_pair sgm)) in
    Ok (if u64 (header_size + frame_size) >? u64 (size sgm - op_data curr)
        then W_mark curr else W_claim curr, sgm)
  | W_mark curr =>
    let new := OffsetPair (op_index curr) (u32 (op_data curr + header_size)) in
    let '(rc, sgm) := claim sgm curr new in
    Ok (if negb (rc =? 0) then W_return rc else W_marking Mark_flags curr, sgm)
  | W_marking st curr => mark_step st curr sgm
  | W_claim curr =>
    let new := OffsetPair (u32 (op_index curr + 1)) (u32 (op_data curr + frame_size)) in
    let '(rc, sgm) := claim sgm curr new in
    Ok (if negb (rc =? 0) then W_return rc else W_fill (Copy 0) curr, sgm)
  | W_fill st curr => fill_step buf st curr sgm
  | W_return rc => Ok (W_return rc, sgm)
  end.

Definition read_step (relative_offset : Z) (fr : frame) (pc : read_pc) (sgm : segment) : result read_pc :=
  match pc with
  | R_begin =>
    Ok (if Z.land (flags sgm) SGM_RDCMT =? SGM_RDCMT then R_synced
        else R_count (op_data (w_offset_pair sgm)))
  | R_synced => Ok (R_count (op_data (s_offset_pair sgm)))
  | R_count boundary =>
    Ok (if relative_offset >=? op_index (w_offset_pair sgm) then R_return ELNORD fr
        else R_entry boundary)
  | R_entry boundary =>
    physical_offset ← get_index relative_offset (r_mem (index sgm));
    Ok (if negb (relative_offset =? 0) && (physical_offset =? 0) then R_return ELNORD fr
        else if physical_offset >=? boundary then R_return ELNORD fr
        else R_flags physical_offset)
  | R_flags physical_offset =>
    let hdr := r_base (buffer sgm) + physical_offset in
    flags ← get_flags physical_offset (r_mem (buffer sgm));
    Ok (if flags =? HEADER_FLAGS_READY then R_size physical_offset
        else if flags =? HEADER_FLAGS_EOS then R_return ELEOS (Frame hdr (fr_buffer fr))
        else R_return ELINVHD fr)
  | R_size physical_offset =>
    let hdr := r_base (buffer sgm) + physical_offset in
    sz ← get_size physical_offset (r_mem (buffer sgm));
    Ok (R_return (i64 (u64 (sz - header_size)))
          (Frame hdr (r_base (buffer sgm) + physical_offset + header_size)))
  | R_return rc fr => Ok (R_return rc fr)
  end.

Definition call_step (c : call) (sgm : segment) : result (call * segment) :=
  match c with
  | Write buf pc => '(pc, sgm) ← write_step buf pc sgm; Ok (Write buf pc, sgm)
  | Read off fr pc => pc ← read_step off fr pc sgm; Ok (Read off fr pc, sgm)
  end.

(** ** Interleavings *)

(** A segment and the calls on it, by the order of their start. *)
Record state := State { st_segment : segment; st_calls : list call }.

(** What happens next: a call starts, the call [t] makes its next access, or a
    [segment_sync] stores to the synced offset. *)
Inductive event :=
  | Start_write (buf : bytes)
  | Start_read (relative_offset : Z) (fr : frame)
  | Run (t : nat)
  | Synced (s : offset_pair).

Definition exec_event (ev : event) (st : state) : result state :=
  let '(State sgm cs) := st in
  match ev with
  | Start_write buf => Ok (State sgm (cs ++ [Write buf W_begin]))
  | Start_read off fr => Ok (State sgm (cs ++ [Read off fr R_begin]))
  | Run t =>
    match cs !! t with
    | Some c => '(c, sgm) ← call_step c sgm; Ok (State sgm (<[t := c]> cs))
    | None => Ok st
    end
  | Synced s => Ok (State (set_s_offset_pair s sgm) cs)
  end.

Fixpoint exec (evs : list event) (st : state) : result state :=
  match evs with
  | [] => Ok st
  | ev :: evs => st ← exec_event ev st; exec evs st
  end.

(** The accesses of the call [t] in a sequence of events. *)
Fixpoint runs (t : nat) (evs : list event) : nat :=
  match evs with
  | [] => 0
  | Run t' :: evs => (if (t' =? t)%nat then 1 else 0) + runs t evs
  | _ :: evs => runs t evs
  end.

(** A call that runs with no other call in between. *)
Fixpoint alone (n : nat) (c : call) (sgm : segment) : result (call * segment) :=
  match n with
  | O => Ok (c, sgm)
  | S n => '(c, sgm) ← call_step c sgm; alone n c sgm
  end.

(** ** When the calls of [segment_write] may interleave

    A call is [pending] until it has claimed its frame. Two calls that see the
    end of the segment together can both mark it, the second one past its end:
    the properties are about executions that are [calm]: at most one call is
    pending, or the frames of all pending calls fit. *)

Definition pending (c : call) : bool :=
  match c with
  | Write _ (W_fill _ _ | W_return _) | Read _ _ _ => false
  | Write _ _ => true
  end.

Definition need (c : call) : Z :=
  match c with
  | Write buf _ => if pending c then header_size + zlen buf else 0
  | Read _ _ _ => 0
  end.

Fixpoint needs (cs : list call) : Z :=
  match cs with
  | [] => 0
  | c :: cs => need c + needs cs
  end.

Fixpoint pendings (cs : list call) : nat :=
  match cs with
  | [] => 0
  | c :: cs => (if pending c then 1 else 0) + pendings cs
  end.

Definition calm (st : state) : bool :=
  (pendings (st_calls st) <=? 1)%nat ||
  (op_data (w_offset_pair (st_segment st)) + needs (st_calls st) + header_size
     <=? size (st_segment st)).

(** The arguments a caller may give; payloads have at least [lo] bytes. *)
Definition event_ok (lo : Z) (ev : event) : Prop :=
  match ev with
  | Start_write buf => lo ≤ zlen buf < 2 ^ 63
  | Start_read off _ => 0 ≤ off < 2 ^ 64
  | Run _ | Synced _ => True
  end.

(** The states of calm executions from [st]. *)
Inductive reachable (lo : Z) (st : state) : state → Prop :=
  | reach_start : reachable lo st st
  | reach_event ev st1 st2 :
      reachable lo st st1 → calm st1 = true → event_ok lo ev → exec_event ev st1 = Ok st2 →
      reachable lo st st2.

(** The payloads of the calls of [segment_write] that returned their length. *)
Definition accepted (c : call) : option bytes :=
  match c with
  | Write buf (W_return rc) => if rc <? 0 then None else Some buf
  | _ => None
  end.
Definition written (cs : list call) : list bytes := omap accepted cs.

(** Accesses left to a call, at most. *)
Definition stage_rank (buf : bytes) (st : stage) : nat :=
  match st with
  | Copy k => 8 + (length buf - k)
  | Init_flags => 7 | Init_version => 6 | Init_pad => 5 | Crc => 4 | Size => 3 | Ready => 2 | Entry => 1
  end.
Definition mark_rank (st : mark_stage) : nat :=
  match st with
  | Mark_flags => 5 | Mark_version => 4 | Mark_pad => 3 | Mark_size => 2 | Mark_eos => 1
  end.
Definition rank (c : call) : nat :=
  match c with
  | Write buf pc =>
    match pc with
    | W_begin => 13 + length buf
    | W_last _ => 12 + length buf
    | W_index => 11 + length buf
    | W_data _ => 10 + length buf
    | W_mark _ | W_claim _ => 9 + length buf
    | W_marking st _ => mark_rank st
    | W_fill st _ => stage_rank buf st
    | W_return _ => 0
    end
  | Read _ _ pc =>
    match pc with
    | R_begin => 6 | R_synced => 5 | R_count _ => 4 | R_entry _ => 3 | R_flags _ => 2 | R_size _ => 1
    | R_return _ _ => 0
    end
  end.
