(* ===== verification/SegmentThreadsInv.v ===== *)
(** * Segments under concurrent calls: the invariant

    The data region is the blocks of the frames in the order of their claims,
    each finished or at a stage of one call, then the end mark and the free
    space. *)

From S2P Require Import Prelude Errno Crc32 Prot Util Posix Segment SegmentInv SegmentOps SegmentThreads.

(** ** Blocks under construction *)

(** A block at a stage of a call that writes [p] there. A reader that looks at
    the first block before its index entry must not take it for a header. *)
Definition no_header (first : bool) (f : bytes) : Prop :=
  first = true → le_value f ≠ HEADER_FLAGS_READY ∧ le_value f ≠ HEADER_FLAGS_EOS.

Abbreviation empty_flags := (le_bytes 2 HEADER_FLAGS_EMPTY).
Abbreviation version_0 := (le_bytes 1 HEADER_VERSION).
Abbreviation pad_0 := (le_bytes 1 HEADER_PAD).
Abbreviation crc_of p := (le_bytes 4 (crc32 CRC32_INIT p)).
Abbreviation size_of p := (le_bytes 4 (header_size + zlen p)).

Record field_lengths (f v d s c : bytes) : Prop := {
  fl_flags : length f = 2%nat; fl_version : length v = 1%nat; fl_pad : length d = 1%nat;
  fl_size : length s = 4%nat; fl_crc : length c = 4%nat
}.

Inductive filling (first : bool) (p : bytes) : stage → bytes → Prop :=
  | filling_copy k f v d s c q : field_lengths f v d s c → no_header first f →
      (k + length q)%nat = length p → filling first p (Copy k) (fields f v d s c ++ take k p ++ q)
  | filling_flags f v d s c : field_lengths f v d s c → no_header first f →
      filling first p Init_flags (fields f v d s c ++ p)
  | filling_version v d s c : field_lengths empty_flags v d s c →
      filling first p Init_version (fields empty_flags v d s c ++ p)
  | filling_pad d s c : field_lengths empty_flags version_0 d s c →
      filling first p Init_pad (fields empty_flags version_0 d s c ++ p)
  | filling_crc s c : field_lengths empty_flags version_0 pad_0 s c →
      filling first p Crc (fields empty_flags version_0 pad_0 s c ++ p)
  | filling_size s : length s = 4%nat →
      filling first p Size (fields empty_flags version_0 pad_0 s (crc_of p) ++ p)
  | filling_ready : filling first p Ready (fields empty_flags version_0 pad_0 (size_of p) (crc_of p) ++ p)
  | filling_entry : filling first p Entry (frame_bytes p).

Inductive marking : mark_stage → bytes → Prop :=
  | marking_flags f v d s c : field_lengths f v d s c → marking Mark_flags (fields f v d s c)
  | marking_version v d s c : field_lengths empty_flags v d s c →
      marking Mark_version (fields empty_flags v d s c)
  | marking_pad d s c : field_lengths empty_flags version_0 d s c →
      marking Mark_pad (fields empty_flags version_0 d s c)
  | marking_size s c : field_lengths empty_flags version_0 pad_0 s c →
      marking Mark_size (fields empty_flags version_0 pad_0 s c)
  | marking_eos c : length c = 4%nat →
      marking Mark_eos (fields empty_flags version_0 pad_0 (le_bytes 4 header_size) c).

Definition marked (mb : bytes) : Prop :=
  ∃ f v d s c, field_lengths f v d s c ∧ mb = fields f v d s c ∧
    le_value f = HEADER_FLAGS_EOS ∧ le_value s = header_size.

(** ** Slots *)

(** A claimed frame: its payload, its bytes, how far they are written ([None]
    when the frame is in the index), and the call that claimed it. *)
Record slot := Slot {
  sl_payload : bytes;
  sl_block : bytes;
  sl_stage : option stage;
  sl_owner : option nat
}.

Definition stored_slot (p : bytes) : slot := Slot p (frame_bytes p) None None.

Definition slot_ok (first : bool) (sl : slot) : Prop :=
  match sl_stage sl with
  | None => sl_block sl = frame_bytes (sl_payload sl)
  | Some st => filling first (sl_payload sl) st (sl_block sl) ∧ is_Some (sl_owner sl)
  end.

Abbreviation payloads sls := (sl_payload <$> sls).
Definition blocks (sls : list slot) : bytes := flat_map sl_block sls.

(** The index entries: zero until a frame enters the index. *)
Fixpoint entries (o : Z) (sls : list slot) : list Z :=
  match sls with
  | [] => []
  | sl :: sls =>
    match sl_stage sl with None => o | Some _ => 0 end ::
      entries (o + (header_size + zlen (sl_payload sl))) sls
  end.

Definition pair_at (sls : list slot) (i : nat) : offset_pair :=
  OffsetPair (Z.of_nat i) (frame_offset (payloads sls) i).

(** A frame that readers may see: its bytes do not change any more. *)
Definition published (sl : slot) : Prop := sl_stage sl = None ∨ sl_stage sl = Some Entry.

(** Where the call that claimed a slot stands. *)
Definition owner_pc (curr : offset_pair) (sl : slot) : write_pc :=
  match sl_stage sl with
  | Some st => W_fill st curr
  | None => W_return (zlen (sl_payload sl))
  end.

(** ** The invariant *)

(** What is known besides the state: the slots, whether the end is marked, the
    call that is marking it, and the bytes of the mark and after it. *)
Record ghost := Ghost {
  g_slots : list slot;
  g_eos : bool;
  g_marker : option nat;
  g_mark : bytes;
  g_rest : bytes
}.

Abbreviation g_payloads g := (payloads (g_slots g)).

Record layout (lo : Z) (sgm : segment) (g : ghost) : Prop := {
  lay_size : 0 ≤ size sgm < 2 ^ 32;
  lay_len : zlen (r_mem (buffer sgm)) = size sgm;
  lay_data : r_mem (buffer sgm) = blocks (g_slots g) ++ g_mark g ++ g_rest g;
  lay_slots i sl : g_slots g !! i = Some sl → slot_ok (i =? 0)%nat sl;
  lay_mark : zlen (g_mark g) = if g_eos g then header_size else 0;
  lay_room : zlen (frames (g_payloads g)) + header_size ≤ size sgm;
  lay_fresh : g_slots g = [] → g_eos g = false → prot_is_header 0 (r_mem (buffer sgm)) = Ok false;
  lay_index :
    r_mem (index sgm) = flat_map (le_bytes 8) (entries 0 (g_slots g)) ++
      zeros (zlen (r_mem (index sgm)) - index_entry_size * zlen (g_slots g));
  lay_index_room :
    index_entry_size * ((size sgm - header_size) / (header_size + lo)) ≤ zlen (r_mem (index sgm));
  lay_lo : Forall (λ p, lo ≤ zlen p) (g_payloads g);
  lay_w : w_offset_pair sgm = OffsetPair (zlen (g_slots g)) (used (g_payloads g) (g_eos g));
  lay_base : 0 ≤ base_offset sgm ∧ base_offset sgm + 2 ^ 32 < 2 ^ 63
}.

(** The mark: not there, complete, or at a stage of the call [t], whose payload
    does not fit. *)
Definition mark_ok (sgm : segment) (cs : list call) (g : ghost) : Prop :=
  match g_marker g with
  | None => g_eos g = true → marked (g_mark g)
  | Some t => g_eos g = true ∧ ∃ buf st,
      cs !! t = Some (Write buf (W_marking st (OffsetPair (zlen (g_slots g)) (zlen (frames (g_payloads g)))))) ∧
      marking st (g_mark g) ∧ size sgm < zlen (frames (g_payloads g)) + 2 * header_size + zlen buf
  end.

Definition frame_known (sgm : segment) (g : ghost) (off phys : Z) (ready : bool) : Prop :=
  ∃ sl, g_slots g !! Z.to_nat off = Some sl ∧ phys = frame_offset (g_payloads g) (Z.to_nat off) ∧
    (published sl ∨ ready = false ∧ off = 0).

Definition write_ok (sgm : segment) (g : ghost) (t : nat) (buf : bytes) (pc : write_pc) : Prop :=
  match pc with
  | W_begin => True
  | W_last w => header_size ≤ w ≤ used (g_payloads g) (g_eos g) ∧
      (g_eos g = true → w = used (g_payloads g) true)
  | W_index | W_data _ => g_eos g = false
  | W_mark curr => op_data curr ≤ zlen (frames (g_payloads g)) ∧
      size sgm < op_data curr + 2 * header_size + zlen buf
  | W_claim curr => op_data curr ≤ zlen (frames (g_payloads g)) ∧
      op_data curr + 2 * header_size + zlen buf ≤ size sgm
  | W_marking _ _ => g_marker g = Some t
  | W_fill _ _ => ∃ i sl, g_slots g !! i = Some sl ∧ sl_owner sl = Some t
  | W_return rc => rc ∈ [ELEOS; ELLOCK] ∨ ∃ i sl, g_slots g !! i = Some sl ∧ sl_owner sl = Some t
  end.

Definition read_ok (sgm : segment) (g : ghost) (off : Z) (pc : read_pc) : Prop :=
  match pc with
  | R_begin | R_synced | R_count _ => True
  | R_entry _ => off < zlen (g_slots g)
  | R_flags phys => frame_known sgm g off phys false
  | R_size phys => frame_known sgm g off phys true
  | R_return rc fr => rc ∈ [ELNORD; ELINVHD] ∨
      ∃ sl, g_slots g !! Z.to_nat off = Some sl ∧ published sl ∧ rc = zlen (sl_payload sl) ∧
        fr = frame_at sgm (frame_offset (g_payloads g) (Z.to_nat off))
  end.

Definition call_ok (lo : Z) (sgm : segment) (g : ghost) (t : nat) (c : call) : Prop :=
  match c with
  | Write buf pc => (lo ≤ zlen buf < 2 ^ 63) ∧ write_ok sgm g t buf pc
  | Read off _ pc => (0 ≤ off < 2 ^ 64) ∧ read_ok sgm g off pc
  end.

Record conc_inv (lo : Z) (ps : list bytes) (st : state) (g : ghost) : Prop := {
  ci_layout : layout lo (st_segment st) g;
  ci_old : ∃ news, g_slots g = (stored_slot <$> ps) ++ news ∧ Forall (λ sl, is_Some (sl_owner sl)) news;
  ci_owner i sl t : g_slots g !! i = Some sl → sl_owner sl = Some t →
    st_calls st !! t = Some (Write (sl_payload sl) (owner_pc (pair_at (g_slots g) i) sl));
  ci_unique i j sl sl' t : g_slots g !! i = Some sl → g_slots g !! j = Some sl' →
    sl_owner sl = Some t → sl_owner sl' = Some t → i = j;
  ci_mark : mark_ok (st_segment st) (st_calls st) g;
  ci_calls t c : st_calls st !! t = Some c → call_ok lo (st_segment st) g t c
}.
