(* ===== verification/SegmentThreadsOps.v ===== *)
(** * Segments under concurrent calls: every access keeps the invariant *)

From S2P Require Import Prelude Errno Crc32 Prot Util Posix Segment SegmentInv SegmentOps SegmentThreads SegmentThreadsInv.

(** ** Blocks *)

Lemma length_fields f v d s c : field_lengths f v d s c → length (fields f v d s c) = 12%nat.
Proof. intros []. unfold fields. len. Qed.

Lemma filling_length first p st b : filling first p st b → zlen b = header_size + zlen p.
Proof.
  destruct 1 as [k f v d s c q Hl _ Hq|f v d s c Hl|v d s c Hl|d s c Hl|s c Hl|s Hl| |].
  all: try (rewrite length_app, length_fields by done; size_lia).
  - rewrite !length_app, length_fields, length_take_le by (done || lia). size_lia.
  - apply zlen_frame_bytes.
Qed.

Lemma marking_length st b : marking st b → zlen b = header_size.
Proof.
  by destruct 1; rewrite length_fields by (try done; by split).
Qed.

Lemma marked_length b : marked b → zlen b = header_size.
Proof. intros (f & v & d & s & c & Hl & -> & _). by rewrite length_fields. Qed.

Lemma set_buffer_same sgm m : r_mem (buffer sgm) = m → set_buffer m sgm = sgm.
Proof. intros <-. by destruct sgm as [? ? ? ? ? ? [] ? ? ?]. Qed.

(** One store of [segment_write] to its block. *)
Lemma fill_step_ok first p st i pre b post sgm :
  filling first p st b → st ≠ Entry → zlen p < 2 ^ 32 - header_size → zlen pre + header_size < 2 ^ 64 →
  r_mem (buffer sgm) = pre ++ b ++ post →
  ∃ st' b', fill_step p st (OffsetPair i (zlen pre)) sgm =
      Ok (W_fill st' (OffsetPair i (zlen pre)), set_buffer (pre ++ b' ++ post) sgm) ∧
    filling first p st' b' ∧ (stage_rank p st' < stage_rank p st)%nat.
Proof.
  intros Hf Hst Hp Hpre Hm. unfold fill_step, stored_at. cbn [op_data].
  destruct Hf as [k f v d s c q Hl Hn Hq|f v d s c Hl Hn|v d s c Hl|d s c Hl|s c Hl|s Hl| |]; [| |..|done];
    rewrite ?Hm, <- ?app_assoc.
  - destruct (p !! k) as [x|] eqn:Hx.
    + destruct q as [|y q]; [apply lookup_lt_Some in Hx; simpl in Hq; lia|].
      rewrite u64_small by size_lia.
      assert (k ≤ length p)%nat by lia.
      pose proof (store_app (pre ++ fields f v d s c ++ take k p) [y] (q ++ post) [x]
        (zlen pre + header_size + Z.of_nat k)) as Hs.
      rewrite <- !app_assoc in Hs. simpl app in Hs |- *.
      rewrite Hs; [|by rewrite !length_app, length_fields, length_take_le by done; size_lia|done].
      eexists (Copy (S k)), (fields f v d s c ++ take (S k) p ++ q). split.
      * rewrite bind_Ok, (take_S_r _ _ x) by done. by rewrite <- !app_assoc.
      * split; [|apply lookup_lt_Some in Hx; simpl; lia]. constructor; try done. simpl in Hq. lia.
    + apply lookup_ge_None in Hx. assert (q = []) as -> by (destruct q; [done|simpl in Hq; lia]).
      rewrite app_nil_r, take_ge in * by done. exists Init_flags, (fields f v d s c ++ p).
      rewrite set_buffer_same by exact Hm. split; [done|].
      split; [by constructor|]. simpl. lia.
  - run set_flags_fields by apply Hl. eexists _, (fields empty_flags v d s c ++ p). rewrite <- app_assoc.
    split; [done|]. split; [|simpl; lia]. constructor. by destruct Hl.
  - run set_version_fields by apply Hl. eexists _, (fields empty_flags version_0 d s c ++ p). rewrite <- app_assoc.
    split; [done|]. split; [|simpl; lia]. constructor. by destruct Hl.
  - run set_pad_fields by apply Hl. eexists _, (fields empty_flags version_0 pad_0 s c ++ p). rewrite <- app_assoc.
    split; [done|]. split; [|simpl; lia]. constructor. by destruct Hl.
  - run set_crc32_fields by apply Hl. eexists _, (fields empty_flags version_0 pad_0 s (crc_of p) ++ p).
    rewrite <- app_assoc. split; [done|]. split; [|simpl; lia]. constructor. apply Hl.
  - run set_size_fields by done. rewrite u64_small by size_lia.
    eexists _, (fields empty_flags version_0 pad_0 (size_of p) (crc_of p) ++ p).
    rewrite <- app_assoc. split; [done|]. split; [constructor|simpl; lia].
  - run set_flags_fields by done. eexists _, (fields (le_bytes 2 HEADER_FLAGS_READY) version_0 pad_0 (size_of p) (crc_of p) ++ p).
    split; [by rewrite <- app_assoc|]. split; [exact (filling_entry first p)|simpl; lia].
Qed.

(** One store of [mark_eos] to the mark. *)
Definition marking_pc (curr : offset_pair) (b : bytes) (pc : write_pc) : Prop :=
  match pc with
  | W_marking st c => c = curr ∧ marking st b
  | W_return rc => rc = ELEOS ∧ marked b
  | _ => False
  end.

Lemma mark_step_ok st i pre b post sgm :
  marking st b → r_mem (buffer sgm) = pre ++ b ++ post →
  ∃ pc b', mark_step st (OffsetPair i (zlen pre)) sgm = Ok (pc, set_buffer (pre ++ b' ++ post) sgm) ∧
    marking_pc (OffsetPair i (zlen pre)) b' pc.
Proof.
  intros Hf Hm. unfold mark_step, stored_at. cbn [op_data]. rewrite Hm.
  destruct Hf as [f v d s c Hl|v d s c Hl|d s c Hl|s c Hl|c Hl].
  - run set_flags_fields by apply Hl. eexists _, _. split; [done|]. split; [done|]. constructor. by destruct Hl.
  - run set_version_fields by apply Hl. eexists _, _. split; [done|]. split; [done|]. constructor. by destruct Hl.
  - run set_pad_fields by apply Hl. eexists _, _. split; [done|]. split; [done|]. constructor. by destruct Hl.
  - run set_size_fields by apply Hl. eexists _, _. split; [done|]. split; [done|]. constructor. by destruct Hl.
  - run set_flags_fields by done. eexists _, _. split; [done|]. split; [done|].
    eexists _, _, _, _, c. split; [|done]. by split.
Qed.

(** ** Slots *)

Lemma slot_length first sl : slot_ok first sl → zlen (sl_block sl) = header_size + zlen (sl_payload sl).
Proof.
  unfold slot_ok. destruct (sl_stage sl) as [st|]; [|intros ->; apply zlen_frame_bytes].
  intros [Hf _]. by eapply filling_length.
Qed.

Lemma blocks_app l1 l2 : blocks (l1 ++ l2) = blocks l1 ++ blocks l2.
Proof. apply flat_map_app. Qed.

Lemma blocks_single sl : blocks [sl] = sl_block sl.
Proof. apply app_nil_r. Qed.

Lemma entries_app l1 : ∀ o l2,
  entries o (l1 ++ l2) = entries o l1 ++ entries (o + zlen (frames (payloads l1))) l2.
Proof.
  induction l1 as [|sl l1 IH]; intros o l2; [simpl; by rewrite Z.add_0_r|].
  cbn [entries app]. rewrite IH. do 3 f_equal. rewrite fmap_cons.
  change (frames (sl_payload sl :: payloads l1)) with (frame_bytes (sl_payload sl) ++ frames (payloads l1)).
  rewrite length_app, Nat2Z.inj_add, zlen_frame_bytes. lia.
Qed.

Lemma length_entries o sls : length (entries o sls) = length sls.
Proof. revert o. induction sls; intros; simpl; auto. Qed.

(** The data region, cut at a slot. *)
Lemma slots_at (sls : list slot) i sl :
  sls !! i = Some sl → ∃ l1 l2, sls = l1 ++ sl :: l2 ∧ i = length l1.
Proof. intros Hi. destruct (list_elem_of_split_length _ _ _ Hi) as (l1 & l2 & -> & ->). by exists l1, l2. Qed.

Lemma frame_offset_at l1 (sl : slot) l2 :
  frame_offset (payloads (l1 ++ sl :: l2)) (length l1) = zlen (frames (payloads l1)).
Proof.
  unfold frame_offset. rewrite fmap_app, take_app_length'; [done|]. by rewrite length_fmap.
Qed.

Lemma blocks_length sls :
  (∀ i sl, sls !! i = Some sl → ∃ first, slot_ok first sl) →
  zlen (blocks sls) = zlen (frames (payloads sls)).
Proof.
  induction sls as [|sl sls IH]; intros H; [done|]. rewrite fmap_cons.
  change (blocks (sl :: sls)) with (sl_block sl ++ blocks sls).
  change (frames (sl_payload sl :: payloads sls)) with (frame_bytes (sl_payload sl) ++ frames (payloads sls)).
  destruct (H 0%nat sl eq_refl) as [first Hsl].
  rewrite !length_app, !Nat2Z.inj_add, zlen_frame_bytes, (slot_length _ _ Hsl), IH; [done|].
  intros i sl' Hi. by apply (H (S i)).
Qed.

Section layout.
Context (lo : Z) (sgm : segment) (g : ghost) (Hlo : 0 ≤ lo) (L : layout lo sgm g).

Lemma slots_length l1 l2 : g_slots g = l1 ++ l2 → zlen (blocks l1) = zlen (frames (payloads l1)).
Proof using L.
  intros Hg. apply blocks_length. intros i sl Hi. exists (i =? 0)%nat. apply (lay_slots _ _ _ L).
  rewrite Hg. by apply lookup_app_l_Some.
Qed.

Lemma cut_slot l1 sl l2 :
  g_slots g = l1 ++ sl :: l2 →
  r_mem (buffer sgm) = blocks l1 ++ sl_block sl ++ (blocks l2 ++ g_mark g ++ g_rest g) ∧
  zlen (blocks l1) = frame_offset (g_payloads g) (length l1) ∧ slot_ok (length l1 =? 0)%nat sl.
Proof using L.
  intros Hg. split_and!.
  - rewrite (lay_data _ _ _ L), Hg, blocks_app. change (blocks (sl :: l2)) with (sl_block sl ++ blocks l2).
    by rewrite <- !app_assoc.
  - rewrite (slots_length _ _ Hg), Hg. by rewrite frame_offset_at.
  - apply (lay_slots _ _ _ L). rewrite Hg. by apply list_lookup_middle.
Qed.

Lemma slot_bounds i sl :
  g_slots g !! i = Some sl →
  0 ≤ frame_offset (g_payloads g) i ∧
  frame_offset (g_payloads g) i + header_size + zlen (sl_payload sl) + header_size ≤ size sgm.
Proof using L.
  intros Hi. pose proof (lay_room _ _ _ L).
  pose proof (frame_offset_bound (g_payloads g) i (sl_payload sl)) as Hb.
  rewrite list_lookup_fmap, Hi in Hb. specialize (Hb eq_refl). lia.
Qed.

Lemma slots_count : (header_size + lo) * zlen (g_slots g) ≤ zlen (frames (g_payloads g)).
Proof using L.
  pose proof (lay_lo _ _ _ L) as H. rewrite <- (length_fmap sl_payload). revert H.
  generalize (g_payloads g). induction 1 as [|p ps Hp _ IH]; [simpl; lia|].
  change (frames (p :: ps)) with (frame_bytes p ++ frames ps).
  rewrite length_app, Nat2Z.inj_add, zlen_frame_bytes, length_cons. lia.
Qed.

Lemma index_enough n :
  (header_size + lo) * n + header_size ≤ size sgm → index_entry_size * n ≤ zlen (r_mem (index sgm)).
Proof using Hlo L.
  intros Hn. pose proof (lay_index_room _ _ _ L).
  assert (n ≤ (size sgm - header_size) / (header_size + lo)).
  { apply Z.div_le_lower_bound; size_lia. }
  size_lia.
Qed.

Lemma zlen_used : zlen (blocks (g_slots g)) + zlen (g_mark g) = used (g_payloads g) (g_eos g).
Proof using L.
  rewrite (slots_length (g_slots g) []) by (by rewrite app_nil_r). rewrite (lay_mark _ _ _ L).
  unfold used. by destruct (g_eos g).
Qed.

Lemma used_bound : 0 ≤ used (g_payloads g) (g_eos g) ≤ size sgm.
Proof using L. pose proof (lay_room _ _ _ L). unfold used. destruct (g_eos g); size_lia. Qed.
End layout.

(** ** What the other calls know *)

Record extends (sgm sgm' : segment) (g g' : ghost) : Prop := {
  ext_size : size sgm' = size sgm;
  ext_base : r_base (buffer sgm') = r_base (buffer sgm);
  ext_prefix : ∃ ks, g_payloads g' = g_payloads g ++ ks;
  ext_slots i sl : g_slots g !! i = Some sl → ∃ sl', g_slots g' !! i = Some sl' ∧
    sl_payload sl' = sl_payload sl ∧ sl_owner sl' = sl_owner sl ∧ (published sl → published sl');
  ext_closed : g_eos g = true → g_payloads g' = g_payloads g ∧ g_eos g' = true
}.

Lemma extends_refl sgm sgm' g :
  size sgm' = size sgm → r_base (buffer sgm') = r_base (buffer sgm) → extends sgm sgm' g g.
Proof. intros Hs Hb. split; [done|done|by exists []; rewrite app_nil_r| |done]. intros i sl Hi. by exists sl. Qed.

Lemma extends_trans a b c g1 g2 g3 : extends a b g1 g2 → extends b c g2 g3 → extends a c g1 g3.
Proof.
  intros [Hs1 Hb1 [k1 Hk1] Hsl1 Hc1] [Hs2 Hb2 [k2 Hk2] Hsl2 Hc2]. split; try congruence.
  - exists (k1 ++ k2). by rewrite Hk2, Hk1, app_assoc.
  - intros i sl Hi. destruct (Hsl1 _ _ Hi) as (sl1 & Hi1 & Hp1 & Ho1 & Hpub1).
    destruct (Hsl2 _ _ Hi1) as (sl2 & Hi2 & Hp2 & Ho2 & Hpub2). exists sl2. split_and!; try congruence. auto.
  - intros He. destruct (Hc1 He) as [Hp He2], (Hc2 He2) as [Hp' He3]. split; [congruence|done].
Qed.

Section extends.
Context (lo : Z) (sgm sgm' : segment) (g g' : ghost) (E : extends sgm sgm' g g').

Lemma ext_length : zlen (g_slots g) ≤ zlen (g_slots g').
Proof using E.
  destruct (ext_prefix _ _ _ _ E) as [ks Hk]. apply (f_equal length) in Hk.
  rewrite length_app, !length_fmap in Hk. lia.
Qed.

Lemma ext_frames : zlen (frames (g_payloads g)) ≤ zlen (frames (g_payloads g')).
Proof using E. destruct (ext_prefix _ _ _ _ E) as [ks ->]. rewrite frames_app, length_app. lia. Qed.

Lemma ext_offset i sl : g_slots g !! i = Some sl → frame_offset (g_payloads g') i = frame_offset (g_payloads g) i.
Proof using E.
  intros Hi. destruct (ext_prefix _ _ _ _ E) as [ks ->]. apply frame_offset_prefix.
  apply lookup_lt_Some in Hi. rewrite length_fmap. lia.
Qed.

Lemma ext_known off phys ready : frame_known sgm g off phys ready → frame_known sgm' g' off phys ready.
Proof using E.
  intros (sl & Hi & -> & Hp). destruct (ext_slots _ _ _ _ E _ _ Hi) as (sl' & Hi' & _ & _ & Hp').
  exists sl'. split; [done|]. split; [by rewrite (ext_offset _ _ Hi)|]. destruct Hp; auto.
Qed.

Lemma ext_owned t :
  (∃ i sl, g_slots g !! i = Some sl ∧ sl_owner sl = Some t) →
  ∃ i sl, g_slots g' !! i = Some sl ∧ sl_owner sl = Some t.
Proof using E.
  intros (i & sl & Hi & Ho). destruct (ext_slots _ _ _ _ E _ _ Hi) as (sl' & Hi' & _ & Ho' & _).
  exists i, sl'. split; [done|congruence].
Qed.

Lemma call_ok_extends t c :
  call_ok lo sgm g t c → (pending c = true → g_eos g' = g_eos g) →
  (g_marker g = Some t → g_marker g' = Some t) → call_ok lo sgm' g' t c.
Proof using E.
  intros Hc Heos Hm. pose proof ext_frames. destruct E as [Hs Hb [ks Hk] Hsl Hcl].
  destruct c as [buf pc|off fr pc]; destruct Hc as [Ha Hpc]; (split; [done|]).
  - destruct pc as [|w| | |curr|st curr|curr|st curr|rc]; cbn [write_ok pending] in *; rewrite ?Hs; try done.
    + rewrite (Heos eq_refl). destruct Hpc as [Hw Hc]. split.
      * unfold used in *. destruct (g_eos g); size_lia.
      * intros He. destruct (Hcl He) as [-> _]. by apply Hc.
    + by rewrite (Heos eq_refl).
    + by rewrite (Heos eq_refl).
    + split; [lia|apply Hpc].
    + by apply Hm.
    + split; [lia|apply Hpc].
    + by apply ext_owned.
    + destruct Hpc as [Hrc|Ho]; [by left|right]. by apply ext_owned.
  - destruct pc as [| |b|b|phys|phys|rc fr']; cbn [read_ok] in *; try done.
    + pose proof ext_length. lia.
    + by apply ext_known.
    + by apply ext_known.
    + destruct Hpc as [Hrc|(sl & Hi & Hp & -> & ->)]; [by left|right].
      destruct (Hsl _ _ Hi) as (sl' & Hi' & Hp' & _ & Hpub). exists sl'.
      split; [done|]. split; [by apply Hpub|]. split; [by rewrite Hp'|].
      unfold frame_at. by rewrite Hb, (ext_offset _ _ Hi).
Qed.
End extends.
