(* ===== verification/SegmentThreadsStep.v ===== *)
(** * Segments under concurrent calls: the invariant along executions *)

From S2P Require Import Prelude Errno Crc32 Prot Util Posix Segment SegmentInv SegmentOps SegmentThreads SegmentThreadsInv SegmentThreadsOps.

(** ** Changing one call *)

Definition with_slots (sls : list slot) (g : ghost) : ghost :=
  Ghost sls (g_eos g) (g_marker g) (g_mark g) (g_rest g).

Lemma layout_slots lo sgm sgm' g sls :
  layout lo sgm g → payloads sls = g_payloads g →
  (∀ i sl, sls !! i = Some sl → slot_ok (i =? 0)%nat sl) →
  same_segment sgm sgm' → w_offset_pair sgm' = w_offset_pair sgm →
  r_mem (buffer sgm') = blocks sls ++ g_mark g ++ g_rest g →
  r_mem (index sgm') = flat_map (le_bytes 8) (entries 0 sls) ++
    zeros (zlen (r_mem (index sgm)) - index_entry_size * zlen sls) →
  layout lo sgm' (with_slots sls g).
Proof.
  intros L Hp Hsls Hsame Hw Hdata Hix. pose proof Hsame as [_ _ _ _ Hsz Hb _ _ Hil].
  assert (Hn : length sls = length (g_slots g)) by (rewrite <- !(length_fmap sl_payload); congruence).
  assert (Hlen : zlen (blocks sls) = zlen (blocks (g_slots g))).
  { rewrite (slots_length lo sgm g L (g_slots g) [] (eq_sym (app_nil_r _))), <- Hp.
    apply blocks_length. intros i sl Hi. exists (i =? 0)%nat. by apply Hsls. }
  assert (Hmem : zlen (r_mem (buffer sgm')) = zlen (r_mem (buffer sgm))).
  { rewrite Hdata, (lay_data _ _ _ L), !length_app. lia. }
  destruct L. unfold with_slots. split; simpl; rewrite ?Hsz, ?Hb, ?Hw, ?Hp, ?Hil; try done; try congruence.
  - intros -> He. apply lay_fresh in He; [|by destruct (g_slots g)].
    rewrite Hdata. rewrite lay_data in He. by replace (g_slots g) with (@nil slot) in He by by destruct (g_slots g).
Qed.

(** A call moves to a state that its part of the invariant allows; the slots
    and the end mark of the others stay. *)
Section step.
Context (lo : Z) (ps : list bytes) (Hlo : 0 ≤ lo).
Implicit Types (st : state) (g : ghost).

Definition unowned (c : call) : Prop :=
  match c with
  | Write _ (W_fill _ _ | W_return _ | W_marking _ _) => False
  | _ => True
  end.

Lemma owner_unowned st g i sl t c :
  conc_inv lo ps st g → g_slots g !! i = Some sl → sl_owner sl = Some t →
  st_calls st !! t = Some c → ¬ unowned c.
Proof using Type.
  intros I Hi Ho Hc Hu. rewrite (ci_owner _ _ _ _ I _ _ _ Hi Ho) in Hc. injection Hc as <-.
  unfold owner_pc in Hu. by destruct (sl_stage sl).
Qed.

(** A step of a call that claimed nothing, and claims nothing. *)
Lemma local_step sgm cs g t c c' :
  conc_inv lo ps (State sgm cs) g → cs !! t = Some c → unowned c → call_ok lo sgm g t c' →
  conc_inv lo ps (State sgm (<[t := c']> cs)) g.
Proof using Type.
  intros I Hc Hu Hc'. pose proof I as [L Hold Hown Huniq Hmark Hcalls]. split; simpl in *; try done.
  - intros i sl t' Hi Ho. rewrite list_lookup_insert_ne; [by apply Hown|]. intros <-.
    by apply (owner_unowned _ _ _ _ _ _ I Hi Ho Hc).
  - unfold mark_ok in *. destruct (g_marker g) as [t'|]; [|done].
    destruct Hmark as (He & buf & st & Ht' & Hm & Hs). split; [done|]. exists buf, st.
    rewrite list_lookup_insert_ne; [done|]. intros <-. rewrite Ht' in Hc. by injection Hc as <-.
  - intros t' c1 [(-> & -> & _)|(_ & Ht')]%list_lookup_insert_Some; [done|by apply Hcalls].
Qed.

(** A call starts. *)
Lemma start_step sgm cs g c :
  conc_inv lo ps (State sgm cs) g → call_ok lo sgm g (length cs) c →
  conc_inv lo ps (State sgm (cs ++ [c])) g.
Proof using Type.
  intros [L Hold Hown Huniq Hmark Hcalls] Hc. split; simpl in *; try done.
  - intros i sl t Hi Ho. apply lookup_app_l_Some. by apply (Hown i sl t).
  - unfold mark_ok in *. destruct (g_marker g) as [t'|]; [|done].
    destruct Hmark as (He & buf & st & Ht' & Hm & Hs). split; [done|]. exists buf, st.
    split; [by apply lookup_app_l_Some|done].
  - intros t c1 [Ht|[Hle Ht]]%lookup_app_Some; [by apply Hcalls|].
    apply list_lookup_singleton_Some in Ht as [Heq ->]. by replace t with (length cs) by lia.
Qed.

(** A sync. *)
Lemma sync_step sgm cs g s :
  conc_inv lo ps (State sgm cs) g → conc_inv lo ps (State (set_s_offset_pair s sgm) cs) g.
Proof using Type.
  intros [L Hold Hown Huniq Hmark Hcalls]. split; simpl in *; try done. by destruct L.
Qed.

(** *** A call moves one slot on *)

Section slot.
Context (g : ghost) (l1 l2 : list slot) (sl sl' : slot) (t : nat).
Context (Hg : g_slots g = l1 ++ sl :: l2) (Ho : sl_owner sl = Some t).
Context (Hp : sl_payload sl' = sl_payload sl) (Ho' : sl_owner sl' = Some t).
Let sls : list slot := l1 ++ sl' :: l2.

Lemma slot_payloads : payloads sls = g_payloads g.
Proof using Hg Hp. unfold sls. rewrite Hg, !fmap_app, !fmap_cons. by rewrite Hp. Qed.

Lemma slot_pair i : pair_at sls i = pair_at (g_slots g) i.
Proof using Hg Hp. unfold pair_at. by rewrite slot_payloads. Qed.

Lemma slots_same_length : length sls = length (g_slots g).
Proof using Hg. unfold sls. by rewrite Hg, !length_app. Qed.

Lemma slot_before : g_slots g !! length l1 = Some sl.
Proof using Hg. rewrite Hg. by apply list_lookup_middle. Qed.

Lemma slot_insert : sls = <[length l1 := sl']> (g_slots g).
Proof using Hg.
  unfold sls. rewrite Hg, <- (Nat.add_0_r (length l1)), insert_app_r. done.
Qed.

Lemma slot_lookup i : sls !! i = if decide (i = length l1) then Some sl' else g_slots g !! i.
Proof using Hg.
  rewrite slot_insert. destruct (decide _) as [->|Hne]; [|by apply list_lookup_insert_ne].
  apply list_lookup_insert_eq. eapply lookup_lt_Some, slot_before.
Qed.

Lemma slot_extends sgm sgm' :
  same_segment sgm sgm' → (published sl → published sl') → extends sgm sgm' g (with_slots sls g).
Proof using Hg Ho Ho' Hp.
  intros Hsame Hpub. split; try apply Hsame; simpl; [exists [] ; by rewrite app_nil_r, slot_payloads| |].
  - intros i sl1 Hsl1. rewrite slot_lookup. destruct (decide (i = length l1)) as [->|]; [|by exists sl1].
    exists sl'. rewrite slot_before in Hsl1. injection Hsl1 as <-. split_and!; [done|done|congruence|done].
  - intros He. split; [apply slot_payloads|done].
Qed.

Lemma slot_old :
  (∃ news, g_slots g = (stored_slot <$> ps) ++ news ∧ Forall (λ sl, is_Some (sl_owner sl)) news) →
  ∃ news, sls = (stored_slot <$> ps) ++ news ∧ Forall (λ sl, is_Some (sl_owner sl)) news.
Proof using Hg Ho Ho' Hp.
  intros (news & Hn & Hall). exists (<[length l1 - length ps := sl']> news)%nat.
  assert (length ps ≤ length l1)%nat.
  { apply Nat.nlt_ge. intros Hlt. pose proof slot_before as Hi.
    rewrite Hn, lookup_app_l, list_lookup_fmap in Hi by (by rewrite length_fmap).
    destruct (ps !! length l1); [|done]. simpl in Hi. by injection Hi as <-. }
  split; [|by apply Forall_insert]. rewrite slot_insert, Hn, insert_app_r_alt by (by rewrite length_fmap).
  by rewrite length_fmap.
Qed.

Lemma slot_step sgm cs sgm' c :
  conc_inv lo ps (State sgm cs) g → (published sl → published sl') → slot_ok (length l1 =? 0)%nat sl' →
  same_segment sgm sgm' → w_offset_pair sgm' = w_offset_pair sgm →
  r_mem (buffer sgm') = blocks sls ++ g_mark g ++ g_rest g →
  r_mem (index sgm') = flat_map (le_bytes 8) (entries 0 sls) ++
    zeros (zlen (r_mem (index sgm)) - index_entry_size * zlen sls) →
  c = Write (sl_payload sl') (owner_pc (pair_at (g_slots g) (length l1)) sl') →
  conc_inv lo ps (State sgm' (<[t := c]> cs)) (with_slots sls g) ∧ extends sgm sgm' g (with_slots sls g).
Proof using Hg Ho Ho' Hp.
  intros [L Hold Hown Huniq Hmark Hcalls] Hpub Hok Hsame Hw Hdata Hix ->. simpl in *.
  split; [|by apply slot_extends].
  pose proof (Hown _ _ _ slot_before Ho) as Hc.
  split; simpl.
  - apply (layout_slots lo sgm); try done; [apply slot_payloads|]. intros i sl1. rewrite slot_lookup.
    destruct (decide (i = length l1)) as [->|]; [intros [= <-]; done|apply (lay_slots _ _ _ L)].
  - by apply slot_old.
  - intros i sl1 t1. rewrite slot_pair, slot_lookup.
    destruct (decide (i = length l1)) as [->|Hne].
    + intros [= <-] Ht1. rewrite Ho' in Ht1. injection Ht1 as <-.
      apply list_lookup_insert_eq. by eapply lookup_lt_Some.
    + intros Hi1 Ho1. rewrite list_lookup_insert_ne; [by apply Hown|]. intros <-.
      by eapply Hne, Huniq, Ho; [done|apply slot_before|].
  - intros i j sl1 sl2 t1. rewrite !slot_lookup. intros H1 H2 Ho1 Ho2. pose proof slot_before.
    destruct (decide (i = length l1)) as [->|], (decide (j = length l1)) as [->|]; try done; simplify_eq;
      by eapply Huniq.
  - unfold mark_ok in *. simpl. destruct (g_marker g) as [t'|]; [|done].
    destruct Hmark as (He & buf & st & Ht' & Hm & Hs). split; [done|]. exists buf, st.
    rewrite slots_same_length, slot_payloads, (same_size _ _ Hsame), list_lookup_insert_ne; [done|].
    intros <-. rewrite Hc in Ht'. unfold owner_pc in Ht'. by destruct (sl_stage sl).
  - intros t1 c1 [(-> & <- & _)|(Hne & Hc1)]%list_lookup_insert_Some.
    + destruct (Hcalls _ _ Hc) as [Hargs _]. simpl. rewrite Hp. split; [done|].
      assert (∃ i sl0, sls !! i = Some sl0 ∧ sl_owner sl0 = Some t1).
      { exists (length l1), sl'. rewrite slot_lookup. by rewrite decide_True. }
      unfold owner_pc. destruct (sl_stage sl'); [done|by right].
    + eapply call_ok_extends; [by apply slot_extends|by apply Hcalls|done|done].
Qed.
End slot.
(** *** The stores of a claimed frame *)

Lemma entries_stage l1 (sl sl' : slot) l2 :
  sl_payload sl' = sl_payload sl → is_Some (sl_stage sl) → is_Some (sl_stage sl') →
  entries 0 (l1 ++ sl' :: l2) = entries 0 (l1 ++ sl :: l2).
Proof using Type.
  intros Hp [st Hs] [st' Hs']. rewrite !entries_app. cbn [entries]. by rewrite Hp, Hs, Hs'.
Qed.

Lemma put_entry l1 (sl sl' : slot) l2 rest :
  sl_payload sl' = sl_payload sl → is_Some (sl_stage sl) → sl_stage sl' = None →
  put_index (zlen l1) (zlen (frames (payloads l1))) (flat_map (le_bytes 8) (entries 0 (l1 ++ sl :: l2)) ++ rest) =
  Ok (flat_map (le_bytes 8) (entries 0 (l1 ++ sl' :: l2)) ++ rest).
Proof using Type.
  intros Hp [st Hs] Hs'. rewrite !entries_app. cbn [entries]. rewrite Hp, Hs, Hs', Z.add_0_l, !flat_map_app.
  cbn [flat_map]. rewrite <- !app_assoc. unfold put_index. apply store_le_app; [|done].
  rewrite length_le_bytes_flat, length_entries. size_lia.
Qed.

(** The slot of a call that fills one. *)
Lemma filled_slot sgm cs g t buf (st : stage) curr :
  conc_inv lo ps (State sgm cs) g → cs !! t = Some (Write buf (W_fill st curr)) →
  ∃ l1 sl l2, g_slots g = l1 ++ sl :: l2 ∧ sl_owner sl = Some t ∧ sl_payload sl = buf ∧
    sl_stage sl = Some st ∧ curr = OffsetPair (zlen l1) (zlen (blocks l1)) ∧
    curr = pair_at (g_slots g) (length l1).
Proof using Type.
  intros I Hc. destruct (ci_calls _ _ _ _ I _ _ Hc) as [_ (i & sl & Hi & Ho)].
  pose proof (ci_owner _ _ _ _ I _ _ _ Hi Ho) as Hc'. simpl in Hc, Hc'. rewrite Hc in Hc'.
  injection Hc' as Hb Hpc. unfold owner_pc in Hpc. destruct (sl_stage sl) as [st'|] eqn:Hs; [|done].
  injection Hpc as <- ->. destruct (slots_at _ _ _ Hi) as (l1 & l2 & Hg & ->). exists l1, sl, l2.
  destruct (cut_slot _ _ _ (ci_layout _ _ _ _ I) _ _ _ Hg) as (_ & Hoff & _). split_and!; try done.
  unfold pair_at. by rewrite Hoff.
Qed.

Lemma fill_event sgm cs g t buf (st : stage) curr :
  conc_inv lo ps (State sgm cs) g → cs !! t = Some (Write buf (W_fill st curr)) →
  ∃ pc sgm' g', fill_step buf st curr sgm = Ok (pc, sgm') ∧
    conc_inv lo ps (State sgm' (<[t := Write buf pc]> cs)) g' ∧ extends sgm sgm' g g'.
Proof using Hlo.
  intros I Hc. destruct (filled_slot _ _ _ _ _ _ _ I Hc) as (l1 & sl & l2 & Hg & Ho & <- & Hs & Hcurr & Hpair).
  pose proof (ci_layout _ _ _ _ I) as L. simpl in L. pose proof (lay_size _ _ _ L) as Hsz.
  destruct (cut_slot _ _ _ L _ _ _ Hg) as (Hm & Hoff & Hok).
  destruct (slot_bounds _ _ _ L (length l1) sl) as [Hb0 Hb]; [rewrite Hg; by apply list_lookup_middle|].
  unfold slot_ok in Hok. rewrite Hs in Hok. destruct Hok as [Hf _].
  pose proof (lay_index _ _ _ L) as Hix. rewrite Hg in Hix.
  destruct (decide (st = Entry)) as [->|Hne].
  - inversion Hf as [| | | | | | |Heq]. rewrite Hcurr. cbn [fill_step op_index op_data].
    set (sl' := Slot (sl_payload sl) (sl_block sl) None (Some t)).
    pose proof (put_entry l1 sl sl' l2 (zeros (zlen (r_mem (index sgm)) - index_entry_size * zlen (l1 ++ sl :: l2))))
      as Hput. rewrite <- Hix, <- (slots_length _ _ _ L _ _ Hg) in Hput.
    specialize (Hput eq_refl ltac:(by eexists) eq_refl). rewrite Hput, bind_Ok.
    apply store_length in Hput.
    eexists _, _, _. split; [done|]. apply (slot_step g l1 l2 sl sl' t); try done; simpl.
    + by left.
    + rewrite (lay_data _ _ _ L), Hg, !blocks_app. done.
    + rewrite !length_app. done.
    + by rewrite i64_small by size_lia.
  - rewrite Hcurr. destruct (fill_step_ok _ _ _ (zlen l1) (blocks l1) _ (blocks l2 ++ g_mark g ++ g_rest g) sgm Hf Hne) as (st' & b' & Hrun & Hf' & _);
      [size_lia|size_lia|exact Hm|].
    set (sl' := Slot (sl_payload sl) b' (Some st') (Some t)).
    eexists _, _, _. split; [exact Hrun|]. apply (slot_step g l1 l2 sl sl' t); try done; simpl.
    + unfold published. rewrite Hs. intros [?|[= ?]]; done.
    + change (sl' :: l2) with ([sl'] ++ l2). by rewrite !blocks_app, blocks_single, <- !app_assoc.
    + rewrite (entries_stage l1 sl sl' l2) by (try done; by eexists). rewrite !length_app in *. exact Hix.
    + by rewrite <- Hcurr, Hpair.
Qed.
(** *** A frame is claimed *)

Section claim.
Context (sgm : segment) (cs : list call) (g : ghost) (t : nat) (buf : bytes) (curr : offset_pair).
Context (I : conc_inv lo ps (State sgm cs) g) (Hc : cs !! t = Some (Write buf (W_claim curr))).
Context (Hw : w_offset_pair sgm = curr).

Lemma claim_facts :
  g_eos g = false ∧ g_marker g = None ∧ g_mark g = [] ∧
  curr = OffsetPair (zlen (g_slots g)) (zlen (frames (g_payloads g))) ∧
  zlen (frames (g_payloads g)) + 2 * header_size + zlen buf ≤ size sgm ∧ lo ≤ zlen buf.
Proof using Hc Hw I.
  destruct (ci_calls _ _ _ _ I _ _ Hc) as [[Hb _] [Hd Hroom]]. pose proof (ci_layout _ _ _ _ I) as L.
  simpl in *. pose proof (lay_w _ _ _ L) as Hpair. rewrite Hw in Hpair. rewrite Hpair in Hd, Hroom |- *.
  cbn [op_data] in *. assert (He : g_eos g = false).
  { destruct (g_eos g); [|done]. rewrite used_true, used_false in Hd. size_lia. }
  pose proof (ci_mark _ _ _ _ I) as Hm. pose proof (lay_mark _ _ _ L) as Hlm. unfold mark_ok in Hm.
  rewrite He in *. rewrite used_false in *. split_and!; try done.
  - destruct (g_marker g); [|done]. by destruct Hm.
  - by destruct (g_mark g).
Qed.

(** The block of the new frame is cut from the free space. *)
Lemma claim_block :
  ∃ b rest, g_rest g = b ++ rest ∧ filling (length (g_slots g) =? 0)%nat buf (Copy 0) b.
Proof using Hc Hw I.
  destruct claim_facts as (He & _ & Hmk & _ & Hroom & _). pose proof (ci_layout _ _ _ _ I) as L. simpl in L.
  pose proof (lay_data _ _ _ L) as Hm. rewrite Hmk in Hm. simpl app in Hm.
  pose proof (slots_length _ _ _ L (g_slots g) [] (eq_sym (app_nil_r _))) as Hlen.
  pose proof (lay_len _ _ _ L) as Hl. rewrite Hm, length_app in Hl.
  destruct (cut_at (g_rest g) 0 header_size) as ([|? ?] & h & rest & Hr & Hz & Hh); [size_lia..| |done].
  destruct (cut_at rest 0 (zlen buf)) as ([|? ?] & q & rest' & -> & Hz' & Hq); [size_lia..| | |done].
  { simpl in Hr. rewrite Hr, length_app in Hl. size_lia. }
  simpl in Hr. destruct (fields_cut h) as (f & v & d & s & c & -> & ? & ? & ? & ? & ?); [size_lia|].
  exists (fields f v d s c ++ q), rest'. split; [by rewrite <- app_assoc|].
  apply (filling_copy _ _ 0 f v d s c q); [done| |simpl; lia].
  intros Hn. apply Nat.eqb_eq in Hn. destruct (g_slots g) eqn:Hsl; [|done].
  pose proof (lay_fresh _ _ _ L Hsl He) as Hfresh. rewrite Hm, Hr in Hfresh. simpl in Hfresh.
  unfold prot_is_header in Hfresh.
  pose proof (get_flags_fields [] (q ++ rest') f v d s c) as Hfl.
  change (zlen []) with 0 in Hfl. cbn [app] in Hfl. rewrite Hfl in Hfresh by done.
  rewrite bind_Ok in Hfresh. injection Hfresh as Hfr. bool_to_prop. done.
Qed.
Definition claimed (b rest : bytes) : ghost :=
  Ghost (g_slots g ++ [Slot buf b (Some (Copy 0)) (Some t)]) false None [] rest.

Lemma claimed_payloads b rest : g_payloads (claimed b rest) = g_payloads g ++ [buf].
Proof using Type. simpl. by rewrite fmap_app. Qed.

Lemma claim_pair :
  OffsetPair (u32 (op_index curr + 1)) (u32 (op_data curr + u64 (header_size + zlen buf))) =
  OffsetPair (zlen (g_slots g) + 1) (zlen (frames (g_payloads g ++ [buf]))).
Proof using Hc Hw I Hlo.
  destruct claim_facts as (_ & _ & _ & -> & Hroom & Hb). pose proof (ci_layout _ _ _ _ I) as L. simpl in L.
  pose proof (lay_size _ _ _ L) as Hsz. pose proof (slots_count _ _ _ L) as Hn. cbn [op_index op_data].
  rewrite zlen_frames_snoc. rewrite (u64_small (header_size + zlen buf)) by size_lia.
  f_equal; apply u32_small; [|size_lia]. split; [lia|].
  assert (zlen (g_slots g) ≤ (header_size + lo) * zlen (g_slots g)) by (unfold header_size; nia). size_lia.
Qed.

Lemma claim_layout b rest sgm' :
  g_rest g = b ++ rest → filling (length (g_slots g) =? 0)%nat buf (Copy 0) b →
  sgm' = set_w_offset_pair (OffsetPair (zlen (g_slots g) + 1) (zlen (frames (g_payloads g ++ [buf])))) sgm →
  layout lo sgm' (claimed b rest).
Proof using Hc Hw I Hlo.
  intros Hr Hf ->. destruct claim_facts as (He & _ & Hmk & _ & Hroom & Hb).
  pose proof (ci_layout _ _ _ _ I) as L. simpl in L. pose proof (slots_count _ _ _ L) as Hn.
  pose proof (index_enough _ _ _ Hlo L (zlen (g_slots g) + 1)) as Hix.
  pose proof (lay_room _ _ _ L). destruct L. split; rewrite ?claimed_payloads; simpl; try done.
  - rewrite lay_data, Hmk, Hr, blocks_app, blocks_single. simpl. by rewrite <- app_assoc.
  - intros i sl [Hi|[Hle Hi]]%lookup_app_Some; [by apply lay_slots|].
    apply list_lookup_singleton_Some in Hi as [Hi <-].
    replace i with (length (g_slots g)) by lia. split; [done|]. by eexists.
  - rewrite zlen_frames_snoc. size_lia.
  - intros Hnil. by destruct (g_slots g).
  - rewrite lay_index at 1. rewrite entries_app, flat_map_app, <- app_assoc. f_equal. cbn [entries sl_stage flat_map].
    rewrite app_nil_r, length_app. change (le_bytes 8 0) with (zeros index_entry_size).
    rewrite (zeros_split index_entry_size) by size_lia. do 2 f_equal. simpl. size_lia.
  - apply Forall_app. split; [done|]. by apply Forall_singleton.
  - rewrite length_app, used_false. f_equal. simpl. lia.
Qed.

Lemma claim_step sgm' b rest :
  g_rest g = b ++ rest → filling (length (g_slots g) =? 0)%nat buf (Copy 0) b →
  sgm' = set_w_offset_pair (OffsetPair (zlen (g_slots g) + 1) (zlen (frames (g_payloads g ++ [buf])))) sgm →
  conc_inv lo ps (State sgm' (<[t := Write buf (W_fill (Copy 0) curr)]> cs)) (claimed b rest) ∧
  extends sgm sgm' g (claimed b rest).
Proof using Hc Hw I Hlo.
  intros Hr Hf Hsgm. destruct claim_facts as (He & Hmk & _ & Hcurr & Hroom & Hb).
  pose proof (claim_layout b rest sgm' Hr Hf Hsgm) as L'. pose proof I as [L Hold Hown Huniq Hmark Hcalls].
  simpl in *. assert (Hext : extends sgm sgm' g (claimed b rest)).
  { split; rewrite ?Hsgm, ?claimed_payloads; simpl; try done; [by eexists| |congruence].
    intros i sl Hi. exists sl. split; [by apply lookup_app_l_Some|done]. }
  assert (Hnot : ∀ i sl, g_slots g !! i = Some sl → sl_owner sl ≠ Some t).
  { intros i sl Hi Ho. by apply (owner_unowned _ _ _ _ _ _ I Hi Ho Hc). }
  split; [|done]. split; [done|..]; simpl.
  - destruct Hold as (news & -> & Hall). exists (news ++ [Slot buf b (Some (Copy 0)) (Some t)]).
    rewrite app_assoc. split; [done|]. apply Forall_app. split; [done|]. apply Forall_singleton. by eexists.
  - intros i sl t1 Hi Ho. unfold pair_at. rewrite fmap_app. simpl.
    apply lookup_app_Some in Hi as [Hi|[Hle Hi]].
    + rewrite list_lookup_insert_ne by (intros <-; by eapply Hnot). rewrite frame_offset_prefix; [by apply Hown|].
      apply lookup_lt_Some in Hi. rewrite length_fmap. lia.
    + apply list_lookup_singleton_Some in Hi as [Hi <-]. injection Ho as <-.
      replace i with (length (payloads (g_slots g))) by (rewrite length_fmap; lia).
      rewrite list_lookup_insert_eq by (by eapply lookup_lt_Some).
      rewrite frame_offset_prefix by done. unfold frame_offset, owner_pc. simpl.
      by rewrite firstn_all, length_fmap, Hcurr.
  - intros i j sl1 sl2 t1 Hi Hj Ho1 Ho2.
    apply lookup_app_Some in Hi as [Hi|[Hli Hi]]; apply lookup_app_Some in Hj as [Hj|[Hlj Hj]];
      try apply list_lookup_singleton_Some in Hi as [Hi <-]; try apply list_lookup_singleton_Some in Hj as [Hj <-];
      simpl in *; simplify_eq; [by eapply Huniq|by edestruct Hnot..|lia].
  - done.
  - intros t1 c1 [(<- & <- & _)|(Hne & Hc1)]%list_lookup_insert_Some.
    + destruct (Hcalls _ _ Hc) as [Hargs _]. split; [done|]. exists (length (g_slots g)). eexists.
      split; [by apply list_lookup_middle|done].
    + eapply call_ok_extends; [exact Hext|by apply Hcalls|by rewrite He|by rewrite Hmk].
Qed.
End claim.
(** *** The end is marked *)

Lemma pendings_cons c cs : pendings (c :: cs) = ((if pending c then 1 else 0) + pendings cs)%nat.
Proof using Type. done. Qed.

Lemma need_pos c : 0 ≤ need c.
Proof using Type. destruct c as [buf pc|off fr pc]; unfold need; [|done]. destruct (pending _); size_lia. Qed.

Lemma needs_pos cs : 0 ≤ needs cs.
Proof using Type. induction cs as [|c cs IH]; [done|]. simpl. pose proof (need_pos c). lia. Qed.

Lemma pending_one cs t c : cs !! t = Some c → pending c = true → (1 ≤ pendings cs)%nat ∧ need c ≤ needs cs.
Proof using Type.
  revert t. induction cs as [|c0 cs IH]; intros t Ht Hp; [done|]. destruct t as [|t]; simpl in Ht.
  - injection Ht as ->. cbn [pendings needs]. rewrite Hp. split; [lia|]. pose proof (needs_pos cs). lia.
  - destruct (IH t Ht Hp). cbn [pendings needs]. split; [lia|]. pose proof (need_pos c0). lia.
Qed.

Lemma pending_two cs : ∀ t t' c c',
  cs !! t = Some c → cs !! t' = Some c' → t ≠ t' → pending c = true → pending c' = true →
  (2 ≤ pendings cs)%nat ∧ need c + need c' ≤ needs cs.
Proof using Type.
  induction cs as [|c0 cs IH]; intros t t' c c' Ht Ht' Hne Hp Hp'; [done|]. cbn [pendings needs].
  destruct t as [|t], t' as [|t']; simpl in Ht, Ht'; [done|..].
  - injection Ht as ->. destruct (pending_one _ _ _ Ht' Hp'). rewrite Hp. split; lia.
  - injection Ht' as ->. destruct (pending_one _ _ _ Ht Hp). rewrite Hp'. split; lia.
  - destruct (IH t t' c c') as [? ?]; try done; [congruence|]. pose proof (need_pos c0). split; [lia|lia].
Qed.

(** In a calm state a call that does not fit is the only pending one. *)
Lemma calm_alone sgm cs t buf pc t' c' :
  calm (State sgm cs) = true → cs !! t = Some (Write buf pc) → pending (Write buf pc) = true →
  size sgm < op_data (w_offset_pair sgm) + 2 * header_size + zlen buf →
  cs !! t' = Some c' → pending c' = true → t' = t.
Proof using Type.
  intros Hcalm Ht Hp Hbig Ht' Hp'. destruct (decide (t' = t)) as [|Hne]; [done|exfalso].
  destruct (pending_two _ _ _ _ _ Ht Ht' (not_eq_sym Hne) Hp Hp') as [Htwo Hneeds].
  unfold calm in Hcalm. cbn [st_segment st_calls] in Hcalm. apply orb_true_iff in Hcalm as [H|H].
  - apply Nat.leb_le in H. lia.
  - apply Z.leb_le in H. unfold need at 1 in Hneeds. rewrite Hp in Hneeds. pose proof (need_pos c'). size_lia.
Qed.

Lemma marked_extends sgm sgm' g mk mb rest :
  size sgm' = size sgm → r_base (buffer sgm') = r_base (buffer sgm) →
  extends sgm sgm' g (Ghost (g_slots g) true mk mb rest).
Proof using Type.
  intros Hs Hb. split; try done; [exists []; by rewrite app_nil_r|]. intros i sl Hi. by exists sl.
Qed.

(** A writer whose call claims the mark. *)
Lemma mark_facts sgm cs g t buf curr :
  conc_inv lo ps (State sgm cs) g → cs !! t = Some (Write buf (W_mark curr)) → w_offset_pair sgm = curr →
  g_eos g = false ∧ curr = OffsetPair (zlen (g_slots g)) (zlen (frames (g_payloads g))) ∧
  size sgm < zlen (frames (g_payloads g)) + 2 * header_size + zlen buf ∧
  ∃ mb rest, r_mem (buffer sgm) = blocks (g_slots g) ++ mb ++ rest ∧ zlen mb = header_size ∧
    marking Mark_flags mb.
Proof using Type.
  intros I Hc Hw. pose proof (ci_layout _ _ _ _ I) as L. simpl in L.
  destruct (ci_calls _ _ _ _ I _ _ Hc) as [_ [Hd Hbig]]. pose proof (lay_w _ _ _ L) as Hpair.
  rewrite Hw in Hpair. rewrite Hpair in Hd, Hbig |- *. simpl in *.
  assert (He : g_eos g = false).
  { destruct (g_eos g); [|done]. rewrite used_true, used_false in Hd. size_lia. }
  rewrite He, used_false in *. split_and!; try done.
  pose proof (lay_mark _ _ _ L) as Hmk. rewrite He in Hmk. assert (g_mark g = []) as Hnil by by destruct (g_mark g).
  pose proof (slots_length _ _ _ L (g_slots g) [] (eq_sym (app_nil_r _))) as Hlen.
  pose proof (lay_room _ _ _ L). pose proof (lay_len _ _ _ L) as Hl.
  rewrite (lay_data _ _ _ L), Hnil, length_app in Hl. simpl in Hl.
  destruct (cut_at (g_rest g) 0 header_size) as ([|? ?] & mb & rest & Hr & Hz & Hmb); [size_lia..| |done].
  exists mb, rest. simpl in Hr. rewrite (lay_data _ _ _ L), Hnil, Hr. split_and!; try done.
  destruct (fields_cut mb) as (f & v & d & s & c & -> & ? & ? & ? & ? & ?); [size_lia|]. by constructor.
Qed.

Lemma mark_event sgm cs g t buf curr sgm' :
  conc_inv lo ps (State sgm cs) g → calm (State sgm cs) = true → cs !! t = Some (Write buf (W_mark curr)) →
  w_offset_pair sgm = curr →
  sgm' = set_w_offset_pair (OffsetPair (op_index curr) (u32 (op_data curr + header_size))) sgm →
  ∃ g', conc_inv lo ps (State sgm' (<[t := Write buf (W_marking Mark_flags curr)]> cs)) g' ∧
    extends sgm sgm' g g'.
Proof using Type.
  intros I Hcalm Hc Hw ->.
  destruct (mark_facts _ _ _ _ _ _ I Hc Hw) as (He & Hcurr & Hbig & mb & rest & Hdata & Hmb & Hmark').
  pose proof I as [L Hold Hown Huniq Hmark Hcalls]. simpl in *. rewrite Hcurr. cbn [op_index op_data].
  pose proof (lay_room _ _ _ L). pose proof (lay_size _ _ _ L). rewrite u32_small by size_lia.
  assert (Halone : ∀ t' c', cs !! t' = Some c' → pending c' = true → t' = t).
  { intros t' c'. apply (calm_alone sgm _ _ _ _ _ _ Hcalm Hc eq_refl). rewrite Hw, Hcurr. simpl. size_lia. }
  set (g' := Ghost (g_slots g) true (Some t) mb rest).
  assert (Hext : extends sgm (set_w_offset_pair (OffsetPair (zlen (g_slots g))
    (zlen (frames (g_payloads g)) + header_size)) sgm) g g') by by apply marked_extends.
  exists g'. split; [|done]. split; simpl.
  - destruct L. split; simpl; try done.
  - done.
  - intros i sl t1 Hi Ho. rewrite list_lookup_insert_ne; [by apply Hown|]. intros <-.
    by apply (owner_unowned _ _ _ _ _ _ I Hi Ho Hc).
  - done.
  - split; [done|]. exists buf, Mark_flags. by rewrite list_lookup_insert_eq by (by eapply lookup_lt_Some).
  - intros t1 c1 [(<- & <- & _)|(Hne & Hc1)]%list_lookup_insert_Some.
    + destruct (Hcalls _ _ Hc) as [Hargs _]. done.
    + eapply call_ok_extends; [exact Hext|by apply Hcalls| |].
      * intros Hp. destruct Hne. symmetry. by eapply Halone.
      * intros Hm. unfold mark_ok in Hmark. rewrite Hm, He in Hmark. by destruct Hmark.
Qed.

(** The stores of the mark. *)
Lemma marking_event sgm cs g t buf (st : mark_stage) curr :
  conc_inv lo ps (State sgm cs) g → cs !! t = Some (Write buf (W_marking st curr)) →
  ∃ pc sgm' g', mark_step st curr sgm = Ok (pc, sgm') ∧
    conc_inv lo ps (State sgm' (<[t := Write buf pc]> cs)) g' ∧ extends sgm sgm' g g'.
Proof using Hlo.
  intros I Hc. pose proof I as [L Hold Hown Huniq Hmark Hcalls]. simpl in *.
  destruct (Hcalls _ _ Hc) as [Hargs Hm]. simpl in Hm. unfold mark_ok in Hmark. rewrite Hm in Hmark.
  destruct Hmark as (He & buf' & st' & Hc' & Hmk & Hbig). rewrite Hc in Hc'. injection Hc' as <- <- ->.
  pose proof (slots_length _ _ _ L (g_slots g) [] (eq_sym (app_nil_r _))) as Hlen. rewrite <- Hlen.
  destruct (mark_step_ok st (zlen (g_slots g)) _ _ _ sgm Hmk (lay_data _ _ _ L)) as (pc & b' & Hrun & Hpc).
  set (mk := match pc with W_return _ => None | _ => Some t end).
  exists pc, (set_buffer (blocks (g_slots g) ++ b' ++ g_rest g) sgm), (Ghost (g_slots g) true mk b' (g_rest g)).
  split; [done|].
  assert (Hext : extends sgm (set_buffer (blocks (g_slots g) ++ b' ++ g_rest g) sgm) g
    (Ghost (g_slots g) true mk b' (g_rest g))) by by apply marked_extends.
  assert (Hb' : zlen b' = header_size).
  { destruct pc; try done; destruct Hpc as [_ Hb]; [by eapply marking_length|by apply marked_length]. }
  split; [|done]. split; simpl.
  - pose proof (lay_mark _ _ _ L) as Hlm. pose proof (lay_w _ _ _ L) as Hw. rewrite He in Hlm, Hw.
    destruct L. split; simpl; try done. rewrite <- lay_len, lay_data, !length_app. lia.
  - done.
  - intros i sl t1 Hi Ho. rewrite list_lookup_insert_ne; [by apply Hown|]. intros <-.
    pose proof (Hown _ _ _ Hi Ho) as Hco. rewrite Hc in Hco. unfold owner_pc in Hco. by destruct (sl_stage sl).
  - done.
  - unfold mark_ok, mk. destruct pc as [| | | | |st1 c1| | |rc]; try done; destruct Hpc as [-> Hb]; simpl; [|done].
    split; [done|]. exists buf, st1. rewrite list_lookup_insert_eq, Hlen by (by eapply lookup_lt_Some). done.
  - intros t1 c1 [(<- & <- & _)|(Hne & Hc1)]%list_lookup_insert_Some.
    + split; [done|]. destruct pc; try done; destruct Hpc as [-> _]. left. set_solver.
    + eapply call_ok_extends; [exact Hext|by apply Hcalls|done|]. rewrite Hm. intros [= <-]. done.
Qed.
(** ** Every access of a call *)

(** The step of the call [t] keeps the invariant. *)
Definition steps_on (st : state) (g : ghost) (t : nat) (c : call) : Prop :=
  ∃ c' sgm' g', call_step c (st_segment st) = Ok (c', sgm') ∧
    conc_inv lo ps (State sgm' (<[t := c']> (st_calls st))) g' ∧ extends (st_segment st) sgm' g g'.

Lemma local_steps_on sgm cs g t c c' :
  conc_inv lo ps (State sgm cs) g → cs !! t = Some c → unowned c →
  call_step c sgm = Ok (c', sgm) → call_ok lo sgm g t c' → steps_on (State sgm cs) g t c.
Proof using Type. 
  intros I Hc Hu Hrun Hok. exists c', sgm, g. split; [done|]. split; [by eapply local_step|by apply extends_refl].
Qed.

Lemma last_event sgm cs g t buf w :
  conc_inv lo ps (State sgm cs) g → calm (State sgm cs) = true → cs !! t = Some (Write buf (W_last w)) →
  steps_on (State sgm cs) g t (Write buf (W_last w)).
Proof using Hlo.
  intros I Hcalm Hc. pose proof (ci_layout _ _ _ _ I) as L. pose proof (ci_mark _ _ _ _ I) as Hm.
  destruct (ci_calls _ _ _ _ I _ _ Hc) as [Hargs [Hw Heos]]. simpl in *.
  pose proof (used_bound _ _ _ L). pose proof (lay_len _ _ _ L) as Hlen.
  destruct (load_Ok (w - header_size) 2 (r_mem (buffer sgm))) as (bs & Hload & _); [size_lia..|].
  assert (Hfl : get_flags (w - header_size) (r_mem (buffer sgm)) = Ok (le_value bs)).
  { unfold get_flags, load_le. change (Z.of_nat 2) with 2. by run Hload. }
  eapply (local_steps_on _ _ _ _ _ (Write buf (if le_value bs =? HEADER_FLAGS_EOS then W_return ELEOS else W_index)));
    [done|done|done| |].
  { cbn [call_step write_step]. by run Hfl. }
  split; [done|]. destruct (Z.eqb_spec (le_value bs) HEADER_FLAGS_EOS) as [|Hne]; [left; set_solver|].
  destruct (g_eos g) eqn:He; [exfalso|done]. rewrite (Heos eq_refl) in *.
  unfold mark_ok in Hm. destruct (g_marker g) as [t'|].
  - destruct Hm as (_ & buf' & st & Ht' & _ & Hbig).
    assert (t = t') as <-.
    { eapply (calm_alone _ _ _ _ _ _ _ Hcalm Ht'); [done| |done..].
      rewrite (lay_w _ _ _ L), He, used_true, used_false. cbn [op_data]. size_lia. }
    rewrite Hc in Ht'. done.
  - destruct (Hm He) as (f & v & d & s & c & [] & Hmb & Hf & _). apply Hne. rewrite (lay_data _ _ _ L), Hmb in Hfl.
    pose proof (slots_length _ _ _ L (g_slots g) [] (eq_sym (app_nil_r _))) as Hl.
    rewrite used_true, used_false, <- Hl, Z.add_simpl_r in Hfl.
    rewrite get_flags_fields in Hfl by done. by injection Hfl as <-.
Qed.

Lemma data_event sgm cs g t buf i :
  conc_inv lo ps (State sgm cs) g → cs !! t = Some (Write buf (W_data i)) →
  steps_on (State sgm cs) g t (Write buf (W_data i)).
Proof using Hlo.
  intros I Hc. pose proof (ci_layout _ _ _ _ I) as L. destruct (ci_calls _ _ _ _ I _ _ Hc) as [Hargs He].
  simpl in *. pose proof (lay_size _ _ _ L). pose proof (lay_room _ _ _ L).
  eapply local_steps_on; [done|done|done|done|]. split; [done|].
  rewrite (lay_w _ _ _ L), He, used_false. cbn [op_data].
  rewrite (u64_small (header_size + zlen buf)) by size_lia. rewrite !u64_small by size_lia.
  rewrite Z.gtb_ltb. destruct (Z.ltb_spec (size sgm - zlen (frames (g_payloads g)))
    (header_size + (header_size + zlen buf))); simpl; lia.
Qed.

Lemma write_event sgm cs g t buf pc :
  conc_inv lo ps (State sgm cs) g → calm (State sgm cs) = true → cs !! t = Some (Write buf pc) →
  steps_on (State sgm cs) g t (Write buf pc).
Proof using Hlo.
  intros I Hcalm Hc. pose proof (ci_layout _ _ _ _ I) as L. simpl in L.
  destruct (ci_calls _ _ _ _ I _ _ Hc) as [Hargs Hpc].
  destruct pc as [|w| |i|curr|st curr|curr|st curr|rc]; simpl in Hpc.
  - eapply local_steps_on; [done|done|done|done|]. split; [done|]. rewrite (lay_w _ _ _ L). cbn [op_data].
    destruct (Z.ltb_spec (used (g_payloads g) (g_eos g)) header_size) as [Hlt|Hge]; simpl.
    + destruct (g_eos g); [|done]. rewrite used_true, used_false in Hlt. size_lia.
    + split; [lia|]. by intros ->.
  - by eapply last_event.
  - by eapply local_steps_on.
  - by eapply data_event.
  - unfold steps_on. cbn [call_step write_step]. unfold claim. destruct (decide _) as [Hw|Hw]; simpl.
    + destruct (mark_event _ _ _ _ _ _ _ I Hcalm Hc Hw eq_refl) as [g' I']. by eexists _, _, g'.
    + eexists _, _, g. split; [done|]. split; [|by apply extends_refl].
      eapply local_step; try done. split; [done|]. left. set_solver.
  - destruct (marking_event _ _ _ _ _ _ _ I Hc) as (pc & sgm' & g' & Hrun & I' & Hext).
    exists (Write buf pc), sgm', g'. split; [|done]. cbn [call_step write_step st_segment]. by run Hrun.
  - unfold steps_on. cbn [call_step write_step]. unfold claim. destruct (decide _) as [Hw|Hw]; simpl.
    + destruct (claim_block _ _ _ _ _ _ I Hc Hw) as (b & rest & Hr & Hf). rewrite (claim_pair _ _ _ _ _ _ I Hc Hw).
      eexists _, _, (claimed _ _ _ b rest). split; [done|]. by apply (claim_step _ _ _ _ _ _ I Hc Hw).
    + eexists _, _, g. split; [done|]. split; [|by apply extends_refl].
      eapply local_step; try done. split; [done|]. left. set_solver.
  - destruct (fill_event _ _ _ _ _ _ _ I Hc) as (pc & sgm' & g' & Hrun & I' & Hext).
    exists (Write buf pc), sgm', g'. split; [|done]. cbn [call_step write_step st_segment]. by run Hrun.
  - exists (Write buf (W_return rc)), sgm, g. split; [done|]. simpl.
    rewrite list_insert_id by done. split; [done|by apply extends_refl].
Qed.
(** *** Readers *)

Lemma published_block first sl : slot_ok first sl → published sl → sl_block sl = frame_bytes (sl_payload sl).
Proof using Type. unfold slot_ok. intros Hok [Hs|Hs]; rewrite Hs in Hok; [done|]. destruct Hok as [Hf _]. by inversion Hf. Qed.

(** A reader that looks at the first block too early sees no header. *)
Lemma early_flags p (st : stage) (pre b post : bytes) :
  filling true p st b → st ≠ Entry →
  ∃ v, get_flags (zlen pre) (pre ++ b ++ post) = Ok v ∧ v ≠ HEADER_FLAGS_READY ∧ v ≠ HEADER_FLAGS_EOS.
Proof using Type.
  intros Hf Hne.
  destruct Hf as [k f v d s c q Hl Hn Hq|f v d s c Hl Hn|v d s c Hl|d s c Hl|s c Hl|s Hl| |]; [..|done];
    try (rewrite <- app_assoc, get_flags_fields by (try apply Hl; done)); eexists; (split; [done|]);
    try (by apply Hn); done.
Qed.

Lemma published_header sgm g i sl :
  layout lo sgm g → g_slots g !! i = Some sl → published sl →
  get_flags (frame_offset (g_payloads g) i) (r_mem (buffer sgm)) = Ok HEADER_FLAGS_READY ∧
  get_size (frame_offset (g_payloads g) i) (r_mem (buffer sgm)) = Ok (header_size + zlen (sl_payload sl)) ∧
  frame_payload (buffer sgm) (frame_at sgm (frame_offset (g_payloads g) i)) = Ok (sl_payload sl).
Proof using Type.
  intros L Hi Hp. destruct (slot_bounds _ _ _ L _ _ Hi) as [Hb0 Hb]. pose proof (lay_size _ _ _ L).
  destruct (slots_at _ _ _ Hi) as (l1 & l2 & Hg & ->). destruct (cut_slot _ _ _ L _ _ _ Hg) as (Hm & Hoff & Hok).
  rewrite (published_block _ _ Hok Hp) in Hm. unfold frame_bytes in Hm. rewrite <- app_assoc in Hm.
  assert (Hh : header_ok (frame_header (sl_payload sl))) by (apply frame_header_ok; size_lia).
  pose proof (get_flags_encoded (blocks l1) (sl_payload sl ++ blocks l2 ++ g_mark g ++ g_rest g) _ Hh) as Hfl.
  pose proof (get_size_encoded (blocks l1) (sl_payload sl ++ blocks l2 ++ g_mark g ++ g_rest g) _ Hh) as Hsz.
  rewrite <- Hm, Hoff in Hfl, Hsz. split; [done|]. split; [done|].
  unfold frame_payload, frame_payload_size, frame_at. cbn [fr_hdr fr_buffer].
  rewrite Z.add_simpl_l. run Hsz. cbn [h_size frame_header]. rewrite u64_small by size_lia. rewrite Z.add_simpl_l.
  rewrite Hm, app_assoc. apply load_app; [|lia]. rewrite length_app, Nat2Z.inj_add, zlen_header_bytes. lia.
Qed.

Lemma get_entry sgm g i sl :
  layout lo sgm g → g_slots g !! i = Some sl →
  get_index (Z.of_nat i) (r_mem (index sgm)) =
    Ok match sl_stage sl with None => frame_offset (g_payloads g) i | Some _ => 0 end.
Proof using Type.
  intros L Hi. destruct (slot_bounds _ _ _ L _ _ Hi) as [Hb0 Hb]. pose proof (lay_size _ _ _ L).
  destruct (slots_at _ _ _ Hi) as (l1 & l2 & Hg & ->). rewrite (lay_index _ _ _ L), Hg.
  rewrite frame_offset_at. rewrite Hg, frame_offset_at in Hb0, Hb.
  rewrite entries_app, Z.add_0_l, flat_map_app. cbn [entries flat_map]. rewrite <- !app_assoc.
  unfold get_index. rewrite load_le_app; [|rewrite length_le_bytes_flat, length_entries; size_lia|done].
  rewrite le_value_bytes; [done|]. destruct (sl_stage sl); size_lia.
Qed.

Lemma entry_event sgm cs g t off fr b :
  conc_inv lo ps (State sgm cs) g → cs !! t = Some (Read off fr (R_entry b)) →
  steps_on (State sgm cs) g t (Read off fr (R_entry b)).
Proof using Hlo.
  intros I Hc. pose proof (ci_layout _ _ _ _ I) as L. destruct (ci_calls _ _ _ _ I _ _ Hc) as [Hargs Hoff].
  simpl in *. destruct (g_slots g !! Z.to_nat off) as [sl|] eqn:Hsl.
  2:{ apply lookup_ge_None in Hsl. lia. }
  pose proof (get_entry _ _ _ _ L Hsl) as He. rewrite Z2Nat.id in He by lia.
  eapply local_steps_on; [done|done|done| |].
  { cbn [call_step read_step]. run He. done. }
  split; [done|]. set (phys := match sl_stage sl with None => _ | Some _ => 0 end).
  destruct (negb (off =? 0) && (phys =? 0)) eqn:Hz; [left; set_solver|].
  destruct (phys >=? b); [left; set_solver|]. exists sl. split; [done|]. unfold phys in *.
  destruct (sl_stage sl) as [st|] eqn:Hst; [|split; [done|left; by left]].
  rewrite Z.eqb_refl, andb_true_r in Hz. apply negb_false_iff, Z.eqb_eq in Hz as ->.
  split; [done|]. by right.
Qed.

Lemma flags_event sgm cs g t off fr phys :
  conc_inv lo ps (State sgm cs) g → cs !! t = Some (Read off fr (R_flags phys)) →
  steps_on (State sgm cs) g t (Read off fr (R_flags phys)).
Proof using Hlo.
  intros I Hc. pose proof (ci_layout _ _ _ _ I) as L. destruct (ci_calls _ _ _ _ I _ _ Hc) as [Hargs Hk].
  simpl in *. destruct Hk as (sl & Hi & -> & Hp).
  destruct (decide (sl_stage sl = None ∨ sl_stage sl = Some Entry)) as [Hpub|Hnot].
  - destruct (published_header _ _ _ _ L Hi Hpub) as (Hfl & _ & _).
    eapply local_steps_on; [done|done|done| |].
    { cbn [call_step read_step]. run Hfl. done. }
    split; [done|]. exists sl. split_and!; try done. by left.
  - destruct Hp as [Hp|[_ ->]]; [by destruct Hnot|]. change (Z.to_nat 0) with 0%nat in *.
    destruct (slots_at _ _ _ Hi) as (l1 & l2 & Hg & Hl). destruct (cut_slot _ _ _ L _ _ _ Hg) as (Hm & Hoff & Hok).
    rewrite <- Hl in Hok, Hoff. unfold slot_ok in Hok. destruct (sl_stage sl) as [st|]; [|destruct Hnot; by left].
    destruct Hok as [Hf _].
    destruct (early_flags _ _ (blocks l1) _ (blocks l2 ++ g_mark g ++ g_rest g) Hf) as (v & Hfl & Hv1 & Hv2).
    { intros ->. apply Hnot. by right. }
    rewrite <- Hm, Hoff in Hfl.
    eapply local_steps_on; [done|done|done| |].
    { cbn [call_step read_step]. run Hfl. rewrite (proj2 (Z.eqb_neq _ _) Hv1), (proj2 (Z.eqb_neq _ _) Hv2). done. }
    split; [done|]. left. set_solver.
Qed.

Lemma read_event sgm cs g t off fr pc :
  conc_inv lo ps (State sgm cs) g → cs !! t = Some (Read off fr pc) →
  steps_on (State sgm cs) g t (Read off fr pc).
Proof using Hlo.
  intros I Hc. pose proof (ci_layout _ _ _ _ I) as L. simpl in L.
  destruct (ci_calls _ _ _ _ I _ _ Hc) as [Hargs Hpc].
  destruct pc as [| |b|b|phys|phys|rc fr']; simpl in Hpc.
  - eapply local_steps_on; [done|done|done|done|]. split; [done|]. by destruct (_ =? _).
  - by eapply local_steps_on.
  - eapply local_steps_on; [done|done|done|done|]. split; [done|]. rewrite (lay_w _ _ _ L). cbn [op_index].
    destruct (Z.geb_spec off (zlen (g_slots g))); [left; set_solver|done].
  - by eapply entry_event.
  - by eapply flags_event.
  - destruct Hpc as (sl & Hi & -> & [Hp|[? _]]); [|done].
    destruct (published_header _ _ _ _ L Hi Hp) as (_ & Hsz & _).
    destruct (slot_bounds _ _ _ L _ _ Hi) as [Hb0 Hb]. pose proof (lay_size _ _ _ L).
    eapply local_steps_on; [done|done|done| |].
    { cbn [call_step read_step st_segment]. run Hsz. done. }
    split; [done|]. right. exists sl. rewrite Z.add_simpl_l, u64_small, i64_small by size_lia. done.
  - exists (Read off fr (R_return rc fr')), sgm, g. split; [done|]. simpl.
    rewrite list_insert_id by done. split; [done|by apply extends_refl].
Qed.

(** ** Every event *)

Lemma event_inv st g ev :
  conc_inv lo ps st g → calm st = true → event_ok lo ev →
  ∃ st' g', exec_event ev st = Ok st' ∧ conc_inv lo ps st' g' ∧
    extends (st_segment st) (st_segment st') g g'.
Proof using Hlo.
  destruct st as [sgm cs]. intros I Hcalm Hev. destruct ev as [buf|off fr|t|s]; cbn [exec_event].
  - eexists _, g. split; [done|]. split; [by apply start_step|by apply extends_refl].
  - eexists _, g. split; [done|]. split; [by apply start_step|by apply extends_refl].
  - destruct (cs !! t) as [c|] eqn:Hc.
    2:{ exists (State sgm cs), g. split; [done|]. split; [done|by apply extends_refl]. }
    assert (Hs : steps_on (State sgm cs) g t c).
    { destruct c as [buf pc|off fr pc]; [by eapply write_event|by eapply read_event]. }
    destruct Hs as (c' & sgm' & g' & Hrun & I' & Hext). simpl in Hrun. run Hrun. by eexists _, g'.
  - eexists _, g. split; [done|]. split; [by apply sync_step|by apply extends_refl].
Qed.

Lemma reachable_inv st g st' :
  conc_inv lo ps st g → reachable lo st st' →
  ∃ g', conc_inv lo ps st' g' ∧ extends (st_segment st) (st_segment st') g g'.
Proof using Hlo.
  intros I0. induction 1 as [|ev st1 st2 _ (g1 & I & Hext) Hcalm Hev Hrun].
  { exists g. split; [done|by apply extends_refl]. }
  destruct (event_inv _ _ _ I Hcalm Hev) as (st3 & g' & Hrun' & I' & Hext'). rewrite Hrun in Hrun'.
  injection Hrun' as <-. exists g'. split; [done|by eapply extends_trans].
Qed.
End step.
