(* ===== verification/SegmentThreadsSpec.v ===== *)
(** * Segments under concurrent calls: the properties *)

From S2P Require Import Prelude Errno Crc32 Prot Util Posix Segment SegmentInv SegmentOps SegmentSpec SegmentThreads SegmentThreadsInv SegmentThreadsOps SegmentThreadsStep.

(** ** From a segment at rest and back *)

Lemma stored_payloads (ps : list bytes) : payloads (stored_slot <$> ps) = ps.
Proof. rewrite <- list_fmap_compose. apply list_fmap_id. Qed.

Lemma stored_blocks (ps : list bytes) : blocks (stored_slot <$> ps) = frames ps.
Proof. induction ps as [|p ps IH]; [done|]. rewrite fmap_cons. simpl. by rewrite IH. Qed.

Lemma finished_entries sls : ∀ o,
  Forall (λ sl, sl_stage sl = None) sls → entries o sls = offsets o (payloads sls).
Proof.
  induction sls as [|sl sls IH]; intros o H; [done|]. apply Forall_cons in H as [Hs H].
  rewrite fmap_cons. cbn [entries offsets]. rewrite Hs, IH by done. by rewrite zlen_frame_bytes.
Qed.

Lemma finished_blocks sls :
  Forall (λ sl, sl_stage sl = None) sls → (∀ i sl, sls !! i = Some sl → ∃ first, slot_ok first sl) →
  blocks sls = frames (payloads sls).
Proof.
  induction 1 as [|sl sls Hs _ IH]; intros Hok; [done|]. rewrite fmap_cons.
  change (blocks (sl :: sls)) with (sl_block sl ++ blocks sls).
  change (frames (sl_payload sl :: payloads sls)) with (frame_bytes (sl_payload sl) ++ frames (payloads sls)).
  destruct (Hok 0%nat sl eq_refl) as [first Hsl]. unfold slot_ok in Hsl. rewrite Hs in Hsl.
  rewrite Hsl. f_equal. apply IH. intros i sl' Hi. by apply (Hok (S i)).
Qed.

(** ** The calls that succeeded *)

Lemma omap_cons {A B} (f : A → option B) x l :
  omap f (x :: l) = match f x with Some y => y :: omap f l | None => omap f l end.
Proof. done. Qed.

Lemma omap_seq {A B} (f : A → option B) (l : list A) : ∀ n,
  omap f l = omap (λ t, (l !! (t - n)%nat) ≫= f) (seq n (length l)).
Proof.
  induction l as [|x l IH]; intros n; [done|]. cbn [length seq]. rewrite !omap_cons, Nat.sub_diag. simpl lookup.
  change (Some x ≫= f) with (f x). rewrite (IH (S n)).
  assert (Heq : omap (λ t, (x :: l) !! (t - n)%nat ≫= f) (seq (S n) (length l)) =
                omap (λ t, l !! (t - S n)%nat ≫= f) (seq (S n) (length l))).
  { apply list_omap_ext, Forall_Forall2_diag, Forall_forall. intros t [Hle _]%elem_of_seq.
    by replace (t - n)%nat with (S (t - S n)) by lia. }
  by rewrite Heq.
Qed.

Lemma omap_filter {A B} (f : A → option B) (l : list A) :
  omap f (filter (λ t, is_Some (f t)) l) = omap f l.
Proof.
  induction l as [|t l IH]; [done|]. rewrite filter_cons. destruct (decide _) as [[y Hy]|Hn]; rewrite !omap_cons.
  - by rewrite Hy, IH.
  - rewrite IH. destruct (f t) eqn:Hf; [|done]. destruct Hn. by eexists.
Qed.

(** The payloads of the claimed slots are those of the successful calls. *)
Lemma owned_written (cs : list call) (news : list slot) :
  Forall (λ sl, ∃ t, sl_owner sl = Some t ∧ cs !! t ≫= accepted = Some (sl_payload sl)) news →
  (∀ i j sl sl' t, news !! i = Some sl → news !! j = Some sl' → sl_owner sl = Some t →
     sl_owner sl' = Some t → i = j) →
  (∀ t buf, cs !! t ≫= accepted = Some buf → ∃ sl, sl ∈ news ∧ sl_owner sl = Some t) →
  payloads news ≡ₚ written cs.
Proof.
  intros Hown Huniq Hall. set (f := λ t, cs !! t ≫= accepted).
  assert (Hp : payloads news = omap f (omap sl_owner news)).
  { clear Huniq Hall. induction Hown as [|sl news (t & Ho & Ha) _ IH]; [done|].
    rewrite fmap_cons, omap_cons, Ho, omap_cons. unfold f at 1. by rewrite Ha, IH. }
  assert (Hw : written cs = omap f (seq 0 (length cs))).
  { unfold written. rewrite (omap_seq accepted cs 0). apply list_omap_ext, Forall_Forall2_diag, Forall_forall.
    intros t _. by rewrite Nat.sub_0_r. }
  rewrite Hp, Hw, <- (omap_filter f (seq 0 (length cs))). apply omap_Permutation, NoDup_Permutation.
  - clear Hp Hw Hall. induction news as [|sl news IH]; [apply NoDup_nil_2|].
    apply Forall_cons in Hown as [(t & Ho & _) Hown]. rewrite omap_cons, Ho. apply NoDup_cons. split.
    + intros (sl' & (j & Hj)%list_elem_of_lookup & Ho')%list_elem_of_omap.
      specialize (Huniq 0%nat (S j) sl sl' t eq_refl Hj Ho Ho'). lia.
    + apply IH; [done|]. intros i j sl1 sl2 t' Hi Hj H1 H2.
      specialize (Huniq (S i) (S j) sl1 sl2 t' Hi Hj H1 H2). lia.
  - apply NoDup_filter, NoDup_seq.
  - intros t. rewrite list_elem_of_omap, list_elem_of_filter, elem_of_seq. split.
    + intros (sl & Hin & Ho). rewrite Forall_forall in Hown. destruct (Hown _ Hin) as (t' & Ho' & Ha).
      rewrite Ho in Ho'. injection Ho' as <-. split; [by eexists|]. destruct (cs !! t) eqn:Ht; [|done].
      apply lookup_lt_Some in Ht. lia.
    + intros [[buf Ha] _]. destruct (Hall t buf Ha) as (sl & Hin & Ho). by exists sl.
Qed.

(** ** At rest again *)

Section quiet.
Context (lo : Z) (ps : list bytes) (Hlo : 0 ≤ lo).
Implicit Types (st : state) (g : ghost).

Lemma quiet_slots st g :
  conc_inv lo ps st g → forallb returned (st_calls st) = true → Forall (λ sl, sl_stage sl = None) (g_slots g).
Proof using Type.
  intros I Hq. rewrite forallb_forall in Hq. apply Forall_lookup. intros i sl Hi.
  pose proof (lay_slots _ _ _ (ci_layout _ _ _ _ I) _ _ Hi) as Hok. unfold slot_ok in Hok.
  destruct (sl_stage sl) as [stg|] eqn:Hs; [exfalso|done]. destruct Hok as [_ [t Ho]].
  pose proof (ci_owner _ _ _ _ I _ _ _ Hi Ho) as Hc. unfold owner_pc in Hc. rewrite Hs in Hc.
  apply list_elem_of_lookup_2, list_elem_of_In, Hq in Hc. done.
Qed.

Lemma quiet_seg_inv st g :
  conc_inv lo ps st g → forallb returned (st_calls st) = true →
  seg_inv (st_segment st) (g_payloads g) (g_eos g).
Proof using Hlo.
  intros I Hq. pose proof (quiet_slots _ _ I Hq) as Hfin. pose proof (ci_layout _ _ _ _ I) as L.
  pose proof (ci_mark _ _ _ _ I) as Hm. pose proof (used_bound _ _ _ L) as Hub.
  pose proof (finished_entries _ 0 Hfin) as He.
  assert (Hb : blocks (g_slots g) = frames (g_payloads g)).
  { apply finished_blocks; [done|]. intros i sl Hi. exists (i =? 0)%nat. by apply (lay_slots _ _ _ L). }
  pose proof (lay_mark _ _ _ L) as Hlm. pose proof (lay_data _ _ _ L) as Hdata. rewrite Hb in Hdata.
  pose proof (slots_count _ _ _ L) as Hcount. pose proof (index_enough lo _ _ Hlo L (zlen (g_slots g))) as Hix.
  destruct L. split; rewrite ?length_fmap; try done.
  - rewrite Hdata. by eexists.
  - intros Heos. unfold mark_ok in Hm. destruct (g_marker g) as [t|].
    + destruct Hm as (_ & buf & st' & Ht & _). rewrite forallb_forall in Hq.
      apply list_elem_of_lookup_2, list_elem_of_In, Hq in Ht. done.
    + destruct (Hm Heos) as (f & v & d & s & c & [] & Hmb & Hf & Hs). rewrite Hdata, Hmb.
      by rewrite get_flags_fields, get_size_fields, Hf, Hs by done.
  - intros Hnil. apply lay_fresh. by destruct (g_slots g).
  - lia.
  - intros Heos. rewrite Heos, used_false. done.
  - unfold index_bytes. by rewrite <- He.
  - apply Hix. lia.
Qed.

Lemma quiet_written st g :
  conc_inv lo ps st g → forallb returned (st_calls st) = true →
  ∃ ws, g_payloads g = ps ++ ws ∧ ws ≡ₚ written (st_calls st).
Proof using Type.
  intros I Hq. pose proof (quiet_slots _ _ I Hq) as Hfin. destruct (ci_old _ _ _ _ I) as (news & Hg & Hnew).
  exists (payloads news). rewrite Hg, fmap_app, stored_payloads. split; [done|].
  assert (Hat : ∀ i sl, news !! i = Some sl → g_slots g !! (length ps + i)%nat = Some sl).
  { intros i sl Hi. rewrite Hg, lookup_app_r; rewrite length_fmap; [|lia]. by rewrite Nat.add_comm, Nat.add_sub. }
  rewrite Forall_lookup in Hnew, Hfin. apply owned_written.
  - apply Forall_lookup. intros i sl Hi. destruct (Hnew _ _ Hi) as [t Ho]. exists t. split; [done|].
    rewrite (ci_owner _ _ _ _ I _ _ _ (Hat _ _ Hi) Ho). unfold owner_pc. rewrite (Hfin _ _ (Hat _ _ Hi)). simpl.
    by rewrite (proj2 (Z.ltb_ge _ _)) by lia.
  - intros i j sl sl' t Hi Hj Ho Ho'.
    pose proof (ci_unique _ _ _ _ I _ _ _ _ _ (Hat _ _ Hi) (Hat _ _ Hj) Ho Ho'). lia.
  - intros t buf Ht. destruct (st_calls st !! t) as [c|] eqn:Hc; [|done]. simpl in Ht.
    destruct c as [buf' pc|]; [|done]. destruct pc as [| | | | | | | |rc]; try done. simpl in Ht.
    destruct (Z.ltb_spec rc 0) as [|Hrc]; [done|].
    destruct (ci_calls _ _ _ _ I _ _ Hc) as [_ [Hin|(i & sl & Hi & Ho)]].
    { rewrite !elem_of_cons in Hin. unfold ELEOS, ELLOCK in Hin. destruct Hin as [->|[->|Hin]]; [lia|lia|].
      by apply elem_of_nil in Hin. }
    exists sl. split; [|done]. rewrite Hg in Hi. apply lookup_app_Some in Hi as [Hi|[_ Hi]].
    + rewrite list_lookup_fmap in Hi. destruct (ps !! i); [|done]. by injection Hi as <-.
    + by eapply list_elem_of_lookup_2.
Qed.
End quiet.

Section start.
Context (lo : Z) (ps : list bytes) (sgm0 : segment) (eos : bool).
Context (I0 : seg_inv sgm0 ps eos) (Hps : Forall (λ p, lo ≤ zlen p) ps).
Context (Hroom : index_entry_size * ((size sgm0 - header_size) / (header_size + lo)) ≤ zlen (r_mem (index sgm0))).

Lemma start_room : zlen (frames ps) + header_size ≤ size sgm0.
Proof using I0.
  pose proof (inv_used _ _ _ I0) as Hu. pose proof (inv_room _ _ _ I0) as Hr.
  destruct eos; [by rewrite used_true, used_false in Hu|]. specialize (Hr eq_refl). by rewrite used_false in Hr.
Qed.

(** The bytes after the frames: the mark, if there is one, and the free space. *)
Lemma start_mark :
  ∃ mb rest, r_mem (buffer sgm0) = frames ps ++ mb ++ rest ∧ (zlen mb = if eos then header_size else 0) ∧
    (eos = true → marked mb).
Proof using I0.
  pose proof start_room as Hframes.
  destruct (inv_frames _ _ _ I0) as [rest Hm]. destruct eos eqn:He.
  - pose proof (inv_len _ _ _ I0) as Hlen. rewrite Hm, length_app in Hlen.
    destruct (cut_at rest 0 header_size) as ([|? ?] & mb & rest' & Hr & Hz & Hmb); [size_lia..| |done].
    exists mb, rest'. rewrite Hm, Hr. split; [done|]. split; [done|]. intros _.
    destruct (fields_cut mb) as (f & v & d & s & c & -> & ? & ? & ? & ? & ?); [size_lia|].
    destruct (inv_eos _ _ _ I0 eq_refl) as [Hfl Hsz]. rewrite Hm, Hr in Hfl, Hsz. cbn [app] in Hfl, Hsz.
    rewrite get_flags_fields in Hfl by done. rewrite get_size_fields in Hsz by done.
    injection Hfl as Hfl. injection Hsz as Hsz. by exists f, v, d, s, c.
  - exists [], rest. by rewrite Hm.
Qed.

Lemma start_conc : ∃ g, conc_inv lo ps (State sgm0 []) g.
Proof using All.
  destruct start_mark as (mb & rest & Hm & Hmb & Hmark). pose proof start_room as Hframes. exists (Ghost (stored_slot <$> ps) eos None mb rest).
  assert (Hall : Forall (λ sl, sl_stage sl = None) (stored_slot <$> ps)).
  { apply Forall_fmap, Forall_true. done. }
  split; simpl; try done.
  - destruct I0. split; simpl; rewrite ?stored_payloads, ?length_fmap; try done.
    + by rewrite Hm, stored_blocks.
    + intros i sl Hi. rewrite list_lookup_fmap in Hi. destruct (ps !! i); [|done]. by injection Hi as <-.
    + intros Hnil He. apply inv_fresh; [by destruct ps|done].
    + rewrite finished_entries, stored_payloads by done. exact inv_index.
  - exists []. by rewrite app_nil_r.
  - intros i sl t Hi Ho. rewrite list_lookup_fmap in Hi. destruct (ps !! i); [|done]. by injection Hi as <-.
  - intros i j sl sl' t Hi _ Ho. rewrite list_lookup_fmap in Hi. destruct (ps !! i); [|done]. by injection Hi as <-.
Qed.
End start.

Section spec.
Context (lo : Z) (ps : list bytes) (sgm0 : segment).
(** The calls start on a segment that holds [ps] and whose index has a slot for
    every payload of [lo] bytes or more that fits. *)
Context (Hlo : 0 ≤ lo) (I0 : seg_inv sgm0 ps false) (Hps : Forall (λ p, lo ≤ zlen p) ps).
Context (Hroom : index_entry_size * ((size sgm0 - header_size) / (header_size + lo)) ≤ zlen (r_mem (index sgm0))).
Implicit Types (st : state).

Abbreviation reached := (reachable lo (State sgm0 [])).

Lemma start_inv : ∃ g, conc_inv lo ps (State sgm0 []) g.
Proof using I0 Hps Hroom. exact (start_conc lo ps sgm0 false I0 Hps Hroom). Qed.

Lemma reached_inv st : reached st → ∃ g, conc_inv lo ps st g.
Proof using All.
  intros Hr. destruct start_inv as [g I]. destruct (reachable_inv lo ps Hlo _ _ _ I Hr) as (g' & I' & _).
  by exists g'.
Qed.

(** ** Every call returns *)

(** [C13]: In a calm execution of [segment_write] and [segment_read], whatever
    happens next, a call starting, any call making its next access, or a sync,
    meets no undefined behaviour; a write that has returned returned the
    length of its payload, [ELEOS] or [ELLOCK]; a read that has returned
    returned [ELNORD], [ELINVHD] or the length of a payload to which its frame
    points. Assumed: the segment starts open, with the invariant, without an
    end mark, and with payloads of at least [lo] bytes; every payload written
    has at least [lo] bytes, and the mapped index has a slot for every payload
    of that length that fits; the execution is calm: before each event at most
    one write has not yet claimed its frame, or the frames of all such writes
    fit together with an end mark. [racing_marks_overrun] is an execution that
    is not calm and has undefined behaviour. *)
Theorem concurrent_calls_are_safe st ev :
  reached st → calm st = true → event_ok lo ev →
  (∃ st', exec_event ev st = Ok st') ∧
  (∀ t buf rc, st_calls st !! t = Some (Write buf (W_return rc)) → rc ∈ [zlen buf; ELEOS; ELLOCK]) ∧
  (∀ t off fr rc fr', st_calls st !! t = Some (Read off fr (R_return rc fr')) →
     rc ∈ [ELNORD; ELINVHD] ∨ ∃ p, rc = zlen p ∧ frame_payload (buffer (st_segment st)) fr' = Ok p).
Proof using All.
  intros Hr Hcalm Hev. destruct (reached_inv st Hr) as [g I].
  destruct (event_inv lo ps Hlo _ _ _ I Hcalm Hev) as (st' & _ & Hrun & _). split_and!.
  - by exists st'.
  - intros t buf rc Ht. destruct (ci_calls _ _ _ _ I _ _ Ht) as [_ [Hrc|(i & sl & Hi & Ho)]]; [set_solver|].
    pose proof (ci_owner _ _ _ _ I _ _ _ Hi Ho) as Ht'. rewrite Ht in Ht'. unfold owner_pc in Ht'.
    destruct (sl_stage sl); [done|]. injection Ht' as -> ->. left.
  - intros t off fr rc fr' Ht. destruct (ci_calls _ _ _ _ I _ _ Ht) as [_ [Hrc|(sl & Hi & Hp & -> & ->)]]; [by left|].
    right. exists (sl_payload sl). split; [done|]. by apply (published_header lo _ _ _ _ (ci_layout _ _ _ _ I) Hi).
Qed.

(** [C5]: Whatever the interleaving of calls of [segment_write] and
    [segment_read] and moves of the synced offset in a calm execution, when
    every call has returned the segment is one that sequential calls leave: it
    holds the payloads it held at the start and then, in some order, each
    payload of each call of [segment_write] that returned its length, once,
    and nothing else. Assumed: the segment starts open, with the invariant,
    without an end mark, and with payloads of at least [lo] bytes; every
    payload written has at least [lo] bytes, and the mapped index has a slot
    for every payload of that length that fits; the execution is calm: before
    each event at most one write has not yet claimed its frame, or the frames
    of all such writes fit together with an end mark. Without calm it fails
    ([racing_marks_overrun]); mqlog.c, which writes under its mutex, is always
    calm. *)
Theorem concurrent_writes_linearize st :
  reached st → forallb returned (st_calls st) = true →
  ∃ ws eos, seg_inv (st_segment st) (ps ++ ws) eos ∧ ws ≡ₚ written (st_calls st).
Proof using All.
  intros Hr Hq. destruct (reached_inv st Hr) as [g I].
  destruct (quiet_written _ _ _ _ I Hq) as (ws & Hws & Hperm). exists ws, (g_eos g). split; [|done].
  rewrite <- Hws. by apply (quiet_seg_inv lo ps Hlo).
Qed.

(** [C14]: What a read returns stays: in a calm execution, once a call of
    [segment_read] has returned a frame of a payload, the frame points to that
    payload in every state reached by going on with calm events, whatever the
    concurrent writers do. Assumed: the segment starts open, with the
    invariant, without an end mark, and with payloads of at least [lo] bytes;
    every payload written has at least [lo] bytes, and the mapped index has a
    slot for every payload of that length that fits; the execution is calm:
    before each event at most one write has not yet claimed its frame, or the
    frames of all such writes fit together with an end mark. *)
Theorem concurrent_reads_are_stable st st' t off fr rc fr' :
  reached st → st_calls st !! t = Some (Read off fr (R_return rc fr')) → 0 ≤ rc → reachable lo st st' →
  ∃ p, rc = zlen p ∧ frame_payload (buffer (st_segment st)) fr' = Ok p ∧
    frame_payload (buffer (st_segment st')) fr' = Ok p.
Proof using All.
  intros Hr Ht Hrc Hr'. destruct (reached_inv st Hr) as [g I].
  destruct (reachable_inv lo ps Hlo _ _ _ I Hr') as (g' & I' & Hext).
  destruct (ci_calls _ _ _ _ I _ _ Ht) as [_ [Hin|(sl & Hi & Hp & -> & ->)]].
  { rewrite !elem_of_cons in Hin. unfold ELNORD, ELINVHD in Hin. destruct Hin as [->|[->|Hin]]; [lia|lia|].
    by apply elem_of_nil in Hin. }
  exists (sl_payload sl). split; [done|].
  destruct (published_header lo _ _ _ _ (ci_layout _ _ _ _ I) Hi Hp) as (_ & _ & Hf). split; [done|].
  destruct (ext_slots _ _ _ _ Hext _ _ Hi) as (sl' & Hi' & Hp' & _ & Hpub).
  destruct (published_header lo _ _ _ _ (ci_layout _ _ _ _ I') Hi' (Hpub Hp)) as (_ & _ & Hf').
  rewrite (ext_offset _ _ _ _ Hext _ _ Hi), Hp' in Hf'. unfold frame_at in *.
  by rewrite (ext_base _ _ _ _ Hext) in Hf'.
Qed.
End spec.

(** ** A lost race is another call's success *)

Abbreviation w_of st := (w_offset_pair (st_segment st)).

(** What a call knows while nobody else claims: it has the write offset, or it
    has claimed and will not lose. *)
Definition won (pc : write_pc) : bool :=
  match pc with
  | W_fill _ _ | W_marking _ _ => true
  | W_return rc => negb (rc =? ELLOCK)
  | _ => false
  end.

Definition undisturbed (w : offset_pair) (pc : write_pc) : Prop :=
  match pc with
  | W_data i => i = op_index w
  | W_mark curr | W_claim curr => curr = w
  | W_return rc => rc ≠ ELLOCK
  | _ => True
  end.

Lemma won_step buf pc sgm pc' sgm' :
  won pc = true → zlen buf < 2 ^ 63 → write_step buf pc sgm = Ok (pc', sgm') → won pc' = true.
Proof.
  intros Hpc Hb Hrun. destruct pc as [|v| |i|curr|st curr|curr|st curr|rc]; try done; cbn [write_step] in Hrun.
  - unfold mark_step, stored_at in Hrun. by destruct st; apply bind_Ok_inv in Hrun as (m & _ & [= <- _]).
  - unfold fill_step, stored_at in Hrun.
    destruct st; [destruct (buf !! k)|..]; try (apply bind_Ok_inv in Hrun as (m & _ & Hrun)); injection Hrun as <- _; try done.
    simpl. rewrite i64_small by lia. apply negb_true_iff, Z.eqb_neq. unfold ELLOCK. lia.
  - by injection Hrun as <- _.
Qed.

(** A step of a call that nobody disturbed: it stays so, or it claims. *)
Lemma undisturbed_step w buf pc sgm pc' sgm' :
  w_offset_pair sgm = w → undisturbed w pc → zlen buf < 2 ^ 63 →
  write_step buf pc sgm = Ok (pc', sgm') →
  undisturbed w pc' ∧ (w_offset_pair sgm' = w ∨ won pc' = true).
Proof.
  intros Hw Hpc Hb Hrun. destruct (won pc) eqn:Hwon.
  { pose proof (won_step _ _ _ _ _ Hwon Hb Hrun) as H. split; [|by right].
    destruct pc'; try done. simpl in *. by apply negb_true_iff, Z.eqb_neq in H. }
  destruct pc as [|v| |i|curr|st curr|curr|st curr|rc]; try done; cbn [write_step undisturbed] in *.
  - injection Hrun as <- <-. split; [by destruct (_ <? _)|by left].
  - apply bind_Ok_inv in Hrun as (fl & _ & [= <- <-]). split; [by destruct (_ =? _)|by left].
  - injection Hrun as <- <-. rewrite Hw. split; [done|by left].
  - injection Hrun as <- <-. rewrite Hw, Hpc. split; [destruct w; by destruct (_ >? _)|by left].
  - unfold claim in Hrun. rewrite decide_True in Hrun by congruence. injection Hrun as <- _. split; [done|by right].
  - unfold claim in Hrun. rewrite decide_True in Hrun by congruence. injection Hrun as <- _. split; [done|by right].
  - simpl in Hwon. by apply negb_false_iff, Z.eqb_eq in Hwon.
Qed.

(** A write that has claimed does not lose. *)
Lemma won_exec evs : ∀ st st' t buf pc,
  zlen buf < 2 ^ 63 → exec evs st = Ok st' → st_calls st !! t = Some (Write buf pc) → won pc = true →
  ∃ pc', st_calls st' !! t = Some (Write buf pc') ∧ won pc' = true.
Proof.
  induction evs as [|ev evs IH]; intros st st' t buf pc Hb Hrun Ht Hw; cbn [exec] in Hrun.
  { injection Hrun as <-. by exists pc. }
  apply bind_Ok_inv in Hrun as (st1 & Hev & Hrun).
  cut (∃ pc1, st_calls st1 !! t = Some (Write buf pc1) ∧ won pc1 = true).
  { intros (pc1 & H1 & Hw1). by eapply IH. }
  destruct st as [sgm cs]. cbn [st_calls] in *. destruct ev as [buf'|off fr|t'|s]; cbn [exec_event] in Hev.
  - injection Hev as <-. exists pc. split; [by apply lookup_app_l_Some|done].
  - injection Hev as <-. exists pc. split; [by apply lookup_app_l_Some|done].
  - destruct (cs !! t') as [c|] eqn:Hc; [|injection Hev as <-; by exists pc].
    apply bind_Ok_inv in Hev as ([c' sgm'] & Hstep & [= <-]). cbn [st_calls].
    destruct (decide (t' = t)) as [->|Hne]; [|exists pc; by rewrite list_lookup_insert_ne].
    rewrite Ht in Hc. injection Hc as <-. cbn [call_step] in Hstep.
    apply bind_Ok_inv in Hstep as ([pc' sgm2] & Hstep & [= <- <-]). exists pc'.
    rewrite list_lookup_insert_eq by (by eapply lookup_lt_Some). split; [done|by eapply won_step].
  - injection Hev as <-. by exists pc.
Qed.

(** [C18]: The claims are lock-free, in every execution, calm or not, from any
    state: when a call of [segment_write] that had not begun has returned
    [ELLOCK], an access of another call moved the write offset after this one
    began. The payload is below 2^63 bytes. *)
Theorem lost_race_is_progress evs : ∀ st st' t buf,
  zlen buf < 2 ^ 63 → st_calls st !! t = Some (Write buf W_begin) → exec evs st = Ok st' →
  st_calls st' !! t = Some (Write buf (W_return ELLOCK)) →
  ∃ k t' st1 st2, t' ≠ t ∧ evs !! k = Some (Run t') ∧ exec (take k evs) st = Ok st1 ∧
    exec_event (Run t') st1 = Ok st2 ∧ w_of st1 = w_of st ∧ w_of st2 ≠ w_of st.
Proof.
  intros st st' t buf Hb Ht Hrun Hlost.
  cut (∀ w pc, undisturbed w pc → w_of st = w → st_calls st !! t = Some (Write buf pc) →
    ∃ k t' st1 st2, t' ≠ t ∧ evs !! k = Some (Run t') ∧ exec (take k evs) st = Ok st1 ∧
    exec_event (Run t') st1 = Ok st2 ∧ w_of st1 = w ∧ w_of st2 ≠ w).
  { intros H. by apply (H _ W_begin). }
  clear Ht. revert st Hrun. induction evs as [|ev evs IH]; intros st Hrun w pc Hu Hw Ht; cbn [exec] in Hrun.
  { injection Hrun as ->. rewrite Ht in Hlost. injection Hlost as ->. done. }
  apply bind_Ok_inv in Hrun as (st1 & Hev & Hrun).
  assert (Hnext : ∀ pc', undisturbed w pc' → w_of st1 = w → st_calls st1 !! t = Some (Write buf pc') →
    ∃ k t' st2 st3, t' ≠ t ∧ (ev :: evs) !! k = Some (Run t') ∧ exec (take k (ev :: evs)) st = Ok st2 ∧
    exec_event (Run t') st2 = Ok st3 ∧ w_of st2 = w ∧ w_of st3 ≠ w).
  { intros pc' Hu' Hw' Ht'. destruct (IH st1 Hrun w pc' Hu' Hw' Ht') as (k & t' & st2 & st3 & ? & ? & ? & ?).
    exists (S k), t', st2, st3. split; [done|]. split; [done|]. split; [|done]. cbn [take exec]. by run Hev. }
  destruct st as [sgm cs]. cbn [st_calls st_segment] in *. destruct ev as [buf'|off fr|t'|s]; cbn [exec_event] in Hev.
  - injection Hev as <-. apply (Hnext pc Hu); [done|by apply lookup_app_l_Some].
  - injection Hev as <-. apply (Hnext pc Hu); [done|by apply lookup_app_l_Some].
  - destruct (cs !! t') as [c|] eqn:Hc; [|injection Hev as <-; by apply (Hnext pc Hu)].
    apply bind_Ok_inv in Hev as ([c' sgm'] & Hstep & [= <-]).
    destruct (decide (t' = t)) as [->|Hne].
    + rewrite Ht in Hc. injection Hc as <-. cbn [call_step] in Hstep.
      apply bind_Ok_inv in Hstep as ([pc' sgm2] & Hstep & [= <- <-]).
      destruct (undisturbed_step _ _ _ _ _ _ Hw Hu Hb Hstep) as [Hu' [Hw'|Hwon]];
        [apply (Hnext pc' Hu'); [done|apply list_lookup_insert_eq; by eapply lookup_lt_Some]|].
      destruct (won_exec evs (State sgm2 (<[t := Write buf pc']> cs)) st' t buf pc' Hb Hrun) as (pc2 & Hpc2 & Hwon2);
        [apply list_lookup_insert_eq; by eapply lookup_lt_Some|done|].
      rewrite Hlost in Hpc2. by injection Hpc2 as <-.
    + destruct (decide (w_offset_pair sgm' = w)) as [Hw'|Hw'].
      * apply (Hnext pc Hu); [done|]. cbn [st_calls]. by rewrite list_lookup_insert_ne.
      * exists 0%nat, t', (State sgm cs), (State sgm' (<[t' := c']> cs)). split; [done|]. split; [done|]. split; [done|].
        split; [|done]. cbn [exec_event]. rewrite Hc. by run Hstep.
  - injection Hev as <-. by apply (Hnext pc Hu).
Qed.

(** ** Termination *)

Lemma write_rank buf pc sgm pc' sgm' :
  write_step buf pc sgm = Ok (pc', sgm') → returned (Write buf pc) = false →
  (rank (Write buf pc') < rank (Write buf pc))%nat.
Proof.
  intros Hrun Hn. destruct pc as [|v| |i|curr|st curr|curr|st curr|rc]; cbn [write_step] in Hrun; [..|done].
  - injection Hrun as <- _. destruct (_ <? _); simpl; lia.
  - apply bind_Ok_inv in Hrun as (fl & _ & [= <- _]). destruct (_ =? _); simpl; lia.
  - injection Hrun as <- _. simpl. lia.
  - injection Hrun as <- _. destruct (_ >? _); simpl; lia.
  - destruct (claim _ _ _) as [rc ?]. injection Hrun as <- _. destruct (negb _); simpl; lia.
  - unfold mark_step, stored_at in Hrun. destruct st; apply bind_Ok_inv in Hrun as (m & _ & [= <- _]); simpl; lia.
  - destruct (claim _ _ _) as [rc ?]. injection Hrun as <- _. destruct (negb _); simpl; lia.
  - unfold fill_step, stored_at in Hrun. destruct st as [k| | | | | | |];
      [destruct (buf !! k) eqn:Hk; [apply lookup_lt_Some in Hk|]|..];
      try (apply bind_Ok_inv in Hrun as (m & _ & Hrun)); injection Hrun as <- _; simpl; lia.
Qed.

Lemma read_rank off fr pc sgm pc' :
  read_step off fr pc sgm = Ok pc' → returned (Read off fr pc) = false →
  (rank (Read off fr pc') < rank (Read off fr pc))%nat.
Proof.
  intros Hrun Hn. destruct pc as [| |b|b|phys|phys|rc fr']; cbn [read_step] in Hrun; [..|done];
    try (apply bind_Ok_inv in Hrun as (x & _ & Hrun)); injection Hrun as <-; repeat case_match; simpl; lia.
Qed.

Lemma call_rank c sgm c' sgm' :
  call_step c sgm = Ok (c', sgm') → returned c = false → (rank c' < rank c)%nat.
Proof.
  destruct c as [buf pc|off fr pc]; cbn [call_step]; intros Hrun Hn.
  - apply bind_Ok_inv in Hrun as ([pc' ?] & Hrun & [= <- _]). by eapply write_rank.
  - apply bind_Ok_inv in Hrun as (pc' & Hrun & [= <- _]). by eapply read_rank.
Qed.

Lemma rank_zero c : rank c = 0%nat ↔ returned c = true.
Proof.
  destruct c as [buf pc|off fr pc]; destruct pc; simpl; try lia; try done.
  - destruct st; simpl; split; (lia || done).
  - destruct st; simpl; split; (lia || done).
Qed.

Lemma returned_stays c sgm c' sgm' : returned c = true → call_step c sgm = Ok (c', sgm') → c' = c ∧ sgm' = sgm.
Proof.
  destruct c as [buf pc|off fr pc]; destruct pc; try done; intros _ [= <- <-]; done.
Qed.

(** [C20]: the calls are wait-free: a call of [segment_write] returns after
    at most [13 + length buf] accesses of its own and a call of [segment_read]
    after at most six, whatever the other calls do in between, in calm
    executions and others. *)
Theorem calls_are_wait_free evs st st' t c :
  exec evs st = Ok st' → st_calls st !! t = Some c → (rank c ≤ runs t evs)%nat →
  ∃ c', st_calls st' !! t = Some c' ∧ returned c' = true.
Proof.
  revert st c. induction evs as [|ev evs IH]; intros st c Hrun Hc Hrank; cbn [exec runs] in *.
  { injection Hrun as <-. exists c. split; [done|]. apply rank_zero. lia. }
  apply bind_Ok_inv in Hrun as (st1 & Hev & Hrun). destruct st as [sgm cs]. simpl in Hc.
  destruct ev as [buf|off fr|t'|s]; cbn [exec_event] in Hev.
  - injection Hev as <-. eapply (IH _ c Hrun); [by apply lookup_app_l_Some|done].
  - injection Hev as <-. eapply (IH _ c Hrun); [by apply lookup_app_l_Some|done].
  - destruct (cs !! t') as [c1|] eqn:Hc1.
    2:{ injection Hev as <-. apply (IH _ c Hrun Hc). destruct (Nat.eqb_spec t' t) as [->|]; [congruence|done]. }
    apply bind_Ok_inv in Hev as ([c1' sgm'] & Hstep & [= <-]).
    destruct (Nat.eqb_spec t' t) as [->|Hne].
    + rewrite Hc in Hc1. injection Hc1 as <-. eapply (IH _ c1' Hrun).
      * apply list_lookup_insert_eq. by eapply lookup_lt_Some.
      * destruct (returned c) eqn:Hret.
        { destruct (returned_stays _ _ _ _ Hret Hstep) as [-> _]. apply rank_zero in Hret. lia. }
        pose proof (call_rank _ _ _ _ Hstep Hret). lia.
    + eapply (IH _ c Hrun); [cbn [st_calls]; by rewrite list_lookup_insert_ne|done].
  - injection Hev as <-. by apply (IH _ c Hrun).
Qed.

(** ** A call that runs alone *)

Lemma alone_app n k c sgm :
  alone (n + k) c sgm = ('(c, sgm) ← alone n c sgm; alone k c sgm).
Proof.
  revert c sgm. induction n as [|n IH]; intros c sgm; [done|]. cbn [alone Nat.add].
  destruct (call_step c sgm) as [[c1 sgm1]| |]; [|done..]. rewrite !bind_Ok. apply IH.
Qed.

Lemma alone_returned n c sgm : returned c = true → alone n c sgm = Ok (c, sgm).
Proof.
  intros Hc. induction n as [|n IH]; [done|]. cbn [alone].
  destruct c as [buf pc|off fr pc]; destruct pc; try done; exact IH.
Qed.

Lemma alone_rank n c sgm c' sgm' :
  alone n c sgm = Ok (c', sgm') → returned c' = true → alone (rank c) c sgm = Ok (c', sgm').
Proof.
  revert c sgm. induction n as [|n IH]; intros c sgm Hrun Hret; cbn [alone] in Hrun.
  - injection Hrun as -> ->. by apply alone_returned.
  - destruct (returned c) eqn:Hc.
    { rewrite alone_returned by done. apply bind_Ok_inv in Hrun as ([c1 sgm1] & Hstep & Hrun).
      destruct (returned_stays _ _ _ _ Hc Hstep) as [-> ->]. rewrite alone_returned in Hrun by done. done. }
    apply bind_Ok_inv in Hrun as ([c1 sgm1] & Hstep & Hrun). pose proof (call_rank _ _ _ _ Hstep Hc) as Hlt.
    replace (rank c) with (1 + rank c1 + (rank c - 1 - rank c1))%nat by lia.
    rewrite alone_app. cbn [alone Nat.add]. rewrite Hstep, bind_Ok. rewrite (IH _ _ Hrun Hret), bind_Ok.
    by apply alone_returned.
Qed.

(** [memcpy] byte by byte. *)
Lemma alone_copy buf curr sgm m :
  store (u64 (op_data curr + header_size)) buf (r_mem (buffer sgm)) = Ok m →
  alone (length buf + 1) (Write buf (W_fill (Copy 0) curr)) sgm =
    Ok (Write buf (W_fill Init_flags curr), set_buffer m sgm).
Proof.
  set (off := u64 _). intros Hst.
  assert (Hoff : 0 ≤ off) by apply u64_range.
  assert (Hr : off + zlen buf ≤ zlen (r_mem (buffer sgm))).
  { apply Z.nlt_ge. intros Hlt. rewrite store_out in Hst; [done|]. lia. }
  destruct (cut_at (r_mem (buffer sgm)) off (zlen buf)) as (pre & area & post & Hm & Hpre & Harea); [lia..|].
  rewrite Hm, store_app in Hst by lia. injection Hst as <-.
  assert (Hk : ∀ k, (k ≤ length buf)%nat → alone k (Write buf (W_fill (Copy 0) curr)) sgm =
    Ok (Write buf (W_fill (Copy k) curr), set_buffer (pre ++ take k buf ++ drop k area ++ post) sgm)).
  { induction k as [|k IH]; intros Hk.
    - rewrite take_0, drop_0. simpl. by rewrite set_buffer_same.
    - replace (S k) with (k + 1)%nat by lia. rewrite alone_app, IH by lia. rewrite bind_Ok.
      cbn [alone call_step write_step fill_step]. fold off.
      destruct (lookup_lt_is_Some_2 buf k) as [x Hx]; [lia|]. rewrite Hx.
      destruct (lookup_lt_is_Some_2 area k) as [y Hy]; [lia|]. rewrite (drop_S _ _ _ Hy).
      pose proof (store_app (pre ++ take k buf) [y] (drop (S k) area ++ post) [x] (off + Z.of_nat k)) as Hs.
      rewrite <- !app_assoc in Hs. simpl app in Hs. unfold stored_at. cbn [set_buffer buffer r_mem]. simpl app.
      rewrite Hs; [|by rewrite length_app, length_take_le by lia; lia|done]. rewrite !bind_Ok.
      replace (k + 1)%nat with (S k) by lia. rewrite (take_S_r _ _ _ Hx). by rewrite <- !app_assoc. }
  rewrite alone_app, Hk by lia. rewrite bind_Ok. cbn [alone call_step write_step fill_step].
  rewrite lookup_ge_None_2 by lia. rewrite !bind_Ok, take_ge, drop_ge by lia. done.
Qed.

Definition goes (c : call) (sgm : segment) (c' : call) (sgm' : segment) : Prop :=
  ∃ n, alone n c sgm = Ok (c', sgm').

Lemma goes_refl c sgm : goes c sgm c sgm.
Proof. by exists 0%nat. Qed.

Lemma goes_step c sgm c1 sgm1 c' sgm' :
  call_step c sgm = Ok (c1, sgm1) → goes c1 sgm1 c' sgm' → goes c sgm c' sgm'.
Proof. intros Hs [n Hn]. exists (S n). cbn [alone]. by rewrite Hs, bind_Ok. Qed.

Lemma goes_trans c sgm c1 sgm1 c' sgm' : goes c sgm c1 sgm1 → goes c1 sgm1 c' sgm' → goes c sgm c' sgm'.
Proof. intros [n Hn] [k Hk]. exists (n + k)%nat. by rewrite alone_app, Hn, bind_Ok. Qed.

(** One access, by the equation for it. *)
Local Ltac go H :=
  eapply goes_step;
  [ cbn [call_step write_step mark_step fill_step read_step]; unfold stored_at;
    cbn [set_buffer set_index set_w_offset_pair buffer index r_mem op_data op_index size]; run H; reflexivity|].

Lemma mark_goes buf sgm curr rc sgm' :
  mark_eos sgm curr = Ok (rc, sgm') → goes (Write buf (W_mark curr)) sgm (Write buf (W_return rc)) sgm'.
Proof.
  unfold mark_eos. destruct (claim sgm curr _) as [rc1 sgm1] eqn:Hcl. intros Hrun.
  eapply goes_step; [cbn [call_step write_step]; rewrite Hcl; reflexivity|].
  destruct (negb (rc1 =? 0)); [injection Hrun as <- <-; apply goes_refl|]. unfold header_init in Hrun.
  apply bind_Ok_inv in Hrun as (m & Hi & Hrun). apply bind_Ok_inv in Hi as (m1 & H1 & Hi).
  apply bind_Ok_inv in Hi as (m2 & H2 & H3). apply bind_Ok_inv in Hrun as (m3 & H4 & Hrun).
  apply bind_Ok_inv in Hrun as (m4 & H5 & [= <- <-]).
  go H1. go H2. go H3. go H4. go H5. apply goes_refl.
Qed.

Lemma claim_goes buf sgm curr rc sgm' :
  (let new := OffsetPair (u32 (op_index curr + 1)) (u32 (op_data curr + u64 (header_size + zlen buf))) in
   let '(rc, sgm) := claim sgm curr new in
   if negb (rc =? 0) then Ok (rc, sgm)
   else
     m ← store (u64 (op_data curr + header_size)) buf (r_mem (buffer sgm));
     m ← header_init (op_data curr) m;
     m ← set_crc32 (op_data curr) (crc32 CRC32_INIT buf) m;
     m ← set_size (op_data curr) (u64 (header_size + zlen buf)) m;
     m ← set_flags (op_data curr) HEADER_FLAGS_READY m;
     ix ← put_index (op_index curr) (op_data curr) (r_mem (index (set_buffer m sgm)));
     Ok (i64 (zlen buf), set_index ix (set_buffer m sgm))) = Ok (rc, sgm') →
  goes (Write buf (W_claim curr)) sgm (Write buf (W_return rc)) sgm'.
Proof.
  cbv zeta. destruct (claim sgm curr _) as [rc1 sgm1] eqn:Hcl. intros Hrun.
  eapply goes_step; [cbn [call_step write_step]; rewrite Hcl; reflexivity|].
  destruct (negb (rc1 =? 0)); [injection Hrun as <- <-; apply goes_refl|]. unfold header_init in Hrun.
  apply bind_Ok_inv in Hrun as (m0 & Hst & Hrun).
  apply bind_Ok_inv in Hrun as (m & Hi & Hrun). apply bind_Ok_inv in Hi as (m1 & H1 & Hi).
  apply bind_Ok_inv in Hi as (m2 & H2 & H3). apply bind_Ok_inv in Hrun as (m3 & H4 & Hrun).
  apply bind_Ok_inv in Hrun as (m4 & H5 & Hrun). apply bind_Ok_inv in Hrun as (m5 & H6 & Hrun).
  apply bind_Ok_inv in Hrun as (ix & H7 & [= <- <-]).
  eapply goes_trans; [exists (length buf + 1)%nat; by apply alone_copy|].
  cbn [set_buffer index] in H7. go H1. go H2. go H3. go H4. go H5. go H6. go H7. apply goes_refl.
Qed.

Lemma write_goes sgm buf rc sgm' :
  segment_write sgm buf = Ok (rc, sgm') → goes (Write buf W_begin) sgm (Write buf (W_return rc)) sgm'.
Proof.
  unfold segment_write, marked_eos. intros Hrun. apply bind_Ok_inv in Hrun as (eos & Hm & Hrun).
  assert (Hrest : eos = false → goes (Write buf W_index) sgm (Write buf (W_return rc)) sgm').
  { intros ->. eapply goes_step; [done|]. eapply goes_step; [done|]. cbv zeta in Hrun. cbn [op_data].
    destruct (w_offset_pair sgm) as [i d] eqn:Hw. cbn [op_data op_index] in *.
    destruct (u64 _ >? u64 _); [by apply mark_goes|]. by apply claim_goes. }
  cbv zeta in Hm. eapply goes_step; [done|].
  destruct (op_data (w_offset_pair sgm) <? header_size); [injection Hm as <-; by apply Hrest|].
  apply bind_Ok_inv in Hm as (fl & Hfl & [= Heos]).
  eapply goes_step; [cbn [call_step write_step]; run Hfl; reflexivity|].
  destruct (fl =? HEADER_FLAGS_EOS); subst eos; [|by apply Hrest].
  injection Hrun as <- <-. apply goes_refl.
Qed.

Lemma read_goes sgm off fr rc fr' :
  segment_read sgm off fr = Ok (rc, fr') → goes (Read off fr R_begin) sgm (Read off fr (R_return rc fr')) sgm.
Proof.
  unfold segment_read. cbv zeta. intros Hrun.
  assert (Hcount : goes (Read off fr (R_count
      (if Z.land (flags sgm) SGM_RDCMT =? SGM_RDCMT then op_data (s_offset_pair sgm)
       else op_data (w_offset_pair sgm)))) sgm (Read off fr (R_return rc fr')) sgm).
  { eapply goes_step; [done|]. destruct (off >=? op_index (w_offset_pair sgm)).
    { injection Hrun as <- <-. apply goes_refl. }
    apply bind_Ok_inv in Hrun as (phys & Hix & Hrun).
    eapply goes_step; [cbn [call_step read_step]; run Hix; reflexivity|].
    destruct (negb (off =? 0) && (phys =? 0)); [injection Hrun as <- <-; apply goes_refl|].
    destruct (phys >=? _); [injection Hrun as <- <-; apply goes_refl|].
    apply bind_Ok_inv in Hrun as (fl & Hfl & Hrun).
    eapply goes_step; [cbn [call_step read_step]; run Hfl; reflexivity|].
    destruct (fl =? HEADER_FLAGS_READY).
    { apply bind_Ok_inv in Hrun as (sz & Hsz & [= <- <-]).
      eapply goes_step; [cbn [call_step read_step]; run Hsz; reflexivity|]. apply goes_refl. }
    destruct (fl =? HEADER_FLAGS_EOS); injection Hrun as <- <-; apply goes_refl. }
  eapply goes_step; [done|]. destruct (Z.land (flags sgm) SGM_RDCMT =? SGM_RDCMT); [|done].
  by eapply goes_step.
Qed.

(** The accesses of a call, one after the other with nothing in
    between, are [segment_write] and [segment_read]: whenever these are
    defined, a call that runs alone returns what they return and leaves the
    segment they leave. *)
Theorem alone_is_sequential sgm :
  (∀ buf rc sgm', segment_write sgm buf = Ok (rc, sgm') →
     alone (13 + length buf) (Write buf W_begin) sgm = Ok (Write buf (W_return rc), sgm')) ∧
  (∀ off fr rc fr', segment_read sgm off fr = Ok (rc, fr') →
     alone 6 (Read off fr R_begin) sgm = Ok (Read off fr (R_return rc fr'), sgm)).
Proof.
  split.
  - intros buf rc sgm' [n Hn]%write_goes. by apply (alone_rank n (Write buf W_begin)).
  - intros off fr rc fr' [n Hn]%read_goes. by apply (alone_rank n (Read off fr R_begin)).
Qed.

(** ** Two calls at the end of a segment *)

Lemma exec_app evs evs' st : exec (evs ++ evs') st = (st ← exec evs st; exec evs' st).
Proof.
  revert st. induction evs as [|ev evs IH]; intros st; [done|]. cbn [exec app].
  destruct (exec_event ev st); [|done..]. rewrite !bind_Ok. apply IH.
Qed.

(** A call that makes its accesses in a row. *)
Lemma exec_alone n t c sgm cs :
  cs !! t = Some c →
  exec (replicate n (Run t)) (State sgm cs) =
    ('(c, sgm) ← alone n c sgm; Ok (State sgm (<[t := c]> cs))).
Proof.
  revert c sgm cs. induction n as [|n IH]; intros c sgm cs Hc.
  { simpl. by rewrite list_insert_id. }
  cbn [replicate exec exec_event alone]. rewrite Hc.
  destruct (call_step c sgm) as [[c1 sgm1]| |]; [|done..]. rewrite !bind_Ok.
  rewrite (IH c1) by (apply list_lookup_insert_eq; by eapply lookup_lt_Some).
  destruct (alone n c1 sgm1) as [[c2 sgm2]| |]; [|done..]. rewrite !bind_Ok.
  by rewrite list_insert_insert_eq.
Qed.

(** Marking past the end. *)
Lemma stored_cases next off bs sgm :
  stored_at next sgm (store off bs (r_mem (buffer sgm))) = UB ∨
  ∃ m, stored_at next sgm (store off bs (r_mem (buffer sgm))) = Ok (next, set_buffer m sgm) ∧
    length m = length (r_mem (buffer sgm)).
Proof.
  destruct (store off bs (r_mem (buffer sgm))) as [m| |] eqn:Hst; [right|by left|].
  - exists m. split; [done|]. by apply store_length in Hst.
  - unfold store in Hst. by case_match.
Qed.

Lemma mark_past_end buf i o sgm :
  zlen (r_mem (buffer sgm)) < o + 8 → alone 4 (Write buf (W_marking Mark_flags (OffsetPair i o))) sgm = UB.
Proof.
  intros Hlen. cbn [alone call_step write_step mark_step op_data].
  unfold set_flags, set_version, set_pad, set_size, store_le.
  destruct (stored_cases (W_marking Mark_version (OffsetPair i o)) o (le_bytes 2 HEADER_FLAGS_EMPTY) sgm)
    as [->|(m & -> & Hm)]; [done|]. rewrite <- Hm in Hlen. rewrite !bind_Ok. cbn [call_step write_step mark_step op_data].
  unfold set_version, store_le.
  destruct (stored_cases (W_marking Mark_pad (OffsetPair i o)) (o + 2) (le_bytes 1 HEADER_VERSION) (set_buffer m sgm))
    as [->|(m1 & -> & Hm1)]; [done|]. cbn [set_buffer buffer r_mem] in Hm1. rewrite <- Hm1 in Hlen.
  rewrite !bind_Ok. cbn [call_step write_step mark_step op_data]. unfold set_pad, store_le.
  destruct (stored_cases (W_marking Mark_size (OffsetPair i o)) (o + 3) (le_bytes 1 HEADER_PAD)
    (set_buffer m1 (set_buffer m sgm))) as [->|(m2 & -> & Hm2)]; [done|].
  cbn [set_buffer buffer r_mem] in Hm2. rewrite <- Hm2 in Hlen. rewrite !bind_Ok.
  cbn [call_step write_step mark_step op_data]. unfold set_size, store_le.
  rewrite store_out; [done|]. cbn [set_buffer buffer r_mem]. rewrite length_le_split. lia.
Qed.

Lemma claim_past_end buf sgm :
  zlen (r_mem (buffer sgm)) < op_data (w_offset_pair sgm) + 8 →
  alone 5 (Write buf (W_mark (w_offset_pair sgm))) sgm = UB.
Proof.
  intros Hlen. rewrite (alone_app 1 4). destruct (w_offset_pair sgm) as [i o] eqn:Hw.
  assert (Hc : alone 1 (Write buf (W_mark (OffsetPair i o))) sgm =
    Ok (Write buf (W_marking Mark_flags (OffsetPair i o)),
        set_w_offset_pair (OffsetPair i (u32 (o + header_size))) sgm)).
  { cbn [alone call_step write_step]. unfold claim. by rewrite decide_True. }
  rewrite Hc, bind_Ok. by apply mark_past_end.
Qed.

(** The accesses of a call that finds the segment full, up to its mark. *)
Lemma full_goes buf sgm ps :
  seg_inv sgm ps false → forged_eos ps = false → header_size ≤ used ps false →
  alone 2 (Write buf W_begin) sgm = Ok (Write buf W_index, sgm).
Proof.
  intros I Hf Hu. pose proof (marked_eos_inv _ _ _ I) as Hm. rewrite Hf in Hm. unfold marked_eos in Hm.
  cbv zeta in Hm. cbn [alone call_step write_step]. rewrite (inv_w _ _ _ I) in *. cbn [op_data] in *.
  rewrite (proj2 (Z.ltb_ge _ _)) in * by done. apply bind_Ok_inv in Hm as (fl & Hfl & [= Hfl']).
  rewrite !bind_Ok. cbn [call_step write_step]. run Hfl. by rewrite Hfl'.
Qed.

Lemma full_marks buf sgm ps eos :
  seg_inv sgm ps eos → zlen buf < 2 ^ 63 → size sgm < used ps eos + 2 * header_size →
  alone 2 (Write buf W_index) sgm = Ok (Write buf (W_mark (w_offset_pair sgm)), sgm).
Proof.
  intros I Hb Hfull. pose proof (inv_size _ _ _ I). pose proof (inv_used _ _ _ I).
  cbn [alone call_step write_step]. rewrite !bind_Ok. cbn [call_step write_step op_data].
  rewrite (inv_w _ _ _ I). cbn [op_data op_index].
  assert (0 ≤ used ps eos) by (unfold used; destruct eos; size_lia).
  rewrite (u64_small (header_size + zlen buf)), !u64_small by size_lia.
  rewrite (proj2 (Z.gtb_lt _ _)) by size_lia. done.
Qed.

(** Two calls see the end of the segment before either marks it. *)
Definition race (buf1 buf2 : bytes) : list event :=
  [Start_write buf1; Start_write buf2] ++
  replicate 4 (Run 0) ++ replicate 2 (Run 1) ++ replicate (9 + length buf1) (Run 0) ++ replicate 7 (Run 1).

(** [C35]: two concurrent calls of [segment_write] that find less than 20
    bytes left can both mark the end of the segment, and the second mark is
    stored outside the data region. *)
Theorem racing_marks_overrun sgm ps buf1 buf2 :
  seg_inv sgm ps false → forged_eos ps = false → header_size ≤ used ps false →
  size sgm < used ps false + 20 → zlen buf1 < 2 ^ 63 → zlen buf2 < 2 ^ 63 →
  exec (race buf1 buf2) (State sgm []) = UB.
Proof.
  intros I Hf Hu Hfull Hb1 Hb2. unfold race. rewrite exec_app.
  change (exec [Start_write buf1; Start_write buf2] (State sgm []))
    with (Ok (State sgm [Write buf1 W_begin; Write buf2 W_begin])). rewrite bind_Ok.
  rewrite exec_app, (exec_alone 4 0 (Write buf1 W_begin)) by done.
  rewrite (alone_app 2 2), (full_goes _ _ _ I Hf Hu), !bind_Ok, (full_marks _ _ _ _ I) by size_lia.
  rewrite !bind_Ok. simpl insert.
  rewrite exec_app, (exec_alone 2 1 (Write buf2 W_begin)), (full_goes _ _ _ I Hf Hu), !bind_Ok by done. simpl insert.
  destruct (mark_eos_inv _ _ I) as (sgm1 & Hmark & I1 & Hsame).
  destruct (mark_goes buf1 _ _ _ _ Hmark) as [n Hn].
  rewrite exec_app, (exec_alone _ 0 (Write buf1 (W_mark (w_offset_pair sgm)))) by done.
  pose proof (alone_rank n (Write buf1 (W_mark (w_offset_pair sgm))) _ _ _ Hn eq_refl) as Ha.
  cbn [rank] in Ha. rewrite Ha, !bind_Ok. simpl insert.
  rewrite (exec_alone 7 1 (Write buf2 W_index)) by done.
  rewrite (alone_app 2 5), (full_marks _ _ _ _ I1), bind_Ok; [|done|rewrite used_true, (same_size _ _ Hsame); size_lia].
  rewrite claim_past_end; [done|]. rewrite (inv_w _ _ _ I1), (inv_len _ _ _ I1), (same_size _ _ Hsame).
  cbn [op_data]. rewrite used_true. size_lia.
Qed.

(** ** Concrete executions *)

(** Run events from calm states only. *)
Fixpoint calm_exec (evs : list event) (st : state) : option state :=
  match evs with
  | [] => Some st
  | ev :: evs =>
    if calm st then match exec_event ev st with Ok st => calm_exec evs st | _ => None end else None
  end.

Lemma calm_exec_reachable lo st0 evs : ∀ st st',
  reachable lo st0 st → Forall (event_ok lo) evs → calm_exec evs st = Some st' → reachable lo st0 st'.
Proof.
  induction evs as [|ev evs IH]; intros st st' Hr Hev; cbn [calm_exec]; [by intros [= <-]|].
  apply Forall_cons in Hev as [He Hev]. destruct (calm st) eqn:Hc; [|done].
  destruct (exec_event ev st) as [st1| |] eqn:Hrun; [|done..]. intros Hrest.
  eapply IH; [|done|exact Hrest]. by eapply reach_event.
Qed.

(** Two writers, access by access in turn, on an empty segment of 256 bytes, and
    a reader. *)
Definition two_writers : list event :=
  [Start_write (zeros 70); Run 0; Run 0; Run 0; Run 0; Start_write (zeros 80)] ++
  flat_map (λ _, [Run 0; Run 1]) (seq 0 78) ++ [Start_read 0 (Frame 0 0)] ++
  flat_map (λ _, [Run 1; Run 2]) (seq 0 20).
Definition at_start : state := State demo [].
Definition state_of (o : option state) : state := default at_start o.
Definition after_two : state := state_of (calm_exec two_writers at_start).
(** Then another writer. *)
Definition third_writer : list event := Start_write (zeros 70) :: replicate 90 (Run 3).
Definition after_third : state := state_of (calm_exec third_writer after_two).

#[local] Instance event_ok_dec lo ev : Decision (event_ok lo ev).
Proof. destruct ev; simpl; apply _. Defined.

Lemma two_writers_ok : Forall (event_ok 70) two_writers.
Proof. apply (bool_decide_unpack _). by vm_compute. Qed.

Lemma after_two_reached : reachable 70 at_start after_two.
Proof.
  eapply (calm_exec_reachable 70 at_start two_writers at_start); [constructor|apply two_writers_ok|].
  by vm_compute.
Qed.

Lemma after_third_reached : reachable 70 after_two after_third.
Proof.
  eapply (calm_exec_reachable 70 after_two third_writer after_two); [constructor| |by vm_compute].
  apply (bool_decide_unpack _). by vm_compute.
Qed.

Lemma demo_room : index_entry_size * ((size demo - header_size) / (header_size + 70)) ≤ zlen (r_mem (index demo)).
Proof. by vm_compute. Qed.

Lemma concurrent_calls_are_safe_witness :
  (∃ st', exec_event (Start_write (zeros 70)) after_two = Ok st') ∧
  (∀ t buf rc, st_calls after_two !! t = Some (Write buf (W_return rc)) → rc ∈ [zlen buf; ELEOS; ELLOCK]) ∧
  (∀ t off fr rc fr', st_calls after_two !! t = Some (Read off fr (R_return rc fr')) →
     rc ∈ [ELNORD; ELINVHD] ∨ ∃ p, rc = zlen p ∧ frame_payload (buffer (st_segment after_two)) fr' = Ok p).
Proof.
  apply (concurrent_calls_are_safe 70 [] demo ltac:(lia) demo_inv ltac:(constructor) demo_room after_two).
  - apply after_two_reached.
  - by vm_compute.
  - by vm_compute.
Defined.

Lemma concurrent_writes_linearize_witness :
  ∃ ws eos, seg_inv (st_segment after_two) ([] ++ ws) eos ∧ ws ≡ₚ [zeros 70; zeros 80].
Proof.
  apply (concurrent_writes_linearize 70 [] demo ltac:(lia) demo_inv ltac:(constructor) demo_room after_two).
  - apply after_two_reached.
  - by vm_compute.
Defined.

Lemma concurrent_reads_are_stable_witness :
  ∃ p, 70 = zlen p ∧
    frame_payload (buffer (st_segment after_two)) (Frame 65536 65548) = Ok p ∧
    frame_payload (buffer (st_segment after_third)) (Frame 65536 65548) = Ok p.
Proof.
  apply (concurrent_reads_are_stable 70 [] demo ltac:(lia) demo_inv ltac:(constructor) demo_room
    after_two after_third 2 0 (Frame 0 0)).
  - apply after_two_reached.
  - by vm_compute.
  - lia.
  - apply after_third_reached.
Defined.

(** Two writers that load the same write offset: one loses. *)
Definition both_began : state := State demo [Write (zeros 70) W_begin; Write (zeros 80) W_begin].
Definition lost_race : list event := flat_map (λ _, [Run 0; Run 1]) (seq 0 4).
Definition after_race : state := match exec lost_race both_began with Ok st => st | _ => at_start end.

Lemma lost_race_is_progress_witness :
  ∃ k t' st1 st2, t' ≠ 1%nat ∧ lost_race !! k = Some (Run t') ∧ exec (take k lost_race) both_began = Ok st1 ∧
    exec_event (Run t') st1 = Ok st2 ∧ w_of st1 = w_of both_began ∧ w_of st2 ≠ w_of both_began.
Proof.
  apply (lost_race_is_progress lost_race both_began after_race 1 (zeros 80)).
  - by vm_compute.
  - done.
  - by vm_compute.
  - by vm_compute.
Defined.

Definition in_turn : list event := flat_map (λ _, [Run 0; Run 1]) (seq 0 93).
Definition after_turns : state := match exec in_turn both_began with Ok st => st | _ => at_start end.

Lemma calls_are_wait_free_witness :
  ∃ c', st_calls after_turns !! 1%nat = Some c' ∧ returned c' = true.
Proof.
  apply (calls_are_wait_free in_turn both_began after_turns 1 (Write (zeros 80) W_begin)).
  - by vm_compute.
  - reflexivity.
  - apply Nat.leb_le. by vm_compute.
Defined.

(** A segment with 14 bytes left. *)
Definition demo_tight : segment := seg_of (segment_write demo (zeros 230)).

Lemma demo_tight_inv : seg_inv demo_tight [zeros 230] false.
Proof.
  pose proof (segment_write_inv demo [] false (zeros 230) demo_inv ltac:(by vm_compute)) as H.
  change (false || forged_eos []) with false in H. cbn iota in H.
  change (header_size + (header_size + zlen (zeros 230)) >? size demo - used [] false) with false in H. cbn iota in H.
  change (index_entry_size * (zlen (@nil bytes) + 1) <=? zlen (r_mem (index demo))) with true in H. cbn iota in H.
  destruct H as (s & H & I & _). unfold demo_tight. by rewrite H.
Qed.

Lemma racing_marks_overrun_witness : exec (race (zeros 40) (zeros 50)) (State demo_tight []) = UB.
Proof.
  apply (racing_marks_overrun demo_tight [zeros 230]).
  - apply demo_tight_inv.
  - by vm_compute.
  - by vm_compute.
  - by vm_compute.
  - by vm_compute.
  - by vm_compute.
Defined.
