(* ===== verification/SegmentThreadsSeen.v ===== *)
(** * Segments under concurrent calls: what a completed write guarantees

    A payload whose write has returned is found by every read of its offset
    that starts afterwards, whatever the other calls do. *)

From S2P Require Import Prelude Errno Crc32 Prot Util Posix Segment SegmentInv SegmentOps SegmentSpec SegmentThreads SegmentThreadsInv SegmentThreadsOps SegmentThreadsStep SegmentThreadsSpec.

(** No call changes the mode of a segment. *)
Lemma write_step_flags buf pc sgm pc' sgm' :
  write_step buf pc sgm = Ok (pc', sgm') → flags sgm' = flags sgm.
Proof.
  destruct pc as [|v| |i|curr|st curr|curr|st curr|rc]; cbn [write_step].
  - by intros [= _ <-].
  - by intros (fl & _ & [= _ <-])%bind_Ok_inv.
  - by intros [= _ <-].
  - by intros [= _ <-].
  - unfold claim. case_decide; by intros [= _ <-].
  - unfold mark_step, stored_at. by destruct st; intros (m & _ & [= _ <-])%bind_Ok_inv.
  - unfold claim. case_decide; by intros [= _ <-].
  - unfold fill_step, stored_at.
    by destruct st; [destruct (buf !! k)|..]; try intros (m & _ & [= _ <-])%bind_Ok_inv; try intros [= _ <-].
  - by intros [= _ <-].
Qed.

Lemma event_flags ev st st' : exec_event ev st = Ok st' → flags (st_segment st') = flags (st_segment st).
Proof.
  destruct st as [sgm cs]. destruct ev as [buf|off fr|t|s]; cbn [exec_event]; [by intros [= <-]..| |by intros [= <-]].
  destruct (cs !! t) as [[buf pc|off fr pc]|]; cbn [call_step]; [..|by intros [= <-]].
  - intros ([c sgm'] & ([pc' sgm2] & Hw & [= <- <-])%bind_Ok_inv & [= <-])%bind_Ok_inv.
    by eapply write_step_flags.
  - by intros ([c sgm'] & (pc' & _ & [= <- <-])%bind_Ok_inv & [= <-])%bind_Ok_inv.
Qed.

(** A call that has returned stays so. *)
Lemma event_returned ev st st' t c :
  exec_event ev st = Ok st' → st_calls st !! t = Some c → returned c = true → st_calls st' !! t = Some c.
Proof.
  destruct st as [sgm cs]. destruct ev as [buf|off fr|t'|s]; cbn [exec_event st_calls].
  - intros [= <-] Hc _. by apply lookup_app_l_Some.
  - intros [= <-] Hc _. by apply lookup_app_l_Some.
  - destruct (cs !! t') as [c'|] eqn:Hc'; [|by intros [= <-]].
    intros ([c2 sgm2] & Hstep & [= <-])%bind_Ok_inv Hc Hret. cbn [st_calls].
    destruct (decide (t' = t)) as [->|Hne]; [|by rewrite list_lookup_insert_ne].
    rewrite Hc in Hc'. injection Hc' as <-. destruct (returned_stays _ _ _ _ Hret Hstep) as [-> _].
    apply list_lookup_insert_eq. by eapply lookup_lt_Some.
  - by intros [= <-].
Qed.

(** Where a read of a frame at [o] stands that will return it. *)
Definition on_the_way (o : Z) (buf : bytes) (base : Z) (pc : read_pc) : Prop :=
  match pc with
  | R_begin => True
  | R_synced => False
  | R_count b | R_entry b => o < b
  | R_flags phys | R_size phys => phys = o
  | R_return rc fr => rc = zlen buf ∧ fr = Frame (base + o) (base + o + header_size)
  end.

Section seen.
Context (lo : Z) (ps : list bytes) (Hlo : 0 ≤ lo).

Lemma read_on_the_way st g i sl off fr pc pc' :
  conc_inv lo ps st g → g_slots g !! i = Some sl → sl_stage sl = None → off = Z.of_nat i →
  (Z.land (flags (st_segment st)) SGM_RDCMT =? SGM_RDCMT) = false →
  let o := frame_offset (g_payloads g) i in
  on_the_way o (sl_payload sl) (r_base (buffer (st_segment st))) pc →
  read_step off fr pc (st_segment st) = Ok pc' →
  on_the_way o (sl_payload sl) (r_base (buffer (st_segment st))) pc'.
Proof using Type.
  intros I Hi Hs -> Hmode o. pose proof (ci_layout _ _ _ _ I) as L. pose proof (lay_size _ _ _ L) as Hsize.
  destruct (slot_bounds _ _ _ L _ _ Hi) as [Hb0 Hb]. fold o in Hb0, Hb.
  destruct (published_header lo _ _ _ _ L Hi (or_introl Hs)) as (Hfl & Hsz & _). fold o in Hfl, Hsz.
  destruct pc as [| |b|b|phys|phys|rc fr']; cbn [on_the_way read_step].
  - intros _. rewrite Hmode. intros [= <-]. simpl. rewrite (lay_w _ _ _ L). cbn [op_data].
    pose proof (frame_offset_bound (g_payloads g) i (sl_payload sl)) as Hf.
    rewrite list_lookup_fmap, Hi in Hf. specialize (Hf eq_refl). unfold used. destruct (g_eos g); unfold o; size_lia.
  - done.
  - intros Hob [= <-]. rewrite (lay_w _ _ _ L). cbn [op_index]. apply lookup_lt_Some in Hi.
    destruct (Z.geb_spec (Z.of_nat i) (zlen (g_slots g))); [lia|done].
  - intros Hob. rewrite (get_entry lo _ _ _ _ L Hi), bind_Ok, Hs. intros [= <-].
    fold o. destruct (Z.geb_spec o b); [lia|]. destruct (negb _ && _) eqn:Hz; [exfalso|done].
    apply andb_prop in Hz as [Hn Hz%Z.eqb_eq]. apply negb_true_iff, Z.eqb_neq in Hn.
    pose proof (frames_length_pos (take i (g_payloads g))) as Hpos. unfold o, frame_offset in Hz.
    rewrite Hz in Hpos. apply lookup_lt_Some in Hi. destruct (g_slots g); [simpl in Hi; lia|].
    destruct i; [lia|]. simpl in Hpos. specialize (Hpos ltac:(done)). size_lia.
  - intros ->. rewrite Hfl, bind_Ok. by intros [= <-].
  - intros ->. rewrite Hsz, bind_Ok. intros [= <-]. simpl. split; [|done].
    rewrite Z.add_simpl_l, u64_small, i64_small by size_lia. done.
  - by intros ? [= <-].
Qed.

(** Every read of the offset started after [n] calls is on its way. *)
Definition all_on_the_way (n : nat) (off o : Z) (buf : bytes) (base : Z) (cs : list call) : Prop :=
  ∀ r fr pc, (n ≤ r)%nat → cs !! r = Some (Read off fr pc) → on_the_way o buf base pc.

Lemma event_on_the_way n st g i sl ev st' (o := frame_offset (g_payloads g) i)
    (base := r_base (buffer (st_segment st))) :
  conc_inv lo ps st g → g_slots g !! i = Some sl → sl_stage sl = None →
  (Z.land (flags (st_segment st)) SGM_RDCMT =? SGM_RDCMT) = false → exec_event ev st = Ok st' →
  all_on_the_way n (Z.of_nat i) o (sl_payload sl) base (st_calls st) →
  all_on_the_way n (Z.of_nat i) o (sl_payload sl) base (st_calls st').
Proof using Type.
  intros I Hi Hs Hmode Hrun Hall r fr pc Hr. destruct st as [sgm cs]. cbn [st_calls st_segment] in *.
  destruct ev as [buf'|off' fr'|t'|s]; cbn [exec_event] in Hrun.
  - injection Hrun as <-. intros [Hc|[_ Hc]]%lookup_app_Some; [by eapply Hall|].
    by apply list_lookup_singleton_Some in Hc as [_ ?].
  - injection Hrun as <-. intros [Hc|[_ Hc]]%lookup_app_Some; [by eapply Hall|].
    apply list_lookup_singleton_Some in Hc as [_ Hc]. by injection Hc as _ _ <-.
  - destruct (cs !! t') as [c|] eqn:Hc; [|injection Hrun as <-; by apply Hall].
    apply bind_Ok_inv in Hrun as ([c' sgm'] & Hstep & [= <-]). cbn [st_calls].
    intros [(-> & -> & _)|[Hne Hc']]%list_lookup_insert_Some; [|by eapply Hall].
    destruct c as [buf pc0|off0 fr0 pc0]; cbn [call_step] in Hstep.
    + by apply bind_Ok_inv in Hstep as ([? ?] & _ & ?).
    + apply bind_Ok_inv in Hstep as (pc1 & Hstep & [= -> -> <- <-]).
      eapply (read_on_the_way (State sgm cs) g i sl _ _ _ _ I Hi Hs eq_refl Hmode); [|exact Hstep].
      by eapply Hall.
  - injection Hrun as <-. by apply Hall.
Qed.

Lemma finished_slot st g i sl t buf rc :
  conc_inv lo ps st g → g_slots g !! i = Some sl → sl_owner sl = Some t →
  st_calls st !! t = Some (Write buf (W_return rc)) → sl_stage sl = None ∧ sl_payload sl = buf.
Proof using Type.
  intros I Hi Ho Ht. pose proof (ci_owner _ _ _ _ I _ _ _ Hi Ho) as Ht'. rewrite Ht in Ht'.
  unfold owner_pc in Ht'. destruct (sl_stage sl); [done|]. by injection Ht' as -> _.
Qed.

(** What stays known of a finished frame. *)
Record seen (n i t : nat) (buf : bytes) (rc : Z) (st : state) (g : ghost) : Prop := {
  sn_inv : conc_inv lo ps st g;
  sn_slot : ∃ sl, g_slots g !! i = Some sl ∧ sl_owner sl = Some t;
  sn_write : st_calls st !! t = Some (Write buf (W_return rc));
  sn_mode : (Z.land (flags (st_segment st)) SGM_RDCMT =? SGM_RDCMT) = false;
  sn_reads : all_on_the_way n (Z.of_nat i) (frame_offset (g_payloads g) i) buf
    (r_base (buffer (st_segment st))) (st_calls st)
}.

Lemma seen_reachable n i t buf rc st g st' :
  seen n i t buf rc st g → reachable lo st st' → ∃ g', seen n i t buf rc st' g'.
Proof using Hlo.
  intros S. induction 1 as [|ev st1 st2 _ [g1 [I [sl [Hi Ho]] Ht Hmode Hall]] Hcalm Hev Hrun]; [by exists g|].
  destruct (event_inv lo ps Hlo _ _ _ I Hcalm Hev) as (st3 & g2 & Hrun' & I2 & Hext).
  rewrite Hrun in Hrun'. injection Hrun' as <-. exists g2.
  destruct (ext_slots _ _ _ _ Hext _ _ Hi) as (sl2 & Hi2 & _ & Ho2 & _).
  destruct (finished_slot _ _ _ _ _ _ _ I Hi Ho Ht) as [Hs <-]. split; [done|..].
  - exists sl2. split; [done|congruence].
  - by apply (event_returned _ _ _ _ _ Hrun).
  - by rewrite (event_flags _ _ _ Hrun).
  - rewrite (ext_offset _ _ _ _ Hext _ _ Hi), (ext_base _ _ _ _ Hext). by eapply event_on_the_way.
Qed.
End seen.

Section visible.
Context (lo : Z) (ps : list bytes) (sgm0 : segment).
Context (Hlo : 0 ≤ lo) (I0 : seg_inv sgm0 ps false) (Hps : Forall (λ p, lo ≤ zlen p) ps).
Context (Hroom : index_entry_size * ((size sgm0 - header_size) / (header_size + lo)) ≤ zlen (r_mem (index sgm0))).

(** [C15]: A completed write is visible: in a calm execution on a segment that
    is not in committed mode, when a call of [segment_write] has returned the
    length of its payload, the payload has an offset, after those of the
    payloads of the start, at which every call of [segment_read] that starts
    from then on, and has returned in a state reached by calm events, returned
    it. Assumed: the segment starts open, with the invariant, without an end
    mark, and with payloads of at least [lo] bytes; every payload written has
    at least [lo] bytes, and the mapped index has a slot for every payload of
    that length that fits; the execution is calm: before each event at most
    one write has not yet claimed its frame, or the frames of all such writes
    fit together with an end mark. In committed mode a payload is hidden until
    it is synced. *)
Theorem completed_writes_are_seen st t buf rc :
  reachable lo (State sgm0 []) st → st_calls st !! t = Some (Write buf (W_return rc)) → 0 ≤ rc →
  (Z.land (flags (st_segment st)) SGM_RDCMT =? SGM_RDCMT) = false →
  ∃ off, zlen ps ≤ off ∧ ∀ st' r fr rc' fr',
    reachable lo st st' → (length (st_calls st) ≤ r)%nat →
    st_calls st' !! r = Some (Read off fr (R_return rc' fr')) →
    rc' = zlen buf ∧ frame_payload (buffer (st_segment st')) fr' = Ok buf.
Proof using All.
  intros Hr Ht Hrc Hmode. destruct (reached_inv lo ps sgm0 Hlo I0 Hps Hroom st Hr) as [g I].
  destruct (ci_calls _ _ _ _ I _ _ Ht) as [_ [Hin|(i & sl & Hi & Ho)]].
  { rewrite !elem_of_cons in Hin. unfold ELEOS, ELLOCK in Hin. destruct Hin as [->|[->|Hin]]; [lia|lia|].
    by apply elem_of_nil in Hin. }
  exists (Z.of_nat i). split.
  { destruct (ci_old _ _ _ _ I) as (news & Hg & _). rewrite Hg in Hi. apply lookup_app_Some in Hi as [Hi|[Hle _]].
    - rewrite list_lookup_fmap in Hi. destruct (ps !! i); [|done]. by injection Hi as <-.
    - rewrite length_fmap in Hle. lia. }
  intros st' r fr rc' fr' Hr' Hle Hread.
  destruct (seen_reachable lo ps Hlo (length (st_calls st)) i t buf rc st g st') as [g' S]; [|done|].
  { split; [done|by exists sl|done|done|]. intros r0 fr0 pc Hr0 Hc. apply lookup_lt_Some in Hc. lia. }
  destruct S as [I' [sl' [Hi' Ho']] Ht' _ Hall]. destruct (finished_slot lo ps _ _ _ _ _ _ _ I' Hi' Ho' Ht') as [Hs <-].
  destruct (Hall r fr _ Hle Hread) as [-> ->]. split; [done|].
  by apply (published_header lo _ _ _ _ (ci_layout _ _ _ _ I') Hi' (or_introl Hs)).
Qed.
End visible.

(** In the execution of [after_two] both writers have returned; a reader of
    offset 1 comes after them. *)
Definition late_read : list event := Start_read 1 (Frame 0 0) :: replicate 6 (Run 3).
Definition after_read : state := state_of (calm_exec late_read after_two).

Lemma completed_writes_are_seen_witness :
  ∃ off, zlen (@nil bytes) ≤ off ∧ ∀ st' r fr rc' fr',
    reachable 70 after_two st' → (3 ≤ r)%nat →
    st_calls st' !! r = Some (Read off fr (R_return rc' fr')) →
    rc' = zlen (zeros 80) ∧ frame_payload (buffer (st_segment st')) fr' = Ok (zeros 80).
Proof.
  apply (completed_writes_are_seen 70 [] demo ltac:(lia) demo_inv ltac:(constructor) demo_room after_two 1 (zeros 80) 80).
  - apply after_two_reached.
  - by vm_compute.
  - lia.
  - by vm_compute.
Defined.

(** The reader runs and returns the second payload. *)
Lemma after_read_returns :
  reachable 70 after_two after_read ∧
  ∃ fr, st_calls after_read !! 3%nat = Some (Read 1 (Frame 0 0) (R_return 80 fr)).
Proof.
  split.
  - eapply (calm_exec_reachable 70 after_two late_read after_two); [constructor| |by vm_compute].
    constructor; [by vm_compute|]. by apply Forall_replicate.
  - eexists. by vm_compute.
Qed.
