(* ===== verification/SegmentThreadsSync.v ===== *)
(** * [segment_sync] among the threads of a segment (src/segment.c)

    [segment_sync] cut at its accesses to the memory the threads share: the
    loads of the synced offset and of the write offset, one half at a time, the
    two calls of [msync], each with the contents that the mapping then has, and
    the stores to the synced offset. *)

From S2P Require Import Prelude Errno Prot Util Posix Segment.

Inductive sync_pc :=
  | S_addr                                (* [sync_data]: load the synced offset *)
  | S_end (s : Z)                         (* load the data half of the write offset *)
  | S_length (s w_offset : Z)             (* load the synced offset again *)
  | S_msync (s w_offset sz : Z)           (* [msync] *)
  | S_store (w_offset sync_size : Z)      (* store the synced offset *)
  | S_index_addr                          (* [sync_index]: load the synced index *)
  | S_index_end (s : Z)                   (* load the index half of the write offset *)
  | S_index_length (s w_index : Z)        (* load the synced index again *)
  | S_index_msync (s w_index len : Z)     (* [msync] *)
  | S_index_store (w_index len : Z)       (* store the synced index *)
  | S_return (rc : Z).

Section sync.
Context {W : Type} `{!Posix W}.

(** The argument of [msync], and the bytes it covers: from the page of [addr]
    on. *)
Definition aligned_range (addr sz : Z) : Z * Z :=
  let sync_addr := page_aligned_addr os_pagesize addr in
  (sync_addr, u64 (sz + u64 (addr - sync_addr))).

Definition sync_step (pc : sync_pc) (sgm : segment) (w : W) : sync_pc * segment * W :=
  match pc with
  | S_addr => (S_end (op_data (s_offset_pair sgm)), sgm, w)
  | S_end s => (S_length s (op_data (w_offset_pair sgm)), sgm, w)
  | S_length s w_offset =>
    (S_msync s w_offset (u64 (w_offset - op_data (s_offset_pair sgm))), sgm, w)
  | S_msync s w_offset sz =>
    let '(sync_addr, sync_size) := aligned_range (u64 (r_base (buffer sgm) + s)) sz in
    let '(rc, w) := os_msync (buffer sgm) sync_addr sync_size w in
    (if negb (rc =? 0) then S_return ELDTSYN else S_store w_offset (i32 sync_size), sgm, w)
  | S_store w_offset sync_size =>
    (if sync_size <=? 0 then S_return sync_size else S_index_addr,
     set_s_offset_pair (OffsetPair (op_index (s_offset_pair sgm)) w_offset) sgm, w)
  | S_index_addr => (S_index_end (op_index (s_offset_pair sgm)), sgm, w)
  | S_index_end s => (S_index_length s (op_index (w_offset_pair sgm)), sgm, w)
  | S_index_length s w_index =>
    (S_index_msync s w_index (u64 (w_index - op_index (s_offset_pair sgm))), sgm, w)
  | S_index_msync s w_index len =>
    let '(sync_addr, sync_size) :=
      aligned_range (u64 (r_base (index sgm) + index_entry_size * s)) (u64 (index_entry_size * len)) in
    let '(rc, w) := os_msync (index sgm) sync_addr sync_size w in
    (if negb (rc =? 0) then S_return ELDTSYN else S_index_store w_index (i32 len), sgm, w)
  | S_index_store w_index len =>
    (S_return len, set_s_offset_pair (OffsetPair w_index (op_data (s_offset_pair sgm))) sgm, w)
  | S_return rc => (S_return rc, sgm, w)
  end.

Fixpoint sync_alone (n : nat) (pc : sync_pc) (sgm : segment) (w : W) : sync_pc * segment * W :=
  match n with
  | O => (pc, sgm, w)
  | S n => let '(pc, sgm, w) := sync_step pc sgm w in sync_alone n pc sgm w
  end.

(** With nothing in between the accesses are [segment_sync]. *)
Lemma sync_alone_is_sequential sgm w :
  let '(rc, sgm', w') := segment_sync sgm w in sync_alone 10 S_addr sgm w = (S_return rc, sgm', w').
Proof using Type.
  unfold segment_sync, sync_data. cbn [sync_alone sync_step]. unfold aligned_range.
  destruct (os_msync (buffer sgm) _ _ w) as [rc1 w1]. destruct (negb (rc1 =? 0)); [done|].
  cbn [sync_alone sync_step]. destruct (_ <=? 0); [done|]. unfold sync_index. cbn [sync_alone sync_step].
  unfold aligned_range. set (sgm1 := set_s_offset_pair _ sgm).
  destruct (os_msync (index sgm1) _ _ w1) as [rc2 w2]. by destruct (negb (rc2 =? 0)).
Qed.
End sync.
