(* ===== verification/SegmentThreadsRest.v ===== *)
(** * Segments under concurrent calls: one writer at a time

    A caller that keeps writers apart, as the log does, sees the segment at
    rest between two writes, while readers and syncs go on: a write alone among
    readers and syncs does what [segment_write] does, and when it is done its
    frame is one of those the segment has always had. *)

From S2P Require Import Prelude Errno Crc32 Prot Util Posix Segment SegmentInv SegmentOps SegmentSpec SegmentThreads SegmentThreadsInv SegmentThreadsOps SegmentThreadsStep SegmentThreadsSpec.

(** ** Calls that are elsewhere *)

Definition idle_call : call := Read 0 (Frame 0 0) (R_return ELNORD (Frame 0 0)).

Lemma idle_ok lo sgm g t : call_ok lo sgm g t idle_call.
Proof. split; [lia|]. left. set_solver. Qed.

Lemma begin_write_ok lo sgm g t buf : lo ≤ zlen buf < 2 ^ 63 → call_ok lo sgm g t (Write buf W_begin).
Proof. done. Qed.

Lemma begin_read_ok lo sgm g t off fr : 0 ≤ off < 2 ^ 64 → call_ok lo sgm g t (Read off fr R_begin).
Proof. done. Qed.

(** A segment no call is on. *)
Lemma idle_calls lo ps sgm g n :
  conc_inv lo ps (State sgm []) g → conc_inv lo ps (State sgm (replicate n idle_call)) g.
Proof.
  intros I. induction n as [|n IH]; [done|]. rewrite replicate_S_end. apply start_step; [done|apply idle_ok].
Qed.

Lemma calm_one sgm cs i :
  (∀ j c, cs !! j = Some c → pending c = true → j = i) → calm (State sgm cs) = true.
Proof.
  intros Hone. unfold calm. cbn [st_calls]. apply orb_true_intro. left. apply Nat.leb_le.
  assert (Hnone : ∀ l, (∀ j c, l !! j = Some c → pending c = false) → pendings l = 0%nat).
  { induction l as [|c l IH]; intros Hl; [done|]. cbn [pendings]. rewrite (Hl 0%nat c eq_refl), IH; [done|].
    intros j c2 Hj. by apply (Hl (S j)). }
  revert i Hone. induction cs as [|c cs IH]; intros i Hone; [simpl; lia|]. cbn [pendings].
  destruct (pending c) eqn:Hp.
  - pose proof (Hone 0%nat c eq_refl Hp) as <-. rewrite Hnone; [lia|]. intros j c2 Hj.
    destruct (pending c2) eqn:Hp2; [|done]. by specialize (Hone (S j) c2 Hj Hp2).
  - apply (IH (pred i)). intros j c2 Hj Hp2. specialize (Hone (S j) c2 Hj Hp2). lia.
Qed.

(** ** What a write does not change *)

Lemma write_step_same buf pc sgm pc' sgm' :
  write_step buf pc sgm = Ok (pc', sgm') → same_segment sgm sgm'.
Proof.
  destruct pc as [|v| |i|curr|st curr|curr|st curr|rc]; cbn [write_step].
  - by intros [= _ <-].
  - by intros (fl & _ & [= _ <-])%bind_Ok_inv.
  - by intros [= _ <-].
  - by intros [= _ <-].
  - unfold claim. case_decide; by intros [= _ <-].
  - unfold mark_step, stored_at. by destruct st; intros (m & _ & [= _ <-])%bind_Ok_inv.
  - unfold claim. case_decide; by intros [= _ <-].
  - unfold fill_step, stored_at.
    destruct st; [destruct (buf !! k)|..]; try intros (m & Hm & [= _ <-])%bind_Ok_inv; try intros [= _ <-]; try done.
    apply store_length in Hm. by split.
  - by intros [= _ <-].
Qed.

(** [segment_sync] stores to nothing that [segment_write] loads or stores. *)
Lemma write_step_synced buf pc sgm pc' sgm' s :
  write_step buf pc sgm = Ok (pc', sgm') →
  write_step buf pc (set_s_offset_pair s sgm) = Ok (pc', set_s_offset_pair s sgm').
Proof.
  destruct pc as [|v| |i|curr|st curr|curr|st curr|rc]; cbn [write_step].
  - by intros [= <- <-].
  - intros (fl & Hfl & [= <- <-])%bind_Ok_inv. simpl. by rewrite Hfl.
  - by intros [= <- <-].
  - by intros [= <- <-].
  - unfold claim. simpl. case_decide; by intros [= <- <-].
  - unfold mark_step, stored_at. by destruct st; intros (m & Hm & [= <- <-])%bind_Ok_inv; simpl; rewrite Hm.
  - unfold claim. simpl. case_decide; by intros [= <- <-].
  - unfold fill_step, stored_at.
    destruct st; [destruct (buf !! k)|..]; try intros (m & Hm & [= <- <-])%bind_Ok_inv; try intros [= <- <-]; simpl; try done;
      by rewrite Hm.
  - by intros [= <- <-].
Qed.

(** ** A write on its own *)

(** The write of [buf] that began at [sgm0] stands at [pc] with [sgm]. *)
Definition wrote (buf : bytes) (sgm0 : segment) (pc : write_pc) (sgm : segment) : Prop :=
  goes (Write buf W_begin) sgm0 (Write buf pc) sgm.

Lemma wrote_begin buf sgm : wrote buf sgm W_begin sgm.
Proof. apply goes_refl. Qed.

Lemma wrote_step buf sgm0 pc sgm pc' sgm' :
  wrote buf sgm0 pc sgm → write_step buf pc sgm = Ok (pc', sgm') → wrote buf sgm0 pc' sgm'.
Proof.
  intros H Hs. eapply goes_trans; [exact H|]. eapply goes_step; [|apply goes_refl].
  cbn [call_step]. by rewrite Hs, bind_Ok.
Qed.

Lemma alone_write n buf : ∀ pc sgm c' sgm',
  alone n (Write buf pc) sgm = Ok (c', sgm') →
  ∃ pc', c' = Write buf pc' ∧ same_segment sgm sgm' ∧
    ∀ s, alone n (Write buf pc) (set_s_offset_pair s sgm) = Ok (c', set_s_offset_pair s sgm').
Proof.
  induction n as [|n IH]; intros pc sgm c' sgm'; cbn [alone]; [intros [= <- <-]; by exists pc|].
  intros ([c1 sgm1] & Hstep & Hrun)%bind_Ok_inv. cbn [call_step] in Hstep.
  apply bind_Ok_inv in Hstep as ([pc1 sgm2] & Hstep & [= <- <-]).
  destruct (IH _ _ _ _ Hrun) as (pc' & -> & Hsame & Hs). exists pc'. split; [done|]. split.
  - etrans; [by eapply write_step_same|done].
  - intros s. cbn [call_step]. rewrite (write_step_synced _ _ _ _ _ s Hstep), !bind_Ok. apply Hs.
Qed.

Lemma wrote_same buf sgm0 pc sgm : wrote buf sgm0 pc sgm → same_segment sgm0 sgm.
Proof. intros [n Hn]. by destruct (alone_write _ _ _ _ _ _ Hn) as (_ & _ & ? & _). Qed.

Lemma wrote_synced buf sgm0 pc sgm s :
  wrote buf sgm0 pc sgm → wrote buf (set_s_offset_pair s sgm0) pc (set_s_offset_pair s sgm).
Proof. intros [n Hn]. destruct (alone_write _ _ _ _ _ _ Hn) as (_ & _ & _ & Hs). exists n. apply Hs. Qed.

(** A write that has returned did what [segment_write] does. *)
Lemma wrote_returned buf sgm0 sgm rc rc' sgm' :
  wrote buf sgm0 (W_return rc) sgm → segment_write sgm0 buf = Ok (rc', sgm') → rc' = rc ∧ sgm' = sgm.
Proof.
  intros [n Hn] [n' Hn']%write_goes. apply alone_rank in Hn, Hn'; [|done..]. rewrite Hn in Hn'.
  by injection Hn' as -> ->.
Qed.

(** ** At rest *)

Definition reading (c : call) : Prop := match c with Read _ _ _ => True | Write _ _ => False end.

(** Readers add nothing. *)
Lemma readers_payloads lo ps sgm cs g :
  conc_inv lo ps (State sgm cs) g → (∀ j c, cs !! j = Some c → reading c) → g_payloads g = ps.
Proof.
  intros I Hr. destruct (ci_old _ _ _ _ I) as (news & Hg & Hnew). rewrite Hg, fmap_app, stored_payloads.
  destruct news as [|sl news]; [by rewrite app_nil_r|exfalso]. apply Forall_cons in Hnew as [[t Ho] _].
  assert (Hi : g_slots g !! length (stored_slot <$> ps) = Some sl) by (rewrite Hg; by apply list_lookup_middle).
  by specialize (Hr _ _ (ci_owner _ _ _ _ I _ _ _ Hi Ho)).
Qed.

Section rest.
Context (lo : Z) (ps : list bytes).

(** The slots without their owners. *)
Definition settled (g : ghost) : ghost :=
  Ghost (stored_slot <$> g_payloads g) (g_eos g) None (g_mark g) (g_rest g).

Lemma settled_payloads g : g_payloads (settled g) = g_payloads g.
Proof. apply stored_payloads. Qed.

Context (sgm : segment) (cs : list call) (g : ghost) (t : nat) (buf : bytes) (rc : Z).
Context (I : conc_inv lo ps (State sgm cs) g) (Ht : cs !! t = Some (Write buf (W_return rc))).
Context (Hothers : ∀ j c, cs !! j = Some c → j ≠ t → reading c).

Lemma owner_is i sl t' : g_slots g !! i = Some sl → sl_owner sl = Some t' →
  t' = t ∧ sl_stage sl = None ∧ sl_payload sl = buf ∧ rc = zlen buf.
Proof using All.
  intros Hi Ho. pose proof (ci_owner _ _ _ _ I _ _ _ Hi Ho) as Hc. simpl in Hc.
  destruct (decide (t' = t)) as [->|Hne]; [|by destruct (Hothers _ _ Hc Hne)]. split; [done|].
  rewrite Ht in Hc. unfold owner_pc in Hc. destruct (sl_stage sl); [done|]. by injection Hc as -> ->.
Qed.

Lemma slots_done i sl : g_slots g !! i = Some sl → sl_stage sl = None ∧ sl_block sl = frame_bytes (sl_payload sl).
Proof using All.
  intros Hi. pose proof (lay_slots _ _ _ (ci_layout _ _ _ _ I) _ _ Hi) as Hok. unfold slot_ok in Hok.
  destruct (sl_stage sl) as [st|] eqn:Hs; [|done]. destruct Hok as [_ [t' Ho]].
  destruct (owner_is _ _ _ Hi Ho) as (_ & ? & _). congruence.
Qed.

Lemma no_marker : g_marker g = None.
Proof using All.
  pose proof (ci_mark _ _ _ _ I) as Hm. unfold mark_ok in Hm. destruct (g_marker g) as [t'|]; [exfalso|done].
  destruct Hm as (_ & buf' & st & Hc & _). simpl in Hc. destruct (decide (t' = t)) as [->|Hne]; [congruence|].
  by destruct (Hothers _ _ Hc Hne).
Qed.

(** The payloads at rest: those of before, and the one that was written. *)
Lemma settled_items : g_payloads g = ps ++ (if rc <? 0 then [] else [buf]).
Proof using All.
  destruct (ci_old _ _ _ _ I) as (news & Hg & Hnew). rewrite Hg, fmap_app, stored_payloads. f_equal.
  assert (Hat : ∀ i sl, news !! i = Some sl → g_slots g !! (length ps + i)%nat = Some sl).
  { intros i sl Hi. rewrite Hg, lookup_app_r; rewrite length_fmap; [|lia]. by rewrite Nat.add_comm, Nat.add_sub. }
  rewrite Forall_lookup in Hnew. destruct news as [|sl news].
  - destruct (Z.ltb_spec rc 0) as [|Hrc]; [done|exfalso].
    destruct (ci_calls _ _ _ _ I _ _ Ht) as [_ [Hin|(i & sl & Hi & Ho)]].
    { rewrite !elem_of_cons, elem_of_nil in Hin. unfold ELEOS, ELLOCK in Hin. destruct Hin as [->|[->|[]]]; lia. }
    rewrite Hg, app_nil_r, list_lookup_fmap in Hi. destruct (ps !! i); [|done]. by injection Hi as <-.
  - destruct (Hnew 0%nat sl eq_refl) as [t' Ho]. pose proof (Hat 0%nat sl eq_refl) as Hi0.
    destruct (owner_is _ _ _ Hi0 Ho) as (Hto & _ & Hp & Hrc).
    rewrite (proj2 (Z.ltb_ge rc 0)) by (rewrite Hrc; lia).
    destruct news as [|sl2 news]; [by rewrite <- Hp|exfalso]. destruct (Hnew 1%nat sl2 eq_refl) as [t2 Ho2].
    pose proof (Hat 1%nat sl2 eq_refl) as Hi1. destruct (owner_is _ _ _ Hi1 Ho2) as [Hto2 _].
    rewrite Hto in Ho. rewrite Hto2 in Ho2. pose proof (ci_unique _ _ _ _ I _ _ _ _ _ Hi0 Hi1 Ho Ho2). lia.
Qed.

Lemma settled_lookup i sl :
  g_slots g !! i = Some sl → g_slots (settled g) !! i = Some (stored_slot (sl_payload sl)).
Proof using All. intros Hi. simpl. by rewrite !list_lookup_fmap, Hi. Qed.

Lemma settled_layout : layout lo sgm (settled g).
Proof using All.
  pose proof (ci_layout _ _ _ _ I) as L. simpl in L.
  assert (Hfin : Forall (λ sl, sl_stage sl = None) (g_slots g)).
  { apply Forall_lookup. intros i sl Hi. apply (slots_done i sl Hi). }
  assert (Hblocks : blocks (g_slots g) = frames (g_payloads g)).
  { apply finished_blocks; [done|]. intros i sl Hi. exists (i =? 0)%nat. by apply (lay_slots _ _ _ L). }
  assert (Hent : entries 0 (stored_slot <$> g_payloads g) = entries 0 (g_slots g)).
  { rewrite !finished_entries, stored_payloads; [done|done|]. by apply Forall_fmap, Forall_true. }
  destruct L. split; rewrite ?settled_payloads; simpl; rewrite ?Hent, ?length_fmap; try done.
  - by rewrite stored_blocks, <- Hblocks.
  - intros i sl Hi. rewrite list_lookup_fmap in Hi. destruct (g_payloads g !! i); [|done]. by injection Hi as <-.
  - intros Hnil. apply lay_fresh. by destruct (g_slots g).
Qed.

Lemma settled_call j c : reading c → call_ok lo sgm g j c → call_ok lo sgm (settled g) j c.
Proof using All.
  assert (Hknown : ∀ off phys ready, frame_known sgm g off phys ready → frame_known sgm (settled g) off phys ready).
  { intros off phys ready (sl & Hi & -> & _). exists (stored_slot (sl_payload sl)).
    rewrite settled_payloads. split; [by apply settled_lookup|]. split; [done|]. left. by left. }
  destruct c as [|off fr pc]; [done|]. intros _ [Ha Hpc]. split; [done|].
  destruct pc as [| |b|b|phys|phys|rc' fr']; cbn [read_ok] in *; try done.
  - simpl. by rewrite !length_fmap.
  - by apply Hknown.
  - by apply Hknown.
  - destruct Hpc as [?|(sl & Hi & _ & -> & ->)]; [by left|right]. exists (stored_slot (sl_payload sl)).
    rewrite settled_payloads. split; [by apply settled_lookup|]. split; [by left|done].
Qed.

(** The write has returned: its call leaves the segment. *)
Lemma settle : conc_inv lo (g_payloads g) (State sgm (<[t := idle_call]> cs)) (settled g).
Proof using All.
  split; simpl; try done.
  - exact settled_layout.
  - exists []. by rewrite app_nil_r.
  - intros i sl t' Hi Ho. rewrite list_lookup_fmap in Hi. destruct (g_payloads g !! i); [|done]. by injection Hi as <-.
  - intros i j sl sl' t' Hi _ Ho. rewrite list_lookup_fmap in Hi. destruct (g_payloads g !! i); [|done]. by injection Hi as <-.
  - pose proof (ci_mark _ _ _ _ I) as Hm. unfold mark_ok in *. by rewrite no_marker in Hm.
  - intros j c [(<- & <- & _)|[Hne Hj]]%list_lookup_insert_Some; [apply idle_ok|].
    apply settled_call; [by eapply Hothers|]. exact (ci_calls _ _ _ _ I _ _ Hj).
Qed.
End rest.

(** A reader of a segment that has payloads does not meet a header that is no
    header: it could only be the first frame, before it is written. *)
Definition sound (pc : read_pc) : Prop :=
  match pc with R_return rc _ => rc ≠ ELINVHD | _ => True end.

Lemma read_sound lo ps st g off fr pc pc' :
  conc_inv lo ps st g → ps ≠ [] → 0 ≤ off → read_ok (st_segment st) g off pc →
  read_step off fr pc (st_segment st) = Ok pc' → sound pc → sound pc'.
Proof.
  intros I Hps Hoff Hok. pose proof (ci_layout _ _ _ _ I) as L.
  destruct pc as [| |b|b|phys|phys|rc fr']; cbn [read_step read_ok] in *.
  - intros [= <-] _. by destruct (_ =? _).
  - by intros [= <-] _.
  - intros [= <-] _. by destruct (_ >=? _).
  - intros (e & _ & [= <-])%bind_Ok_inv _. destruct (_ && _); [done|]. by destruct (_ >=? _).
  - destruct Hok as (sl & Hi & -> & Hpub).
    destruct (published_header lo _ _ _ _ L Hi) as (Hfl & _); [|rewrite Hfl, bind_Ok; by intros [= <-] _].
    destruct Hpub as [?|[_ ->]]; [done|]. destruct (ci_old _ _ _ _ I) as (news & Hg & _).
    destruct ps as [|p ps]; [done|]. rewrite Hg in Hi. injection Hi as <-. by left.
  - destruct Hok as (sl & Hi & -> & [Hpub|[? _]]); [|done].
    destruct (published_header lo _ _ _ _ L Hi Hpub) as (_ & Hsz & _). rewrite Hsz, bind_Ok. intros [= <-] _. simpl.
    destruct (slot_bounds _ _ _ L _ _ Hi) as [Hb0 Hb]. pose proof (lay_size _ _ _ L).
    rewrite Z.add_simpl_l, u64_small, i64_small by size_lia. unfold ELINVHD. lia.
  - by intros [= <-].
Qed.
