(* ===== verification/Index.v ===== *)
(** * The index interface (src/mbptree.h) as mqlog.c sees it

    [Index] has the functions of mbptree.h that mqlog.c calls, on an opaque
    tree and an opaque iterator; [IndexLaws] is what the log relies on: the
    index is an ascending list of entries. MbptreeIndex.v discharges the laws
    for the tree of Mbptree.v. *)

From S2P Require Import Prelude Errno.

Class Index (T It : Type) := {
  ix_init : nat → result (option T);
  ix_append : T → Z → Z → result (Z * T);
  ix_last_value : T → result (Z * option Z);
  ix_leaf_floor : T → Z → result (Z * option It * T);
  ix_leaf_first : T → result (Z * option It * T);
  ix_iterator_valid : T → It → result bool;
  ix_iterator_value : T → It → result Z;
  ix_iterator_next : T → It → result It;
  ix_free : T → result Z
}.

(** The entries with a key above [key], from the greatest one that is not. *)
Inductive floor_entries (key : Z) : list (Z * Z) → list (Z * Z) → Prop :=
  | floor_none kvs : Forall (λ kv, key < kv.1) kvs → floor_entries key kvs []
  | floor_some before kv after : kv.1 ≤ key → Forall (λ kv, key < kv.1) after →
      floor_entries key (before ++ kv :: after) (kv :: after).

Class IndexLaws (T It : Type) `{!Index T It} := {
  (* the entries of an index no other thread uses *)
  ix_stores : T → list (Z * Z) → Prop;
  (* an iterator and the entries it has before it *)
  ix_at : T → It → list (Z * Z) → Prop;
  (* an iterator on an entry *)
  ix_on : T → It → Z * Z → Prop;

  law_init bf : (3 ≤ bf)%nat → ∃ t, ix_init bf = Ok (Some t) ∧ ix_stores t [];
  law_append t kvs k v : ix_stores t kvs → Forall (λ kv, kv.1 < k) kvs →
    ∃ t', ix_append t k v = Ok (0, t') ∧ ix_stores t' (kvs ++ [(k, v)]);
  law_append_refused t kvs kv k v : ix_stores t (kvs ++ [kv]) → k ≤ kv.1 →
    ix_append t k v = Ok (ELIDXNM, t);
  law_last t kvs : ix_stores t kvs →
    ix_last_value t = Ok (match last kvs with Some kv => (0, Some kv.2) | None => (-1, None) end);
  law_floor t kvs key : ix_stores t kvs →
    ∃ it rest, ix_leaf_floor t key = Ok (0, Some it, t) ∧ ix_at t it rest ∧
      floor_entries key kvs rest;
  law_first t kvs : ix_stores t kvs →
    ∃ it rest, ix_leaf_first t = Ok (0, Some it, t) ∧ ix_at t it rest ∧ floor_entries 0 kvs rest;
  law_valid t it rest : ix_at t it rest →
    ix_iterator_valid t it = Ok (negb (bool_decide (rest = [])));
  law_on t it kv rest : ix_at t it (kv :: rest) → ix_on t it kv;
  law_on_value t it kv : ix_on t it kv → ix_iterator_value t it = Ok kv.2;
  (* an append leaves the entries, and the iterators on them, where they are *)
  law_on_append t kvs it kv k v rc t' : ix_stores t kvs → ix_on t it kv →
    ix_append t k v = Ok (rc, t') → ix_on t' it kv;
  law_next t it kv rest : ix_at t it (kv :: rest) →
    ∃ it', ix_iterator_next t it = Ok it' ∧ ix_at t it' rest;
  law_free_index t kvs : ix_stores t kvs → ix_free t = Ok 0
}.

Lemma law_value `{IndexLaws T It} (t : T) (it : It) kv rest :
  ix_at t it (kv :: rest) → ix_iterator_value t it = Ok kv.2.
Proof. intros Hat. by eapply law_on_value, law_on. Qed.
