(* ===== verification/Mbptree.v ===== *)
(** * The index: a monotonic B+tree (src/mbptree.h, src/mbptree.c)

    Nodes live in a heap of blocks named by their addresses and point to
    their parent, to their children and, for leaves, to the next leaf. A C
    pointer is its address, 0 for [NULL]; a union [mbptree_value] is its 64-bit
    word, so that an address and a [u64] share it. The counters [size],
    [branch_factor] and the array indices are never negative in the code and
    are natural numbers; the one that can be [-1], in [mbptree_leaf_floor], is
    an integer.

    [assert] and an access to a block that is not allocated, or outside the
    array of a block, give [UB]. *)

From S2P Require Import Prelude Errno.

(** ** Data *)

(** [struct mbptree_node]; [data] has [branch_factor] cells (key, value). *)
Record mbptree_node := Node {
  leaf   : Z;
  nsize  : nat;
  parent : Z;
  data   : list (Z * Z)
}.

(** [struct mbptree_lock], swapped as one word. *)
Record mbptree_lock := Lock { exclusive_lock : Z; shared_lock : Z }.

#[export] Instance mbptree_lock_eq_dec : EqDecision mbptree_lock.
Proof. solve_decision. Defined.

(** [struct mbptree] *)
Record mbptree := Tree {
  branch_factor : nat;
  lock          : mbptree_lock;
  root          : Z;
  last_leaf     : Z
}.

(** [struct mbptree_leaf_iterator] *)
Record mbptree_leaf_iterator := LeafIterator { it_idx : nat; it_leaf : Z }.

(** [struct mbptree_bfs_iterator] *)
Record mbptree_bfs_iterator :=
  BfsIterator { bfs_head : nat; bfs_tail : nat; bfs_queue : list Z }.

(** The queue is allocated as 1024 times [sizeof(struct mbptree_node)], which is
    16 bytes: room for 2048 addresses. *)
Definition QUEUE_SIZE : Z := 1024.
Definition sizeof_mbptree_node : Z := 16.
Definition queue_cells : nat := Z.to_nat (QUEUE_SIZE * sizeof_mbptree_node / 8).

Abbreviation heap := (gmap Z mbptree_node).

(** Field assignments. *)
Definition set_lock (lk : mbptree_lock) (t : mbptree) : mbptree :=
  Tree (branch_factor t) lk (root t) (last_leaf t).
Definition set_root (r : Z) (t : mbptree) : mbptree :=
  Tree (branch_factor t) (lock t) r (last_leaf t).
Definition set_last_leaf (l : Z) (t : mbptree) : mbptree :=
  Tree (branch_factor t) (lock t) (root t) l.
Definition set_parent (p : Z) (nd : mbptree_node) : mbptree_node :=
  Node (leaf nd) (nsize nd) p (data nd).
Definition set_nsize (n : nat) (nd : mbptree_node) : mbptree_node :=
  Node (leaf nd) n (parent nd) (data nd).
Definition set_leaf (b : Z) (nd : mbptree_node) : mbptree_node :=
  Node b (nsize nd) (parent nd) (data nd).

(** [p->...] for reading: the block behind a pointer. *)
Definition deref (p : Z) (h : heap) : result mbptree_node := of_option (h !! p).

(** [node->data[i]] and the assignments to its fields. *)
Definition get_data (nd : mbptree_node) (i : nat) : result (Z * Z) :=
  of_option (data nd !! i).
Definition put_data (i : nat) (kv : Z * Z) (nd : mbptree_node) : result mbptree_node :=
  if (i <? length (data nd))%nat
  then Ok (Node (leaf nd) (nsize nd) (parent nd) (<[i := kv]> (data nd))) else UB.
Definition put_key (i : nat) (k : Z) (nd : mbptree_node) : result mbptree_node :=
  kv ← get_data nd i; put_data i (k, kv.2) nd.
Definition put_value (i : nat) (v : Z) (nd : mbptree_node) : result mbptree_node :=
  kv ← get_data nd i; put_data i (kv.1, v) nd.

(** [p->... = ...]: update the block behind a pointer. *)
Definition update (p : Z) (f : mbptree_node → result mbptree_node) (h : heap) : result heap :=
  nd ← deref p h; nd ← f nd; Ok (<[p := nd]> h).

Definition assign_parent (p parent : Z) : heap → result heap :=
  update p (λ nd, Ok (set_parent parent nd)).

(** ** Operations *)

Section mbptree.
(** [calloc] of a node: the address of a block, or none; [calloc] of the
    other structures succeeds or not. *)
Context (calloc : heap → option Z) (calloc_struct : heap → bool).

Definition mbptree_node_full (tree : mbptree) (nd : mbptree_node) : result bool :=
  _ ← assertb (nsize nd <? branch_factor tree)%nat;
  Ok (branch_factor tree - 1 <=? nsize nd)%nat.

Definition mbptree_create_node (branch_factor : nat) (parent : Z) (h : heap) : Z * heap :=
  match calloc h with
  | None => (0, h)
  | Some p => (p, <[p := Node 0 0 parent (replicate branch_factor (0, 0))]> h)
  end.

Definition mbptree_create_leaf (branch_factor : nat) (parent : Z) (h : heap)
    : result (Z * heap) :=
  let '(node, h) := mbptree_create_node branch_factor parent h in
  if node =? 0 then Ok (0, h)
  else h ← update node (λ nd, Ok (set_leaf 1 nd)) h; Ok (node, h).

Definition mbptree_is_leaf (nd : mbptree_node) : bool := leaf nd =? 1.

Definition mbptree_midpoint (tree : mbptree) : nat := Nat.div2 (branch_factor tree).

Definition mbptree_is_root (nd : mbptree_node) : bool := parent nd =? 0.

(** [for (i = 0; i <= node->size; ++i)]: free the children that are set. *)
Fixpoint free_children (free_node : Z → heap → result heap) (n i : nat) (node : Z) (h : heap)
    : result heap :=
  match n with
  | O => Ok h
  | S n =>
    nd ← deref node h;
    if (i <=? nsize nd)%nat then
      kv ← get_data nd i;
      h ← (if kv.2 =? 0 then Ok h else free_node kv.2 h);
      free_children free_node n (i + 1) node h
    else Ok h
  end.

(** [mbptree_free_node]; it always returns 0. *)
Fixpoint mbptree_free_node (fuel : nat) (node : Z) (h : heap) : result heap :=
  match fuel with
  | O => NoFuel
  | S fuel =>
    nd ← deref node h;
    h ← (if mbptree_is_leaf nd then Ok h
         else free_children (mbptree_free_node fuel) (S (S (nsize nd))) 0 node h);
    Ok (delete node h)
  end.

(** The first loop of [mbptree_move_half_node]: the keys. *)
Fixpoint move_keys (fuel key_idx : nat) (lhs rhs : Z) (h : heap) : result heap :=
  l ← deref lhs h;
  if (key_idx <? nsize l)%nat then
    match fuel with
    | O => NoFuel
    | S fuel =>
      kv ← get_data l key_idx;
      h ← update rhs (λ r, r' ← put_key (nsize r) kv.1 r; Ok (set_nsize (S (nsize r)) r')) h;
      h ← update lhs (put_key key_idx 0) h;
      move_keys fuel (key_idx + 1) lhs rhs h
    end
  else Ok h.

(** The second loop: the values, and the parent of each node moved. *)
Fixpoint move_values (fuel value_idx j : nat) (lhs rhs : Z) (h : heap) : result heap :=
  l ← deref lhs h;
  if (value_idx <=? nsize l)%nat then
    match fuel with
    | O => NoFuel
    | S fuel =>
      kv ← get_data l value_idx;
      h ← update rhs (put_value j kv.2) h;
      h ← update lhs (put_value value_idx 0) h;
      r ← deref rhs h;
      moved ← get_data r j;
      h ← assign_parent moved.2 rhs h;
      move_values fuel (value_idx + 1) (j + 1) lhs rhs h
    end
  else Ok h.

Definition mbptree_move_half_node (tree : mbptree) (lhs rhs : Z) (h : heap)
    : result (Z * heap) :=
  l ← deref lhs h;
  r ← deref rhs h;
  _ ← assertb (parent l =? parent r);
  _ ← assertb (leaf l =? 0);
  _ ← assertb (leaf r =? 0);
  let mid := mbptree_midpoint tree in
  mid_kv ← get_data l mid;
  h ← move_keys (branch_factor tree) (mid + 1) lhs rhs h;
  h ← move_values (branch_factor tree) (mid + 1) 0 lhs rhs h;
  h ← update lhs (λ l, Ok (set_nsize mid l)) h;
  Ok (mid_kv.1, h).

(** [node->data[node->size++].key = key; node->data[node->size].value.addr = child] *)
Definition push_child (node key child : Z) (h : heap) : result heap :=
  h ← update node (λ nd, nd' ← put_key (nsize nd) key nd; Ok (set_nsize (S (nsize nd)) nd')) h;
  update node (λ nd, put_value (nsize nd) child nd) h.

Definition mbptree_split_root (tree : mbptree) (root0 key child : Z) (h : heap)
    : result (Z * mbptree * heap) :=
  _ ← assertb (root tree =? root0);
  let '(new_root, h) := mbptree_create_node (branch_factor tree) 0 h in
  if new_root =? 0 then Ok (0, tree, h)
  else
    let '(new_node, h) := mbptree_create_node (branch_factor tree) new_root h in
    if new_node =? 0 then Ok (0, tree, h)
    else
      h ← assign_parent root0 new_root h;
      '(mid_key, h) ← mbptree_move_half_node tree root0 new_node h;
      h ← push_child new_node key child h;
      h ← assign_parent child new_node h;
      h ← update new_root (λ nd, put_value (nsize nd) root0 nd) h;
      h ← push_child new_root mid_key new_node h;
      Ok (new_root, set_root new_root tree, h).

Fixpoint mbptree_append_node (fuel : nat) (tree : mbptree) (key node : Z) (h : heap)
    : result (Z * mbptree * heap) :=
  match fuel with
  | O => NoFuel
  | S fuel =>
    nd ← deref node h;
    _ ← assertb (negb (mbptree_is_root nd));
    let p := parent nd in
    pn ← deref p h;
    full ← mbptree_node_full tree pn;
    if negb full then h ← push_child p key node h; Ok (root tree, tree, h)
    else if mbptree_is_root pn then mbptree_split_root tree p key node h
    else mbptree_split_node fuel tree p key node h
  end
with mbptree_split_node (fuel : nat) (tree : mbptree) (parent0 key child : Z) (h : heap)
    : result (Z * mbptree * heap) :=
  match fuel with
  | O => NoFuel
  | S fuel =>
    pn ← deref parent0 h;
    full ← mbptree_node_full tree pn;
    _ ← assertb full;
    _ ← assertb (negb (mbptree_is_root pn));
    let '(new_parent, h) := mbptree_create_node (branch_factor tree) (parent pn) h in
    if new_parent =? 0 then Ok (0, tree, h)
    else
      '(mid_key, h) ← mbptree_move_half_node tree parent0 new_parent h;
      h ← push_child new_parent key child h;
      h ← assign_parent child new_parent h;
      mbptree_append_node fuel tree mid_key new_parent h
  end.

(** Fuel for a walk from a node to the root: two calls a level, and there
    are no more levels than nodes. *)
Definition walk_fuel (h : heap) : nat := 2 * S (size h).

Definition mbptree_append_leaf (tree : mbptree) (new_leaf : Z) (h : heap)
    : result (Z * mbptree * heap) :=
  _ ← assertb (negb (last_leaf tree =? new_leaf));
  ll ← deref (last_leaf tree) h;
  _ ← assertb (nsize ll =? branch_factor tree - 1)%nat;
  next ← get_data ll (nsize ll);
  _ ← assertb (next.2 =? new_leaf);
  nl ← deref new_leaf h;
  _ ← assertb (parent ll =? parent nl);
  let p := parent ll in
  pn ← deref p h;
  full ← mbptree_node_full tree pn;
  first ← get_data nl 0;
  '(r, tree, h) ←
    (if negb full then h ← push_child p first.1 new_leaf h; Ok (root tree, tree, h)
     else if mbptree_is_root pn then mbptree_split_root tree p first.1 new_leaf h
     else mbptree_split_node (walk_fuel h) tree p first.1 new_leaf h);
  Ok (r, set_last_leaf new_leaf tree, h).

Definition mbptree_new_leaf (tree : mbptree) (leaf0 : Z) (h : heap) : result (Z * heap) :=
  l ← deref leaf0 h;
  _ ← assertb (leaf l =? 1);
  '(new_leaf, h) ← mbptree_create_leaf (branch_factor tree) (parent l) h;
  if new_leaf =? 0 then Ok (0, h)
  else
    h ← update leaf0 (λ nd, put_value (nsize nd) new_leaf nd) h;
    Ok (new_leaf, h).

(** The loop of [mbptree_find_leaf]: the child to descend into. *)
Fixpoint find_child (n i : nat) (key : Z) (nd : mbptree_node) : result Z :=
  match n with
  | O => _ ← assertb (i =? nsize nd)%nat; kv ← get_data nd i; Ok kv.2
  | S n => kv ← get_data nd i; if key <? kv.1 then Ok kv.2 else find_child n (i + 1) key nd
  end.

Fixpoint mbptree_find_leaf (fuel : nat) (node key : Z) (h : heap) : result Z :=
  match fuel with
  | O => NoFuel
  | S fuel =>
    nd ← deref node h;
    if negb (leaf nd =? 0) then Ok node
    else child ← find_child (nsize nd) 0 key nd; mbptree_find_leaf fuel child key h
  end.

(** [data = &node->data[node->size++]; data->key = key; data->value = value] *)
Definition push_entry (node key value : Z) (h : heap) : result heap :=
  update node (λ nd, nd' ← put_data (nsize nd) (key, value) nd;
                     Ok (set_nsize (S (nsize nd)) nd')) h.

Definition mbptree_tryappend (tree : mbptree) (key value : Z) (h : heap)
    : result (Z * mbptree * heap) :=
  let leaf0 := last_leaf tree in
  l ← deref leaf0 h;
  not_monotonic ← (if (0 <? nsize l)%nat
                   then kv ← get_data l (nsize l - 1); Ok (key <=? kv.1) else Ok false);
  if (not_monotonic : bool) then Ok (ELIDXNM, tree, h)
  else
    full ← mbptree_node_full tree l;
    if negb full then h ← push_entry leaf0 key value h; Ok (0, tree, h)
    else
      (* create a new root if the leaf is full and it is the root *)
      let '(failed, new_root, h1) :=
        if mbptree_is_root l
        then let '(r, h1) := mbptree_create_node (branch_factor tree) 0 h in (r =? 0, r, h1)
        else (false, 0, h) in
      if (failed : bool) then Ok (ELALLC, tree, h1)
      else
        h ← (if mbptree_is_root l then assign_parent leaf0 new_root h1 else Ok h1);
        '(new_leaf, h) ← mbptree_new_leaf tree leaf0 h;
        if new_leaf =? 0 then
          h ← assign_parent leaf0 0 h;
          h ← mbptree_free_node (walk_fuel h) new_root h;
          Ok (ELALLC, tree, h)
        else
          h ← push_entry new_leaf key value h;
          if negb (new_root =? 0) then
            nl ← deref new_leaf h;
            first ← get_data nl 0;
            h ← update new_root (λ nd, nd ← put_data (nsize nd) (first.1, leaf0) nd;
                                       Ok (set_nsize (S (nsize nd)) nd)) h;
            h ← update new_root (λ nd, put_value (nsize nd) new_leaf nd) h;
            Ok (0, set_root new_root (set_last_leaf new_leaf tree), h)
          else
            '(r, tree, h) ← mbptree_append_leaf tree new_leaf h;
            if r =? 0 then Ok (ELIDXPC, tree, h)
            else Ok (0, set_root r tree, h).

Definition mbptree_init (branch_factor : nat) (h : heap) : result (option mbptree * heap) :=
  if calloc_struct h then
    '(node, h) ← mbptree_create_leaf branch_factor 0 h;
    if node =? 0 then Ok (None, h)
    else Ok (Some (Tree branch_factor (Lock 0 0) node node), h)
  else Ok (None, h).

Definition mbptree_free (tree : mbptree) (h : heap) : result heap :=
  mbptree_free_node (walk_fuel h) (root tree) h.

Definition mbptree_append (tree : mbptree) (key value : Z) (h : heap)
    : result (Z * mbptree * heap) :=
  if decide (lock tree = Lock 0 0) then
    '(rc, tree, h) ← mbptree_tryappend (set_lock (Lock 1 0) tree) key value h;
    Ok (rc, set_lock (Lock 0 0) tree, h)
  else Ok (ELIDXLK, tree, h).

Definition mbptree_last_value (tree : mbptree) (h : heap) : result (Z * option Z) :=
  l ← deref (last_leaf tree) h;
  if (nsize l =? 0)%nat then Ok (-1, None)
  else kv ← get_data l (nsize l - 1); Ok (0, Some kv.2).

(** The loop of [mbptree_leaf_floor]: the last index whose key is not above. *)
Fixpoint floor_loop (n i : nat) (idx key : Z) (nd : mbptree_node) : result Z :=
  match n with
  | O => Ok idx
  | S n =>
    kv ← get_data nd i;
    if kv.1 <=? key then floor_loop n (i + 1) (Z.of_nat i) key nd else Ok idx
  end.

Definition mbptree_leaf_floor (tree : mbptree) (key : Z) (h : heap)
    : result (Z * option mbptree_leaf_iterator * mbptree) :=
  if calloc_struct h then
    let old_val := lock tree in
    let expected_val := Lock 0 (shared_lock old_val) in
    let new_val := Lock (exclusive_lock old_val) (u32 (shared_lock old_val + 1)) in
    if decide (lock tree = expected_val) then
      let tree := set_lock new_val tree in
      leaf0 ← mbptree_find_leaf (walk_fuel h) (root tree) key h;
      let tree := set_lock (Lock (exclusive_lock (lock tree))
                              (u32 (shared_lock (lock tree) - 1))) tree in
      _ ← assertb (negb (leaf0 =? 0));
      l ← deref leaf0 h;
      idx ← floor_loop (nsize l) 0 (-1) key l;
      Ok (0, Some (if idx =? -1 then LeafIterator 0 0
                   else LeafIterator (Z.to_nat idx) leaf0), tree)
    else Ok (ELIDXLK, None, tree)
  else Ok (ELALLC, None, tree).

Definition mbptree_leaf_first (tree : mbptree) (h : heap)
    : result (Z * option mbptree_leaf_iterator * mbptree) :=
  mbptree_leaf_floor tree 0 h.

Definition mbptree_leaf_iterator_valid (it : mbptree_leaf_iterator) (h : heap) : result bool :=
  if it_leaf it =? 0 then Ok false
  else l ← deref (it_leaf it) h; Ok (it_idx it <? nsize l)%nat.

Definition mbptree_leaf_iterator_key (it : mbptree_leaf_iterator) (h : heap) : result Z :=
  l ← deref (it_leaf it) h; kv ← get_data l (it_idx it); Ok kv.1.

Definition mbptree_leaf_iterator_value (it : mbptree_leaf_iterator) (h : heap) : result Z :=
  l ← deref (it_leaf it) h; kv ← get_data l (it_idx it); Ok kv.2.

Definition mbptree_leaf_iterator_next (it : mbptree_leaf_iterator) (h : heap)
    : result mbptree_leaf_iterator :=
  _ ← assertb (negb (it_leaf it =? 0));
  l ← deref (it_leaf it) h;
  let next_idx := (it_idx it + 1)%nat in
  _ ← assertb (next_idx <=? nsize l)%nat;
  if (next_idx =? nsize l)%nat then
    kv ← get_data l (nsize l); Ok (LeafIterator 0 kv.2)
  else Ok (LeafIterator next_idx (it_leaf it)).

(** *** Breadth first iterator *)

(** [iterator->queue[iterator->tail++] = p] *)
Definition bfs_push (p : Z) (it : mbptree_bfs_iterator) : result mbptree_bfs_iterator :=
  _ ← assertb (bfs_tail it <? length (bfs_queue it))%nat;
  Ok (BfsIterator (bfs_head it) (S (bfs_tail it)) (<[bfs_tail it := p]> (bfs_queue it))).

(** [iterator->queue[iterator->head]] *)
Definition bfs_node (it : mbptree_bfs_iterator) : result Z :=
  of_option (bfs_queue it !! bfs_head it).

(** [for (i = 0; i <= node->size; ++i)]: push the children of a node. *)
Fixpoint bfs_push_children (n i : nat) (nd : mbptree_node) (it : mbptree_bfs_iterator)
    : result mbptree_bfs_iterator :=
  match n with
  | O => Ok it
  | S n =>
    kv ← get_data nd i;
    it ← bfs_push kv.2 it;
    bfs_push_children n (i + 1) nd it
  end.

Definition mbptree_bfs_first (tree : mbptree) (h : heap)
    : result (option mbptree_bfs_iterator) :=
  if calloc_struct h then
    it ← bfs_push (root tree) (BfsIterator 0 0 (replicate queue_cells 0));
    node ← bfs_node it;
    nd ← deref node h;
    it ← (if leaf nd =? 0 then bfs_push_children (S (nsize nd)) 0 nd it else Ok it);
    Ok (Some it)
  else Ok None.

Definition mbptree_bfs_iterator_key (it : mbptree_bfs_iterator) (idx : nat) (h : heap)
    : result (Z * option Z) :=
  node ← bfs_node it;
  nd ← deref node h;
  if (idx <? nsize nd)%nat then kv ← get_data nd idx; Ok (0, Some kv.1) else Ok (-1, None).

Definition mbptree_bfs_iterator_next (it : mbptree_bfs_iterator) (h : heap)
    : result mbptree_bfs_iterator :=
  let it := BfsIterator (S (bfs_head it)) (bfs_tail it) (bfs_queue it) in
  node ← bfs_node it;
  if node =? 0 then Ok it
  else
    nd ← deref node h;
    if leaf nd =? 0 then bfs_push_children (S (nsize nd)) 0 nd it else Ok it.

Definition mbptree_bfs_iterator_valid (it : mbptree_bfs_iterator) : bool :=
  (bfs_head it <? bfs_tail it)%nat.

Definition mbptree_bfs_iterator_leaf (it : mbptree_bfs_iterator) (h : heap) : result Z :=
  node ← bfs_node it;
  nd ← deref node h;
  Ok (leaf nd).

End mbptree.
