(* ===== verification/MbptreeInv.v ===== *)
(** * The index tree: its shape and its invariant

    A ghost tree [gtree] says which blocks form the tree: [rep] ties it to the
    heap of [Mbptree], [tree_inv] is the invariant of the structure. *)

From S2P Require Import Prelude Errno Mbptree.

(** ** Ghost trees *)

(** A leaf at an address with its entries; an inner node with its children. *)
Inductive gtree :=
  | GLeaf (l : Z) (kvs : list (Z * Z))
  | GNode (l : Z) (kids : list gtree).

Section gtree_ind.
Context (P : gtree → Prop).
Context (HL : ∀ l kvs, P (GLeaf l kvs)).
Context (HN : ∀ l kids, Forall P kids → P (GNode l kids)).

Fixpoint gtree_ind' (g : gtree) : P g :=
  match g with
  | GLeaf l kvs => HL l kvs
  | GNode l kids =>
    HN l kids ((fix go ks : Forall P ks :=
      match ks with
      | [] => Forall_nil_2 _
      | k :: ks => Forall_cons_2 _ _ _ (gtree_ind' k) (go ks)
      end) kids)
  end.
End gtree_ind.

Definition loc (g : gtree) : Z := match g with GLeaf l _ | GNode l _ => l end.

Fixpoint leaves (g : gtree) : list (Z * list (Z * Z)) :=
  match g with
  | GLeaf l kvs => [(l, kvs)]
  | GNode _ kids => flat_map leaves kids
  end.

Fixpoint locs (g : gtree) : list Z :=
  match g with
  | GLeaf l _ => [l]
  | GNode l kids => l :: flat_map locs kids
  end.

(** The entries, in the order of the leaves. *)
Definition contents (ls : list (Z * list (Z * Z))) : list (Z * Z) := flat_map snd ls.
Definition entries (g : gtree) : list (Z * Z) := contents (leaves g).

(** The first key below a node: the separator a parent keeps for it. *)
Fixpoint min_key (g : gtree) : Z :=
  match g with
  | GLeaf _ kvs => match kvs with [] => 0 | kv :: _ => kv.1 end
  | GNode _ kids => match kids with [] => 0 | k :: _ => min_key k end
  end.

(** What a parent keeps of a child. *)
Definition cell (g : gtree) : Z * Z := (min_key g, loc g).

(** ** Ghost trees in the heap *)

Section rep.
Context (bf : nat).

(** An inner node: all the addresses of its children and their separators,
    but for the first. *)
Definition node_at (h : heap) (p l : Z) (cells : list (Z * Z)) : Prop :=
  ∃ d, h !! l = Some (Node 0 (pred (length cells)) p d) ∧ length d = bf ∧
    take (pred (length cells)) d.*1 = tail cells.*1 ∧
    take (length cells) d.*2 = cells.*2.

(** A leaf: its entries; the cells after the next pointer are still empty. *)
Definition leaf_at (h : heap) (p l : Z) (kvs : list (Z * Z)) : Prop :=
  ∃ d, h !! l = Some (Node 1 (length kvs) p d) ∧ length d = bf ∧
    take (length kvs) d = kvs ∧ Forall (λ kv, kv.2 = 0) (drop (S (length kvs)) d).

Fixpoint rep (h : heap) (p : Z) (g : gtree) : Prop :=
  match g with
  | GLeaf l kvs => leaf_at h p l kvs
  | GNode l kids =>
    node_at h p l (cell <$> kids) ∧ foldr (λ k P, rep h l k ∧ P) True kids
  end.

(** The cell after the entries of a leaf points to the next leaf. *)
Definition next_of (h : heap) (l : Z) : option Z :=
  nd ← h !! l; kv ← data nd !! nsize nd; Some (kv.2).

Fixpoint chain (h : heap) (ls : list Z) : Prop :=
  match ls with
  | [] => True
  | l :: ls => next_of h l = Some (match ls with [] => 0 | l' :: _ => l' end) ∧ chain h ls
  end.

(** Balanced, of height [n], with 2 to [bf] children a node. *)
Fixpoint shape (n : nat) (g : gtree) : Prop :=
  match g, n with
  | GLeaf _ _, O => True
  | GNode _ kids, S n =>
    (2 ≤ length kids ≤ bf)%nat ∧ foldr (λ k P, shape n k ∧ P) True kids
  | _, _ => False
  end.

(** Every leaf is full but for the last, which is empty only if alone. *)
Record packed (ls : list (Z * list (Z * Z))) (last : Z * list (Z * Z)) : Prop := {
  pk_full : Forall (λ l, length l.2 = bf - 1)%nat ls;
  pk_last : (length last.2 ≤ bf - 1)%nat;
  pk_nonempty : ls = [] ∨ last.2 ≠ []
}.

End rep.

Definition ascending (kvs : list (Z * Z)) : Prop := StronglySorted (λ a b, a.1 < b.1) kvs.

Record tree_inv (t : mbptree) (h : heap) (n : nat) (g : gtree) : Prop := {
  ti_bf : (3 ≤ branch_factor t)%nat;
  ti_root : root t = loc g;
  ti_rep : rep (branch_factor t) h 0 g;
  ti_shape : shape (branch_factor t) n g;
  ti_leaves : ∃ ls last, leaves g = ls ++ [last] ∧ packed (branch_factor t) ls last ∧
                last_leaf t = last.1;
  ti_chain : chain h (leaves g).*1;
  ti_nodup : NoDup (locs g);
  ti_dom : ∀ l, l ∈ dom h ↔ l ∈ locs g;
  ti_null : 0 ∉ locs g;
  ti_sorted : ascending (entries g)
}.

(** [tree_stores t h kvs]: the tree holds exactly these entries. *)
Definition tree_stores (t : mbptree) (h : heap) (kvs : list (Z * Z)) : Prop :=
  ∃ n g, tree_inv t h n g ∧ entries g = kvs.

(** ** Right spine

    An append happens along the rightmost path: a frame [(l, kids)] is a node
    with a hole after its children [kids]. *)

Abbreviation frame := (Z * list gtree)%type.

Fixpoint plug (fs : list frame) (g : gtree) : gtree :=
  match fs with
  | [] => g
  | f :: fs => plug fs (GNode f.1 (f.2 ++ [g]))
  end.

(** The parent of the hole. *)
Definition up (fs : list frame) : Z := match fs with [] => 0 | f :: _ => f.1 end.

Fixpoint spine_leaves (fs : list frame) : list (Z * list (Z * Z)) :=
  match fs with
  | [] => []
  | f :: fs => spine_leaves fs ++ flat_map leaves f.2
  end.

Fixpoint spine_locs (fs : list frame) : list Z :=
  match fs with
  | [] => []
  | f :: fs => f.1 :: flat_map locs f.2 ++ spine_locs fs
  end.

Section spine.
Context (bf : nat).

(** The frames in the heap, around a child kept as the cell [c]. *)
Fixpoint spine (h : heap) (fs : list frame) (c : Z * Z) : Prop :=
  match fs with
  | [] => True
  | f :: fs =>
    node_at bf h (up fs) f.1 ((cell <$> f.2) ++ [c]) ∧ Forall (rep bf h f.1) f.2 ∧
    spine h fs (min_key (GNode f.1 f.2), f.1)
  end.

(** Their shape, for a hole of height [n] in a tree of height [m]. *)
Fixpoint spine_shape (m n : nat) (fs : list frame) : Prop :=
  match fs with
  | [] => m = n
  | f :: fs =>
    (1 ≤ length f.2 < bf)%nat ∧ Forall (shape bf n) f.2 ∧ spine_shape m (S n) fs
  end.

End spine.

(** ** Leaves are stable

    The steps that rearrange inner nodes change only the parents of leaves. *)
Definition stable (h h' : heap) : Prop :=
  ∀ l nd, h !! l = Some nd → leaf nd = 1 → ∃ p, h' !! l = Some (set_parent p nd).

(** No leaf is lost and none loses or changes an entry. *)
Definition leaf_kept (h h' : heap) (l : Z) : Prop :=
  ∀ nd, h !! l = Some nd → leaf nd = 1 →
    ∃ nd', h' !! l = Some nd' ∧ leaf nd' = 1 ∧ (nsize nd ≤ nsize nd')%nat ∧
      take (nsize nd) (data nd') = take (nsize nd) (data nd).
Definition leaves_kept (h h' : heap) : Prop := ∀ l, leaf_kept h h' l.

(** No leaf is lost and none shrinks. *)
Definition leaves_grown (h h' : heap) : Prop :=
  ∀ l nd, h !! l = Some nd → leaf nd = 1 →
    ∃ nd', h' !! l = Some nd' ∧ leaf nd' = 1 ∧ (nsize nd ≤ nsize nd')%nat.

(** ** Lemmas *)

Lemma foldr_and {A} (Q : A → Prop) l : foldr (λ k P, Q k ∧ P) True l ↔ Forall Q l.
Proof. induction l as [|x l IH]; simpl; [by rewrite Forall_nil|by rewrite Forall_cons, IH]. Qed.

Lemma flat_map_snoc {A B} (f : A → list B) l x : flat_map f (l ++ [x]) = flat_map f l ++ f x.
Proof. by rewrite flat_map_app; simpl; rewrite app_nil_r. Qed.

Lemma elem_of_flat_map {A B} (f : A → list B) l y :
  y ∈ flat_map f l ↔ ∃ x, x ∈ l ∧ y ∈ f x.
Proof.
  rewrite list_elem_of_In, in_flat_map. by setoid_rewrite list_elem_of_In.
Qed.

Lemma loc_in_locs g : loc g ∈ locs g.
Proof. destruct g; simpl; left. Qed.

Section rep_lemmas.
Context (bf : nat).

Lemma rep_node h p l kids :
  rep bf h p (GNode l kids) ↔ node_at bf h p l (cell <$> kids) ∧ Forall (rep bf h l) kids.
Proof. simpl. by rewrite foldr_and. Qed.

Lemma shape_node n l kids :
  shape bf n (GNode l kids) ↔
  ∃ m, n = S m ∧ (2 ≤ length kids ≤ bf)%nat ∧ Forall (shape bf m) kids.
Proof.
  destruct n; simpl; [naive_solver|]. rewrite foldr_and. naive_solver.
Qed.

Lemma node_at_frame h h' p l cells :
  h' !! l = h !! l → node_at bf h p l cells → node_at bf h' p l cells.
Proof. unfold node_at. by intros ->. Qed.

Lemma rep_frame h h' g : ∀ p,
  (∀ l, l ∈ locs g → h' !! l = h !! l) → rep bf h p g → rep bf h' p g.
Proof.
  induction g as [l kvs|l kids IH] using gtree_ind'; intros p Heq.
  - simpl. unfold leaf_at. rewrite (Heq l); [done|]. simpl. left.
  - rewrite !rep_node. intros [Hn Hk]. split.
    + eapply node_at_frame; [|done]. apply Heq. simpl. left.
    + assert (Heq' : ∀ k, k ∈ kids → ∀ x, x ∈ locs k → h' !! x = h !! x).
      { intros k Hin x Hx. apply Heq. simpl. right. apply elem_of_flat_map. eauto. }
      clear Hn Heq. revert Hk IH. rewrite !Forall_forall. intros Hk IH k Hin.
      apply IH; eauto.
Qed.

Lemma rep_kids_frame h h' p kids :
  (∀ l, l ∈ flat_map locs kids → h' !! l = h !! l) →
  Forall (rep bf h p) kids → Forall (rep bf h' p) kids.
Proof.
  rewrite !Forall_forall. intros Heq Hk k Hin. eapply rep_frame; [|by apply Hk].
  intros l Hl. apply Heq, elem_of_flat_map. eauto.
Qed.

(** A subtree moved below another parent. *)
Lemma rep_reparent h h' p q g :
  NoDup (locs g) → h' !! loc g = set_parent q <$> h !! loc g →
  (∀ l, l ∈ locs g → l ≠ loc g → h' !! l = h !! l) →
  rep bf h p g → rep bf h' q g.
Proof.
  destruct g as [l kvs|l kids]; simpl; intros Hnd Hl Heq.
  - intros (d & Hd & ? & ?). exists d. by rewrite Hl, Hd.
  - rewrite !foldr_and. intros [(d & Hd & ? & ?) Hk]. split.
    + exists d. by rewrite Hl, Hd.
    + apply NoDup_cons in Hnd as [Hni ?]. eapply rep_kids_frame; [|done].
      intros x Hx. apply Heq; [by right|]. by intros ->.
Qed.

Lemma rep_in_heap h p g : rep bf h p g → is_Some (h !! loc g).
Proof. destruct g; simpl; [|intros [? _]; revert H]; intros (d & -> & _); eauto. Qed.

Lemma rep_locs_in_heap h g : ∀ p, rep bf h p g → ∀ l, l ∈ locs g → is_Some (h !! l).
Proof.
  induction g as [l kvs|l kids IH] using gtree_ind'; intros p Hr x Hx.
  - simpl in Hx. apply list_elem_of_singleton in Hx as ->. by apply rep_in_heap in Hr.
  - simpl in Hx. apply elem_of_cons in Hx as [->|Hx]; [by apply rep_in_heap in Hr|].
    apply rep_node in Hr as [_ Hk]. apply elem_of_flat_map in Hx as (k & Hin & Hx).
    rewrite Forall_forall in IH, Hk. eauto.
Qed.

(** *** The right spine *)

Lemma leaves_plug fs : ∀ g, leaves (plug fs g) = spine_leaves fs ++ leaves g.
Proof.
  induction fs as [|[l kids] fs IH]; intros g; simpl; [done|].
  by rewrite IH; simpl; rewrite flat_map_snoc, app_assoc.
Qed.

Lemma locs_plug fs : ∀ g, locs (plug fs g) ≡ₚ spine_locs fs ++ locs g.
Proof.
  induction fs as [|[l kids] fs IH]; intros g; simpl; [done|].
  rewrite IH. simpl. rewrite flat_map_snoc. solve_Permutation.
Qed.

Lemma min_key_app l kids k : kids ≠ [] → min_key (GNode l (kids ++ [k])) = min_key (GNode l kids).
Proof. by destruct kids. Qed.

Lemma min_key_halves l kids kids' :
  kids ≠ [] → min_key (GNode l (kids ++ kids')) = min_key (GNode l kids).
Proof. by destruct kids. Qed.

Lemma shape_plug m fs : ∀ n g,
  spine_shape bf m n fs → shape bf n g → shape bf m (plug fs g).
Proof.
  induction fs as [|[l kids] fs IH]; intros n g; simpl; [by intros ->|].
  intros (? & ? & Hs) ?. apply (IH (S n)); [done|]. apply shape_node. exists n.
  rewrite Forall_app, Forall_singleton, length_app. simpl. split_and!; (done || lia).
Qed.

Lemma rep_plug h fs : ∀ m n g, spine_shape bf m n fs →
  rep bf h 0 (plug fs g) ↔ spine bf h fs (cell g) ∧ rep bf h (up fs) g.
Proof.
  induction fs as [|[l kids] fs IH]; intros m n g; [simpl; tauto|].
  intros (Hk & ? & Hs). cbn [plug fst snd]. rewrite (IH m (S n)) by done. cbn [spine fst snd].
  replace (cell (GNode l (kids ++ [g]))) with (min_key (GNode l kids), l)
    by (unfold cell; f_equal; symmetry; apply min_key_app; intros ->; simpl in Hk; lia).
  rewrite rep_node, fmap_app, Forall_app, Forall_singleton. simpl fmap. simpl up. tauto.
Qed.

Lemma loc_plug_same fs : ∀ g g', loc g = loc g' → loc (plug fs g) = loc (plug fs g').
Proof. induction fs as [|f fs IH]; intros g g' Hl; simpl; [done|]. by apply IH. Qed.

(** Every tree is its last leaf plugged in its right spine. *)
Lemma shape_rightmost n : ∀ g, shape bf n g →
  ∃ fs l kvs, g = plug fs (GLeaf l kvs) ∧ spine_shape bf n 0 fs.
Proof.
  cut (∀ n g m fs, shape bf n g → spine_shape bf m n fs →
    ∃ fs' l kvs, plug fs g = plug fs' (GLeaf l kvs) ∧ spine_shape bf m 0 fs').
  { intros Hcut g Hg. by apply (Hcut n g n []). }
  clear n. induction n as [|n IH]; intros [l kvs|l kids] m fs Hg Hs; [by eauto|done|done|].
  apply shape_node in Hg as (? & [= <-] & ? & Hk).
  destruct kids as [|kid kids _] using rev_ind; [simpl in *; lia|].
  apply Forall_app in Hk as [Hk Hkid]. rewrite Forall_singleton in Hkid.
  rewrite length_app in *. simpl in *.
  apply (IH kid m ((l, kids) :: fs)); [done|]. simpl. split_and!; (done || lia).
Qed.

Lemma spine_frame h h' fs : ∀ c,
  (∀ l, l ∈ spine_locs fs → h' !! l = h !! l) → spine bf h fs c → spine bf h' fs c.
Proof.
  induction fs as [|[l kids] fs IH]; intros c; simpl; [done|].
  setoid_rewrite elem_of_cons. setoid_rewrite elem_of_app.
  intros Heq (? & ? & ?). split_and!.
  - eapply node_at_frame; [|done]. eauto.
  - eapply rep_kids_frame; [|done]. eauto.
  - eauto.
Qed.

End rep_lemmas.

(** ** Stability *)

#[export] Instance stable_preorder : PreOrder stable.
Proof.
  split.
  - intros h l nd Hl _. exists (parent nd). by destruct nd.
  - intros h1 h2 h3 H12 H23 l nd Hl Hlf. destruct (H12 l nd) as [p Hp]; [done..|].
    destruct (H23 _ _ Hp) as [q Hq]; [done|]. exists q. by rewrite Hq.
Qed.

Lemma stable_next h h' l nd :
  stable h h' → h !! l = Some nd → leaf nd = 1 → next_of h' l = next_of h l.
Proof.
  intros Hs Hl Hlf. destruct (Hs l nd Hl Hlf) as [p Hp]. unfold next_of. by rewrite Hl, Hp.
Qed.

Lemma stable_insert h l nd nd' :
  h !! l = Some nd → leaf nd ≠ 1 → stable h (<[l := nd']> h).
Proof.
  intros Hl Hlf l' nd0 Hl' Hlf'. exists (parent nd0).
  rewrite lookup_insert_ne by congruence. rewrite Hl'. by destruct nd0.
Qed.

Lemma stable_alloc h l nd : h !! l = None → stable h (<[l := nd]> h).
Proof.
  intros Hl l' nd0 Hl' Hlf'. exists (parent nd0).
  rewrite lookup_insert_ne by congruence. rewrite Hl'. by destruct nd0.
Qed.

Lemma stable_set_parent h l nd p :
  h !! l = Some nd → stable h (<[l := set_parent p nd]> h).
Proof.
  intros Hl l' nd0 Hl' Hlf'. destruct (decide (l' = l)) as [->|].
  - exists p. rewrite lookup_insert_eq. congruence.
  - exists (parent nd0). rewrite lookup_insert_ne by done. rewrite Hl'. by destruct nd0.
Qed.

Lemma stable_kept h h' : stable h h' → leaves_kept h h'.
Proof. intros Hs l nd Hl Hlf. destruct (Hs l nd Hl Hlf) as [p Hp]. by exists (set_parent p nd). Qed.

#[export] Instance leaves_kept_preorder : PreOrder leaves_kept.
Proof.
  split.
  - intros h l nd Hl Hlf. by exists nd.
  - intros h1 h2 h3 H12 H23 l nd Hl Hlf. destruct (H12 l nd Hl Hlf) as (nd' & Hl' & Hlf' & Hle & Hd).
    destruct (H23 l nd' Hl' Hlf') as (nd2 & Hl2 & Hlf2 & Hle2 & Hd2). exists nd2. split_and!; (done || lia || idtac).
    apply (f_equal (take (nsize nd))) in Hd2. rewrite !take_take, Nat.min_l in Hd2 by done. congruence.
Qed.

Lemma kept_grown h h' : leaves_kept h h' → leaves_grown h h'.
Proof. intros Hk l nd Hl Hlf. destruct (Hk l nd Hl Hlf) as (nd' & ? & ? & ? & _). by exists nd'. Qed.

#[export] Instance leaves_grown_reflexive : Reflexive leaves_grown.
Proof. intros h l nd Hl Hlf. by exists nd. Qed.

Lemma leaf_at_kept bf h h' p p' l kvs kvs' :
  leaf_at bf h p l kvs → leaf_at bf h' p' l kvs' → kvs `prefix_of` kvs' → leaf_kept h h' l.
Proof.
  intros (d & Hd & _ & Hk & _) (d' & Hd' & _ & Hk' & _) [ks ->] nd Hl _. rewrite Hd in Hl. injection Hl as <-.
  exists (Node 1 (length (kvs ++ ks)) p' d'). rewrite length_app in *. simpl. split_and!; (done || lia || idtac).
  apply (f_equal (take (length kvs))) in Hk'. rewrite take_take, Nat.min_l, take_app_length in Hk' by lia. congruence.
Qed.

Lemma fresh_kept h h' l : h !! l = None → leaf_kept h h' l.
Proof. intros Hn nd Hl. congruence. Qed.

Lemma kept_leaves h h' ls :
  (∀ x, x ∉ ls → h' !! x = h !! x) → Forall (leaf_kept h h') ls →
  leaves_kept h h'.
Proof.
  rewrite Forall_forall. intros Hfr Hls l nd Hl Hlf. destruct (decide (l ∈ ls)) as [Hin|Hni]; [by apply Hls|].
  exists nd. by rewrite Hfr.
Qed.
