(* ===== verification/MbptreeOps.v ===== *)
(** * The index tree: its operations on ghost trees

    What the loads, stores and loops of [Mbptree] do to the nodes of
    [MbptreeInv]. *)

From S2P Require Import Prelude Errno Mbptree MbptreeInv.

(** ** Blocks *)

Lemma deref_Ok h p nd : h !! p = Some nd → deref p h = Ok nd.
Proof. unfold deref. by intros ->. Qed.

Lemma update_Ok h p f nd nd' :
  h !! p = Some nd → f nd = Ok nd' → update p f h = Ok (<[p := nd']> h).
Proof. unfold update. intros Hp Hf. by run (deref_Ok _ _ _ Hp); run Hf. Qed.

Lemma assign_parent_Ok h p q nd :
  h !! p = Some nd → assign_parent p q h = Ok (<[p := set_parent q nd]> h).
Proof. intros Hp. by apply (update_Ok _ _ _ nd). Qed.

Lemma get_data_Ok lf n p d i kv : d !! i = Some kv → get_data (Node lf n p d) i = Ok kv.
Proof. unfold get_data. simpl. by intros ->. Qed.

Lemma put_data_Ok lf n p d i kv :
  (i < length d)%nat → put_data i kv (Node lf n p d) = Ok (Node lf n p (<[i := kv]> d)).
Proof. intros Hi. unfold put_data. simpl. by rewrite (proj2 (Nat.ltb_lt _ _)). Qed.

(** The two columns of an array of cells. *)
Lemma put_key_Ok lf n p d i k :
  (i < length d)%nat → ∃ d', put_key i k (Node lf n p d) = Ok (Node lf n p d') ∧
    length d' = length d ∧ d'.*1 = <[i := k]> d.*1 ∧ d'.*2 = d.*2.
Proof.
  intros Hi. destruct (lookup_lt_is_Some_2 d i Hi) as [kv Hkv].
  exists (<[i := (k, kv.2)]> d). unfold put_key. run (get_data_Ok _ _ _ _ _ _ Hkv).
  rewrite put_data_Ok, length_insert, !list_fmap_insert by done. split_and!; [done..|].
  simpl. apply list_insert_id. by rewrite list_lookup_fmap, Hkv.
Qed.

Lemma put_value_Ok lf n p d i v :
  (i < length d)%nat → ∃ d', put_value i v (Node lf n p d) = Ok (Node lf n p d') ∧
    length d' = length d ∧ d'.*1 = d.*1 ∧ d'.*2 = <[i := v]> d.*2.
Proof.
  intros Hi. destruct (lookup_lt_is_Some_2 d i Hi) as [kv Hkv].
  exists (<[i := (kv.1, v)]> d). unfold put_value. run (get_data_Ok _ _ _ _ _ _ Hkv).
  rewrite put_data_Ok, length_insert, !list_fmap_insert by done. split_and!; [done..| |done].
  simpl. apply list_insert_id. by rewrite list_lookup_fmap, Hkv.
Qed.

Lemma take_S_insert {A} (l : list A) i x :
  (i < length l)%nat → take (S i) (<[i := x]> l) = take i l ++ [x].
Proof.
  intros Hi. rewrite (take_S_r _ _ x) by (by apply list_lookup_insert_eq).
  by rewrite take_insert_ge.
Qed.

(** ** Adding a child *)

Lemma push_child_ok bf h p l cells k c :
  node_at bf h p l cells → (1 ≤ length cells < bf)%nat →
  ∃ nd, push_child l k c h = Ok (<[l := nd]> h) ∧ leaf nd = 0 ∧
    node_at bf (<[l := nd]> h) p l (cells ++ [(k, c)]).
Proof.
  destruct cells as [|c0 cells]; simpl length; [lia|].
  intros (d & Hl & Hlen & Hk & Hv) Hn. unfold push_child. simpl pred in *.
  set (n := length cells) in *.
  destruct (put_key_Ok 0 n p d n k) as (d1 & Hd1 & Hl1 & Hk1 & Hv1); [lia|].
  rewrite (update_Ok _ _ _ _ (Node 0 (S n) p d1) Hl) by (simpl; by rewrite Hd1).
  rewrite bind_Ok.
  destruct (put_value_Ok 0 (S n) p d1 (S n) c) as (d2 & Hd2 & Hl2 & Hk2 & Hv2); [lia|].
  exists (Node 0 (S n) p d2). split_and!; [|done|].
  - erewrite update_Ok; [|by rewrite lookup_insert_eq|exact Hd2]. by rewrite insert_insert_eq.
  - exists d2. rewrite lookup_insert_eq, length_app, !fmap_app. simpl length. fold n.
    replace (S n + 1)%nat with (S (S n)) by lia. simpl pred.
    split_and!; [done|congruence| |].
    + rewrite Hk2, Hk1, take_S_insert by len. by rewrite Hk.
    + rewrite Hv2, Hv1, take_S_insert by len. change (length (c0 :: cells)) with (S n) in Hv. by rewrite Hv.
Qed.

(** ** Moving half of a node *)

Section move.
Context (lhs rhs : Z) (Hne : lhs ≠ rhs).

Lemma move_keys_ok m : ∀ fuel i j n p q dl dr h,
  h !! lhs = Some (Node 0 n p dl) → h !! rhs = Some (Node 0 j q dr) →
  n = (i + m)%nat → (m ≤ fuel)%nat →
  (n ≤ length dl)%nat → (j + m ≤ length dr)%nat →
  ∃ dl' dr', move_keys fuel i lhs rhs h =
      Ok (<[rhs := Node 0 (j + m) q dr']> (<[lhs := Node 0 n p dl']> h)) ∧
    length dl' = length dl ∧ dl'.*2 = dl.*2 ∧ take i dl'.*1 = take i dl.*1 ∧
    length dr' = length dr ∧ dr'.*2 = dr.*2 ∧
    take (j + m) dr'.*1 = take j dr.*1 ++ take m (drop i dl.*1).
Proof using Hne.
  induction m as [|m IH]; intros fuel i j n p q dl dr h Hl Hr Hn Hf Hdl Hdr.
  - exists dl, dr. rewrite (insert_id _ _ _ Hl), Nat.add_0_r, (insert_id _ _ _ Hr), take_0, app_nil_r.
    split_and!; try done. destruct fuel; simpl; run (deref_Ok _ _ _ Hl); simpl;
      by rewrite (proj2 (Nat.ltb_ge _ _)) by lia.
  - destruct fuel as [|fuel]; [lia|]. simpl. run (deref_Ok _ _ _ Hl). simpl nsize.
    rewrite (proj2 (Nat.ltb_lt _ _)) by lia.
    destruct (lookup_lt_is_Some_2 dl i) as [[k v] Hkv]; [lia|].
    run (get_data_Ok _ _ _ _ _ _ Hkv).
    destruct (put_key_Ok 0 j q dr j k) as (dr1 & Hd1 & Hl1 & Hk1 & Hv1); [lia|].
    rewrite (update_Ok _ _ _ _ (Node 0 (S j) q dr1) Hr) by (simpl; by rewrite Hd1).
    rewrite bind_Ok.
    destruct (put_key_Ok 0 n p dl i 0) as (dl1 & He1 & Hm1 & Hj1 & Hw1); [lia|].
    rewrite (update_Ok _ lhs _ (Node 0 n p dl) _) by (first [exact He1|by rewrite lookup_insert_ne]).
    rewrite bind_Ok.
    destruct (IH fuel (i + 1) (S j) n p q dl1 dr1 (<[lhs := Node 0 n p dl1]> (<[rhs := Node 0 (S j) q dr1]> h)))%nat
      as (dl' & dr' & Hrun & Hll & Hlv & Hlk & Hrl & Hrv & Hrk); try lia.
    { by rewrite lookup_insert_eq. }
    { by rewrite lookup_insert_ne, lookup_insert_eq. }
    exists dl', dr'. rewrite Hrun. replace (S j + m)%nat with (j + S m)%nat in * by lia.
    split_and!; try congruence.
    + f_equal. apply map_eq. intros x.
      destruct (decide (x = rhs)) as [->|]; [by rewrite !lookup_insert_eq|].
      destruct (decide (x = lhs)) as [->|]; by simplify_map_eq.
    + apply (f_equal (take i)) in Hlk. rewrite !take_take, !Nat.min_l in Hlk by lia.
      rewrite Hlk, Hj1. apply take_insert_ge. lia.
    + rewrite Hrk, Hk1, take_S_insert, <- app_assoc by len. simpl. do 2 f_equal.
      rewrite (drop_S dl.*1 k i) by (by rewrite list_lookup_fmap, Hkv). simpl. f_equal.
      rewrite Hj1, drop_insert_lt by lia. do 2 f_equal. lia.
Qed.

(** One turn of the loop over the values. *)
Lemma move_values_turn fuel i j n r p q dl dr h v ndv :
  h !! lhs = Some (Node 0 n p dl) → h !! rhs = Some (Node 0 r q dr) →
  (i ≤ n)%nat → (n < length dl)%nat → (j < length dr)%nat → dl.*2 !! i = Some v →
  v ≠ lhs → v ≠ rhs → h !! v = Some ndv →
  ∃ dl1 dr1 h1, move_values (S fuel) i j lhs rhs h = move_values fuel (i + 1) (j + 1) lhs rhs h1 ∧
    h1 !! lhs = Some (Node 0 n p dl1) ∧ h1 !! rhs = Some (Node 0 r q dr1) ∧ h1 !! v = Some (set_parent rhs ndv) ∧
    (∀ x, x ≠ lhs → x ≠ rhs → x ≠ v → h1 !! x = h !! x) ∧
    length dl1 = length dl ∧ dl1.*1 = dl.*1 ∧ dl1.*2 = <[i := 0]> dl.*2 ∧
    length dr1 = length dr ∧ dr1.*1 = dr.*1 ∧ dr1.*2 = <[j := v]> dr.*2.
Proof using Hne.
  intros Hl Hr Hi Hdl Hdr Hv Hvl Hvr Hndv. simpl. run (deref_Ok _ _ _ Hl). simpl nsize.
  rewrite (proj2 (Nat.leb_le _ _)) by lia. rewrite list_lookup_fmap in Hv.
  destruct (dl !! i) as [[k v0]|] eqn:Hkv; [|done]. injection Hv as ->.
  run (get_data_Ok _ _ _ _ _ _ Hkv).
  destruct (put_value_Ok 0 r q dr j v) as (dr1 & Hd1 & Hl1 & Hk1 & Hv1); [lia|].
  cbn [fst snd]. rewrite (update_Ok _ _ _ _ _ Hr Hd1), bind_Ok.
  destruct (put_value_Ok 0 n p dl i 0) as (dl1 & He1 & Hm1 & Hj1 & Hw1); [lia|].
  rewrite (update_Ok _ lhs _ (Node 0 n p dl) _) by (first [exact He1|by rewrite lookup_insert_ne]).
  rewrite bind_Ok, (deref_Ok _ rhs (Node 0 r q dr1)), bind_Ok
    by (by rewrite lookup_insert_ne, lookup_insert_eq).
  assert (∃ k', dr1 !! j = Some (k', v)) as [k' Hk'].
  { assert (dr1.*2 !! j = Some v) as Hj by (rewrite Hv1, list_lookup_insert_eq; [done|len]).
    rewrite list_lookup_fmap in Hj. destruct (dr1 !! j) as [[k' v']|] eqn:E; simplify_eq/=. eauto. }
  run (get_data_Ok _ _ _ _ _ _ Hk').
  rewrite (assign_parent_Ok _ v rhs ndv), bind_Ok by (by rewrite !lookup_insert_ne).
  exists dl1, dr1. eexists. split; [done|]. split_and!; try done; [by simplify_map_eq..|].
  intros x ? ? ?. by rewrite !lookup_insert_ne.
Qed.

Lemma move_values_ok m : ∀ fuel i j n r p q dl dr h,
  h !! lhs = Some (Node 0 n p dl) → h !! rhs = Some (Node 0 r q dr) →
  S n = (i + m)%nat → (m ≤ fuel)%nat →
  (S n ≤ length dl)%nat → (j + m ≤ length dr)%nat →
  let vs := take m (drop i dl.*2) in
  NoDup vs → (∀ c, c ∈ vs → c ≠ lhs ∧ c ≠ rhs ∧ is_Some (h !! c)) →
  ∃ dl' dr' h', move_values fuel i j lhs rhs h = Ok h' ∧
    h' !! lhs = Some (Node 0 n p dl') ∧ h' !! rhs = Some (Node 0 r q dr') ∧
    (∀ c, c ∈ vs → h' !! c = set_parent rhs <$> h !! c) ∧
    (∀ l, l ≠ lhs → l ≠ rhs → l ∉ vs → h' !! l = h !! l) ∧
    length dl' = length dl ∧ dl'.*1 = dl.*1 ∧ take i dl'.*2 = take i dl.*2 ∧
    length dr' = length dr ∧ dr'.*1 = dr.*1 ∧
    take (j + m) dr'.*2 = take j dr.*2 ++ vs.
Proof using Hne.
  induction m as [|m IH]; intros fuel i j n r p q dl dr h Hl Hr Hn Hf Hdl Hdr vs Hnd Hvs.
  - exists dl, dr, h. subst vs. rewrite take_0, app_nil_r, Nat.add_0_r.
    split_and!; try done; [|by intros ? ?%not_elem_of_nil].
    destruct fuel; simpl; run (deref_Ok _ _ _ Hl); simpl;
      by rewrite (proj2 (Nat.leb_gt _ _)) by lia.
  - destruct fuel as [|fuel]; [lia|].
    destruct (lookup_lt_is_Some_2 dl.*2 i) as [v Hv]; [len|].
    assert (Hvs' : vs = v :: take m (drop (S i) dl.*2)) by (subst vs; by rewrite (drop_S dl.*2 v i)).
    clearbody vs. subst vs. apply NoDup_cons in Hnd as [Hvn Hnd].
    destruct (Hvs v) as (Hvl & Hvr & [ndv Hndv]); [left|].
    destruct (move_values_turn fuel i j n r p q dl dr h v ndv) as
      (dl1 & dr1 & h1 & -> & Hl1 & Hr1 & Hv1 & Hfr1 & Hm1 & Hj1 & Hw1 & Hn1 & Hk1 & Hz1); try (done || lia).
    destruct (IH fuel (i + 1) (j + 1) n r p q dl1 dr1 h1)%nat
      as (dl' & dr' & h' & Hrun & Hll & Hrr & Hmv & Hfr & Hlen1 & Hlk & Hlv & Hlen2 & Hrk & Hrv);
      try (done || lia).
    { replace (i + 1)%nat with (S i) by lia. by rewrite Hw1, drop_insert_lt by lia. }
    { intros c. replace (i + 1)%nat with (S i) by lia. rewrite Hw1, drop_insert_lt by lia.
      intros Hc. destruct (Hvs c) as (? & ? & ?); [by right|]. split_and!; [done..|].
      rewrite Hfr1; congruence. }
    replace (i + 1)%nat with (S i) in * by lia. replace (j + 1 + m)%nat with (j + S m)%nat in * by lia.
    rewrite Hw1, drop_insert_lt in Hmv, Hfr, Hrv by lia.
    exists dl', dr', h'. split_and!; try (done || congruence).
    + intros c. rewrite elem_of_cons. intros [->|Hc]; [by rewrite Hfr, Hv1, Hndv|].
      rewrite Hmv by done. destruct (Hvs c) as (? & ? & _); [by right|]. rewrite Hfr1; congruence.
    + intros l ? ?. rewrite not_elem_of_cons. intros [? ?]. by rewrite Hfr, Hfr1.
    + apply (f_equal (take i)) in Hlv. rewrite !take_take, !Nat.min_l in Hlv by lia.
      rewrite Hlv, Hw1. apply take_insert_ge. lia.
    + rewrite Hrv, Hz1. replace (j + 1)%nat with (S j) by lia.
      rewrite take_S_insert, <- app_assoc by len. done.
Qed.
End move.

(** The separators and the addresses of the right half go to [rhs]; its nodes
    get [rhs] as their parent. *)
Lemma move_half_ok tree h p lhs rhs cells1 k c cells2 dr (bf := branch_factor tree) :
  node_at bf h p lhs (cells1 ++ (k, c) :: cells2) →
  length cells1 = S (mbptree_midpoint tree) → (length cells1 + length cells2 < bf)%nat →
  h !! rhs = Some (Node 0 0 p dr) → length dr = bf → lhs ≠ rhs →
  NoDup (c :: cells2.*2) →
  (∀ x, x ∈ c :: cells2.*2 → x ≠ lhs ∧ x ≠ rhs ∧ is_Some (h !! x)) →
  ∃ h', mbptree_move_half_node tree lhs rhs h = Ok (k, h') ∧
    node_at bf h' p lhs cells1 ∧ node_at bf h' p rhs ((k, c) :: cells2) ∧
    (∀ x, x ∈ c :: cells2.*2 → h' !! x = set_parent rhs <$> h !! x) ∧
    (∀ x, x ≠ lhs → x ≠ rhs → x ∉ c :: cells2.*2 → h' !! x = h !! x).
Proof.
  intros (dl & Hl & Hdl & Hk & Hv) Hc1 Hlt Hr Hdr Hne Hnd Hcs.
  destruct cells1 as [|c0 cells1]; [done|]. injection Hc1 as Hc1.
  rewrite length_app in *. simpl in *. set (m := length cells2) in *.
  unfold mbptree_move_half_node. fold bf. rewrite <- Hc1.
  set (n := (length cells1 + S m)%nat) in *. simpl pred in *.
  run (deref_Ok _ _ _ Hl). run (deref_Ok _ _ _ Hr). simpl. rewrite Z.eqb_refl. simpl.
  assert (Hkn : dl.*1 !! length cells1 = Some k).
  { rewrite <- (lookup_take_lt _ n), Hk, fmap_app by lia. simpl.
    by rewrite lookup_app_r, length_fmap, Nat.sub_diag by (by rewrite length_fmap). }
  rewrite list_lookup_fmap in Hkn. destruct (dl !! length cells1) as [kv|] eqn:Hkv; [|done].
  injection Hkn as Hkn. run (get_data_Ok _ _ _ _ _ _ Hkv).
  destruct (move_keys_ok lhs rhs Hne m bf (length cells1 + 1) 0 n p p dl dr h)%nat
    as (dl1 & dr1 & Hrun & Hl1 & Hlv1 & Hlk1 & Hr1 & Hrv1 & Hrk1); [done|done|lia..|].
  run Hrun. simpl in *.
  set (h1 := <[rhs := _]> _).
  assert (Hvs : take (S m) (drop (length cells1 + 1) dl1.*2) = c :: cells2.*2).
  { rewrite Hlv1, take_drop_commute. replace (length cells1 + 1 + S m)%nat with (S n) by lia.
    rewrite Hv, fmap_app. simpl. rewrite Nat.add_1_r. simpl. by rewrite drop_app_length' by len. }
  destruct (move_values_ok lhs rhs Hne (S m) bf (length cells1 + 1) 0 n m p p dl1 dr1 h1)%nat
    as (dl2 & dr2 & h2 & Hrun2 & Hll2 & Hrr2 & Hmv & Hfr & Hlen2 & Hlk2 & Hlv2 & Hlen2' & Hrk2 & Hrv2);
    try lia; rewrite ?Hvs; try done.
  { subst h1. by rewrite lookup_insert_ne, lookup_insert_eq. }
  { subst h1. by rewrite lookup_insert_eq. }
  { intros x Hx. destruct (Hcs x Hx) as (? & ? & ?). split_and!; [done..|].
    subst h1. by rewrite !lookup_insert_ne. }
  rewrite Hvs in Hmv, Hfr, Hrv2.
  run Hrun2. rewrite (update_Ok _ _ (λ nd, Ok (set_nsize (length cells1) nd)) _ _ Hll2 eq_refl), bind_Ok, Hkn. simpl.
  exists (<[lhs := Node 0 (length cells1) p dl2]> h2). split_and!; [done|..].
  - exists dl2. simpl. rewrite lookup_insert_eq. split_and!; [done|congruence|..].
    + rewrite Hlk2. apply (f_equal (take (length cells1))) in Hlk1.
      rewrite !take_take, !Nat.min_l in Hlk1 by lia. rewrite Hlk1.
      apply (f_equal (take (length cells1))) in Hk. rewrite take_take, Nat.min_l in Hk by lia.
      rewrite Hk, fmap_app. by rewrite take_app_length' by len.
    + rewrite Nat.add_1_r in Hlv2. rewrite Hlv2, Hlv1.
      apply (f_equal (take (S (length cells1)))) in Hv. rewrite take_take, Nat.min_l in Hv by lia.
      rewrite Hv, fmap_app. simpl. by rewrite take_app_length' by len.
  - exists dr2. rewrite lookup_insert_ne, Hrr2 by done. simpl. fold m.
    split_and!; [done|congruence| |done]. rewrite Hrk2, Hrk1.
    rewrite take_drop_commute. replace (length cells1 + 1 + m)%nat with n by lia.
    rewrite Hk, fmap_app. simpl. rewrite (cons_middle k), app_assoc.
    by rewrite drop_app_length' by (rewrite length_app, length_fmap; simpl; lia).
  - intros x Hx. destruct (Hcs x Hx) as (? & ? & ?).
    rewrite lookup_insert_ne, Hmv by done. subst h1. by rewrite !lookup_insert_ne.
  - intros x ? ? ?. rewrite lookup_insert_ne, Hfr by done. subst h1. by rewrite !lookup_insert_ne.
Qed.

(** ** Splitting a full node around a new child *)

Lemma kid_root_unique kids k k' x :
  NoDup (flat_map locs kids) → k ∈ kids → k' ∈ kids → x ∈ locs k → x = loc k' → x = loc k.
Proof.
  induction kids as [|k0 kids IH]; intros Hnd Hk Hk' Hx ->; [by apply not_elem_of_nil in Hk|].
  simpl in Hnd. apply NoDup_app in Hnd as (? & Hd & ?).
  assert (Hin : ∀ k y, k ∈ kids → y ∈ locs k → y ∈ flat_map locs kids).
  { intros ? y ? ?. apply elem_of_flat_map. eauto. }
  apply elem_of_cons in Hk as [->|Hk], Hk' as [->|Hk']; [done|..].
  - destruct (Hd (loc k')); [done|]. eapply Hin; [done|]. apply loc_in_locs.
  - destruct (Hd (loc k0)); [apply loc_in_locs|]. by eapply Hin.
  - by apply IH.
Qed.

Lemma snd_cells kids : (cell <$> kids).*2 = loc <$> kids.
Proof. by rewrite <- list_fmap_compose. Qed.

Lemma loc_in_kids_locs kids x : x ∈ loc <$> kids → x ∈ flat_map locs kids.
Proof.
  intros (k & -> & ?)%list_elem_of_fmap. apply elem_of_flat_map. exists k. eauto using loc_in_locs.
Qed.

Lemma NoDup_kid_roots kids : NoDup (flat_map locs kids) → NoDup (loc <$> kids).
Proof.
  induction kids as [|k kids IH]; simpl; [by constructor|].
  rewrite NoDup_app. intros (? & Hd & ?). constructor; [|by apply IH].
  intros ?%loc_in_kids_locs. by apply (Hd (loc k)); [apply loc_in_locs|].
Qed.

Lemma NoDup_kid kids k : NoDup (flat_map locs kids) → k ∈ kids → NoDup (locs k).
Proof.
  intros Hnd (l1 & l2 & ->)%list_elem_of_split. rewrite flat_map_app in Hnd. simpl in Hnd.
  apply NoDup_app in Hnd as (_ & _ & Hnd). by apply NoDup_app in Hnd as (? & _).
Qed.

Lemma move_stable h h' (lhs rhs : Z) (cs : list Z) :
  (∀ nd, h !! lhs = Some nd → leaf nd = 0) → (∀ nd, h !! rhs = Some nd → leaf nd = 0) →
  (∀ x, x ∈ cs → h' !! x = set_parent rhs <$> h !! x) →
  (∀ x, x ≠ lhs → x ≠ rhs → x ∉ cs → h' !! x = h !! x) → stable h h'.
Proof.
  intros Hl Hr Hcs Hfr x nd Hx Hlf.
  destruct (decide (x ∈ cs)) as [Hin|Hni].
  - exists rhs. by rewrite Hcs, Hx.
  - exists (parent nd). rewrite Hfr, Hx; [by destruct nd|..|done].
    + intros ->. rewrite (Hl _ Hx) in Hlf. done.
    + intros ->. rewrite (Hr _ Hx) in Hlf. done.
Qed.

Section split.
Context (tree : mbptree) (bf := branch_factor tree).

Lemma midpoint_below : (3 ≤ bf)%nat → (S (mbptree_midpoint tree) < bf)%nat.
Proof using Type.
  intros Hbf. unfold mbptree_midpoint. fold bf. pose proof (Nat.div2_odd bf). destruct (Nat.odd bf); simpl in *; lia.
Qed.

(** Moving half of the children of [p] to [q]. *)
Lemma move_kids_ok h pp p q kids dr :
  (3 ≤ bf)%nat →
  node_at bf h pp p (cell <$> kids) → length kids = bf → Forall (rep bf h p) kids →
  h !! q = Some (Node 0 0 pp dr) → length dr = bf → p ≠ q →
  NoDup (flat_map locs kids) → p ∉ flat_map locs kids → q ∉ flat_map locs kids →
  ∃ kids1 kids2 h', kids = kids1 ++ kids2 ∧ length kids1 = S (mbptree_midpoint tree) ∧
    kids2 ≠ [] ∧ mbptree_move_half_node tree p q h = Ok (min_key (GNode q kids2), h') ∧
    node_at bf h' pp p (cell <$> kids1) ∧ node_at bf h' pp q (cell <$> kids2) ∧
    Forall (rep bf h' p) kids1 ∧ Forall (rep bf h' q) kids2 ∧
    (∀ x, x ≠ p → x ≠ q → x ∉ flat_map locs kids → h' !! x = h !! x) ∧ stable h h'.
Proof.
  intros Hbf Hn Hlen Hk Hq Hdr Hne Hnd Hp Hq'.
  set (mid := mbptree_midpoint tree). pose proof (midpoint_below Hbf) as Hmid. fold mid in Hmid.
  rewrite <- (take_drop (S mid) kids) in *.
  assert (Hlen1 : length (take (S mid) kids) = S mid) by (rewrite length_app in Hlen; len).
  assert (Hlen2 : length (drop (S mid) kids) ≠ O) by (rewrite length_app in Hlen; lia).
  generalize dependent (take (S mid) kids). generalize dependent (drop (S mid) kids).
  clear kids. intros kids2 Hne2 kids1 Hn Hlen Hk Hnd Hp Hq' Hlen1.
  destruct kids2 as [|k0 kids2]; [done|]. clear Hne2.
  exists kids1, (k0 :: kids2).
  rewrite flat_map_app in *. apply NoDup_app in Hnd as (Hnd1 & Hd12 & Hnd2).
  rewrite not_elem_of_app in Hp, Hq'. destruct Hp as [Hp1 Hp2], Hq' as [Hq1 Hq2]. apply Forall_app in Hk as [Hk1 Hk2].
  assert (Hsnd : loc k0 :: (cell <$> kids2).*2 = loc <$> k0 :: kids2) by (by rewrite snd_cells).
  assert (Hroots : ∀ x, x ∈ loc <$> k0 :: kids2 → x ≠ p ∧ x ≠ q ∧ x ∉ flat_map locs kids1).
  { intros x Hx%loc_in_kids_locs. split_and!; [by intros ->|by intros ->|].
    intros Hx1. by apply (Hd12 x). }
  destruct (move_half_ok tree h pp p q (cell <$> kids1) (min_key k0) (loc k0) (cell <$> kids2) dr)
    as (h' & Hrun & Hn1 & Hn2 & Hmv & Hfr).
  { by rewrite fmap_app in Hn. }
  { by rewrite length_fmap. }
  { rewrite !length_fmap. rewrite length_app in Hlen. simpl in Hlen. fold bf. lia. }
  { done. } { done. } { done. }
  { rewrite Hsnd. by apply NoDup_kid_roots. }
  { rewrite Hsnd. intros x Hx. destruct (Hroots x Hx) as (? & ? & ?). split_and!; [done..|].
    apply list_elem_of_fmap in Hx as (k & -> & Hx). rewrite Forall_forall in Hk2.
    eapply rep_in_heap; eauto. }
  rewrite Hsnd in Hmv, Hfr. exists h'. split_and!; try done.
  - eapply rep_kids_frame; [|done]. intros x Hx. apply Hfr.
    + by intros ->.
    + by intros ->.
    + intros ?%loc_in_kids_locs. by apply (Hd12 x).
  - rewrite Forall_forall in Hk2 |- *. intros k Hin.
    assert (Hlk : ∀ x, x ∈ locs k → x ∈ flat_map locs (k0 :: kids2)).
    { intros. apply elem_of_flat_map. eauto. }
    eapply rep_reparent; [|by apply Hmv, list_elem_of_fmap_2| |by apply Hk2].
    + by eapply NoDup_kid.
    + intros x Hx Hxk. apply Hfr.
      * intros ->. by apply Hp2, Hlk.
      * intros ->. by apply Hq2, Hlk.
      * intros (k' & ? & ?)%list_elem_of_fmap. apply Hxk.
        by eapply (kid_root_unique (k0 :: kids2) k k').
  - intros x ? ?. rewrite not_elem_of_app. intros [? Hx]. apply Hfr; [done..|].
    by intros ?%loc_in_kids_locs.
  - destruct Hn as (d & Hd & _). eapply move_stable; [..|exact Hmv|exact Hfr]; intros nd Hnd';
      simplify_eq; done.
Qed.

(** What both splits do once the new node [q] is there: [q] takes half of the
    children of [p], and the new child. *)
Lemma split_ok h pp p q kids child dr :
  (3 ≤ bf)%nat →
  node_at bf h pp p (cell <$> kids) → length kids = bf → Forall (rep bf h p) kids →
  rep bf h p child →
  h !! q = Some (Node 0 0 pp dr) → length dr = bf →
  NoDup (q :: p :: flat_map locs kids ++ locs child) →
  ∃ kids1 kids2 h1 h2 h', kids = kids1 ++ kids2 ∧ length kids1 = S (mbptree_midpoint tree) ∧
    kids2 ≠ [] ∧ mbptree_move_half_node tree p q h = Ok (min_key (GNode q kids2), h1) ∧
    push_child q (min_key child) (loc child) h1 = Ok h2 ∧
    assign_parent (loc child) q h2 = Ok h' ∧
    rep bf h' pp (GNode p kids1) ∧ rep bf h' pp (GNode q (kids2 ++ [child])) ∧
    (∀ x, x ∉ q :: p :: flat_map locs kids ++ locs child → h' !! x = h !! x) ∧ stable h h'.
Proof.
  intros Hbf Hn Hlen Hk Hc Hq Hdr Hnd.
  apply NoDup_cons in Hnd as [Hqni Hnd]. apply NoDup_cons in Hnd as [Hpni Hnd].
  rewrite not_elem_of_cons, not_elem_of_app in Hqni. destruct Hqni as (Hne & Hqk & Hqc).
  rewrite not_elem_of_app in Hpni. destruct Hpni as (Hpk & Hpc).
  apply NoDup_app in Hnd as (Hndk & Hdisj & Hndc).
  destruct (move_kids_ok h pp p q kids dr) as
    (kids1 & kids2 & h1 & Hkids & Hlen1 & Hne2 & Hrun & Hn1 & Hn2 & Hk1 & Hk2 & Hfr & Hst);
    try done.
  assert (Hc1 : rep bf h1 p child).
  { eapply rep_frame; [|done]. intros x Hx. apply Hfr; [by intros ->..|].
    intros Hxk. by apply (Hdisj x). }
  assert (Hlen2 : (1 ≤ length kids2 < bf)%nat).
  { destruct kids2; [done|]. rewrite Hkids, length_app in Hlen. simpl in *. lia. }
  destruct (push_child_ok bf h1 pp q (cell <$> kids2) (min_key child) (loc child))
    as (ndq & Hpush & Hlf & Hn2'); [done|by rewrite length_fmap|].
  set (h2 := <[q := ndq]> h1) in *.
  assert (Hfr2 : ∀ x, x ≠ q → h2 !! x = h1 !! x) by (intros; by apply lookup_insert_ne).
  assert (Hc2 : rep bf h2 p child) by (eapply rep_frame; [|done]; intros; apply Hfr2; by intros ->).
  destruct (rep_in_heap _ _ _ _ Hc2) as [ndc Hat].
  set (h3 := <[loc child := set_parent q ndc]> h2).
  assert (Hfr3 : ∀ x, x ≠ loc child → h3 !! x = h2 !! x) by (intros; by apply lookup_insert_ne).
  pose proof (loc_in_locs child) as Hlc.
  rewrite Hkids, flat_map_app in *.
  exists kids1, kids2, h1, h2, h3. split_and!; try done.
  - by apply assign_parent_Ok.
  - apply rep_node. split.
    + eapply node_at_frame; [|done]. rewrite Hfr3, Hfr2; [done..|by intros ->].
    + eapply rep_kids_frame; [|done]. intros x Hx. rewrite Hfr3, Hfr2; [done|..].
      * intros ->. apply Hqk, elem_of_app. by left.
      * intros ->. apply (Hdisj (loc child)); [|done]. apply elem_of_app. by left.
  - apply rep_node. rewrite fmap_app, Forall_app, Forall_singleton. split_and!.
    + eapply node_at_frame; [|done]. apply Hfr3. by intros ->.
    + eapply rep_kids_frame; [|done]. intros x Hx. rewrite Hfr3, Hfr2; [done|..].
      * intros ->. apply Hqk, elem_of_app. by right.
      * intros ->. apply (Hdisj (loc child)); [|done]. apply elem_of_app. by right.
    + eapply rep_reparent; [exact Hndc|..|exact Hc2].
      * unfold h3. by rewrite lookup_insert_eq, Hat.
      * intros x Hx ?. by apply Hfr3.
  - intros x. rewrite !not_elem_of_cons, not_elem_of_app. intros (? & ? & ? & ?).
    rewrite Hfr3, Hfr2, Hfr; (done || by intros ->).
  - transitivity h1; [done|]. destruct Hn2 as (d2 & Hd2 & _).
    transitivity h2; [by eapply stable_insert|]. by apply stable_set_parent.
Qed.

End split.

(** ** Inserting a child at the end of the right spine *)

(** A node [p] with its children, in the hole of [fs], and a new child for it. *)
Record growing (bf : nat) (h : heap) (m n : nat) (fs : list frame) (p : Z) (kids : list gtree)
    (child : gtree) : Prop := {
  gr_spine : spine bf h fs (min_key (GNode p kids), p);
  gr_node : node_at bf h (up fs) p (cell <$> kids);
  gr_kids : Forall (rep bf h p) kids;
  gr_child : rep bf h p child;
  gr_sshape : spine_shape bf m (S n) fs;
  gr_len : (2 ≤ length kids ≤ bf)%nat;
  gr_kshape : Forall (shape bf n) kids;
  gr_cshape : shape bf n child;
  gr_nodup : NoDup (p :: flat_map locs kids ++ locs child ++ spine_locs fs);
  gr_dom : ∀ l, l ∈ dom h ↔ l ∈ p :: flat_map locs kids ++ locs child ++ spine_locs fs;
  gr_null : 0 ∉ p :: flat_map locs kids ++ locs child ++ spine_locs fs
}.

Record grown (bf : nat) (h : heap) (g : gtree) : Prop := {
  gw_rep : rep bf h 0 g;
  gw_shape : ∃ m, shape bf m g;
  gw_nodup : NoDup (locs g);
  gw_dom : ∀ l, l ∈ dom h ↔ l ∈ locs g;
  gw_null : 0 ∉ locs g
}.

Lemma dom_locs bf (h h' : heap) p g (L : list Z) :
  rep bf h' p g → (∀ l, l ∈ dom h ↔ l ∈ L) → (∀ l, l ∈ L → l ∈ locs g) →
  (∀ l, l ∉ locs g → h' !! l = h !! l) → ∀ l, l ∈ dom h' ↔ l ∈ locs g.
Proof.
  intros Hrep Hdom HL Hfr l. rewrite elem_of_dom. split.
  - intros [nd Hnd]. destruct (decide (l ∈ locs g)) as [|Hni]; [done|].
    apply HL, Hdom, elem_of_dom. exists nd. by rewrite <- Hfr.
  - by apply (rep_locs_in_heap bf h' g p).
Qed.

Lemma dom_change (h h' : heap) (L M L' : list Z) :
  (∀ l, l ∈ dom h ↔ l ∈ L) → (∀ l, l ∉ M → h' !! l = h !! l) →
  (∀ l, l ∈ M → is_Some (h' !! l)) → (∀ l, l ∈ L' ↔ l ∈ L ∨ l ∈ M) →
  ∀ l, l ∈ dom h' ↔ l ∈ L'.
Proof.
  intros Hdom Hfr HM HL l. rewrite HL, <- Hdom, !elem_of_dom.
  destruct (decide (l ∈ M)) as [|Hni]; [naive_solver|]. rewrite Hfr by done. tauto.
Qed.

(** There is room in [p]. *)
Lemma grow_push bf h m n fs p kids child :
  growing bf h m n fs p kids child → (length kids < bf)%nat →
  ∃ nd, push_child p (min_key child) (loc child) h = Ok (<[p := nd]> h) ∧
    grown bf (<[p := nd]> h) (plug fs (GNode p (kids ++ [child]))) ∧ stable h (<[p := nd]> h).
Proof.
  intros [Hsp Hn Hk Hc Hss Hlen Hks Hcs Hnd Hdom Hnull] Hlt.
  destruct (push_child_ok bf h (up fs) p (cell <$> kids) (min_key child) (loc child))
    as (nd & Hpush & Hlf & Hn'); [done|rewrite length_fmap; lia|].
  exists nd. split; [done|].
  apply NoDup_cons in Hnd as [Hp Hnd]. rewrite !not_elem_of_app in Hp.
  destruct Hp as (Hpk & Hpc & Hps).
  assert (Hfr : ∀ x, x ≠ p → <[p := nd]> h !! x = h !! x) by (intros; by apply lookup_insert_ne).
  assert (Hlocs : locs (plug fs (GNode p (kids ++ [child]))) ≡ₚ
    p :: flat_map locs kids ++ locs child ++ spine_locs fs).
  { rewrite locs_plug. simpl. rewrite flat_map_snoc. solve_Permutation. }
  assert (Hrep : rep bf (<[p := nd]> h) 0 (plug fs (GNode p (kids ++ [child])))).
  { apply (rep_plug bf _ fs m (S n)); [done|]. rewrite rep_node, fmap_app, Forall_app, Forall_singleton.
    split_and!.
    - eapply spine_frame; [intros; apply Hfr; by intros ->|]. unfold cell. 
      by rewrite min_key_app by (by intros ->; simpl in Hlen; lia).
    - done.
    - eapply rep_kids_frame; [|done]. intros; apply Hfr; by intros ->.
    - eapply rep_frame; [|done]. intros; apply Hfr; by intros ->. }
  split; [split|].
  - done.
  - exists m. eapply shape_plug; [done|]. apply shape_node. exists n.
    rewrite length_app, Forall_app, Forall_singleton. simpl. split_and!; (done || lia).
  - rewrite Hlocs. apply NoDup_cons. by rewrite !not_elem_of_app.
  - eapply dom_locs; [done|exact Hdom|by intros l; rewrite Hlocs|].
    intros l Hl. apply Hfr. intros ->. apply Hl. rewrite Hlocs. left.
  - by rewrite Hlocs.
  - destruct Hn as (d & Hd & _). by eapply stable_insert.
Qed.

Lemma midpoint_pos tree : (3 ≤ branch_factor tree)%nat → (1 ≤ mbptree_midpoint tree)%nat.
Proof.
  unfold mbptree_midpoint. intros. pose proof (Nat.div2_odd (branch_factor tree)).
  destruct (Nat.odd (branch_factor tree)); simpl Nat.b2n in *; lia.
Qed.

(** The halves of a full node. *)
Section halves.
Context (tree : mbptree) (bf := branch_factor tree) (p q : Z) (kids1 kids2 : list gtree) (child : gtree).

Lemma halves_shape n :
  (3 ≤ bf)%nat → length (kids1 ++ kids2) = bf → length kids1 = S (mbptree_midpoint tree) →
  kids2 ≠ [] → Forall (shape bf n) (kids1 ++ kids2) → shape bf n child →
  shape bf (S n) (GNode p kids1) ∧ shape bf (S n) (GNode q (kids2 ++ [child])).
Proof.
  intros Hbf Hlen Hlen1 Hne Hk Hc. apply Forall_app in Hk as [Hk1 Hk2].
  pose proof (midpoint_pos tree Hbf).
  assert (length kids2 ≠ O) by (by destruct kids2). rewrite length_app in Hlen.
  split; apply shape_node; exists n;
    rewrite ?Forall_app, ?Forall_singleton, ?length_app; simpl; split_and!; (done || lia).
Qed.

Lemma halves_locs :
  locs (GNode p kids1) ++ locs (GNode q (kids2 ++ [child])) ≡ₚ
  q :: p :: flat_map locs (kids1 ++ kids2) ++ locs child.
Proof. simpl. rewrite flat_map_snoc, flat_map_app. solve_Permutation. Qed.

Lemma halves_leaves :
  leaves (GNode p kids1) ++ leaves (GNode q (kids2 ++ [child])) =
  flat_map leaves (kids1 ++ kids2) ++ leaves child.
Proof. simpl. by rewrite flat_map_snoc, flat_map_app, !app_assoc. Qed.

Lemma join_halves h R ndR :
  kids2 ≠ [] →
  node_at bf (<[R := ndR]> h) 0 R [(min_key (GNode p kids1), p); (min_key (GNode q kids2), q)] →
  rep bf h R (GNode p kids1) → rep bf h R (GNode q (kids2 ++ [child])) →
  R ∉ locs (GNode p kids1) ++ locs (GNode q (kids2 ++ [child])) →
  rep bf (<[R := ndR]> h) 0 (GNode R [GNode p kids1; GNode q (kids2 ++ [child])]).
Proof.
  rewrite not_elem_of_app. intros Hne Hn Hp Hq [HRp HRq].
  rewrite <- (min_key_app q kids2 child) in Hn by done.
  apply rep_node. split; [done|]. rewrite Forall_cons, Forall_singleton.
  split; (eapply rep_frame; [|done]); intros x Hx; apply lookup_insert_ne; by intros <-.
Qed.
End halves.

Lemma node_at_reparent bf h p l nd q cells :
  node_at bf h p l cells → h !! l = Some nd → node_at bf (<[l := set_parent q nd]> h) q l cells.
Proof.
  intros (d & Hd & ? & ?) ?. simplify_eq. exists d. by rewrite lookup_insert_eq.
Qed.

Lemma fresh_not_in (h : heap) (L : list Z) l :
  (∀ x, x ∈ dom h ↔ x ∈ L) → h !! l = None → l ∉ L.
Proof. intros Hdom Hl Hin. apply Hdom, elem_of_dom in Hin as [? ?]. congruence. Qed.

(** Two blocks allocated, and the old root moved below the first. *)
Lemma new_blocks_frame (h : heap) R q p ndR ndq ndp L :
  (∀ x, x ∈ dom h ↔ x ∈ p :: L) → p ∉ L →
  h !! R = None → <[R := ndR]> h !! q = None →
  let h' := <[p := ndp]> (<[q := ndq]> (<[R := ndR]> h)) in
  q ∉ p :: L ∧ R ∉ q :: p :: L ∧ h' !! R = Some ndR ∧ h' !! q = Some ndq ∧
  (∀ x, x ∈ L → h' !! x = h !! x) ∧ (∀ x, x ∉ R :: q :: p :: L → h' !! x = h !! x).
Proof.
  intros Hdom HpL HR Hq h'.
  assert (HqR : q ≠ R) by (intros ->; by rewrite lookup_insert_eq in Hq).
  rewrite lookup_insert_ne in Hq by done.
  assert (HpR : R ∉ p :: L) by (by eapply fresh_not_in).
  assert (Hpq : q ∉ p :: L) by (by eapply fresh_not_in).
  subst h'. rewrite !not_elem_of_cons in *. destruct HpR, Hpq. split_and!; try done.
  - by simplify_map_eq.
  - by simplify_map_eq.
  - intros x Hx. rewrite !lookup_insert_ne; [done|..]; by intros <-.
  - intros x. rewrite !not_elem_of_cons. intros (? & ? & ? & ?). by rewrite !lookup_insert_ne.
Qed.

Section insert.
Context (calloc : heap → option Z).
Context (calloc_fresh : ∀ h l, calloc h = Some l → l ≠ 0 ∧ h !! l = None).

Lemma create_node_ok bf p h :
  (calloc h = None ∧ mbptree_create_node calloc bf p h = (0, h)) ∨
  ∃ l, l ≠ 0 ∧ h !! l = None ∧
    mbptree_create_node calloc bf p h = (l, <[l := Node 0 0 p (replicate bf (0, 0))]> h).
Proof using calloc_fresh.
  unfold mbptree_create_node. destruct (calloc h) as [l|] eqn:E; [right|by left].
  destruct (calloc_fresh _ _ E). by exists l.
Qed.

(** An insertion fails for want of memory, or gives a tree with these leaves
    whose old leaves are unchanged. *)
Definition inserted (tree : mbptree) (ls : list (Z * list (Z * Z))) (h : heap)
    (r : result (Z * mbptree * heap)) : Prop :=
  ∃ r' tree' h', r = Ok (r', tree', h') ∧
    ((r' = 0 ∧ tree' = tree ∧ ∃ h0, calloc h0 = None) ∨
     ∃ g', r' = loc g' ∧ tree' = set_root (loc g') tree ∧ leaves g' = ls ∧
       grown (branch_factor tree) h' g' ∧ stable h h').

Lemma inserted_failed tree ls h h' h0 :
  calloc h0 = None → inserted tree ls h (Ok (0, tree, h')).
Proof. intros ?. exists 0, tree, h'. split; [done|]. left. by eauto. Qed.

(** The new root above the halves of the old one. *)
Lemma new_root_ok bf h R p q k d :
  h !! R = Some (Node 0 0 0 d) → length d = bf → (2 ≤ bf)%nat →
  ∃ h1 nd, update R (λ nd, put_value (nsize nd) p nd) h = Ok h1 ∧
    push_child R k q h1 = Ok (<[R := nd]> h) ∧ leaf nd = 0 ∧
    ∀ k0, node_at bf (<[R := nd]> h) 0 R [(k0, p); (k, q)].
Proof.
  intros HR Hd Hbf. destruct (put_value_Ok 0 0 0 d 0 p) as (d1 & Hd1 & Hl1 & Hk1 & Hv1); [lia|].
  exists (<[R := Node 0 0 0 d1]> h).
  assert (Hn : ∀ k0, node_at bf (<[R := Node 0 0 0 d1]> h) 0 R [(k0, p)]).
  { intros k0. exists d1. rewrite lookup_insert_eq. simpl. split_and!; [done|congruence|done|].
    by rewrite Hv1, take_S_insert by len. }
  destruct (push_child_ok _ _ _ _ _ k q (Hn 0)) as (nd & Hpush & Hlf & Hn'); [simpl; lia|].
  rewrite insert_insert_eq in Hpush, Hn'. exists nd. split_and!; try done.
  by apply (update_Ok _ _ _ (Node 0 0 0 d)).
Qed.

(** The tree below the new root. *)
Lemma root_grown tree (h h' : heap) R q p kids1 kids2 child n ndR (bf := branch_factor tree)
    (L := flat_map locs (kids1 ++ kids2) ++ locs child)
    (g := GNode R [GNode p kids1; GNode q (kids2 ++ [child])]) :
  (3 ≤ bf)%nat → length (kids1 ++ kids2) = bf → length kids1 = S (mbptree_midpoint tree) → kids2 ≠ [] →
  Forall (shape bf n) (kids1 ++ kids2) → shape bf n child →
  NoDup (R :: q :: p :: L) → 0 ∉ R :: q :: p :: L → (∀ l, l ∈ dom h ↔ l ∈ p :: L) →
  (∀ x, x ∉ R :: q :: p :: L → h' !! x = h !! x) →
  rep bf h' R (GNode p kids1) → rep bf h' R (GNode q (kids2 ++ [child])) →
  node_at bf (<[R := ndR]> h') 0 R [(min_key (GNode p kids1), p); (min_key (GNode q kids2), q)] →
  grown bf (<[R := ndR]> h') g.
Proof using Type.
  intros Hbf Hlen Hlen1 Hne2 Hks Hcs Hnd Hnull Hdom Hfr Hrp Hrq HnR.
  pose proof (halves_locs p q kids1 kids2 child) as Hlocs. fold L in Hlocs.
  set (g1 := GNode p kids1) in *. set (g2 := GNode q (kids2 ++ [child])) in *.
  assert (Hlocs' : locs g ≡ₚ R :: q :: p :: L).
  { change (locs g) with (R :: locs g1 ++ locs g2 ++ []). by rewrite app_nil_r, Hlocs. }
  assert (Hrep : rep bf (<[R := ndR]> h') 0 g).
  { apply join_halves; [done|exact HnR|done|done|]. fold g1 g2. rewrite Hlocs. by apply NoDup_cons in Hnd as [? _]. }
  split; [done| | | |]; rewrite ?Hlocs'; [|done| |done].
  - exists (S (S n)). apply shape_node. exists (S n). rewrite Forall_cons, Forall_singleton.
    destruct (halves_shape tree p q kids1 kids2 child n); [done..|]. split_and!; simpl; (done || lia).
  - eapply (dom_locs _ h _ 0 g); [done|exact Hdom|..].
    + intros l Hl. rewrite Hlocs'. by do 2 right.
    + intros l. rewrite Hlocs'. intros Hl. rewrite lookup_insert_ne by (intros <-; apply Hl; left). by apply Hfr.
Qed.

Lemma grow_root tree h m n p kids child :
  (3 ≤ branch_factor tree)%nat → growing (branch_factor tree) h m n [] p kids child →
  length kids = branch_factor tree → root tree = p →
  inserted tree (flat_map leaves kids ++ leaves child) h
    (mbptree_split_root calloc tree p (min_key child) (loc child) h).
Proof using calloc_fresh.
  set (bf := branch_factor tree). intros Hbf [_ Hn Hk Hc _ Hlen Hks Hcs Hnd Hdom Hnull] Hfull Hroot.
  unfold mbptree_split_root. rewrite Hroot, Z.eqb_refl. simpl assertb. rewrite bind_Ok. fold bf.
  destruct (create_node_ok bf 0 h) as [[? ->]|(R & HR0 & HRn & ->)];
    [by eapply inserted_failed|]. rewrite (proj2 (Z.eqb_neq _ _)) by done.
  set (h1 := <[R := _]> h).
  destruct (create_node_ok bf R h1) as [[? ->]|(q & Hq0 & Hqn & ->)];
    [by eapply inserted_failed|]. rewrite (proj2 (Z.eqb_neq _ _)) by done.
  set (h2 := <[q := _]> h1).
  simpl spine_locs in *. rewrite app_nil_r in *. simpl up in *.
  set (L := flat_map locs kids ++ locs child) in *.
  destruct (rep_in_heap bf h 0 (GNode p kids)) as [ndp Hndp]; [by apply rep_node|]. simpl in Hndp.
  pose proof Hnd as [HpL _]%NoDup_cons.
  destruct (new_blocks_frame h R q p _ (Node 0 0 R (replicate bf (0, 0))) (set_parent R ndp) L
    Hdom HpL HRn Hqn) as (Hqni & HRni & HR3 & Hq3 & HL3 & Hfr3).
  assert (Hp2 : h2 !! p = Some ndp).
  { subst h1 h2. rewrite !not_elem_of_cons in *. by rewrite !lookup_insert_ne by naive_solver. }
  run (assign_parent_Ok _ _ R _ Hp2). fold h1 h2 in HR3, Hq3, HL3, Hfr3.
  assert (Hn3 : node_at bf (<[p := set_parent R ndp]> h2) R p (cell <$> kids)).
  { eapply node_at_reparent; [|done]. eapply node_at_frame; [|done]. by rewrite Hp2. }
  set (h3 := <[p := _]> h2) in *.
  destruct (split_ok tree h3 R p q kids child (replicate bf (0, 0))) as
    (kids1 & kids2 & h4 & h5 & h6 & -> & Hlen1 & Hne2 & Hrun1 & Hrun2 & Hrun3 & Hrp & Hrq &
     Hfr & Hst); [done|done|done| | |exact Hq3|apply length_replicate| |].
  { eapply rep_kids_frame; [|done]. intros x Hx. apply HL3, elem_of_app. by left. }
  { eapply rep_frame; [|done]. intros x Hx. apply HL3, elem_of_app. by right. }
  { by apply NoDup_cons. }
  run Hrun1. cbn iota beta. run Hrun2. run Hrun3.
  assert (HR6 := HR3). rewrite <- Hfr in HR6 by exact HRni.
  destruct (new_root_ok bf h6 R p q (min_key (GNode q kids2)) _ HR6 (length_replicate _ _))
    as (h7 & ndR & Hrun4 & Hrun5 & HlfR & HnR); [lia|].
  run Hrun4. run Hrun5.
  exists R, (set_root R tree), (<[R := ndR]> h6). split; [done|]. right.
  exists (GNode R [GNode p kids1; GNode q (kids2 ++ [child])]). split_and!; [done..| | |].
  - rewrite <- (halves_leaves p q kids1 kids2 child). simpl. by rewrite !app_nil_r.
  - apply (root_grown tree h h6 R q p kids1 kids2 child n); try done; [by rewrite !NoDup_cons in *| |].
    + rewrite !not_elem_of_cons in *. naive_solver.
    + intros x Hx. rewrite Hfr by (intros ?; apply Hx; by right). by apply Hfr3.
  - transitivity h1; [by apply stable_alloc|]. transitivity h2; [by apply stable_alloc|].
    transitivity h3; [by apply stable_set_parent|]. transitivity h6; [done|]. by eapply stable_insert.
Qed.

(** What [mbptree_append_node] and [mbptree_append_leaf] do at the parent [p]. *)
Definition insert_at (fuel : nat) (tree : mbptree) (p key child : Z) (h : heap)
    : result (Z * mbptree * heap) :=
  pn ← deref p h;
  full ← mbptree_node_full tree pn;
  if negb full then h ← push_child p key child h; Ok (root tree, tree, h)
  else if mbptree_is_root pn then mbptree_split_root calloc tree p key child h
  else mbptree_split_node calloc fuel tree p key child h.

Lemma insert_room tree fs fuel h m n p kids child :
  growing (branch_factor tree) h m n fs p kids child → (length kids < branch_factor tree)%nat →
  root tree = loc (plug fs (GNode p kids)) →
  inserted tree (spine_leaves fs ++ flat_map leaves kids ++ leaves child) h
    (insert_at fuel tree p (min_key child) (loc child) h).
Proof.
  intros Hg Hlt Hroot. pose proof (gr_node _ _ _ _ _ _ _ _ Hg) as (d & Hd & _).
  pose proof (gr_len _ _ _ _ _ _ _ _ Hg) as Hlen.
  unfold insert_at. run (deref_Ok _ _ _ Hd). unfold mbptree_node_full. simpl nsize.
  rewrite length_fmap, (proj2 (Nat.ltb_lt _ _)), (proj2 (Nat.leb_gt _ _)) by lia. simpl negb.
  destruct (grow_push _ _ _ _ _ _ _ _ Hg Hlt) as (nd & Hpush & Hgr & Hst).
  simpl assertb. rewrite !bind_Ok. cbn iota. run Hpush.
  assert (Hl : loc (plug fs (GNode p (kids ++ [child]))) = root tree) by
    (rewrite Hroot; by apply loc_plug_same).
  eexists _, _, _. split; [done|]. right. eexists. split_and!; [..|exact Hgr|exact Hst].
  - done.
  - rewrite Hl. by destruct tree.
  - rewrite leaves_plug. simpl. by rewrite flat_map_snoc.
Qed.

Lemma insert_full tree fs fuel h m n p kids child :
  (1 ≤ branch_factor tree)%nat →
  growing (branch_factor tree) h m n fs p kids child → length kids = branch_factor tree →
  insert_at fuel tree p (min_key child) (loc child) h =
    if up fs =? 0 then mbptree_split_root calloc tree p (min_key child) (loc child) h
    else mbptree_split_node calloc fuel tree p (min_key child) (loc child) h.
Proof.
  intros Hbf Hg Hlen. pose proof (gr_node _ _ _ _ _ _ _ _ Hg) as (d & Hd & _).
  unfold insert_at. run (deref_Ok _ _ _ Hd). unfold mbptree_node_full. simpl nsize.
  rewrite length_fmap, Hlen, (proj2 (Nat.ltb_lt _ _)), (proj2 (Nat.leb_le _ _)) by lia. done.
Qed.

Lemma up_not_null bf h m n pp kids' fs p kids child :
  growing bf h m n ((pp, kids') :: fs) p kids child → pp ≠ 0.
Proof.
  intros Hg%gr_null ->. apply Hg. simpl. rewrite !elem_of_cons, !elem_of_app, elem_of_cons. tauto.
Qed.

(** After a split, the tree grows one level up. *)
Lemma grow_up bf h h' m n pp kids' fs p q kids1 kids2 child :
  growing bf h m n ((pp, kids') :: fs) p (kids1 ++ kids2) child → kids1 ≠ [] → kids2 ≠ [] →
  h !! q = None → q ≠ 0 →
  rep bf h' pp (GNode p kids1) → rep bf h' pp (GNode q (kids2 ++ [child])) →
  shape bf (S n) (GNode p kids1) → shape bf (S n) (GNode q (kids2 ++ [child])) →
  (∀ x, x ∉ q :: p :: flat_map locs (kids1 ++ kids2) ++ locs child → h' !! x = h !! x) →
  growing bf h' m (S n) fs pp (kids' ++ [GNode p kids1]) (GNode q (kids2 ++ [child])).
Proof.
  intros [(Hpn & Hpk & Hsp) Hn Hk Hc (Hkl & Hks' & Hss) Hlen Hks Hcs Hnd Hdom Hnull]
    Hne1 Hne2 Hqn Hq0 Hrp Hrq Hsp1 Hsq1 Hfr.
  cbn [fst snd spine_locs] in *.
  pose proof (fresh_not_in _ _ _ Hdom Hqn) as Hq.
  pose proof (halves_locs p q kids1 kids2 child) as Hl.
  set (g1 := GNode p kids1) in *. set (g2 := GNode q (kids2 ++ [child])) in *.
  set (M := flat_map locs (kids1 ++ kids2) ++ locs child) in *.
  set (U := pp :: flat_map locs kids' ++ spine_locs fs) in *.
  assert (HL : pp :: flat_map locs (kids' ++ [g1]) ++ locs g2 ++ spine_locs fs ≡ₚ (q :: p :: M) ++ U).
  { rewrite <- Hl, flat_map_snoc. subst U. solve_Permutation. }
  assert (HMU : q :: p :: flat_map locs (kids1 ++ kids2) ++ locs child ++ U = (q :: p :: M) ++ U)
    by (subst M; simpl; by rewrite <- app_assoc).
  assert (Hnd' : NoDup ((q :: p :: M) ++ U)) by (rewrite <- HMU; by apply NoDup_cons).
  assert (HU : ∀ x, x ∈ U → h' !! x = h !! x).
  { intros x Hx. apply Hfr. intros Hx'. apply NoDup_app in Hnd' as (_ & Hd & _). by apply (Hd x). }
  assert (Hkl' : kids' ≠ []) by (intros ->; simpl in Hkl; lia).
  split; try done; rewrite ?HL.
  - rewrite min_key_app by done. eapply spine_frame; [|done]. intros x Hx. apply HU.
    right. apply elem_of_app. by right.
  - rewrite fmap_app. eapply node_at_frame; [apply HU; left|].
    subst g1. simpl. unfold cell at 2. by rewrite <- (min_key_halves p kids1 kids2) by done.
  - rewrite Forall_app, Forall_singleton. split; [|done]. eapply rep_kids_frame; [|done].
    intros x Hx. apply HU. right. apply elem_of_app. by left.
  - rewrite length_app. simpl. lia.
  - by rewrite Forall_app, Forall_singleton.
  - done.
  - eapply (dom_change h h'  _ (q :: p :: M)); [exact Hdom|done|..].
    + intros x. rewrite <- Hl, elem_of_app. intros [?|?].
      * by eapply (rep_locs_in_heap bf h' g1).
      * by eapply (rep_locs_in_heap bf h' g2).
    + intros x. rewrite HL, <- HMU, !elem_of_cons, !elem_of_app. subst M. rewrite !elem_of_app. tauto.
  - rewrite <- HMU, elem_of_cons. by intros [<-|?].
Qed.

(** The parent is full and has a parent: half of it moves to the new node [q],
    to insert above. *)
Lemma grow_split tree h m n pp kids' fs p kids child fuel :
  (3 ≤ branch_factor tree)%nat →
  growing (branch_factor tree) h m n ((pp, kids') :: fs) p kids child →
  length kids = branch_factor tree →
  let r := mbptree_split_node calloc (S (S fuel)) tree p (min_key child) (loc child) h in
  (∃ h' h0, r = Ok (0, tree, h') ∧ calloc h0 = None) ∨
  ∃ kids1 kids2 q h', kids = kids1 ++ kids2 ∧ kids1 ≠ [] ∧ stable h h' ∧
    growing (branch_factor tree) h' m (S n) fs pp (kids' ++ [GNode p kids1])
      (GNode q (kids2 ++ [child])) ∧
    r = insert_at fuel tree pp (min_key (GNode q (kids2 ++ [child]))) q h'.
Proof using calloc_fresh.
  set (bf := branch_factor tree).
  intros Hbf Hg Hfull r. pose proof (up_not_null _ _ _ _ _ _ _ _ _ _ Hg) as Hpp0.
  pose proof Hg as [(Hpn & Hpk & Hsp) Hn Hk Hc (Hkl & Hks' & Hss) Hlen Hks Hcs Hnd Hdom Hnull].
  subst r. simpl in Hpn, Hpk, Hsp, Hn, Hkl, Hks'.
  pose proof Hn as (d & Hd & Hdl & _). cbn [mbptree_split_node]. run (deref_Ok _ _ _ Hd).
  unfold mbptree_node_full. simpl nsize.
  rewrite length_fmap, Hfull, (proj2 (Nat.ltb_lt _ _)), (proj2 (Nat.leb_le _ _)) by (fold bf; lia).
  simpl assertb. rewrite !bind_Ok.
  unfold mbptree_is_root. simpl parent. rewrite (proj2 (Z.eqb_neq _ _)) by done.
  simpl assertb. rewrite !bind_Ok. fold bf.
  destruct (create_node_ok bf pp h) as [[? ->]|(q & Hq0 & Hqn & ->)]; [left; eauto|right].
  rewrite (proj2 (Z.eqb_neq _ _)) by done. set (h1 := <[q := _]> h).
  assert (Hq : q ∉ p :: flat_map locs kids ++ locs child ++ pp :: flat_map locs kids' ++ spine_locs fs)
    by (by eapply fresh_not_in).
  set (U := pp :: flat_map locs kids' ++ spine_locs fs) in *.
  assert (Hnd1 : NoDup (q :: p :: flat_map locs kids ++ locs child)).
  { cut (NoDup ((q :: p :: flat_map locs kids ++ locs child) ++ U)); [by intros [? _]%NoDup_app|].
    simpl. rewrite <- app_assoc. by apply NoDup_cons. }
  assert (Hin1 : ∀ x, x ∈ p :: flat_map locs kids ++ locs child → h1 !! x = h !! x).
  { intros x Hx. apply lookup_insert_ne. intros <-. by apply NoDup_cons in Hnd1 as [? _]. }
  destruct (split_ok tree h1 pp p q kids child (replicate bf (0, 0))) as
    (kids1 & kids2 & h4 & h5 & h6 & -> & Hlen1 & Hne2 & Hrun1 & Hrun2 & Hrun3 & Hrp & Hrq &
     Hfr & Hst); try done.
  { eapply node_at_frame; [|done]. apply Hin1. left. }
  { eapply rep_kids_frame; [|done]. intros x Hx. apply Hin1. right. apply elem_of_app. by left. }
  { eapply rep_frame; [|done]. intros x Hx. apply Hin1. right. apply elem_of_app. by right. }
  { by apply lookup_insert_eq. }
  { apply length_replicate. }
  assert (Hne1 : kids1 ≠ []) by (by destruct kids1).
  exists kids1, kids2, q, h6. split_and!; try done.
  - transitivity h1; [by apply stable_alloc|done].
  - destruct (halves_shape tree p q kids1 kids2 child n); [done..|].
    eapply (grow_up bf h h6 m n); try done.
    intros x Hx. rewrite Hfr by done. apply lookup_insert_ne. intros <-. apply Hx. left.
  - run Hrun1. cbn iota beta. run Hrun2. run Hrun3.
    rewrite min_key_app by done.
    pose proof Hrq as [(d' & Hd' & _) _]. cbn [mbptree_append_node]. run (deref_Ok _ _ _ Hd').
    unfold mbptree_is_root. simpl parent. rewrite (proj2 (Z.eqb_neq _ _)) by done. done.
Qed.

Lemma insert_ok tree fs : ∀ fuel h m n p kids child,
  (3 ≤ branch_factor tree)%nat → growing (branch_factor tree) h m n fs p kids child →
  root tree = loc (plug fs (GNode p kids)) → (2 * length fs ≤ fuel)%nat →
  inserted tree (spine_leaves fs ++ flat_map leaves kids ++ leaves child) h
    (insert_at fuel tree p (min_key child) (loc child) h).
Proof using calloc_fresh.
  induction fs as [|[pp kids'] fs IH]; intros fuel h m n p kids child Hbf Hg Hroot Hfuel;
    pose proof (gr_len _ _ _ _ _ _ _ _ Hg) as Hlen;
    (destruct (decide (length kids = branch_factor tree)) as [Hfull|];
     [|by eapply insert_room; [|lia|]]); rewrite (insert_full tree _ _ _ _ _ _ _ _ ltac:(lia) Hg Hfull).
  - by eapply grow_root.
  - pose proof (up_not_null _ _ _ _ _ _ _ _ _ _ Hg) as Hpp0. simpl up. rewrite (proj2 (Z.eqb_neq _ _)) by done.
    destruct fuel as [|[|fuel]]; [simpl in Hfuel; lia..|].
    destruct (grow_split _ _ _ _ _ _ _ _ _ _ fuel Hbf Hg Hfull) as
      [(h' & h0 & -> & ?)|(kids1 & kids2 & q & h' & -> & Hne & Hst & Hg' & ->)];
      [by eapply inserted_failed|].
    destruct (IH fuel h' _ _ _ _ _ Hbf Hg') as (r' & tree' & h'' & Hrun & Hres).
    { rewrite Hroot. by apply (loc_plug_same fs (GNode pp _) (GNode pp _)). } { simpl in Hfuel. lia. }
    exists r', tree', h''. split; [done|]. destruct Hres as [?|(g' & ? & ? & Hl & ? & ?)]; [by left|].
    right. exists g'. split_and!; [done..| |done|by transitivity h'].
    rewrite Hl. simpl. rewrite !flat_map_snoc, !flat_map_app, <- !app_assoc. simpl. done.
Qed.
End insert.
