(* ===== verification/MbptreeAppend.v ===== *)
(** * The index tree: append

    [mbptree_tryappend] keeps the invariant of [MbptreeInv] and adds its entry
    after the others. *)

From S2P Require Import Prelude Errno Mbptree MbptreeInv MbptreeOps.

(** ** The chain of the leaves *)

Lemma chain_frame h h' ls :
  (∀ x, x ∈ ls → next_of h' x = next_of h x) → chain h ls → chain h' ls.
Proof.
  induction ls as [|l ls IH]; simpl; [done|]. intros Heq [? ?].
  split; [rewrite Heq; [done|left]|]. apply IH; [|done]. intros. apply Heq. by right.
Qed.

Lemma chain_last h ls l : chain h (ls ++ [l]) → next_of h l = Some 0.
Proof. induction ls as [|x ls IH]; simpl; naive_solver. Qed.

(** A leaf linked after the last. *)
Lemma chain_link h h' ls l l' :
  (∀ x, x ∈ ls → next_of h' x = next_of h x) → chain h (ls ++ [l]) →
  next_of h' l = Some l' → next_of h' l' = Some 0 → chain h' (ls ++ [l; l']).
Proof.
  intros Heq Hc Hl Hl'. revert Heq Hc. induction ls as [|x ls IH]; simpl; [done|].
  intros Heq [Hx Hc]. split; [rewrite Heq by left; rewrite Hx; by destruct ls|].
  apply IH; [|done]. intros. apply Heq. by right.
Qed.

Lemma next_of_node h l lf n p d kv :
  h !! l = Some (Node lf n p d) → d !! n = Some kv → next_of h l = Some kv.2.
Proof. intros Hl Hd. unfold next_of. by rewrite Hl; simpl; rewrite Hd. Qed.

Lemma next_of_frame h h' l : h' !! l = h !! l → next_of h' l = next_of h l.
Proof. unfold next_of. by intros ->. Qed.

Lemma next_of_set_parent h l nd q :
  h !! l = Some nd → next_of (<[l := set_parent q nd]> h) l = next_of h l.
Proof. intros Hl. unfold next_of. by rewrite lookup_insert_eq, Hl. Qed.

(** ** Leaves *)

Lemma leaf_next bf h p l kvs :
  leaf_at bf h p l kvs → (length kvs < bf)%nat → is_Some (next_of h l).
Proof.
  intros (d & Hl & Hd & _) Hlt. destruct (lookup_lt_is_Some_2 d (length kvs)) as [kv Hkv]; [lia|].
  rewrite (next_of_node _ _ _ _ _ _ _ Hl Hkv). eauto.
Qed.

(** An entry written after the others of a leaf with room. *)
Lemma push_entry_ok bf h p l kvs k v :
  leaf_at bf h p l kvs → next_of h l = Some 0 → (length kvs < bf - 1)%nat →
  ∃ nd, push_entry l k v h = Ok (<[l := nd]> h) ∧
    leaf_at bf (<[l := nd]> h) p l (kvs ++ [(k, v)]) ∧ next_of (<[l := nd]> h) l = Some 0.
Proof.
  intros (d & Hl & Hd & Hkvs & Hz) Hnext Hlt. set (n := length kvs) in *.
  set (d' := <[n := (k, v)]> d). exists (Node 1 (S n) p d').
  assert (Hd' : length d' = bf) by (unfold d'; by rewrite length_insert).
  destruct (lookup_lt_is_Some_2 d' (S n)) as [kv Hkv]; [lia|].
  assert (Hkv' : d !! S n = Some kv) by (unfold d' in Hkv; by rewrite list_lookup_insert_ne in Hkv by lia).
  rewrite (drop_S _ _ _ Hkv'), Forall_cons in Hz. destruct Hz as [Hkv0 Hz].
  split_and!.
  - unfold push_entry. apply (update_Ok _ _ _ _ _ Hl). simpl.
    by rewrite put_data_Ok by lia.
  - exists d'. rewrite lookup_insert_eq, length_app. simpl. fold n.
    replace (n + 1)%nat with (S n) by lia. split_and!; [done|done|..].
    + unfold d'. by rewrite take_S_insert, Hkvs by lia.
    + unfold d'. by rewrite drop_insert_lt by lia.
  - rewrite (next_of_node _ l 1 (S n) p d' kv); [by rewrite Hkv0|by rewrite lookup_insert_eq|done].
Qed.

(** The pointer to the next leaf, in a full leaf. *)
Lemma link_ok bf h p l kvs l' :
  leaf_at bf h p l kvs → (length kvs < bf)%nat →
  ∃ nd, update l (λ nd, put_value (nsize nd) l' nd) h = Ok (<[l := nd]> h) ∧ parent nd = p ∧
    leaf_at bf (<[l := nd]> h) p l kvs ∧ next_of (<[l := nd]> h) l = Some l'.
Proof.
  intros (d & Hl & Hd & Hkvs & Hz) Hlt. set (n := length kvs) in *.
  destruct (lookup_lt_is_Some_2 d n) as [kv Hkv]; [lia|].
  set (d' := <[n := (kv.1, l')]> d). exists (Node 1 n p d'). split_and!; [|done|..].
  - apply (update_Ok _ _ _ _ _ Hl). unfold put_value. simpl nsize.
    run (get_data_Ok _ _ _ _ _ _ Hkv). by rewrite put_data_Ok by lia.
  - exists d'. rewrite lookup_insert_eq. fold n. unfold d'.
    by rewrite length_insert, take_insert_ge, drop_insert_lt by lia.
  - rewrite (next_of_node _ l 1 n p d' (kv.1, l')); [done|by rewrite lookup_insert_eq|].
    unfold d'. apply list_lookup_insert_eq. lia.
Qed.

(** ** The tree opened at its last leaf *)

Record opened (t : mbptree) (h : heap) (n : nat) (fs : list frame) (l : Z)
    (kvs : list (Z * Z)) : Prop := {
  op_shape : spine_shape (branch_factor t) n 0 fs;
  op_spine : spine (branch_factor t) h fs (cell (GLeaf l kvs));
  op_leaf : leaf_at (branch_factor t) h (up fs) l kvs;
  op_packed : packed (branch_factor t) (spine_leaves fs) (l, kvs);
  op_last : last_leaf t = l;
  op_chain : chain h ((spine_leaves fs).*1 ++ [l]);
  op_nodup : NoDup (l :: spine_locs fs);
  op_dom : ∀ x, x ∈ dom h ↔ x ∈ l :: spine_locs fs;
  op_null : 0 ∉ l :: spine_locs fs
}.

Lemma open_inv t h n g :
  tree_inv t h n g →
  ∃ fs l kvs, g = plug fs (GLeaf l kvs) ∧ opened t h n fs l kvs ∧
    entries g = contents (spine_leaves fs) ++ kvs.
Proof.
  intros [Hbf Hroot Hrep Hshape (ls & last & Hls & Hpk & Hlast) Hchain Hnd Hdom Hnull Hsort].
  destruct (shape_rightmost _ _ _ Hshape) as (fs & l & kvs & -> & Hss).
  exists fs, l, kvs. split; [done|].
  assert (Hlocs : locs (plug fs (GLeaf l kvs)) ≡ₚ l :: spine_locs fs).
  { rewrite locs_plug. simpl. by rewrite Permutation_app_comm. }
  setoid_rewrite Hlocs in Hdom. rewrite Hlocs in Hnd, Hnull.
  apply (rep_plug _ _ _ n 0) in Hrep as [Hsp Hlf]; [|done].
  unfold entries. rewrite leaves_plug in *. simpl leaves in *.
  apply app_inj_tail in Hls as [<- <-]. rewrite fmap_app in Hchain.
  split; [by split|]. unfold contents. rewrite flat_map_app. simpl. by rewrite app_nil_r.
Qed.

Lemma contents_app ls ls' : contents (ls ++ ls') = contents ls ++ contents ls'.
Proof. apply flat_map_app. Qed.

Lemma leaves_nonempty bf g : ∀ n, shape bf n g → leaves g ≠ [].
Proof.
  induction g as [l kvs|l kids IH] using gtree_ind'; [done|]. intros n.
  rewrite shape_node. intros (m & -> & Hlen & Hk) Hf.
  destruct kids as [|k kids]; [simpl in Hlen; lia|]. simpl in Hf. apply app_nil in Hf as [Hf _].
  apply Forall_cons in Hk as [Hk _], IH as [IH _]. by eapply IH.
Qed.

Lemma spine_leaves_nil bf m n fs : spine_shape bf m n fs → spine_leaves fs = [] → fs = [].
Proof.
  destruct fs as [|[l kids] fs]; [done|]. simpl. intros (Hlen & Hk & _) [_ Hf]%app_nil.
  destruct kids as [|k kids]; [simpl in Hlen; lia|]. simpl in Hf. apply app_nil in Hf as [Hf _].
  apply Forall_cons in Hk as [Hk _]. by apply leaves_nonempty in Hk.
Qed.

Lemma elem_of_kids_leaves kids x :
  x ∈ (flat_map leaves kids).*1 ↔ ∃ k, k ∈ kids ∧ x ∈ (leaves k).*1.
Proof.
  induction kids as [|k kids IH]; simpl.
  - split; [by intros ?%not_elem_of_nil|by intros (? & ?%not_elem_of_nil & _)].
  - rewrite fmap_app, elem_of_app, IH. setoid_rewrite elem_of_cons. naive_solver.
Qed.

Lemma leaf_in_locs g : ∀ x, x ∈ (leaves g).*1 → x ∈ locs g.
Proof.
  induction g as [l kvs|l kids IH] using gtree_ind'; intros x; [done|]. simpl.
  rewrite elem_of_kids_leaves. intros (k & Hk & Hx). right. apply elem_of_flat_map.
  rewrite Forall_forall in IH. eauto.
Qed.

Lemma spine_leaves_locs fs x : x ∈ (spine_leaves fs).*1 → x ∈ spine_locs fs.
Proof.
  induction fs as [|[l kids] fs IH]; simpl; [by intros ?%not_elem_of_nil|].
  rewrite fmap_app, !elem_of_cons, !elem_of_app, elem_of_kids_leaves.
  intros [?|(k & Hk & Hx)]; [tauto|]. right. left. apply elem_of_flat_map. eauto using leaf_in_locs.
Qed.

(** The leaves of the ghost tree are leaves of the heap. *)
Lemma rep_leaf bf h g : ∀ p x,
  rep bf h p g → x ∈ (leaves g).*1 → ∃ nd, h !! x = Some nd ∧ leaf nd = 1.
Proof.
  induction g as [l kvs|l kids IH] using gtree_ind'; intros p x.
  - intros (d & Hd & _) ->%list_elem_of_singleton. eauto.
  - intros [_ Hk]%rep_node. simpl. rewrite elem_of_kids_leaves. intros (k & Hin & Hx).
    rewrite Forall_forall in IH, Hk. eauto.
Qed.

Lemma spine_leaf bf h fs : ∀ c x,
  spine bf h fs c → x ∈ (spine_leaves fs).*1 → ∃ nd, h !! x = Some nd ∧ leaf nd = 1.
Proof.
  induction fs as [|[l kids] fs IH]; intros c x; simpl; [by intros _ ?%not_elem_of_nil|].
  intros (_ & Hk & Hsp). rewrite fmap_app, elem_of_app, elem_of_kids_leaves.
  intros [Hx|(k & Hin & Hx)]; [eauto|]. rewrite Forall_forall in Hk. by eapply rep_leaf; [apply Hk|].
Qed.

Lemma stable_chain h h' ls :
  stable h h' → (∀ x, x ∈ ls → ∃ nd, h !! x = Some nd ∧ leaf nd = 1) →
  chain h ls → chain h' ls.
Proof.
  intros Hst Hls. apply chain_frame. intros x (nd & Hnd & Hlf)%Hls. by eapply stable_next.
Qed.

(** The fuel for the way to the root. *)
Lemma spine_length fs : (length fs ≤ length (spine_locs fs))%nat.
Proof. induction fs as [|f fs IH]; simpl; [lia|]. rewrite length_app. lia. Qed.

(** ** Ascending entries *)

Definition above (key : Z) (kvs : list (Z * Z)) : Prop := Forall (λ kv, kv.1 < key) kvs.

Lemma ascending_snoc kvs k v : ascending kvs → above k kvs → ascending (kvs ++ [(k, v)]).
Proof.
  intros Hs Ha. apply StronglySorted_app_2; [|done|by repeat constructor].
  intros x1 x2 Hx1 Hx2. apply list_elem_of_singleton in Hx2 as ->. unfold above in Ha.
  rewrite Forall_forall in Ha. by apply Ha.
Qed.

Lemma ascending_last kvs kv k : ascending (kvs ++ [kv]) → kv.1 < k → above k (kvs ++ [kv]).
Proof.
  intros Hs Hlt. apply Forall_app. split; [|by apply Forall_singleton].
  apply Forall_forall. intros x Hx.
  pose proof (StronglySorted_app_1_elem_of _ _ _ x kv Hs Hx ltac:(left)). simpl in *. lia.
Qed.

Lemma ascending_above_all kvs k :
  ascending kvs → match last kvs with Some kv => kv.1 < k | None => True end → above k kvs.
Proof.
  intros Hs Hlast. destruct kvs as [|kv kvs _] using rev_ind; [constructor|].
  rewrite last_snoc in Hlast. by apply ascending_last.
Qed.

(** ** The cases of [mbptree_tryappend] *)

Section append.
Context (calloc : heap → option Z).
Context (calloc_fresh : ∀ h l, calloc h = Some l → l ≠ 0 ∧ h !! l = None).

(** The key is compared with the last of the last leaf. *)
Definition not_above (kvs : list (Z * Z)) (k : Z) : bool :=
  match last kvs with Some kv => k <=? kv.1 | None => false end.

Lemma monotonic_check p d kvs k (nd := Node 1 (length kvs) p d) :
  take (length kvs) d = kvs →
  (if (0 <? nsize nd)%nat then kv ← get_data nd (nsize nd - 1); Ok (k <=? kv.1) else Ok false) =
  Ok (not_above kvs k).
Proof.
  intros Hd. subst nd. simpl nsize. unfold not_above.
  destruct kvs as [|kv kvs _] using rev_ind; [done|].
  rewrite last_snoc. rewrite length_app in *. simpl in *.
  rewrite Nat.add_1_r in *. simpl Nat.ltb. cbn iota.
  rewrite (get_data_Ok _ _ _ _ _ kv); [done|].
  replace (S (length kvs) - 1)%nat with (length kvs) by lia.
  rewrite <- (lookup_take_lt _ (S (length kvs))), Hd by lia. by apply list_lookup_middle.
Qed.

Lemma not_above_spec kvs k : ascending kvs → not_above kvs k = false → above k kvs.
Proof.
  intros Hs Hk. apply ascending_above_all; [done|]. unfold not_above in Hk.
  destruct (last kvs); [lia|done].
Qed.

(** A new leaf behind a full one, with its first entry. *)
Lemma new_leaf_ok t h p l kvs k v (bf := branch_factor t) :
  (3 ≤ bf)%nat → leaf_at bf h p l kvs → (length kvs < bf)%nat →
  (calloc h = None ∧ mbptree_new_leaf calloc t l h = Ok (0, h)) ∨
  ∃ l' h1 h2, l' ≠ 0 ∧ h !! l' = None ∧ mbptree_new_leaf calloc t l h = Ok (l', h1) ∧
    push_entry l' k v h1 = Ok h2 ∧
    leaf_at bf h2 p l kvs ∧ leaf_at bf h2 p l' [(k, v)] ∧
    next_of h2 l = Some l' ∧ next_of h2 l' = Some 0 ∧
    (∀ x, x ≠ l → x ≠ l' → h2 !! x = h !! x).
Proof using calloc_fresh.
  intros Hbf Hl Hlt. pose proof Hl as (d & Hd & _).
  unfold mbptree_new_leaf. run (deref_Ok _ _ _ Hd). simpl leaf. simpl assertb. rewrite bind_Ok.
  unfold mbptree_create_leaf. fold bf. simpl parent.
  destruct (create_node_ok calloc calloc_fresh bf p h) as [[? ->]|(l' & Hl'0 & Hl'n & ->)];
    [by left|right]. rewrite !(proj2 (Z.eqb_neq _ _)) by done.
  erewrite update_Ok; [|by apply lookup_insert_eq|done]. rewrite insert_insert_eq, !bind_Ok.
  rewrite (proj2 (Z.eqb_neq _ _)) by done. set (h1 := <[l' := _]> h).
  assert (Hne : l' ≠ l) by (intros ->; congruence).
  assert (Hl1 : leaf_at bf h1 p l kvs).
  { destruct Hl as (d' & ? & ?). exists d'. unfold h1. by rewrite lookup_insert_ne. }
  assert (Hl1' : leaf_at bf h1 p l' []).
  { exists (replicate bf (0, 0)). unfold h1. rewrite lookup_insert_eq, length_replicate.
    split_and!; [done..|]. by apply Forall_drop, Forall_replicate. }
  assert (Hn1 : next_of h1 l' = Some 0).
  { apply (next_of_node _ _ 1 0 p (replicate bf (0, 0)) (0, 0)); [apply lookup_insert_eq|].
    apply lookup_replicate_2. lia. }
  destruct (link_ok bf h1 p l kvs l') as (nd & Hlink & _ & Hl2 & Hn2); [done..|].
  set (h2 := <[l := nd]> h1) in *.
  assert (Heq : h2 !! l' = h1 !! l') by (by apply lookup_insert_ne).
  destruct (push_entry_ok bf h2 p l' [] k v) as (nd' & Hpush & Hl3 & Hn3).
  { unfold leaf_at. by rewrite Heq. } { by rewrite (next_of_frame _ _ _ Heq). } { simpl. lia. }
  assert (Heq2 : <[l' := nd']> h2 !! l = h2 !! l) by (by apply lookup_insert_ne).
  exists l', h2, (<[l' := nd']> h2). split_and!; try done.
  - by run Hlink.
  - unfold leaf_at. by rewrite Heq2.
  - by rewrite (next_of_frame _ _ _ Heq2).
  - intros x ? ?. unfold h2, h1. by rewrite !lookup_insert_ne.
Qed.
End append.

(** ** Closing the tree *)

Lemma close_inv t h n fs l kvs :
  (3 ≤ branch_factor t)%nat → root t = loc (plug fs (GLeaf l kvs)) → opened t h n fs l kvs →
  ascending (contents (spine_leaves fs) ++ kvs) → tree_inv t h n (plug fs (GLeaf l kvs)).
Proof.
  intros Hbf Hroot [Hss Hsp Hlf Hpk Hlast Hchain Hnd Hdom Hnull] Hs.
  assert (Hlocs : locs (plug fs (GLeaf l kvs)) ≡ₚ l :: spine_locs fs).
  { rewrite locs_plug. simpl. by rewrite Permutation_app_comm. }
  split; try done.
  - by apply (rep_plug _ _ _ n 0).
  - by eapply shape_plug.
  - rewrite leaves_plug. by exists (spine_leaves fs), (l, kvs).
  - by rewrite leaves_plug, fmap_app.
  - by rewrite Hlocs.
  - intros x. by rewrite Hlocs.
  - by rewrite Hlocs.
  - unfold entries. rewrite leaves_plug, contents_app. unfold contents at 2. simpl.
    by rewrite app_nil_r.
Qed.

Lemma grown_inv t h g ls last :
  (3 ≤ branch_factor t)%nat → grown (branch_factor t) h g → root t = loc g →
  leaves g = ls ++ [last] → packed (branch_factor t) ls last → last_leaf t = last.1 →
  chain h (ls.*1 ++ [last.1]) → ascending (contents ls ++ last.2) →
  ∃ n, tree_inv t h n g.
Proof.
  intros Hbf [Hrep [m Hshape] Hnd Hdom Hnull] Hroot Hls Hpk Hlast Hchain Hs.
  exists m. split; try done.
  - by exists ls, last.
  - by rewrite Hls, fmap_app.
  - unfold entries. rewrite Hls, contents_app. unfold contents at 2. simpl. by rewrite app_nil_r.
Qed.

(** The tree of two leaves below a new root. *)
Lemma new_root_inv t (h h4 : heap) R l l' kvs k v ndR (bf := branch_factor t) :
  (3 ≤ bf)%nat → (∀ x, x ∈ dom h ↔ x ∈ [l]) → R ≠ l → R ≠ l' → l ≠ l' → 0 ∉ [R; l; l'] →
  (∀ x, x ∉ [R; l; l'] → h4 !! x = h !! x) →
  leaf_at bf h4 R l kvs → leaf_at bf h4 R l' [(k, v)] → next_of h4 l = Some l' → next_of h4 l' = Some 0 →
  (∀ k0, node_at bf (<[R := ndR]> h4) 0 R [(k0, l); (k, l')]) →
  ascending kvs → above k kvs → length kvs = (bf - 1)%nat →
  ∃ n, tree_inv (set_root R (set_last_leaf l' t)) (<[R := ndR]> h4) n (GNode R [GLeaf l kvs; GLeaf l' [(k, v)]]).
Proof.
  intros Hbf Hdom HRl HRl' Hll' Hnull Hfr Hlf Hlf' Hn Hn' HnR Hs Ha Hfull.
  set (h6 := <[R := ndR]> h4). set (g := GNode R [GLeaf l kvs; GLeaf l' [(k, v)]]).
  assert (Hf6 : ∀ x, x ≠ R → h6 !! x = h4 !! x) by (intros; by apply lookup_insert_ne).
  assert (Hrep : rep bf h6 0 g).
  { simpl. split_and!; [apply HnR|..|done]; unfold leaf_at; by rewrite Hf6. }
  apply (grown_inv _ h6 g [(l, kvs)] (l', [(k, v)])); try done.
  - split; [done|..].
    + exists 1%nat. simpl. fold bf. split_and!; (done || lia).
    + simpl. repeat constructor; set_solver.
    + eapply (dom_locs bf h h6 0 g); [done|exact Hdom|set_solver|].
      intros x Hx. rewrite Hf6 by (intros ->; apply Hx; left). by apply Hfr.
    + done.
  - split; simpl; [|lia|by right]. apply Forall_singleton. simpl. done.
  - simpl. rewrite !next_of_frame with h4 h6 _ by (by apply Hf6). done.
  - simpl. unfold contents. simpl. rewrite app_nil_r. by apply ascending_snoc.
Qed.

(** The tree with a leaf more behind the full last one. *)
Lemma next_leaf_inv t h h2 h3 n f fs l kvs l' k v p g' (bf := branch_factor t) (ls := spine_leaves (f :: fs)) :
  (3 ≤ bf)%nat → opened t h n (f :: fs) l kvs → h !! l' = None →
  leaf_at bf h2 p l kvs → leaf_at bf h2 p l' [(k, v)] → next_of h2 l = Some l' → next_of h2 l' = Some 0 →
  (∀ x, x ≠ l → x ≠ l' → h2 !! x = h !! x) → stable h2 h3 → grown bf h3 g' →
  leaves g' = (ls ++ [(l, kvs)]) ++ [(l', [(k, v)])] → length kvs = (bf - 1)%nat →
  ascending (contents ls ++ kvs) → above k (contents ls ++ kvs) →
  ∃ n', tree_inv (set_root (loc g') (set_last_leaf l' t)) h3 n' g'.
Proof.
  intros Hbf [_ Hsp _ Hpk _ Hchain Hndp Hdom _] Hl'n Hlf2 Hlf2' Hn2 Hn2' Hfr Hst Hgr Hl Hfull Hs Ha.
  assert (Hls : ∀ x, x ∈ ls.*1 → h2 !! x = h !! x).
  { intros x Hx%spine_leaves_locs. apply Hfr; intros ->.
    - by apply NoDup_cons in Hndp as [? _].
    - apply (fresh_not_in _ _ _ Hdom Hl'n). by right. }
  apply (grown_inv _ h3 g' (ls ++ [(l, kvs)]) (l', [(k, v)])); try done.
  - destruct Hpk as [Hpk _ _]. split; [|simpl; fold bf; lia|by right].
    apply Forall_app. split; [done|]. by apply Forall_singleton.
  - eapply stable_chain; [exact Hst|..]; rewrite fmap_app, <- app_assoc; simpl.
    + intros x. rewrite elem_of_app, !elem_of_cons.
      destruct Hlf2 as (? & ? & _), Hlf2' as (? & ? & _).
      intros [Hx|[->|[->|[]%not_elem_of_nil]]]; [rewrite Hls by done; by eapply spine_leaf|eauto..].
    + eapply chain_link; [|exact Hchain|done|done]. intros x Hx. by apply next_of_frame, Hls.
  - rewrite contents_app. unfold contents at 2. simpl. rewrite app_nil_r. by apply ascending_snoc.
Qed.

(** ** [mbptree_tryappend] *)

Section tryappend.
Context (calloc : heap → option Z).
Context (calloc_fresh : ∀ h l, calloc h = Some l → l ≠ 0 ∧ h !! l = None).

(** After the check that the keys ascend. *)
Definition tryappend_leaf (tree : mbptree) (l : mbptree_node) (key value : Z) (h : heap)
    : result (Z * mbptree * heap) :=
  full ← mbptree_node_full tree l;
  if negb full then h ← push_entry (last_leaf tree) key value h; Ok (0, tree, h)
  else
    let '(failed, new_root, h1) :=
      if mbptree_is_root l
      then let '(r, h1) := mbptree_create_node calloc (branch_factor tree) 0 h in (r =? 0, r, h1)
      else (false, 0, h) in
    if (failed : bool) then Ok (ELALLC, tree, h1)
    else
      h ← (if mbptree_is_root l then assign_parent (last_leaf tree) new_root h1 else Ok h1);
      '(new_leaf, h) ← mbptree_new_leaf calloc tree (last_leaf tree) h;
      if new_leaf =? 0 then
        h ← assign_parent (last_leaf tree) 0 h;
        h ← mbptree_free_node (walk_fuel h) new_root h;
        Ok (ELALLC, tree, h)
      else
        h ← push_entry new_leaf key value h;
        if negb (new_root =? 0) then
          nl ← deref new_leaf h;
          first ← get_data nl 0;
          h ← update new_root (λ nd, nd ← put_data (nsize nd) (first.1, last_leaf tree) nd;
                                     Ok (set_nsize (S (nsize nd)) nd)) h;
          h ← update new_root (λ nd, put_value (nsize nd) new_leaf nd) h;
          Ok (0, set_root new_root (set_last_leaf new_leaf tree), h)
        else
          '(r, tree, h) ← mbptree_append_leaf calloc tree new_leaf h;
          if r =? 0 then Ok (ELIDXPC, tree, h)
          else Ok (0, set_root r tree, h).

Lemma tryappend_unfold tree h p kvs k v d (l := Node 1 (length kvs) p d) :
  h !! last_leaf tree = Some l → take (length kvs) d = kvs →
  mbptree_tryappend calloc tree k v h =
    if not_above kvs k then Ok (ELIDXNM, tree, h) else tryappend_leaf tree l k v h.
Proof.
  intros Hl Hd. unfold mbptree_tryappend. run (deref_Ok _ _ _ Hl).
  subst l. cbv zeta. by run (monotonic_check p d kvs k Hd).
Qed.

Lemma leaf_full tree (kvs : list (Z * Z)) p d :
  (length kvs ≤ branch_factor tree - 1)%nat → (3 ≤ branch_factor tree)%nat →
  mbptree_node_full tree (Node 1 (length kvs) p d) =
    Ok (branch_factor tree - 1 =? length kvs)%nat.
Proof.
  intros. unfold mbptree_node_full. simpl nsize. rewrite (proj2 (Nat.ltb_lt _ _)) by lia. simpl.
  f_equal. apply eq_true_iff_eq. rewrite Nat.leb_le, Nat.eqb_eq. lia.
Qed.

(** There is room in the last leaf. *)
Lemma tryappend_room t h n fs l kvs k v nd :
  (3 ≤ branch_factor t)%nat → root t = loc (plug fs (GLeaf l kvs)) → opened t h n fs l kvs →
  ascending (contents (spine_leaves fs) ++ kvs) → above k (contents (spine_leaves fs) ++ kvs) →
  (length kvs < branch_factor t - 1)%nat → h !! l = Some nd →
  ∃ h', tryappend_leaf t nd k v h = Ok (0, t, h') ∧ leaves_kept h h' ∧
    tree_inv t h' n (plug fs (GLeaf l (kvs ++ [(k, v)]))).
Proof.
  intros Hbf Hroot Hop Hs Ha Hlt Hnd.
  pose proof Hop as [Hss Hsp Hlf Hpk Hlast Hchain Hndp Hdom Hnull].
  pose proof Hlf as (d & Hd & Hdl & _). rewrite Hnd in Hd. injection Hd as ->.
  unfold tryappend_leaf. rewrite leaf_full by lia. rewrite bind_Ok, (proj2 (Nat.eqb_neq _ _)) by lia.
  simpl negb. cbn iota.
  destruct (push_entry_ok _ _ _ _ _ k v Hlf (chain_last _ _ _ Hchain) Hlt) as (nd & Hpush & Hlf' & Hn').
  rewrite Hlast. run Hpush. exists (<[l := nd]> h). split; [done|]. split.
  { apply (kept_leaves _ _ [l]); [intros x Hx; apply lookup_insert_ne; intros ->; apply Hx; left|].
    apply Forall_singleton. apply (leaf_at_kept _ _ _ _ _ _ _ _ Hlf Hlf'). by eexists. }
  pose proof Hndp as [Hlni _]%NoDup_cons.
  assert (Hfr : ∀ x, x ∈ spine_locs fs → <[l := nd]> h !! x = h !! x).
  { intros x Hx. apply lookup_insert_ne. by intros ->. }
  apply close_inv; [done| | |by rewrite app_assoc; apply ascending_snoc].
  { rewrite Hroot. by apply loc_plug_same. }
  split; try done.
  - eapply spine_frame; [exact Hfr|]. destruct kvs as [|kv kvs]; [|done].
    destruct Hpk as [_ _ [Hnil|Hne]]; [|by destruct Hne].
    by rewrite (spine_leaves_nil _ _ _ _ Hss Hnil).
  - destruct Hpk as [? ? ?]. split; [done|simpl; rewrite length_app; simpl; lia|].
    right. by intros [_ ?]%app_nil.
  - eapply chain_frame; [|exact Hchain]. intros x Hx. apply elem_of_app in Hx as [Hx|Hx].
    + by apply next_of_frame, Hfr, spine_leaves_locs.
    + apply list_elem_of_singleton in Hx as ->. by rewrite Hn', (chain_last _ _ _ Hchain).
  - intros x. rewrite dom_insert, elem_of_union, elem_of_singleton, Hdom, elem_of_cons. tauto.
Qed.

(** The new root above the first two leaves. *)
Lemma root_of_leaves_ok bf h R l l' k d :
  h !! R = Some (Node 0 0 0 d) → length d = bf → (3 ≤ bf)%nat →
  ∃ h1 nd, update R (λ nd, nd ← put_data (nsize nd) (k, l) nd;
                           Ok (set_nsize (S (nsize nd)) nd)) h = Ok h1 ∧
    update R (λ nd, put_value (nsize nd) l' nd) h1 = Ok (<[R := nd]> h) ∧
    ∀ k0, node_at bf (<[R := nd]> h) 0 R [(k0, l); (k, l')].
Proof.
  intros HR Hd Hbf. set (d1 := <[0%nat := (k, l)]> d).
  assert (Hl1 : length d1 = bf) by (unfold d1; by rewrite length_insert).
  destruct (put_value_Ok 0 1 0 d1 1 l') as (d2 & Hd2 & Hl2 & Hk2 & Hv2); [lia|].
  exists (<[R := Node 0 1 0 d1]> h), (Node 0 1 0 d2). split_and!.
  - apply (update_Ok _ _ _ _ _ HR). simpl. by rewrite put_data_Ok by lia.
  - erewrite update_Ok; [|by rewrite lookup_insert_eq|exact Hd2]. by rewrite insert_insert_eq.
  - intros k0. exists d2. rewrite lookup_insert_eq. simpl. split_and!; [done|congruence|..].
    + rewrite Hk2. unfold d1. rewrite list_fmap_insert. by rewrite take_S_insert by len.
    + rewrite Hv2, take_S_insert by len. unfold d1. rewrite list_fmap_insert.
      by rewrite take_S_insert by len.
Qed.

(** The root was the only leaf, and full. *)
Lemma free_empty_node fuel R d p h kv :
  h !! R = Some (Node 0 0 p d) → d !! 0%nat = Some kv → kv.2 = 0 →
  mbptree_free_node (S fuel) R h = Ok (delete R h).
Proof.
  intros HR Hd Hkv. simpl. rewrite !(deref_Ok _ _ _ HR). simpl.
  run (get_data_Ok _ _ _ _ _ _ Hd). rewrite Hkv. simpl. by rewrite (deref_Ok _ _ _ HR).
Qed.

(** There is no memory for the new leaf: the new root goes, the leaf is what
    it was. *)
Lemma new_root_undone bf h R l n d (nd := Node 1 n 0 d) :
  (3 ≤ bf)%nat → R ≠ l → h !! R = None → h !! l = Some nd →
  let h2 := <[l := set_parent R nd]> (<[R := Node 0 0 0 (replicate bf (0, 0))]> h) in
  ∃ h3, assign_parent l 0 h2 = Ok h3 ∧ mbptree_free_node (walk_fuel h3) R h3 = Ok h.
Proof using Type.
  intros Hbf HRl HR Hl h2. eexists. split.
  { apply (assign_parent_Ok _ l 0 (set_parent R nd)). unfold h2. by rewrite lookup_insert_eq. }
  unfold h2. rewrite insert_insert_eq. unfold walk_fuel. rewrite Nat.mul_succ_r, Nat.add_comm. simpl Nat.add.
  assert (Hz : replicate bf (0, 0) !! 0%nat = Some (0, 0)) by (apply lookup_replicate_2; lia).
  rewrite (free_empty_node _ R (replicate bf (0, 0)) 0 _ (0, 0)); [|..|done|done].
  - f_equal. rewrite delete_insert_ne, delete_insert_id by done. by apply insert_id.
  - rewrite lookup_insert_ne by done. by rewrite lookup_insert_eq.
Qed.

(** The leaves are where they were. *)
Lemma new_root_kept bf h h4 R l l' kvs k v ndR dR :
  h !! R = None → leaf_at bf h 0 l kvs → R ≠ l → R ≠ l' → h !! l' = None →
  h4 !! R = Some (Node 0 0 0 dR) → leaf_at bf h4 R l kvs → leaf_at bf h4 R l' [(k, v)] →
  (∀ x, x ≠ R → x ≠ l → x ≠ l' → h4 !! x = h !! x) → leaves_kept h (<[R := ndR]> h4).
Proof using Type.
  intros HR Hlf HRl HRl' Hl'n HR4 Hlf4 Hlf4' Hfr.
  trans (<[R := Node 0 0 0 dR]> h); [by apply stable_kept, stable_alloc|].
  trans h4; [|by apply stable_kept, (stable_insert _ _ _ _ HR4)].
  apply (kept_leaves _ _ [l; l']).
  - intros x. rewrite !not_elem_of_cons. intros (? & ? & _). destruct (decide (x = R)) as [->|].
    + by rewrite lookup_insert_eq, HR4.
    + by rewrite Hfr, lookup_insert_ne.
  - repeat constructor; [|apply fresh_kept; by rewrite lookup_insert_ne].
    eapply (leaf_at_kept bf _ _ 0 R l kvs kvs); [|done|done]. destruct Hlf as (d & Hd & Hrest). exists d.
    by rewrite lookup_insert_ne.
Qed.

Lemma tryappend_new_root t h n l kvs k v nd :
  (3 ≤ branch_factor t)%nat → opened t h n [] l kvs →
  ascending kvs → above k kvs → length kvs = (branch_factor t - 1)%nat → h !! l = Some nd →
  (tryappend_leaf t nd k v h = Ok (ELALLC, t, h) ∧ ∃ h0, calloc h0 = None) ∨
  ∃ R l' h' n' g', tryappend_leaf t nd k v h = Ok (0, set_root R (set_last_leaf l' t), h') ∧
    leaves_kept h h' ∧ tree_inv (set_root R (set_last_leaf l' t)) h' n' g' ∧ entries g' = kvs ++ [(k, v)].
Proof using calloc_fresh.
  set (bf := branch_factor t).
  intros Hbf [_ _ Hlf Hpk Hlast Hchain Hndp Hdom Hnull] Hs Ha Hfull Hnd.
  simpl in Hlf, Hpk, Hchain, Hndp, Hdom, Hnull. fold bf in Hlf.
  pose proof Hlf as (d & Hd & Hdl & Hkvs). rewrite Hnd in Hd. injection Hd as ->.
  generalize (eq_refl (tryappend_leaf t (Node 1 (length kvs) 0 d) k v h)).
  generalize (tryappend_leaf t (Node 1 (length kvs) 0 d) k v h) at 2 3 4. intros r.
  unfold tryappend_leaf. rewrite leaf_full by (fold bf; lia).
  rewrite bind_Ok, (proj2 (Nat.eqb_eq _ _)) by (fold bf; lia). simpl negb. cbn iota.
  unfold mbptree_is_root. simpl parent. cbn iota. rewrite Z.eqb_refl, Hlast. fold bf.
  destruct (create_node_ok calloc calloc_fresh bf 0 h) as [[? ->]|(R & HR0 & HRn & ->)];
    cbn beta iota; [rewrite Z.eqb_refl; intros <-; left; eauto|].
  rewrite (proj2 (Z.eqb_neq _ _)) by done. cbn beta iota. set (h1 := <[R := _]> h).
  assert (HRl : R ≠ l) by (intros ->; congruence).
  assert (Hl1 : h1 !! l = Some (Node 1 (length kvs) 0 d)) by (unfold h1; by rewrite lookup_insert_ne).
  run (assign_parent_Ok _ _ R _ Hl1). set (h2 := <[l := _]> h1).
  assert (Hlf2 : leaf_at bf h2 R l kvs).
  { exists d. unfold h2. by rewrite lookup_insert_eq. }
  assert (HR2 : h2 !! R = Some (Node 0 0 0 (replicate bf (0, 0)))).
  { unfold h2, h1. rewrite lookup_insert_ne by done. by rewrite lookup_insert_eq. }
  destruct (new_leaf_ok calloc calloc_fresh t h2 R l kvs k v) as
    [[? ->]|(l' & h3 & h4 & Hl'0 & Hl'n & -> & Hpush & Hlf4 & Hlf4' & Hn4 & Hn4' & Hfr)];
    [done|done|fold bf; lia| |]; rewrite !bind_Ok; cbn beta iota.
  { rewrite Z.eqb_refl. destruct (new_root_undone bf h R l (length kvs) d) as (h3 & Hrun1 & Hrun2); try done.
    fold h1 h2 in Hrun1. run Hrun1. run Hrun2. intros <-. left. eauto. }
  rewrite (proj2 (Z.eqb_neq l' 0)) by done. run Hpush. simpl negb. cbn iota.
  pose proof Hlf4' as (d4 & Hd4 & Hdl4 & Hk4 & _).
  run (deref_Ok _ _ _ Hd4).
  assert (Hf4 : d4 !! 0%nat = Some (k, v)).
  { rewrite <- (lookup_take_lt _ 1) by (simpl; lia). simpl in Hk4. by rewrite Hk4. }
  run (get_data_Ok _ _ _ _ _ _ Hf4). cbn [fst].
  assert (HR4 : h4 !! R = Some (Node 0 0 0 (replicate bf (0, 0)))).
  { rewrite Hfr; [done|done|]. intros ->. congruence. }
  destruct (root_of_leaves_ok bf h4 R l l' k _ HR4 (length_replicate _ _) Hbf)
    as (h5 & ndR & Hrun1 & Hrun2 & HnR).
  run Hrun1. run Hrun2. intros <-. right.
  assert (HRl' : R ≠ l') by (intros ->; congruence).
  assert (Hll' : l ≠ l') by (intros ->; unfold h2 in Hl'n; by rewrite lookup_insert_eq in Hl'n).
  assert (Hfr4 : ∀ x, x ∉ [R; l; l'] → h4 !! x = h !! x).
  { intros x. rewrite !not_elem_of_cons. intros (? & ? & ? & _).
    rewrite Hfr by done. unfold h2, h1. by rewrite !lookup_insert_ne. }
  destruct (new_root_inv t h h4 R l l' kvs k v ndR) as [n' Hinv]; try done; [set_solver|].
  eexists R, l', _, n', _. split_and!; [done| |exact Hinv|].
  - eapply (new_root_kept bf h h4 R l l'); try done.
    + unfold h2, h1 in Hl'n. by rewrite !lookup_insert_ne in Hl'n.
    + intros x ? ? ?. apply Hfr4. set_solver.
  - done.
Qed.

(** The spine, with the full last leaf as the last child of its parent. *)
Lemma opened_growing t h h2 n p kids fs l kvs l' k v (bf := branch_factor t) :
  opened t h n ((p, kids) :: fs) l kvs → l' ≠ 0 → h !! l' = None →
  leaf_at bf h2 p l kvs → leaf_at bf h2 p l' [(k, v)] →
  (∀ x, x ≠ l → x ≠ l' → h2 !! x = h !! x) →
  growing bf h2 n 0 fs p (kids ++ [GLeaf l kvs]) (GLeaf l' [(k, v)]).
Proof.
  intros [(Hkl & Hks & Hss) (Hn & Hk & Hsp) _ _ _ _ Hnd Hdom Hnull] Hl'0 Hl'n Hlf2 Hlf2' Hfr.
  cbn [fst snd spine_locs up] in *. pose proof (fresh_not_in _ _ _ Hdom Hl'n) as Hni.
  assert (HL : p :: flat_map locs (kids ++ [GLeaf l kvs]) ++ locs (GLeaf l' [(k, v)]) ++ spine_locs fs
    ≡ₚ l' :: l :: p :: flat_map locs kids ++ spine_locs fs).
  { rewrite flat_map_snoc. simpl. solve_Permutation. }
  assert (Hfr' : ∀ x, x ∈ p :: flat_map locs kids ++ spine_locs fs → h2 !! x = h !! x).
  { intros x Hx. apply Hfr; intros ->; [|by apply Hni; right]. by apply NoDup_cons in Hnd as [? _]. }
  assert (Hk0 : kids ≠ []) by (intros ->; simpl in Hkl; lia).
  split; try done; rewrite ?HL.
  - rewrite min_key_app by done. eapply spine_frame; [|done]. intros x Hx. apply Hfr'. right.
    apply elem_of_app. by right.
  - rewrite fmap_app. eapply node_at_frame; [|done]. apply Hfr'. left.
  - rewrite Forall_app, Forall_singleton. split; [|done]. eapply rep_kids_frame; [|done].
    intros x Hx. apply Hfr'. right. apply elem_of_app. by left.
  - rewrite length_app. simpl. fold bf in Hkl. lia.
  - rewrite Forall_app, Forall_singleton. done.
  - by apply NoDup_cons.
  - eapply (dom_change h h2 _ [l; l']); [exact Hdom|..].
    + intros x. rewrite !not_elem_of_cons. intros (? & ? & _). by apply Hfr.
    + intros x. rewrite !elem_of_cons. destruct Hlf2 as (? & ? & _), Hlf2' as (? & ? & _).
      intros [->|[->|[]%not_elem_of_nil]]; eauto.
    + intros x. rewrite HL, !elem_of_cons, elem_of_nil. tauto.
  - rewrite elem_of_cons. by intros [?|?].
Qed.

Lemma append_leaf_insert t h p l kvs l' k v nd :
  leaf_at (branch_factor t) h p l kvs → leaf_at (branch_factor t) h p l' [(k, v)] →
  last_leaf t = l → l ≠ l' → length kvs = (branch_factor t - 1)%nat → next_of h l = Some l' →
  h !! p = Some nd → (nsize nd < branch_factor t)%nat →
  mbptree_append_leaf calloc t l' h =
    ('(r, t, h) ← insert_at calloc (walk_fuel h) t p k l' h; Ok (r, set_last_leaf l' t, h)).
Proof.
  intros (d & Hd & Hdl & _) (d' & Hd' & Hdl' & Hk' & _) Hlast Hne Hfull Hnext Hp Hnd.
  unfold mbptree_append_leaf. rewrite Hlast, (proj2 (Z.eqb_neq _ _)) by done. simpl negb.
  simpl assertb. run (deref_Ok _ _ _ Hd). simpl nsize. rewrite Hfull, Nat.eqb_refl. simpl assertb.
  rewrite bind_Ok. unfold next_of in Hnext. rewrite Hd in Hnext. simpl in Hnext.
  destruct (d !! length kvs) as [kv|] eqn:Hkv; [|done]. injection Hnext as Hnext.
  rewrite Hfull in Hkv. run (get_data_Ok _ _ _ _ _ _ Hkv). rewrite Hnext, Z.eqb_refl. simpl assertb.
  run (deref_Ok _ _ _ Hd'). simpl parent. rewrite Z.eqb_refl. simpl assertb. rewrite bind_Ok.
  unfold insert_at. run (deref_Ok _ _ _ Hp).
  unfold mbptree_node_full. rewrite (proj2 (Nat.ltb_lt _ _)) by done. simpl assertb. rewrite !bind_Ok.
  assert (Hf : d' !! 0%nat = Some (k, v)).
  { rewrite <- (lookup_take_lt _ 1) by (simpl; lia). simpl in Hk'. by rewrite Hk'. }
  by run (get_data_Ok _ _ _ _ _ _ Hf).
Qed.

Lemma free_null h : h !! 0 = None → mbptree_free_node (walk_fuel h) 0 h = UB.
Proof. intros Hn. unfold walk_fuel. simpl. unfold deref. by rewrite Hn. Qed.

(** The last leaf is full and has a parent. *)
Lemma tryappend_below t h n p kids fs l kvs k v nd (ls := spine_leaves ((p, kids) :: fs)) :
  (3 ≤ branch_factor t)%nat → root t = loc (plug ((p, kids) :: fs) (GLeaf l kvs)) →
  opened t h n ((p, kids) :: fs) l kvs →
  ascending (contents ls ++ kvs) → above k (contents ls ++ kvs) →
  length kvs = (branch_factor t - 1)%nat → h !! l = Some nd →
  (tryappend_leaf t nd k v h = UB ∧ calloc h = None) ∨
  (∃ t' h' h0, tryappend_leaf t nd k v h = Ok (ELIDXPC, t', h') ∧ calloc h0 = None) ∨
  ∃ r l' h' n' g', tryappend_leaf t nd k v h = Ok (0, set_root r (set_last_leaf l' t), h') ∧
    leaves_kept h h' ∧ tree_inv (set_root r (set_last_leaf l' t)) h' n' g' ∧
    entries g' = contents ls ++ kvs ++ [(k, v)].
Proof using calloc_fresh.
  set (bf := branch_factor t). intros Hbf Hroot Hop Hs Ha Hfull Hnd.
  pose proof Hop as [Hss Hsp Hlf Hpk Hlast Hchain Hndp Hdom Hnull].
  pose proof Hlf as (d & Hd & Hdl & _). rewrite Hnd in Hd. injection Hd as ->.
  simpl up in *.
  assert (Hp0 : p ≠ 0) by (intros ->; apply Hnull; simpl; right; left).
  generalize (eq_refl (tryappend_leaf t (Node 1 (length kvs) p d) k v h)).
  generalize (tryappend_leaf t (Node 1 (length kvs) p d) k v h) at 2 3 4 5. intros res.
  unfold tryappend_leaf. rewrite leaf_full by (fold bf; lia).
  rewrite bind_Ok, (proj2 (Nat.eqb_eq _ _)) by (fold bf; lia). simpl negb. cbn iota.
  unfold mbptree_is_root. simpl parent. rewrite (proj2 (Z.eqb_neq p 0)) by done. cbn beta iota.
  rewrite bind_Ok, Hlast.
  destruct (new_leaf_ok calloc calloc_fresh t h p l kvs k v) as
    [[? ->]|(l' & h1 & h2 & Hl'0 & Hl'n & -> & Hpush & Hlf2 & Hlf2' & Hn2 & Hn2' & Hfr)];
    [done|done|fold bf; lia| |]; rewrite !bind_Ok; cbn beta iota.
  { rewrite Z.eqb_refl. run (assign_parent_Ok _ _ 0 _ Hnd).
    rewrite free_null; [intros <-; by left|].
    rewrite lookup_insert_ne by (intros ->; apply Hnull; left). by apply not_elem_of_dom; rewrite Hdom. }
  rewrite (proj2 (Z.eqb_neq l' 0)) by done. run Hpush. rewrite Z.eqb_refl. simpl negb. cbn iota.
  assert (Hll' : l ≠ l') by (intros ->; congruence).
  pose proof (opened_growing t h h2 n p kids fs l kvs l' k v Hop Hl'0 Hl'n Hlf2 Hlf2' Hfr) as Hg.
  pose proof (gr_node _ _ _ _ _ _ _ _ Hg) as (dp & Hdp & _).
  pose proof (gr_len _ _ _ _ _ _ _ _ Hg) as Hlen.
  rewrite (append_leaf_insert t h2 p l kvs l' k v _ Hlf2 Hlf2' Hlast Hll' Hfull Hn2 Hdp)
    by (simpl; rewrite length_fmap; fold bf; lia).
  destruct (insert_ok calloc calloc_fresh t fs (walk_fuel h2) h2 n 0 p _ _ Hbf Hg)
    as (r & t' & h3 & Hrun & Hres).
  { exact Hroot. }
  { unfold walk_fuel. pose proof (length_le_size h2 _ (gr_nodup _ _ _ _ _ _ _ _ Hg)
      (λ x, proj2 (gr_dom _ _ _ _ _ _ _ _ Hg x))) as Hsz.
    simpl in Hsz. rewrite !length_app in Hsz. simpl in Hsz. pose proof (spine_length fs). lia. }
  simpl in Hrun. run Hrun. cbn beta iota. rewrite ?bind_Ok. cbn beta iota.
  destruct Hres as [(-> & -> & h0 & Hh0)|(g' & -> & -> & Hl & Hgr & Hst)].
  { rewrite Z.eqb_refl. intros <-. right. left. eauto. }
  rewrite (proj2 (Z.eqb_neq (loc g') 0)).
  2:{ intros Heq. apply (gw_null _ _ _ Hgr). rewrite <- Heq. apply loc_in_locs. }
  intros <-. right. right.
  assert (Hleaves : leaves g' = (ls ++ [(l, kvs)]) ++ [(l', [(k, v)])]).
  { rewrite Hl. subst ls. simpl. by rewrite flat_map_snoc, <- !app_assoc. }
  destruct (next_leaf_inv t h h2 h3 n (p, kids) fs l kvs l' k v p g') as [n' Hinv]; try done.
  exists (loc g'), l', h3, n', g'. split_and!; [done| |done|].
  - trans h2; [|by apply stable_kept]. apply (kept_leaves _ _ [l; l']).
    + intros x. rewrite !not_elem_of_cons. intros (? & ? & _). by apply Hfr.
    + repeat constructor; [|by apply fresh_kept]. by eapply leaf_at_kept.
  - unfold entries. rewrite Hleaves, !contents_app. unfold contents at 2 3. simpl. by rewrite app_nil_r, <- !app_assoc.
Qed.
End tryappend.

(** ** All cases *)

Section all.
Context (calloc : heap → option Z).
Context (calloc_fresh : ∀ h l, calloc h = Some l → l ≠ 0 ∧ h !! l = None).

(** An appended entry, or no memory: the last leaf was full, and there is no
    room for another ([bf - 1] entries a leaf). *)
Inductive append_outcome (t : mbptree) (h : heap) (kvs : list (Z * Z)) (k v : Z) :
    result (Z * mbptree * heap) → Prop :=
  | ao_stored r l t' h' : t' = set_root r (set_last_leaf l t) →
      tree_stores t' h' (kvs ++ [(k, v)]) → leaves_kept h h' → append_outcome t h kvs k v (Ok (0, t', h'))
  | ao_no_leaf h0 : calloc h0 = None → length kvs = (branch_factor t - 1)%nat →
      append_outcome t h kvs k v (Ok (ELALLC, t, h))
  | ao_free_null : calloc h = None → (length kvs ≠ branch_factor t - 1)%nat →
      append_outcome t h kvs k v UB
  | ao_broken t' h' h0 : calloc h0 = None → (length kvs ≠ branch_factor t - 1)%nat →
      append_outcome t h kvs k v (Ok (ELIDXPC, t', h')).

Lemma contents_packed bf ls :
  Forall (λ l : Z * list (Z * Z), length l.2 = bf - 1)%nat ls →
  length (contents ls) = (length ls * (bf - 1))%nat.
Proof.
  induction 1 as [|[l kvs] ls Hl _ IH]; simpl in *; [done|]. rewrite length_app, IH. lia.
Qed.

(** The tree opened at its last leaf, after the check of the key. *)
Lemma tryappend_open t h n g k v :
  tree_inv t h n g →
  ∃ fs l kvs nd, g = plug fs (GLeaf l kvs) ∧ opened t h n fs l kvs ∧ h !! l = Some nd ∧
    entries g = contents (spine_leaves fs) ++ kvs ∧
    mbptree_tryappend calloc t k v h =
      if not_above (entries g) k then Ok (ELIDXNM, t, h) else tryappend_leaf calloc t nd k v h.
Proof using Type.
  intros Hinv. destruct (open_inv _ _ _ _ Hinv) as (fs & l & kvs & -> & Hop & Hent).
  pose proof (op_leaf _ _ _ _ _ _ Hop) as (d & Hd & _ & Hk & _).
  eexists fs, l, kvs, _. split_and!; [done|done|exact Hd|done|].
  rewrite (tryappend_unfold calloc t h (up fs) kvs k v d) by (by rewrite ?(op_last _ _ _ _ _ _ Hop)).
  rewrite Hent. replace (not_above (contents _ ++ kvs) k) with (not_above kvs k); [done|].
  unfold not_above. destruct kvs as [|kv kvs _] using rev_ind; [|by rewrite app_assoc, !last_snoc].
  destruct (pk_nonempty _ _ _ (op_packed _ _ _ _ _ _ Hop)) as [->|Hpn]; [done|]. by destruct Hpn.
Qed.

Lemma tryappend_ok t h n g k v :
  tree_inv t h n g →
  (not_above (entries g) k = true ∧ mbptree_tryappend calloc t k v h = Ok (ELIDXNM, t, h)) ∨
  (not_above (entries g) k = false ∧
   append_outcome t h (entries g) k v (mbptree_tryappend calloc t k v h) ∧
   ((length (entries g) = 0 ∨ length (entries g) mod (branch_factor t - 1) ≠ 0)%nat →
    ∃ h', mbptree_tryappend calloc t k v h = Ok (0, t, h'))).
Proof using calloc_fresh.
  intros Hinv. pose proof (ti_bf _ _ _ _ Hinv) as Hbf.
  destruct (tryappend_open t h n g k v Hinv) as (fs & l & kvs & nd & -> & Hop & Hd & Hent & ->).
  pose proof (op_packed _ _ _ _ _ _ Hop) as [Hpf Hpl Hpn]. simpl in Hpl, Hpn.
  pose proof (ti_sorted _ _ _ _ Hinv) as Hs. rewrite Hent in *.
  destruct (not_above (contents (spine_leaves fs) ++ kvs) k) eqn:Hab; [by left|right]. split; [done|].
  apply not_above_spec in Hab; [|done].
  assert (Hlen : length (contents (spine_leaves fs) ++ kvs) =
    (length (spine_leaves fs) * (branch_factor t - 1) + length kvs)%nat).
  { rewrite length_app. by rewrite (contents_packed (branch_factor t)). }
  destruct (decide (length kvs = branch_factor t - 1)%nat) as [Hfull|Hroom].
  - split.
    2:{ rewrite Hlen, Hfull. intros [?|Hmod]; [nia|]. exfalso. apply Hmod.
        replace (_ + _)%nat with (S (length (spine_leaves fs)) * (branch_factor t - 1))%nat by lia.
        apply Nat.Div0.mod_mul. }
    destruct fs as [|[p kids] fs].
    + change (contents (spine_leaves []) ++ kvs) with kvs in *.
      destruct (tryappend_new_root calloc calloc_fresh t h n l kvs k v _ Hbf Hop Hs Hab Hfull Hd)
        as [[-> [h0 Hh0]]|(R & l' & h' & n' & g' & -> & Hkept & Hinv' & Hent')].
      * by eapply ao_no_leaf.
      * eapply ao_stored; [done| |done]. by exists n', g'.
    + assert (Hne : length (contents (spine_leaves ((p, kids) :: fs)) ++ kvs) ≠
        (branch_factor t - 1)%nat).
      { rewrite Hlen, Hfull. intros Heq.
        assert (length (spine_leaves ((p, kids) :: fs)) = 0)%nat as Hl0 by nia.
        apply nil_length_inv, (spine_leaves_nil _ _ _ _ (op_shape _ _ _ _ _ _ Hop)) in Hl0. done. }
      destruct (tryappend_below calloc calloc_fresh t h n p kids fs l kvs k v _ Hbf
        (ti_root _ _ _ _ Hinv) Hop Hs Hab Hfull Hd)
        as [[-> Hc]|[(t' & h' & h0 & -> & Hh0)|(r & l' & h' & n' & g' & -> & Hkept & Hinv' & Hent')]].
      * by apply ao_free_null.
      * by eapply ao_broken.
      * eapply ao_stored; [done| |done]. exists n', g'. by rewrite <- app_assoc.
  - destruct (tryappend_room calloc t h n fs l kvs k v _ Hbf (ti_root _ _ _ _ Hinv) Hop Hs Hab
      ltac:(lia) Hd) as (h' & -> & Hkept & Hinv').
    split; [|by eauto]. eapply (ao_stored _ _ _ _ _ (root t) (last_leaf t)); [by destruct t| |done].
    eexists n, _. split; [done|]. unfold entries. rewrite leaves_plug, contents_app.
    unfold contents at 2. simpl. by rewrite app_nil_r, app_assoc.
Qed.

(** No memory for the next node. *)
Lemma leaf_full_oom t h n fs l kvs k v nd :
  (3 ≤ branch_factor t)%nat → opened t h n fs l kvs → length kvs = (branch_factor t - 1)%nat →
  h !! l = Some nd → calloc h = None →
  tryappend_leaf calloc t nd k v h = match fs with [] => Ok (ELALLC, t, h) | _ => UB end.
Proof using Type.
  intros Hbf Hop Hfull Hnd Hc.
  pose proof (op_leaf _ _ _ _ _ _ Hop) as (d & Hd & _). rewrite Hnd in Hd. injection Hd as ->.
  unfold tryappend_leaf. rewrite leaf_full, bind_Ok, (proj2 (Nat.eqb_eq _ _)) by lia. simpl negb.
  cbn iota. rewrite (op_last _ _ _ _ _ _ Hop).
  assert (Hnl : mbptree_new_leaf calloc t l h = Ok (0, h)).
  { unfold mbptree_new_leaf, mbptree_create_leaf, mbptree_create_node.
    run (deref_Ok _ _ _ Hnd). simpl. by rewrite Hc. }
  unfold mbptree_is_root, mbptree_create_node. rewrite Hc.
  simpl parent. destruct fs as [|[p kids] fs]; [done|]. simpl up in *.
  pose proof (op_null _ _ _ _ _ _ Hop) as H0. simpl in H0. rewrite !not_elem_of_cons in H0.
  destruct H0 as (Hl0 & Hp0 & _). rewrite (proj2 (Z.eqb_neq p 0)) by done. cbn iota beta.
  rewrite bind_Ok, Hnl, bind_Ok. cbn iota beta. rewrite Z.eqb_refl.
  run (assign_parent_Ok _ _ 0 _ Hnd). rewrite free_null; [done|].
  rewrite lookup_insert_ne by done. apply not_elem_of_dom. rewrite (op_dom _ _ _ _ _ _ Hop).
  by apply (op_null _ _ _ _ _ _ Hop).
Qed.

Lemma tryappend_oom t h n g k v :
  tree_inv t h n g → not_above (entries g) k = false → calloc h = None →
  entries g ≠ [] → (length (entries g) mod (branch_factor t - 1) = 0)%nat →
  mbptree_tryappend calloc t k v h =
    if decide (length (entries g) = branch_factor t - 1)%nat then Ok (ELALLC, t, h) else UB.
Proof using calloc_fresh.
  intros Hinv Hna Hc Hne Hmod. pose proof (ti_bf _ _ _ _ Hinv) as Hbf.
  destruct (tryappend_open t h n g k v Hinv) as (fs & l & kvs & nd & -> & Hop & Hd & Hent & ->).
  rewrite Hna. pose proof (op_packed _ _ _ _ _ _ Hop) as [Hpf Hpl Hpn]. simpl in Hpl, Hpn.
  assert (Hlen : length (entries (plug fs (GLeaf l kvs))) =
    (length (spine_leaves fs) * (branch_factor t - 1) + length kvs)%nat).
  { by rewrite Hent, length_app, (contents_packed (branch_factor t)). }
  assert (Hfull : length kvs = (branch_factor t - 1)%nat).
  { destruct (decide (length kvs = branch_factor t - 1)%nat) as [|Hn]; [done|].
    rewrite Hlen, Nat.add_comm, Nat.Div0.mod_add, Nat.mod_small in Hmod by lia.
    apply nil_length_inv in Hmod as ->. destruct Hpn as [Hpn|Hpn]; [|by destruct Hpn].
    rewrite Hpn in Hent. by destruct Hne. }
  rewrite (leaf_full_oom t h n fs l kvs k v nd Hbf Hop Hfull Hd Hc), Hlen, Hfull.
  destruct fs as [|f fs]; [by rewrite decide_True|].
  rewrite decide_False; [done|]. intros Heq.
  assert (length (spine_leaves (f :: fs)) = 0)%nat as Hl0 by nia.
  by apply nil_length_inv, (spine_leaves_nil _ _ _ _ (op_shape _ _ _ _ _ _ Hop)) in Hl0.
Qed.
End all.
