(* ===== verification/MbptreeFind.v ===== *)
(** * The index tree: lookup, iteration and release *)

From S2P Require Import Prelude Errno Mbptree MbptreeInv MbptreeOps MbptreeAppend.

(** ** Finding the leaf of a key *)

Lemma node_at_lookup bf h p l kids d i c :
  node_at bf h p l (cell <$> kids) → h !! l = Some (Node 0 (pred (length kids)) p d) →
  kids !! i = Some c →
  ∃ key, d !! i = Some (key, loc c) ∧ ∀ c', kids !! S i = Some c' → key = min_key c'.
Proof.
  intros (d' & Hd & Hdl & Hk & Hv) Hnd Hc. rewrite Hnd in Hd. injection Hd as _ <-.
  rewrite length_fmap in *. pose proof (lookup_lt_Some _ _ _ Hc) as Hlt.
  assert (Hvi : d.*2 !! i = Some (loc c)).
  { rewrite <- (lookup_take_lt _ (length kids)), Hv by done. by rewrite !list_lookup_fmap, Hc. }
  rewrite list_lookup_fmap in Hvi. destruct (d !! i) as [[key v]|] eqn:Hdi; [|done].
  injection Hvi as ->. exists key. split; [done|]. intros c' Hc'.
  pose proof (lookup_lt_Some _ _ _ Hc').
  assert (Hki : d.*1 !! i = Some (min_key c')).
  { rewrite <- (lookup_take_lt _ (pred (length kids))), Hk by lia.
    destruct kids as [|k0 kids]; [done|]. simpl in *. by rewrite !list_lookup_fmap, Hc'. }
  rewrite list_lookup_fmap, Hdi in Hki. by injection Hki.
Qed.

(** The child to descend into: the last whose separator is not above the key. *)
Lemma find_child_ok bf h p l kids d key pre k post (nd := Node 0 (pred (length kids)) p d) :
  node_at bf h p l (cell <$> kids) → h !! l = Some nd →
  kids = pre ++ k :: post →
  (∀ i c, kids !! S i = Some c → (i < length pre)%nat → min_key c ≤ key) →
  match post with [] => True | k' :: _ => key < min_key k' end →
  find_child (nsize nd) 0 key nd = Ok (loc k).
Proof.
  intros Hn Hnd Hkids Hpre Hpost.
  assert (Hlen : length kids = (length pre + S (length post))%nat)
    by (by rewrite Hkids, length_app).
  cut (∀ m i, (m + i)%nat = nsize nd → (i ≤ length pre)%nat → find_child m i key nd = Ok (loc k)).
  { intros Hcut. apply Hcut; lia. }
  assert (Hk : kids !! length pre = Some k) by (rewrite Hkids; by apply list_lookup_middle).
  subst nd. simpl nsize. induction m as [|m IH]; intros i Hm Hi; simpl.
  - assert (i = length pre) as -> by lia.
    destruct (node_at_lookup _ _ _ _ _ _ _ _ Hn Hnd Hk) as (key' & Hd & _).
    rewrite (proj2 (Nat.eqb_eq _ _)) by lia. simpl. by run (get_data_Ok _ _ _ _ _ _ Hd).
  - destruct (lookup_lt_is_Some_2 kids i) as [c Hc]; [lia|].
    destruct (lookup_lt_is_Some_2 kids (S i)) as [c' Hc']; [lia|].
    destruct (node_at_lookup _ _ _ _ _ _ _ _ Hn Hnd Hc) as (key' & Hd & Hkey').
    run (get_data_Ok _ _ _ _ _ _ Hd). simpl. rewrite (Hkey' _ Hc').
    destruct (decide (i = length pre)) as [->|].
    + rewrite Hk in Hc. injection Hc as <-.
      rewrite Hkids in Hc'. rewrite lookup_app_r in Hc' by lia.
      replace (S (length pre) - length pre)%nat with 1%nat in Hc' by lia.
      destruct post as [|k' post]; [done|]. injection Hc' as <-.
      by rewrite (proj2 (Z.ltb_lt _ _)).
    + rewrite (proj2 (Z.ltb_ge _ _)) by (apply (Hpre i); [done|lia]). apply IH; lia.
Qed.

(** Children around the last with a separator not above the key. *)
Lemma choose_child (k0 : gtree) kids key :
  ∃ pre k post, k0 :: kids = pre ++ k :: post ∧
    (∀ i c, (k0 :: kids) !! S i = Some c → (i < length pre)%nat → min_key c ≤ key) ∧
    (pre ≠ [] → min_key k ≤ key) ∧
    match post with [] => True | k' :: _ => key < min_key k' end.
Proof.
  revert k0. induction kids as [|k1 kids IH]; intros k0.
  - exists [], k0, []. split_and!; try done.
  - destruct (decide (key < min_key k1)) as [Hlt|Hge].
    + exists [], k0, (k1 :: kids). split_and!; try done. simpl. lia.
    + destruct (IH k1) as (pre & k & post & Heq & Hle & Hk & Hpost).
      exists (k0 :: pre), k, post. split_and!; [by rewrite Heq| | |done].
      * intros i c Hc Hi. destruct i as [|i]; [injection Hc as <-; lia|].
        apply (Hle i); [done|]. simpl in Hi. lia.
      * intros _. destruct pre as [|x pre]; [|by apply Hk].
        injection Heq as <- _. lia.
Qed.

Definition nonempty_leaves (g : gtree) : Prop := Forall (λ l, l.2 ≠ []) (leaves g).

Lemma entries_node l kids : entries (GNode l kids) = flat_map entries kids.
Proof.
  unfold entries. simpl. induction kids as [|k kids IH]; simpl; [done|].
  by rewrite contents_app, IH.
Qed.

Lemma nonempty_leaf l kvs : nonempty_leaves (GLeaf l kvs) ↔ kvs ≠ [].
Proof. unfold nonempty_leaves. simpl. by rewrite Forall_singleton. Qed.

Lemma nonempty_node l kids : nonempty_leaves (GNode l kids) ↔ Forall nonempty_leaves kids.
Proof.
  induction kids as [|k kids IH]; [by unfold nonempty_leaves; simpl; rewrite !Forall_nil|].
  rewrite Forall_cons, <- IH. unfold nonempty_leaves. simpl. by rewrite Forall_app.
Qed.

(** The separator of a node is its first key. *)
Lemma min_key_head bf g : ∀ n, shape bf n g → nonempty_leaves g →
  ∃ v rest, entries g = (min_key g, v) :: rest.
Proof.
  induction g as [l kvs|l kids IH] using gtree_ind'; intros n.
  - intros _ Hne%nonempty_leaf. destruct kvs as [|[k v] kvs]; [done|].
    exists v, kvs. unfold entries, contents. simpl. by rewrite app_nil_r.
  - intros (m & -> & Hlen & Hk)%shape_node Hne%nonempty_node.
    destruct kids as [|k kids]; [simpl in Hlen; lia|]. rewrite entries_node. simpl.
    apply Forall_cons in IH as [IH _], Hk as [Hk _], Hne as [Hne _].
    destruct (IH _ Hk Hne) as (v & rest & ->). eauto.
Qed.

(** Where the floor of a key can be: in a leaf [kvs], after the entries of
    [ls], the last of which are below the key, and before those of [ls']. *)
Definition covers (ls : list (Z * list (Z * Z))) (kvs : list (Z * Z))
    (ls' : list (Z * list (Z * Z))) (key : Z) : Prop :=
  (ls ≠ [] → match kvs with kv :: _ => kv.1 ≤ key | [] => False end) ∧
  Forall (λ kv, key < kv.1) (contents ls').

Lemma find_leaf_ok bf h key g : ∀ n p fuel,
  rep bf h p g → shape bf n g → (n < fuel)%nat →
  (nonempty_leaves g ∨ n = 0%nat) → ascending (entries g) →
  ∃ ls l kvs ls', leaves g = ls ++ (l, kvs) :: ls' ∧
    mbptree_find_leaf fuel (loc g) key h = Ok l ∧ covers ls kvs ls' key.
Proof.
  induction g as [l kvs|l kids IH] using gtree_ind'; intros n p fuel Hrep Hsh Hfuel Hne Hs;
    (destruct fuel as [|fuel]; [lia|]).
  - destruct Hrep as (d & Hd & _). exists [], l, kvs, []. split_and!; [done| |by split].
    simpl. by run (deref_Ok _ _ _ Hd).
  - apply shape_node in Hsh as (m & -> & Hlen & Hk). destruct Hne as [Hne|]; [|done].
    apply nonempty_node in Hne. apply rep_node in Hrep as [Hn Hrep].
    rewrite entries_node in Hs.
    destruct kids as [|k0 kids]; [simpl in Hlen; lia|].
    destruct (choose_child k0 kids key) as (pre & k & post & Hkids & Hle & Hpk & Hpost).
    pose proof Hn as (d & Hd & _). rewrite length_fmap in Hd.
    pose proof (find_child_ok _ _ _ _ _ _ key pre k post Hn Hd Hkids Hle Hpost) as Hfind.
    set (ks := k0 :: kids) in *. clearbody ks. subst ks.
    rewrite Forall_app, Forall_cons in IH, Hk, Hne, Hrep.
    destruct IH as (_ & IH & _), Hk as (_ & Hk & Hkp), Hne as (_ & Hne & Hnep), Hrep as (_ & Hrep & _).
    rewrite flat_map_app in Hs. simpl in Hs. apply StronglySorted_app_1_r in Hs.
    destruct (IH m l fuel) as (ls & l' & kvs & ls' & Hls & Hrun & Hcov1 & Hcov2); [done|done|lia|by left| |].
    { by apply StronglySorted_app_1_l in Hs. }
    exists (flat_map leaves pre ++ ls), l', kvs, (ls' ++ flat_map leaves post). split_and!.
    + simpl. rewrite flat_map_app. simpl. by rewrite Hls, <- !app_assoc.
    + simpl. run (deref_Ok _ _ _ Hd). simpl leaf. cbn iota. rewrite Z.eqb_refl. simpl negb. cbn iota.
      by run Hfind.
    + split.
      * intros Hne'. destruct ls as [|x ls]; [|by apply Hcov1].
        destruct (min_key_head _ _ _ Hk Hne) as (v & rest & Hent).
        unfold entries in Hent. rewrite Hls in Hent. unfold contents in Hent. simpl in Hent.
        assert (kvs ≠ []) as Hkvs.
        { unfold nonempty_leaves in Hne. rewrite Hls in Hne. simpl in Hne.
          by apply Forall_cons in Hne as [? _]. }
        destruct kvs as [|kv kvs]; [done|]. injection Hent as -> _. simpl. apply Hpk.
        intros ->. by apply Hne'.
      * rewrite contents_app. apply Forall_app. split; [done|].
        destruct post as [|k' post]; [constructor|].
        apply Forall_cons in Hkp as [Hk' _], Hnep as [Hne' _].
        destruct (min_key_head _ _ _ Hk' Hne') as (v & rest & Hent).
        apply StronglySorted_app_1_r in Hs. rewrite <- (entries_node 0 (k' :: post)) in Hs.
        change (flat_map leaves (k' :: post)) with (leaves (GNode 0 (k' :: post))).
        fold (entries (GNode 0 (k' :: post))). rewrite entries_node in *. simpl in *.
        rewrite Hent in *. simpl in *. apply StronglySorted_cons in Hs as [Hall _].
        constructor; [done|]. eapply Forall_impl; [exact Hall|]. simpl. lia.
Qed.

(** ** Iterators *)

Lemma rep_leaf_at bf h g : ∀ p l kvs,
  rep bf h p g → (l, kvs) ∈ leaves g → ∃ q, leaf_at bf h q l kvs.
Proof.
  induction g as [l kvs|l kids IH] using gtree_ind'; intros p l' kvs'.
  - intros Hl [= -> ->]%list_elem_of_singleton. by exists p.
  - intros [_ Hk]%rep_node. simpl. rewrite elem_of_flat_map. intros (k & Hin & Hx).
    rewrite Forall_forall in IH, Hk. eauto.
Qed.

Lemma chain_next h ls l ls' :
  chain h (ls ++ l :: ls') → next_of h l = Some (match ls' with [] => 0 | l' :: _ => l' end).
Proof. induction ls as [|x ls IH]; simpl; naive_solver. Qed.

Lemma height_leaves bf g : ∀ n, shape bf n g → (2 ^ n ≤ length (leaves g))%nat.
Proof.
  induction g as [l kvs|l kids IH] using gtree_ind'; intros n Hs; [by destruct n; simpl in *|].
  apply shape_node in Hs as (m & -> & Hlen & Hk). simpl.
  destruct kids as [|k1 [|k2 kids]]; [simpl in Hlen; lia..|].
  rewrite !Forall_cons in IH, Hk. destruct IH as (IH1 & IH2 & _), Hk as (Hk1 & Hk2 & _).
  simpl. rewrite !length_app. specialize (IH1 _ Hk1). specialize (IH2 _ Hk2). lia.
Qed.

Lemma height_locs bf g : ∀ n, shape bf n g → (n < length (locs g))%nat.
Proof.
  induction g as [l kvs|l kids IH] using gtree_ind'; intros n Hs; [destruct n; simpl in *; [lia|done]|].
  apply shape_node in Hs as (m & -> & Hlen & Hk). simpl.
  destruct kids as [|k kids]; [simpl in Hlen; lia|].
  apply Forall_cons in IH as [IH _], Hk as [Hk _]. simpl. rewrite length_app. specialize (IH _ Hk). lia.
Qed.

Section inv.
Context (t : mbptree) (h : heap) (n : nat) (g : gtree) (Hinv : tree_inv t h n g).

Lemma inv_nonempty : nonempty_leaves g ∨ ∃ l, leaves g = [(l, [])].
Proof using Hinv.
  destruct (ti_leaves _ _ _ _ Hinv) as (ls & last & Hls & [Hfull Hlast Hne] & _).
  pose proof (ti_bf _ _ _ _ Hinv). unfold nonempty_leaves. rewrite Hls.
  destruct Hne as [->|Hne].
  - destruct last as [l [|kv kvs]]; [by right; exists l|left]. by apply Forall_singleton.
  - left. apply Forall_app. split; [|by apply Forall_singleton].
    eapply Forall_impl; [exact Hfull|]. intros x Hx Hx'. simpl in Hx. rewrite Hx' in Hx. simpl in Hx. lia.
Qed.

Lemma inv_nonempty_or_leaf : nonempty_leaves g ∨ n = 0%nat.
Proof using Hinv.
  destruct inv_nonempty as [?|[l Hl]]; [by left|right].
  pose proof (height_leaves _ _ _ (ti_shape _ _ _ _ Hinv)) as Hh. rewrite Hl in Hh.
  destruct n as [|n']; [done|]. simpl in Hh. pose proof (Nat.pow_nonzero 2 n'). lia.
Qed.

(** The entries from an iterator on. *)
Inductive iter_at : mbptree_leaf_iterator → list (Z * Z) → Prop :=
  | iter_end : iter_at (LeafIterator 0 0) []
  | iter_in ls l kvs ls' idx : leaves g = ls ++ (l, kvs) :: ls' → (idx < length kvs)%nat →
      iter_at (LeafIterator idx l) (drop idx kvs ++ contents ls').

Lemma inv_leaf_at ls l kvs ls' :
  leaves g = ls ++ (l, kvs) :: ls' → l ≠ 0 ∧ (length kvs < branch_factor t)%nat ∧
  (∃ q, leaf_at (branch_factor t) h q l kvs) ∧
  next_of h l = Some (match ls' with [] => 0 | l' :: _ => l'.1 end).
Proof using Hinv.
  intros Hls. assert (Hin : (l, kvs) ∈ leaves g) by (rewrite Hls; apply elem_of_app; right; left).
  split_and!.
  - intros ->. apply (ti_null _ _ _ _ Hinv). apply leaf_in_locs. by apply (list_elem_of_fmap_2 fst _ (0, kvs)).
  - destruct (ti_leaves _ _ _ _ Hinv) as (ls0 & last & Hls0 & [Hfull Hlast _] & _).
    pose proof (ti_bf _ _ _ _ Hinv).
    rewrite Hls0, elem_of_app, list_elem_of_singleton in Hin. destruct Hin as [Hin| <-].
    + rewrite Forall_forall in Hfull. apply Hfull in Hin. simpl in Hin. lia.
    + simpl in Hlast. lia.
  - eapply rep_leaf_at; [exact (ti_rep _ _ _ _ Hinv)|done].
  - pose proof (ti_chain _ _ _ _ Hinv) as Hc. rewrite Hls, fmap_app in Hc. simpl in Hc.
    rewrite (chain_next _ _ _ _ Hc). by destruct ls'.
Qed.

Lemma iter_valid it rest :
  iter_at it rest → mbptree_leaf_iterator_valid it h = Ok (negb (bool_decide (rest = []))).
Proof using Hinv.
  intros [|ls l kvs ls' idx Hls Hidx]; [done|].
  destruct (inv_leaf_at _ _ _ _ Hls) as (Hl0 & Hlen & (q & d & Hd & _) & _).
  unfold mbptree_leaf_iterator_valid. simpl. rewrite (proj2 (Z.eqb_neq _ _)) by done.
  run (deref_Ok _ _ _ Hd). simpl. rewrite (proj2 (Nat.ltb_lt _ _)) by done.
  rewrite bool_decide_eq_false_2; [done|]. intros [Hdrop _]%app_nil.
  apply (f_equal length) in Hdrop. rewrite length_drop in Hdrop. simpl in Hdrop. lia.
Qed.

Lemma iter_head it kv rest :
  iter_at it (kv :: rest) →
  mbptree_leaf_iterator_key it h = Ok kv.1 ∧ mbptree_leaf_iterator_value it h = Ok kv.2.
Proof using Hinv.
  intros Hit. inversion Hit as [|ls l kvs ls' idx Hls Hidx Hit' Hrest]; subst.
  destruct (inv_leaf_at _ _ _ _ Hls) as (Hl0 & Hlen & (q & d & Hd & Hdl & Hk & _) & _).
  destruct (lookup_lt_is_Some_2 kvs idx Hidx) as [kv' Hkv].
  rewrite (drop_S _ _ _ Hkv) in Hrest. simpl in Hrest. injection Hrest as -> _.
  assert (Hdi : d !! idx = Some kv) by (by rewrite <- (lookup_take_lt _ (length kvs)), Hk).
  unfold mbptree_leaf_iterator_key, mbptree_leaf_iterator_value. simpl.
  run (deref_Ok _ _ _ Hd). by run (get_data_Ok _ _ _ _ _ _ Hdi).
Qed.

Lemma iter_next it kv rest :
  iter_at it (kv :: rest) →
  ∃ it', mbptree_leaf_iterator_next it h = Ok it' ∧ iter_at it' rest.
Proof using Hinv.
  intros Hit. inversion Hit as [|ls l kvs ls' idx Hls Hidx Hit' Hrest]; subst.
  destruct (inv_leaf_at _ _ _ _ Hls) as (Hl0 & Hlen & (q & d & Hd & Hdl & Hk & _) & Hnext).
  destruct (lookup_lt_is_Some_2 kvs idx Hidx) as [kv' Hkv].
  rewrite (drop_S _ _ _ Hkv) in Hrest. simpl in Hrest. injection Hrest as -> <-.
  unfold mbptree_leaf_iterator_next. simpl. rewrite (proj2 (Z.eqb_neq _ _)) by done. simpl.
  run (deref_Ok _ _ _ Hd). simpl. rewrite (proj2 (Nat.leb_le _ _)) by lia. simpl.
  replace (idx + 1)%nat with (S idx) by lia.
  destruct (Nat.eqb_spec (S idx) (length kvs)) as [Heq|Hne].
  - unfold next_of in Hnext. rewrite Hd in Hnext. simpl in Hnext.
    destruct (d !! length kvs) as [kv0|] eqn:Hd0; [|done]. injection Hnext as Hnext.
    run (get_data_Ok _ _ _ _ _ _ Hd0). rewrite Hnext. eexists. split; [done|].
    rewrite Heq, drop_all. simpl. destruct ls' as [|[l1 kvs1] ls']; [constructor|].
    simpl. change (kvs1 ++ contents ls') with (drop 0 kvs1 ++ contents ls').
    apply (iter_in (ls ++ [(l, kvs)])); [by rewrite <- app_assoc|].
    destruct inv_nonempty as [Hne|[l0 Hl00]].
    + unfold nonempty_leaves in Hne. rewrite Hls, Forall_app, !Forall_cons in Hne.
      destruct Hne as (_ & _ & Hne & _). simpl in Hne. destruct kvs1; [done|]. simpl. lia.
    + rewrite Hls in Hl00. apply (f_equal length) in Hl00. rewrite length_app in Hl00.
      simpl in Hl00. lia.
  - eexists. split; [done|]. eapply iter_in; [done|lia].
Qed.

(** The loop of a client over an iterator. *)
Fixpoint iterate (fuel : nat) (it : mbptree_leaf_iterator) (h : heap) : result (list (Z * Z)) :=
  match fuel with
  | O => NoFuel
  | S fuel =>
    valid ← mbptree_leaf_iterator_valid it h;
    if (valid : bool) then
      k ← mbptree_leaf_iterator_key it h;
      v ← mbptree_leaf_iterator_value it h;
      it ← mbptree_leaf_iterator_next it h;
      rest ← iterate fuel it h;
      Ok ((k, v) :: rest)
    else Ok []
  end.

Lemma iterate_ok rest : ∀ fuel it,
  iter_at it rest → (length rest < fuel)%nat → iterate fuel it h = Ok rest.
Proof using Hinv.
  induction rest as [|kv rest IH]; intros fuel it Hit Hf;
    (destruct fuel as [|fuel]; [simpl in Hf; lia|]); simpl; run (iter_valid _ _ Hit); simpl; [done|].
  destruct (iter_head _ _ _ Hit) as [Hk Hv]. run Hk. run Hv.
  destruct (iter_next _ _ _ Hit) as (it' & Hn & Hit'). run Hn.
  run (IH fuel it' Hit'); [|simpl in Hf; lia]. by destruct kv.
Qed.
End inv.

(** ** The floor of a key *)

(** [rank key kvs]: how many entries, from the first, are not above the key. *)
Fixpoint rank (key : Z) (kvs : list (Z * Z)) : nat :=
  match kvs with
  | [] => 0
  | kv :: kvs => if kv.1 <=? key then S (rank key kvs) else 0
  end.

(** The entries from the greatest key that is not above [key]; none if all
    are above. *)
Definition from_floor (key : Z) (kvs : list (Z * Z)) : list (Z * Z) :=
  match rank key kvs with O => [] | S r => drop r kvs end.

Lemma rank_le key kvs : (rank key kvs ≤ length kvs)%nat.
Proof. induction kvs as [|kv kvs IH]; simpl; [lia|]. destruct (_ <=? _); lia. Qed.

Lemma rank_app key ls ls' :
  rank key (ls ++ ls') = (if bool_decide (rank key ls = length ls) then length ls + rank key ls' else rank key ls)%nat.
Proof.
  induction ls as [|kv ls IH]; simpl; [done|]. destruct (kv.1 <=? key); [|done].
  rewrite IH. repeat case_bool_decide; lia.
Qed.

Lemma rank_above key kvs : Forall (λ kv, key < kv.1) kvs → rank key kvs = 0%nat.
Proof. intros [|kv kvs' Hkv _]; simpl; [done|]. by rewrite (proj2 (Z.leb_gt _ _)). Qed.

Lemma rank_below key kvs : Forall (λ kv, kv.1 ≤ key) kvs → rank key kvs = length kvs.
Proof.
  induction 1 as [|kv kvs Hkv _ IH]; simpl; [done|]. by rewrite (proj2 (Z.leb_le _ _)), IH.
Qed.

Lemma floor_loop_ok key p d kvs (nd := Node 1 (length kvs) p d) :
  take (length kvs) d = kvs →
  floor_loop (length kvs) 0 (-1) key nd = Ok (Z.of_nat (rank key kvs) - 1).
Proof.
  intros Hk.
  cut (∀ m i, (i + m)%nat = length kvs →
    floor_loop m i (Z.of_nat i - 1) key nd = Ok (Z.of_nat (i + rank key (drop i kvs)) - 1)).
  { intros Hcut. apply (Hcut (length kvs) 0%nat). lia. }
  induction m as [|m IH]; intros i Hi; simpl.
  - rewrite drop_ge by lia. simpl. do 2 f_equal. lia.
  - destruct (lookup_lt_is_Some_2 kvs i) as [kv Hkv]; [lia|].
    assert (Hd : d !! i = Some kv) by (rewrite <- (lookup_take_lt _ (length kvs)), Hk by lia; done).
    assert (Hg : get_data nd i = Ok kv) by (by apply get_data_Ok).
    run Hg. rewrite (drop_S _ _ _ Hkv). simpl.
    destruct (kv.1 <=? key).
    + replace (Z.of_nat i) with (Z.of_nat (i + 1) - 1) by lia.
      rewrite IH by lia. replace (i + 1)%nat with (S i) by lia. do 2 f_equal. lia.
    + do 2 f_equal. lia.
Qed.

(** The rank in the whole tree is found in one leaf. *)
Lemma covers_rank ls l kvs ls' key :
  ascending (contents (ls ++ (l, kvs) :: ls')) → covers ls kvs ls' key →
  rank key (contents (ls ++ (l, kvs) :: ls')) =
    (length (contents ls) + rank key kvs)%nat ∧ (rank key kvs = 0%nat → ls = []).
Proof.
  rewrite contents_app. intros Hs [Hfirst Hafter]. simpl contents in *.
  assert (Hr : rank key (kvs ++ contents ls') = rank key kvs).
  { rewrite rank_app, (rank_above _ _ Hafter). case_bool_decide; lia. }
  split.
  - rewrite rank_app. change (flat_map snd ((l, kvs) :: ls')) with (kvs ++ contents ls') in *.
    rewrite Hr. rewrite bool_decide_eq_true_2; [done|]. apply rank_below.
    destruct ls as [|x ls]; [constructor|]. destruct kvs as [|kv kvs]; [by destruct Hfirst|].
    specialize (Hfirst ltac:(done)). apply Forall_forall. intros y Hy.
    pose proof (StronglySorted_app_1_elem_of _ _ _ y kv Hs Hy ltac:(left)). simpl in *. lia.
  - destruct ls as [|x ls]; [done|]. intros Hr0. destruct kvs as [|kv kvs]; [by destruct Hfirst|].
    simpl in Hr0. by rewrite (proj2 (Z.leb_le _ _)) in Hr0 by (by apply Hfirst).
Qed.

Section floor.
Context (calloc_struct : heap → bool).

Lemma set_lock_inv t h n g lk : tree_inv t h n g → tree_inv (set_lock lk t) h n g.
Proof. by intros []. Qed.

Lemma height_size t h n g : tree_inv t h n g → (n < walk_fuel h)%nat.
Proof.
  intros Hinv. unfold walk_fuel.
  pose proof (length_le_size h (locs g) (ti_nodup _ _ _ _ Hinv) (λ x, proj2 (ti_dom _ _ _ _ Hinv x))).
  pose proof (height_locs _ _ _ (ti_shape _ _ _ _ Hinv)). lia.
Qed.

(** The iterator stands on the greatest key that is not above [key]. *)
Lemma leaf_floor_ok t h n g key :
  tree_inv t h n g → calloc_struct h = true → exclusive_lock (lock t) = 0 →
  0 ≤ shared_lock (lock t) < 2 ^ 32 - 1 →
  ∃ it, mbptree_leaf_floor calloc_struct t key h = Ok (0, Some it, t) ∧
    iter_at g it (from_floor key (entries g)).
Proof.
  intros Hinv Hc Hex Hsh. unfold mbptree_leaf_floor. rewrite Hc.
  destruct (lock t) as [ex sh] eqn:Hlock. simpl in Hex, Hsh. subst ex.
  cbn [exclusive_lock shared_lock]. rewrite decide_True by done. rewrite (u32_small (sh + 1)) by lia.
  set (t1 := set_lock (Lock 0 (sh + 1)) t).
  destruct (find_leaf_ok (branch_factor t) h key g n 0 (walk_fuel h)) as (ls & l & kvs & ls' & Hls & Hrun & Hcov).
  { exact (ti_rep _ _ _ _ Hinv). } { exact (ti_shape _ _ _ _ Hinv). } { by eapply height_size. }
  { by eapply inv_nonempty_or_leaf. } { exact (ti_sorted _ _ _ _ Hinv). }
  rewrite <- (ti_root _ _ _ _ Hinv) in Hrun.
  change (root t1) with (root t). run Hrun. cbn [exclusive_lock shared_lock lock t1 set_lock].
  destruct (inv_leaf_at _ _ _ _ Hinv _ _ _ _ Hls) as (Hl0 & Hlen & (q & d & Hd & Hdl & Hk & _) & _).
  rewrite (proj2 (Z.eqb_neq _ _)) by done. simpl. run (deref_Ok _ _ _ Hd). simpl.
  rewrite floor_loop_ok by done. rewrite bind_Ok.
  replace (sh + 1 - 1) with sh by lia. rewrite u32_small by lia.
  pose proof (ti_sorted _ _ _ _ Hinv) as Hs. unfold from_floor, entries in *. rewrite Hls in *.
  destruct (covers_rank _ _ _ _ _ Hs Hcov) as [Hrank Hz]. rewrite Hrank.
  assert (Ht : set_lock (Lock 0 sh) t1 = t) by (unfold t1; rewrite <- Hlock; by destruct t).
  rewrite Ht. eexists. split; [done|].
  destruct (rank key kvs) as [|r] eqn:Hr.
  - rewrite (Hz eq_refl). simpl. constructor.
  - pose proof (rank_le key kvs). rewrite (proj2 (Z.eqb_neq _ _)) by lia.
    rewrite Nat.add_succ_r, contents_app, drop_app_add.
    change (contents ((l, kvs) :: ls')) with (kvs ++ contents ls').
    replace (Z.to_nat _) with r by lia.
    replace (drop r _) with (drop r kvs ++ contents ls') by (symmetry; apply drop_app_le; lia).
    eapply iter_in; [exact Hls|lia].
Qed.
End floor.

(** ** Release *)

Definition removed (L : list Z) (h h' : heap) : Prop :=
  ∀ x, h' !! x = if decide (x ∈ L) then None else h !! x.

Lemma removed_not_in L h h' x : removed L h h' → x ∉ L → h' !! x = h !! x.
Proof. intros Hr Hx. rewrite Hr. by rewrite decide_False. Qed.

Lemma removed_app L L' h h' h'' : removed L h h' → removed L' h' h'' → removed (L ++ L') h h''.
Proof.
  intros H1 H2 x. rewrite H2, H1. repeat case_decide; set_solver.
Qed.

Definition frees (fuel : nat) (h : heap) (g : gtree) : Prop :=
  ∃ h', mbptree_free_node fuel (loc g) h = Ok h' ∧ removed (locs g) h h'.

(** The children are freed one after the other. *)
Lemma free_children_ok bf fuel l p d kids ks : ∀ pre h,
  (∀ k h p, k ∈ ks → rep bf h p k → frees fuel h k) →
  kids ≠ [] → kids = pre ++ ks → node_at bf h p l (cell <$> kids) →
  h !! l = Some (Node 0 (pred (length kids)) p d) →
  Forall (rep bf h l) ks → NoDup (l :: flat_map locs ks) → 0 ∉ flat_map locs ks →
  ∃ h', free_children (mbptree_free_node fuel) (S (length ks)) (length pre) l h = Ok h' ∧
    removed (flat_map locs ks) h h'.
Proof.
  induction ks as [|k ks IH]; intros pre h Hf Hne Hkids Hn Hl Hk Hnd H0;
    cbn [free_children]; run (deref_Ok _ _ _ Hl); simpl nsize.
  - rewrite app_nil_r in Hkids. subst pre.
    rewrite (proj2 (Nat.leb_gt _ _)) by (destruct kids; [done|simpl; lia]).
    exists h. split; [done|]. intros x. by rewrite decide_False by apply not_elem_of_nil.
  - assert (Hlen : length kids = (length pre + S (length ks))%nat) by (by rewrite Hkids, length_app).
    rewrite (proj2 (Nat.leb_le _ _)) by lia.
    assert (Hki : kids !! length pre = Some k) by (rewrite Hkids; by apply list_lookup_middle).
    destruct (node_at_lookup _ _ _ _ _ _ _ _ Hn Hl Hki) as (key & Hd & _).
    run (get_data_Ok _ _ _ _ _ _ Hd). simpl in H0, Hnd. simpl snd.
    apply Forall_cons in Hk as [Hk Hks].
    rewrite (proj2 (Z.eqb_neq _ _)).
    2:{ intros Hl0. apply H0. rewrite elem_of_app, <- Hl0. left. apply loc_in_locs. }
    destruct (Hf k h l) as (h1 & Hrun & Hrem); [left|done|]. run Hrun.
    apply NoDup_cons in Hnd as [Hlni Hnd]. rewrite not_elem_of_app in Hlni. destruct Hlni as [Hlk Hlks].
    apply NoDup_app in Hnd as (Hndk & Hdisj & Hndks).
    pose proof (removed_not_in _ _ _ _ Hrem Hlk) as Hl1.
    destruct (IH (pre ++ [k]) h1) as (h2 & Hrun2 & Hrem2).
    { intros. apply (Hf k0 h0 p0); [by right|done]. }
    { done. }
    { by rewrite <- app_assoc. }
    { by eapply node_at_frame. }
    { by rewrite Hl1. }
    { eapply rep_kids_frame; [|done]. intros x Hx. eapply removed_not_in; [done|].
      intros Hx'. by apply (Hdisj x). }
    { by apply NoDup_cons. }
    { intros ?. apply H0, elem_of_app. by right. }
    rewrite length_app in Hrun2. simpl in Hrun2. exists h2. split; [done|].
    simpl. by eapply removed_app.
Qed.

Lemma free_node_ok bf g : ∀ n fuel h p,
  rep bf h p g → shape bf n g → (n < fuel)%nat → NoDup (locs g) → 0 ∉ locs g → frees fuel h g.
Proof.
  induction g as [l kvs|l kids IH] using gtree_ind'; intros n fuel h p Hrep Hsh Hfuel Hnd H0;
    (destruct fuel as [|fuel]; [lia|]).
  - destruct Hrep as (d & Hd & _). exists (delete l h). simpl. run (deref_Ok _ _ _ Hd). simpl.
    split; [done|]. intros x. destruct (decide (x ∈ [l])) as [->%list_elem_of_singleton|Hx].
    + apply lookup_delete_eq.
    + apply lookup_delete_ne. set_solver.
  - apply shape_node in Hsh as (m & -> & Hlen & Hk). apply rep_node in Hrep as [Hn Hr].
    pose proof Hn as (d & Hd & _). rewrite length_fmap in Hd.
    unfold frees. cbn [mbptree_free_node loc]. run (deref_Ok _ _ _ Hd).
    unfold mbptree_is_leaf. simpl leaf. cbn iota. rewrite (proj2 (Z.eqb_neq 0 1)) by done.
    cbn iota. simpl nsize. replace (S (S (pred (length kids)))) with (S (length kids)) by lia.
    simpl in Hnd, H0. rewrite not_elem_of_cons in H0. destruct H0 as [Hl0 H0].
    destruct (free_children_ok bf fuel l p d kids kids [] h) as (h1 & Hrun & Hrem); try done.
    { intros k h' p' Hin Hrk. rewrite Forall_forall in IH, Hk. apply (IH k Hin m fuel h' p'); try done.
      - by apply Hk.
      - lia.
      - apply NoDup_cons in Hnd as [_ Hnd]. by eapply NoDup_kid.
      - intros ?. apply H0, elem_of_flat_map. eauto. }
    { intros ->. simpl in Hlen. lia. }
    change (length []) with 0%nat in Hrun. run Hrun. exists (delete l h1). split; [done|]. intros x.
    simpl. destruct (decide (x = l)) as [->|Hne].
    + rewrite lookup_delete_eq. by rewrite decide_True by left.
    + rewrite lookup_delete_ne by done. rewrite Hrem. repeat case_decide; set_solver.
Qed.
