(* ===== verification/MbptreeSpec.v ===== *)
(** * The index tree: the properties

    [tree_stores t h kvs]: the tree holds exactly the entries [kvs], in order.
    Append adds an entry at the end, a floor lookup and its iterator read the
    entries from a key on, and releasing the tree frees all its nodes:
    [tree_refines_sorted_list] puts them together. *)

From S2P Require Import Prelude Errno Mbptree MbptreeInv MbptreeOps MbptreeAppend MbptreeFind.

(** ** The abstract index: an ascending list of entries *)

Inductive index_op :=
  | Append (key value : Z)
  | FloorFrom (key : Z)    (* the floor of the key, and iterate from there *)
  | LastValue.

Inductive index_reply :=
  | Code (rc : Z)
  | Entries (kvs : list (Z * Z))
  | Value (rc : Z) (v : option Z).

Definition list_step (o : index_op) (kvs : list (Z * Z)) : index_reply * list (Z * Z) :=
  match o with
  | Append k v => if not_above kvs k then (Code ELIDXNM, kvs) else (Code 0, kvs ++ [(k, v)])
  | FloorFrom k => (Entries (from_floor k kvs), kvs)
  | LastValue =>
    (match last kvs with Some kv => Value 0 (Some kv.2) | None => Value (-1) None end, kvs)
  end.

Fixpoint run_list (ops : list index_op) (kvs : list (Z * Z)) : list index_reply * list (Z * Z) :=
  match ops with
  | [] => ([], kvs)
  | o :: ops =>
    let '(r, kvs) := list_step o kvs in
    let '(rs, kvs) := run_list ops kvs in (r :: rs, kvs)
  end.

(** Iterations are bounded by the cells of the tree. *)
Definition iter_fuel (t : mbptree) (h : heap) : nat := S (branch_factor t * size h).

Lemma not_above_false kvs k :
  not_above kvs k = false ↔ match last kvs with Some kv => kv.1 < k | None => True end.
Proof. unfold not_above. destruct (last kvs); [lia|done]. Qed.

Lemma from_floor_spec key kvs :
  ascending kvs →
  match from_floor key kvs with
  | [] => Forall (λ kv, key < kv.1) kvs
  | kv :: after => kv.1 ≤ key ∧ Forall (λ kv, key < kv.1) after ∧
      ∃ before, kvs = before ++ kv :: after
  end.
Proof.
  unfold from_floor. intros Hs. destruct (rank key kvs) as [|r] eqn:Hr.
  - destruct kvs as [|kv kvs]; [constructor|]. simpl in Hr.
    destruct (Z.leb_spec kv.1 key); [done|]. constructor; [done|].
    apply StronglySorted_cons in Hs as [Hall _]. eapply Forall_impl; [exact Hall|]. simpl. lia.
  - revert r Hr. induction kvs as [|kv kvs IH]; intros r Hr; [done|]. simpl in Hr.
    destruct (Z.leb_spec kv.1 key) as [Hle|]; [|done]. injection Hr as Hr.
    apply StronglySorted_cons in Hs as [Hall Hs].
    destruct r as [|r].
    + simpl. split_and!; [done| |by exists []].
      destruct kvs as [|kv' kvs]; [constructor|]. simpl in Hr.
      destruct (Z.leb_spec kv'.1 key); [done|]. constructor; [done|].
      apply StronglySorted_cons in Hs as [Hall' _]. eapply Forall_impl; [exact Hall'|]. simpl. lia.
    + simpl. specialize (IH Hs r Hr). destruct (drop r kvs) as [|kv' after] eqn:Hd.
      * pose proof (rank_le key kvs) as Hrk. apply (f_equal length) in Hd.
        rewrite length_drop in Hd. simpl in Hd. lia.
      * destruct IH as (? & ? & before & ->). split_and!; [done..|]. by exists (kv :: before).
Qed.

(** ** Facts about stored trees *)

Lemma leaves_locs g : (length (leaves g) ≤ length (locs g))%nat.
Proof.
  induction g as [l kvs|l kids IH] using gtree_ind'; [done|]. simpl.
  induction IH as [|k kids Hk _ IHk]; simpl; [lia|]. rewrite !length_app. lia.
Qed.

Lemma contents_le bf ls :
  Forall (λ l : Z * list (Z * Z), length l.2 ≤ bf)%nat ls →
  (length (contents ls) ≤ length ls * bf)%nat.
Proof. induction 1 as [|[l kvs] ls Hl _ IH]; simpl in *; [lia|]. rewrite length_app. lia. Qed.

Lemma inv_sizes t h n g :
  tree_inv t h n g →
  (length (entries g) ≤ length (leaves g) * (branch_factor t - 1) ∧ length (leaves g) ≤ size h ∧
   (length (leaves g) - 1) * (branch_factor t - 1) ≤ length (entries g))%nat.
Proof.
  intros Hinv. destruct (ti_leaves _ _ _ _ Hinv) as (ls & last & Hls & [Hf Hl Hn] & _).
  pose proof (length_le_size h _ (ti_nodup _ _ _ _ Hinv) (λ x, proj2 (ti_dom _ _ _ _ Hinv x))).
  pose proof (leaves_locs g). unfold entries. rewrite Hls in *. split_and!.
  - apply contents_le, Forall_app. split; [|by apply Forall_singleton].
    eapply Forall_impl; [exact Hf|]. simpl. lia.
  - lia.
  - rewrite contents_app, !length_app, (contents_packed _ _ Hf). simpl.
    replace (length ls + 1 - 1)%nat with (length ls) by lia. lia.
Qed.

Lemma iterate_fuel t h n g it rest :
  tree_inv t h n g → iter_at g it rest → (length rest ≤ length (entries g))%nat →
  iterate (iter_fuel t h) it h = Ok rest.
Proof.
  intros Hinv Hit Hlen. eapply iterate_ok; [done..|]. unfold iter_fuel.
  destruct (inv_sizes _ _ _ _ Hinv) as (? & ? & _). nia.
Qed.

Lemma from_floor_length key kvs : (length (from_floor key kvs) ≤ length kvs)%nat.
Proof. unfold from_floor. destruct (rank key kvs); [simpl; lia|]. rewrite length_drop. lia. Qed.

Lemma last_value_ok t h kvs :
  tree_stores t h kvs →
  mbptree_last_value t h = Ok (match last kvs with Some kv => (0, Some kv.2) | None => (-1, None) end).
Proof.
  intros (n & g & Hinv & <-). destruct (open_inv _ _ _ _ Hinv) as (fs & l & kvs & -> & Hop & ->).
  pose proof (op_leaf _ _ _ _ _ _ Hop) as (d & Hd & _ & Hk & _).
  unfold mbptree_last_value. rewrite (op_last _ _ _ _ _ _ Hop). run (deref_Ok _ _ _ Hd). simpl nsize.
  destruct kvs as [|kv kvs _] using rev_ind.
  - destruct (pk_nonempty _ _ _ (op_packed _ _ _ _ _ _ Hop)) as [->|Hne]; [done|]. by destruct Hne.
  - rewrite app_assoc, last_snoc. rewrite length_app in *. simpl in *. rewrite Nat.add_1_r in *.
    simpl Nat.eqb. cbn iota. replace (S (length kvs) - 1)%nat with (length kvs) by lia.
    rewrite (get_data_Ok _ _ _ _ _ kv); [done|].
    rewrite <- (lookup_take_lt _ (S (length kvs))), Hk by lia. by apply list_lookup_middle.
Qed.

Lemma stores_set_lock t h kvs lk : tree_stores t h kvs → tree_stores (set_lock lk t) h kvs.
Proof. intros (n & g & Hinv & Hent). exists n, g. split; [by apply set_lock_inv|done]. Qed.

Lemma unlocked t : lock t = Lock 0 0 → set_lock (Lock 0 0) t = t.
Proof. destruct t. simpl. by intros ->. Qed.

Lemma append_unlocked calloc t k v h :
  lock t = Lock 0 0 →
  mbptree_append calloc t k v h =
    ('(rc, t, h) ← mbptree_tryappend calloc (set_lock (Lock 1 0) t) k v h;
     Ok (rc, set_lock (Lock 0 0) t, h)).
Proof. unfold mbptree_append. intros ->. by rewrite decide_True. Qed.

Section alloc.
Context (calloc : heap → option Z) (calloc_struct : heap → bool).
Context (calloc_fresh : ∀ h l, calloc h = Some l → l ≠ 0 ∧ h !! l = None).

(** An append that has memory. *)
Lemma append_ok t h kvs k v :
  tree_stores t h kvs → lock t = Lock 0 0 → (∀ h, calloc h ≠ None) →
  if not_above kvs k then mbptree_append calloc t k v h = Ok (ELIDXNM, t, h)
  else ∃ t' h', mbptree_append calloc t k v h = Ok (0, t', h') ∧
    tree_stores t' h' (kvs ++ [(k, v)]) ∧ lock t' = Lock 0 0 ∧ branch_factor t' = branch_factor t ∧
    leaves_kept h h'.
Proof using calloc_fresh.
  intros (n & g & Hinv & <-) Hlock Htot. rewrite append_unlocked by done.
  destruct (tryappend_ok calloc calloc_fresh _ h n g k v (set_lock_inv _ _ _ _ (Lock 1 0) Hinv))
    as [[-> ->]|(-> & Hout & _)].
  - rewrite bind_Ok. change (set_lock (Lock 0 0) (set_lock (Lock 1 0) t)) with (set_lock (Lock 0 0) t).
    by rewrite unlocked.
  - inversion Hout as [r l t' h' -> Hst Hk Heq|h0 Hc|Hc|t' h' h0 Hc]; [|by destruct (Htot _ Hc)..].
    simpl. eexists _, h'. split; [done|]. split; [|done].
    by apply (stores_set_lock _ _ _ (Lock 0 0)) in Hst.
Qed.

Lemma init_ok bf :
  (3 ≤ bf)%nat → (∀ h, calloc h ≠ None) → (∀ h, calloc_struct h = true) →
  ∃ t h, mbptree_init calloc calloc_struct bf ∅ = Ok (Some t, h) ∧
    tree_stores t h [] ∧ lock t = Lock 0 0 ∧ branch_factor t = bf.
Proof using calloc_fresh.
  intros Hbf Htot Hs. unfold mbptree_init, mbptree_create_leaf. rewrite Hs.
  destruct (create_node_ok calloc calloc_fresh bf 0 ∅) as [[Hc _]|(l & Hl0 & _ & ->)];
    [by destruct (Htot ∅)|].
  rewrite (proj2 (Z.eqb_neq _ _)) by done.
  erewrite update_Ok; [|by apply lookup_insert_eq|done]. rewrite insert_insert_eq, !bind_Ok.
  rewrite (proj2 (Z.eqb_neq _ _)) by done. eexists _, _. split; [done|]. split; [|done].
  set (h := <[l := _]> _).
  assert (Hl : h !! l = Some (Node 1 0 0 (replicate bf (0, 0)))) by apply lookup_insert_eq.
  exists 0%nat, (GLeaf l []). split; [|done]. apply (close_inv _ _ _ []); [done|done| |constructor].
  split; simpl; try done.
  - exists (replicate bf (0, 0)). rewrite length_replicate. split_and!; [done..|].
    by apply Forall_drop, Forall_replicate.
  - split; [constructor|simpl; lia|by left].
  - split; [|done]. apply (next_of_node _ _ 1 0 0 (replicate bf (0, 0)) (0, 0)); [done|].
    apply lookup_replicate_2. lia.
  - repeat constructor. set_solver.
  - intros x. unfold h. rewrite dom_insert. set_solver.
  - set_solver.
Qed.

(** ** The concrete index *)

Definition tree_step (o : index_op) (t : mbptree) (h : heap)
    : result (index_reply * mbptree * heap) :=
  match o with
  | Append k v => '(rc, t, h) ← mbptree_append calloc t k v h; Ok (Code rc, t, h)
  | FloorFrom k =>
    '(rc, it, t) ← mbptree_leaf_floor calloc_struct t k h;
    match it with
    | Some it => kvs ← iterate (iter_fuel t h) it h; Ok (Entries kvs, t, h)
    | None => Ok (Code rc, t, h)
    end
  | LastValue => '(rc, v) ← mbptree_last_value t h; Ok (Value rc v, t, h)
  end.

Fixpoint run_tree (ops : list index_op) (t : mbptree) (h : heap)
    : result (list index_reply * mbptree * heap) :=
  match ops with
  | [] => Ok ([], t, h)
  | o :: ops =>
    '(r, t, h) ← tree_step o t h;
    '(rs, t, h) ← run_tree ops t h;
    Ok (r :: rs, t, h)
  end.

Lemma floor_ok t h kvs key :
  tree_stores t h kvs → calloc_struct h = true → exclusive_lock (lock t) = 0 →
  0 ≤ shared_lock (lock t) < 2 ^ 32 - 1 →
  ∃ it, mbptree_leaf_floor calloc_struct t key h = Ok (0, Some it, t) ∧
    iterate (iter_fuel t h) it h = Ok (from_floor key kvs).
Proof.
  intros (n & g & Hinv & <-) Hc Hex Hsh.
  destruct (leaf_floor_ok calloc_struct t h n g key Hinv Hc Hex Hsh) as (it & Hrun & Hit).
  exists it. split; [done|]. eapply iterate_fuel; [done..|]. apply from_floor_length.
Qed.

Lemma tree_step_ok o t h kvs :
  tree_stores t h kvs → lock t = Lock 0 0 → (∀ h, calloc h ≠ None) →
  (∀ h, calloc_struct h = true) →
  ∃ t' h', tree_step o t h = Ok ((list_step o kvs).1, t', h') ∧
    tree_stores t' h' (list_step o kvs).2 ∧ lock t' = Lock 0 0.
Proof using calloc_fresh.
  intros Hst Hlock Htot Hs. destruct o as [k v|k|]; cbn [tree_step list_step fst snd].
  - pose proof (append_ok t h kvs k v Hst Hlock Htot) as Ha.
    destruct (not_above kvs k); [run Ha; by exists t, h|].
    destruct Ha as (t' & h' & Ha & ? & ? & _). run Ha. by exists t', h'.
  - destruct (floor_ok t h kvs k Hst) as (it & Hf & Hit); [done|by rewrite Hlock..|].
    run Hf. run Hit. by exists t, h.
  - run (last_value_ok _ _ _ Hst). exists t, h. by destruct (last kvs).
Qed.

Lemma run_tree_ok ops : ∀ t h kvs,
  tree_stores t h kvs → lock t = Lock 0 0 → (∀ h, calloc h ≠ None) →
  (∀ h, calloc_struct h = true) →
  ∃ t' h', run_tree ops t h = Ok ((run_list ops kvs).1, t', h') ∧
    tree_stores t' h' (run_list ops kvs).2 ∧ lock t' = Lock 0 0.
Proof using calloc_fresh.
  induction ops as [|o ops IH]; intros t h kvs Hst Hlock Htot Hs; simpl; [by exists t, h|].
  destruct (tree_step_ok o t h kvs Hst Hlock Htot Hs) as (t1 & h1 & Hrun & Hst1 & Hlock1).
  run Hrun. destruct (list_step o kvs) as [r kvs1]. simpl in *.
  destruct (IH t1 h1 kvs1 Hst1 Hlock1 Htot Hs) as (t2 & h2 & Hrun2 & Hst2 & Hlock2).
  run Hrun2. destruct (run_list ops kvs1) as [rs kvs2]. by exists t2, h2.
Qed.

Lemma free_ok t h kvs : tree_stores t h kvs → mbptree_free t h = Ok ∅.
Proof.
  intros (n & g & Hinv & _). unfold mbptree_free. rewrite (ti_root _ _ _ _ Hinv).
  destruct (free_node_ok (branch_factor t) g n (walk_fuel h) h 0) as (h' & -> & Hrem).
  { exact (ti_rep _ _ _ _ Hinv). } { exact (ti_shape _ _ _ _ Hinv). }
  { by eapply height_size. } { exact (ti_nodup _ _ _ _ Hinv). } { exact (ti_null _ _ _ _ Hinv). }
  f_equal. apply map_eq. intros x. rewrite Hrem, lookup_empty.
  case_decide as Hx; [done|]. apply not_elem_of_dom. by rewrite (ti_dom _ _ _ _ Hinv).
Qed.
End alloc.

(** ** Properties *)

(** [C4]: an index started by [mbptree_init] refines an ascending
    list: a sequence of appends, floor lookups with iteration, and last-value
    reads never fails an assertion or leaves its blocks, returns exactly what
    the list returns, and leaves a tree that stores exactly the list; freeing
    it then releases every block. Allocations succeed, and a node has room for
    three values. *)
Theorem tree_refines_sorted_list calloc calloc_struct bf ops :
  (∀ h l, calloc h = Some l → l ≠ 0 ∧ h !! l = None) →
  (∀ h, calloc h ≠ None) → (∀ h, calloc_struct h = true) → (3 ≤ bf)%nat →
  ∃ t0 h0 t h, mbptree_init calloc calloc_struct bf ∅ = Ok (Some t0, h0) ∧
    run_tree calloc calloc_struct ops t0 h0 = Ok ((run_list ops []).1, t, h) ∧
    tree_stores t h (run_list ops []).2 ∧ mbptree_free t h = Ok ∅.
Proof.
  intros Hfresh Htot Hs Hbf.
  destruct (init_ok calloc calloc_struct Hfresh bf Hbf Htot Hs) as (t0 & h0 & Hi & Hst & Hl & _).
  destruct (run_tree_ok calloc calloc_struct Hfresh ops t0 h0 [] Hst Hl Htot Hs)
    as (t & h & Hrun & Hst' & _).
  exists t0, h0, t, h. split_and!; [done..|]. by eapply free_ok.
Qed.

(** [C22]: an append with a key above all others stores the entry after
    the others and keeps the tree balanced, packed, linked and sorted, and
    every entry in the leaf and at the place where it was; any other key is
    refused with [ELIDXNM] and changes nothing. *)
Theorem append_in_order calloc t h kvs k v :
  (∀ h l, calloc h = Some l → l ≠ 0 ∧ h !! l = None) → (∀ h, calloc h ≠ None) →
  tree_stores t h kvs → lock t = Lock 0 0 →
  if not_above kvs k then mbptree_append calloc t k v h = Ok (ELIDXNM, t, h)
  else ∃ t' h', mbptree_append calloc t k v h = Ok (0, t', h') ∧
    tree_stores t' h' (kvs ++ [(k, v)]) ∧ lock t' = Lock 0 0 ∧
    branch_factor t' = branch_factor t ∧ leaves_kept h h'.
Proof. intros. by apply append_ok. Qed.

(** [C24]: an append when [calloc] fails. It needs no memory unless
    the last leaf is full; when the only leaf is full it returns [ELALLC] and
    the tree is as before; when the full leaf has a parent, the clean-up frees
    the null pointer it never allocated and dereferences it. *)
Theorem append_out_of_memory calloc t h kvs k v (per_leaf := (branch_factor t - 1)%nat) :
  (∀ h l, calloc h = Some l → l ≠ 0 ∧ h !! l = None) → calloc h = None →
  tree_stores t h kvs → lock t = Lock 0 0 → not_above kvs k = false →
  if decide (kvs = [] ∨ length kvs mod per_leaf ≠ 0)%nat
  then ∃ t' h', mbptree_append calloc t k v h = Ok (0, t', h') ∧ tree_stores t' h' (kvs ++ [(k, v)])
  else if decide (length kvs = per_leaf) then mbptree_append calloc t k v h = Ok (ELALLC, t, h)
  else mbptree_append calloc t k v h = UB.
Proof.
  intros Hfresh Hc (n & g & Hinv & <-) Hlock Hna. rewrite append_unlocked by done.
  apply (set_lock_inv _ _ _ _ (Lock 1 0)) in Hinv. case_decide as Hroom.
  - destruct (tryappend_ok calloc Hfresh _ h n g k v Hinv) as [[? _]|(_ & Hout & Hok)]; [congruence|].
    destruct Hok as (h' & Hok).
    { destruct Hroom as [->|?]; [by left|by right]. }
    rewrite Hok in Hout |- *. eexists _, h'. split; [done|].
    inversion Hout as [r l t' h'' Ht Hst _ Heq| | |]; subst.
    by apply (stores_set_lock _ _ _ (Lock 0 0)) in Hst.
  - apply Decidable.not_or in Hroom as [Hne Hmod].
    rewrite (tryappend_oom calloc Hfresh _ h n g k v Hinv Hna Hc Hne) by (by apply dec_stable).
    change (branch_factor (set_lock (Lock 1 0) t)) with (branch_factor t). fold per_leaf.
    case_decide; [|done]. rewrite bind_Ok.
    change (set_lock (Lock 0 0) (set_lock (Lock 1 0) t)) with (set_lock (Lock 0 0) t).
    by rewrite unlocked.
Qed.

(** [C23]: without a writer, [mbptree_leaf_floor] and the iteration from it
    return the entries from the greatest key that is not above the searched key
    on, in order, and none exactly when every key is above it. The lock and the
    tree are as before. *)
Theorem leaf_floor_iterates calloc_struct t h kvs key :
  tree_stores t h kvs → calloc_struct h = true → exclusive_lock (lock t) = 0 →
  0 ≤ shared_lock (lock t) < 2 ^ 32 - 1 →
  ∃ it rest, mbptree_leaf_floor calloc_struct t key h = Ok (0, Some it, t) ∧
    iterate (iter_fuel t h) it h = Ok rest ∧
    match rest with
    | [] => Forall (λ kv, key < kv.1) kvs
    | kv :: after => kv.1 ≤ key ∧ Forall (λ kv, key < kv.1) after ∧
        ∃ before, kvs = before ++ kv :: after
    end.
Proof.
  intros Hst Hc Hex Hsh. destruct (floor_ok calloc_struct t h kvs key Hst Hc Hex Hsh) as (it & Hf & Hit).
  exists it, (from_floor key kvs). split_and!; [done..|].
  destruct Hst as (n & g & Hinv & <-). apply from_floor_spec. exact (ti_sorted _ _ _ _ Hinv).
Qed.

(** [mbptree_leaf_first] is the floor of key 0: it stands on the
    first entry only if its key is 0, and on no entry if it is positive. *)
Theorem leaf_first_needs_key_zero calloc_struct t h k v kvs :
  tree_stores t h ((k, v) :: kvs) → calloc_struct h = true → exclusive_lock (lock t) = 0 →
  0 ≤ shared_lock (lock t) < 2 ^ 32 - 1 → 0 ≤ k →
  ∃ it, mbptree_leaf_first calloc_struct t h = Ok (0, Some it, t) ∧
    iterate (iter_fuel t h) it h = Ok (if k =? 0 then (k, v) :: kvs else []).
Proof.
  intros Hst Hc Hex Hsh Hk. unfold mbptree_leaf_first.
  destruct (floor_ok calloc_struct t h _ 0 Hst Hc Hex Hsh) as (it & Hf & Hit).
  exists it. split; [done|]. rewrite Hit. destruct Hst as (n & g & Hinv & Hent).
  pose proof (ti_sorted _ _ _ _ Hinv) as Hs. rewrite Hent in Hs.
  apply StronglySorted_cons in Hs as [Hall _].
  unfold from_floor. simpl. destruct (Z.eqb_spec k 0) as [->|].
  - rewrite (rank_above 0 kvs); [done|exact Hall].
  - by rewrite (proj2 (Z.leb_gt _ _)) by lia.
Qed.

(** [mbptree_free] of a tree whose heap holds its nodes and nothing
    else frees each node exactly once and leaves no block. *)
Theorem free_releases_every_node t h kvs :
  tree_stores t h kvs → mbptree_free t h = Ok ∅.
Proof. apply free_ok. Qed.

(** [C39]: A lookup visits a number of nodes logarithmic in the number of
    entries: in any tree that satisfies the invariant every key reaches a leaf
    through the same number [n] of inner nodes, and the tree holds at least
    [(2 ^ n - 1) * (branch_factor - 1)] entries. *)
Theorem lookup_is_logarithmic t h kvs :
  tree_stores t h kvs →
  ∃ n, ((2 ^ n - 1) * (branch_factor t - 1) ≤ length kvs)%nat ∧
    ∀ key, ∃ l nd, mbptree_find_leaf (S n) (root t) key h = Ok l ∧ h !! l = Some nd ∧ leaf nd = 1.
Proof.
  intros (n & g & Hinv & <-). exists n. split.
  - pose proof (height_leaves _ _ _ (ti_shape _ _ _ _ Hinv)).
    destruct (inv_sizes _ _ _ _ Hinv) as (_ & _ & Hle). nia.
  - intros key.
    destruct (find_leaf_ok (branch_factor t) h key g n 0 (S n)) as (ls & l & kvs & ls' & Hls & Hrun & _).
    { exact (ti_rep _ _ _ _ Hinv). } { exact (ti_shape _ _ _ _ Hinv). } { lia. }
    { by eapply inv_nonempty_or_leaf. } { exact (ti_sorted _ _ _ _ Hinv). }
    destruct (inv_leaf_at _ _ _ _ Hinv _ _ _ _ Hls) as (_ & _ & (q & d & Hd & _) & _).
    rewrite (ti_root _ _ _ _ Hinv). eauto.
Qed.

(** ** A concrete allocator, and a tree of seven entries *)

(** The blocks of the witnesses are numbered upwards. *)
Definition bump_calloc (h : heap) : option Z := Some (1 + map_fold (λ l _ m, Z.max l m) 0 h).
Definition no_calloc (h : heap) : option Z := None.
Definition struct_ok (h : heap) : bool := true.

Lemma bump_fresh h l : bump_calloc h = Some l → l ≠ 0 ∧ h !! l = None.
Proof.
  unfold bump_calloc. intros [= <-].
  assert (Hmax : 0 ≤ map_fold (λ l _ m, Z.max l m) 0 h ∧
    ∀ l nd, h !! l = Some nd → l ≤ map_fold (λ l _ m, Z.max l m) 0 h).
  { apply (map_fold_weak_ind (λ m h, 0 ≤ m ∧ ∀ l nd, h !! l = Some nd → l ≤ m)).
    - split; [done|]. intros ? ?. by rewrite lookup_empty.
    - intros i x m0 r Hi [Hr0 Hr]. split; [lia|]. intros j nd Hj.
      apply lookup_insert_Some in Hj as [[-> _]|[_ Hj]]; [lia|]. specialize (Hr _ _ Hj). lia. }
  destruct Hmax as [H0 Hmax]. split; [lia|].
  destruct (h !! _) as [nd|] eqn:Hl; [|done]. apply Hmax in Hl. lia.
Qed.

Lemma bump_total h : bump_calloc h ≠ None.
Proof. done. Qed.

Lemma no_calloc_fresh h l : no_calloc h = Some l → l ≠ 0 ∧ h !! l = None.
Proof. done. Qed.

Lemma struct_ok_total h : struct_ok h = true.
Proof. done. Qed.

(** The tree after appending the keys [10], [20], ... with branch factor 3. *)
Definition demo_ops (n : nat) : list index_op :=
  (λ i, Append (10 * Z.of_nat (S i)) (Z.of_nat i)) <$> seq 0 n.
Definition demo_run (n : nat) : result (list index_reply * mbptree * heap) :=
  '(t, h) ← mbptree_init bump_calloc struct_ok 3 ∅;
  match t with Some t => run_tree bump_calloc struct_ok (demo_ops n) t h | None => UB end.
Definition demo_tree (n : nat) : mbptree :=
  match demo_run n with Ok (_, t, _) => t | _ => Tree 0 (Lock 0 0) 0 0 end.
Definition demo_heap (n : nat) : heap :=
  match demo_run n with Ok (_, _, h) => h | _ => ∅ end.

Lemma demo_stores n : tree_stores (demo_tree n) (demo_heap n) (run_list (demo_ops n) []).2.
Proof.
  destruct (init_ok bump_calloc struct_ok bump_fresh 3) as (t0 & h0 & Hi & Hst & Hl & _);
    [lia|apply bump_total|apply struct_ok_total|].
  destruct (run_tree_ok bump_calloc struct_ok bump_fresh (demo_ops n) t0 h0 [] Hst Hl bump_total struct_ok_total)
    as (t & h & Hrun & Hst' & _).
  unfold demo_tree, demo_heap, demo_run. by rewrite Hi, bind_Ok, Hrun.
Qed.

Definition demo_mixed : list index_op :=
  [LastValue; FloorFrom 5; Append 1 100; Append 2 200; Append 5 500; Append 5 501; FloorFrom 2;
   Append 6 600; Append 10 1000; Append 12 1200; Append 15 1500; Append 20 2000; Append 22 2200;
   Append 8 800; FloorFrom 16; FloorFrom 0; LastValue].

Lemma tree_refines_sorted_list_witness :
  ∃ t0 h0 t h, mbptree_init bump_calloc struct_ok 3 ∅ = Ok (Some t0, h0) ∧
    run_tree bump_calloc struct_ok demo_mixed t0 h0 = Ok ((run_list demo_mixed []).1, t, h) ∧
    tree_stores t h (run_list demo_mixed []).2 ∧ mbptree_free t h = Ok ∅.
Proof.
  apply (tree_refines_sorted_list bump_calloc struct_ok 3 demo_mixed).
  - apply bump_fresh.
  - apply bump_total.
  - apply struct_ok_total.
  - lia.
Defined.

Lemma append_in_order_witness :
  if not_above (run_list (demo_ops 6) []).2 70
  then mbptree_append bump_calloc (demo_tree 6) 70 6 (demo_heap 6) =
    Ok (ELIDXNM, demo_tree 6, demo_heap 6)
  else ∃ t' h', mbptree_append bump_calloc (demo_tree 6) 70 6 (demo_heap 6) = Ok (0, t', h') ∧
    tree_stores t' h' ((run_list (demo_ops 6) []).2 ++ [(70, 6)]) ∧ lock t' = Lock 0 0 ∧
    branch_factor t' = branch_factor (demo_tree 6) ∧ leaves_kept (demo_heap 6) h'.
Proof.
  apply (append_in_order bump_calloc (demo_tree 6) (demo_heap 6) (run_list (demo_ops 6) []).2 70 6).
  - apply bump_fresh.
  - apply bump_total.
  - apply demo_stores.
  - vm_compute. reflexivity.
Defined.

Lemma append_out_of_memory_witness :
  mbptree_append no_calloc (demo_tree 4) 70 6 (demo_heap 4) = UB.
Proof.
  apply (append_out_of_memory no_calloc (demo_tree 4) (demo_heap 4) (run_list (demo_ops 4) []).2 70 6).
  - apply no_calloc_fresh.
  - reflexivity.
  - apply demo_stores.
  - vm_compute. reflexivity.
  - vm_compute. reflexivity.
Defined.

Lemma leaf_floor_iterates_witness :
  ∃ it rest, mbptree_leaf_floor struct_ok (demo_tree 7) 35 (demo_heap 7) = Ok (0, Some it, demo_tree 7) ∧
    iterate (iter_fuel (demo_tree 7) (demo_heap 7)) it (demo_heap 7) = Ok rest ∧
    match rest with
    | [] => Forall (λ kv, 35 < kv.1) (run_list (demo_ops 7) []).2
    | kv :: after => kv.1 ≤ 35 ∧ Forall (λ kv, 35 < kv.1) after ∧
        ∃ before, (run_list (demo_ops 7) []).2 = before ++ kv :: after
    end.
Proof.
  apply (leaf_floor_iterates struct_ok (demo_tree 7) (demo_heap 7) _ 35).
  - apply demo_stores.
  - reflexivity.
  - vm_compute. reflexivity.
  - vm_compute. split; [discriminate|reflexivity].
Defined.

Lemma leaf_first_needs_key_zero_witness :
  ∃ it, mbptree_leaf_first struct_ok (demo_tree 2) (demo_heap 2) = Ok (0, Some it, demo_tree 2) ∧
    iterate (iter_fuel (demo_tree 2) (demo_heap 2)) it (demo_heap 2) = Ok [].
Proof.
  apply (leaf_first_needs_key_zero struct_ok (demo_tree 2) (demo_heap 2) 10 0 [(20, 1)]).
  - apply (demo_stores 2).
  - reflexivity.
  - vm_compute. reflexivity.
  - vm_compute. split; [discriminate|reflexivity].
  - lia.
Defined.

Lemma free_releases_every_node_witness : mbptree_free (demo_tree 7) (demo_heap 7) = Ok ∅.
Proof. apply (free_releases_every_node _ _ (run_list (demo_ops 7) []).2). apply demo_stores. Defined.

Lemma lookup_is_logarithmic_witness :
  ∃ n, ((2 ^ n - 1) * (branch_factor (demo_tree 7) - 1) ≤ length (run_list (demo_ops 7) []).2)%nat ∧
    ∀ key, ∃ l nd, mbptree_find_leaf (S n) (root (demo_tree 7)) key (demo_heap 7) = Ok l ∧
      demo_heap 7 !! l = Some nd ∧ leaf nd = 1.
Proof. apply lookup_is_logarithmic. apply demo_stores. Defined.

(** three is the smallest branch factor that works: with two, the
    third append of an index that started empty leaves a node without its
    first child, and a lookup of the first key dereferences a null pointer,
    though every append returned 0. [mbptree_init] accepts both. *)
Theorem branch_factor_two_loses_entries :
  ∃ t0 h0 t h, mbptree_init bump_calloc struct_ok 2 ∅ = Ok (Some t0, h0) ∧
    run_tree bump_calloc struct_ok (demo_ops 3) t0 h0 = Ok ([Code 0; Code 0; Code 0], t, h) ∧
    mbptree_leaf_floor struct_ok t 10 h = UB.
Proof.
  do 4 eexists. split; [vm_compute; reflexivity|]. split; [vm_compute; reflexivity|].
  vm_compute. reflexivity.
Qed.
