(* ===== verification/MbptreePrint.v ===== *)
(** * The index tree: printing (src/mbptree.c)

    [mbptree_print] walks the tree with the breadth first iterator. What it
    writes to the standard output is a string here; the format of a pointer is
    left to the implementation by the C standard and is a parameter. *)

From Stdlib Require Import Ascii.
From S2P Require Import Prelude Errno Util Mbptree MbptreeInv MbptreeOps MbptreeAppend MbptreeFind MbptreeSpec.

Section print.
Context (calloc_struct : heap → bool).
(** [%p] *)
Context (print_ptr : Z → string).

(** [PRIu64]: 20 digits hold it. *)
Definition print_u64 (n : Z) : string := print_nat 20 n "".
Definition newline : string := String "010"%char "".

(** The loop of [mbptree_print_node], with [n] entries left. *)
Fixpoint print_entries (n j : nat) (nd : mbptree_node) : result string :=
  match n with
  | O => Ok ""%string
  | S n =>
    kv ← get_data nd j;
    let entry :=
      if negb (leaf nd =? 0) then (" " +:+ print_u64 kv.1 +:+ ":" +:+ print_u64 kv.2)%string
      else (" " +:+ print_u64 kv.1 +:+ ":" +:+ print_ptr kv.2)%string in
    rest ← print_entries n (j + 1) nd;
    Ok ((if (j =? 0)%nat then "" else ",") +:+ entry +:+ rest)%string
  end.

Definition mbptree_print_node (node : Z) (h : heap) : result string :=
  nd ← deref node h;
  let is_leaf := negb (leaf nd =? 0) in
  body ← print_entries (nsize nd) 0 nd;
  kv ← get_data nd (nsize nd);
  let last :=
    if is_leaf then (" | count " +:+ print_u64 (Z.of_nat (nsize nd)) +:+ " next: " +:+ print_u64 kv.2)%string
    else (" _:" +:+ print_ptr kv.2 +:+ " |")%string in
  Ok ("{ " +:+ print_ptr node +:+ " " +:+ (if is_leaf then "L |" else "N |") +:+ body +:+ last +:+
      " parent: " +:+ print_ptr (parent nd) +:+ " }" +:+ newline)%string.

Fixpoint print_loop (fuel : nat) (it : mbptree_bfs_iterator) (h : heap) : result string :=
  match fuel with
  | O => NoFuel
  | S fuel =>
    if mbptree_bfs_iterator_valid it then
      node ← bfs_node it;
      line ← mbptree_print_node node h;
      it ← mbptree_bfs_iterator_next it h;
      rest ← print_loop fuel it h;
      Ok (line +:+ rest)%string
    else Ok ""%string
  end.

(** Every turn moves the head on, and the queue has [queue_cells] cells. An
    iterator that could not be allocated is dereferenced. *)
Definition mbptree_print (tree : mbptree) (h : heap) : result string :=
  it ← mbptree_bfs_first calloc_struct tree h;
  match it with
  | Some it => print_loop (S queue_cells) it h
  | None => UB
  end.
End print.

(** ** Level by level *)

Definition kids_of (g : gtree) : list gtree := match g with GLeaf _ _ => [] | GNode _ kids => kids end.

(** The nodes of trees of height [n], a level after the other. *)
Fixpoint by_levels (n : nat) (ys : list gtree) : list gtree :=
  ys ++ match n with O => [] | S n => by_levels n (flat_map kids_of ys) end.

(** What a queue does: take the first, append its children. *)
Fixpoint bfs_list (fuel : nat) (ys : list gtree) : list gtree :=
  match fuel, ys with
  | S fuel, y :: q => y :: bfs_list fuel (q ++ kids_of y)
  | _, _ => []
  end.

Abbreviation weight ys := (length (flat_map locs ys)).

Lemma locs_kids g : locs g = loc g :: flat_map locs (kids_of g).
Proof. by destruct g. Qed.

Lemma weight_cons y q : weight (y :: q) = S (weight (kids_of y) + weight q).
Proof. simpl. rewrite length_app, locs_kids. simpl. lia. Qed.

Lemma weight_app ys zs : weight (ys ++ zs) = (weight ys + weight zs)%nat.
Proof. by rewrite flat_map_app, length_app. Qed.

Lemma bfs_list_app l1 : ∀ f l2,
  bfs_list (length l1 + f) (l1 ++ l2) = l1 ++ bfs_list f (l2 ++ flat_map kids_of l1).
Proof.
  induction l1 as [|y l1 IH]; intros f l2; simpl; [by rewrite app_nil_r|].
  rewrite <- app_assoc. by rewrite IH, <- app_assoc.
Qed.

Lemma weight_length ys : (length ys ≤ weight ys)%nat.
Proof. induction ys as [|y ys IH]; [done|]. rewrite weight_cons. simpl. lia. Qed.

Lemma weight_level ys : weight ys = (length ys + weight (flat_map kids_of ys))%nat.
Proof.
  induction ys as [|y ys IH]; [done|]. rewrite weight_cons. simpl. rewrite weight_app. lia.
Qed.

Lemma shape_kids bf n ys :
  Forall (shape bf n) ys →
  match n with O => flat_map kids_of ys = [] | S n => Forall (shape bf n) (flat_map kids_of ys) end.
Proof.
  induction 1 as [|y ys Hy _ IH]; [by destruct n|]. destruct y as [l kvs|l kids]; simpl; [done|].
  apply shape_node in Hy as (m & -> & _ & Hk). by apply Forall_app.
Qed.

Lemma bfs_by_levels bf n : ∀ ys fuel,
  Forall (shape bf n) ys → (weight ys ≤ fuel)%nat → bfs_list fuel ys = by_levels n ys.
Proof.
  induction n as [|n IH]; intros ys fuel Hs Hf; pose proof (shape_kids _ _ _ Hs) as Hk;
    pose proof (weight_level ys) as Hw; pose proof (bfs_list_app ys (fuel - length ys) []) as Hb;
    replace (length ys + (fuel - length ys))%nat with fuel in Hb by lia;
    rewrite app_nil_r in Hb; rewrite Hb; simpl; f_equal.
  - rewrite Hk. by destruct (fuel - length ys)%nat.
  - apply IH; [done|lia].
Qed.

(** Each node once. *)
Lemma by_levels_locs bf n : ∀ ys,
  Forall (shape bf n) ys → loc <$> by_levels n ys ≡ₚ flat_map locs ys.
Proof.
  assert (Hsplit : ∀ ys, flat_map locs ys ≡ₚ (loc <$> ys) ++ flat_map locs (flat_map kids_of ys)).
  { induction ys as [|y ys IH]; [done|]. simpl. rewrite locs_kids, IH, flat_map_app. simpl.
    apply Permutation_skip. rewrite !app_assoc. apply Permutation_app_tail, Permutation_app_comm. }
  induction n as [|n IH]; intros ys Hs; rewrite Hsplit; pose proof (shape_kids _ _ _ Hs) as Hk; simpl;
    rewrite fmap_app; apply Permutation_app_head.
  - by rewrite Hk.
  - by apply IH.
Qed.

(** ** Running the iterator *)

Section visit.
Context (calloc_struct : heap → bool) (print_ptr : Z → string) (bf : nat) (h : heap).

Record visitable (y : gtree) : Prop := {
  vs_rep : ∃ p, rep bf h p y;
  vs_shape : ∃ m, shape bf m y;
  vs_null : 0 ∉ locs y;
  vs_room : Forall (λ l, length l.2 < bf)%nat (leaves y)
}.

Lemma visitable_kids y : visitable y → Forall visitable (kids_of y).
Proof using Type.
  destruct y as [l kvs|l kids]; [constructor|]. intros [[p Hr] [m Hs] H0 Hl]. simpl.
  apply rep_node in Hr as [_ Hr]. apply shape_node in Hs as (k & -> & _ & Hs). simpl in Hl.
  rewrite Forall_forall in Hr, Hs. pose proof (proj1 (Forall_forall _ _) Hl) as Hl'. apply Forall_forall. intros y Hy. split; [eauto..| |].
  - intros Hin. apply H0. simpl. right. apply elem_of_flat_map. eauto.
  - apply Forall_forall. intros x Hx. apply Hl', elem_of_flat_map. eauto.
Qed.

(** The block of a node, and how many children the iterator pushes. *)
Lemma visitable_node y :
  visitable y → ∃ nd, h !! loc y = Some nd ∧ (nsize nd < length (data nd))%nat ∧ loc y ≠ 0 ∧
    (if leaf nd =? 0 then length (kids_of y) = S (nsize nd) ∧
       take (length (kids_of y)) (data nd).*2 = loc <$> kids_of y
     else kids_of y = []).
Proof using Type.
  intros [[p Hr] [m Hs] H0 Hl].
  assert (Hne : loc y ≠ 0) by (intros Heq; apply H0; rewrite <- Heq; apply loc_in_locs).
  destruct y as [l kvs|l kids].
  - destruct Hr as (d & Hd & Hld & _). eexists. split; [exact Hd|]. simpl in *.
    pose proof (Forall_inv Hl) as Hlt. simpl in Hlt. split; [lia|]. split; [done|]. done.
  - apply rep_node in Hr as [(d & Hd & Hld & _ & Hv) _]. apply shape_node in Hs as (k & -> & Hlen & _).
    rewrite length_fmap in *. eexists. split; [exact Hd|]. cbn [nsize data leaf loc kids_of].
    split; [lia|]. split; [done|]. split; [lia|]. rewrite Hv, <- list_fmap_compose. done.
Qed.

(** An iterator with [vis] behind its head and [pend] from it on. *)
Record iter_queue (it : mbptree_bfs_iterator) (vis pend : list Z) : Prop := {
  iq_head : bfs_head it = length vis;
  iq_tail : bfs_tail it = length (vis ++ pend);
  iq_queue : ∃ m, bfs_queue it = vis ++ pend ++ replicate m 0;
  iq_cells : length (bfs_queue it) = queue_cells
}.

Lemma push_ok it vis pend x :
  iter_queue it vis pend → (length (vis ++ pend) < queue_cells)%nat →
  ∃ it', bfs_push x it = Ok it' ∧ iter_queue it' vis (pend ++ [x]).
Proof using Type.
  intros [Hh Ht [m Hq] Hc] Hlt. unfold bfs_push. rewrite Ht, Hc, (proj2 (Nat.ltb_lt _ _)) by done.
  simpl assertb. rewrite bind_Ok. eexists. split; [done|].
  rewrite Hq, app_assoc, length_app, length_replicate in Hc. destruct m as [|m]; [lia|].
  split; cbn [bfs_head bfs_tail bfs_queue].
  - done.
  - rewrite !length_app. simpl. lia.
  - exists m. rewrite Hq, app_assoc, <- (Nat.add_0_r (length (vis ++ pend))), insert_app_r.
    simpl. by rewrite <- !app_assoc.
  - rewrite length_insert, Hq, app_assoc, length_app, length_replicate. lia.
Qed.

Lemma push_children_ok nd n : ∀ i it vis pend,
  iter_queue it vis pend → (i + n ≤ length (data nd))%nat →
  (length (vis ++ pend) + n ≤ queue_cells)%nat →
  ∃ it', bfs_push_children n i nd it = Ok it' ∧
    iter_queue it' vis (pend ++ take n (drop i (data nd).*2)).
Proof using Type.
  induction n as [|n IH]; intros i it vis pend Hit Hi Hn; cbn [bfs_push_children].
  { exists it. rewrite take_0, app_nil_r. done. }
  destruct (lookup_lt_is_Some_2 (data nd) i) as [kv Hkv]; [lia|].
  unfold get_data. rewrite Hkv. simpl of_option. rewrite bind_Ok.
  destruct (push_ok it vis pend kv.2 Hit) as (it1 & Hp & Hit1); [lia|]. run Hp.
  destruct (IH (i + 1)%nat it1 vis (pend ++ [kv.2]) Hit1) as (it2 & Hrun & Hit2).
  - lia.
  - rewrite !length_app in *. simpl. lia.
  - exists it2. split; [done|]. rewrite <- app_assoc in Hit2.
    rewrite (drop_S _ kv.2) by (by rewrite list_lookup_fmap, Hkv). by rewrite Nat.add_1_r in Hit2.
Qed.

(** Arriving at a node pushes its children. *)
Lemma arrive_ok y it vis pend :
  visitable y → iter_queue it vis pend →
  (length (vis ++ pend) + length (kids_of y) ≤ queue_cells)%nat →
  ∃ it', (nd ← deref (loc y) h; if leaf nd =? 0 then bfs_push_children (S (nsize nd)) 0 nd it else Ok it) = Ok it' ∧
    iter_queue it' vis (pend ++ (loc <$> kids_of y)).
Proof using Type.
  intros Hy Hit Hn. destruct (visitable_node y Hy) as (nd & Hd & Hsz & _ & Hkids).
  run (deref_Ok _ _ _ Hd). destruct (leaf nd =? 0).
  - destruct Hkids as [Hlen Hloc]. rewrite Hlen in Hn.
    destruct (push_children_ok nd (S (nsize nd)) 0 it vis pend Hit) as (it' & Hrun & Hit'); [lia|lia|].
    exists it'. split; [done|]. rewrite drop_0, <- Hlen, Hloc in Hit'. done.
  - exists it. rewrite Hkids. simpl. by rewrite app_nil_r.
Qed.

(** ** Printing *)

Lemma print_entries_ok nd n : ∀ j,
  (j + n ≤ length (data nd))%nat → ∃ s, print_entries print_ptr n j nd = Ok s.
Proof using Type.
  induction n as [|n IH]; intros j Hj; cbn [print_entries]; [by eexists|].
  destruct (lookup_lt_is_Some_2 (data nd) j) as [kv Hkv]; [lia|].
  unfold get_data. rewrite Hkv. simpl of_option. rewrite bind_Ok.
  destruct (IH (j + 1)%nat) as [s Hs]; [lia|]. run Hs. by eexists.
Qed.

Lemma print_node_ok y : visitable y → ∃ s, mbptree_print_node print_ptr (loc y) h = Ok s.
Proof using Type.
  intros Hy. destruct (visitable_node y Hy) as (nd & Hd & Hsz & _).
  unfold mbptree_print_node. run (deref_Ok _ _ _ Hd).
  destruct (print_entries_ok nd (nsize nd) 0) as [s Hs]; [lia|]. run Hs.
  destruct (lookup_lt_is_Some_2 (data nd) (nsize nd)) as [kv Hkv]; [lia|].
  unfold get_data. rewrite Hkv. simpl of_option. rewrite bind_Ok. by eexists.
Qed.

Definition prints (y : gtree) (s : string) : Prop := mbptree_print_node print_ptr (loc y) h = Ok s.
Definition lines (ss : list string) : string := foldr String.append ""%string ss.

(** The queue when its first node is visited: the children of that node are
    in it. *)
Definition arrived (it : mbptree_bfs_iterator) (vis : list Z) (ys : list gtree) : Prop :=
  iter_queue it vis (loc <$> (ys ++ match ys with [] => [] | y :: _ => kids_of y end)).

Lemma next_ok it vis y q :
  Forall visitable (y :: q) → arrived it vis (y :: q) →
  (length vis + weight (y :: q) < queue_cells)%nat →
  ∃ it', mbptree_bfs_iterator_next it h = Ok it' ∧ arrived it' (vis ++ [loc y]) (q ++ kids_of y).
Proof using Type.
  intros [Hy Hq]%Forall_cons Hit Hw. set (ys := q ++ kids_of y). unfold mbptree_bfs_iterator_next.
  assert (Hys : Forall visitable ys) by (apply Forall_app; split; [done|by apply visitable_kids]).
  rewrite weight_cons, <- Nat.add_comm, Nat.add_comm in Hw.
  assert (Hwy : weight ys = (weight q + weight (kids_of y))%nat) by apply weight_app.
  set (it1 := BfsIterator _ _ _).
  assert (Hit1 : iter_queue it1 (vis ++ [loc y]) (loc <$> ys)).
  { destruct Hit as [Hh Ht [m Hm] Hc]. unfold it1. split; cbn [bfs_head bfs_tail bfs_queue]; [..|done].
    - rewrite Hh, length_app. simpl. lia.
    - rewrite Ht, <- app_assoc. done.
    - exists m. rewrite Hm, <- app_assoc. done. }
  pose proof Hit1 as [Hh Ht [m Hm] Hc]. unfold bfs_node. rewrite Hh, Hm.
  pose proof (weight_length ys). rewrite Hm, !length_app, length_replicate, length_fmap in Hc.
  rewrite lookup_app_r, Nat.sub_diag by done. destruct ys as [|y' q'] eqn:Hcase.
  - destruct m as [|m]; [simpl in *; lia|]. simpl. by exists it1.
  - apply Forall_cons in Hys as [Hy' _]. cbn [fmap list_fmap app lookup list_lookup of_option]. rewrite bind_Ok.
    destruct (visitable_node y' Hy') as (_ & _ & _ & Hne & _). rewrite (proj2 (Z.eqb_neq _ _)) by done.
    rewrite weight_cons in *. pose proof (weight_length q'). pose proof (weight_length (kids_of y')).
    destruct (arrive_ok y' it1 _ _ Hy' Hit1) as (it' & Hrun & Hit').
    { rewrite length_app, length_fmap. simpl in *. rewrite length_app in *. simpl in *. lia. }
    exists it'. split; [done|]. unfold arrived. rewrite fmap_app. exact Hit'.
Qed.

Lemma print_loop_ok f : ∀ ys it vis fuel,
  Forall visitable ys → arrived it vis ys → (length vis + weight ys < queue_cells)%nat →
  (weight ys < fuel)%nat → (weight ys ≤ f)%nat →
  ∃ ss, Forall2 prints (bfs_list f ys) ss ∧ print_loop print_ptr fuel it h = Ok (lines ss).
Proof using Type.
  induction f as [|f IH]; intros ys it vis fuel Hys Hit Hw Hfuel Hf; (destruct fuel as [|fuel]; [lia|]);
    cbn [print_loop]; unfold mbptree_bfs_iterator_valid; pose proof Hit as [Hh Ht [m Hm] Hc]; rewrite Hh, Ht;
    (destruct ys as [|y q];
      [exists []; split; [constructor|]; by rewrite app_nil_r, (proj2 (Nat.ltb_ge _ _))|]).
  { rewrite weight_cons in Hf. lia. }
  rewrite (proj2 (Nat.ltb_lt _ _)) by (rewrite length_app; simpl; lia).
  unfold bfs_node. rewrite Hh, Hm, lookup_app_r, Nat.sub_diag by done.
  cbn [fmap list_fmap app lookup list_lookup of_option]. rewrite bind_Ok.
  pose proof Hys as [Hy Hq]%Forall_cons. destruct (print_node_ok y Hy) as [s Hs]. run Hs.
  destruct (next_ok it vis y q Hys Hit Hw) as (it' & Hn & Hit'). run Hn.
  rewrite weight_cons in *. destruct (IH (q ++ kids_of y) it' (vis ++ [loc y]) fuel) as (ss & Hss & Hrun).
  - apply Forall_app. split; [done|by apply visitable_kids].
  - done.
  - rewrite length_app, weight_app. simpl. lia.
  - rewrite weight_app. lia.
  - rewrite weight_app. lia.
  - run Hrun. exists (s :: ss). split; [by constructor|done].
Qed.
End visit.

Lemma tree_visitable t h n g : tree_inv t h n g → visitable (branch_factor t) h g.
Proof.
  intros I. destruct (ti_leaves _ _ _ _ I) as (ls & last & Hls & [Hfull Hlast _] & _).
  pose proof (ti_bf _ _ _ _ I). split.
  - exists 0. apply I.
  - exists n. apply I.
  - apply I.
  - rewrite Hls. apply Forall_app. split.
    + eapply Forall_impl; [exact Hfull|]. simpl. lia.
    + constructor; [lia|constructor].
Qed.

(** [C27]: [mbptree_print], and with it the breadth first iterator, goes
    through a tree of fewer nodes than its queue has cells level by level: it
    terminates, prints the line of every block of the tree once, and meets no
    undefined behaviour. *)
Theorem print_visits_levels calloc_struct print_ptr t h n g :
  tree_inv t h n g → calloc_struct h = true → (size h < queue_cells)%nat →
  ∃ ss, mbptree_print calloc_struct print_ptr t h = Ok (lines ss) ∧
    Forall2 (prints print_ptr h) (by_levels n [g]) ss ∧
    loc <$> by_levels n [g] ≡ₚ elements (dom h).
Proof.
  intros I Hc Hsize. pose proof (tree_visitable _ _ _ _ I) as Hg.
  pose proof (Forall_cons_2 _ _ _ (ti_shape _ _ _ _ I) (Forall_nil_2 _)) as Hsh.
  assert (Hdom : locs g ≡ₚ elements (dom h)).
  { apply NoDup_Permutation; [apply I|apply NoDup_elements|]. intros l.
    rewrite elem_of_elements. symmetry. apply I. }
  assert (Hw : weight [g] = size h).
  { cbn [flat_map]. rewrite app_nil_r, Hdom. by rewrite <- size_dom. }
  unfold mbptree_print, mbptree_bfs_first. rewrite Hc.
  set (it0 := BfsIterator 0 0 (replicate queue_cells 0)).
  assert (H0 : iter_queue it0 [] []).
  { split; [done|done|by exists queue_cells|apply length_replicate]. }
  destruct (push_ok it0 [] [] (root t) H0) as (it1 & Hp & Hit1); [simpl; lia|]. run Hp.
  rewrite (ti_root _ _ _ _ I) in *.
  pose proof (weight_length (kids_of g)) as Hk. rewrite weight_cons in Hw.
  destruct (arrive_ok _ _ g it1 [] [loc g] Hg Hit1) as (it2 & Harr & Hit2); [simpl; lia|].
  unfold bfs_node. destruct Hit1 as [Hh _ [m Hm] _]. rewrite Hh, Hm. simpl lookup. simpl of_option. rewrite bind_Ok.
  destruct (visitable_node _ _ _ Hg) as (nd & Hd & _). rewrite (deref_Ok _ _ _ Hd) in Harr. run (deref_Ok _ _ _ Hd). rewrite ?bind_Ok in Harr. run Harr.
  destruct (print_loop_ok print_ptr (branch_factor t) h (size h) [g] it2 [] (S queue_cells)) as (ss & Hss & Hrun).
  - by apply Forall_singleton.
  - exact Hit2.
  - rewrite weight_cons. simpl length at 1. lia.
  - rewrite weight_cons. lia.
  - rewrite weight_cons. lia.
  - exists ss. split; [exact Hrun|]. split.
    + rewrite <- (bfs_by_levels (branch_factor t) n [g] (size h)); [done|done|rewrite weight_cons; lia].
    + rewrite (by_levels_locs _ _ _ Hsh). cbn [flat_map]. by rewrite app_nil_r.
Qed.

Lemma print_visits_levels_witness :
  ∃ n g ss, mbptree_print struct_ok (λ p, "0x" +:+ print_u64 p)%string (demo_tree 6) (demo_heap 6) = Ok (lines ss) ∧
    Forall2 (prints (λ p, "0x" +:+ print_u64 p)%string (demo_heap 6)) (by_levels n [g]) ss ∧
    loc <$> by_levels n [g] ≡ₚ elements (dom (demo_heap 6)).
Proof.
  destruct (demo_stores 6) as (n & g & I & _). exists n, g.
  apply (print_visits_levels struct_ok _ (demo_tree 6) (demo_heap 6) n g I).
  - reflexivity.
  - apply Nat.ltb_lt. by vm_compute.
Defined.
