(* ===== verification/MbptreeThreads.v ===== *)
(** * The index tree under concurrent calls (src/mbptree.c)

    [mbptree_append] and [mbptree_leaf_floor] share a lock word with an
    exclusive bit and a count of readers; [mbptree_last_value] takes no lock.
    This file cuts the calls at their accesses to the memory they share, under
    sequential consistency. The stores of an append to a leaf with room, and
    the loads of the scan that [mbptree_leaf_floor] makes after it has released
    the lock, are single accesses; the search of [mbptree_find_leaf] and the
    append to a full leaf are one step each, since the lock excludes the calls
    that would meet them half-way, and an append to a full leaf stores to no
    size or key of a leaf that a scan can hold. *)

From S2P Require Import Prelude Errno Mbptree.

(** ** Where a call stands *)

Inductive append_pc :=
  | A_lock                              (* compare and swap of the lock *)
  | A_leaf                              (* look at the last leaf *)
  | A_size (leaf0 : Z)                  (* [leaf->size++] *)
  | A_key (leaf0 : Z) (i : nat)         (* [data->key = key] *)
  | A_value (leaf0 : Z) (i : nat)       (* [data->value = value] *)
  | A_unlock (rc : Z)                   (* [tree->lock = old_val] *)
  | A_return (rc : Z).

Inductive floor_pc :=
  | F_calloc                            (* the iterator *)
  | F_lock                              (* load the lock *)
  | F_swap (old_val : mbptree_lock)     (* compare and swap of the lock *)
  | F_find                              (* [mbptree_find_leaf] *)
  | F_load (leaf0 : Z)                  (* [--shared_lock]: load the count *)
  | F_store (leaf0 shared : Z)          (* store it *)
  | F_size (leaf0 : Z) (i : nat) (idx : Z)   (* the loop: [i < leaf->size] *)
  | F_key (leaf0 : Z) (i : nat) (idx : Z)    (* [leaf->data[i].key <= key] *)
  | F_return (rc : Z) (it : option mbptree_leaf_iterator).

Inductive last_pc :=
  | V_leaf                              (* load [tree->last_leaf] *)
  | V_size (leaf0 : Z)                  (* [last_leaf->size == 0] *)
  | V_index (leaf0 : Z)                 (* [last_leaf->size - 1] *)
  | V_value (leaf0 : Z) (i : nat)       (* load the value *)
  | V_return (rc : Z) (value : option Z).

Inductive tree_call :=
  | Appending (key value : Z) (pc : append_pc)
  | Flooring (key : Z) (pc : floor_pc)
  | Lasting (pc : last_pc).

(** ** One access *)

Section steps.
Context (calloc : heap → option Z) (calloc_struct : heap → bool).

Definition append_step (key value : Z) (pc : append_pc) (tree : mbptree) (h : heap)
    : result (append_pc * mbptree * heap) :=
  match pc with
  | A_lock =>
    Ok (if decide (lock tree = Lock 0 0) then (A_leaf, set_lock (Lock 1 0) tree, h)
        else (A_return ELIDXLK, tree, h))
  | A_leaf =>
    let leaf0 := last_leaf tree in
    l ← deref leaf0 h;
    not_monotonic ← (if (0 <? nsize l)%nat
                     then kv ← get_data l (nsize l - 1); Ok (key <=? kv.1) else Ok false);
    if (not_monotonic : bool) then Ok (A_unlock ELIDXNM, tree, h)
    else
      full ← mbptree_node_full tree l;
      if negb full then Ok (A_size leaf0, tree, h)
      else '(rc, tree, h) ← mbptree_tryappend calloc tree key value h; Ok (A_unlock rc, tree, h)
  | A_size leaf0 =>
    l ← deref leaf0 h;
    h ← update leaf0 (λ nd, Ok (set_nsize (S (nsize nd)) nd)) h;
    Ok (A_key leaf0 (nsize l), tree, h)
  | A_key leaf0 i => h ← update leaf0 (put_key i key) h; Ok (A_value leaf0 i, tree, h)
  | A_value leaf0 i => h ← update leaf0 (put_value i value) h; Ok (A_unlock 0, tree, h)
  | A_unlock rc => Ok (A_return rc, set_lock (Lock 0 0) tree, h)
  | A_return rc => Ok (A_return rc, tree, h)
  end.

(** The end of [mbptree_leaf_floor]. *)
Definition floor_iterator (leaf0 idx : Z) : mbptree_leaf_iterator :=
  if idx =? -1 then LeafIterator 0 0 else LeafIterator (Z.to_nat idx) leaf0.

Definition floor_step (key : Z) (pc : floor_pc) (tree : mbptree) (h : heap)
    : result (floor_pc * mbptree) :=
  match pc with
  | F_calloc => Ok (if calloc_struct h then F_lock else F_return ELALLC None, tree)
  | F_lock => Ok (F_swap (lock tree), tree)
  | F_swap old_val =>
    let expected_val := Lock 0 (shared_lock old_val) in
    let new_val := Lock (exclusive_lock old_val) (u32 (shared_lock old_val + 1)) in
    Ok (if decide (lock tree = expected_val) then (F_find, set_lock new_val tree)
        else (F_return ELIDXLK None, tree))
  | F_find =>
    leaf0 ← mbptree_find_leaf (walk_fuel h) (root tree) key h;
    Ok (F_load leaf0, tree)
  | F_load leaf0 => Ok (F_store leaf0 (shared_lock (lock tree)), tree)
  | F_store leaf0 shared =>
    let tree := set_lock (Lock (exclusive_lock (lock tree)) (u32 (shared - 1))) tree in
    _ ← assertb (negb (leaf0 =? 0));
    Ok (F_size leaf0 0 (-1), tree)
  | F_size leaf0 i idx =>
    l ← deref leaf0 h;
    Ok (if (i <? nsize l)%nat then F_key leaf0 i idx
        else F_return 0 (Some (floor_iterator leaf0 idx)), tree)
  | F_key leaf0 i idx =>
    l ← deref leaf0 h;
    kv ← get_data l i;
    Ok (if kv.1 <=? key then F_size leaf0 (i + 1) (Z.of_nat i)
        else F_return 0 (Some (floor_iterator leaf0 idx)), tree)
  | F_return rc it => Ok (F_return rc it, tree)
  end.

Definition last_step (pc : last_pc) (tree : mbptree) (h : heap) : result last_pc :=
  match pc with
  | V_leaf => Ok (V_size (last_leaf tree))
  | V_size leaf0 =>
    l ← deref leaf0 h;
    Ok (if (nsize l =? 0)%nat then V_return (-1) None else V_index leaf0)
  | V_index leaf0 =>
    l ← deref leaf0 h;
    match nsize l with O => UB | S i => Ok (V_value leaf0 i) end
  | V_value leaf0 i =>
    l ← deref leaf0 h;
    kv ← get_data l i;
    Ok (V_return 0 (Some kv.2))
  | V_return rc value => Ok (V_return rc value)
  end.

(** ** Interleavings *)

Record tree_state := TreeState { ts_tree : mbptree; ts_heap : heap; ts_calls : list tree_call }.

Definition tree_call_step (c : tree_call) (tree : mbptree) (h : heap)
    : result (tree_call * mbptree * heap) :=
  match c with
  | Appending k v pc => '(pc, tree, h) ← append_step k v pc tree h; Ok (Appending k v pc, tree, h)
  | Flooring k pc => '(pc, tree) ← floor_step k pc tree h; Ok (Flooring k pc, tree, h)
  | Lasting pc => pc ← last_step pc tree h; Ok (Lasting pc, tree, h)
  end.

(** A call starts, or the call [i] makes its next access. *)
Inductive tree_event :=
  | Start_append (key value : Z)
  | Start_floor (key : Z)
  | Start_last
  | Go (i : nat).

Definition tree_event_step (ev : tree_event) (st : tree_state) : result tree_state :=
  let '(TreeState tree h cs) := st in
  match ev with
  | Start_append k v => Ok (TreeState tree h (cs ++ [Appending k v A_lock]))
  | Start_floor k => Ok (TreeState tree h (cs ++ [Flooring k F_calloc]))
  | Start_last => Ok (TreeState tree h (cs ++ [Lasting V_leaf]))
  | Go i =>
    match cs !! i with
    | Some c => '(c, tree, h) ← tree_call_step c tree h; Ok (TreeState tree h (<[i := c]> cs))
    | None => Ok st
    end
  end.

Fixpoint tree_exec (evs : list tree_event) (st : tree_state) : result tree_state :=
  match evs with
  | [] => Ok st
  | ev :: evs => st ← tree_event_step ev st; tree_exec evs st
  end.

(** A call with no other in between. *)
Fixpoint tree_alone (n : nat) (c : tree_call) (tree : mbptree) (h : heap)
    : result (tree_call * mbptree * heap) :=
  match n with
  | O => Ok (c, tree, h)
  | S n => '(c, tree, h) ← tree_call_step c tree h; tree_alone n c tree h
  end.

(** ** Who holds the lock *)

Definition writing (c : tree_call) : bool :=
  match c with
  | Appending _ _ (A_lock | A_return _) | Flooring _ _ | Lasting _ => false
  | Appending _ _ _ => true
  end.

Definition searching (c : tree_call) : bool :=
  match c with
  | Flooring _ (F_find | F_load _ | F_store _ _) => true
  | _ => false
  end.

(** How many of the calls do. *)
Definition tally (f : tree_call → bool) (cs : list tree_call) : nat := length (filter f cs).

(** The states reached while at most one call of [mbptree_leaf_floor] holds
    the lock. *)
Inductive tree_reachable (st : tree_state) : tree_state → Prop :=
  | tree_reach_start : tree_reachable st st
  | tree_reach_event ev st1 st2 :
      tree_reachable st st1 → (tally searching (ts_calls st1) ≤ 1)%nat →
      tree_event_step ev st1 = Ok st2 → tree_reachable st st2.

(** The entries of the appends that have stored them. *)
Definition stored_entry (c : tree_call) : option (Z * Z) :=
  match c with
  | Appending k v (A_unlock rc | A_return rc) => if rc =? 0 then Some (k, v) else None
  | _ => None
  end.
Definition stored_entries (cs : list tree_call) : list (Z * Z) := omap stored_entry cs.
End steps.
