(* ===== verification/MbptreeThreadsInv.v ===== *)
(** * The index tree under concurrent calls: the invariant

    While at most one lookup holds the lock, a writer is alone with the tree:
    between two writers the tree stores its entries, and what a writer has
    left to do completes the tree. A scan without the lock holds a leaf that
    no writer takes away. *)

From S2P Require Import Prelude Errno Mbptree MbptreeInv MbptreeOps MbptreeAppend MbptreeFind MbptreeSpec MbptreeThreads.

(** ** Counting calls *)

Definition one (b : bool) : nat := if b then 1 else 0.

Lemma tally_snoc f cs c : tally f (cs ++ [c]) = (tally f cs + one (f c))%nat.
Proof.
  unfold tally. rewrite filter_app, length_app. f_equal. rewrite filter_cons. by destruct (f c).
Qed.

Lemma tally_insert f cs i c c' :
  cs !! i = Some c → (tally f (<[i := c']> cs) + one (f c) = tally f cs + one (f c'))%nat.
Proof.
  intros Hc. rewrite (insert_take_drop cs i c') by (by eapply lookup_lt_Some).
  rewrite <- (take_drop_middle cs i c Hc) at 3. unfold tally.
  rewrite !filter_app, !length_app, !filter_cons. destruct (f c), (f c'); simpl; lia.
Qed.

Lemma tally_zero f cs i c : tally f cs = 0%nat → cs !! i = Some c → f c = false.
Proof.
  intros H0 Hc. pose proof (tally_insert f cs i c c Hc) as H. destruct (f c) eqn:Hf; [exfalso|done].
  rewrite <- (take_drop_middle cs i c Hc) in H0. unfold tally in H0.
  rewrite filter_app, length_app, filter_cons, Hf in H0. simpl in H0. lia.
Qed.

Lemma tally_pos f cs i c : cs !! i = Some c → f c = true → (0 < tally f cs)%nat.
Proof. intros Hc Hf. destruct (tally f cs) eqn:H0; [|lia]. by rewrite (tally_zero f cs i c) in Hf. Qed.

(** A call that is the only one leaves the others out. *)
Lemma tally_two f cs : ∀ i j c c2,
  cs !! i = Some c → f c = true → cs !! j = Some c2 → f c2 = true → i ≠ j → (2 ≤ tally f cs)%nat.
Proof.
  induction cs as [|x cs IH]; intros [|i] [|j] c c2 Hc Hf Hc2 Hf2 Hne; simplify_eq/=;
    unfold tally; rewrite filter_cons.
  - rewrite Hf. pose proof (tally_pos f cs j c2 Hc2 Hf2). unfold tally in *. simpl. lia.
  - rewrite Hf2. pose proof (tally_pos f cs i c Hc Hf). unfold tally in *. simpl. lia.
  - pose proof (IH i j c c2 Hc Hf Hc2 Hf2 ltac:(lia)). unfold tally in *. destruct (decide (f x)); simpl; lia.
Qed.

Lemma tally_other f cs i j c c2 :
  (tally f cs ≤ 1)%nat → cs !! i = Some c → f c = true → cs !! j = Some c2 → i ≠ j → f c2 = false.
Proof.
  intros H1 Hc Hf Hc2 Hne. destruct (f c2) eqn:Hf2; [exfalso|done].
  pose proof (tally_two f cs i j c c2 Hc Hf Hc2 Hf2 Hne). lia.
Qed.

Lemma stored_insert cs i c c' :
  cs !! i = Some c → stored_entry c = None →
  stored_entries (<[i := c']> cs) ≡ₚ stored_entries cs ++ option_list (stored_entry c').
Proof.
  intros Hc Hn. rewrite (insert_take_drop cs i c') by (by eapply lookup_lt_Some).
  rewrite <- (take_drop_middle cs i c Hc) at 3. unfold stored_entries. rewrite !omap_app. simpl. rewrite Hn.
  destruct (stored_entry c') as [kv|]; simpl; [solve_Permutation|by rewrite app_nil_r].
Qed.

Lemma stored_insert_same cs i c c' :
  cs !! i = Some c → stored_entry c' = stored_entry c → stored_entries (<[i := c']> cs) = stored_entries cs.
Proof.
  intros Hc He. rewrite (insert_take_drop cs i c') by (by eapply lookup_lt_Some).
  rewrite <- (take_drop_middle cs i c Hc) at 3. unfold stored_entries. rewrite !omap_app. simpl. by rewrite He.
Qed.

(** ** The sizes of blocks *)

Definition sound_sizes (h : heap) : Prop := ∀ l nd, h !! l = Some nd → (nsize nd ≤ length (data nd))%nat.

Lemma rep_sizes bf h g : ∀ n p l nd,
  rep bf h p g → shape bf n g → l ∈ locs g → h !! l = Some nd → (nsize nd ≤ length (data nd))%nat.
Proof.
  induction g as [l0 kvs|l0 kids IH] using gtree_ind'; intros n p l nd Hrep Hsh Hl Hnd.
  - destruct Hrep as (d & Hd & Hdl & Hk & _). simpl in Hl. apply list_elem_of_singleton in Hl as ->.
    rewrite Hd in Hnd. injection Hnd as <-. simpl. apply (f_equal length) in Hk. rewrite length_take in Hk. lia.
  - apply rep_node in Hrep as [(d & Hd & Hdl & _) Hkids]. apply shape_node in Hsh as (m & -> & Hlen & Hsk).
    simpl in Hl. apply elem_of_cons in Hl as [->|Hl].
    + rewrite Hd in Hnd. injection Hnd as <-. simpl. rewrite length_fmap. lia.
    + apply elem_of_flat_map in Hl as (k & Hin & Hl). rewrite Forall_forall in IH, Hkids, Hsk. eauto.
Qed.

Lemma stores_sizes t h kvs : tree_stores t h kvs → sound_sizes h.
Proof.
  intros (n & g & I & _) l nd Hl. eapply rep_sizes; [apply I|apply I| |exact Hl].
  apply (ti_dom _ _ _ _ I). by eapply elem_of_dom_2.
Qed.

(** The last leaf is one. *)
Lemma stores_last t h kvs : tree_stores t h kvs → ∃ nd, h !! last_leaf t = Some nd ∧ leaf nd = 1.
Proof.
  intros (n & g & I & _). destruct (open_inv _ _ _ _ I) as (fs & l & kvs' & _ & Hop & _).
  destruct (op_leaf _ _ _ _ _ _ Hop) as (d & Hd & _). rewrite (op_last _ _ _ _ _ _ Hop). by eexists.
Qed.

(** ** The steps of an append *)

(** The block a push leaves, in three steps. *)
Definition sized (nd : mbptree_node) : mbptree_node := set_nsize (S (nsize nd)) nd.
Definition filled (kv : Z * Z) (nd : mbptree_node) : mbptree_node :=
  Node (leaf nd) (S (nsize nd)) (parent nd) (<[nsize nd := kv]> (data nd)).

Lemma push_entry_inv l k v h h' :
  push_entry l k v h = Ok h' →
  ∃ nd, h !! l = Some nd ∧ (nsize nd < length (data nd))%nat ∧ h' = <[l := filled (k, v) nd]> h.
Proof.
  unfold push_entry, update, deref. destruct (h !! l) as [nd|]; [|done]. cbn [of_option]. rewrite bind_Ok.
  unfold put_data. destruct (Nat.ltb_spec (nsize nd) (length (data nd))); [|done].
  rewrite !bind_Ok. intros [= <-]. by exists nd.
Qed.

Lemma push_grown l nd nd' h :
  h !! l = Some nd → leaf nd' = 1 → (nsize nd ≤ nsize nd')%nat → leaves_grown h (<[l := nd']> h).
Proof.
  intros Hl Hlf Hle x nd0 Hx Hlf0. destruct (decide (x = l)) as [->|Hne].
  - rewrite Hl in Hx. injection Hx as <-. exists nd'. by rewrite lookup_insert_eq.
  - exists nd0. by rewrite lookup_insert_ne.
Qed.

Lemma sizes_insert l nd h : sound_sizes h → (nsize nd ≤ length (data nd))%nat → sound_sizes (<[l := nd]> h).
Proof.
  intros Hs Hle l' nd' Hl'. destruct (decide (l' = l)) as [->|Hne].
  - rewrite lookup_insert_eq in Hl'. by injection Hl' as <-.
  - rewrite lookup_insert_ne in Hl' by done. by apply (Hs l').
Qed.

Section steps.
Context (calloc : heap → option Z).
Context (calloc_fresh : ∀ h l, calloc h = Some l → l ≠ 0 ∧ h !! l = None) (calloc_total : ∀ h, calloc h ≠ None).

(** What an append does once it has looked at the last leaf. *)
Inductive looked (t : mbptree) (h : heap) (kvs : list (Z * Z)) (k v : Z) :
    append_pc * mbptree * heap → Prop :=
  | looked_refused : looked t h kvs k v (A_unlock ELIDXNM, t, h)
  | looked_full t' h' : lock t' = lock t → leaves_grown h h' → tree_stores t' h' (kvs ++ [(k, v)]) →
      looked t h kvs k v (A_unlock 0, t', h')
  | looked_room nd : h !! last_leaf t = Some nd → leaf nd = 1 → (nsize nd < length (data nd))%nat →
      tree_stores t (<[last_leaf t := filled (k, v) nd]> h) (kvs ++ [(k, v)]) →
      looked t h kvs k v (A_size (last_leaf t), t, h).

Lemma append_looks t h kvs k v :
  tree_stores t h kvs → ∃ r, append_step calloc k v A_leaf t h = Ok r ∧ looked t h kvs k v r.
Proof using calloc_fresh calloc_total.
  intros (n & g & I & <-). destruct (open_inv _ _ _ _ I) as (fs & l & kvs & Hg & Hop & _).
  pose proof (op_leaf _ _ _ _ _ _ Hop) as (d & Hd & _). pose proof (op_last _ _ _ _ _ _ Hop) as Hlast.
  assert (Hdone : ∃ rc t' h', mbptree_tryappend calloc t k v h = Ok (rc, t', h') ∧
    (rc = ELIDXNM ∧ t' = t ∧ h' = h ∨
     rc = 0 ∧ lock t' = lock t ∧ tree_stores t' h' (entries g ++ [(k, v)]) ∧ leaves_grown h h')).
  { destruct (tryappend_ok calloc calloc_fresh t h n g k v I) as [[_ H]|(_ & H & _)].
    - eexists _, _, _. split; [exact H|]. by left.
    - inversion H as [r l' t' h' -> Hst Hk Heq|h0 Hc|Hc|t' h' h0 Hc]; [|by destruct (calloc_total _ Hc)..].
      eexists _, _, _. split; [done|]. right. split_and!; try done. by apply kept_grown. }
  destruct Hdone as (rc & t' & h' & Hrun & Hcase). pose proof Hrun as E.
  unfold mbptree_tryappend in E. cbn [append_step]. rewrite Hlast in E |- *.
  rewrite (deref_Ok _ _ _ Hd), bind_Ok in E. rewrite (deref_Ok _ _ _ Hd), bind_Ok.
  apply bind_Ok_inv in E as (nm & Hnm & E). rewrite Hnm, bind_Ok.
  destruct nm; [eexists; split; [done|constructor]|].
  apply bind_Ok_inv in E as (full & Hfull & E). rewrite Hfull, bind_Ok. destruct full; cbn [negb] in *.
  - rewrite Hrun, bind_Ok. eexists. split; [done|].
    destruct Hcase as [(-> & -> & ->)|(-> & Hl & Hst & Hk)]; by constructor.
  - apply bind_Ok_inv in E as (h1 & Hpush & [= <- <- <-]). eexists. split; [done|].
    destruct Hcase as [(? & _)|(_ & _ & Hst & _)]; [done|]. rewrite <- Hlast in *.
    apply push_entry_inv in Hpush as (nd & Hnd & Hlt & ->). econstructor; [exact Hnd|..|done].
    + rewrite Hd in Hnd. by injection Hnd as <-.
    + done.
Qed.

End steps.

(** ** Calls *)

(** A leaf a lookup has found. *)
Definition found (h : heap) (l : Z) (size : nat) : Prop :=
  ∃ nd, h !! l = Some nd ∧ leaf nd = 1 ∧ (size ≤ nsize nd)%nat.

Definition append_ok_at (t : mbptree) (h : heap) (kvs : list (Z * Z)) (k v : Z) (pc : append_pc) : Prop :=
  match pc with
  | A_lock => True
  | A_leaf => tree_stores t h kvs
  | A_size l => l = last_leaf t ∧ tree_stores t h kvs ∧ ∃ nd, h !! l = Some nd ∧ leaf nd = 1 ∧
      (nsize nd < length (data nd))%nat ∧ tree_stores t (<[l := filled (k, v) nd]> h) (kvs ++ [(k, v)])
  | A_key l i => ∃ h0 nd, h = <[l := sized nd]> h0 ∧ h0 !! l = Some nd ∧ leaf nd = 1 ∧ i = nsize nd ∧
      (i < length (data nd))%nat ∧ tree_stores t (<[l := filled (k, v) nd]> h0) (kvs ++ [(k, v)])
  | A_value l i => ∃ h0 nd v0, h = <[l := filled (k, v0) nd]> h0 ∧ h0 !! l = Some nd ∧ leaf nd = 1 ∧ i = nsize nd ∧
      (i < length (data nd))%nat ∧ tree_stores t (<[l := filled (k, v) nd]> h0) (kvs ++ [(k, v)])
  | A_unlock rc => tree_stores t h kvs ∧ rc ∈ [0; ELIDXNM]
  | A_return rc => rc ∈ [0; ELIDXNM; ELIDXLK]
  end.

Definition idx_ok (idx : Z) (size : nat) : Prop := idx = -1 ∨ 0 ≤ idx < Z.of_nat size.

Definition floor_ok_at (h : heap) (pc : floor_pc) : Prop :=
  match pc with
  | F_load l | F_store l _ => l ≠ 0 ∧ found h l 0
  | F_size l i idx => ∃ s, found h l s ∧ idx_ok idx s
  | F_key l i idx => ∃ s, found h l s ∧ idx_ok idx s ∧ (i < s)%nat
  | F_return rc it =>
    match it with
    | Some it => rc = 0 ∧ (it_leaf it = 0 ∨ found h (it_leaf it) (S (it_idx it)))
    | None => rc ∈ [ELALLC; ELIDXLK]
    end
  | _ => True
  end.

Definition last_ok_at (h : heap) (pc : last_pc) : Prop :=
  match pc with
  | V_leaf => True
  | V_size l => found h l 0
  | V_index l => found h l 1
  | V_value l i => found h l (S i)
  | V_return rc value => rc = if value then 0 else -1
  end.

Definition call_ok_at (t : mbptree) (h : heap) (kvs : list (Z * Z)) (c : tree_call) : Prop :=
  match c with
  | Appending k v pc => append_ok_at t h kvs k v pc
  | Flooring _ pc => floor_ok_at h pc
  | Lasting pc => last_ok_at h pc
  end.

Lemma found_kept h h' l s : leaves_grown h h' → found h l s → found h' l s.
Proof.
  intros Hk (nd & Hl & Hlf & Hs). destruct (Hk l nd Hl Hlf) as (nd' & Hl' & Hlf' & Hle).
  exists nd'. split_and!; (done || lia).
Qed.

Lemma found_le h l s s' : (s ≤ s')%nat → found h l s' → found h l s.
Proof. intros Hle (nd & ? & ? & ?). exists nd. split_and!; (done || lia). Qed.

Lemma stores_found t h kvs : tree_stores t h kvs → found h (last_leaf t) 0.
Proof. intros (nd & ? & ?)%stores_last. exists nd. split_and!; (done || lia). Qed.

(** What the writer does leaves the other calls as they are. *)
Lemma call_kept t t' h h' kvs kvs' c :
  leaves_grown h h' → writing c = false → call_ok_at t h kvs c → call_ok_at t' h' kvs' c.
Proof.
  intros Hk Hw. pose proof (found_kept h h') as Hf.
  destruct c as [k v pc|k pc|pc]; [by destruct pc|..].
  - destruct pc as [| | | |l|l s|l i idx|l i idx|rc it]; simpl; try done; [naive_solver..|].
    destruct it; [|done]. naive_solver.
  - destruct pc; simpl; naive_solver.
Qed.

Lemma call_set_lock lk t h kvs c : call_ok_at t h kvs c → call_ok_at (set_lock lk t) h kvs c.
Proof.
  pose proof (λ h kvs, stores_set_lock t h kvs lk) as Hst.
  destruct c as [k v pc|k pc|pc]; [|done..]. destruct pc; simpl; naive_solver.
Qed.

(** ** The invariant *)

Section inv.
Context (kvs0 : list (Z * Z)).

Record tc_inv (ws : list (Z * Z)) (st : tree_state) : Prop := {
  tc_stored : ws ≡ₚ stored_entries (ts_calls st);
  tc_one : (tally writing (ts_calls st) ≤ 1)%nat;
  tc_excl : (0 < tally writing (ts_calls st))%nat →
    exclusive_lock (lock (ts_tree st)) = 1 ∧ tally searching (ts_calls st) = 0%nat;
  tc_shared : shared_lock (lock (ts_tree st)) = Z.of_nat (tally searching (ts_calls st));
  tc_store : (tally searching (ts_calls st) ≤ 1)%nat →
    ∀ i k l s, ts_calls st !! i = Some (Flooring k (F_store l s)) → s = 1;
  tc_rest : tally writing (ts_calls st) = 0%nat → tree_stores (ts_tree st) (ts_heap st) (kvs0 ++ ws);
  tc_calls : ∀ i c, ts_calls st !! i = Some c → call_ok_at (ts_tree st) (ts_heap st) (kvs0 ++ ws) c;
  tc_sizes : sound_sizes (ts_heap st);
  tc_last : found (ts_heap st) (last_leaf (ts_tree st)) 0
}.
End inv.
