(* ===== verification/MbptreeThreadsSpec.v ===== *)
(** * The index tree under concurrent calls: the properties

    With one lookup at a time under the lock, the lock keeps writers and
    lookups apart and the tree stores what the appends stored; with two it
    does not, and even one lookup can leave the lock taken for ever or meet an
    entry that is not yet written. *)

From S2P Require Import Prelude Errno Mbptree MbptreeInv MbptreeOps MbptreeAppend MbptreeFind MbptreeSpec MbptreeThreads MbptreeThreadsInv.

Lemma get_data_at nd i kv : data nd !! i = Some kv → get_data nd i = Ok kv.
Proof. destruct nd. apply get_data_Ok. Qed.

Lemma put_data_at nd i kv :
  (i < length (data nd))%nat → put_data i kv nd = Ok (Node (leaf nd) (nsize nd) (parent nd) (<[i := kv]> (data nd))).
Proof. destruct nd. apply put_data_Ok. Qed.

Section inv.
Context (calloc : heap → option Z) (calloc_struct : heap → bool).
Context (calloc_fresh : ∀ h l, calloc h = Some l → l ≠ 0 ∧ h !! l = None) (calloc_total : ∀ h, calloc h ≠ None).
Context (kvs0 : list (Z * Z)).

Abbreviation inv := (tc_inv kvs0).

(** ** Moves of one call *)

Ltac tallies i c c' Hc :=
  pose proof (tally_insert writing _ i c c' Hc); pose proof (tally_insert searching _ i c c' Hc).

(** A step that moves no lock. *)
Lemma inv_quiet ws t h cs i c c' :
  inv ws (TreeState t h cs) → cs !! i = Some c →
  writing c' = writing c → searching c' = searching c → stored_entry c' = stored_entry c →
  call_ok_at t h (kvs0 ++ ws) c' →
  (∀ k l s, c' = Flooring k (F_store l s) → (tally searching cs ≤ 1)%nat → s = 1) →
  inv ws (TreeState t h (<[i := c']> cs)).
Proof using Type.
  intros I Hc Hw Hs He Hok Hst. tallies i c c' Hc. rewrite Hw, Hs in *.
  assert (Htw : tally writing (<[i := c']> cs) = tally writing cs) by lia.
  assert (Hts : tally searching (<[i := c']> cs) = tally searching cs) by lia.
  destruct I as [Iws I1 Iex Ish Ist Ir Ic Iz Il]. simpl in *. split; simpl; rewrite ?Htw, ?Hts; try done.
  - by rewrite (stored_insert_same _ _ _ _ Hc He).
  - intros H1 j k l s [(_ & Heq & _)|[Hne Hj]]%list_lookup_insert_Some; [by eapply Hst|by eapply Ist].
  - intros j c2 [(_ & <- & _)|[Hne Hj]]%list_lookup_insert_Some; [done|by eapply Ic].
Qed.

(** A step of the writer with the tree. *)
Lemma inv_write ws ws' t t' h h' cs i c c' :
  inv ws (TreeState t h cs) → cs !! i = Some c → writing c = true → writing c' = true →
  stored_entry c = None → ws' = ws ++ option_list (stored_entry c') →
  lock t' = lock t → leaves_grown h h' → sound_sizes h' → found h' (last_leaf t') 0 →
  call_ok_at t' h' (kvs0 ++ ws') c' → inv ws' (TreeState t' h' (<[i := c']> cs)).
Proof using Type.
  intros I Hc Hw Hw' Hn -> Hlock Hk Hz Hl' Hok. tallies i c c' Hc.
  assert (Hss : searching c = false ∧ searching c' = false).
  { destruct c as [? ? pc|? pc|pc], c' as [? ? pc'|? pc'|pc']; try done. }
  destruct Hss as [Hsc Hsc']. rewrite Hw, Hw', Hsc, Hsc' in *.
  assert (Htw : tally writing (<[i := c']> cs) = tally writing cs) by lia.
  assert (Hts : tally searching (<[i := c']> cs) = tally searching cs) by lia.
  pose proof (tally_pos writing cs i c Hc Hw) as Hpos.
  destruct I as [Iws I1 Iex Ish Ist Ir Ic Iz Il]. simpl in *. split; simpl; rewrite ?Htw, ?Hts, ?Hlock; try done.
  - rewrite (stored_insert _ _ _ _ Hc Hn). by rewrite Iws.
  - intros H1 j k l s [(_ & -> & _)|[Hne Hj]]%list_lookup_insert_Some; [done|by eapply Ist].
  - lia.
  - intros j c2 [(_ & <- & _)|[Hne Hj]]%list_lookup_insert_Some; [done|].
    eapply call_kept; [done| |by eapply Ic]. by apply (tally_other writing cs i j c c2).
Qed.

(** A call takes the lock or gives it back. *)
Lemma inv_lock ws t h cs i c c' lk :
  inv ws (TreeState t h cs) → cs !! i = Some c → stored_entry c' = stored_entry c →
  call_ok_at t h (kvs0 ++ ws) c' →
  let cs' := <[i := c']> cs in
  (tally writing cs' ≤ 1)%nat →
  ((0 < tally writing cs')%nat → exclusive_lock lk = 1 ∧ tally searching cs' = 0%nat) →
  shared_lock lk = Z.of_nat (tally searching cs') →
  ((tally searching cs' ≤ 1)%nat → ∀ j k l s, cs' !! j = Some (Flooring k (F_store l s)) → s = 1) →
  (tally writing cs' = 0%nat → tree_stores t h (kvs0 ++ ws)) →
  inv ws (TreeState (set_lock lk t) h cs').
Proof using Type.
  intros I Hc He Hok cs' H1 Hex Hsh Hst Hr. destruct I as [Iws _ _ _ _ _ Ic Iz Il]. simpl in *.
  split; simpl; try done.
  - unfold cs'. by rewrite (stored_insert_same _ _ _ _ Hc He).
  - intros H0. by apply stores_set_lock, Hr.
  - intros j c2 [(_ & <- & _)|[Hne Hj]]%list_lookup_insert_Some; apply call_set_lock; [done|by eapply Ic].
Qed.

(** ** Every access keeps the invariant *)

(** The call [i] of an append makes its next access. *)
Definition append_goes (t : mbptree) (h : heap) (cs : list tree_call) (i : nat) (k v : Z) (pc : append_pc) : Prop :=
  ∃ ws' pc' t' h', append_step calloc k v pc t h = Ok (pc', t', h') ∧
    inv ws' (TreeState t' h' (<[i := Appending k v pc']> cs)).

Lemma append_locks ws t h cs i k v :
  inv ws (TreeState t h cs) → cs !! i = Some (Appending k v A_lock) → append_goes t h cs i k v A_lock.
Proof using All.
  intros I Hc. unfold append_goes. cbn [append_step]. case_decide as Hlock.
  - exists ws. eexists _, _, _. split; [done|]. pose proof I as [Iws I1 Iex Ish Ist Ir Ic Iz Il].
    simpl in *. rewrite Hlock in *. simpl in *.
    assert (Hw0 : tally writing cs = 0%nat) by (destruct (tally writing cs); [done|destruct Iex; [lia|done]]).
    tallies i (Appending k v A_lock) (Appending k v A_leaf) Hc. simpl in *.
    apply (inv_lock _ _ _ _ _ (Appending k v A_lock)); simpl; try done; try lia.
    + by apply Ir.
    + intros H1 j k' l s [(_ & ? & _)|[Hne Hj]]%list_lookup_insert_Some; [done|by eapply Ist; [lia|]].
  - exists ws. eexists _, _, _. split; [done|]. eapply inv_quiet; [done|exact Hc|done..| |done].
    simpl. set_solver.
Qed.

Lemma append_looks_on ws t h cs i k v :
  inv ws (TreeState t h cs) → cs !! i = Some (Appending k v A_leaf) → append_goes t h cs i k v A_leaf.
Proof using All.
  intros I Hc. pose proof (tc_calls _ _ _ I i _ Hc) as Hok. pose proof (tc_sizes _ _ _ I) as Hz.
  destruct (append_looks calloc calloc_fresh calloc_total t h _ k v Hok) as ([[pc' t'] h'] & Hrun & Hl).
  unfold append_goes. rewrite Hrun. inversion Hl as [|t2 h2 Hlk Hk Hst|nd Hnd Hlf Hlt Hst]; subst.
  - exists ws. eexists _, _, _. split; [done|].
    eapply (inv_write ws); [done|exact Hc|done|done|done|by rewrite app_nil_r|done|done|done|apply (tc_last _ _ _ I)|].
    simpl. split; [done|set_solver].
  - exists (ws ++ [(k, v)]). eexists _, _, _. split; [done|].
    eapply (inv_write ws); [done|exact Hc|done|done|done|done|done|done|by eapply stores_sizes|by eapply stores_found|].
    simpl. rewrite app_assoc. split; [done|set_solver].
  - exists ws. eexists _, _, _. split; [done|].
    eapply (inv_write ws); [done|exact Hc|done|done|done|by rewrite app_nil_r|done|done|done|apply (tc_last _ _ _ I)|].
    simpl. split_and!; [done..|]. by exists nd.
Qed.

(** The block [nd] of the last leaf on its way from [nd0] to its new entry. *)
Lemma block_kept (h0 : heap) l nd nd' :
  sound_sizes (<[l := nd]> h0) → leaf nd' = 1 → (nsize nd ≤ nsize nd')%nat → (nsize nd' ≤ length (data nd'))%nat →
  leaves_grown (<[l := nd]> h0) (<[l := nd']> h0) ∧ sound_sizes (<[l := nd']> h0).
Proof using All.
  intros Hz Hlf Hle Hsz. rewrite <- (insert_insert_eq h0 l nd' nd). split.
  - apply (push_grown l nd nd' (<[l := nd]> h0)); [apply lookup_insert_eq|done|done].
  - by apply sizes_insert.
Qed.

Lemma append_sizes ws t h cs i k v l :
  inv ws (TreeState t h cs) → cs !! i = Some (Appending k v (A_size l)) → append_goes t h cs i k v (A_size l).
Proof using All.
  intros I Hc. pose proof (tc_calls _ _ _ I i _ Hc) as (_ & _ & nd & Hnd & Hlf & Hlt & Hst). simpl in *.
  exists ws. eexists _, _, _. split.
  { cbn [append_step]. rewrite (deref_Ok _ _ _ Hnd), bind_Ok. erewrite update_Ok; [done|exact Hnd|done]. }
  destruct (block_kept h l nd (sized nd)) as [Hk Hz]; [|done|simpl; lia|simpl; lia|].
  { rewrite insert_id by done. apply (tc_sizes _ _ _ I). }
  rewrite insert_id in Hk by done.
  pose proof (found_kept _ _ _ _ Hk (tc_last _ _ _ I)) as Hl.
  eapply (inv_write ws); [done|exact Hc|done|done|done|by rewrite app_nil_r|done|done|done|done|]. simpl. by exists h, nd.
Qed.

Lemma append_keys ws t h cs i k v l j :
  inv ws (TreeState t h cs) → cs !! i = Some (Appending k v (A_key l j)) → append_goes t h cs i k v (A_key l j).
Proof using All.
  intros I Hc. pose proof (tc_calls _ _ _ I i _ Hc) as (h0 & nd & Heq & Hnd & Hlf & -> & Hlt & Hst). simpl in *.
  subst h. destruct (lookup_lt_is_Some_2 (data nd) (nsize nd) Hlt) as [kv Hkv]. exists ws. eexists _, _, _. split.
  { cbn [append_step]. erewrite update_Ok; [done|apply lookup_insert_eq|].
    unfold put_key. rewrite (get_data_at (sized nd) _ _ Hkv), bind_Ok. by apply put_data_at. }
  rewrite insert_insert_eq. destruct (block_kept h0 l (sized nd) (filled (k, kv.2) nd)) as [Hk Hz].
  { apply (tc_sizes _ _ _ I). } { done. } { simpl. lia. } { simpl. rewrite length_insert. lia. }
  pose proof (found_kept _ _ _ _ Hk (tc_last _ _ _ I)) as Hl.
  eapply (inv_write ws); [done|exact Hc|done|done|done|by rewrite app_nil_r|done|exact Hk|exact Hz|done|].
  simpl. by exists h0, nd, kv.2.
Qed.

Lemma append_values ws t h cs i k v l j :
  inv ws (TreeState t h cs) → cs !! i = Some (Appending k v (A_value l j)) → append_goes t h cs i k v (A_value l j).
Proof using All.
  intros I Hc. pose proof (tc_calls _ _ _ I i _ Hc) as (h0 & nd & v0 & Heq & Hnd & Hlf & -> & Hlt & Hst). simpl in *.
  subst h. exists (ws ++ [(k, v)]). eexists _, _, _. split.
  { cbn [append_step]. erewrite update_Ok; [done|apply lookup_insert_eq|].
    unfold put_value. rewrite (get_data_at (filled (k, v0) nd) _ (k, v0)), bind_Ok.
    - apply put_data_at. simpl. by rewrite length_insert.
    - simpl. by apply list_lookup_insert_eq. }
  rewrite insert_insert_eq. simpl. rewrite list_insert_insert_eq.
  destruct (block_kept h0 l (filled (k, v0) nd) (filled (k, v) nd)) as [Hk Hz].
  { apply (tc_sizes _ _ _ I). } { done. } { done. } { simpl. rewrite length_insert. lia. }
  pose proof (found_kept _ _ _ _ Hk (tc_last _ _ _ I)) as Hl.
  eapply (inv_write ws); [done|exact Hc|done|done|done|done|done|exact Hk|exact Hz|done|].
  simpl. rewrite app_assoc. split; [done|set_solver].
Qed.

Lemma append_unlocks ws t h cs i k v rc :
  inv ws (TreeState t h cs) → cs !! i = Some (Appending k v (A_unlock rc)) → append_goes t h cs i k v (A_unlock rc).
Proof using All.
  intros I Hc. pose proof (tc_calls _ _ _ I i _ Hc) as [Hst Hrc]. exists ws. eexists _, _, _. split; [done|].
  pose proof (tally_pos writing cs i _ Hc eq_refl) as Hpos.
  pose proof I as [Iws I1 Iex Ish Ist Ir Ic Iz Il]. simpl in *. destruct (Iex Hpos) as [_ Hs0].
  tallies i (Appending k v (A_unlock rc)) (Appending k v (A_return rc)) Hc. simpl in *.
  apply (inv_lock _ _ _ _ _ (Appending k v (A_unlock rc))); simpl; try done; try lia.
  - set_solver.
  - intros H1 j k' l s [(_ & ? & _)|[Hne Hj]]%list_lookup_insert_Some; [done|].
    pose proof (tally_pos searching cs j _ Hj eq_refl). lia.
Qed.

Lemma append_event ws t h cs i k v pc :
  inv ws (TreeState t h cs) → cs !! i = Some (Appending k v pc) → append_goes t h cs i k v pc.
Proof using All.
  intros I Hc. destruct pc as [| |l|l j|l j|rc|rc].
  - by eapply append_locks.
  - by eapply append_looks_on.
  - by eapply append_sizes.
  - by eapply append_keys.
  - by eapply append_values.
  - by eapply append_unlocks.
  - exists ws. eexists _, _, _. split; [done|]. by rewrite list_insert_id.
Qed.

(** A lookup. *)
Definition floor_goes (ws : list (Z * Z)) (t : mbptree) (h : heap) (cs : list tree_call) (i : nat) (k : Z)
    (pc : floor_pc) : Prop :=
  ∃ pc' t', floor_step calloc_struct k pc t h = Ok (pc', t') ∧
    inv ws (TreeState t' h (<[i := Flooring k pc']> cs)).

Lemma floor_swaps ws t h cs i k old :
  inv ws (TreeState t h cs) → (tally searching cs ≤ 1)%nat → cs !! i = Some (Flooring k (F_swap old)) →
  floor_goes ws t h cs i k (F_swap old).
Proof using All.
  intros I Hcalm Hc. unfold floor_goes. cbn [floor_step]. case_decide as Hlock.
  - eexists _, _. split; [done|]. pose proof I as [Iws I1 Iex Ish Ist Ir Ic Iz Il].
    simpl in *. rewrite Hlock in *. simpl in *.
    assert (Hw0 : tally writing cs = 0%nat) by (destruct (tally writing cs); [done|destruct Iex; [lia|done]]).
    tallies i (Flooring k (F_swap old)) (Flooring k F_find) Hc. simpl in *.
    apply (inv_lock _ _ _ _ _ (Flooring k (F_swap old))); simpl; try done; try lia.
    + rewrite u32_small by lia. lia.
    + intros H1 j k' l s [(_ & ? & _)|[Hne Hj]]%list_lookup_insert_Some; [done|by eapply Ist; [lia|]].
    + intros _. by apply Ir.
  - eexists _, _. split; [done|]. eapply inv_quiet; [done|exact Hc|done..| |done]. simpl. set_solver.
Qed.

Lemma floor_finds ws t h cs i k :
  inv ws (TreeState t h cs) → cs !! i = Some (Flooring k F_find) → floor_goes ws t h cs i k F_find.
Proof using All.
  intros I Hc. pose proof (tally_pos searching cs i _ Hc eq_refl) as Hpos.
  assert (Hw : tally writing cs = 0%nat).
  { destruct (tally writing cs) eqn:Hw; [done|]. pose proof (tc_excl _ _ _ I) as Hex. simpl in Hex. lia. }
  destruct (tc_rest _ _ _ I Hw) as (n & g & Hinv & Hent). simpl in Hinv.
  destruct (find_leaf_ok (branch_factor t) h k g n 0 (walk_fuel h)) as (ls & l & kvs & ls' & Hls & Hrun & _).
  { exact (ti_rep _ _ _ _ Hinv). } { exact (ti_shape _ _ _ _ Hinv). } { by eapply height_size. }
  { by eapply inv_nonempty_or_leaf. } { exact (ti_sorted _ _ _ _ Hinv). }
  destruct (inv_leaf_at _ _ _ _ Hinv _ _ _ _ Hls) as (Hl0 & _ & (q & d & Hd & _) & _).
  unfold floor_goes. cbn [floor_step]. rewrite (ti_root _ _ _ _ Hinv), Hrun, bind_Ok.
  eexists _, _. split; [done|]. eapply inv_quiet; [done|exact Hc|done..| |done].
  simpl. split; [done|]. eexists. split; [exact Hd|]. simpl. split; [done|lia].
Qed.

Lemma floor_stores ws t h cs i k l s :
  inv ws (TreeState t h cs) → (tally searching cs ≤ 1)%nat → cs !! i = Some (Flooring k (F_store l s)) →
  floor_goes ws t h cs i k (F_store l s).
Proof using All.
  intros I Hcalm Hc. destruct (tc_calls _ _ _ I i _ Hc) as [Hl0 Hfd]. simpl in Hfd.
  pose proof (tc_store _ _ _ I Hcalm i k l s Hc) as ->. pose proof (tally_pos searching cs i _ Hc eq_refl) as Hpos.
  unfold floor_goes. cbn [floor_step]. rewrite (proj2 (Z.eqb_neq _ _) Hl0). cbn [negb assertb]. rewrite bind_Ok.
  eexists _, _. split; [done|]. pose proof I as [Iws I1 Iex Ish Ist Ir Ic Iz Il]. simpl in *.
  tallies i (Flooring k (F_store l 1)) (Flooring k (F_size l 0 (-1))) Hc. simpl in *.
  apply (inv_lock _ _ _ _ _ (Flooring k (F_store l 1))); simpl; try done; try lia.
  - exists 0%nat. split; [done|by left].
  - rewrite u32_small by lia. lia.
  - intros H1 j k' l' s' [(_ & ? & _)|[Hne Hj]]%list_lookup_insert_Some; [done|by eapply Ist].
  - intros Hn0. apply Ir. lia.
Qed.

(** The loop that looks for the entry, without the lock. *)
Lemma floor_returns idx l s h : found h l s → idx_ok idx s →
  floor_ok_at h (F_return 0 (Some (floor_iterator l idx))).
Proof using Type.
  intros Hf Hidx. simpl. split; [done|]. unfold floor_iterator. destruct Hidx as [->|Hidx]; [by left|].
  rewrite (proj2 (Z.eqb_neq _ _)) by lia. right. simpl. apply (found_le _ _ _ s); [lia|done].
Qed.

Lemma floor_scans ws t h cs i k l j idx :
  inv ws (TreeState t h cs) → cs !! i = Some (Flooring k (F_size l j idx)) → floor_goes ws t h cs i k (F_size l j idx).
Proof using All.
  intros I Hc. destruct (tc_calls _ _ _ I i _ Hc) as (s & Hf & Hidx). simpl in *.
  pose proof Hf as (nd & Hnd & Hlf & Hs). unfold floor_goes. cbn [floor_step]. rewrite (deref_Ok _ _ _ Hnd), bind_Ok.
  destruct (Nat.ltb_spec j (nsize nd)) as [Hj|Hj]; (eexists _, _; split; [done|]);
    (eapply inv_quiet; [done|exact Hc|done..| |done]).
  - exists (nsize nd). split; [by exists nd|]. split; [|done]. destruct Hidx as [->|?]; [by left|right; lia].
  - by eapply floor_returns.
Qed.

Lemma floor_compares ws t h cs i k l j idx :
  inv ws (TreeState t h cs) → cs !! i = Some (Flooring k (F_key l j idx)) → floor_goes ws t h cs i k (F_key l j idx).
Proof using All.
  intros I Hc. destruct (tc_calls _ _ _ I i _ Hc) as (s & Hf & Hidx & Hj). simpl in *.
  pose proof Hf as (nd & Hnd & Hlf & Hs). unfold floor_goes. cbn [floor_step]. rewrite (deref_Ok _ _ _ Hnd), bind_Ok.
  pose proof (tc_sizes _ _ _ I _ _ Hnd). destruct (lookup_lt_is_Some_2 (data nd) j) as [kv Hkv]; [lia|].
  rewrite (get_data_at _ _ _ Hkv), bind_Ok. eexists _, _. split; [done|].
  destruct (kv.1 <=? k); (eapply inv_quiet; [done|exact Hc|done..| |done]).
  - exists s. split; [done|]. right. lia.
  - by eapply floor_returns.
Qed.

Lemma floor_event ws t h cs i k pc :
  inv ws (TreeState t h cs) → (tally searching cs ≤ 1)%nat → cs !! i = Some (Flooring k pc) →
  floor_goes ws t h cs i k pc.
Proof using All.
  intros I Hcalm Hc. destruct pc as [| |old| |l|l s|l j idx|l j idx|rc it].
  - unfold floor_goes. cbn [floor_step]. destruct (calloc_struct h); (eexists _, _; split; [done|]);
      (eapply inv_quiet; [done|exact Hc|done..| |done]); simpl; [done|set_solver].
  - eexists _, _. split; [done|]. by eapply inv_quiet.
  - by apply floor_swaps.
  - by apply floor_finds.
  - eexists _, _. split; [done|]. eapply inv_quiet; [done|exact Hc|done..| |].
    + exact (tc_calls _ _ _ I i _ Hc).
    + intros k' l' s [= <- <- <-] _. pose proof (tally_pos searching cs i _ Hc eq_refl).
      pose proof (tc_shared _ _ _ I) as Hsh. simpl in Hsh. lia.
  - by apply floor_stores.
  - by apply floor_scans.
  - by apply floor_compares.
  - eexists _, _. split; [done|]. by rewrite list_insert_id.
Qed.

(** [mbptree_last_value], without the lock. *)
Lemma last_value_event ws t h cs i pc :
  inv ws (TreeState t h cs) → cs !! i = Some (Lasting pc) →
  ∃ pc', last_step pc t h = Ok pc' ∧ inv ws (TreeState t h (<[i := Lasting pc']> cs)).
Proof using Type.
  intros I Hc. pose proof (tc_calls _ _ _ I i _ Hc) as Hok. simpl in Hok.
  assert (Hquiet : ∀ pc', last_ok_at h pc' → inv ws (TreeState t h (<[i := Lasting pc']> cs))).
  { intros pc' Hok'. by eapply inv_quiet. }
  destruct pc as [|l|l|l j|rc v]; cbn [last_step].
  - eexists. split; [done|]. apply Hquiet, (tc_last _ _ _ I).
  - destruct Hok as (nd & Hnd & Hlf & _). rewrite (deref_Ok _ _ _ Hnd), bind_Ok. eexists. split; [done|].
    apply Hquiet. destruct (Nat.eqb_spec (nsize nd) 0); [done|]. exists nd. split_and!; (done || lia).
  - destruct Hok as (nd & Hnd & Hlf & Hs). rewrite (deref_Ok _ _ _ Hnd), bind_Ok.
    destruct (nsize nd) as [|j] eqn:Hn; [lia|]. eexists. split; [done|]. apply Hquiet.
    exists nd. split_and!; (done || lia).
  - destruct Hok as (nd & Hnd & Hlf & Hs). pose proof (tc_sizes _ _ _ I _ _ Hnd) as Hz.
    destruct (lookup_lt_is_Some_2 (data nd) j) as [kv Hkv]; [lia|].
    rewrite (deref_Ok _ _ _ Hnd), bind_Ok, (get_data_at _ _ _ Hkv), bind_Ok. eexists. split; [done|]. by apply Hquiet.
  - eexists. split; [done|]. by apply Hquiet.
Qed.

(** ** Executions *)

Lemma inv_start ws t h cs c :
  inv ws (TreeState t h cs) → writing c = false → searching c = false → stored_entry c = None →
  call_ok_at t h (kvs0 ++ ws) c → inv ws (TreeState t h (cs ++ [c])).
Proof using All.
  intros [Iws I1 Iex Ish Ist Ir Ic Iz Il] Hw Hs Hn Hok. simpl in *.
  assert (Htw : tally writing (cs ++ [c]) = tally writing cs) by (rewrite tally_snoc, Hw; simpl; lia).
  assert (Hts : tally searching (cs ++ [c]) = tally searching cs) by (rewrite tally_snoc, Hs; simpl; lia).
  split; simpl; rewrite ?Htw, ?Hts; try done.
  - unfold stored_entries. rewrite omap_app. simpl. rewrite Hn, app_nil_r. done.
  - intros H1 i k l s [Hi|[_ Hi]]%lookup_app_Some; [by eapply Ist|].
    apply list_lookup_singleton_Some in Hi as [_ ->]. done.
  - intros i c2 [Hi|[_ Hi]]%lookup_app_Some; [by eapply Ic|]. by apply list_lookup_singleton_Some in Hi as [_ <-].
Qed.

Lemma tree_event_inv ws st ev :
  inv ws st → (tally searching (ts_calls st) ≤ 1)%nat →
  ∃ ws' st', tree_event_step calloc calloc_struct ev st = Ok st' ∧ inv ws' st'.
Proof using All.
  intros I Hcalm. destruct st as [t h cs]. simpl in Hcalm. destruct ev as [k v|k| |i]; cbn [tree_event_step].
  - exists ws. eexists. split; [done|]. by apply inv_start.
  - exists ws. eexists. split; [done|]. by apply inv_start.
  - exists ws. eexists. split; [done|]. by apply inv_start.
  - destruct (cs !! i) as [[k v pc|k pc|pc]|] eqn:Hc; cbn [tree_call_step].
    + destruct (append_event ws t h cs i k v pc I Hc) as (ws' & pc' & t' & h' & Hrun & I').
      rewrite Hrun, !bind_Ok. by exists ws', (TreeState t' h' (<[i := Appending k v pc']> cs)).
    + destruct (floor_event ws t h cs i k pc I Hcalm Hc) as (pc' & t' & Hrun & I').
      rewrite Hrun, !bind_Ok. by exists ws, (TreeState t' h (<[i := Flooring k pc']> cs)).
    + destruct (last_value_event ws t h cs i pc I Hc) as (pc' & Hrun & I').
      rewrite Hrun, !bind_Ok. by exists ws, (TreeState t h (<[i := Lasting pc']> cs)).
    + by exists ws, (TreeState t h cs).
Qed.

Lemma tree_reachable_inv t h st :
  tree_stores t h kvs0 → lock t = Lock 0 0 →
  tree_reachable calloc calloc_struct (TreeState t h []) st → ∃ ws, inv ws st.
Proof using All.
  intros Hst Hlock Hr. induction Hr as [|ev st1 st2 _ [ws I] Hcalm Hrun].
  - exists []. split; simpl; rewrite ?Hlock, ?app_nil_r; try done; try (unfold tally; simpl; lia).
    + by eapply stores_sizes.
    + by eapply stores_found.
  - destruct (tree_event_inv ws st1 ev I Hcalm) as (ws' & st' & Hrun' & I').
    rewrite Hrun in Hrun'. injection Hrun' as <-. by exists ws'.
Qed.
End inv.

(** ** A call that runs alone *)

Section alone.
Context (calloc : heap → option Z) (calloc_struct : heap → bool).

Definition comes (c : tree_call) (t : mbptree) (h : heap) (r : tree_call * mbptree * heap) : Prop :=
  ∃ n, tree_alone calloc calloc_struct n c t h = Ok r.

Lemma comes_refl c t h : comes c t h (c, t, h).
Proof. by exists 0%nat. Qed.

Lemma append_comes k v pc t h pc' t' h' r :
  append_step calloc k v pc t h = Ok (pc', t', h') → comes (Appending k v pc') t' h' r →
  comes (Appending k v pc) t h r.
Proof.
  intros Hrun [n Hn]. exists (S n). cbn [tree_alone tree_call_step]. by rewrite Hrun, !bind_Ok.
Qed.

Lemma floor_comes k pc t h pc' t' r :
  floor_step calloc_struct k pc t h = Ok (pc', t') → comes (Flooring k pc') t' h r →
  comes (Flooring k pc) t h r.
Proof.
  intros Hrun [n Hn]. exists (S n). cbn [tree_alone tree_call_step]. by rewrite Hrun, !bind_Ok.
Qed.

Lemma last_comes pc t h pc' r :
  last_step pc t h = Ok pc' → comes (Lasting pc') t h r → comes (Lasting pc) t h r.
Proof.
  intros Hrun [n Hn]. exists (S n). cbn [tree_alone tree_call_step]. by rewrite Hrun, !bind_Ok.
Qed.

Lemma unlock_comes k v rc t h :
  comes (Appending k v (A_unlock rc)) t h (Appending k v (A_return rc), set_lock (Lock 0 0) t, h).
Proof. eapply append_comes; [done|apply comes_refl]. Qed.

Lemma push_comes k v l t h h' :
  push_entry l k v h = Ok h' → comes (Appending k v (A_size l)) t h
    (Appending k v (A_return 0), set_lock (Lock 0 0) t, h').
Proof.
  intros (nd & Hnd & Hlt & ->)%push_entry_inv.
  destruct (lookup_lt_is_Some_2 (data nd) (nsize nd) Hlt) as [kv Hkv].
  eapply append_comes.
  { cbn [append_step]. rewrite (deref_Ok _ _ _ Hnd), bind_Ok. erewrite update_Ok; [done|exact Hnd|done]. }
  eapply append_comes.
  { cbn [append_step]. erewrite update_Ok; [done|apply lookup_insert_eq|].
    unfold put_key. rewrite (get_data_at (set_nsize (S (nsize nd)) nd) _ _ Hkv), bind_Ok. by apply put_data_at. }
  rewrite insert_insert_eq. eapply append_comes.
  { cbn [append_step]. erewrite update_Ok; [done|apply lookup_insert_eq|].
    unfold put_value. rewrite (get_data_at _ _ (k, kv.2)), bind_Ok.
    - apply put_data_at. simpl. by rewrite length_insert.
    - simpl. by apply list_lookup_insert_eq. }
  rewrite insert_insert_eq. simpl. rewrite list_insert_insert_eq. apply unlock_comes.
Qed.

Lemma tryappend_comes k v t h rc t' h' :
  mbptree_tryappend calloc t k v h = Ok (rc, t', h') →
  comes (Appending k v A_leaf) t h (Appending k v (A_return rc), set_lock (Lock 0 0) t', h').
Proof.
  intros Hrun. pose proof Hrun as E. unfold mbptree_tryappend in E. cbv zeta in E.
  apply bind_Ok_inv in E as (l & Hl & E). apply bind_Ok_inv in E as (nm & Hnm & E).
  destruct nm eqn:Hnme.
  - injection E as <- <- <-. eapply append_comes; [|apply unlock_comes].
    cbn [append_step]. by rewrite Hl, bind_Ok, Hnm.
  - apply bind_Ok_inv in E as (full & Hfull & E). destruct full; cbn [negb] in E.
    + eapply append_comes; [|apply unlock_comes]. cbn [append_step].
      by rewrite Hl, bind_Ok, Hnm, bind_Ok, Hfull, bind_Ok, Hrun.
    + apply bind_Ok_inv in E as (h1 & Hpush & [= <- <- <-]). eapply append_comes.
      { cbn [append_step]. by rewrite Hl, bind_Ok, Hnm, bind_Ok, Hfull, bind_Ok. }
      by apply push_comes.
Qed.

Lemma scan_comes k t h l nd : ∀ n i idx idx',
  h !! l = Some nd → (nsize nd - i = n)%nat → floor_loop n i idx k nd = Ok idx' →
  comes (Flooring k (F_size l i idx)) t h (Flooring k (F_return 0 (Some (floor_iterator l idx'))), t, h).
Proof.
  induction n as [|n IH]; intros i idx idx' Hnd Hn Hrun; cbn [floor_loop] in Hrun.
  - injection Hrun as <-. eapply floor_comes; [|apply comes_refl]. cbn [floor_step].
    rewrite (deref_Ok _ _ _ Hnd), bind_Ok. by rewrite (proj2 (Nat.ltb_ge _ _)) by lia.
  - apply bind_Ok_inv in Hrun as (kv & Hkv & Hrun). eapply floor_comes.
    { cbn [floor_step]. rewrite (deref_Ok _ _ _ Hnd), bind_Ok. by rewrite (proj2 (Nat.ltb_lt _ _)) by lia. }
    eapply floor_comes.
    { cbn [floor_step]. by rewrite (deref_Ok _ _ _ Hnd), bind_Ok, Hkv, bind_Ok. }
    destruct (kv.1 <=? k); [|injection Hrun as <-; apply comes_refl]. apply (IH _ _ _ Hnd); [lia|exact Hrun].
Qed.

(** The accesses of a call, one after the other with nothing in
    between, are [mbptree_append], [mbptree_leaf_floor] and
    [mbptree_last_value]: whenever these are defined, a call that runs alone
    returns what they return and leaves the tree and the heap they leave. *)
Theorem tree_alone_is_sequential t h :
  (∀ k v rc t' h', mbptree_append calloc t k v h = Ok (rc, t', h') →
     ∃ n, tree_alone calloc calloc_struct n (Appending k v A_lock) t h = Ok (Appending k v (A_return rc), t', h')) ∧
  (∀ k rc it t', mbptree_leaf_floor calloc_struct t k h = Ok (rc, it, t') →
     ∃ n, tree_alone calloc calloc_struct n (Flooring k F_calloc) t h = Ok (Flooring k (F_return rc it), t', h)) ∧
  (∀ rc v, mbptree_last_value t h = Ok (rc, v) →
     ∃ n, tree_alone calloc calloc_struct n (Lasting V_leaf) t h = Ok (Lasting (V_return rc v), t, h)).
Proof.
  split_and!.
  - intros k v rc t' h'. unfold mbptree_append. case_decide as Hlock.
    + intros ([[rc1 t1] h1] & Hrun & [= <- <- <-])%bind_Ok_inv.
      eapply append_comes; [cbn [append_step]; by rewrite decide_True|]. by apply tryappend_comes.
    + intros [= <- <- <-]. eapply append_comes; [cbn [append_step]; by rewrite decide_False|]. apply comes_refl.
  - intros k rc it t'. unfold mbptree_leaf_floor. cbv zeta. destruct (calloc_struct h) eqn:Hc.
    2:{ intros [= <- <- <-]. eapply floor_comes; [cbn [floor_step]; by rewrite Hc|]. apply comes_refl. }
    case_decide as Hlock.
    2:{ intros [= <- <- <-]. eapply floor_comes; [cbn [floor_step]; by rewrite Hc|].
        eapply floor_comes; [done|]. eapply floor_comes; [cbn [floor_step]; by rewrite decide_False|]. apply comes_refl. }
    intros (l & Hl & Hrun)%bind_Ok_inv. apply bind_Ok_inv in Hrun as (u & Ha & Hrun).
    apply bind_Ok_inv in Hrun as (nd & Hnd & Hrun). apply bind_Ok_inv in Hrun as (idx & Hidx & [= <- <- <-]).
    unfold deref in Hnd. destruct (h !! l) as [nd'|] eqn:Hlk; [|done]. injection Hnd as ->.
    eapply floor_comes; [cbn [floor_step]; by rewrite Hc|]. eapply floor_comes; [done|].
    eapply floor_comes; [cbn [floor_step]; by rewrite decide_True|].
    eapply floor_comes; [cbn [floor_step]; by rewrite Hl, bind_Ok|].
    eapply floor_comes; [done|].
    eapply floor_comes; [cbn [floor_step]; by rewrite Ha, bind_Ok|].
    eapply scan_comes; [exact Hlk| |exact Hidx]. lia.
  - intros rc v. unfold mbptree_last_value. intros (nd & Hnd & Hrun)%bind_Ok_inv.
    eapply last_comes; [done|]. destruct (nsize nd) as [|j] eqn:Hn; simpl in Hrun.
    { injection Hrun as <- <-. eapply last_comes; [|apply comes_refl].
      cbn [last_step]. by rewrite Hnd, bind_Ok, Hn. }
    apply bind_Ok_inv in Hrun as (kv & Hkv & [= <- <-]). rewrite Nat.sub_0_r in Hkv.
    eapply last_comes; [cbn [last_step]; by rewrite Hnd, bind_Ok, Hn|]. simpl Nat.eqb. cbn iota.
    eapply last_comes; [cbn [last_step]; by rewrite Hnd, bind_Ok, Hn|].
    eapply last_comes; [|apply comes_refl]. cbn [last_step]. by rewrite Hnd, bind_Ok, Hkv.
Qed.
End alone.

(** ** Properties *)

(** [C16]: as long as at most one call of [mbptree_leaf_floor] holds the lock,
    whatever the interleaving: at most one append works on the tree, and no
    lookup searches it meanwhile; between two appends the tree stores, after
    the entries it had, the entry of each append that stored one, once, and
    nothing else; no next access is undefined; an append returns 0, [ELIDXNM]
    or [ELIDXLK], and a lookup that returns 0 an iterator that is at the end or
    on an entry of a leaf. *)
Theorem tree_lock_excludes calloc calloc_struct kvs0 t h st :
  (∀ h l, calloc h = Some l → l ≠ 0 ∧ h !! l = None) → (∀ h, calloc h ≠ None) →
  tree_stores t h kvs0 → lock t = Lock 0 0 →
  tree_reachable calloc calloc_struct (TreeState t h []) st →
  let cs := ts_calls st in
  (tally writing cs ≤ 1 ∧ (0 < tally writing cs → tally searching cs = 0))%nat ∧
  (tally writing cs = 0%nat →
   ∃ ws, tree_stores (ts_tree st) (ts_heap st) (kvs0 ++ ws) ∧ ws ≡ₚ stored_entries cs) ∧
  ((tally searching cs ≤ 1)%nat → ∀ ev, ∃ st', tree_event_step calloc calloc_struct ev st = Ok st') ∧
  (∀ i k v rc, cs !! i = Some (Appending k v (A_return rc)) → rc ∈ [0; ELIDXNM; ELIDXLK]) ∧
  (∀ i k it, cs !! i = Some (Flooring k (F_return 0 (Some it))) →
     it_leaf it = 0 ∨ mbptree_leaf_iterator_valid it (ts_heap st) = Ok true).
Proof.
  intros Hfresh Htot Hst Hlock Hr. destruct (tree_reachable_inv calloc calloc_struct Hfresh Htot kvs0 t h st Hst Hlock Hr) as [ws I].
  split_and!; simpl.
  - apply I.
  - intros Hw. by apply (tc_excl _ _ _ I).
  - intros Hw. exists ws. split; [by apply (tc_rest _ _ _ I)|apply I].
  - intros Hcalm ev. destruct (tree_event_inv calloc calloc_struct Hfresh Htot kvs0 ws st ev I Hcalm) as (ws' & st' & Hrun & _).
    by exists st'.
  - intros i k v rc Hi. exact (tc_calls _ _ _ I _ _ Hi).
  - intros i k it Hi. destruct (tc_calls _ _ _ I _ _ Hi) as [_ [H0|(nd & Hnd & Hlf & Hs)]]; [by left|].
    unfold mbptree_leaf_iterator_valid. destruct (Z.eqb_spec (it_leaf it) 0) as [H0|_]; [by left|right].
    rewrite (deref_Ok _ _ _ Hnd), bind_Ok. by rewrite (proj2 (Nat.ltb_lt _ _)) by lia.
Qed.

(** ** Executions that go wrong *)

(** Calls on a tree of five entries, the keys 10 to 50. *)
Definition demo_start : tree_state := TreeState (demo_tree 5) (demo_heap 5) [].
Definition demo_exec (evs : list tree_event) : result tree_state :=
  tree_exec bump_calloc struct_ok evs demo_start.
Definition goes (i n : nat) : list tree_event := replicate n (Go i).

(** The lookup loads the lock while the append holds it, and swaps it after. *)
Definition stale_lookup : list tree_event :=
  [Start_append 60 6; Start_floor 15] ++ goes 0 1 ++ goes 1 2 ++ goes 0 5 ++ goes 1 8.

Lemma taken_lock_stays calloc calloc_struct t h :
  exclusive_lock (lock t) ≠ 0 →
  (∀ k v, mbptree_append calloc t k v h = Ok (ELIDXLK, t, h)) ∧
  (∀ k, mbptree_leaf_floor calloc_struct t k h = Ok (if calloc_struct h then ELIDXLK else ELALLC, None, t)).
Proof.
  intros Hex. split.
  - intros k v. unfold mbptree_append. rewrite decide_False; [done|]. by intros Hl; rewrite Hl in Hex.
  - intros k. unfold mbptree_leaf_floor. destruct (calloc_struct h); [|done]. cbv zeta.
    rewrite decide_False; [done|]. intros Hl. by rewrite Hl in Hex.
Qed.

(** [C25]: one append and one lookup can leave the exclusive bit of the lock
    set with no call running: the lookup takes the bit over from the value it
    loaded. From then on every append and every lookup returns [ELIDXLK]. *)
Theorem stale_lookup_locks_tree :
  ∃ t h k it, demo_exec stale_lookup = Ok (TreeState t h [Appending 60 6 (A_return 0); Flooring 15 (F_return 0 (Some it))]) ∧
    mbptree_leaf_iterator_key it h = Ok k ∧ k = 10 ∧ lock t = Lock 1 0 ∧
    ∀ calloc calloc_struct,
      (∀ k v, mbptree_append calloc t k v h = Ok (ELIDXLK, t, h)) ∧
      (∀ k, mbptree_leaf_floor calloc_struct t k h = Ok (if calloc_struct h then ELIDXLK else ELALLC, None, t)).
Proof.
  eexists _, _, _, _. split; [by vm_compute|]. split; [by vm_compute|]. split; [done|]. split; [done|].
  intros calloc calloc_struct. by apply taken_lock_stays.
Qed.

(** The first lookup loads the count before the second one increments it. *)
Definition two_lookups : list tree_event :=
  [Start_floor 15; Start_floor 25; Start_append 60 6] ++ goes 0 5 ++ goes 1 3 ++ goes 0 1 ++ goes 2 1.

(** With two lookups the count of readers loses an increment, since
    the decrement is a load and a store: an append takes the lock while a
    lookup searches the tree. *)
Theorem two_lookups_lose_exclusion :
  ∃ st, demo_exec two_lookups = Ok st ∧
    tally writing (ts_calls st) = 1%nat ∧ tally searching (ts_calls st) = 1%nat.
Proof. eexists. split; [by vm_compute|]. by vm_compute. Qed.

(** The lookup scans its leaf after the append has counted its entry. *)
Definition half_entry : list tree_event :=
  [Start_floor 55; Start_append 60 6] ++ goes 0 6 ++ goes 1 3 ++ goes 0 6 ++ goes 1 4.

(** [mbptree_leaf_floor] scans the leaf without the lock, and an append
    counts its entry before it writes it: a lookup of 55 in the keys 10 to 50
    that meets an append of 60 takes the unwritten entry, of key 0, and returns
    an iterator on 60. *)
Theorem scan_meets_half_entry :
  ∃ t h it, demo_exec half_entry = Ok (TreeState t h [Flooring 55 (F_return 0 (Some it)); Appending 60 6 (A_return 0)]) ∧
    mbptree_leaf_iterator_key it h = Ok 60.
Proof. eexists _, _, _. split; by vm_compute. Qed.

(** The last value is read after the append has counted its entry. *)
Definition half_value (k v : Z) : list tree_event :=
  [Start_append k v; Start_last] ++ goes 0 3 ++ goes 1 4 ++ goes 0 3.

Lemma exec_go calloc calloc_struct i evs t h cs c c' t' h' :
  cs !! i = Some c → tree_call_step calloc calloc_struct c t h = Ok (c', t', h') →
  tree_exec calloc calloc_struct (Go i :: evs) (TreeState t h cs) =
    tree_exec calloc calloc_struct evs (TreeState t' h' (<[i := c']> cs)).
Proof. intros Hc Hs. cbn [tree_exec tree_event_step]. rewrite Hc. by run Hs. Qed.

(** The last leaf of a tree, when it has room: the cell of its next entry
    holds the null pointer to the leaf after it. *)
Lemma last_leaf_room calloc t h kvs k v :
  tree_stores t h kvs → above k kvs → kvs = [] ∨ (length kvs mod (branch_factor t - 1) ≠ 0)%nat →
  ∃ nd k0, h !! last_leaf t = Some nd ∧ data nd !! nsize nd = Some (k0, 0) ∧
    append_step calloc k v A_leaf t h = Ok (A_size (last_leaf t), t, h) ∧
    tree_stores t (<[last_leaf t := filled (k, v) nd]> h) (kvs ++ [(k, v)]).
Proof.
  intros (n & g & I & <-) Ha Hroom. pose proof (ti_bf _ _ _ _ I) as Hbf. pose proof (ti_sorted _ _ _ _ I) as Hs.
  pose proof (ti_root _ _ _ _ I) as Hroot.
  destruct (open_inv _ _ _ _ I) as (fs & l & kvs & -> & Hop & Hent). rewrite Hent in *.
  pose proof (op_packed _ _ _ _ _ _ Hop) as [Hpf Hpl Hpn]. simpl in Hpl, Hpn.
  assert (Hlt : (length kvs < branch_factor t - 1)%nat).
  { destruct (Nat.eq_dec (length kvs) (branch_factor t - 1)) as [Hfull|]; [exfalso|lia].
    destruct Hroom as [[_ ->]%app_nil|Hmod]; [simpl in Hfull; lia|]. apply Hmod.
    rewrite length_app, (contents_packed (branch_factor t)), Hfull by done.
    replace (_ + _)%nat with (S (length (spine_leaves fs)) * (branch_factor t - 1))%nat by lia.
    apply Nat.Div0.mod_mul. }
  pose proof (op_leaf _ _ _ _ _ _ Hop) as (d & Hd & Hdl & Hk & _). pose proof (op_last _ _ _ _ _ _ Hop) as Hlast.
  destruct (lookup_lt_is_Some_2 d (length kvs)) as [[k0 v0] Hcell]; [lia|].
  assert (v0 = 0) as ->.
  { pose proof (chain_last _ _ _ (op_chain _ _ _ _ _ _ Hop)) as Hn. rewrite (next_of_node _ _ _ _ _ _ _ Hd Hcell) in Hn.
    by injection Hn. }
  destruct (tryappend_room calloc t h n fs l kvs k v _ Hbf Hroot Hop Hs Ha Hlt Hd) as (h' & Hrun & _ & I').
  unfold tryappend_leaf in Hrun. rewrite leaf_full in Hrun by lia.
  rewrite bind_Ok, (proj2 (Nat.eqb_neq _ _)) in Hrun by lia. cbn [negb] in Hrun.
  apply bind_Ok_inv in Hrun as (h1 & Hpush & [= ->]). rewrite Hlast in *.
  apply push_entry_inv in Hpush as (nd & Hnd & _ & ->). rewrite Hd in Hnd. injection Hnd as <-.
  eexists _, k0. split; [exact Hd|]. split; [exact Hcell|]. split.
  - cbn [append_step]. rewrite Hlast. run (deref_Ok _ _ _ Hd). run (monotonic_check (up fs) d kvs k Hk).
    rewrite (proj2 (not_above_false kvs k)).
    2:{ apply Forall_app in Ha as [_ Ha]. destruct kvs as [|kv kvs _] using rev_ind; [done|]. rewrite last_snoc.
        apply Forall_app in Ha as [_ Ha]. by inversion Ha. }
    rewrite leaf_full, bind_Ok, (proj2 (Nat.eqb_neq _ _)) by lia. done.
  - eexists _, _. split; [exact I'|]. unfold entries. rewrite leaves_plug. simpl leaves.
    unfold contents. rewrite flat_map_app. simpl. by rewrite app_nil_r, app_assoc.
Qed.

(** [C26]: [mbptree_last_value] takes no lock: on any tree whose lock is free
    and whose last leaf has room, and for any greater key, there is an
    execution with an append of the key in which it returns 0 and the null
    address, read from the cell that the append has counted but not yet
    written; before the append it returns the last value (or -1 on an empty
    tree), and after it the new value. *)
Theorem last_value_meets_half_entry calloc calloc_struct t h kvs k v :
  tree_stores t h kvs → lock t = Lock 0 0 → above k kvs →
  kvs = [] ∨ (length kvs mod (branch_factor t - 1) ≠ 0)%nat →
  ∃ h', tree_exec calloc calloc_struct (half_value k v) (TreeState t h []) =
      Ok (TreeState t h' [Appending k v (A_return 0); Lasting (V_return 0 (Some 0))]) ∧
    tree_stores t h' (kvs ++ [(k, v)]) ∧
    mbptree_last_value t h = Ok (match last kvs with Some kv => (0, Some kv.2) | None => (-1, None) end) ∧
    mbptree_last_value t h' = Ok (0, Some v).
Proof.
  intros Hst Hlock Ha Hroom. pose proof (stores_set_lock t h kvs (Lock 1 0) Hst) as Hst1.
  destruct (last_leaf_room calloc (set_lock (Lock 1 0) t) h kvs k v Hst1 Ha Hroom) as (nd & k0 & Hnd & Hcell & Hlook & Hst2).
  change (last_leaf (set_lock (Lock 1 0) t)) with (last_leaf t) in *.
  pose proof (stores_set_lock _ _ _ (Lock 0 0) Hst2) as Hst3.
  change (set_lock (Lock 0 0) (set_lock (Lock 1 0) t)) with (set_lock (Lock 0 0) t) in Hst3. rewrite unlocked in Hst3 by done.
  exists (<[last_leaf t := filled (k, v) nd]> h). split; [|split; [done|split; [by apply last_value_ok|]]].
  2:{ rewrite (last_value_ok _ _ _ Hst3). by rewrite last_snoc. }
  set (l := last_leaf t) in *.
  pose proof (stores_sizes _ _ _ Hst2 l _ (lookup_insert_eq _ _ _)) as Hlen. simpl in Hlen. rewrite length_insert in Hlen.
  unfold half_value. cbn [goes replicate app].
  change (tree_exec ?c ?s (_ :: _ :: ?evs) _) with
    (tree_exec c s evs (TreeState t h [Appending k v A_lock; Lasting V_leaf])).
  (* the append takes the lock, looks, and counts its entry *)
  erewrite exec_go; [|done|by cbn [tree_call_step append_step]; rewrite decide_True by done].
  erewrite exec_go; [|done|cbn [tree_call_step]; by rewrite Hlook].
  erewrite exec_go; [|done|cbn [tree_call_step append_step]; rewrite (deref_Ok _ _ _ Hnd), bind_Ok;
    erewrite update_Ok; [done|exact Hnd|done]].
  (* the other reads the cell *)
  assert (Hd : deref l (<[l := set_nsize (S (nsize nd)) nd]> h) = Ok (set_nsize (S (nsize nd)) nd)) by apply deref_Ok, lookup_insert_eq.
  erewrite (exec_go _ _ _ _ _ _ _ _ (Lasting (V_size l))); [|done|done].
  erewrite (exec_go _ _ _ _ _ _ _ _ (Lasting (V_index l))); [|done|cbn [tree_call_step last_step]; by rewrite Hd, bind_Ok].
  erewrite (exec_go _ _ _ _ _ _ _ _ (Lasting (V_value l (nsize nd)))); [|done|cbn [tree_call_step last_step]; by rewrite Hd, bind_Ok].
  erewrite exec_go; [|done|cbn [tree_call_step last_step];
    by rewrite Hd, bind_Ok, (get_data_at (set_nsize _ nd) _ _ Hcell), bind_Ok].
  (* the append writes it, and releases the lock *)
  erewrite exec_go; [|done|cbn [tree_call_step append_step]; erewrite update_Ok; [done|apply lookup_insert_eq|];
    unfold put_key; rewrite (get_data_at (set_nsize _ nd) _ _ Hcell), bind_Ok; by apply put_data_at].
  rewrite insert_insert_eq.
  erewrite exec_go; [|done|cbn [tree_call_step append_step]; erewrite update_Ok; [done|apply lookup_insert_eq|];
    unfold put_value; rewrite (get_data_at _ _ (k, 0)), bind_Ok; [apply put_data_at; simpl; by rewrite length_insert|];
    by apply list_lookup_insert_eq].
  rewrite insert_insert_eq. cbn [data nsize set_nsize leaf parent fst snd]. rewrite list_insert_insert_eq.
  erewrite exec_go; [|done|done]. change (set_lock (Lock 0 0) (set_lock (Lock 1 0) t)) with (set_lock (Lock 0 0) t).
  by rewrite unlocked.
Qed.

(** ** A concrete calm execution *)

Fixpoint calm_tree_exec (evs : list tree_event) (st : tree_state) : option tree_state :=
  match evs with
  | [] => Some st
  | ev :: evs =>
    if (tally searching (ts_calls st) <=? 1)%nat
    then match tree_event_step bump_calloc struct_ok ev st with
         | Ok st => calm_tree_exec evs st
         | _ => None
         end
    else None
  end.

Lemma calm_tree_exec_reachable st0 evs : ∀ st st',
  tree_reachable bump_calloc struct_ok st0 st → calm_tree_exec evs st = Some st' →
  tree_reachable bump_calloc struct_ok st0 st'.
Proof.
  induction evs as [|ev evs IH]; intros st st' Hr; cbn [calm_tree_exec]; [by intros [= <-]|].
  destruct (Nat.leb_spec (tally searching (ts_calls st)) 1) as [Hc|]; [|done].
  destruct (tree_event_step _ _ ev st) as [st1| |] eqn:Hrun; [|done..]. intros Hrest.
  eapply IH; [|exact Hrest]. by eapply tree_reach_event.
Qed.

(** An append in the middle of its stores, with a lookup that waits. *)
Definition append_and_lookup : list tree_event :=
  [Start_append 60 6; Start_floor 15; Start_append 70 7] ++ goes 1 8 ++ goes 0 7 ++ goes 2 2.

Lemma tree_lock_excludes_witness :
  ∃ st, tally writing (ts_calls st) = 1%nat ∧
    (0 < tally writing (ts_calls st) → tally searching (ts_calls st) = 0)%nat.
Proof.
  destruct (calm_tree_exec append_and_lookup demo_start) as [st|] eqn:Hrun; [|vm_compute in Hrun; discriminate Hrun].
  exists st. split; [vm_compute in Hrun; injection Hrun as <-; reflexivity|].
  refine (proj2 (proj1 (tree_lock_excludes bump_calloc struct_ok (run_list (demo_ops 5) []).2 (demo_tree 5) (demo_heap 5) st
    bump_fresh bump_total (demo_stores 5) _ _))).
  - vm_compute. reflexivity.
  - apply (calm_tree_exec_reachable _ append_and_lookup demo_start); [constructor|exact Hrun].
Defined.

Lemma last_value_meets_half_entry_witness :
  ∃ h', tree_exec bump_calloc struct_ok (half_value 60 5) (TreeState (demo_tree 5) (demo_heap 5) []) =
      Ok (TreeState (demo_tree 5) h' [Appending 60 5 (A_return 0); Lasting (V_return 0 (Some 0))]) ∧
    tree_stores (demo_tree 5) h' ((run_list (demo_ops 5) []).2 ++ [(60, 5)]) ∧
    mbptree_last_value (demo_tree 5) (demo_heap 5) = Ok (0, Some 4) ∧
    mbptree_last_value (demo_tree 5) h' = Ok (0, Some 5).
Proof.
  apply (last_value_meets_half_entry bump_calloc struct_ok (demo_tree 5) (demo_heap 5) (run_list (demo_ops 5) []).2 60 5).
  - apply demo_stores.
  - by vm_compute.
  - vm_compute. repeat constructor.
  - right. by vm_compute.
Defined.
