(* ===== verification/MbptreeIndex.v ===== *)
(** * The tree of mbptree.c as an index

    A tree with the heap of its nodes implements the interface of Index.v and
    satisfies its laws, when its allocations succeed. *)

From S2P Require Import Prelude Errno Index Mbptree MbptreeInv MbptreeOps MbptreeAppend MbptreeFind MbptreeSpec.

(** Allocation for the nodes and for the other structures of the tree. *)
Class Allocator := { node_calloc : heap → option Z; struct_calloc : heap → bool }.

Class AllocatorLaws `{!Allocator} := {
  law_calloc h l : node_calloc h = Some l → l ≠ 0 ∧ h !! l = None;
  law_calloc_total h : node_calloc h ≠ None;
  law_struct_total h : struct_calloc h = true
}.

Section index.
Context `{!Allocator}.

Definition tree_and_heap : Type := mbptree * heap.

#[export] Instance mbptree_index : Index tree_and_heap mbptree_leaf_iterator := {
  ix_init bf :=
    '(t, h) ← mbptree_init node_calloc struct_calloc bf ∅;
    Ok (match t with Some t => Some (t, h) | None => None end);
  ix_append th k v :=
    '(rc, t, h) ← mbptree_append node_calloc th.1 k v th.2; Ok (rc, (t, h));
  ix_last_value th := mbptree_last_value th.1 th.2;
  ix_leaf_floor th key :=
    '(rc, it, t) ← mbptree_leaf_floor struct_calloc th.1 key th.2; Ok (rc, it, (t, th.2));
  ix_leaf_first th :=
    '(rc, it, t) ← mbptree_leaf_first struct_calloc th.1 th.2; Ok (rc, it, (t, th.2));
  ix_iterator_valid th it := mbptree_leaf_iterator_valid it th.2;
  ix_iterator_value th it := mbptree_leaf_iterator_value it th.2;
  ix_iterator_next th it := mbptree_leaf_iterator_next it th.2;
  ix_free th := _ ← mbptree_free th.1 th.2; Ok 0
}.

Context `{!AllocatorLaws}.

Definition th_stores (th : tree_and_heap) (kvs : list (Z * Z)) : Prop :=
  tree_stores th.1 th.2 kvs ∧ lock th.1 = Lock 0 0.

Definition th_at (th : tree_and_heap) (it : mbptree_leaf_iterator) (rest : list (Z * Z)) : Prop :=
  ∃ n g, tree_inv th.1 th.2 n g ∧ iter_at g it rest.

Definition th_on (th : tree_and_heap) (it : mbptree_leaf_iterator) (kv : Z * Z) : Prop :=
  ∃ nd, th.2 !! it_leaf it = Some nd ∧ leaf nd = 1 ∧ take (nsize nd) (data nd) !! it_idx it = Some kv.

(** An append changes no entry a leaf has. *)
Lemma th_on_append th kvs it kv k v rc th' :
  th_stores th kvs → th_on th it kv → ix_append th k v = Ok (rc, th') → th_on th' it kv.
Proof using All.
  destruct th as [t h]. intros [Hst Hl] (nd & Hnd & Hlf & Hkv). simpl in *.
  pose proof (append_ok node_calloc law_calloc t h kvs k v Hst Hl law_calloc_total) as Ha.
  destruct (not_above kvs k).
  - rewrite Ha, bind_Ok. intros [= <- <-]. by exists nd.
  - destruct Ha as (t' & h' & -> & _ & _ & _ & Hk). rewrite bind_Ok. intros [= <- <-].
    destruct (Hk _ _ Hnd Hlf) as (nd' & Hnd' & Hlf' & Hle & Htake). exists nd'. split_and!; [done..|].
    rewrite <- Htake in Hkv. pose proof (lookup_lt_Some _ _ _ Hkv) as Hlt. rewrite length_take in Hlt.
    rewrite lookup_take_lt in Hkv by lia. by rewrite lookup_take_lt by lia.
Qed.

Lemma iter_on t h n g it kv rest :
  tree_inv t h n g → iter_at g it (kv :: rest) → th_on (t, h) it kv.
Proof using Type.
  intros Hinv Hit. inversion Hit as [|ls l kvs ls' idx Hls Hidx Hit' Hrest]; subst.
  destruct (inv_leaf_at _ _ _ _ Hinv _ _ _ _ Hls) as (_ & _ & (q & d & Hd & _ & Hk & _) & _).
  destruct (lookup_lt_is_Some_2 kvs idx Hidx) as [kv' Hkv].
  rewrite (drop_S _ _ _ Hkv) in Hrest. simpl in Hrest. injection Hrest as -> _.
  eexists. split; [exact Hd|]. simpl. by rewrite Hk.
Qed.

Lemma from_floor_entries key kvs : ascending kvs → floor_entries key kvs (from_floor key kvs).
Proof using Type.
  intros Hs. pose proof (from_floor_spec key kvs Hs) as Hff.
  destruct (from_floor key kvs) as [|kv after]; [by constructor|].
  destruct Hff as (? & ? & before & ->). by constructor.
Qed.

Lemma th_floor t h kvs key :
  th_stores (t, h) kvs →
  ∃ it rest, mbptree_leaf_floor struct_calloc t key h = Ok (0, Some it, t) ∧
    th_at (t, h) it rest ∧ floor_entries key kvs rest.
Proof using All.
  intros [(n & g & Hinv & <-) Hl]. simpl in *.
  destruct (leaf_floor_ok struct_calloc t h n g key Hinv) as (it & Hrun & Hit);
    [apply law_struct_total|by rewrite Hl..|].
  exists it, (from_floor key (entries g)). split; [done|]. split; [by exists n, g|].
  apply from_floor_entries, (ti_sorted _ _ _ _ Hinv).
Qed.

#[export] Program Instance mbptree_laws : IndexLaws tree_and_heap mbptree_leaf_iterator := {
  ix_stores := th_stores;
  ix_at := th_at;
  ix_on := th_on
}.
Next Obligation.
  intros bf Hbf.
  destruct (init_ok node_calloc struct_calloc law_calloc bf Hbf law_calloc_total law_struct_total)
    as (t & h & Hi & Hst & Hl & _).
  exists (t, h). simpl. run Hi. done.
Qed.
Next Obligation.
  intros [t h] kvs k v [Hst Hl] Hk. simpl in *.
  pose proof (append_ok node_calloc law_calloc t h kvs k v Hst Hl law_calloc_total) as Ha.
  rewrite (proj2 (not_above_false kvs k)) in Ha.
  - destruct Ha as (t' & h' & Ha & ? & ? & _). run Ha. by exists (t', h').
  - destruct kvs as [|kv kvs _] using rev_ind; [done|]. rewrite last_snoc.
    apply Forall_app in Hk as [_ Hk]. by inversion Hk.
Qed.
Next Obligation.
  intros [t h] kvs kv k v [Hst Hl] Hk. simpl in *.
  pose proof (append_ok node_calloc law_calloc t h _ k v Hst Hl law_calloc_total) as Ha.
  replace (not_above (kvs ++ [kv]) k) with true in Ha; [by run Ha|].
  unfold not_above. rewrite last_snoc. lia.
Qed.
Next Obligation. intros [t h] kvs [Hst _]. by apply last_value_ok. Qed.
Next Obligation.
  intros [t h] kvs key Hst. destruct (th_floor t h kvs key Hst) as (it & rest & Hf & ? & ?).
  exists it, rest. simpl. by run Hf.
Qed.
Next Obligation.
  intros [t h] kvs Hst. destruct (th_floor t h kvs 0 Hst) as (it & rest & Hf & ? & ?).
  exists it, rest. simpl. unfold mbptree_leaf_first. by run Hf.
Qed.
Next Obligation. intros [t h] it rest (n & g & Hinv & Hit). by eapply iter_valid. Qed.
Next Obligation. intros [t h] it kv rest (n & g & Hinv & Hit). by eapply iter_on. Qed.
Next Obligation.
  intros [t h] it kv (nd & Hnd & Hlf & Hkv). simpl in *. unfold mbptree_leaf_iterator_value.
  run (deref_Ok _ _ _ Hnd). pose proof (lookup_lt_Some _ _ _ Hkv) as Hlt. rewrite length_take in Hlt.
  rewrite lookup_take_lt in Hkv by lia. destruct nd. by run (get_data_Ok _ _ _ _ _ _ Hkv).
Qed.
Next Obligation. exact th_on_append. Qed.
Next Obligation.
  intros [t h] it kv rest (n & g & Hinv & Hit).
  destruct (iter_next _ _ _ _ Hinv _ _ _ Hit) as (it' & ? & ?). exists it'. split; [done|]. by exists n, g.
Qed.
Next Obligation. intros [t h] kvs [Hst _]. simpl in *. by run (free_ok t h kvs Hst). Qed.
End index.

(** An allocator that numbers the blocks upwards. *)
#[export] Instance bump_allocator : Allocator :=
  {| node_calloc := bump_calloc; struct_calloc := struct_ok |}.
#[export] Instance bump_laws : AllocatorLaws :=
  {| law_calloc := bump_fresh; law_calloc_total := bump_total; law_struct_total := struct_ok_total |}.
