(* ===== verification/Pthread.v ===== *)
(** * The mutex of the log (pthread.h) *)

From S2P Require Import Prelude.

Definition EBUSY : Z := 16.

Class Pthread (M : Type) := {
  mutex_zero : M;      (* the mutex of a structure filled with zeros *)
  pthread_mutex_init : M → Z * M;
  (* the code, [errno], and the mutex *)
  pthread_mutex_trylock : M → Z * Z * M;
  pthread_mutex_unlock : M → Z * M;
  (* undefined for a mutex that is held or was not initialised *)
  pthread_mutex_destroy : M → result (Z * M)
}.

Class PthreadLaws (M : Type) `{!Pthread M} := {
  mutex_free : M → Prop;
  mutex_held : M → Prop;
  law_trylock_free m : mutex_free m →
    ∃ e m', pthread_mutex_trylock m = (0, e, m') ∧ mutex_held m';
  law_trylock_held m : mutex_held m → ∃ e, pthread_mutex_trylock m = (EBUSY, e, m);
  law_unlock m : mutex_held m → ∃ m', pthread_mutex_unlock m = (0, m') ∧ mutex_free m';
  (* with default attributes, as Linux documents it *)
  law_mutex_init m : ∃ m', pthread_mutex_init m = (0, m') ∧ mutex_free m';
  law_mutex_destroy m : mutex_free m → ∃ rc m', pthread_mutex_destroy m = Ok (rc, m')
}.

(** ** A mutex of one thread *)

Inductive flag_mutex := Raw | Free | Held.

#[export] Instance flag_pthread : Pthread flag_mutex := {
  mutex_zero := Raw;
  pthread_mutex_init _ := (0, Free);
  pthread_mutex_trylock m := match m with Free => (0, 0, Held) | _ => (EBUSY, EBUSY, m) end;
  pthread_mutex_unlock m := match m with Held => (0, Free) | _ => (-1, m) end;
  pthread_mutex_destroy m := match m with Free => Ok (0, Raw) | _ => UB end
}.

#[export] Program Instance flag_laws : PthreadLaws flag_mutex := {
  mutex_free m := m = Free;
  mutex_held m := m = Held
}.
Next Obligation. intros m ->. by exists 0, Held. Qed.
Next Obligation. intros m ->. by exists EBUSY. Qed.
Next Obligation. intros m ->. by exists Free. Qed.
Next Obligation. intros m. by exists Free. Qed.
Next Obligation. intros m ->. by exists 0, Raw. Qed.
