(* ===== verification/Mqlog.v ===== *)
(** * The log (src/mqlog.h, src/mqlog.c): segments behind an index

    A log keeps its segments in an index, by the offset of their first
    payload. A segment is named by the address of its structure; the
    structures live in the store of the process beside the operating system,
    and an access to one that was released is [UB]. *)

From S2P Require Import Prelude Errno Prot Posix Util Segment SegmentFile Index Pthread.

Definition BRANCH_FACTOR : nat := 7.
Definition MAX_DIR_SIZE : nat := 1024.
Definition MQLOG_RDDRT : Z := 0x0.
Definition MQLOG_RDCMT : Z := 0x1.

(** [sizeof(struct mqlog)] *)
Definition sizeof_mqlog : Z := 1088.

(** [struct mqlog] *)
Record mqlog (T M : Type) := Mqlog {
  lg_size  : Z;            (* size_t *)
  lg_flags : Z;
  lg_dir   : string;
  lg_index : option T;     (* none for a null pointer *)
  lg_lock  : M
}.
Arguments Mqlog {T M}.
Arguments lg_size {T M}.
Arguments lg_flags {T M}.
Arguments lg_dir {T M}.
Arguments lg_index {T M}.
Arguments lg_lock {T M}.

(** The operating system, and the segment structures by address. *)
Record process (W : Type) := Process { pr_os : W; pr_segments : gmap Z segment }.
Arguments Process {W}.
Arguments pr_os {W}.
Arguments pr_segments {W}.

Section mqlog.
Context {W T It M : Type} `{!Posix W, !Index T It, !Pthread M}.
Abbreviation mqlog_t := (mqlog T M).
Abbreviation process_t := (process W).
Implicit Types (lg : mqlog_t) (pr : process_t).

Definition set_lg_index (t : T) lg : mqlog_t :=
  Mqlog (lg_size lg) (lg_flags lg) (lg_dir lg) (Some t) (lg_lock lg).
Definition set_lg_lock (m : M) lg : mqlog_t :=
  Mqlog (lg_size lg) (lg_flags lg) (lg_dir lg) (lg_index lg) m.

(** [lg->index] where the code uses it. *)
Definition the_index lg : result T := of_option (lg_index lg).

(** ** Calls on the segment behind a pointer *)

Definition open_segment (dir : string) (base_offset sz flags : Z) pr
    : result (Z * Z * process_t) :=
  '(rc, sgm, w) ← segment_open dir base_offset (u32 sz) flags (pr_os pr);
  match sgm with
  | Some (p, sgm) => Ok (rc, p, Process w (<[p := sgm]> (pr_segments pr)))
  | None => Ok (rc, 0, Process w (pr_segments pr))
  end.

Definition deref_segment (p : Z) pr : result segment := of_option (pr_segments pr !! p).

Definition write_segment (p : Z) (buf : bytes) pr : result (Z * process_t) :=
  sgm ← deref_segment p pr;
  '(rc, sgm) ← segment_write sgm buf;
  Ok (rc, Process (pr_os pr) (<[p := sgm]> (pr_segments pr))).

Definition sync_segment (p : Z) pr : result (Z * process_t) :=
  sgm ← deref_segment p pr;
  let '(rc, sgm, w) := segment_sync sgm (pr_os pr) in
  Ok (rc, Process w (<[p := sgm]> (pr_segments pr))).

(** The structure is released unless the sync fails. *)
Definition close_segment (p : Z) pr : result (Z * process_t) :=
  sgm ← deref_segment p pr;
  let '(rc, sgm, w) := segment_close p sgm (pr_os pr) in
  Ok (rc, Process w (if rc <? 0 then <[p := sgm]> (pr_segments pr)
                     else delete p (pr_segments pr))).

(** ** Operations *)

(** The code and the address of the new segment. *)
Definition create_segment (base_offset : Z) lg pr : result (Z * Z * process_t) :=
  let flags := if Z.land (lg_flags lg) MQLOG_RDCMT =? MQLOG_RDCMT then SGM_RDCMT else SGM_RDDRT in
  open_segment (lg_dir lg) base_offset (lg_size lg) flags pr.

(** The end of [mqlog_trywrite]: a new segment enters the index. *)
Definition index_segment (sgm written : Z) lg pr : result (Z * mqlog_t * process_t) :=
  s ← deref_segment sgm pr;
  index ← the_index lg;
  '(rc, index) ← ix_append index (segment_base_offset s) sgm;
  let lg := set_lg_index index lg in
  if rc =? ELIDXPC then '(_, pr) ← close_segment sgm pr; Ok (rc, lg, pr)
  else if negb (rc =? 0) then '(_, pr) ← close_segment sgm pr; Ok (ELIDXOP, lg, pr)
  else Ok (written, lg, pr).

Definition mqlog_trywrite lg (buf : bytes) pr : result (Z * mqlog_t * process_t) :=
  index ← the_index lg;
  '(rc, value) ← ix_last_value index;
  match value with
  | None =>
    (* This is the first segment *)
    '(rc, sgm, pr) ← create_segment 0 lg pr;
    if negb (rc =? 0) then Ok (rc, lg, pr)
    else
      '(written, pr) ← write_segment sgm buf pr;
      if written =? ELEOS then '(_, pr) ← close_segment sgm pr; Ok (ELNOWCP, lg, pr)
      else index_segment sgm written lg pr
  | Some sgm =>
    '(written, pr) ← write_segment sgm buf pr;
    if written =? ELEOS then
      (* segment has no capacity left *)
      s ← deref_segment sgm pr;
      let new_base_offset := segment_write_offset s in
      '(rc, sgm, pr) ← create_segment new_base_offset lg pr;
      if negb (rc =? 0) then Ok (rc, lg, pr)
      else
        '(written, pr) ← write_segment sgm buf pr;
        if written =? ELEOS then '(_, pr) ← close_segment sgm pr; Ok (ELNOWCP, lg, pr)
        else index_segment sgm written lg pr
    else Ok (written, lg, pr)
  end.

(** [mqlog_tryread]: when [mbptree_leaf_floor] fails it returns with the lock
    held. *)
Definition mqlog_tryread lg (offset : Z) (fr : frame) pr : result (Z * frame * mqlog_t) :=
  let '(rc, errno, m) := pthread_mutex_trylock (lg_lock lg) in
  let lg := set_lg_lock m lg in
  if rc =? EBUSY then Ok (ELLOCK, fr, lg)
  else if negb (rc =? 0) then Ok (if errno =? EBUSY then ELLOCK else ELLCKOP, fr, lg)
  else
    index ← the_index lg;
    '(rc, iterator, index) ← ix_leaf_floor index offset;
    let lg := set_lg_index index lg in
    match iterator with
    | None => Ok (rc, fr, lg)
    | Some iterator =>
      valid ← ix_iterator_valid index iterator;
      let '(rc, m) := pthread_mutex_unlock (lg_lock lg) in
      let lg := set_lg_lock m lg in
      if negb valid then Ok (if negb (rc =? 0) then ELLCKOP else ELNORD, fr, lg)
      else if negb (rc =? 0) then Ok (ELLCKOP, fr, lg)
      else
        sgm ← ix_iterator_value index iterator;
        s ← deref_segment sgm pr;
        let relative_offset := u64 (offset - segment_base_offset s) in
        '(rc, fr) ← segment_read s relative_offset fr;
        Ok (rc, fr, lg)
    end.

(** The body of the loop of [load_segments]: [None] when the loop goes on. *)
Definition load_segment (d_name : string) lg pr : result (option Z * mqlog_t * process_t) :=
  if has_suffix d_name ".log" then
    let str := (snprintf MAX_DIR_SIZE (lg_dir lg +:+ "/" +:+ d_name)).2 in
    let size := file_size str (pr_os pr) in
    if size =? -1 then Ok (Some ELLDSGM, lg, pr)
    else
      let str := (snprintf MAX_DIR_SIZE d_name).2 in
      let offset := u64 (strtoll str) in
      '(rc, sgm, pr) ← open_segment (lg_dir lg) offset size (lg_flags lg) pr;
      if negb (rc =? 0) then Ok (Some ELLDSGM, lg, pr)
      else
        index ← the_index lg;
        '(rc, index) ← ix_append index offset sgm;
        let lg := set_lg_index index lg in
        if rc =? ELIDXPC then '(_, pr) ← close_segment sgm pr; Ok (Some rc, lg, pr)
        else if negb (rc =? 0) then '(_, pr) ← close_segment sgm pr; Ok (Some ELLDSGM, lg, pr)
        else Ok (None, lg, pr)
  else Ok (None, lg, pr).

Fixpoint load_loop (names : list string) lg pr : result (Z * mqlog_t * process_t) :=
  match names with
  | [] => Ok (0, lg, pr)
  | d_name :: names =>
    '(rc, lg, pr) ← load_segment d_name lg pr;
    match rc with
    | Some rc => Ok (rc, lg, pr)
    | None => load_loop names lg pr
    end
  end.

(** The stream is closed at the end of the loop, also when [opendir] returned a
    null pointer; an early return leaves it open. *)
Definition load_segments lg pr : result (Z * mqlog_t * process_t) :=
  let '(d, w) := os_opendir (lg_dir lg) (pr_os pr) in
  let pr := Process w (pr_segments pr) in
  '(rc, lg, pr) ← (if negb (d =? 0) then load_loop (os_readdir d (pr_os pr)) lg pr else Ok (0, lg, pr));
  if negb (rc =? 0) then Ok (rc, lg, pr)
  else '(_, w) ← os_closedir d (pr_os pr); Ok (0, lg, Process w (pr_segments pr)).

(** The loop of [mqlog_close] over the segments: the number of errors. *)
Fixpoint close_loop (fuel : nat) (index : T) (iterator : It) (errors : Z) pr
    : result (Z * process_t) :=
  match fuel with
  | O => NoFuel
  | S fuel =>
    valid ← ix_iterator_valid index iterator;
    if (valid : bool) then
      sgm ← ix_iterator_value index iterator;
      '(rc, pr) ← close_segment sgm pr;
      iterator ← ix_iterator_next index iterator;
      close_loop fuel index iterator (if negb (rc =? 0) then errors + 1 else errors) pr
    else Ok (errors, pr)
  end.

(** [mqlog_close] of the log at [p]; it returns early, and releases nothing,
    when the index cannot be read. *)
Definition mqlog_close (p : Z) lg pr : result (Z * process_t) :=
  let finish (errors : Z) pr :=
    '(_, _) ← pthread_mutex_destroy (lg_lock lg);
    Ok (if errors =? 0 then 0 else ELLGCLS, Process (os_free p (pr_os pr)) (pr_segments pr)) in
  match lg_index lg with
  | None => finish 0 pr
  | Some index =>
    '(rc, iterator, index) ← ix_leaf_first index;
    match iterator with
    | None => Ok (rc, pr)
    | Some iterator =>
      '(errors, pr) ← close_loop (S (base.size (pr_segments pr))) index iterator 0 pr;
      rc ← ix_free index;
      finish (if negb (rc =? 0) then errors + 1 else errors) pr
    end
  end.

(** [mqlog_open]: the code, and the address and the value of the log. *)
Definition mqlog_open (dir : string) (size flags : Z) pr
    : result (Z * option (Z * mqlog_t) * process_t) :=
  if negb (size mod pagesize =? 0) then Ok (ELNOPGM, None, pr)
  else
    let '(rc, w) := ensure_directory dir (pr_os pr) in
    let pr := Process w (pr_segments pr) in
    if negb (rc =? 0) then Ok (ELLGDIR, None, pr)
    else
      let '(p, w) := os_malloc sizeof_mqlog (pr_os pr) in
      let pr := Process w (pr_segments pr) in
      if p =? 0 then Ok (ELALLC, None, pr)
      else
        index ← ix_init BRANCH_FACTOR;
        let lg := Mqlog size flags (snprintf MAX_DIR_SIZE dir).2 index mutex_zero in
        match index with
        | None => '(_, pr) ← mqlog_close p lg pr; Ok (ELIDXCR, None, pr)
        | Some _ =>
          let '(rc, m) := pthread_mutex_init (lg_lock lg) in
          let lg := set_lg_lock m lg in
          if negb (rc =? 0) then '(_, pr) ← mqlog_close p lg pr; Ok (ELLCKOP, None, pr)
          else
            '(rc, lg, pr) ← load_segments lg pr;
            if negb (rc =? 0) then '(_, pr) ← mqlog_close p lg pr; Ok (rc, None, pr)
            else Ok (0, Some (p, lg), pr)
        end.

Definition mqlog_write lg (buf : bytes) pr : result (Z * mqlog_t * process_t) :=
  if zlen buf =? 0 then Ok (0, lg, pr)
  else
    let '(rc, errno, m) := pthread_mutex_trylock (lg_lock lg) in
    let lg := set_lg_lock m lg in
    if rc =? EBUSY then Ok (ELLOCK, lg, pr)
    else if negb (rc =? 0) then Ok (if errno =? EBUSY then ELLOCK else ELLCKOP, lg, pr)
    else
      '(written, lg, pr) ← mqlog_trywrite lg buf pr;
      let '(rc, m) := pthread_mutex_unlock (lg_lock lg) in
      let lg := set_lg_lock m lg in
      Ok (if negb (rc =? 0) then ELLCKOP else written, lg, pr).

Definition mqlog_read lg (offset : Z) (fr : frame) pr : result (Z * frame * mqlog_t) :=
  mqlog_tryread lg offset fr pr.

Definition mqlog_sync lg pr : result (Z * process_t) :=
  index ← the_index lg;
  '(rc, value) ← ix_last_value index;
  match value with
  | Some sgm => sync_segment sgm pr
  | None => Ok (0, pr)
  end.
End mqlog.
