(* ===== verification/Layout.v ===== *)
(** * Layouts and compile-time assertions (src/cassert.h)

    [CASSERT] declares an array type that has a negative size when its
    predicate is false. segment.c asserts with it that an offset pair fits the
    64-bit word that [claim] swaps; this file computes the sizes of the
    structures and shows what the assertion is for: to compare the words is to
    compare the pairs. *)

From S2P Require Import Prelude Errno Prot Segment SegmentFile SegmentTypes Pthread Mqlog.

(** ** Structures (LP64)

    A field has a size and an alignment; it starts at the next multiple of its
    alignment, and a structure ends at a multiple of the greatest one. *)

Record field := Field { f_size : Z; f_align : Z }.

Definition uint8 : field := Field 1 1.
Definition uint16 : field := Field 2 2.
Definition uint32 : field := Field 4 4.
Definition uint64 : field := Field 8 8.
Definition int_field : field := uint32.
Definition pointer : field := uint64.
Definition array (n : Z) (f : field) : field := Field (n * f_size f) (f_align f).

Definition align_up (a n : Z) : Z := (n + (a - 1)) / a * a.

(** The offset after the fields from [o] on. *)
Fixpoint fields_end (o : Z) (fs : list field) : Z :=
  match fs with
  | [] => o
  | f :: fs => fields_end (align_up (f_align f) o + f_size f) fs
  end.

Definition struct_align (fs : list field) : Z := foldr (λ f a, Z.max (f_align f) a) 1 fs.
Definition sizeof_struct (fs : list field) : Z := align_up (struct_align fs) (fields_end 0 fs).
Definition struct_field (fs : list field) : field := Field (sizeof_struct fs) (struct_align fs).

Definition header_fields : list field := [uint16; uint8; uint8; uint32; uint32].
Definition index_entry_fields : list field := [uint64].
Definition offset_pair_fields : list field := [uint32; uint32].
(** [struct segment]: version, flags, index_fd, data_fd, size, base_offset,
    buffer, index, s_offset_pair, w_offset_pair; the last is a union of
    an offset pair and a [uint64_t]. *)
Definition segment_fields : list field :=
  [uint32; uint32; int_field; int_field; uint32; uint64; pointer; pointer; struct_field offset_pair_fields; uint64].

(** [struct mqlog]: size, flags, dir, index, lock; glibc's [pthread_mutex_t]
    has 40 bytes. *)
Definition mqlog_fields : list field :=
  [uint64; uint32; array (Z.of_nat MAX_DIR_SIZE) (Field 1 1); pointer; Field 40 8].

Lemma sizes_of_structures :
  sizeof_struct header_fields = header_size ∧ sizeof_struct index_entry_fields = index_entry_size ∧
  sizeof_struct offset_pair_fields = 8 ∧ sizeof_struct segment_fields = sizeof_segment ∧
  sizeof_struct mqlog_fields = sizeof_mqlog.
Proof. by vm_compute. Qed.

(** ** [CASSERT] *)

(** The size of the array type it declares: [2 * !!(predicate) - 1]. *)
Definition CASSERT (predicate : bool) : Z := 2 * Z.b2z predicate - 1.

(** The file compiles: the array has a size. *)
Definition compiles (array_size : Z) : bool := 0 <? array_size.

Lemma CASSERT_holds b : compiles (CASSERT b) = b.
Proof. by destruct b. Qed.

(** The assertion of segment.c. *)
Definition segment_assertion : bool := sizeof_struct offset_pair_fields <=? f_size uint64.

Lemma segment_compiles : compiles (CASSERT segment_assertion) = true.
Proof. done. Qed.

(** ** [union cas_offset_pair] *)

(** The [uint64_t] with the bytes of a pair. *)
Definition cas_helper (p : offset_pair) : Z := le_value (le_bytes 4 (op_index p) ++ le_bytes 4 (op_data p)).

(** [claim] as the code has it: a compare-and-swap of the words. *)
Definition claim_words (sgm : segment) (old new : offset_pair) : Z * segment :=
  if cas_helper (w_offset_pair sgm) =? cas_helper old
  then (0, set_w_offset_pair new sgm) else (ELLOCK, sgm).

Lemma le_bytes_inj n a b :
  0 ≤ a < 2 ^ (Z.of_nat n * 8) → 0 ≤ b < 2 ^ (Z.of_nat n * 8) → le_bytes n a = le_bytes n b → a = b.
Proof. intros Ha Hb Heq. by rewrite <- (le_value_bytes n a), <- (le_value_bytes n b), Heq. Qed.

Lemma cas_helper_inj p q : pair_typed p → pair_typed q → cas_helper p = cas_helper q → p = q.
Proof.
  destruct p as [i d], q as [i' d']. intros [Hi Hd] [Hi' Hd'] Heq%le_combine_inj; [|done].
  unfold is_u32 in *. cbn [op_index op_data] in *. apply app_inj_1 in Heq as [Hx Hy]; [|by rewrite !length_le_split].
  apply le_bytes_inj in Hx, Hy; [by subst|simpl; lia..].
Qed.

(** [claim] on pairs is [claim] on words. *)
Lemma claim_is_claim_words sgm old new :
  pair_typed (w_offset_pair sgm) → pair_typed old → claim sgm old new = claim_words sgm old new.
Proof.
  intros Hw Ho. unfold claim, claim_words. destruct (decide _) as [->|Hne].
  - by rewrite Z.eqb_refl.
  - rewrite (proj2 (Z.eqb_neq _ _)); [done|]. intros Heq. by apply Hne, cas_helper_inj.
Qed.
