(* ===== verification/MqlogInv.v ===== *)
(** * What a log holds: chunks of payloads

    A log is a list of segments, each with the payloads from its base offset
    on; the index has an entry for each. [log_inv] relates a log and its
    process to these chunks. *)

From S2P Require Import Prelude Errno Prot Posix Util Segment SegmentInv SegmentOps SegmentSpec SegmentFile SegmentFileSpec SegmentDurable SegmentFrame Index Pthread Mqlog.

(** ** Chunks *)

Record chunk := Chunk { c_addr : Z; c_items : list bytes; c_eos : bool }.

Definition items (cs : list chunk) : list bytes := flat_map c_items cs.

(** The index entries of the chunks, the first at offset [b]. *)
Fixpoint keys (b : Z) (cs : list chunk) : list (Z * Z) :=
  match cs with
  | [] => []
  | c :: cs => (b, c_addr c) :: keys (b + zlen (c_items c)) cs
  end.

(** A property of each chunk and its base offset. *)
Fixpoint chunks_ok (P : Z → chunk → Prop) (b : Z) (cs : list chunk) : Prop :=
  match cs with
  | [] => True
  | c :: cs => P b c ∧ chunks_ok P (b + zlen (c_items c)) cs
  end.

Lemma items_app cs cs' : items (cs ++ cs') = items cs ++ items cs'.
Proof. apply flat_map_app. Qed.

Lemma items_cons c cs : items (c :: cs) = c_items c ++ items cs.
Proof. done. Qed.

Lemma items_single c : items [c] = c_items c.
Proof. apply app_nil_r. Qed.

Lemma keys_app cs : ∀ b cs', keys b (cs ++ cs') = keys b cs ++ keys (b + zlen (items cs)) cs'.
Proof.
  induction cs as [|c cs IH]; intros b cs'; simpl; [by rewrite Z.add_0_r|].
  rewrite IH. do 3 f_equal. rewrite length_app. lia.
Qed.

Lemma chunks_ok_app P cs : ∀ b cs',
  chunks_ok P b (cs ++ cs') ↔ chunks_ok P b cs ∧ chunks_ok P (b + zlen (items cs)) cs'.
Proof.
  induction cs as [|c cs IH]; intros b cs'; simpl; [rewrite Z.add_0_r; tauto|].
  rewrite IH. replace (b + zlen (c_items c) + zlen (items cs))
    with (b + zlen (c_items c ++ items cs)) by (rewrite length_app; lia). tauto.
Qed.

Lemma chunks_ok_impl (P Q : Z → chunk → Prop) cs : ∀ b,
  (∀ c cs1 cs2, cs = cs1 ++ c :: cs2 → P (b + zlen (items cs1)) c → Q (b + zlen (items cs1)) c) →
  chunks_ok P b cs → chunks_ok Q b cs.
Proof.
  induction cs as [|c cs IH]; intros b HPQ; simpl; [done|]. intros [Hc Hcs]. split.
  - specialize (HPQ c [] cs eq_refl). rewrite Z.add_0_r in HPQ. auto.
  - apply IH; [|done]. intros c' cs1 cs2 ->. specialize (HPQ c' (c :: cs1) cs2 eq_refl).
    rewrite items_cons, length_app in HPQ.
    by replace (b + zlen (c_items c) + zlen (items cs1))
      with (b + Z.of_nat (length (c_items c) + length (items cs1))) by lia.
Qed.

Lemma chunks_ok_at P cs1 c cs2 b :
  chunks_ok P b (cs1 ++ c :: cs2) → P (b + zlen (items cs1)) c.
Proof. rewrite chunks_ok_app. simpl. tauto. Qed.

Definition nonempty_chunks (cs : list chunk) : Prop := Forall (λ c, c_items c ≠ []) cs.

Lemma items_nonempty cs1 c cs2 :
  nonempty_chunks (cs1 ++ c :: cs2) → zlen (items cs1) < zlen (items (cs1 ++ c :: cs2)).
Proof.
  intros [_ [Hc _]%Forall_cons]%Forall_app. rewrite items_app, items_cons, !length_app.
  destruct (c_items c); [done|simpl; lia].
Qed.

Lemma keys_below cs : ∀ b, nonempty_chunks cs →
  Forall (λ kv, kv.1 < b + zlen (items cs)) (keys b cs).
Proof.
  induction cs as [|c cs IH]; intros b Hne; [by constructor|].
  apply Forall_cons in Hne as [Hc Hne]. cbn [keys]. rewrite items_cons, length_app.
  assert (0 < zlen (c_items c)) by (destruct (c_items c); [done|simpl; lia]).
  constructor; [simpl; lia|]. eapply Forall_impl; [by apply IH|]. simpl. lia.
Qed.

Lemma keys_from cs : ∀ b, Forall (λ kv, b ≤ kv.1) (keys b cs).
Proof.
  induction cs as [|c cs IH]; intros b; [by constructor|]. cbn [keys].
  constructor; [simpl; lia|]. eapply Forall_impl; [apply IH|]. simpl. lia.
Qed.

Lemma keys_lookup cs : ∀ b before kv after,
  keys b cs = before ++ kv :: after →
  ∃ cs1 c cs2, cs = cs1 ++ c :: cs2 ∧ kv = (b + zlen (items cs1), c_addr c) ∧
    after = keys (b + zlen (items cs1) + zlen (c_items c)) cs2.
Proof.
  induction cs as [|c cs IH]; intros b before kv after; cbn [keys]; [by destruct before|].
  destruct before as [|kv0 before]; simpl; intros [= <- Hk].
  - exists [], c, cs. simpl. by rewrite Z.add_0_r.
  - destruct (IH _ _ _ _ Hk) as (cs1 & c' & cs2 & -> & -> & ->). exists (c :: cs1), c', cs2.
    rewrite items_cons, length_app. split; [done|]. split; [f_equal; lia|]. f_equal. lia.
Qed.

(** The chunk an offset is in. *)
Lemma floor_chunk cs o rest :
  0 ≤ o → floor_entries o (keys 0 cs) rest →
  match rest with
  | [] => cs = []
  | kv :: _ => ∃ cs1 c cs2 b, cs = cs1 ++ c :: cs2 ∧ b = zlen (items cs1) ∧
      kv = (b, c_addr c) ∧ b ≤ o ∧ (o < b + zlen (c_items c) ∨ cs2 = [])
  end.
Proof.
  intros Ho Hf. inversion Hf as [kvs Hall Heq Hr|before kv after Hle Hall Heq]; subst.
  - destruct cs as [|c cs]; [done|]. cbn [keys] in Hall. inversion Hall. simpl in *. lia.
  - symmetry in Heq. destruct (keys_lookup _ _ _ _ _ Heq) as (cs1 & c & cs2 & -> & -> & ->).
    simpl in Hle. exists cs1, c, cs2, (zlen (items cs1)).
    split_and!; [done..|lia|]. destruct cs2 as [|c2 cs2]; [by right|left].
    cbn [keys] in Hall. inversion Hall. simpl in *. lia.
Qed.

Lemma chunk_lookup cs1 c cs2 i :
  (i < zlen (c_items c) ∨ cs2 = []) → 0 ≤ i →
  c_items c !! Z.to_nat i = items (cs1 ++ c :: cs2) !! Z.to_nat (zlen (items cs1) + i).
Proof.
  intros Hi H0. rewrite items_app, items_cons.
  replace (Z.to_nat (zlen (items cs1) + i)) with (length (items cs1) + Z.to_nat i)%nat by lia.
  rewrite lookup_app_r by lia. rewrite Nat.add_comm, Nat.add_sub.
  destruct Hi as [Hi| ->]; [by rewrite lookup_app_l by lia|]. simpl. by rewrite app_nil_r.
Qed.

(** ** The chunk at an offset *)

Definition chunk_at (cs : list chunk) (b : Z) (c : chunk) : Prop :=
  ∃ cs1 cs2, cs = cs1 ++ c :: cs2 ∧ b = zlen (items cs1).

Lemma chunk_at_last cs c : chunk_at (cs ++ [c]) (zlen (items cs)) c.
Proof. by exists cs, []. Qed.

Lemma chunk_at_in cs b c : chunk_at cs b c → c ∈ cs.
Proof. intros (cs1 & cs2 & -> & _). apply elem_of_app. right. left. Qed.

(** The payload of a chunk is one of the log. *)
Lemma chunk_at_lookup cs b c i p :
  chunk_at cs b c → c_items c !! i = Some p → items cs !! (Z.to_nat b + i)%nat = Some p.
Proof.
  intros (cs1 & cs2 & -> & ->) Hp. rewrite items_app, items_cons.
  rewrite lookup_app_r by lia. replace (_ + i - _)%nat with i by lia. by apply lookup_app_l_Some.
Qed.

Lemma chunk_at_base cs b c : chunk_at cs b c → 0 ≤ b.
Proof. intros (cs1 & cs2 & _ & ->). lia. Qed.

(** The chunk of a payload. *)
Lemma items_chunk cs i p : items cs !! i = Some p →
  ∃ b c j, chunk_at cs b c ∧ c_items c !! j = Some p ∧ i = (Z.to_nat b + j)%nat.
Proof.
  revert i. induction cs as [|c cs IH]; intros i; [done|]. rewrite items_cons. intros [Hp|[Hle Hp]]%lookup_app_Some.
  - exists 0, c, i. split; [by exists [], cs|done].
  - destruct (IH _ Hp) as (b & c' & j & (cs1 & cs2 & -> & ->) & Hj & Hi). exists (zlen (items (c :: cs1))), c', j.
    split; [by exists (c :: cs1), cs2|]. split; [done|]. rewrite items_cons, length_app. lia.
Qed.

(** ** Payloads the log can hold *)

Section sizes.
(** Segments of [sz] bytes and payloads of at least [lo]. *)
Context (sz lo : Z).

Record payload_ok (p : bytes) : Prop := {
  po_nonempty : 0 < zlen p;
  po_min : lo ≤ zlen p;
  po_max : 2 * header_size + zlen p ≤ sz;
  po_forges : forges p = false
}.

Lemma frames_min ps :
  Forall payload_ok ps → (header_size + lo) * zlen ps ≤ zlen (frames ps).
Proof using Type.
  induction 1 as [|p ps [_ Hlo _ _] _ IH]; [simpl; lia|].
  change (frames (p :: ps)) with (frame_bytes p ++ frames ps).
  rewrite length_app, Nat2Z.inj_add, zlen_frame_bytes, length_cons. lia.
Qed.

Lemma payloads_forged ps : Forall payload_ok ps → forged_eos ps = false.
Proof using Type.
  intros H. apply forged_all. eapply Forall_impl; [exact H|]. by intros p [].
Qed.
End sizes.

(** ** Room in the index *)

Section mapped.
Context {W : Type} `{!Posix W, !PosixLaws W}.

(** The index file of a segment has a slot, and the pages mapped for it have
    one for every payload of at least [lo] bytes that fits the segment. *)
Record index_mapped (sz lo : Z) : Prop := {
  im_first : slots sz 0;
  im_all : index_entry_size * ((sz - header_size) / (header_size + lo)) ≤
    page_round os_pagesize (calculate_index_size sz)
}.

Lemma mapped_enough sz lo ps p :
  0 ≤ lo → index_mapped sz lo → Forall (payload_ok sz lo) ps → payload_ok sz lo p →
  zlen (frames ps) + 2 * header_size + zlen p ≤ sz →
  index_entry_size * (zlen ps + 1) ≤ page_round os_pagesize (calculate_index_size sz).
Proof using Type.
  intros Hlo [_ Hall] Hps Hp Hfits. pose proof (frames_min sz lo ps Hps). pose proof (po_min _ _ _ Hp).
  assert (zlen ps + 1 ≤ (sz - header_size) / (header_size + lo)) by (apply Z.div_le_lower_bound; size_lia).
  size_lia.
Qed.

(** Payloads of 84 bytes are long enough for segments of any size. *)
Lemma mapped_84 sz : slots sz 0 → 0 ≤ sz < 2 ^ 32 → index_mapped sz 84.
Proof using All.
  intros H0 Hsz. split; [done|]. pose proof (page_round_ge _ (calculate_index_size_pos sz)) as Hge.
  unfold slots, calculate_index_size in *. rewrite u64_small in * by lia. autounfold with sizes in *.
  pose proof (Z.div_mod (sz + 1) 12). pose proof (Z.mod_pos_bound (sz + 1) 12).
  pose proof (Z.div_mod (sz - 12) (12 + 84)). pose proof (Z.mod_pos_bound (sz - 12) (12 + 84)). lia.
Qed.

(** In a segment of one page every payload is. *)
Lemma mapped_page : slots os_pagesize 0 → index_mapped os_pagesize 0.
Proof using All.
  intros H0. split; [done|]. destruct law_page as (k & Hk & Hpage).
  assert (Hp : 0 < os_pagesize < 2 ^ 32) by (rewrite Hpage; split; [apply Z.pow_pos_nonneg; lia|apply Z.pow_lt_mono_r; lia]).
  assert (H1 : os_pagesize ≤ page_round os_pagesize (calculate_index_size os_pagesize)).
  { unfold slots, page_round in *. autounfold with sizes in *.
    assert (1 ≤ (calculate_index_size os_pagesize + (os_pagesize - 1)) / os_pagesize) by (apply Z.div_le_lower_bound; lia). nia. }
  autounfold with sizes. pose proof (Z.div_mod (os_pagesize - 12) (12 + 0)).
  pose proof (Z.mod_pos_bound (os_pagesize - 12) (12 + 0)). lia.
Qed.
End mapped.

(** ** The invariant *)

(** How a log reads: what was written, or only what was synced. *)
Class Mode := committed : bool.

Definition reads_written : Mode := false.
Definition reads_synced : Mode := true.

Definition in_mode {mode : Mode} (flags : Z) : Prop := (Z.land flags MQLOG_RDCMT =? MQLOG_RDCMT) = committed.

Section inv.
Context {W T It M : Type}.
Context `{!Posix W, !PosixLaws W, !Index T It, !IndexLaws T It, !Pthread M, !PthreadLaws M}.
Context {mode : Mode}.
Context (dir : string) (sz lo : Z).
Implicit Types (lg : mqlog T M) (pr : process W).

(** A segment in memory over its two files. *)
Record live pr (b : Z) (c : chunk) (sgm : segment) : Prop := {
  lv_sgm : pr_segments pr !! c_addr c = Some sgm;
  lv_inv : seg_inv sgm (c_items c) (c_eos c);
  lv_attached : attached (pr_os pr) dir b sgm;
  lv_size : size sgm = sz;
  lv_base : base_offset sgm = b;
  lv_flags : in_mode (flags sgm);
  lv_fds : index_fd sgm ≠ 0 ∧ data_fd sgm ≠ 0
}.

Definition chunk_ok pr (b : Z) (c : chunk) : Prop :=
  (∃ sgm, live pr b c sgm) ∧ Forall (payload_ok sz lo) (c_items c).

(** Offsets stay below this bound. *)
Definition max_offset : Z := 2 ^ 63 - 2 ^ 32.

(** The segments of the process. *)
Record resident pr (cs : list chunk) : Prop := {
  rs_chunks : chunks_ok (chunk_ok pr) 0 cs;
  rs_addrs : NoDup (c_addr <$> cs);
  rs_only a : is_Some (pr_segments pr !! a) → a ∈ c_addr <$> cs;
  rs_blocks : dom (pr_segments pr) ⊆ v_blocks (ps_view (pr_os pr));
  rs_stdin : is_Some (v_fds (ps_view (pr_os pr)) !! 0)
}.

(** No segment was stored from an offset on. *)
Definition fresh_from (w : W) (n : Z) : Prop :=
  ∀ off, n ≤ off < max_offset → stored w dir off sz [].

Record store_inv pr (cs : list chunk) : Prop := {
  si_resident : resident pr cs;
  si_fresh : fresh_from (pr_os pr) (zlen (items cs))
}.

Record log_inv lg pr (cs : list chunk) : Prop := {
  li_store : store_inv pr cs;
  li_nonempty : nonempty_chunks cs;
  li_index : ∃ t, lg_index lg = Some t ∧ ix_stores t (keys 0 cs);
  li_lock : mutex_free (lg_lock lg);
  li_dir : lg_dir lg = dir;
  li_size : lg_size lg = sz;
  li_flags : in_mode (lg_flags lg)
}.
End inv.
