(* ===== verification/MqlogSynced.v ===== *)
(** * Which payloads of a log were synced

    A log opened with [MQLOG_RDCMT] shows the payloads below the synced offset
    of their segment. [view] is what a process shows of each chunk of a log;
    the lemmas say how the steps of a write and of a sync change it. *)

From S2P Require Import Prelude Errno Prot Posix Util Segment SegmentInv SegmentOps SegmentSpec SegmentFile SegmentFileSpec SegmentDurable SegmentFrame Index Pthread Mqlog MqlogInv.

(** ** The abstract log: per segment, its payloads and whether they are synced *)

Definition clog := list (list (bytes * bool)).

(** The log at an offset. *)
Definition clog_lookup (l : clog) (off : Z) : option (bytes * bool) := concat l !! Z.to_nat off.

Definition mark_synced (s : list (bytes * bool)) : list (bytes * bool) := (λ x, (x.1, true)) <$> s.

(** A write appends a payload that is not synced, to the last segment or to a
    new one, or the system refuses it. *)
Inductive clog_write (refusals : list Z) (p : bytes) : clog → Z → clog → Prop :=
  | cw_appended l s : clog_write refusals p (l ++ [s]) (zlen p) (l ++ [s ++ [(p, false)]])
  | cw_rolled l : clog_write refusals p l (zlen p) (l ++ [[(p, false)]])
  | cw_refused l rc : rc ∈ refusals → clog_write refusals p l rc l.

(** A sync is for the last segment: a code from 0 on says that all of it is
    synced, a negative one leaves it open. *)
Inductive clog_sync : clog → Z → clog → Prop :=
  | cs_nothing : clog_sync [] 0 []
  | cs_synced l s rc : clog_sync (l ++ [s]) rc (l ++ [mark_synced s])
  | cs_failed l rc : rc < 0 → clog_sync l rc l.

Section synced.
Context {W : Type}.
Implicit Types (pr : process W).

(** The payloads of a chunk, each with whether its frame is below the synced
    offset of the segment. *)
Definition shows pr (c : chunk) : list (bytes * bool) :=
  match pr_segments pr !! c_addr c with
  | Some sgm => imap (λ i p, (p, frame_offset (c_items c) i <? op_data (s_offset_pair sgm))) (c_items c)
  | None => []
  end.

Definition view pr (cs : list chunk) : clog := shows pr <$> cs.

(** The synced offset of an open segment is not past what was written. *)
Definition sync_bounded pr (c : chunk) : Prop :=
  ∀ sgm, pr_segments pr !! c_addr c = Some sgm → c_eos c = false →
    op_data (s_offset_pair sgm) ≤ zlen (frames (c_items c)).

Lemma shows_lookup pr c sgm i p :
  pr_segments pr !! c_addr c = Some sgm → c_items c !! i = Some p →
  shows pr c !! i = Some (p, frame_offset (c_items c) i <? op_data (s_offset_pair sgm)).
Proof using Type. intros Hs Hp. unfold shows. by rewrite Hs, list_lookup_imap, Hp. Qed.

Lemma shows_length pr c : is_Some (pr_segments pr !! c_addr c) → length (shows pr c) = length (c_items c).
Proof using Type. intros [sgm Hs]. unfold shows. by rewrite Hs, length_imap. Qed.

(** The segments of a process at the addresses of the chunks. *)
Definition present pr (cs : list chunk) : Prop := Forall (λ c, is_Some (pr_segments pr !! c_addr c)) cs.

(** Chunks whose segments stay show the same. *)
Lemma view_kept pr pr' cs :
  (∀ c, c ∈ cs → pr_segments pr' !! c_addr c = pr_segments pr !! c_addr c) →
  view pr' cs = view pr cs ∧ (Forall (sync_bounded pr) cs → Forall (sync_bounded pr') cs).
Proof using Type.
  intros Hk. split.
  - apply list_fmap_ext. intros i c Hc%list_elem_of_lookup_2. unfold shows. by rewrite Hk.
  - rewrite !Forall_forall. intros Hs c Hc sgm. rewrite Hk by done. by apply Hs.
Qed.

(** ** A step on the last chunk *)

Record last_change pr (c : chunk) pr' (c' : chunk) : Prop := {
  la_addr : c_addr c' = c_addr c;
  la_segments : ∃ sgm sgm', pr_segments pr !! c_addr c = Some sgm ∧
    pr_segments pr' = <[c_addr c := sgm']> (pr_segments pr) ∧ s_offset_pair sgm' = s_offset_pair sgm;
  la_closed : c_eos c = true → c_eos c' = true ∧ c_items c' = c_items c
}.

Lemma last_segment_step pr cs c pr' sgm' :
  NoDup (c_addr <$> cs ++ [c]) → pr_segments pr' = <[c_addr c := sgm']> (pr_segments pr) →
  view pr' cs = view pr cs ∧ (Forall (sync_bounded pr) cs → Forall (sync_bounded pr') cs).
Proof using Type.
  rewrite fmap_app. intros (_ & Hd & _)%NoDup_app Hs. apply view_kept. intros c0 Hc0.
  rewrite Hs. apply lookup_insert_ne. intros Heq. apply (Hd (c_addr c0)).
  - apply list_elem_of_fmap. by exists c0.
  - rewrite <- Heq. left.
Qed.

Lemma last_shows pr cs c pr' c' :
  last_change pr c pr' c' → NoDup (c_addr <$> cs ++ [c]) → Forall (sync_bounded pr) (cs ++ [c]) →
  (c_items c' = c_items c →
     Forall (sync_bounded pr') (cs ++ [c']) ∧ view pr' (cs ++ [c']) = view pr (cs ++ [c])) ∧
  (∀ p, c_items c' = c_items c ++ [p] →
     Forall (sync_bounded pr') (cs ++ [c']) ∧ view pr' (cs ++ [c']) = view pr cs ++ [shows pr c ++ [(p, false)]]).
Proof using Type.
  intros [Ha (sgm & sgm' & Hs & Hs' & Hsync) Hclosed] Hnd Hset.
  destruct (last_segment_step pr cs c pr' sgm' Hnd Hs') as [Hv Hset'].
  apply Forall_app in Hset as [Hset [Hc _]%Forall_cons]. specialize (Hset' Hset). specialize (Hc sgm Hs).
  assert (Hl : pr_segments pr' !! c_addr c' = Some sgm') by (rewrite Hs', Ha; apply lookup_insert_eq).
  assert (Hsettled : zlen (frames (c_items c)) ≤ zlen (frames (c_items c')) → sync_bounded pr' c').
  { intros Hle s. rewrite Hl. intros [= <-] He. rewrite Hsync.
    destruct (c_eos c); [by destruct (Hclosed eq_refl); congruence|]. specialize (Hc eq_refl). lia. }
  unfold view. rewrite !fmap_app. simpl. split.
  - intros Hi. split; [apply Forall_app; split; [done|]; apply Forall_singleton, Hsettled; rewrite Hi; lia|].
    unfold view in Hv. rewrite Hv. do 2 f_equal. unfold shows. by rewrite Hl, Hs, Hi, Hsync.
  - intros p Hi.
    assert (Heos : c_eos c = false).
    { destruct (c_eos c); [|done]. destruct (Hclosed eq_refl) as [_ Heq]. rewrite Heq in Hi.
      apply (f_equal length) in Hi. rewrite length_app in Hi. simpl in Hi. lia. }
    split.
    + apply Forall_app. split; [done|]. apply Forall_singleton, Hsettled.
      rewrite Hi, frames_app, length_app. lia.
    + unfold view in Hv. rewrite Hv. do 2 f_equal. unfold shows. rewrite Hl, Hs, Hi, Hsync, imap_app.
      f_equal; [apply imap_ext; intros i q Hq%lookup_lt_Some; by rewrite frame_offset_prefix by lia|].
      simpl. do 2 f_equal. specialize (Hc Heos). unfold frame_offset.
      rewrite Nat.add_0_r, take_app_length. by apply Z.ltb_ge.
Qed.

(** ** A new segment *)

Lemma new_shows pr cs pr' a :
  pr_segments pr ⊆ pr_segments pr' → present pr cs → Forall (sync_bounded pr) cs →
  (∀ sgm, pr_segments pr' !! a = Some sgm → op_data (s_offset_pair sgm) = 0) →
  is_Some (pr_segments pr' !! a) →
  Forall (sync_bounded pr') (cs ++ [Chunk a [] false]) ∧ view pr' (cs ++ [Chunk a [] false]) = view pr cs ++ [[]].
Proof using Type.
  intros Hsub Hp Hset H0 [sgm Hs]. unfold present in Hp. rewrite Forall_forall in Hp.
  destruct (view_kept pr pr' cs) as [Hv Hset'].
  { intros c Hc. destruct (Hp c Hc) as [s Hl]. rewrite Hl. by eapply lookup_weaken. }
  split.
  - apply Forall_app. split; [by apply Hset'|]. apply Forall_singleton. intros s Hl _. simpl in Hl.
    rewrite (H0 _ Hl). simpl. lia.
  - unfold view in *. rewrite fmap_app, Hv. simpl. unfold shows. simpl. by rewrite Hs.
Qed.

Lemma weaken_shows pr cs pr' :
  pr_segments pr ⊆ pr_segments pr' → present pr cs → Forall (sync_bounded pr) cs →
  Forall (sync_bounded pr') cs ∧ view pr' cs = view pr cs.
Proof using Type.
  intros Hsub Hp Hset. unfold present in Hp. rewrite Forall_forall in Hp.
  destruct (view_kept pr pr' cs) as [Hv Hset']; [|split; [by apply Hset'|done]].
  intros c Hc. destruct (Hp c Hc) as [s Hl]. rewrite Hl. by eapply lookup_weaken.
Qed.

(** ** A sync of the last segment *)

Lemma synced_shows pr pr' cs c sgm sgm' rc :
  NoDup (c_addr <$> cs ++ [c]) → pr_segments pr !! c_addr c = Some sgm →
  pr_segments pr' = <[c_addr c := sgm']> (pr_segments pr) → seg_inv sgm (c_items c) (c_eos c) →
  op_data (s_offset_pair sgm') = op_data (w_offset_pair sgm) ∨
    rc < 0 ∧ s_offset_pair sgm' = s_offset_pair sgm →
  Forall (sync_bounded pr) (cs ++ [c]) →
  Forall (sync_bounded pr') (cs ++ [c]) ∧ clog_sync (view pr (cs ++ [c])) rc (view pr' (cs ++ [c])).
Proof using Type.
  intros Hnd Hs Hs' I Hcase [Hset [Hc _]%Forall_cons]%Forall_app.
  destruct (last_segment_step pr cs c pr' sgm' Hnd Hs') as [Hv Hset']. specialize (Hset' Hset).
  assert (Hl : pr_segments pr' !! c_addr c = Some sgm') by (rewrite Hs'; apply lookup_insert_eq).
  unfold view in *. rewrite !fmap_app, Hv. simpl. destruct Hcase as [Hd|[Hrc Heq]].
  - rewrite (inv_w _ _ _ I) in Hd. cbn [op_data] in Hd. split.
    + apply Forall_app. split; [done|]. apply Forall_singleton. intros s. rewrite Hl. intros [= <-] He.
      rewrite Hd, He. by rewrite used_false.
    + replace (shows pr' c) with (mark_synced (shows pr c)); [constructor|].
      unfold shows, mark_synced. rewrite Hl, Hs, Hd. apply list_eq. intros i.
      rewrite list_lookup_fmap, !list_lookup_imap. destruct (c_items c !! i) as [p|] eqn:Hp; [|done].
      simpl. do 2 f_equal. symmetry. apply Z.ltb_lt. pose proof (frame_offset_bound _ _ _ Hp).
      unfold used. destruct (c_eos c); size_lia.
  - split; [apply Forall_app; split; [done|]; apply Forall_singleton; intros s; rewrite Hl; intros [= <-]; rewrite Heq; by apply Hc|].
    replace (shows pr' c) with (shows pr c) by (unfold shows; by rewrite Hl, Hs, Heq). by constructor.
Qed.

(** ** Segments whose synced offset is the write offset *)

Definition synced_to_end pr (cs : list chunk) : Prop :=
  Forall (λ c, ∀ sgm, pr_segments pr !! c_addr c = Some sgm → s_offset_pair sgm = w_offset_pair sgm) cs.

Lemma synced_to_end_weaken pr pr' cs :
  pr_segments pr ⊆ pr_segments pr' → present pr cs → synced_to_end pr cs → synced_to_end pr' cs.
Proof using Type.
  intros Hsub Hp Hs. unfold present, synced_to_end in *. rewrite Forall_forall in Hp, Hs |- *.
  intros c Hc sgm Hl. destruct (Hp c Hc) as [s Hs']. pose proof (lookup_weaken _ _ _ _ Hs' Hsub).
  simplify_eq. by apply (Hs c Hc).
Qed.

(** Such a segment shows all its payloads. *)
Lemma synced_to_end_shows pr c sgm :
  pr_segments pr !! c_addr c = Some sgm → s_offset_pair sgm = w_offset_pair sgm →
  seg_inv sgm (c_items c) (c_eos c) →
  sync_bounded pr c ∧ shows pr c = (λ p, (p, true)) <$> c_items c.
Proof using Type.
  intros Hs Heq I. assert (Hd : op_data (s_offset_pair sgm) = used (c_items c) (c_eos c)).
  { by rewrite Heq, (inv_w _ _ _ I). }
  split.
  - intros s Hs' He. simplify_eq. by rewrite Hd, He, used_false.
  - unfold shows. rewrite Hs, Hd. apply list_eq. intros i.
    rewrite list_lookup_fmap, list_lookup_imap. destruct (c_items c !! i) as [p|] eqn:Hp; [|done].
    simpl. do 2 f_equal. apply Z.ltb_lt. pose proof (frame_offset_bound _ _ _ Hp).
    unfold used. destruct (c_eos c); size_lia.
Qed.

(** ** The effect of a write *)

Definition write_effect (refusals : list Z) pr cs p rc pr' cs' : Prop :=
  Forall (sync_bounded pr) cs →
  Forall (sync_bounded pr') cs' ∧ clog_write refusals p (view pr cs) rc (view pr' cs').
End synced.
