(* ===== verification/MqlogOps.v ===== *)
(** * What the operations of a log do to its chunks *)

From S2P Require Import Prelude Errno Prot Posix Util Segment SegmentInv SegmentOps SegmentSpec SegmentFile SegmentFileSpec SegmentDurable SegmentFrame Index Pthread Mqlog MqlogInv MqlogSynced.

Section ops.
Context {W T It M : Type}.
Context `{!Posix W, !PosixLaws W, !Index T It, !IndexLaws T It, !Pthread M, !PthreadLaws M}.
Context {mode : Mode}.
Context (dir : string) (sz lo : Z).
Context (Hdir : dir_ok dir) (Hsz : 0 ≤ sz < 2 ^ 32) (Hmod : sz mod os_pagesize = 0).
Context (Hlo : 0 ≤ lo) (Hslots : index_mapped (W := W) sz lo).
Implicit Types (lg : mqlog T M) (pr : process W).
Abbreviation store_inv := (store_inv dir sz lo).
Abbreviation resident := (resident dir sz lo).
Abbreviation live := (live dir sz).
Abbreviation chunk_ok := (chunk_ok dir sz lo).
Abbreviation log_inv := (log_inv dir sz lo).

(** ** Chunks that a step leaves alone *)

Lemma live_base pr b c sgm : live pr b c sgm → 0 ≤ b < 2 ^ 64.
Proof using Type. intros [_ I _ _ <- _]. pose proof (inv_base _ _ _ I). lia. Qed.

Lemma chunk_ok_other pr pr' b b' c :
  chunk_ok pr b' c → b ≠ b' → 0 ≤ b < 2 ^ 64 → elsewhere dir b (pr_os pr) (pr_os pr') →
  keeps_maps dir b (pr_os pr) (pr_os pr') →
  pr_segments pr' !! c_addr c = pr_segments pr !! c_addr c → chunk_ok pr' b' c.
Proof using Type.
  intros [[sgm Hl] Hp] Hne Hb He Hm Hs. pose proof (live_base _ _ _ _ Hl). split; [|done].
  exists sgm. destruct Hl. split; try done; [congruence|]. by eapply attached_elsewhere.
Qed.

(** The last chunk changes, the others stay. *)
Lemma store_update pr w' sgm' cs c c' (b := zlen (items cs))
    (pr' := Process w' (<[c_addr c := sgm']> (pr_segments pr))) :
  store_inv pr (cs ++ [c]) → nonempty_chunks cs → c_addr c' = c_addr c →
  chunk_ok pr' b c' → c_items c' ≠ [] → zlen (c_items c) ≤ zlen (c_items c') →
  elsewhere dir b (pr_os pr) w' → held w' = held (pr_os pr) → store_inv pr' (cs ++ [c']).
Proof using Type.
  intros [[Hcs Hnd Honly Hbl H0] Hfresh] Hne Haddr Hc' Hne' Hlen He Hh. unfold held in Hh.
  injection Hh as Hfds Hmaps Hblocks.
  apply chunks_ok_app in Hcs as [Hcs [[[sgm Hl] _] _]]. rewrite Z.add_0_l in Hl.
  pose proof (live_base _ _ _ _ Hl) as Hb. fold b in Hl, Hb.
  rewrite fmap_app in Hnd. apply NoDup_app in Hnd as (Hnd & Hdisj & _). split; [split|]; simpl.
  - apply chunks_ok_app. split; [|by rewrite Z.add_0_l].
    eapply chunks_ok_impl; [|exact Hcs]. intros c0 cs1 cs2 Heq Hc0. rewrite Z.add_0_l in *.
    apply (chunk_ok_other _ _ b _ _ Hc0); [|done|done|intros k q; simpl; congruence|].
    + unfold b. rewrite Heq in *. apply items_nonempty in Hne. lia.
    + simpl. apply lookup_insert_ne. intros Heqa. apply (Hdisj (c_addr c0)).
      * rewrite Heq, fmap_app. apply elem_of_app. right. left.
      * rewrite <- Heqa. left.
  - rewrite fmap_app. simpl. rewrite Haddr. apply NoDup_app. split; [done|].
    split; [done|apply NoDup_singleton].
  - intros a Ha. rewrite fmap_app. simpl. rewrite Haddr.
    destruct (decide (c_addr c = a)) as [->|Hneq]; [apply elem_of_app; right; left|].
    rewrite lookup_insert_ne in Ha by done. apply Honly in Ha. by rewrite fmap_app in Ha.
  - rewrite dom_insert, Hblocks. apply union_least; [|done].
    apply singleton_subseteq_l, Hbl, elem_of_dom. eexists. apply Hl.
  - by rewrite Hfds.
  - intros off Hoff. rewrite items_app, items_single, length_app in Hoff.
    assert (0 < zlen (c_items c')) by (destruct (c_items c'); [done|simpl; lia]).
    eapply stored_elsewhere; [exact He|lia|done|unfold max_offset in Hoff; lia|].
    apply Hfresh. rewrite items_app, items_single, length_app. lia.
Qed.

(** ** Writing to the last segment *)

Lemma write_last pr cs c p :
  store_inv pr (cs ++ [c]) → nonempty_chunks cs → payload_ok sz lo p →
  ∃ rc pr' c', write_segment (c_addr c) p pr = Ok (rc, pr') ∧ pr_os pr' = pr_os pr ∧
    last_change pr c pr' c' ∧ (c_items c' ≠ [] → store_inv pr' (cs ++ [c'])) ∧
    (rc = zlen p ∧ c_items c' = c_items c ++ [p] ∨
     rc = ELEOS ∧ c_items c' = c_items c ∧ (c_items c = [] → c_eos c = true)).
Proof using Hlo Hslots Hsz.
  intros Hst Hne Hp. pose proof (rs_chunks _ _ _ _ _ (si_resident _ _ _ _ _ Hst)) as Hcs.
  apply chunks_ok_at in Hcs as [[sgm [Hs I Hat Hsize Hbase Hfl Hfds]] Hps].
  rewrite Z.add_0_l in Hat, Hbase.
  assert (Hw : ∃ rc sgm' c', segment_write sgm p = Ok (rc, sgm') ∧ same_segment sgm sgm' ∧
    seg_inv sgm' (c_items c') (c_eos c') ∧ c_addr c' = c_addr c ∧
    (c_eos c = true → c_eos c' = true ∧ c_items c' = c_items c) ∧
    (rc = zlen p ∧ c_items c' = c_items c ++ [p] ∨
     rc = ELEOS ∧ c_items c' = c_items c ∧ (c_items c = [] → c_eos c = true))).
  { assert (Hix : c_eos c = false → fits sgm (c_items c) p → index_fits sgm (c_items c)).
    { intros _ Hf. unfold fits in Hf. rewrite used_false, Hsize in Hf.
      unfold index_fits. rewrite (at_index_mem _ _ _ _ Hat), Hsize.
      apply (mapped_enough sz lo _ p); try done. lia. }
    pose proof (write_simulates sgm _ _ p I (payloads_forged _ _ _ Hps) Hix) as H.
    pose proof (po_max _ _ _ Hp). pose proof (po_forges _ _ _ Hp).
    unfold queue_write, q_free in H. cbn [q_items q_closed] in H.
    destruct (c_eos c) eqn:He.
    - destruct H as (sgm' & Hrun & I' & _ & Hsame); [size_lia|done|].
      exists ELEOS, sgm', (Chunk (c_addr c) (c_items c) true). split_and!; try done. by right.
    - destruct (Z.ltb_spec (size sgm - zlen (frames (c_items c))) (2 * header_size + zlen p)) as [Hfull|].
      + destruct H as (sgm' & Hrun & I' & _ & Hsame); [size_lia|done|].
        exists ELEOS, sgm', (Chunk (c_addr c) (c_items c) true). split_and!; try done.
        right. split_and!; try done. intros Hnil. rewrite Hnil, Hsize in Hfull. simpl in Hfull. size_lia.
      + destruct H as (sgm' & Hrun & I' & _ & Hsame); [size_lia|done|].
        exists (zlen p), sgm', (Chunk (c_addr c) (c_items c ++ [p]) false). split_and!; try done. by left. }
  destruct Hw as (rc & sgm' & c' & Hrun & Hsame & I' & Haddr & Heos & Hcase).
  exists rc, (Process (pr_os pr) (<[c_addr c := sgm']> (pr_segments pr))), c'.
  unfold write_segment, deref_segment. rewrite Hs. simpl of_option. rewrite bind_Ok. run Hrun.
  split_and!; try done.
  { split; [done| |done]. exists sgm, sgm'. split_and!; try done. by eapply segment_write_synced. }
  intros Hne'. apply store_update; try done.
  - split.
    + exists sgm'. destruct Hsame. split; try congruence; [|by eapply attached_write].
      simpl. rewrite Haddr. apply lookup_insert_eq.
    + destruct Hcase as [[_ ->]|(_ & -> & _)]; [|done]. apply Forall_app; split; [done|by apply Forall_singleton].
  - destruct Hcase as [[_ ->]|(_ & -> & _)]; [rewrite length_app; lia|done].
Qed.

(** ** A new segment *)

(** The codes of a system that refuses a call. *)
Definition os_errors : list Z := [ELALLC; ELFLEOP; ELMMAP; ELMADV].

Lemma fresh_touched w w' off n :
  touched dir off sz w w' → 0 ≤ off < max_offset → 0 ≤ n → fresh_from dir sz w n →
  fresh_from dir sz w' n.
Proof using Type.
  unfold fresh_from, max_offset. intros Ht Hoff Hn Hf off' Hoff'.
  eapply stored_touched; [exact Ht|lia|lia|]. apply Hf. lia.
Qed.

Lemma resident_elsewhere pr w' off cs :
  resident pr cs → elsewhere dir off (pr_os pr) w' → zlen (items cs) ≤ off < max_offset →
  nonempty_chunks cs → keeps_maps dir off (pr_os pr) w' →
  v_blocks (ps_view (pr_os pr)) ⊆ v_blocks (ps_view w') → is_Some (v_fds (ps_view w') !! 0) →
  resident (Process w' (pr_segments pr)) cs.
Proof using Type.
  intros [Hcs Hnd Honly Hbl H0] Ht Hoff Hne Hm Hb Hfd. unfold max_offset in *. split; simpl; try done.
  - eapply chunks_ok_impl; [|exact Hcs]. intros c cs1 cs2 -> Hc. rewrite Z.add_0_l in *.
    apply items_nonempty in Hne.
    apply (chunk_ok_other _ _ off _ _ Hc); simpl; [lia|lia|done..].
  - by transitivity (v_blocks (ps_view (pr_os pr))).
Qed.

(** One more segment structure, at a new address. *)
Lemma resident_snoc w segs a sgm ps cs :
  resident (Process w segs) cs → segs !! a = None → a ∈ v_blocks (ps_view w) →
  live (Process w (<[a := sgm]> segs)) (zlen (items cs)) (Chunk a ps false) sgm →
  Forall (payload_ok sz lo) ps →
  resident (Process w (<[a := sgm]> segs)) (cs ++ [Chunk a ps false]).
Proof using Type.
  intros [Hcs Hnd Honly Hbl H0] Ha Hab Hl Hps. simpl in *.
  assert (Hnot : ∀ c, c ∈ cs → c_addr c ≠ a).
  { intros c (cs1 & cs2 & Heq)%list_elem_of_split Hca. rewrite Heq in Hcs.
    apply chunks_ok_at in Hcs as [[sgm' Hl'] _]. pose proof (lv_sgm _ _ _ _ _ _ Hl') as Hs. simpl in Hs.
    congruence. }
  split; simpl.
  - apply chunks_ok_app. split.
    + eapply chunks_ok_impl; [|exact Hcs]. intros c cs1 cs2 Heq [[sgm' []] Hp]. split; [|done].
      exists sgm'. split; try done. simpl. rewrite lookup_insert_ne; [done|].
      apply not_eq_sym, Hnot. rewrite Heq. apply elem_of_app. right. left.
    + simpl. split; [|done]. split; [|done]. rewrite Z.add_0_l. by exists sgm.
  - rewrite fmap_app. apply NoDup_app. split; [done|]. split; [|apply NoDup_singleton].
    intros x (c & -> & Hc)%list_elem_of_fmap Hx. apply list_elem_of_singleton in Hx.
    by apply (Hnot c).
  - intros x Hx. rewrite fmap_app. apply elem_of_app.
    destruct (decide (x = a)) as [->|Hne]; [right; left|left].
    rewrite lookup_insert_ne in Hx by done. by apply Honly.
  - rewrite dom_insert. apply union_least; [|done]. by apply singleton_subseteq_l.
  - done.
Qed.

(** Opening the files of the next segment. *)
Lemma open_segment_ok fl pr cs ps (N := zlen (items cs)) :
  resident pr cs → nonempty_chunks cs → N < max_offset → stored (pr_os pr) dir N sz ps →
  Forall (payload_ok sz lo) ps → in_mode fl →
  ∃ rc a pr', open_segment dir N sz fl pr = Ok (rc, a, pr') ∧
    touched dir N sz (pr_os pr) (pr_os pr') ∧ v_dirs (ps_view (pr_os pr')) = v_dirs (ps_view (pr_os pr)) ∧
    pr_segments pr ⊆ pr_segments pr' ∧
    (∀ sgm, rc = 0 → pr_segments pr' !! a = Some sgm → s_offset_pair sgm = w_offset_pair sgm) ∧
    (rc = 0 ∧ resident pr' (cs ++ [Chunk a ps false]) ∨ rc ∈ os_errors ∧ resident pr' cs).
Proof using Hdir Hmod Hsz.
  clear Hlo Hslots. intros Hst Hne HN Hdisk Hps Hfl. unfold open_segment. rewrite u32_small by lia.
  pose proof (rs_stdin _ _ _ _ _ Hst) as H0.
  destruct (segment_open_stored dir N sz fl (pr_os pr) ps Hdir Hdisk Hsz Hmod) as (rc & o & w' & Ho & Hres);
    [unfold max_offset in HN; lia|].
  run Ho. pose proof (segment_open_touched _ _ _ _ _ _ _ _ Hdir Hsz Ho) as Ht.
  apply segment_open_held in Ho; [|done|done].
  destruct o as [[a sgm]|].
  2:{ destruct Ho as [_ Hh]. unfold held in Hh. injection Hh as Hf Hm Hb Hd.
      exists rc, 0, (Process w' (pr_segments pr)). split; [done|]. split; [done|]. split; [done|]. split; [done|].
      split; [intros ? ->; set_solver|]. right. split; [done|].
      apply (resident_elsewhere _ _ N); rewrite ?Hf, ?Hb; try done; [apply Ht|]. intros k q Hk _ _. by rewrite Hm. }
  destruct Hres as (-> & I & Hat & Hsize & Hbase & Hflags & Hsync).
  destruct Ho as (_ & pi & pd & _ & _ & Hacq). destruct (acquires_stdin _ _ _ _ _ _ Hacq H0) as (Hif0 & Hdf0 & H0').
  destruct Hacq as [Hh Hif Hdf Him Hdm Ha]. unfold held in Hh. injection Hh as Hf Hm Hb Hd.
  assert (Hnew : pr_segments pr !! a = None).
  { apply not_elem_of_dom. intros Hin. by apply Ha, (rs_blocks _ _ _ _ _ Hst). }
  exists 0, a, (Process w' (<[a := sgm]> (pr_segments pr))). split; [done|]. split; [done|]. split; [done|].
  split; [by apply insert_subseteq|].
  split; [simpl; intros s _; rewrite lookup_insert_eq; by intros [= <-]|]. left.
  split; [done|]. apply resident_snoc; try done.
  - apply (resident_elsewhere _ _ N); try done.
    + apply Ht.
    + intros k p Hk _ _. rewrite Hm. rewrite !lookup_insert_ne; [done| |]; intros <-; [congruence|].
      destruct (decide (r_base (index sgm) = r_base (buffer sgm))) as [Heq|Hne'].
      * by rewrite Heq, lookup_insert_eq in Hdm.
      * rewrite lookup_insert_ne in Hdm by done. congruence.
    + rewrite Hb. apply union_subseteq_r.
  - rewrite Hb. set_solver.
  - split; simpl; try done; [apply lookup_insert_eq|by rewrite Hflags].
Qed.

Lemma create_ok lg pr cs (N := zlen (items cs)) :
  store_inv pr cs → nonempty_chunks cs → N < max_offset → lg_dir lg = dir → lg_size lg = sz →
  in_mode (lg_flags lg) →
  ∃ rc a pr', create_segment N lg pr = Ok (rc, a, pr') ∧ pr_segments pr ⊆ pr_segments pr' ∧
    (∀ sgm, rc = 0 → pr_segments pr' !! a = Some sgm → op_data (s_offset_pair sgm) = 0) ∧
    (rc = 0 ∧ store_inv pr' (cs ++ [Chunk a [] false]) ∨ rc ∈ os_errors ∧ store_inv pr' cs).
Proof using Hdir Hmod Hsz.
  clear Hlo Hslots. intros [Hst Hfresh] Hne HN Hlgdir Hlgsz Hfl. unfold create_segment.
  rewrite Hlgdir, Hlgsz. set (fl := if _ : bool then SGM_RDCMT else SGM_RDDRT).
  assert (Hfl' : in_mode fl) by (unfold in_mode in *; subst fl; by destruct (_ =? MQLOG_RDCMT)).
  destruct (open_segment_ok fl pr cs [] Hst Hne HN) as (rc & a & pr' & Hrun & Ht & _ & Hsub & Hsync & Hres);
    [by apply Hfresh|done|done|].
  exists rc, a, pr'. split; [done|]. split; [done|]. split.
  { intros sgm Hrc Hs. rewrite (Hsync _ Hrc Hs). destruct Hres as [[_ Hr]|[Hrc' _]]; [|subst rc; set_solver].
    destruct (chunks_ok_at _ _ _ _ _ (rs_chunks _ _ _ _ _ Hr)) as [[sgm' Hl] _].
    pose proof (lv_sgm _ _ _ _ _ _ Hl) as Hs'. simpl in Hs'. simplify_eq. by rewrite (inv_w _ _ _ (lv_inv _ _ _ _ _ _ Hl)). }
  assert (Hf' : fresh_from dir sz (pr_os pr') N) by (eapply fresh_touched; [exact Ht|lia|lia|done]).
  destruct Hres as [[-> Hr]|[Hrc Hr]]; [left|right]; (split; [done|]); split; try done.
  by rewrite items_app, app_nil_r.
Qed.

(** ** [mqlog_trywrite] *)

(** The offset of the next segment. *)
Lemma last_offset pr cs c :
  resident pr (cs ++ [c]) → zlen (items (cs ++ [c])) < max_offset →
  ∃ sgm, pr_segments pr !! c_addr c = Some sgm ∧ segment_write_offset sgm = zlen (items (cs ++ [c])).
Proof using Type.
  intros Hres HN. pose proof (chunks_ok_at _ _ _ _ _ (rs_chunks _ _ _ _ _ Hres)) as [[sgm Hl] _].
  exists sgm. split; [apply Hl|]. pose proof (lv_inv _ _ _ _ _ _ Hl) as I. unfold segment_write_offset.
  rewrite (lv_base _ _ _ _ _ _ Hl), (inv_w _ _ _ I). cbn [op_index].
  rewrite items_app, items_single, length_app in *. unfold max_offset in HN. rewrite u64_small; lia.
Qed.

(** The log with [cs] in its index, apart from its lock. *)
Record indexed lg (cs : list chunk) : Prop := {
  ix_index : ∃ t, lg_index lg = Some t ∧ ix_stores t (keys 0 cs);
  ix_dir : lg_dir lg = dir;
  ix_size : lg_size lg = sz;
  ix_flags : in_mode (lg_flags lg)
}.

Lemma keys_snoc cs c : keys 0 (cs ++ [c]) = keys 0 cs ++ [(zlen (items cs), c_addr c)].
Proof using Type. rewrite keys_app. simpl. by rewrite Z.add_0_l. Qed.

(** Iterators stay on their entries. *)
Definition index_kept lg lg' : Prop :=
  ∀ t it kv, lg_index lg = Some t → ix_on t it kv → ∃ t', lg_index lg' = Some t' ∧ ix_on t' it kv.

Lemma index_segment_ok lg pr cs c n :
  indexed lg cs → store_inv pr (cs ++ [c]) → nonempty_chunks cs →
  ∃ lg', index_segment (c_addr c) n lg pr = Ok (n, lg', pr) ∧ indexed lg' (cs ++ [c]) ∧
    lg_lock lg' = lg_lock lg ∧ index_kept lg lg'.
Proof using All.
  intros [(t & Ht & Hst) ? ? ?] [[Hcs _ _ _ _] _] Hne.
  apply chunks_ok_at in Hcs as [[sgm [Hs _ _ _ Hbase _ _]] _]. rewrite Z.add_0_l in Hbase.
  unfold index_segment, deref_segment. rewrite Hs. simpl of_option. rewrite bind_Ok.
  unfold the_index, segment_base_offset. rewrite Ht. simpl of_option. rewrite bind_Ok, Hbase.
  destruct (law_append t _ (zlen (items cs)) (c_addr c) Hst) as (t' & Ha & Hst').
  { by apply (keys_below cs 0). }
  run Ha. cbn [Z.eqb negb]. change (0 =? ELIDXPC) with false. cbn iota.
  eexists. split; [done|]. split; [|split; [done|]].
  - split; [|done..]. exists t'. split; [done|]. by rewrite keys_snoc.
  - intros t1 it kv Ht1 Hon. rewrite Ht in Ht1. injection Ht1 as <-. exists t'. split; [done|].
    by apply (law_on_append t _ it kv _ _ _ t' Hst Hon Ha).
Qed.

Lemma resident_present pr cs : resident pr cs → present pr cs.
Proof using Type.
  intros [Hcs _ _ _ _]. apply Forall_forall. intros c (cs1 & cs2 & ->)%list_elem_of_split.
  apply chunks_ok_at in Hcs as [[sgm Hl] _]. exists sgm. apply Hl.
Qed.

(** A new segment takes any payload that fits an empty one. *)
Lemma roll_ok lg pr cs p (N := zlen (items cs)) :
  store_inv pr cs → nonempty_chunks cs → indexed lg cs → N < max_offset → payload_ok sz lo p →
  ∃ rc lg' pr' cs',
    ('(rc, sgm, pr) ← create_segment N lg pr;
     if negb (rc =? 0) then Ok (rc, lg, pr)
     else
       '(written, pr) ← write_segment sgm p pr;
       if written =? ELEOS then '(_, pr) ← close_segment sgm pr; Ok (ELNOWCP, lg, pr)
       else index_segment sgm written lg pr) = Ok (rc, lg', pr') ∧
    store_inv pr' cs' ∧ nonempty_chunks cs' ∧ indexed lg' cs' ∧ lg_lock lg' = lg_lock lg ∧
    (rc = zlen p ∧ items cs' = items cs ++ [p] ∨ rc ∈ os_errors ∧ items cs' = items cs) ∧
    write_effect os_errors pr cs p rc pr' cs'.
Proof using All.
  intros Hst Hne Hix HN Hp. subst N. pose proof Hix as [_ Hd Hs Hf].
  destruct (create_ok lg pr cs Hst Hne HN Hd Hs Hf) as (rc & a & pr1 & Hrun & Hsub & Hnew & [[-> Hst1]|[Hrc Hst1]]); run Hrun.
  2:{ exists rc, lg, pr1, cs. rewrite (proj2 (Z.eqb_neq rc 0)) by (intros ->; set_solver).
      split; [done|]. split_and!; try done; [by right|]. intros Hset.
    destruct (weaken_shows _ _ _ Hsub (resident_present _ _ (si_resident _ _ _ _ _ Hst)) Hset) as [? ->].
    split; [done|]. by constructor. }
  cbn [Z.eqb negb]. destruct (write_last pr1 cs _ p Hst1 Hne Hp) as (rc & pr2 & c & Hw & _ & Hls & Hst2 & Hcase).
  pose proof (la_addr _ _ _ _ Hls) as Haddr. simpl in Hw, Haddr. run Hw. destruct Hcase as [[-> Hitems]|(_ & _ & Hbad)]; [|by specialize (Hbad eq_refl)].
  rewrite (proj2 (Z.eqb_neq _ _)) by (unfold ELEOS; lia). simpl in Hitems.
  assert (Hst3 : store_inv pr2 (cs ++ [c])) by (apply Hst2; by rewrite Hitems).
  destruct (index_segment_ok lg pr2 cs c (zlen p) Hix Hst3 Hne) as (lg' & Hi & Hix' & Hlock & _).
  rewrite <- Haddr. rewrite Hi. exists (zlen p), lg', pr2, (cs ++ [c]). split_and!; try done.
  - apply Forall_app. split; [done|]. apply Forall_singleton. by rewrite Hitems.
  - left. split; [done|]. by rewrite items_app, items_single, Hitems.
  - intros Hset. pose proof (resident_present _ _ (si_resident _ _ _ _ _ Hst)) as Hpres.
    pose proof (si_resident _ _ _ _ _ Hst1) as Hres1.
    pose proof (resident_present _ _ Hres1) as [_ [Ha _]%Forall_cons]%Forall_app.
    destruct (new_shows _ _ _ a Hsub Hpres Hset (λ s, Hnew s eq_refl) Ha) as [Hset1 Hv1].
    destruct (last_shows _ _ _ _ _ Hls (rs_addrs _ _ _ _ _ Hres1) Hset1) as [_ Hap].
    destruct (Hap p Hitems) as [Hset2 ->]. split; [done|].
    unfold view in Hv1 |- *. rewrite fmap_app in Hv1. apply app_inj_tail in Hv1 as [-> ->]. constructor.
Qed.

Lemma trywrite_ok lg pr cs p :
  store_inv pr cs → nonempty_chunks cs → indexed lg cs → zlen (items cs) < max_offset →
  payload_ok sz lo p →
  ∃ rc lg' pr' cs', mqlog_trywrite lg p pr = Ok (rc, lg', pr') ∧
    store_inv pr' cs' ∧ nonempty_chunks cs' ∧ indexed lg' cs' ∧ lg_lock lg' = lg_lock lg ∧
    (rc = zlen p ∧ items cs' = items cs ++ [p] ∨ rc ∈ os_errors ∧ items cs' = items cs) ∧
    write_effect os_errors pr cs p rc pr' cs'.
Proof using All.
  intros Hst Hne Hix HN Hp. pose proof Hix as [(t & Ht & Hts) Hd Hs Hf].
  unfold mqlog_trywrite, the_index. rewrite Ht. simpl of_option. rewrite bind_Ok.
  run (law_last _ _ Hts).
  destruct cs as [|c cs _] using rev_ind; [by apply (roll_ok lg pr [])|].
  rewrite keys_snoc, last_snoc. cbn [snd].
  apply Forall_app in Hne as [Hne Hnec]. rewrite Forall_singleton in Hnec.
  destruct (write_last pr cs c p Hst Hne Hp) as (rc & pr1 & c' & Hw & _ & Hls & Hst1 & Hcase).
  pose proof (la_addr _ _ _ _ Hls) as Haddr. run Hw.
  assert (Hnec' : c_items c' ≠ []).
  { destruct Hcase as [[_ ->]|(_ & -> & _)]; [|done]. by destruct (c_items c). }
  specialize (Hst1 Hnec').
  assert (Hne' : nonempty_chunks (cs ++ [c'])) by (apply Forall_app; by rewrite Forall_singleton).
  assert (Hix' : indexed lg (cs ++ [c'])).
  { split; try done. exists t. split; [done|]. by rewrite keys_snoc, Haddr, <- keys_snoc. }
  destruct Hcase as [[-> Hitems]|(-> & Hitems & _)].
  - rewrite (proj2 (Z.eqb_neq _ _)) by (unfold ELEOS; lia).
    exists (zlen p), lg, pr1, (cs ++ [c']). split_and!; try done.
    + left. split; [done|]. by rewrite !items_app, !items_single, Hitems, app_assoc.
    + intros Hset. destruct (last_shows _ _ _ _ _ Hls (rs_addrs _ _ _ _ _ (si_resident _ _ _ _ _ Hst)) Hset) as [_ Hap].
      destruct (Hap p Hitems) as [Hset' ->]. split; [done|]. unfold view. rewrite fmap_app. constructor.
  - cbn [Z.eqb]. rewrite (proj2 (Z.eqb_eq ELEOS ELEOS)) by done.
    assert (Heq : items (cs ++ [c']) = items (cs ++ [c])).
    { by rewrite !items_app, !items_single, Hitems. }
    rewrite <- Heq in HN |- *.
    destruct (last_offset pr1 cs c') as (sgm & Hsgm & Hoff); [apply Hst1|done|].
    unfold deref_segment. rewrite <- Haddr, Hsgm. simpl of_option. rewrite bind_Ok.
    rewrite Hoff. destruct (roll_ok lg pr1 (cs ++ [c']) p Hst1 Hne' Hix' HN Hp)
      as (rc & lg' & pr' & cs' & Hrun & Hst2 & Hne2 & Hix2 & Hm2 & Hcase2 & Heff).
    exists rc, lg', pr', cs'. split_and!; try done. intros Hset.
    destruct (last_shows _ _ _ _ _ Hls (rs_addrs _ _ _ _ _ (si_resident _ _ _ _ _ Hst)) Hset) as [Hsame _].
    destruct (Hsame Hitems) as [Hset1 <-]. by apply Heff.
Qed.

(** ** The operations of mqlog.h *)

Lemma log_indexed lg pr cs m : log_inv lg pr cs → indexed (set_lg_lock m lg) cs.
Proof using Type. by intros []. Qed.

(** A frame that points to [p] in one of the segments. *)
Definition points_to pr (fr : frame) (p : bytes) : Prop :=
  ∃ a sgm, pr_segments pr !! a = Some sgm ∧ frame_payload (buffer sgm) fr = Ok p.

Lemma write_ok lg pr cs p :
  log_inv lg pr cs → zlen (items cs) < max_offset → payload_ok sz lo p →
  ∃ rc lg' pr' cs', mqlog_write lg p pr = Ok (rc, lg', pr') ∧ log_inv lg' pr' cs' ∧
    (rc = zlen p ∧ items cs' = items cs ++ [p] ∨ rc ∈ os_errors ∧ items cs' = items cs) ∧
    write_effect os_errors pr cs p rc pr' cs'.
Proof using All.
  intros I HN Hp. unfold mqlog_write. pose proof (po_nonempty _ _ _ Hp).
  rewrite (proj2 (Z.eqb_neq _ _)) by lia.
  destruct (law_trylock_free _ (li_lock _ _ _ _ _ _ I)) as (e & m & Hlock & Hheld).
  rewrite Hlock. change (0 =? EBUSY) with false. cbn [Z.eqb negb].
  destruct (trywrite_ok (set_lg_lock m lg) pr cs p) as
    (rc & lg' & pr' & cs' & Hrun & Hst' & Hne' & [Hi ? ? ?] & Hm & Hcase);
    [apply I|apply I|by eapply log_indexed|done|done|].
  run Hrun. rewrite Hm. simpl lg_lock.
  destruct (law_unlock _ Hheld) as (m' & Hun & Hfree). rewrite Hun. cbn [Z.eqb negb].
  eexists _, _, _, cs'. split; [done|]. split; [|done]. by split.
Qed.

(** A read finds the chunk the offset is in; it gives the frame when it is
    below what the segment shows. *)
Lemma read_at lg pr cs o fr :
  log_inv lg pr cs → 0 ≤ o < 2 ^ 64 →
  ∃ rc fr' lg', mqlog_read lg o fr pr = Ok (rc, fr', lg') ∧ log_inv lg' pr cs ∧
    match items cs !! Z.to_nat o with
    | Some p => ∃ b c i sgm, chunk_at cs b c ∧ o = b + Z.of_nat i ∧ c_items c !! i = Some p ∧
        pr_segments pr !! c_addr c = Some sgm ∧
        (if frame_offset (c_items c) i <? read_boundary sgm
         then rc = zlen p ∧ points_to pr fr' p else rc = ELNORD ∧ fr' = fr)
    | None => rc = ELNORD ∧ fr' = fr
    end.
Proof using All.
  intros I Ho. destruct I as [Hst Hne (t & Ht & Hts) Hfree Hd Hs Hf].
  unfold mqlog_read, mqlog_tryread.
  destruct (law_trylock_free _ Hfree) as (e & m & Hlock & Hheld).
  rewrite Hlock. change (0 =? EBUSY) with false. cbn [Z.eqb negb].
  unfold the_index. simpl lg_index. rewrite Ht. simpl of_option. rewrite bind_Ok.
  destruct (law_floor t _ o Hts) as (it & rest & Hfl & Hat & Hrest). run Hfl.
  run (law_valid _ _ _ Hat). simpl lg_lock.
  destruct (law_unlock _ Hheld) as (m' & Hun & Hfree'). rewrite Hun. cbn [Z.eqb negb].
  set (lg' := set_lg_lock m' _).
  assert (I' : log_inv lg' pr cs) by (split; try done; by exists t).
  apply floor_chunk in Hrest; [|lia]. destruct rest as [|kv rest].
  { subst cs. exists ELNORD, fr, lg'. change (items []) with (@nil bytes). by rewrite lookup_nil. }
  destruct Hrest as (cs1 & c & cs2 & b & Hcs & Hb & -> & Hle & Hin).
  rewrite bool_decide_eq_false_2 by done. cbn [negb]. run (law_value _ _ _ _ Hat). cbn [snd].
  pose proof (rs_chunks _ _ _ _ _ (si_resident _ _ _ _ _ Hst)) as Hch. rewrite Hcs in Hch.
  apply chunks_ok_at in Hch as [[sgm [Hsg Hinv _ _ Hbase _ _]] _]. rewrite Z.add_0_l in Hbase.
  unfold deref_segment. rewrite Hsg. simpl of_option. rewrite bind_Ok.
  unfold segment_base_offset. rewrite Hbase, <- Hb, u64_small by lia.
  rewrite Hcs in I' |- *. replace (Z.to_nat o) with (Z.to_nat (zlen (items cs1) + (o - b))) by lia.
  rewrite <- (chunk_lookup cs1 c cs2 (o - b)) by lia || (destruct Hin; [left; lia|by right]).
  destruct (c_items c !! Z.to_nat (o - b)) as [p|] eqn:Hp.
  - replace (o - b) with (Z.of_nat (Z.to_nat (o - b))) by lia.
    run (segment_read_frame _ _ _ Hinv _ _ fr Hp). rewrite Z.geb_leb.
    destruct (read_boundary sgm <=? _) eqn:Hg; rewrite bind_Ok.
    all: eexists _, _, lg'; split; [done|]; split; [done|];
      exists b, c, (Z.to_nat (o - b)), sgm; rewrite Z.ltb_antisym, Hg;
      (split; [by exists cs1, cs2|]); (split; [lia|]); split_and!; try done.
    split; [done|]. exists (c_addr c), sgm. split; [done|]. by apply (frame_payload_at _ _ _ Hinv).
  - apply lookup_ge_None in Hp. run (segment_read_past _ _ _ Hinv) by lia.
    by exists ELNORD, fr, lg'.
Qed.

(** A frame is below the words of its segment. *)
Lemma written_below sgm ps eos i p :
  seg_inv sgm ps eos → ps !! i = Some p → frame_offset ps i < op_data (w_offset_pair sgm).
Proof using Type.
  intros Hinv Hp. rewrite (inv_w _ _ _ Hinv). cbn [op_data]. pose proof (frame_offset_bound _ _ _ Hp).
  unfold used in *. destruct eos; size_lia.
Qed.

(** A log opened to read what was written gives every payload. *)
Lemma read_ok lg pr cs o fr :
  committed = false → log_inv lg pr cs → 0 ≤ o < 2 ^ 64 →
  ∃ rc fr' lg', mqlog_read lg o fr pr = Ok (rc, fr', lg') ∧ log_inv lg' pr cs ∧
    match items cs !! Z.to_nat o with
    | Some p => rc = zlen p ∧ points_to pr fr' p
    | None => rc = ELNORD ∧ fr' = fr
    end.
Proof using All.
  intros Hm I Ho. destruct (read_at lg pr cs o fr I Ho) as (rc & fr' & lg' & Hrun & I' & Hc).
  exists rc, fr', lg'. split; [done|]. split; [done|].
  destruct (items cs !! Z.to_nat o) as [p|]; [|done]. destruct Hc as (b & c & i & sgm & Hat & _ & Hp & Hsg & Hc).
  destruct Hat as (cs1 & cs2 & -> & ->).
  pose proof (rs_chunks _ _ _ _ _ (si_resident _ _ _ _ _ (li_store _ _ _ _ _ _ I))) as Hch.
  apply chunks_ok_at in Hch as [[sgm' [Hsg' Hinv _ _ _ Hfl _]] _]. simplify_eq.
  unfold read_boundary in Hc. unfold in_mode in Hfl. rewrite Hm in Hfl.
  change MQLOG_RDCMT with SGM_RDCMT in Hfl. rewrite Hfl in Hc.
  by rewrite (proj2 (Z.ltb_lt _ _)) in Hc by by eapply written_below.
Qed.

Lemma sync_ok lg pr cs :
  log_inv lg pr cs → ∃ rc pr', mqlog_sync lg pr = Ok (rc, pr') ∧ log_inv lg pr' cs ∧
    (Forall (sync_bounded pr) cs → Forall (sync_bounded pr') cs ∧ clog_sync (view pr cs) rc (view pr' cs)).
Proof using All.
  intros [Hst Hne (t & Ht & Hts) Hfree Hd Hs Hf].
  unfold mqlog_sync, the_index. rewrite Ht. simpl of_option. rewrite bind_Ok.
  run (law_last _ _ Hts). destruct cs as [|c cs _] using rev_ind.
  { exists 0, pr. split; [done|]. split; [split; try done; by exists t|]. split; [done|constructor]. }
  rewrite keys_snoc, last_snoc. cbn [snd].
  apply Forall_app in Hne as [Hne Hnec]. rewrite Forall_singleton in Hnec.
  pose proof (rs_chunks _ _ _ _ _ (si_resident _ _ _ _ _ Hst)) as Hch.
  apply chunks_ok_at in Hch as [[sgm [Hsg Hinv Hat Hsize Hbase Hfl Hfds]] Hps]. rewrite Z.add_0_l in Hat, Hbase.
  unfold sync_segment, deref_segment. rewrite Hsg. simpl of_option. rewrite bind_Ok.
  destruct (segment_sync sgm (pr_os pr)) as [[rc sgm'] w'] eqn:Es.
  destruct (segment_sync_view _ _ _ _ _ _ _ Hat Es) as (HL & Hb & Hi & Hsz' & _).
  destruct (sync_inv _ _ _ _ _ _ _ Es Hinv) as [Hinv' Hsame].
  pose proof (attached_same _ _ _ _ _ _ Hat HL Hb Hi Hsz') as Hat'.
  pose proof (segment_sync_elsewhere _ _ _ _ _ _ _ Hat Es) as He.
  eexists _, _. split; [done|].
  assert (Hst' : store_inv (Process w' (<[c_addr c := sgm']> (pr_segments pr))) (cs ++ [c])).
  { apply (store_update _ _ _ _ c); try done; [|by destruct HL].
    split; [|done]. exists sgm'. destruct Hsame. split; simpl; try done; try congruence. apply lookup_insert_eq. }
  split; [split; try done; [apply Forall_app; by rewrite Forall_singleton|by exists t]|].
  apply (synced_shows _ _ _ _ sgm sgm'); try done.
  - apply (si_resident _ _ _ _ _ Hst).

  - by eapply sync_raises.
Qed.
End ops.
