(* ===== verification/MqlogOpen.v ===== *)
(** * Opening a log, up to the segments of its directory

    [mqlog_open] makes the directory, the structure, the index and the mutex,
    then loads what the directory lists: [open_loads] gives the state from
    which [load_loop] runs and what is done with its result. *)

From S2P Require Import Prelude Errno Prot Posix Util Segment SegmentInv SegmentFile SegmentFileSpec SegmentDurable SegmentFrame Index Pthread Mqlog MqlogInv MqlogOps.

Section opening.
Context {W T It M : Type}.
Context `{!Posix W, !PosixLaws W, !Index T It, !IndexLaws T It, !Pthread M, !PthreadLaws M}.
Context {mode : Mode}.
Context (dir : string) (sz lo : Z).
Context (Hdir : dir_ok dir) (Hmod : sz mod os_pagesize = 0).
Implicit Types (lg : mqlog T M) (pr : process W).
Abbreviation resident := (resident dir sz lo).
Abbreviation store_inv := (store_inv dir sz lo).

(** The directory that [mqlog_open] finds when it starts from [w] can be read,
    and the names [readdir] yields satisfy [P]. *)
Definition listing (w : W) (P : list string → Prop) : Prop :=
  ∀ w1 p w2 d w3, ensure_directory dir w = (0, w1) → os_malloc sizeof_mqlog w1 = (p, w2) →
    os_opendir dir w2 = (d, w3) → d ≠ 0 ∧ P (os_readdir d w3).

(** What [load_segments] and [mqlog_open] do after the loop. *)
Definition finish_open (p d : Z) (loaded : result (Z * mqlog T M * process W))
    : result (Z * option (Z * mqlog T M) * process W) :=
  '(rc, lg, pr) ← loaded;
  if negb (rc =? 0) then '(_, pr) ← mqlog_close p lg pr; Ok (rc, None, pr)
  else '(_, w) ← os_closedir d (pr_os pr); Ok (0, Some (p, lg), Process w (pr_segments pr)).

Lemma dir_name : (snprintf MAX_DIR_SIZE dir).2 = dir.
Proof using Hdir.
  destruct Hdir as [_ Hl]. rewrite snprintf_fits; [done|]. unfold MAX_DIR_SIZE. lia.
Qed.

(** A new log, without segments. *)
Record starts (d : Z) (w w' : W) lg : Prop := {
  st_files : v_files (ps_view w') = v_files (ps_view w);
  st_stream : v_dirs (ps_view w') !! d = Some dir;
  st_resident : resident (Process w' ∅) [];
  st_indexed : indexed dir sz lg [];
  st_lock : mutex_free (lg_lock lg)
}.

Lemma load_segments_loop lg pr :
  load_segments lg pr =
    let '(d, w) := os_opendir (lg_dir lg) (pr_os pr) in
    let pr := Process w (pr_segments pr) in
    '(rc, lg, pr) ← (if negb (d =? 0) then load_loop (os_readdir d w) lg pr else Ok (0, lg, pr));
    if negb (rc =? 0) then Ok (rc, lg, pr)
    else '(_, w) ← os_closedir d (pr_os pr); Ok (0, lg, Process w (pr_segments pr)).
Proof using Type. done. Qed.

Lemma open_loads flags pr P :
  pr_segments pr = ∅ → is_Some (v_fds (ps_view (pr_os pr)) !! 0) → in_mode flags →
  listing (pr_os pr) P →
  (∃ rc pr', rc ∈ [ELLGDIR; ELALLC] ∧ mqlog_open dir sz flags pr = Ok (rc, None, pr')) ∨
  ∃ p d w lg names, P names ∧ starts d (pr_os pr) w lg ∧
    mqlog_open dir sz flags pr = finish_open p d (load_loop names lg (Process w ∅)).
Proof using All.
  intros Hsegs H0 Hfl Hlist. unfold mqlog_open, pagesize. rewrite Hmod. cbn [Z.eqb negb].
  destruct (ensure_directory dir (pr_os pr)) as [rc w1] eqn:Ed.
  destruct (Z.eqb_spec rc 0) as [->|]; cbn [negb].
  2:{ left. eexists _, _. split; [|done]. set_solver. }
  simpl pr_os. destruct (os_malloc sizeof_mqlog w1) as [p w2] eqn:Em.
  destruct (os_opendir dir w2) as [d w3] eqn:Eo. destruct (Hlist _ _ _ _ _ Ed Em Eo) as [Hd HP].
  apply ensure_directory_view in Ed. apply law_malloc in Em.
  destruct (Z.eqb_spec p 0) as [->|Hp].
  { left. eexists _, _. split; [|done]. set_solver. }
  right. destruct Em as [_ Hv2]. rewrite Ed in Hv2.
  destruct (law_init BRANCH_FACTOR) as (t & Hi & Hst); [unfold BRANCH_FACTOR; lia|].
  run Hi. rewrite dir_name. simpl lg_lock.
  destruct (law_mutex_init mutex_zero) as (m & Emu & Hfree). rewrite Emu. cbn [Z.eqb negb].
  set (lg := set_lg_lock m _). apply law_opendir in Eo as Hv3. rewrite (proj2 (Z.eqb_neq d 0)) in Hv3 by done.
  destruct Hv3 as [Hnew Hv3]. exists p, d, w3, lg, (os_readdir d w3). split; [done|]. split.
  - split; try done; [by rewrite Hv3, Hv2|rewrite Hv3; apply lookup_insert_eq| |by split; [exists t|..]].
    split; simpl; [done|by apply NoDup_nil| | |by rewrite Hv3, Hv2].
    + intros a. rewrite lookup_empty. by intros [? ?].
    + rewrite dom_empty. apply empty_subseteq.
  - rewrite load_segments_loop. simpl lg_dir. simpl pr_os. rewrite Eo, (proj2 (Z.eqb_neq d 0)) by done.
    simpl pr_segments. rewrite Hsegs. cbn [negb]. unfold finish_open.
    destruct (load_loop _ lg _) as [[[rc lg'] pr']| |]; [|done..]. rewrite !bind_Ok.
    destruct (Z.eqb_spec rc 0) as [->|Hrc]; cbn [negb].
    + destruct (os_closedir d (pr_os pr')) as [[rc w4]| |]; [|done..]. by rewrite !bind_Ok.
    + by rewrite bind_Ok, (proj2 (Z.eqb_neq rc 0)).
Qed.

(** Closing the stream changes nothing else. *)
Lemma store_stream w w' f segs cs :
  ps_view w' = view_dirs f (ps_view w) → store_inv (Process w segs) cs → store_inv (Process w' segs) cs.
Proof using Type.
  intros Hv [[Hcs Hnd Honly Hbl H0] Hfr]. split; [split|]; simpl in *; rewrite ?Hv; try done.
  - eapply chunks_ok_impl; [|exact Hcs]. intros c cs1 cs2 _ [[sgm []] Hps]. split; [|done]. exists sgm.
    split; try done. destruct lv_attached. split; simpl; by rewrite ?Hv.
  - intros off Hoff. eapply stored_same; [..|by apply Hfr]; unfold data_on_disk, index_on_disk; by rewrite Hv.
Qed.

(** A loop that returns 0. *)
Lemma finish_stored p d lg pr cs loaded :
  loaded = Ok (0, lg, pr) → v_dirs (ps_view (pr_os pr)) !! d = Some dir → store_inv pr cs →
  ∃ w', finish_open p d loaded = Ok (0, Some (p, lg), Process w' (pr_segments pr)) ∧
    store_inv (Process w' (pr_segments pr)) cs.
Proof using Type.
  intros -> Hd Hst. unfold finish_open. rewrite bind_Ok. cbn [Z.eqb negb].
  destruct (law_closedir _ _ _ Hd) as (rc & w' & Hc & Hv). run Hc. exists w'. split; [done|].
  eapply store_stream; [exact Hv|]. by destruct pr.
Qed.
End opening.
