(* ===== verification/MqlogSpec.v ===== *)
(** * The log: the properties

    A log is an append-only list of payloads: [log_refines_list] states it
    for whole sequences of writes, reads and syncs from an empty directory,
    against the interfaces of the operating system, the index and the mutex. *)

From S2P Require Import Prelude Errno Prot Posix Util MemOs MbptreeSpec Segment SegmentInv SegmentOps SegmentSpec SegmentFile SegmentFileSpec SegmentDurable SegmentFrame Index Mbptree MbptreeIndex Pthread Mqlog MqlogInv MqlogOps MqlogOpen.

(** ** Sequences of operations *)

Inductive log_op := LWrite (p : bytes) | LRead (offset : Z) | LSync.
Inductive log_reply := LWrote (rc : Z) | LGot (rc : Z) (fr : frame) | LSynced (rc : Z).

Section run.
Context {W T It M : Type} `{!Posix W, !Index T It, !Pthread M}.
Implicit Types (lg : mqlog T M) (pr : process W).

(** One operation; a read is given an empty frame. *)
Definition log_step (o : log_op) lg pr : result (log_reply * mqlog T M * process W) :=
  match o with
  | LWrite p => '(rc, lg, pr) ← mqlog_write lg p pr; Ok (LWrote rc, lg, pr)
  | LRead off => '(rc, fr, lg) ← mqlog_read lg off (Frame 0 0) pr; Ok (LGot rc fr, lg, pr)
  | LSync => '(rc, pr) ← mqlog_sync lg pr; Ok (LSynced rc, lg, pr)
  end.

(** The replies, each with the process that gave it. *)
Fixpoint run_log (ops : list log_op) lg pr
    : result (list (log_reply * process W) * mqlog T M * process W) :=
  match ops with
  | [] => Ok ([], lg, pr)
  | o :: ops =>
    '(r, lg, pr) ← log_step o lg pr;
    '(rs, lg, pr') ← run_log ops lg pr;
    Ok ((r, pr) :: rs, lg, pr')
  end.

(** ** The abstract log: a list of payloads

    A write appends its payload, or is refused by the system and appends
    nothing; a read returns a frame that points to the payload at its offset,
    or nothing to read. *)
Inductive answers : list bytes → log_op → log_reply * process W → list bytes → Prop :=
  | ans_wrote ps p pr : answers ps (LWrite p) (LWrote (zlen p), pr) (ps ++ [p])
  | ans_refused ps p rc pr : rc ∈ os_errors → answers ps (LWrite p) (LWrote rc, pr) ps
  | ans_read ps off p fr pr : ps !! Z.to_nat off = Some p → points_to pr fr p →
      answers ps (LRead off) (LGot (zlen p) fr, pr) ps
  | ans_past ps off pr : ps !! Z.to_nat off = None →
      answers ps (LRead off) (LGot ELNORD (Frame 0 0), pr) ps
  | ans_synced ps rc pr : answers ps LSync (LSynced rc, pr) ps.

Inductive answers_all : list bytes → list log_op → list (log_reply * process W) → list bytes → Prop :=
  | ans_done ps : answers_all ps [] [] ps
  | ans_step ps o r ps1 ops rs ps2 : answers ps o r ps1 → answers_all ps1 ops rs ps2 →
      answers_all ps (o :: ops) (r :: rs) ps2.

Definition log_op_ok (sz lo : Z) (o : log_op) : Prop :=
  match o with
  | LWrite p => payload_ok sz lo p
  | LRead off => 0 ≤ off < 2 ^ 64
  | LSync => True
  end.
End run.

Section spec.
Context {W T It M : Type}.
Context `{!Posix W, !PosixLaws W, !Index T It, !IndexLaws T It, !Pthread M, !PthreadLaws M}.
Context {mode : Mode}.
Context (dir : string) (sz lo : Z).
Context (Hdir : dir_ok dir) (Hsz : 0 ≤ sz < 2 ^ 32) (Hmod : sz mod os_pagesize = 0).
Context (Hlo : 0 ≤ lo) (Hslots : index_mapped (W := W) sz lo).
Implicit Types (lg : mqlog T M) (pr : process W).
Abbreviation log_inv := (log_inv dir sz lo).

(** ** Opening an empty directory *)

(** A process that has standard input open and none of the segment files. *)
Record blank pr : Prop := {
  bl_segments : pr_segments pr = ∅;
  bl_stdin : is_Some (v_fds (ps_view (pr_os pr)) !! 0);
  bl_files : ∀ f, v_files (ps_view (pr_os pr)) !! path_in dir f = None;
  (* the directory can be read and has no names that look like segments *)
  bl_readdir : listing dir (pr_os pr) (Forall (λ n, has_suffix n ".log" = false))
}.

Lemma load_none names lg pr :
  Forall (λ n, has_suffix n ".log" = false) names → load_loop names lg pr = Ok (0, lg, pr).
Proof using Type.
  induction 1 as [|n names Hn _ IH]; [done|]. cbn [load_loop]. unfold load_segment.
  by rewrite Hn.
Qed.

Lemma open_blank flags pr :
  header_size ≤ sz → in_mode flags → blank pr →
  ∃ rc o pr', mqlog_open dir sz flags pr = Ok (rc, o, pr') ∧
    match o with
    | Some (_, lg) => rc = 0 ∧ log_inv lg pr' []
    | None => rc ∈ [ELLGDIR; ELALLC]
    end.
Proof using All.
  intros Hh Hfl [Hsegs Hstdin Hfiles Hrd].
  destruct (open_loads dir sz lo Hdir Hmod flags pr _ Hsegs Hstdin Hfl Hrd)
    as [(rc & pr' & Hrc & Hrun)|(p & d & w & lg & names & Hnames & [Hf Hd Hres Hix Hlock] & Hrun)].
  { by exists rc, None, pr'. }
  assert (Hst : store_inv dir sz lo (Process w ∅) []).
  { split; [done|]. intros off Hoff. apply stored_fresh; simpl; rewrite ?Hf; try done. apply Hslots. }
  destruct (finish_stored dir sz lo p d lg (Process w ∅) _ _ (load_none names lg _ Hnames) Hd Hst) as (w' & Hfin & Hst').
  rewrite Hrun, Hfin. eexists _, _, _. split; [done|]. simpl. split; [done|]. destruct Hix. by split; [|apply Forall_nil|..].
Qed.

(** a write to a log with room for one more offset returns the
    length of the payload, which the log then holds after the others, or an
    error of the system, and then the log holds what it held. *)
Theorem log_write_appends lg pr cs p :
  log_inv lg pr cs → zlen (items cs) < max_offset → payload_ok sz lo p →
  ∃ rc lg' pr' cs', mqlog_write lg p pr = Ok (rc, lg', pr') ∧ log_inv lg' pr' cs' ∧
    (rc = zlen p ∧ items cs' = items cs ++ [p] ∨ rc ∈ os_errors ∧ items cs' = items cs).
Proof using All.
  intros I HN Hp. destruct (write_ok dir sz lo Hdir Hsz Hmod Hlo Hslots lg pr cs p I HN Hp)
    as (rc & lg' & pr' & cs' & Hrun & I' & Hcase & _). by exists rc, lg', pr', cs'.
Qed.

End spec.

(** ** A log that reads what was written *)

Section written.
Context {W T It M : Type}.
Context `{!Posix W, !PosixLaws W, !Index T It, !IndexLaws T It, !Pthread M, !PthreadLaws M}.
Context (dir : string) (sz lo : Z).
Context (Hdir : dir_ok dir) (Hsz : 0 ≤ sz < 2 ^ 32) (Hmod : sz mod os_pagesize = 0).
Context (Hlo : 0 ≤ lo) (Hslots : index_mapped (W := W) sz lo).
#[local] Existing Instance reads_written.
Implicit Types (lg : mqlog T M) (pr : process W).
Abbreviation log_inv := (log_inv dir sz lo).

Lemma step_ok o lg pr cs :
  log_inv lg pr cs → zlen (items cs) < max_offset → log_op_ok sz lo o →
  ∃ r lg' pr' cs', log_step o lg pr = Ok (r, lg', pr') ∧ log_inv lg' pr' cs' ∧
    answers (items cs) o (r, pr') (items cs') ∧ zlen (items cs') ≤ zlen (items cs) + 1.
Proof using All.
  intros I HN Ho. destruct o as [p|off|]; cbn [log_step].
  - destruct (write_ok dir sz lo Hdir Hsz Hmod Hlo Hslots lg pr cs p I HN Ho)
      as (rc & lg' & pr' & cs' & Hrun & I' & Hcase & _).
    run Hrun. exists (LWrote rc), lg', pr', cs'. split; [done|]. split; [done|].
    destruct Hcase as [[-> ->]|[Hrc ->]].
    + split; [constructor|]. rewrite length_app. simpl. lia.
    + split; [by constructor|lia].
  - destruct (read_ok dir sz lo Hdir Hsz Hmod Hlo Hslots lg pr cs off (Frame 0 0) eq_refl I Ho)
      as (rc & fr & lg' & Hrun & I' & Hres).
    run Hrun. exists (LGot rc fr), lg', pr, cs. split; [done|]. split; [done|]. split; [|lia].
    destruct (items cs !! Z.to_nat off) as [p|] eqn:Hp; destruct Hres as [-> Hfr].
    + by econstructor.
    + subst fr. by constructor.
  - destruct (sync_ok dir sz lo Hdir Hsz Hmod Hlo Hslots lg pr cs I) as (rc & pr' & Hrun & I' & _).
    run Hrun. exists (LSynced rc), lg, pr', cs. split; [done|]. split; [done|]. split; [constructor|lia].
Qed.

Lemma run_ok ops : ∀ lg pr cs,
  log_inv lg pr cs → zlen (items cs) + zlen ops ≤ max_offset → Forall (log_op_ok sz lo) ops →
  ∃ rs lg' pr' cs', run_log ops lg pr = Ok (rs, lg', pr') ∧ log_inv lg' pr' cs' ∧
    answers_all (items cs) ops rs (items cs').
Proof using All.
  induction ops as [|o ops IH]; intros lg pr cs I HN Hops; cbn [run_log].
  { exists [], lg, pr, cs. split; [done|]. split; [done|constructor]. }
  apply Forall_cons in Hops as [Ho Hops]. rewrite length_cons in HN.
  destruct (step_ok o lg pr cs I ltac:(lia) Ho) as (r & lg1 & pr1 & cs1 & Hrun & I1 & Ha & Hl).
  run Hrun. destruct (IH lg1 pr1 cs1 I1 ltac:(lia) Hops) as (rs & lg2 & pr2 & cs2 & Hrun2 & I2 & Ha2).
  run Hrun2. exists ((r, pr1) :: rs), lg2, pr2, cs2. split; [done|]. split; [done|].
  by econstructor.
Qed.

(** [C1]: A log opened without [MQLOG_RDCMT] on a directory that can be read
    and has no file of a segment refines a list. Any sequence of writes, reads
    and syncs as below runs without undefined behaviour, over as many segments
    as it takes: each write appends its payload and returns its length, or is
    refused by the system and appends nothing; each read returns a frame that
    points to the payload at its offset, or [ELNORD] past the last. The open
    itself can fail with [ELLGDIR] or [ELALLC]. Assumed: the size of a segment
    is a multiple of the page size below 2^32, the directory name has 1 to 200
    characters, descriptor 0 is open, the index never runs out of memory;
    every payload is nonempty, leaves room for its header and an end mark in a
    segment (its length + 24 is at most the size), does not imitate an end
    mark (bytes 0xaaaa twelve from its end), and has at least [lo] bytes,
    where the pages mapped for the index have a slot for every payload of that
    length that fits ([index_mapped]: 84 bytes are enough for any size, no
    minimum is needed when a segment is one page); there are at most 2^63 -
    2^32 calls. Smaller payloads can overrun the index ([index_too_small]),
    and a failing index is the subject of [failed_read_keeps_lock]. *)
Theorem log_refines_list flags pr ops :
  header_size ≤ sz → Z.land flags MQLOG_RDCMT ≠ MQLOG_RDCMT → blank dir pr →
  Forall (log_op_ok sz lo) ops → zlen ops ≤ max_offset →
  ∃ rc o pr1, mqlog_open dir sz flags pr = Ok (rc, o, pr1) ∧
    match o with
    | Some (_, lg) => rc = 0 ∧ ∃ rs lg' pr2 ps, run_log ops lg pr1 = Ok (rs, lg', pr2) ∧
        answers_all [] ops rs ps
    | None => rc ∈ [ELLGDIR; ELALLC]
    end.
Proof using All.
  intros Hh Hfl Hb Hops Hlen.
  destruct (open_blank dir sz lo Hdir Hsz Hmod Hlo Hslots flags pr Hh (proj2 (Z.eqb_neq _ _) Hfl) Hb) as (rc & o & pr1 & Hrun & Ho).
  exists rc, o, pr1. split; [done|]. destruct o as [[p lg]|]; [|done]. destruct Ho as [-> I].
  split; [done|]. destruct (run_ok ops lg pr1 [] I) as (rs & lg' & pr2 & cs & Hr & _ & Ha); [simpl; lia|done|].
  by exists rs, lg', pr2, (items cs).
Qed.

(** a read finds the segment of its offset and returns the frame
    of the payload there; an offset past the last gives nothing to read and
    leaves the frame of the caller. It changes neither the log nor the process. *)
Theorem log_read_finds lg pr cs o fr :
  log_inv lg pr cs → 0 ≤ o < 2 ^ 64 →
  ∃ rc fr' lg', mqlog_read lg o fr pr = Ok (rc, fr', lg') ∧ log_inv lg' pr cs ∧
    match items cs !! Z.to_nat o with
    | Some p => rc = zlen p ∧ points_to pr fr' p
    | None => rc = ELNORD ∧ fr' = fr
    end.
Proof using All. by apply read_ok. Qed.
End written.

(** ** The lock after a failed read, and the first offset of a log *)

(** [C28]: when the index cannot make an iterator, [mqlog_read] returns
    its code with the mutex of the log held: from then on every write and every
    read returns [ELLOCK] and does nothing. *)
Theorem failed_read_keeps_lock {W T It M} `{!Posix W, !Index T It, !Pthread M, !PthreadLaws M}
    (lg : mqlog T M) (pr : process W) t t' o fr rc :
  mutex_free (lg_lock lg) → lg_index lg = Some t → ix_leaf_floor t o = Ok (rc, None, t') →
  ∃ lg', mqlog_read lg o fr pr = Ok (rc, fr, lg') ∧ mutex_held (lg_lock lg') ∧
    ∀ pr' o' fr' p, p ≠ [] → mqlog_write lg' p pr' = Ok (ELLOCK, lg', pr') ∧
      mqlog_read lg' o' fr' pr' = Ok (ELLOCK, fr', lg').
Proof.
  intros Hfree Ht Hf. unfold mqlog_read, mqlog_tryread, the_index.
  destruct (law_trylock_free _ Hfree) as (e & m & Hlock & Hheld). rewrite Hlock.
  change (0 =? EBUSY) with false. cbn [Z.eqb negb lg_index set_lg_lock]. rewrite Ht. simpl of_option.
  rewrite bind_Ok. run Hf. eexists. split; [done|]. split; [done|].
  intros pr' o' fr' p Hp. cbn [lg_lock set_lg_index set_lg_lock].
  destruct (law_trylock_held m Hheld) as [e' Hbusy].
  unfold mqlog_write. cbn [lg_lock set_lg_index set_lg_lock]. rewrite Hbusy, Z.eqb_refl.
  rewrite (proj2 (Z.eqb_neq _ _)) by (destruct p; [done|simpl; lia]). done.
Qed.

(** [mqlog_close] walks the segments from the floor of offset
    0: when the first segment starts above 0, it closes none of them, releases
    the log and returns success. *)
Theorem close_skips_positive_offsets {W T It M}
    `{!Posix W, !Index T It, !IndexLaws T It, !Pthread M, !PthreadLaws M}
    (lg : mqlog T M) (pr : process W) t k a kvs addr :
  mutex_free (lg_lock lg) → lg_index lg = Some t → ix_stores t ((k, a) :: kvs) → 0 < k → Forall (λ kv, k < kv.1) kvs →
  mqlog_close addr lg pr = Ok (0, Process (os_free addr (pr_os pr)) (pr_segments pr)).
Proof.
  intros Hfree Ht Hst Hk Hkvs. unfold mqlog_close. rewrite Ht.
  destruct (law_mutex_destroy _ Hfree) as (rc & m & Hdes). rewrite Hdes.
  destruct (law_first _ _ Hst) as (it & rest & Hf & Hat & Hrest). run Hf.
  assert (rest = []) as ->.
  { inversion Hrest as [|before kv after Hle Hall Heq]; [done|]. exfalso. subst.
    assert (Hin : kv ∈ (k, a) :: kvs) by (rewrite <- Heq; apply elem_of_app; right; left).
    rewrite Forall_forall in Hkvs. apply elem_of_cons in Hin as [->|Hin]; [simpl in Hle; lia|].
    apply Hkvs in Hin. lia. }
  cbn [close_loop]. run (law_valid _ _ _ Hat). by run (law_free_index _ _ Hst).
Qed.

(** ** A concrete log *)

#[local] Existing Instance reads_written.

Abbreviation demo_log_t := (mqlog tree_and_heap flag_mutex).
Definition demo_process : process mem_os := Process (mo_boot ∅) ∅.
Definition demo_open : result (Z * option (Z * demo_log_t) * process mem_os) :=
  mqlog_open "/log" 4096 MQLOG_RDDRT demo_process.
Definition demo_log : demo_log_t :=
  match demo_open with
  | Ok (_, Some (_, lg), _) => lg
  | _ => Mqlog 0 0 "" None mutex_zero
  end.
Definition demo_opened_process : process mem_os :=
  match demo_open with Ok (_, _, pr) => pr | _ => demo_process end.
Definition demo_log_ops : list log_op :=
  [LRead 0; LWrite (zeros 100); LSync; LWrite (zeros 3900); LWrite (zeros 3900); LRead 2; LRead 7].

Lemma demo_dir : dir_ok "/log".
Proof. split; [done|]. simpl. lia. Qed.

Lemma demo_mod : 4096 mod os_pagesize (W := mem_os) = 0.
Proof. done. Qed.

Lemma demo_slots : index_mapped (W := mem_os) 4096 0.
Proof. split; by vm_compute. Qed.

Lemma demo_blank : blank "/log" demo_process.
Proof.
  split; simpl; try done.
  intros w1 p w2 d w3 [= <-] [= <- <-] [= <- <-]. split; [done|]. by vm_compute.
Qed.

Lemma demo_ops_ok : Forall (log_op_ok 4096 0) demo_log_ops.
Proof.
  unfold demo_log_ops. rewrite !Forall_cons. split_and!; try done; split; by vm_compute.
Qed.

Lemma demo_opened_ok :
  demo_open = Ok (0, Some (3, demo_log), demo_opened_process).
Proof. by vm_compute. Qed.

Lemma demo_log_inv : log_inv "/log" 4096 0 demo_log demo_opened_process [].
Proof.
  destruct (open_blank "/log" 4096 0 demo_dir ltac:(lia) demo_mod ltac:(lia) demo_slots MQLOG_RDDRT
    demo_process) as (rc & o & pr & Hrun & Ho); [size_lia|done|apply demo_blank|].
  fold demo_open in Hrun. rewrite demo_opened_ok in Hrun. apply Ok_triple in Hrun as (<- & <- & <-).
  apply Ho.
Qed.

Lemma log_refines_list_witness :
  ∃ rc o pr1, demo_open = Ok (rc, o, pr1) ∧
    match o with
    | Some (_, lg) => rc = 0 ∧ ∃ rs lg' pr2 ps, run_log demo_log_ops lg pr1 = Ok (rs, lg', pr2) ∧
        answers_all [] demo_log_ops rs ps
    | None => rc ∈ [ELLGDIR; ELALLC]
    end.
Proof.
  apply (log_refines_list "/log" 4096 0 demo_dir ltac:(lia) demo_mod ltac:(lia) demo_slots
    MQLOG_RDDRT demo_process demo_log_ops).
  - size_lia.
  - done.
  - apply demo_blank.
  - apply demo_ops_ok.
  - by vm_compute.
Defined.

Lemma log_write_appends_witness :
  ∃ rc lg' pr' cs', mqlog_write demo_log (zeros 100) demo_opened_process = Ok (rc, lg', pr') ∧
    log_inv "/log" 4096 0 lg' pr' cs' ∧
    (rc = 100 ∧ items cs' = [zeros 100] ∨ rc ∈ os_errors ∧ items cs' = []).
Proof.
  apply (log_write_appends "/log" 4096 0 demo_dir ltac:(lia) demo_mod ltac:(lia) demo_slots
    demo_log demo_opened_process [] (zeros 100)).
  - apply demo_log_inv.
  - by vm_compute.
  - split; by vm_compute.
Defined.

(** The log after one write. *)
Definition demo_written : result (Z * demo_log_t * process mem_os) :=
  mqlog_write demo_log (zeros 100) demo_opened_process.
Definition demo_log1 : demo_log_t := match demo_written with Ok (_, lg, _) => lg | _ => demo_log end.
Definition demo_process1 : process mem_os :=
  match demo_written with Ok (_, _, pr) => pr | _ => demo_process end.

Lemma demo_log1_inv : ∃ cs, log_inv "/log" 4096 0 demo_log1 demo_process1 cs ∧ items cs = [zeros 100].
Proof.
  destruct (write_ok "/log" 4096 0 demo_dir ltac:(lia) demo_mod ltac:(lia) demo_slots
    demo_log demo_opened_process [] (zeros 100)) as (rc & lg & pr & cs & Hrun & I & Hcase & _);
    [apply demo_log_inv|by vm_compute|split; by vm_compute|].
  assert (Hw : demo_written = Ok (100, demo_log1, demo_process1)) by (by vm_compute).
  fold demo_written in Hrun. rewrite Hw in Hrun. apply Ok_triple in Hrun as (<- & <- & <-).
  exists cs. split; [exact I|]. destruct Hcase as [[_ Hi]|[Hbad _]]; [exact Hi|exfalso].
  clear -Hbad. revert Hbad. apply (bool_decide_eq_false_1 (100 ∈ os_errors)). by vm_compute.
Qed.

Lemma log_read_finds_witness :
  ∃ cs rc fr' lg', items cs = [zeros 100] ∧
    mqlog_read demo_log1 0 (Frame 0 0) demo_process1 = Ok (rc, fr', lg') ∧
    log_inv "/log" 4096 0 lg' demo_process1 cs ∧ rc = 100 ∧ points_to demo_process1 fr' (zeros 100).
Proof.
  destruct demo_log1_inv as (cs & I & Hcs). exists cs.
  destruct (log_read_finds "/log" 4096 0 demo_dir ltac:(lia) demo_mod ltac:(lia) demo_slots
    demo_log1 demo_process1 cs 0 (Frame 0 0) I ltac:(lia)) as (rc & fr' & lg' & Hrun & I' & Hres).
  rewrite Hcs in Hres. change ([zeros 100] !! Z.to_nat 0) with (Some (zeros 100)) in Hres.
  destruct Hres as [Hrc Hfr]. exists rc, fr', lg'. exact (conj Hcs (conj Hrun (conj I' (conj Hrc Hfr)))).
Defined.

(** An allocator with memory for nodes only. *)
Definition starved : Allocator := {| node_calloc := bump_calloc; struct_calloc := λ _, false |}.

Lemma failed_read_keeps_lock_witness (lg := Mqlog 4096 MQLOG_RDDRT "/log" (lg_index demo_log1) Free) :
  ∃ lg', @mqlog_read _ _ _ _ (@mbptree_index starved) flag_pthread lg 0 (Frame 0 0) demo_process1 =
      Ok (ELALLC, Frame 0 0, lg') ∧ lg_lock lg' = Held ∧
    ∀ pr' o' fr' p, p ≠ [] →
      @mqlog_write _ _ _ _ mem_posix (@mbptree_index starved) flag_pthread lg' p pr' = Ok (ELLOCK, lg', pr') ∧
      @mqlog_read _ _ _ _ (@mbptree_index starved) flag_pthread lg' o' fr' pr' = Ok (ELLOCK, fr', lg').
Proof.
  apply (@failed_read_keeps_lock _ _ _ _ mem_posix (@mbptree_index starved) flag_pthread flag_laws
    lg demo_process1 (default (Tree 0 (Lock 0 0) 0 0, ∅) (lg_index demo_log1))
    (default (Tree 0 (Lock 0 0) 0 0, ∅) (lg_index demo_log1)) 0 (Frame 0 0) ELALLC); by vm_compute.
Defined.

(** A log whose first segment starts at 10. *)
Definition demo_late : demo_log_t :=
  Mqlog 4096 MQLOG_RDDRT "/log" (Some (demo_tree 2, demo_heap 2)) Free.

Lemma close_skips_positive_offsets_witness :
  mqlog_close 1 demo_late demo_process = Ok (0, Process (os_free 1 (pr_os demo_process)) (pr_segments demo_process)).
Proof.
  apply (close_skips_positive_offsets demo_late demo_process (demo_tree 2, demo_heap 2) 10 0 [(20, 1)]).
  - done.
  - done.
  - split; [apply (demo_stores 2)|by vm_compute].
  - lia.
  - repeat constructor.
Defined.
