(* ===== verification/MqlogCommit.v ===== *)
(** * A log opened to read what was synced

    A log opened with [MQLOG_RDCMT] is a list of segments whose payloads are
    marked when a sync reaches them, and shows the marked ones only
    ([committed_log_refines_clog]). A sync is for the last segment, so what was
    not synced when a segment was left is not shown until the log is opened
    again ([left_unsynced_stays_hidden]). *)

From S2P Require Import Prelude Errno Prot Posix Util MemOs MbptreeSpec Segment SegmentInv SegmentOps SegmentSpec SegmentFile SegmentFileSpec SegmentDurable SegmentFrame Index Mbptree MbptreeIndex Pthread Mqlog MqlogInv MqlogSynced MqlogOps MqlogSpec.

(** ** The abstract log *)

Section abstract.
Context {W : Type}.
Implicit Types (l : clog) (r : log_reply * process W).

(** What an operation answers: a read returns a frame that points to the
    payload at its offset when it is marked, and nothing to read otherwise. *)
Inductive shown_answers : clog → log_op → log_reply * process W → clog → Prop :=
  | sa_wrote l p rc l' pr : clog_write os_errors p l rc l' → shown_answers l (LWrite p) (LWrote rc, pr) l'
  | sa_read l off p fr pr : clog_lookup l off = Some (p, true) → points_to pr fr p →
      shown_answers l (LRead off) (LGot (zlen p) fr, pr) l
  | sa_hidden l off p pr : clog_lookup l off = Some (p, false) →
      shown_answers l (LRead off) (LGot ELNORD (Frame 0 0), pr) l
  | sa_past l off pr : clog_lookup l off = None →
      shown_answers l (LRead off) (LGot ELNORD (Frame 0 0), pr) l
  | sa_synced l rc l' pr : clog_sync l rc l' → shown_answers l LSync (LSynced rc, pr) l'.

Inductive shown_all : clog → list log_op → list (log_reply * process W) → clog → Prop :=
  | sa_done l : shown_all l [] [] l
  | sa_step l o r l1 ops rs l2 : shown_answers l o r l1 → shown_all l1 ops rs l2 →
      shown_all l (o :: ops) (r :: rs) l2.

(** Only the last segment changes. *)
Lemma shown_prefix l o r l' : shown_answers l o r l' → ∃ k, l' = removelast l ++ k ∧ (l ≠ [] → k ≠ []).
Proof using Type.
  assert (Hself : ∀ l, ∃ k, l = removelast l ++ k ∧ (l ≠ [] → k ≠ [])).
  { intros l0. destruct l0 as [|s l0 _] using rev_ind; [by exists []|].
    exists [s]. by rewrite removelast_last. }
  intros [l0 p rc l1 pr Hw|l0 off p fr pr _ _|l0 off p pr _|l0 off pr _|l0 rc l1 pr Hs]; try apply Hself.
  - destruct Hw as [l0 s|l0|l0 rc _]; [| |apply Hself].
    + rewrite removelast_last. by exists [s ++ [(p, false)]].
    + destruct (Hself l0) as (k & Hk & _). exists (k ++ [[(p, false)]]). rewrite app_assoc, <- Hk.
      split; [done|]. intros _. by destruct k.
  - destruct Hs as [|l0 s rc|l0 rc _]; [by exists []| |apply Hself].
    rewrite removelast_last. by exists [mark_synced s].
Qed.

Lemma shown_all_prefix l ops rs l' :
  shown_all l ops rs l' → ∃ k, l' = removelast l ++ k ∧ (l ≠ [] → k ≠ []).
Proof using Type.
  induction 1 as [l|l o r l1 ops rs l2 Ha _ (k2 & -> & Hk2)].
  - destruct l as [|s l _] using rev_ind; [by exists []|]. exists [s]. by rewrite removelast_last.
  - destruct (shown_prefix _ _ _ _ Ha) as (k1 & -> & Hk1).
    destruct k1 as [|x k1 _] using rev_ind.
    + assert (l = []) as -> by (destruct l; [done|by destruct (Hk1 ltac:(done))]). by exists k2.
    + rewrite app_assoc, removelast_last, <- app_assoc in *. exists (k1 ++ k2). split; [done|].
      intros Hl. destruct k1; [|done]. apply Hk2. by intros [_ ?]%app_nil.
Qed.

(** A payload of a segment that is not the last keeps its mark. *)
Lemma left_mark_stays l ops rs l' off x :
  shown_all l ops rs l' → clog_lookup (removelast l) off = Some x → clog_lookup l' off = Some x.
Proof using Type.
  intros Ha Hx. destruct (shown_all_prefix _ _ _ _ Ha) as (k & -> & _).
  unfold clog_lookup in *. rewrite concat_app. by apply lookup_app_l_Some.
Qed.
(** A first write, and a write that follows one and needed a new segment. *)
Lemma first_write p rc l : rc ∉ os_errors → clog_write os_errors p [] rc l → l = [[(p, false)]].
Proof using Type.
  intros Hrc Hw. inversion Hw as [l0 s Heq|l0|l0 rc0 Hin]; subst; [by destruct l0|done|done].
Qed.

Lemma second_segment p x rc l :
  rc ∉ os_errors → clog_write os_errors p [x] rc l → (2 ≤ length l)%nat → l = [x; [(p, false)]].
Proof using Type.
  intros Hrc Hw Hl. inversion Hw as [l0 s Heq|l0|l0 rc0 Hin]; subst; [|done|done].
  exfalso. apply (f_equal length) in Heq. rewrite length_app in Heq, Hl. simpl in *. lia.
Qed.
End abstract.

(** ** The refinement *)

Section commit.
Context {W T It M : Type}.
Context `{!Posix W, !PosixLaws W, !Index T It, !IndexLaws T It, !Pthread M, !PthreadLaws M}.
Context (dir : string) (sz lo : Z).
Context (Hdir : dir_ok dir) (Hsz : 0 ≤ sz < 2 ^ 32) (Hmod : sz mod os_pagesize = 0).
Context (Hlo : 0 ≤ lo) (Hslots : index_mapped (W := W) sz lo).
#[local] Existing Instance reads_synced.
Implicit Types (lg : mqlog T M) (pr : process W).
Abbreviation log_inv := (log_inv dir sz lo).

(** The mark of a payload is where the synced offset of its segment is. *)
Lemma view_lookup pr cs b c sgm i p :
  present pr cs → chunk_at cs b c → pr_segments pr !! c_addr c = Some sgm → c_items c !! i = Some p →
  clog_lookup (view pr cs) (b + Z.of_nat i) =
    Some (p, frame_offset (c_items c) i <? op_data (s_offset_pair sgm)).
Proof using Type.
  intros Hp (cs1 & cs2 & -> & ->) Hs Hi. unfold clog_lookup, view.
  apply Forall_app in Hp as [Hp _]. rewrite fmap_app, fmap_cons, concat_app. cbn [concat].
  assert (Hlen : length (concat (shows pr <$> cs1)) = length (items cs1)).
  { clear -Hp. induction Hp as [|c cs Hc Hp IH]; [done|]. rewrite fmap_cons, items_cons. cbn [concat].
    by rewrite !length_app, IH, shows_length. }
  rewrite lookup_app_r by lia. rewrite Hlen. replace (_ - _)%nat with i by lia.
  apply lookup_app_l_Some. by apply shows_lookup.
Qed.

Lemma view_length pr cs : present pr cs → length (concat (view pr cs)) = length (items cs).
Proof using Type.
  unfold view. induction 1 as [|c cs Hc Hp IH]; [done|]. rewrite fmap_cons, items_cons. cbn [concat].
  by rewrite !length_app, IH, shows_length.
Qed.

Lemma resident_size pr cs :
  resident dir sz lo pr cs → (base.size (dom (pr_segments pr)) ≤ length cs)%nat.
Proof using Type.
  intros [_ Hnd Honly _ _]. rewrite <- (length_fmap c_addr cs), <- (size_list_to_set (C := gset Z)) by done.
  apply subseteq_size. intros a [s Ha]%elem_of_dom. apply elem_of_list_to_set, Honly. by exists s.
Qed.

Lemma shown_read lg pr cs off :
  log_inv lg pr cs → 0 ≤ off < 2 ^ 64 →
  ∃ rc fr lg', mqlog_read lg off (Frame 0 0) pr = Ok (rc, fr, lg') ∧ log_inv lg' pr cs ∧
    shown_answers (view pr cs) (LRead off) (LGot rc fr, pr) (view pr cs).
Proof using All.
  intros I Ho. destruct (read_at dir sz lo Hdir Hsz Hmod Hlo Hslots lg pr cs off (Frame 0 0) I Ho)
    as (rc & fr & lg' & Hrun & I' & Hc).
  exists rc, fr, lg'. split; [done|]. split; [done|].
  pose proof (si_resident _ _ _ _ _ (li_store _ _ _ _ _ _ I)) as Hres. pose proof (resident_present _ _ _ _ _ Hres) as Hp.
  destruct (items cs !! Z.to_nat off) as [p|] eqn:Hoff.
  - destruct Hc as (b & c & i & sgm & Hat & -> & Hi & Hs & Hc).
    pose proof (view_lookup _ _ _ _ _ _ _ Hp Hat Hs Hi) as Hv. destruct Hat as (cs1 & cs2 & -> & ->).
    destruct (chunks_ok_at _ _ _ _ _ (rs_chunks _ _ _ _ _ Hres)) as [[sgm' Hl] _].
    pose proof (lv_sgm _ _ _ _ _ _ Hl) as Hs'. rewrite Hs in Hs'. injection Hs' as <-.
    assert (Hb : read_boundary sgm = op_data (s_offset_pair sgm)).
    { unfold read_boundary. pose proof (lv_flags _ _ _ _ _ _ Hl) as Hf. unfold in_mode in Hf.
      change MQLOG_RDCMT with SGM_RDCMT in Hf. by rewrite Hf. }
    rewrite Hb in Hc. destruct (_ <? op_data _); destruct Hc as [-> Hc]; [by econstructor|]. subst fr. by econstructor.
  - destruct Hc as [-> ->]. apply sa_past. apply lookup_ge_None in Hoff. unfold clog_lookup.
    apply lookup_ge_None. by rewrite view_length.
Qed.

Lemma shown_step o lg pr cs :
  log_inv lg pr cs → Forall (sync_bounded pr) cs → zlen (items cs) < max_offset → log_op_ok sz lo o →
  ∃ r lg' pr' cs', log_step o lg pr = Ok (r, lg', pr') ∧ log_inv lg' pr' cs' ∧
    Forall (sync_bounded pr') cs' ∧ shown_answers (view pr cs) o (r, pr') (view pr' cs') ∧
    zlen (items cs') ≤ zlen (items cs) + 1.
Proof using All.
  intros I Hb HN Ho. destruct o as [p|off|]; cbn [log_step].
  - destruct (write_ok dir sz lo Hdir Hsz Hmod Hlo Hslots lg pr cs p I HN Ho)
      as (rc & lg' & pr' & cs' & Hrun & I' & Hcase & Heff).
    run Hrun. destruct (Heff Hb) as [Hb' Hw]. exists (LWrote rc), lg', pr', cs'. split_and!; try done; [by constructor|].
    destruct Hcase as [[_ ->]|[_ ->]]; [rewrite length_app; simpl|]; lia.
  - destruct (shown_read lg pr cs off I Ho) as (rc & fr & lg' & Hrun & I' & Ha).
    run Hrun. exists (LGot rc fr), lg', pr, cs. split_and!; try done. lia.
  - destruct (sync_ok dir sz lo Hdir Hsz Hmod Hlo Hslots lg pr cs I) as (rc & pr' & Hrun & I' & Heff).
    run Hrun. destruct (Heff Hb) as [Hb' Hs]. exists (LSynced rc), lg, pr', cs. split_and!; try done; [by constructor|lia].
Qed.

Lemma shown_run ops : ∀ lg pr cs,
  log_inv lg pr cs → Forall (sync_bounded pr) cs → zlen (items cs) + zlen ops ≤ max_offset →
  Forall (log_op_ok sz lo) ops →
  ∃ rs lg' pr' cs', run_log ops lg pr = Ok (rs, lg', pr') ∧ log_inv lg' pr' cs' ∧
    Forall (sync_bounded pr') cs' ∧ zlen (items cs') ≤ zlen (items cs) + zlen ops ∧ shown_all (view pr cs) ops rs (view pr' cs').
Proof using All.
  induction ops as [|o ops IH]; intros lg pr cs I Hb HN Hops; cbn [run_log].
  { exists [], lg, pr, cs. split_and!; try done; [simpl; lia|constructor]. }
  apply Forall_cons in Hops as [Ho Hops]. rewrite length_cons in HN.
  destruct (shown_step o lg pr cs I Hb ltac:(lia) Ho) as (r & lg1 & pr1 & cs1 & Hrun & I1 & Hb1 & Ha & Hl).
  run Hrun. destruct (IH lg1 pr1 cs1 I1 Hb1 ltac:(lia) Hops) as (rs & lg2 & pr2 & cs2 & Hrun2 & I2 & Hb2 & Hl2 & Ha2).
  run Hrun2. exists ((r, pr1) :: rs), lg2, pr2, cs2. split_and!; try done; [rewrite length_cons; lia|by econstructor].
Qed.

(** [C2]: A log opened with [MQLOG_RDCMT] on a directory that can be read and
    has no file of a segment refines a list of segments of marked payloads.
    Any sequence of writes, reads and syncs as below runs without undefined
    behaviour: a write appends its payload unmarked, to the last segment or to
    a new one, or is refused by the system; a sync marks the payloads of the
    last segment, and only a sync that returns an error can leave them; a read
    returns the payload of a marked offset and [ELNORD] at any other. The open
    itself can fail with [ELLGDIR] or [ELALLC]. Assumed: the size of a segment
    is a multiple of the page size below 2^32, the directory name has 1 to 200
    characters, descriptor 0 is open, the index never runs out of memory;
    every payload is nonempty, leaves room for its header and an end mark in a
    segment (its length + 24 is at most the size), does not imitate an end
    mark (bytes 0xaaaa twelve from its end), and has at least [lo] bytes,
    where the pages mapped for the index have a slot for every payload of that
    length that fits ([index_mapped]: 84 bytes are enough for any size, no
    minimum is needed when a segment is one page); there are at most 2^63 -
    2^32 calls. Smaller payloads can overrun the index ([index_too_small]). *)
Theorem committed_log_refines_clog flags pr ops :
  header_size ≤ sz → Z.land flags MQLOG_RDCMT = MQLOG_RDCMT → blank dir pr →
  Forall (log_op_ok sz lo) ops → zlen ops ≤ max_offset →
  ∃ rc o pr1, mqlog_open dir sz flags pr = Ok (rc, o, pr1) ∧
    match o with
    | Some (_, lg) => rc = 0 ∧ ∃ rs lg' pr2 l, run_log ops lg pr1 = Ok (rs, lg', pr2) ∧ shown_all [] ops rs l
    | None => rc ∈ [ELLGDIR; ELALLC]
    end.
Proof using All.
  intros Hh Hfl Hb Hops Hlen.
  destruct (open_blank dir sz lo Hdir Hsz Hmod Hlo Hslots flags pr Hh (proj2 (Z.eqb_eq _ _) Hfl) Hb)
    as (rc & o & pr1 & Hrun & Ho).
  exists rc, o, pr1. split; [done|]. destruct o as [[p lg]|]; [|done]. destruct Ho as [-> I].
  split; [done|]. destruct (shown_run ops lg pr1 [] I (Forall_nil_2 _)) as (rs & lg' & pr2 & cs & Hr & _ & _ & _ & Ha); [simpl; lia|done|].
  by exists rs, lg', pr2, (view pr2 cs).
Qed.

(** [C29]: what was not synced when its segment was left stays hidden: a
    payload below the synced offset of no segment, in a segment that is not the
    last, is not read by any later call of the process, whatever is synced. *)
Theorem left_unsynced_stays_hidden lg pr cs ops off p :
  log_inv lg pr cs → Forall (sync_bounded pr) cs → zlen (items cs) + zlen ops < max_offset →
  Forall (log_op_ok sz lo) ops → 0 ≤ off < 2 ^ 64 →
  clog_lookup (removelast (view pr cs)) off = Some (p, false) →
  ∃ rs lg' pr', run_log ops lg pr = Ok (rs, lg', pr') ∧
    ∃ lg'', mqlog_read lg' off (Frame 0 0) pr' = Ok (ELNORD, Frame 0 0, lg'').
Proof using All.
  intros I Hb HN Hops Ho Hp. destruct (shown_run ops lg pr cs I Hb ltac:(lia) Hops) as (rs & lg' & pr' & cs' & Hrun & I' & _ & _ & Ha).
  exists rs, lg', pr'. split; [done|]. pose proof (left_mark_stays _ _ _ _ _ _ Ha Hp) as Hp'.
  destruct (shown_read lg' pr' cs' off I' Ho) as (rc & fr & lg'' & Hrun' & _ & Hans). exists lg''. rewrite Hrun'.
  inversion Hans; simplify_eq; done.
Qed.
End commit.

(** ** A concrete log *)

#[local] Existing Instance reads_synced.

Definition demo_synced_open : result (Z * option (Z * demo_log_t) * process mem_os) :=
  mqlog_open "/log" 4096 MQLOG_RDCMT demo_process.

(** The second write needs a second segment; the sync is for that one. *)
Definition demo_synced_writes : list log_op := [LWrite (zeros 100); LWrite (zeros 3990)].
Definition demo_synced_ops : list log_op := [LSync; LRead 0; LRead 1].

Lemma committed_log_refines_clog_witness :
  ∃ rc o pr1, demo_synced_open = Ok (rc, o, pr1) ∧
    match o with
    | Some (_, lg) => rc = 0 ∧ ∃ rs lg' pr2 l,
        run_log (demo_synced_writes ++ demo_synced_ops) lg pr1 = Ok (rs, lg', pr2) ∧
        shown_all [] (demo_synced_writes ++ demo_synced_ops) rs l
    | None => rc ∈ [ELLGDIR; ELALLC]
    end.
Proof.
  apply (committed_log_refines_clog "/log" 4096 0 demo_dir ltac:(lia) demo_mod ltac:(lia) demo_slots
    MQLOG_RDCMT demo_process (demo_synced_writes ++ demo_synced_ops)).
  - size_lia.
  - done.
  - apply demo_blank.
  - repeat constructor; by vm_compute.
  - by vm_compute.
Defined.

(** The log after the two writes. *)
Definition demo_synced_run : result (list (log_reply * process mem_os) * demo_log_t * process mem_os) :=
  match demo_synced_open with
  | Ok (_, Some (_, lg), pr) => run_log demo_synced_writes lg pr
  | _ => UB
  end.
Definition demo_synced_log : demo_log_t := match demo_synced_run with Ok (_, lg, _) => lg | _ => demo_log end.
Definition demo_synced_process : process mem_os :=
  match demo_synced_run with Ok (_, _, pr) => pr | _ => demo_process end.

Lemma demo_synced_replies :
  match demo_synced_run with Ok (rs, _, _) => fst <$> rs | _ => [] end = [LWrote 100; LWrote 3990] ∧
  base.size (dom (pr_segments demo_synced_process)) = 2%nat.
Proof. split; by vm_compute. Qed.

(** The first payload is not synced and not in the last segment. *)
Lemma demo_synced_state :
  ∃ cs, log_inv "/log" 4096 0 demo_synced_log demo_synced_process cs ∧
    Forall (sync_bounded demo_synced_process) cs ∧ zlen (items cs) ≤ 2 ∧
    clog_lookup (removelast (view demo_synced_process cs)) 0 = Some (zeros 100, false).
Proof.
  destruct (open_blank "/log" 4096 0 demo_dir ltac:(lia) demo_mod ltac:(lia) demo_slots MQLOG_RDCMT
    demo_process) as (rc & o & pr & Hrun & Ho); [size_lia|done|apply demo_blank|].
  fold demo_synced_open in Hrun. pose proof demo_synced_replies as [Hreplies Hsize].
  unfold demo_synced_log, demo_synced_process, demo_synced_run in *. rewrite Hrun in *.
  destruct o as [[a lg]|]; [|discriminate Hreplies]. destruct Ho as [-> I].
  destruct (shown_run "/log" 4096 0 demo_dir ltac:(lia) demo_mod ltac:(lia) demo_slots demo_synced_writes
    lg pr [] I) as (rs & lg' & pr' & cs & Hrun' & I' & Hb & Hl & Ha);
    [constructor|by vm_compute|repeat constructor; by vm_compute|].
  rewrite Hrun' in *. exists cs. split; [done|]. split; [done|]. split; [exact Hl|].
  pose proof (resident_size _ _ _ _ _ (si_resident _ _ _ _ _ (li_store _ _ _ _ _ _ I'))) as Hcs. rewrite Hsize in Hcs.
  inversion Ha as [|l0 o0 r1 l1 ops0 rs0 l2 Ha1 Ha2]; subst. inversion Ha2 as [|l3 o3 r2 l4 ops3 rs3 l5 Ha3 Ha4]; subst.
  inversion Ha4; subst. inversion Ha1 as [l6 p1 rc1 l7 pr1 Hw1| | | |]; subst.
  inversion Ha3 as [l8 p2 rc2 l9 pr2 Hw2| | | |]; subst. injection Hreplies as -> ->.
  apply first_write in Hw1 as ->; [|by apply (bool_decide_eq_false_1 _), eq_refl].
  apply second_segment in Hw2 as Hv; [by rewrite Hv|by apply (bool_decide_eq_false_1 _), eq_refl|].
  unfold view. rewrite length_fmap. exact Hcs.
Qed.

Lemma left_unsynced_stays_hidden_witness :
  ∃ rs lg' pr', run_log demo_synced_ops demo_synced_log demo_synced_process = Ok (rs, lg', pr') ∧
    ∃ lg'', mqlog_read lg' 0 (Frame 0 0) pr' = Ok (ELNORD, Frame 0 0, lg'').
Proof.
  destruct demo_synced_state as (cs & I & Hb & Hl & Hp).
  apply (left_unsynced_stays_hidden "/log" 4096 0 demo_dir ltac:(lia) demo_mod ltac:(lia) demo_slots
    demo_synced_log demo_synced_process cs demo_synced_ops 0 (zeros 100)).
  - exact I.
  - exact Hb.
  - change (zlen demo_synced_ops) with 3. unfold max_offset. lia.
  - repeat constructor; by vm_compute.
  - lia.
  - exact Hp.
Defined.
