(* ===== verification/MqlogDurable.v ===== *)
(** * The log: closing and opening again

    What [mqlog_close] leaves on disk, and what [mqlog_open] makes of it. *)

From Stdlib Require Import Ascii.
From S2P Require Import Prelude Errno Prot Posix Util Segment SegmentInv SegmentOps SegmentSpec MemOs MbptreeIndex.
From S2P Require Import SegmentFile SegmentFileSpec SegmentDurable SegmentFrame.
From S2P Require Import Index Pthread Mqlog MqlogInv MqlogSynced MqlogOps MqlogOpen MqlogSpec.

Section durable.
Context {W T It M : Type}.
Context `{!Posix W, !PosixLaws W, !Index T It, !IndexLaws T It, !Pthread M, !PthreadLaws M}.
Context {mode : Mode}.
Context (dir : string) (sz lo : Z).
Context (Hdir : dir_ok dir) (Hsz : 0 ≤ sz < 2 ^ 32) (Hmod : sz mod os_pagesize = 0).
Context (Hlo : 0 ≤ lo).
Implicit Types (lg : mqlog T M) (pr : process W).
Abbreviation chunk_ok := (chunk_ok dir sz lo).
Abbreviation resident := (resident dir sz lo).
Abbreviation log_inv := (log_inv dir sz lo).

(** ** The log on disk *)

Definition chunk_stored (w : W) (b : Z) (c : chunk) : Prop :=
  stored w dir b sz (c_items c) ∧ c_items c ≠ [] ∧ Forall (payload_ok sz lo) (c_items c).

(** A closed chunk is, when the index file has a slot after its payloads. *)
Definition chunk_closed (w : W) (b : Z) (c : chunk) : Prop :=
  slots sz (zlen (c_items c)) → chunk_stored w b c.

(** Every index file has one: then the segments can be opened again. *)
Definition reopenable (cs : list chunk) : Prop := Forall (λ c, slots sz (zlen (c_items c))) cs.

(** The chunks in their files, and no file after them. *)
Record log_stored (w : W) (cs : list chunk) : Prop := {
  ls_chunks : chunks_ok (chunk_stored w) 0 cs;
  ls_fresh : fresh_from dir sz w (zlen (items cs))
}.

(** ** Closing one segment *)

(** What closing the segment at [b], of address [a], leaves alone. *)
Record closes (b a : Z) pr pr' : Prop := {
  cl_files : elsewhere dir b (pr_os pr) (pr_os pr');
  cl_maps : keeps_maps dir b (pr_os pr) (pr_os pr');
  cl_segments x : x ≠ a → pr_segments pr' !! x = pr_segments pr !! x;
  cl_blocks x : x ≠ a → x ∈ v_blocks (ps_view (pr_os pr)) → x ∈ v_blocks (ps_view (pr_os pr'));
  cl_stdin : is_Some (v_fds (ps_view (pr_os pr)) !! 0) → is_Some (v_fds (ps_view (pr_os pr')) !! 0)
}.

Lemma close_one pr b c :
  chunk_ok pr b c → c_items c ≠ [] →
  ∃ rc pr', close_segment (c_addr c) pr = Ok (rc, pr') ∧ closes b (c_addr c) pr pr' ∧
    (rc = 0 → chunk_closed (pr_os pr') b c ∧ pr_segments pr' !! c_addr c = None).
Proof using Hdir Hlo Hmod Hsz.
  intros [[sgm [Hs I Hat Hsize Hbase Hfl [Hif Hdf]]] Hps] Hne.
  unfold close_segment, deref_segment. rewrite Hs. simpl of_option. rewrite bind_Ok.
  destruct (segment_close (c_addr c) sgm (pr_os pr)) as [[rc sgm'] w'] eqn:Ec.
  destruct (segment_close_elsewhere _ _ _ _ _ _ _ _ Hat Ec) as (He & Hm & Hrc).
  eexists _, _. split; [done|].
  destruct Hrc as [->|Hneg].
  - destruct (segment_close_held _ _ _ _ _ _ _ Hat Ec) as [_ Hh].
    unfold held in Hh. injection Hh as Hf' Hm' Hb' _. split.
    + split; simpl; try done.
      * intros x Hx. by apply lookup_delete_ne.
      * intros x Hx. rewrite Hb'. set_solver.
      * rewrite Hf'. by rewrite !lookup_delete_ne.
    + intros _. split; [|apply lookup_delete_eq]. intros Hsl. split; [|done].
      by apply (segment_close_stored _ _ _ _ _ _ _ _ _ _ Hat I (or_introl Hne) Hsize Hsl Ec).
  - rewrite (proj2 (Z.ltb_lt _ _)) by done. split; [|lia].
    pose proof (segment_close_failed _ _ _ _ _ _ _ _ Hat Ec Hneg) as Hh.
    unfold held in Hh. injection Hh as Hf' Hm' Hb' _. split; simpl; try done.
    + intros x Hx. by apply lookup_insert_ne.
    + by rewrite Hb'.
    + by rewrite Hf'.
Qed.

(** ** Closing them all *)

Lemma chunk_ok_closes b b' c a pr pr' :
  closes b a pr pr' → chunk_ok pr b' c → b ≠ b' → 0 ≤ b < 2 ^ 64 → c_addr c ≠ a →
  chunk_ok pr' b' c.
Proof using Type.
  intros Hcl Hc Hne Hb Ha. apply (chunk_ok_other _ _ _ _ _ b b' c Hc); [done|done|apply Hcl..|].
  by apply Hcl.
Qed.

Lemma chunk_stored_elsewhere w w' b b' c :
  elsewhere dir b w w' → b ≠ b' → 0 ≤ b < 2 ^ 64 → 0 ≤ b' < 2 ^ 64 →
  chunk_stored w b' c → chunk_stored w' b' c.
Proof using Type. intros He ? ? ? [Hst ?]. split; [|done]. by eapply stored_elsewhere. Qed.

Lemma chunk_closed_elsewhere w w' b b' c :
  elsewhere dir b w w' → b ≠ b' → 0 ≤ b < 2 ^ 64 → 0 ≤ b' < 2 ^ 64 →
  chunk_closed w b' c → chunk_closed w' b' c.
Proof using Type. intros He ? ? ? Hc Hsl. by apply (chunk_stored_elsewhere w w' b), Hc. Qed.

(** The segments [cs] are closed. *)
Record closed pr (cs : list chunk) : Prop := {
  cd_stored : chunks_ok (chunk_closed (pr_os pr)) 0 cs;
  cd_gone c : c ∈ cs → pr_segments pr !! c_addr c = None
}.

Lemma closed_snoc pr pr' cs c (b := zlen (items cs)) :
  closed pr cs → closes b (c_addr c) pr pr' → nonempty_chunks cs → 0 ≤ b < 2 ^ 64 →
  (∀ c', c' ∈ cs → c_addr c' ≠ c_addr c) →
  chunk_closed (pr_os pr') b c → pr_segments pr' !! c_addr c = None → closed pr' (cs ++ [c]).
Proof using Type.
  intros [Hst Hgone] Hcl Hne Hb Hndc Hstc Hnone. split.
  - apply chunks_ok_app. rewrite Z.add_0_l. split; [|simpl; by fold b].
    eapply chunks_ok_impl; [|exact Hst]. intros c' cs3 cs4 Heq Hc'. rewrite Z.add_0_l in *.
    assert (zlen (items cs3) < b).
    { unfold b. rewrite Heq. apply items_nonempty. by rewrite <- Heq. }
    apply (chunk_closed_elsewhere (pr_os pr) _ b); [apply Hcl|lia..|done].
  - intros c' [Hin|Hin]%elem_of_app.
    + rewrite (cl_segments _ _ _ _ Hcl); [by apply Hgone|]. by apply Hndc.
    + apply list_elem_of_singleton in Hin as ->. done.
Qed.

(** What closing the segments [cs] and none after offset [n] keeps. *)
Record keeps (n : Z) (cs : list chunk) pr pr' : Prop := {
  kp_fresh m : n ≤ m → fresh_from dir sz (pr_os pr) m → fresh_from dir sz (pr_os pr') m;
  kp_stdin : is_Some (v_fds (ps_view (pr_os pr)) !! 0) → is_Some (v_fds (ps_view (pr_os pr')) !! 0);
  kp_segments a : a ∉ c_addr <$> cs → pr_segments pr' !! a = pr_segments pr !! a
}.

Lemma keeps_cons n b c cs pr pr1 pr' :
  closes b (c_addr c) pr pr1 → 0 ≤ b < n → n < max_offset → keeps n cs pr1 pr' →
  keeps n (c :: cs) pr pr'.
Proof using Type.
  unfold max_offset. intros Hcl Hb Hn [Hfr Hfd Hseg]. split.
  - intros m Hm Hf. apply Hfr; [done|]. intros off Hoff. unfold max_offset in Hoff.
    apply (stored_elsewhere (pr_os pr) _ dir b); [apply Hcl|lia..|]. apply Hf. unfold max_offset. lia.
  - intros H0. by apply Hfd, Hcl.
  - intros a [Hac Ha]%not_elem_of_cons. rewrite Hseg by done. by apply Hcl.
Qed.

Lemma NoDup_addrs cs1 c cs2 c' :
  NoDup (c_addr <$> (cs1 ++ c :: cs2)) → c' ∈ cs1 ++ cs2 → c_addr c' ≠ c_addr c.
Proof using Type.
  rewrite fmap_app. simpl. intros (_ & Hd & Hnd2)%NoDup_app Hin Heq.
  apply NoDup_cons in Hnd2 as [Hd2 _]. apply elem_of_app in Hin as [Hin|Hin].
  - apply (Hd (c_addr c')); [by apply list_elem_of_fmap_2|rewrite Heq; left].
  - apply Hd2. rewrite <- Heq. by apply list_elem_of_fmap_2.
Qed.

Lemma closed_stored pr cs : closed pr cs → reopenable cs → chunks_ok (chunk_stored (pr_os pr)) 0 cs.
Proof using Type.
  intros [Hst _] Hr. eapply chunks_ok_impl; [|exact Hst]. intros c cs1 cs2 -> Hc. apply Hc.
  by apply Forall_app in Hr as [_ [Hsl _]%Forall_cons].
Qed.

Lemma close_loop_ok (t : T) cs2 : ∀ cs1 (it : It) errors fuel pr (n := zlen (items (cs1 ++ cs2))),
  ix_at t it (keys (zlen (items cs1)) cs2) → chunks_ok (chunk_ok pr) (zlen (items cs1)) cs2 →
  nonempty_chunks (cs1 ++ cs2) → NoDup (c_addr <$> (cs1 ++ cs2)) → n < max_offset →
  0 ≤ errors → (errors = 0 → closed pr cs1) → (length cs2 < fuel)%nat →
  ∃ e pr', close_loop fuel t it errors pr = Ok (e, pr') ∧ 0 ≤ e ∧
    (e = 0 → closed pr' (cs1 ++ cs2)) ∧ keeps n cs2 pr pr'.
Proof using All.
  induction cs2 as [|c cs2 IH]; intros cs1 it errors fuel pr n Hat Hcs Hne Hnd Hn Herr Hhalf Hfuel;
    (destruct fuel as [|fuel]; [simpl in Hfuel; lia|]); cbn [close_loop];
    run (law_valid _ _ _ Hat).
  { exists errors, pr. rewrite app_nil_r. split_and!; done. }
  cbn [keys] in *. rewrite bool_decide_eq_false_2 by done. cbn [negb].
  run (law_value _ _ _ _ Hat). cbn [snd chunks_ok] in *. destruct Hcs as [Hc Hcs].
  set (b := zlen (items cs1)) in *. unfold n in *.
  pose proof (items_nonempty _ _ _ Hne) as Hlt. fold b in Hlt.
  assert (Hnec : c_items c ≠ []).
  { apply Forall_app in Hne as [_ Hne]. by apply Forall_cons in Hne as [? _]. }
  destruct (close_one pr b c Hc Hnec) as (rc & pr1 & Hrun & Hcl & Hok). run Hrun.
  destruct (law_next _ _ _ _ Hat) as (it' & Hnext & Hat'). run Hnext.
  pose proof (λ c', NoDup_addrs cs1 c cs2 c' Hnd) as Hndc.
  assert (Hb' : zlen (items (cs1 ++ [c])) = b + zlen (c_items c)).
  { rewrite items_app, items_single, length_app. unfold b. lia. }
  rewrite <- Hb' in Hcs, Hat'.
  assert (Hmid : cs1 ++ c :: cs2 = (cs1 ++ [c]) ++ cs2) by (by rewrite <- app_assoc).
  rewrite Hmid in *. unfold max_offset in Hn.
  destruct (IH (cs1 ++ [c]) it' (if negb (rc =? 0) then errors + 1 else errors) fuel pr1)
    as (e & pr' & Hloop & He & Hdone & Hk); try done.
  - eapply chunks_ok_impl; [|exact Hcs]. intros c' cs3 cs4 Heq Hc'.
    apply (chunk_ok_closes b _ _ _ _ _ Hcl Hc'); [|lia|].
    + rewrite Hb'. destruct (c_items c); [done|simpl; lia].
    + apply Hndc. rewrite Heq. apply elem_of_app. right. apply elem_of_app. right. left.
  - destruct (negb (rc =? 0)); lia.
  - destruct (Z.eqb_spec rc 0) as [->|]; cbn [negb]; [|lia]. intros He.
    destruct (Hok eq_refl) as [Hstc Hnone]. apply (closed_snoc pr pr1 cs1 c (Hhalf He)); try done.
    + apply Forall_app in Hne as [Hne _]. by apply Forall_app in Hne as [Hne _].
    + fold b. lia.
    + intros c' Hin. apply Hndc, elem_of_app. by left.
  - simpl in Hfuel. lia.
  - exists e, pr'. split; [done|]. split; [done|]. split; [done|].
    apply (keeps_cons _ b c cs2 pr pr1); [done|lia|unfold max_offset; lia|done].
Qed.

(** *** [mqlog_close] *)

Lemma floor_zero cs rest :
  nonempty_chunks cs → floor_entries 0 (keys 0 cs) rest → rest = keys 0 cs.
Proof using Type.
  intros Hne Hf. inversion Hf as [kvs Hall Heq Hr|before kv after Hle Hall Heq]; subst.
  - destruct cs as [|c cs]; [done|]. inversion Hall. simpl in *. lia.
  - symmetry in Heq. destruct (keys_lookup _ _ _ _ _ Heq) as (cs1 & c & cs2 & -> & -> & ->).
    destruct cs1 as [|c1 cs1]; [done|].
    exfalso. apply Forall_cons in Hne as [Hc1 _]. simpl in Hle. rewrite length_app in Hle.
    destruct (c_items c1); [done|simpl in Hle; lia].
Qed.

Lemma close_log p lg pr cs :
  resident pr cs → nonempty_chunks cs → indexed dir sz lg cs → mutex_free (lg_lock lg) → zlen (items cs) < max_offset →
  ∃ rc pr', mqlog_close p lg pr = Ok (rc, pr') ∧ (rc = 0 ∨ rc = ELLGCLS) ∧
    (rc = 0 → closed pr' cs ∧ pr_segments pr' = ∅ ∧ keeps (zlen (items cs)) cs pr pr').
Proof using All.
  intros [Hcs Hnd Honly Hbl H0] Hne [(t & Ht & Hst) _ _ _] Hlock Hn. unfold mqlog_close. rewrite Ht.
  destruct (law_mutex_destroy _ Hlock) as (rcd & md & Hdes). rewrite Hdes.
  destruct (law_first _ _ Hst) as (it & rest & Hf & Hat & Hrest). run Hf.
  apply floor_zero in Hrest; [|done]. subst rest.
  assert (Hfuel : (length cs < S (base.size (pr_segments pr)))%nat).
  { rewrite <- (length_fmap c_addr). apply Nat.lt_succ_r, length_le_size; [done|].
    intros a (c & -> & (cs1 & cs2 & ->)%list_elem_of_split)%list_elem_of_fmap.
    apply chunks_ok_at in Hcs as [[sgm Hl] _]. apply elem_of_dom. exists sgm. apply Hl. }
  assert (Hnil : closed pr []) by (split; [done|]; by intros c ?%elem_of_nil).
  destruct (close_loop_ok t cs [] it 0 _ pr Hat Hcs Hne Hnd Hn (Z.le_refl 0) (λ _, Hnil) Hfuel)
    as (e & pr' & Hrun & He & Hdone & Hk).
  run Hrun. run (law_free_index _ _ Hst). cbn [Z.eqb negb].
  eexists _, _. split; [done|]. destruct (Z.eqb_spec e 0) as [->|]; [|split; [by right|done]].
  split; [by left|]. intros _. specialize (Hdone eq_refl).
  assert (Hfiles : v_files (ps_view (os_free p (pr_os pr'))) = v_files (ps_view (pr_os pr')))
    by (by rewrite os_free_view).
  destruct Hdone as [Hst' Hgone]. destruct Hk as [Hfr Hfd Hseg]. split_and!.
  - split; [|done]. eapply chunks_ok_impl; [|exact Hst']. intros c cs1 cs2 _ Hc Hsl. destruct (Hc Hsl) as [Hs ?]. split; [|done].
    eapply stored_same; [..|exact Hs]; unfold data_on_disk, index_on_disk; simpl; by rewrite Hfiles.
  - simpl. apply map_eq. intros a. rewrite lookup_empty. destruct (decide (a ∈ c_addr <$> cs)) as [Hin|Hin].
    + apply list_elem_of_fmap in Hin as (c & -> & Hin). by apply Hgone.
    + rewrite Hseg by done. destruct (pr_segments pr !! a) eqn:Ha; [|done]. destruct Hin. by apply Honly.
  - split; simpl; [|by rewrite os_free_view|done].
    intros m Hm Hf' off Hoff. eapply stored_same; [..|by apply (Hfr m Hm Hf')];
      unfold data_on_disk, index_on_disk; simpl; by rewrite Hfiles.
Qed.

(** ** Loading the segments *)

(** A segment with payloads has a data file, of the size of the segment. *)
Lemma stored_file w b ps :
  stored w dir b sz ps → ps ≠ [] →
  ∃ c, v_files (ps_view w) !! path_in dir (data_name b) = Some c ∧ zlen c = sz.
Proof using Hsz.
  intros [Hlen Hfr _ Hroom _ _] Hne. unfold data_on_disk in *.
  assert (Hz : zeros sz ≠ sized sz (v_files (ps_view w) !! path_in dir (data_name b))).
  { intros Heq. rewrite <- Heq in Hfr. destruct ps as [|p ps]; [done|].
    change (frames (p :: ps)) with (header_bytes (frame_header p) ++ p ++ frames ps) in Hfr.
    destruct Hfr as [k Hk]. rewrite <- !app_assoc in Hk.
    pose proof (get_flags_encoded [] (p ++ frames ps ++ k) (frame_header p)) as Hfl.
    cbn [app length] in Hfl. rewrite <- Hk, get_flags_zeros in Hfl; [|size_lia].
    change (frames (p :: ps)) with (frame_bytes p ++ frames ps) in Hroom.
    rewrite length_app, Nat2Z.inj_add, zlen_frame_bytes in Hroom.
    specialize (Hfl (frame_header_ok p ltac:(size_lia))). done. }
  destruct (v_files (ps_view w) !! path_in dir (data_name b)) as [[|x c]|]; [done| |done].
  by exists (x :: c).
Qed.

(** The names of the data files of the chunks, in order of their offsets, among
    the names a directory lists. *)
Definition data_names (b : Z) (cs : list chunk) : list string := data_name <$> (keys b cs).*1.
Definition lists (names : list string) (cs : list chunk) : Prop :=
  filter (λ n, has_suffix n ".log" = true) names = data_names 0 cs.

Lemma load_loop_filter names : ∀ lg pr,
  load_loop names lg pr = load_loop (filter (λ n, has_suffix n ".log" = true) names) lg pr.
Proof using Type.
  induction names as [|n names IH]; intros lg pr; [done|]. rewrite filter_cons.
  destruct (decide (has_suffix n ".log" = true)) as [Hn|Hn].
  - cbn [load_loop]. destruct (load_segment n lg pr) as [[[[rc|] lg1] pr1]| |]; simpl; auto.
  - rewrite <- IH. cbn [load_loop]. unfold load_segment.
    destruct (has_suffix n ".log"); [done|]. by rewrite bind_Ok.
Qed.

(** The path of a file of the log, as [load_segments] writes it. *)
Hypothesis Hslash : last_char dir ≠ Ok "/"%char.

Lemma load_path b :
  (snprintf MAX_DIR_SIZE (dir +:+ "/" +:+ data_name b)).2 = path_in dir (data_name b).
Proof using Hdir Hslash.
  pose proof Hdir as [Hne Hl]. pose proof (print_jd_length b).
  rewrite snprintf_fits.
  2:{ unfold MAX_DIR_SIZE, data_name. rewrite !string_length_app. simpl. lia. }
  unfold path_in. destruct (last_char_Ok dir Hne) as [ch Hch]. rewrite Hch in *.
  rewrite bool_decide_eq_false_2; [done|]. by intros ->.
Qed.

Lemma load_name b : (snprintf MAX_DIR_SIZE (data_name b)).2 = data_name b.
Proof using Type.
  pose proof (print_jd_length b). rewrite snprintf_fits; [done|].
  unfold MAX_DIR_SIZE, data_name. rewrite string_length_app. simpl. lia.
Qed.

Lemma load_one lg pr cs c (N := zlen (items cs)) :
  resident pr cs → nonempty_chunks cs → indexed dir sz lg cs → N < max_offset →
  chunk_stored (pr_os pr) N c →
  ∃ rc lg' pr', load_segment (data_name N) lg pr = Ok (rc, lg', pr') ∧
    touched dir N sz (pr_os pr) (pr_os pr') ∧ v_dirs (ps_view (pr_os pr')) = v_dirs (ps_view (pr_os pr)) ∧
    lg_lock lg' = lg_lock lg ∧
    match rc with
    | None => ∃ a, resident pr' (cs ++ [Chunk a (c_items c) false]) ∧
        indexed dir sz lg' (cs ++ [Chunk a (c_items c) false]) ∧
        (synced_to_end pr cs → synced_to_end pr' (cs ++ [Chunk a (c_items c) false]))
    | Some rc => rc = ELLDSGM ∧ resident pr' cs ∧ indexed dir sz lg' cs ∧
        (synced_to_end pr cs → synced_to_end pr' cs)
    end.
Proof using All.
  intros Hres Hne Hix HN (Hst & Hnec & Hps). unfold max_offset in HN. unfold load_segment.
  unfold data_name at 1. rewrite has_suffix_app.
  destruct Hix as [(t & Ht & Hts) Hd Hs Hf]. rewrite Hd, load_path. unfold file_size.
  destruct (stored_file _ _ _ Hst Hnec) as (dat & Hfile & Hlen).
  destruct (os_stat _ (pr_os pr)) as [n|] eqn:Hstat.
  2:{ cbn [Z.eqb Pos.eqb]. exists (Some ELLDSGM), lg, pr. split; [done|]. split; [done|]. split; [done|].
      split; [done|]. split; [done|]. split; [done|]. split; [split; try done; by exists t|done]. }
  pose proof (law_stat _ _ _ _ Hstat Hfile). rewrite (proj2 (Z.eqb_neq n (-1))) by lia.
  assert (Hoff : u64 (strtoll (data_name N)) = N) by (apply strtoll_print_jd; lia).
  rewrite load_name, Hoff.
  replace n with sz by lia.
  destruct (open_segment_ok dir sz lo Hdir Hsz Hmod (lg_flags lg) pr cs (c_items c) Hres Hne)
    as (rc & a & pr' & Hrun & Htouch & Hdirs & Hsub & Hsync & Hcase); try done.
  fold N in Hrun. run Hrun. destruct Hcase as [[-> Hres']|[Hrc Hres']]; cbn [Z.eqb negb].
  2:{ rewrite (proj2 (Z.eqb_neq rc 0)) by (intros ->; set_solver). cbn [negb].
      exists (Some ELLDSGM), lg, pr'. split_and!; try done; [split; try done; by exists t|].
      intros Hs1. apply (synced_to_end_weaken pr); [done|by eapply resident_present|done]. }
  unfold the_index. rewrite Ht. simpl of_option. rewrite bind_Ok.
  destruct (law_append t _ N a Hts) as (t' & Ha & Hts'); [by apply (keys_below cs 0)|].
  run Ha. change (0 =? ELIDXPC) with false. cbn [Z.eqb negb].
  exists None, (set_lg_index t' lg), pr'. split_and!; try done. exists a. split; [done|].
  split; [split; try done; exists t'; split; [done|]; by rewrite keys_snoc|].
  intros Hs1. apply Forall_app. split; [|apply Forall_singleton; intros sgm; by apply Hsync].
  apply (synced_to_end_weaken pr); [done|by eapply resident_present|done].
Qed.

Lemma load_all cs2 : ∀ cs1 lg pr (n := zlen (items (cs1 ++ cs2))),
  resident pr cs1 → nonempty_chunks cs1 → indexed dir sz lg cs1 → n < max_offset →
  chunks_ok (chunk_stored (pr_os pr)) (zlen (items cs1)) cs2 → fresh_from dir sz (pr_os pr) n →
  ∃ rc lg' pr' cs, load_loop (data_names (zlen (items cs1)) cs2) lg pr = Ok (rc, lg', pr') ∧
    resident pr' cs ∧ nonempty_chunks cs ∧ indexed dir sz lg' cs ∧ lg_lock lg' = lg_lock lg ∧
    zlen (items cs) ≤ n ∧ fresh_from dir sz (pr_os pr') n ∧ v_dirs (ps_view (pr_os pr')) = v_dirs (ps_view (pr_os pr)) ∧
    (synced_to_end pr cs1 → synced_to_end pr' cs) ∧
    (rc = ELLDSGM ∨ rc = 0 ∧ items cs = items (cs1 ++ cs2)).
Proof using All.
  induction cs2 as [|c cs2 IH]; intros cs1 lg pr n Hres Hne Hix Hn Hcs Hfr.
  { exists 0, lg, pr, cs1. unfold n in *. rewrite app_nil_r in *. split_and!; try done. by right. }
  cbn [chunks_ok] in Hcs. destruct Hcs as [Hc Hcs]. set (b := zlen (items cs1)) in *.
  assert (Hlen : n = b + zlen (c_items c) + zlen (items cs2)).
  { unfold n, b. rewrite items_app, items_cons, !length_app. lia. }
  assert (Hnec : c_items c ≠ []) by apply Hc.
  unfold data_names. cbn [keys]. rewrite !fmap_cons. cbn [fst load_loop].
  fold (data_names (b + zlen (c_items c)) cs2).
  destruct (load_one lg pr cs1 c Hres Hne Hix) as (rc & lg1 & pr1 & Hrun & Ht & Hdirs & Hlock & Hcase);
    [lia|done|].
  fold b in Hrun, Ht. run Hrun. unfold max_offset in Hn.
  assert (Hfr1 : fresh_from dir sz (pr_os pr1) n).
  { apply (fresh_touched _ _ (pr_os pr) _ b); [done|unfold max_offset; lia|lia|done]. }
  destruct rc as [rc|].
  { destruct Hcase as (-> & Hres1 & Hix1 & Hs1). exists ELLDSGM, lg1, pr1, cs1.
    split_and!; try done; [fold b; lia|by left]. }
  destruct Hcase as (a & Hres1 & Hix1 & Hsync1). set (c1 := Chunk a (c_items c) false) in *.
  assert (Hit : items (cs1 ++ [c1]) = items (cs1 ++ [c])).
  { by rewrite !items_app, !items_single. }
  assert (Hb' : zlen (items (cs1 ++ [c1])) = b + zlen (c_items c)).
  { rewrite items_app, items_single, length_app. unfold b. simpl. lia. }
  assert (Htot : items ((cs1 ++ [c1]) ++ cs2) = items (cs1 ++ c :: cs2)).
  { by rewrite items_app, Hit, <- items_app, <- app_assoc. }
  rewrite <- Hb' in Hcs |- *. rewrite <- Hlock, <- Hdirs.
  destruct (IH (cs1 ++ [c1]) lg1 pr1) as (rc & lg2 & pr2 & cs & Hrun2 & Hl); rewrite ?Htot; try done.
  - apply Forall_app. split; [done|]. by apply Forall_singleton.
  - eapply chunks_ok_impl; [|exact Hcs]. intros c' cs3 cs4 Heq (Hs & Hrest). split; [|done].
    rewrite Hb' in *. eapply stored_touched; [exact Ht|lia| |done].
    rewrite Heq, items_app, length_app in Hlen. lia.
  - rewrite Htot in Hl. exists rc, lg2, pr2, cs. split; [done|]. naive_solver.
Qed.

(** ** Opening a stored log *)

(** The directory lists the data files of the chunks in order. *)
Definition listed (w : W) (cs : list chunk) : Prop := listing dir w (λ names, lists names cs).

Lemma log_stored_files w w' cs :
  v_files (ps_view w') = v_files (ps_view w) → log_stored w cs → log_stored w' cs.
Proof using Type.
  intros Hf [Hcs Hfr]. split.
  - eapply chunks_ok_impl; [|exact Hcs]. intros c cs1 cs2 _ [Hs ?]. split; [|done].
    eapply stored_same; [..|exact Hs]; unfold data_on_disk, index_on_disk; by rewrite Hf.
  - intros off Hoff. eapply stored_same; [..|by apply (Hfr off)];
      unfold data_on_disk, index_on_disk; by rewrite Hf.
Qed.

Lemma open_stored flags pr cs :
  log_stored (pr_os pr) cs → pr_segments pr = ∅ → is_Some (v_fds (ps_view (pr_os pr)) !! 0) →
  listed (pr_os pr) cs → zlen (items cs) < max_offset → in_mode flags →
  ∃ rc o pr', mqlog_open dir sz flags pr = Ok (rc, o, pr') ∧
    match o with
    | Some (_, lg) => rc = 0 ∧ ∃ cs', log_inv lg pr' cs' ∧ items cs' = items cs ∧ synced_to_end pr' cs'
    | None => rc ∈ [ELLGDIR; ELALLC; ELLDSGM]
    end.
Proof using All.
  intros Hls Hsegs H0 Hlist Hn Hfl.
  destruct (open_loads dir sz lo Hdir Hmod flags pr _ Hsegs H0 Hfl Hlist)
    as [(rc & pr' & Hrc & Hrun)|(p & d & w & lg & names & Hnames & [Hf Hd Hres Hix Hlock] & Hrun)].
  { exists rc, None, pr'. split; [done|]. set_solver. }
  apply (log_stored_files _ w) in Hls; [|by rewrite Hf]. destruct Hls as [Hcs Hfr].
  destruct (load_all cs [] lg (Process w ∅) Hres (Forall_nil_2 _) Hix Hn Hcs Hfr)
    as (rc2 & lg' & pr' & cs' & Hload & Hres' & Hne' & Hix' & Hlock' & Hlen & Hfr' & Hdirs & Hsync & Hcase).
  rewrite load_loop_filter in Hrun. unfold lists in Hnames. rewrite Hnames in Hrun.
  change (zlen (items [])) with 0 in Hload. rewrite Hload in Hrun. rewrite <- Hlock' in Hlock. rewrite Hrun.
  destruct Hcase as [->|[-> Hit]].
  - destruct (close_log p lg' pr' cs' Hres' Hne' Hix' Hlock) as (rc3 & pr3 & Hclose & _); [simpl in Hlen; lia|].
    unfold finish_open. rewrite bind_Ok. change (negb (ELLDSGM =? 0)) with true. cbn iota. run Hclose.
    eexists _, None, _. split; [done|]. set_solver.
  - simpl in Hit. destruct (finish_stored dir sz lo p d lg' pr' cs' _ eq_refl) as (w' & Hfin & Hst').
    { by rewrite Hdirs. } { split; [done|]. by rewrite Hit. }
    rewrite Hfin. eexists _, _, _. split; [done|]. simpl. split; [done|]. exists cs'.
    split; [destruct Hix'; by split|]. split; [done|]. apply Hsync, Forall_nil_2.
Qed.

(** [mqlog_close] of a log returns 0 or [ELLGCLS]; when it returns
    0, every payload is in the files of its segment and no structure is left. *)
Theorem log_close_stores p lg pr cs :
  log_inv lg pr cs → zlen (items cs) < max_offset →
  ∃ rc pr', mqlog_close p lg pr = Ok (rc, pr') ∧ (rc = 0 ∨ rc = ELLGCLS) ∧
    (rc = 0 → reopenable cs → log_stored (pr_os pr') cs) ∧ (rc = 0 → pr_segments pr' = ∅).
Proof using All - Hslash.
  intros I Hn. destruct (li_store _ _ _ _ _ _ I) as [Hres Hfr].
  assert (Hix : indexed dir sz lg cs) by (by destruct I).
  destruct (close_log p lg pr cs Hres (li_nonempty _ _ _ _ _ _ I) Hix (li_lock _ _ _ _ _ _ I) Hn) as (rc & pr' & Hrun & Hrc & Hok).
  exists rc, pr'. split; [done|]. split; [done|]. split; [|by intros (_ & Hsegs & _)%Hok].
  intros (Hcl & _ & Hk)%Hok Hr. split; [by apply closed_stored|]. by apply Hk.
Qed.

(** The chunks of a log just opened show every payload as synced. *)
Lemma opened_view pr cs :
  resident pr cs → synced_to_end pr cs →
  Forall (sync_bounded pr) cs ∧ concat (view pr cs) = (λ p, (p, true)) <$> items cs.
Proof using Type.
  intros Hres Hs. assert (Hc : ∀ c, c ∈ cs → sync_bounded pr c ∧ shows pr c = (λ p, (p, true)) <$> c_items c).
  { intros c Hin. unfold synced_to_end in Hs. rewrite Forall_forall in Hs. specialize (Hs c Hin).
    apply list_elem_of_split in Hin as (cs1 & cs2 & ->). destruct Hres as [Hch _ _ _ _].
    apply chunks_ok_at in Hch as [[sgm Hl] _].
    apply (synced_to_end_shows pr c sgm); [apply Hl|by apply Hs, Hl|apply Hl]. }
  split; [apply Forall_forall; intros c Hin; by apply Hc|]. clear Hres Hs.
  induction cs as [|c cs IH]; [done|]. rewrite items_cons, fmap_app, <- IH.
  - simpl. f_equal. apply Hc. left.
  - intros c' Hin. apply Hc. by right.
Qed.

End durable.

Section reopen.
Context {W T It M : Type}.
Context `{!Posix W, !PosixLaws W, !Index T It, !IndexLaws T It, !Pthread M, !PthreadLaws M}.
Context (dir : string) (sz lo : Z).
Context (Hdir : dir_ok dir) (Hsz : 0 ≤ sz < 2 ^ 32) (Hmod : sz mod os_pagesize = 0).
Context (Hlo : 0 ≤ lo) (Hslash : last_char dir ≠ Ok "/"%char).
Implicit Types (lg : mqlog T M) (pr : process W).

(** [C10]: A log survives a restart: after [mqlog_close] returned 0,
    [mqlog_open] of the same directory and size, with or without [MQLOG_RDCMT]
    whatever the mode it was written in, gives a log of the same payloads at
    the same offsets, all of them as synced, or fails with an error of the
    system ([ELLGDIR], [ELALLC], [ELLDSGM]). Assumed: the log satisfies its
    invariant (payloads nonempty, fitting a segment, at least [lo] bytes, none
    imitating an end mark) with fewer than 2^63 - 2^32 payloads; each index
    file has a slot left after the payloads of its segment ([reopenable]),
    without which the scan of the index fails with [ELWOFFS]; [opendir]
    succeeds and the directory lists the data files in ascending order; the
    directory name has 1 to 200 characters and does not end in a slash; the
    size is a multiple of the page size below 2^32; descriptor 0 is open; the
    index never runs out of memory. *)
Theorem log_reopens (mode1 mode2 : Mode) p lg pr cs flags pr1 :
  log_inv (mode := mode1) dir sz lo lg pr cs → zlen (items cs) < max_offset → mqlog_close p lg pr = Ok (0, pr1) →
  reopenable sz cs → listed dir (pr_os pr1) cs → in_mode (mode := mode2) flags →
  ∃ rc o pr2, mqlog_open dir sz flags pr1 = Ok (rc, o, pr2) ∧
    match o with
    | Some (_, lg2) => rc = 0 ∧ ∃ cs2, log_inv (mode := mode2) dir sz lo lg2 pr2 cs2 ∧
        items cs2 = items cs ∧ concat (view pr2 cs2) = (λ x, (x, true)) <$> items cs
    | None => rc ∈ [ELLGDIR; ELALLC; ELLDSGM]
    end.
Proof using All.
  intros I Hn Hclose Hr Hlist Hfl. destruct (li_store _ _ _ _ _ _ I) as [Hres Hfr].
  assert (Hix : indexed (mode := mode1) dir sz lg cs) by (by destruct I).
  destruct (close_log (mode := mode1) dir sz lo Hdir Hsz Hmod Hlo p lg pr cs Hres (li_nonempty _ _ _ _ _ _ I) Hix
    (li_lock _ _ _ _ _ _ I) Hn) as (rc & pr' & Hrun & _ & Hok).
  rewrite Hclose in Hrun. injection Hrun as <- <-.
  destruct (Hok eq_refl) as (Hcl & Hsegs & Hk). pose proof (closed_stored _ _ _ _ _ Hcl Hr) as Hst.
  destruct (open_stored (mode := mode2) dir sz lo Hdir Hsz Hmod Hlo Hslash flags pr1 cs) as (rc & o & pr2 & Hrun & Ho); try done;
    [split; [done|by apply Hk]|by apply Hk, (rs_stdin _ _ _ _ _ Hres)|].
  exists rc, o, pr2. split; [done|]. destruct o as [[a lg2]|]; [|done].
  destruct Ho as (-> & cs2 & I2 & Hit & Hs2). split; [done|]. exists cs2. split; [done|]. split; [done|].
  rewrite <- Hit. eapply (opened_view (mode := mode2)); [apply I2|done].
Qed.
End reopen.

(** ** A concrete log *)

#[local] Existing Instance reads_written.

Definition demo_close : result (Z * process mem_os) := mqlog_close 3 demo_log1 demo_process1.
Definition demo_closed : process mem_os := match demo_close with Ok (_, pr) => pr | _ => demo_process end.

Lemma log_close_stores_witness :
  ∃ cs rc pr', items cs = [zeros 100] ∧ demo_close = Ok (rc, pr') ∧ (rc = 0 ∨ rc = ELLGCLS) ∧
    (rc = 0 → reopenable 4096 cs → log_stored "/log" 4096 0 (pr_os pr') cs) ∧ (rc = 0 → pr_segments pr' = ∅).
Proof.
  destruct demo_log1_inv as (cs & I & Hcs).
  destruct (log_close_stores "/log" 4096 0 demo_dir ltac:(lia) demo_mod ltac:(lia)
    3 demo_log1 demo_process1 cs I) as (rc & pr' & H).
  - rewrite Hcs. by vm_compute.
  - exists cs, rc, pr'. exact (conj Hcs H).
Defined.

Lemma demo_slash : last_char "/log" ≠ Ok "/"%char.
Proof. done. Qed.

(** A log of one payload has one segment. *)
Lemma demo_single cs p : nonempty_chunks cs → items cs = [p] → ∃ a e, cs = [Chunk a [p] e].
Proof.
  intros Hne Hcs. destruct cs as [|[a ps e] [|c' cs]]; [done| |].
  - rewrite items_single in Hcs. simpl in Hcs. subst ps. by exists a, e.
  - exfalso. apply Forall_cons in Hne as [Hc [Hc' _]%Forall_cons]. apply (f_equal length) in Hcs.
    rewrite !items_cons, !length_app, length_cons in Hcs.
    clear -Hc Hc' Hcs. destruct ps; [done|]. destruct (c_items c'); [done|]. simpl in Hcs. lia.
Qed.

(** What its directory lists. *)
Definition demo_listing (w : mem_os) : Z * list string :=
  let '(d, w) := os_opendir "/log" (os_malloc sizeof_mqlog (ensure_directory "/log" w).2).2 in
  (d, os_readdir d w).

Lemma demo_listed cs : nonempty_chunks cs → items cs = [zeros 100] → listed "/log" (pr_os demo_closed) cs.
Proof.
  intros Hne Hcs w1 p w2 d w3 H1 H2 H3.
  assert (Hl : demo_listing (pr_os demo_closed) = (3, ["0.idx"; "0.log"]%string)) by (by vm_compute).
  unfold demo_listing in Hl. rewrite H1 in Hl. cbn [snd] in Hl. rewrite H2 in Hl. cbn [snd] in Hl.
  rewrite H3 in Hl. apply pair_equal_spec in Hl as [-> Hl]. split; [done|]. unfold lists. rewrite Hl.
  destruct (demo_single cs _ Hne Hcs) as (a & e & ->). by vm_compute.
Qed.

Lemma log_reopens_witness :
  ∃ cs rc o pr2, items cs = [zeros 100] ∧
    mqlog_open "/log" 4096 MQLOG_RDCMT demo_closed = Ok (rc, o, pr2) ∧
    match o with
    | Some (_, lg2) => rc = 0 ∧ ∃ cs2, log_inv (mode := reads_synced) "/log" 4096 0 lg2 pr2 cs2 ∧
        items cs2 = items cs ∧ concat (view pr2 cs2) = (λ x, (x, true)) <$> items cs
    | None => rc ∈ [ELLGDIR; ELALLC; ELLDSGM]
    end.
Proof.
  destruct demo_log1_inv as (cs & I & Hcs).
  destruct (log_reopens "/log" 4096 0 demo_dir ltac:(lia) demo_mod ltac:(lia) demo_slash
    reads_written reads_synced 3 demo_log1 demo_process1 cs MQLOG_RDCMT demo_closed I) as (rc & o & pr2 & H).
  - rewrite Hcs. by vm_compute.
  - by vm_compute.
  - destruct (demo_single cs _ (li_nonempty _ _ _ _ _ _ I) Hcs) as (a & e & ->). repeat constructor. by vm_compute.
  - apply demo_listed; [apply I|exact Hcs].
  - by vm_compute.
  - exists cs, rc, o, pr2. exact (conj Hcs H).
Defined.
