(* ===== verification/MqlogErrors.v ===== *)
(** * The log: two ways to lose it

    A payload larger than a segment closes the log for good, and a log whose
    directory lists a later segment first cannot be opened again. The concrete
    runs are on the operating system of MemOs.v, with the tree of mbptree.c as
    the index. *)

From Stdlib Require Import Ascii.
From S2P Require Import Prelude Errno Prot Posix Util MemOs Segment SegmentInv SegmentOps SegmentSpec SegmentFile SegmentFileSpec SegmentDurable SegmentFrame SegmentStub.
From S2P Require Import Index Mbptree MbptreeIndex Pthread Mqlog MqlogInv MqlogSynced MqlogOps MqlogOpen MqlogSpec MqlogDurable.

(** ** A payload larger than a segment *)

Section oversized.
Context {W T It M : Type}.
Context `{!Posix W, !PosixLaws W, !Index T It, !IndexLaws T It, !Pthread M, !PthreadLaws M}.
Context {mode : Mode}.
Context (dir : string) (sz lo : Z).
Context (Hdir : dir_ok dir) (Hsz : 0 ≤ sz < 2 ^ 32) (Hmod : sz mod os_pagesize = 0) (Hslots : slots sz 1).
Context (Hsync : msync_works (W := W)).
Implicit Types (lg : mqlog T M) (pr : process W).
Abbreviation store_inv := (store_inv dir sz lo).
Abbreviation resident := (resident dir sz lo).
Abbreviation log_inv := (log_inv dir sz lo).
Abbreviation indexed := (indexed dir sz).

(** The payload fits no segment. *)
Definition oversized (q : bytes) : Prop := sz < 2 * header_size + zlen q ∧ zlen q < 2 ^ 63.

(** The last segment is closed, and the file of the next one holds nothing but
    an end mark. *)
Record bricked pr (cs : list chunk) : Prop := {
  br_resident : resident pr cs;
  br_nonempty : nonempty_chunks cs;
  br_closed c : last cs = Some c → c_eos c = true;
  br_offset : zlen (items cs) < max_offset;
  br_stub : stub dir (zlen (items cs)) sz (pr_os pr)
}.

(** Opening the next segment, writing to it and closing it again. *)
Lemma refused_segment lg pr cs q (N := zlen (items cs)) :
  resident pr cs → nonempty_chunks cs → N < max_offset → lg_dir lg = dir → lg_size lg = sz →
  zlen q < 2 ^ 63 → refuses dir N sz (pr_os pr) q →
  ∃ rc w', resident (Process w' (pr_segments pr)) cs ∧
    ('(rc, sgm, pr) ← create_segment N lg pr;
     if negb (rc =? 0) then Ok (rc, lg, pr)
     else
       '(written, pr) ← write_segment sgm q pr;
       if written =? ELEOS then '(_, pr) ← close_segment sgm pr; Ok (ELNOWCP, lg, pr)
       else index_segment sgm written lg pr) = Ok (rc, lg, Process w' (pr_segments pr)) ∧
    (rc = ELNOWCP ∧ stub dir N sz w' ∨ rc ∈ os_errors ∧ touched dir N sz (pr_os pr) w').
Proof using All.
  intros Hres Hne HN Hd Hs Hq Href. unfold create_segment, open_segment. rewrite Hd, Hs, u32_small by lia.
  set (fl := if _ : bool then SGM_RDCMT else SGM_RDDRT). pose proof (rs_stdin _ _ _ _ _ Hres) as H0.
  assert (Hoff : 0 ≤ N < 2 ^ 63 - 2 ^ 32) by (unfold max_offset in HN; lia).
  destruct (refused_once dir N sz Hdir Hsz Hmod Hoff Hslots fl (pr_os pr) q Hsync H0 Hq Href)
    as (rc & o & w1 & Hrun & Ho).
  assert (Hkeep : ∀ w', held w' = held (pr_os pr) → elsewhere dir N (pr_os pr) w' →
    resident (Process w' (pr_segments pr)) cs).
  { intros w' [= Hf Hm Hb _] He. apply (resident_elsewhere _ _ _ _ _ N); rewrite ?Hf, ?Hb; try done.
    intros k p. by rewrite Hm. }
  run Hrun. destruct o as [[a sgm]|].
  2:{ destruct Ho as (Hrc & Hh & Ht). exists rc, w1. split; [apply Hkeep; [done|apply Ht]|].
      rewrite bind_Ok, (proj2 (Z.eqb_neq rc 0)) by (intros ->; set_solver). split; [done|by right]. }
  destruct Ho as (-> & Ha & sgm' & sgm2 & w2 & Hw & Hc & Hst & Hh & He).
  assert (Hnew : pr_segments pr !! a = None).
  { apply not_elem_of_dom. intros Hin. by apply Ha, (rs_blocks _ _ _ _ _ Hres). }
  exists ELNOWCP, w2. split; [by apply Hkeep|]. split; [|by left].
  rewrite bind_Ok. cbn [Z.eqb negb]. unfold write_segment, deref_segment. simpl pr_segments.
  rewrite lookup_insert_eq. simpl of_option. rewrite bind_Ok. run Hw. rewrite Z.eqb_refl.
  unfold close_segment, deref_segment. simpl pr_segments. rewrite lookup_insert_eq. simpl of_option.
  rewrite bind_Ok. simpl pr_os. rewrite Hc. cbn [Z.ltb Z.compare]. rewrite bind_Ok.
  by rewrite insert_insert_eq, delete_insert_id.
Qed.

(** The last segment refuses what does not fit, and is closed. *)
Lemma oversized_last pr cs c q :
  store_inv pr (cs ++ [c]) → nonempty_chunks (cs ++ [c]) → oversized q →
  ∃ pr', write_segment (c_addr c) q pr = Ok (ELEOS, pr') ∧
    store_inv pr' (cs ++ [Chunk (c_addr c) (c_items c) true]).
Proof using Type.
  intros Hst Hne [Hbig Hq]. pose proof (rs_chunks _ _ _ _ _ (si_resident _ _ _ _ _ Hst)) as Hcs.
  apply chunks_ok_at in Hcs as [[sgm [Hs I Hat Hsize Hbase Hfl Hfds]] Hps].
  rewrite Z.add_0_l in Hat, Hbase. apply Forall_app in Hne as [Hne Hnec]. rewrite Forall_singleton in Hnec.
  unfold write_segment, deref_segment. rewrite Hs. simpl of_option. rewrite bind_Ok.
  assert (Hw : ∃ sgm', segment_write sgm q = Ok (ELEOS, sgm') ∧ same_segment sgm sgm' ∧
    seg_inv sgm' (c_items c) true).
  { pose proof (segment_write_inv _ _ _ q I Hq) as H.
    rewrite (payloads_forged _ _ _ Hps), orb_false_r in H. destruct (c_eos c); [by exists sgm|].
    rewrite used_false, Hsize, (proj2 (Z.gtb_lt _ _)) in H by lia.
    destruct H as (sgm' & ? & ? & ?). by exists sgm'. }
  destruct Hw as (sgm' & Hw & Hsame & I'). run Hw. eexists. split; [done|].
  apply store_update; try done.
  split; [|done]. exists sgm'. destruct Hsame. split; simpl; try congruence.
  - apply lookup_insert_eq.
  - by eapply attached_write.
Qed.

(** A closed one refuses everything. *)
Lemma closed_last pr cs c q :
  resident pr (cs ++ [c]) → c_eos c = true → write_segment (c_addr c) q pr = Ok (ELEOS, pr).
Proof using Type.
  intros Hres He. pose proof (rs_chunks _ _ _ _ _ Hres) as Hcs.
  apply chunks_ok_at in Hcs as [[sgm [Hs I _ _ _ _ _]] _].
  unfold write_segment, deref_segment. rewrite Hs. simpl of_option. rewrite bind_Ok.
  run (write_refused _ _ _ q I (eq_trans (f_equal (λ b, b || _)%bool He) eq_refl)).
  rewrite insert_id by done. by destruct pr.
Qed.

(** [mqlog_trywrite] when the last segment refuses. *)
Lemma trywrite_rolls lg pr pr1 cs cs' q (N := zlen (items cs')) :
  indexed lg cs → zlen (items cs') < max_offset → resident pr1 cs' →
  (cs = [] ∧ cs' = [] ∧ pr1 = pr ∨ ∃ cs0 c c', cs = cs0 ++ [c] ∧ cs' = cs0 ++ [c'] ∧ c_addr c' = c_addr c ∧
    write_segment (c_addr c) q pr = Ok (ELEOS, pr1)) →
  mqlog_trywrite lg q pr =
    ('(rc, sgm, pr) ← create_segment N lg pr1;
     if negb (rc =? 0) then Ok (rc, lg, pr)
     else
       '(written, pr) ← write_segment sgm q pr;
       if written =? ELEOS then '(_, pr) ← close_segment sgm pr; Ok (ELNOWCP, lg, pr)
       else index_segment sgm written lg pr).
Proof using Type.
  intros [(t & Ht & Hts) _ _ _] HN Hres Hcase. unfold mqlog_trywrite, the_index. rewrite Ht. simpl of_option.
  rewrite bind_Ok. run (law_last _ _ Hts). subst N.
  destruct Hcase as [(-> & -> & ->)|(cs0 & c & c' & -> & -> & Ha & Hw)]; [done|].
  rewrite keys_snoc, last_snoc. cbn [snd]. run Hw. rewrite Z.eqb_refl.
  destruct (last_offset _ _ _ _ _ _ Hres HN) as (sgm & Hs & Ho).
  unfold deref_segment at 1. rewrite <- Ha, Hs. simpl of_option. by rewrite bind_Ok, Ho.
Qed.

(** *** [mqlog_write] *)

Lemma write_locked lg q pr :
  mutex_free (lg_lock lg) → 0 < zlen q →
  ∃ m, ∀ rc pr', mqlog_trywrite (set_lg_lock m lg) q pr = Ok (rc, set_lg_lock m lg, pr') →
    ∃ m', mutex_free m' ∧ mqlog_write lg q pr = Ok (rc, set_lg_lock m' lg, pr').
Proof using Type.
  intros Hfree Hq. destruct (law_trylock_free _ Hfree) as (e & m & Hlock & Hheld). exists m.
  intros rc pr' Hrun. destruct (law_unlock _ Hheld) as (m' & Hun & Hfree'). exists m'. split; [done|].
  unfold mqlog_write. rewrite (proj2 (Z.eqb_neq _ _)) by lia. rewrite Hlock.
  change (0 =? EBUSY) with false. cbn [Z.eqb negb]. run Hrun. simpl lg_lock. by rewrite Hun.
Qed.

Lemma indexed_lock lg cs m : indexed lg cs → indexed (set_lg_lock m lg) cs.
Proof using Type. by intros []. Qed.

Lemma bricked_write lg pr cs q :
  indexed lg cs → mutex_free (lg_lock lg) → bricked pr cs → 0 < zlen q < 2 ^ 63 →
  ∃ rc m w' (pr' := Process w' (pr_segments pr)), mutex_free m ∧
    mqlog_write lg q pr = Ok (rc, set_lg_lock m lg, pr') ∧ bricked pr' cs ∧
    (rc = ELNOWCP ∨ rc ∈ os_errors).
Proof using All.
  intros Hix Hfree [Hres Hne Hcl HN Hst] Hq. destruct (write_locked lg q pr Hfree) as (m & Hm); [lia|].
  destruct (refused_segment (set_lg_lock m lg) pr cs q) as (rc & w' & Hres' & Hrun & Hcase);
    try (done || apply Hix); [lia|by left|].
  rewrite <- (trywrite_rolls (set_lg_lock m lg) pr pr cs cs q) in Hrun; [|by apply indexed_lock|done|done|].
  2:{ destruct cs as [|c cs _] using rev_ind; [by left|]. right. exists cs, c, c. split_and!; try done.
      apply (closed_last _ cs); [done|]. apply Hcl. by rewrite last_snoc. }
  destruct (Hm _ _ Hrun) as (m' & Hfree' & Hw). exists rc, m', w'. split; [done|]. split; [done|].
  split; [split; try done|naive_solver]. destruct Hcase as [[_ ?]|[_ Ht]]; [done|].
  by apply (stub_same _ _ _ _ _ Ht).
Qed.

(** Writes one after the other: their codes. *)
Fixpoint write_all (qs : list bytes) lg pr : result (list Z * mqlog T M * process W) :=
  match qs with
  | [] => Ok ([], lg, pr)
  | q :: qs =>
    '(rc, lg, pr) ← mqlog_write lg q pr;
    '(rcs, lg, pr) ← write_all qs lg pr;
    Ok (rc :: rcs, lg, pr)
  end.

Lemma bricked_writes qs : ∀ lg pr cs,
  indexed lg cs → mutex_free (lg_lock lg) → bricked pr cs → Forall (λ q, 0 < zlen q < 2 ^ 63) qs →
  ∃ rcs lg' pr', write_all qs lg pr = Ok (rcs, lg', pr') ∧ length rcs = length qs ∧
    Forall (λ rc, rc = ELNOWCP ∨ rc ∈ os_errors) rcs ∧ bricked pr' cs.
Proof using All.
  induction qs as [|q qs IH]; intros lg pr cs Hix Hfree Hb Hqs; cbn [write_all]; [by exists [], lg, pr|].
  apply Forall_cons in Hqs as [Hq Hqs].
  destruct (bricked_write lg pr cs q Hix Hfree Hb Hq) as (rc & m & w' & Hm & Hw & Hb' & Hrc). run Hw.
  destruct (IH (set_lg_lock m lg) _ cs (indexed_lock _ _ _ Hix) Hm Hb' Hqs) as (rcs & lg' & pr' & Hrun & Hl & Hrcs & Hb2).
  run Hrun. exists (rc :: rcs), lg', pr'. split_and!; [done|simpl; lia|by constructor|done].
Qed.

Lemma oversized_write lg pr cs q :
  log_inv lg pr cs → zlen (items cs) < max_offset → oversized q →
  ∃ rc m pr' cs' (lg' := set_lg_lock m lg), mqlog_write lg q pr = Ok (rc, lg', pr') ∧ mutex_free m ∧
    indexed lg' cs' ∧ items cs' = items cs ∧
    (rc ∈ os_errors ∧ log_inv lg' pr' cs' ∨ rc = ELNOWCP ∧ bricked pr' cs').
Proof using All.
  intros I HN Hq. pose proof Hq as [Hbig Hmax]. assert (Hix : indexed lg cs) by (by destruct I).
  assert (Hpos : 0 < zlen q).
  { pose proof (size_room sz Hsz Hslots). destruct (Z.eq_dec (zlen q) 0); [size_lia|lia]. }
  destruct (write_locked lg q pr (li_lock _ _ _ _ _ _ I) Hpos) as (m & Hm).
  destruct I as [Hst Hne _ Hfree _ _ _].
  assert (Hlast : ∃ pr1 cs', store_inv pr1 cs' ∧ nonempty_chunks cs' ∧ items cs' = items cs ∧ keys 0 cs' = keys 0 cs ∧
    (∀ c, last cs' = Some c → c_eos c = true) ∧
    (cs = [] ∧ cs' = [] ∧ pr1 = pr ∨ ∃ cs0 c c', cs = cs0 ++ [c] ∧ cs' = cs0 ++ [c'] ∧ c_addr c' = c_addr c ∧
      write_segment (c_addr c) q pr = Ok (ELEOS, pr1))).
  { destruct cs as [|c cs _] using rev_ind; [exists pr, []; split_and!; try done; by left|].
    destruct (oversized_last pr cs c q Hst Hne Hq) as (pr1 & Hw & Hst1).
    exists pr1, (cs ++ [Chunk (c_addr c) (c_items c) true]). split; [done|].
    apply Forall_app in Hne as [Hne Hnec]. rewrite Forall_singleton in Hnec.
    split; [apply Forall_app; by rewrite Forall_singleton|]. split; [by rewrite !items_app, !items_single|].
    split; [by rewrite !keys_snoc|]. split; [rewrite last_snoc; by intros ? [= <-]|].
    right. by eexists cs, c, _. }
  destruct Hlast as (pr1 & cs' & [Hres1 Hfr1] & Hne1 & Hit & Hk & Hcl & Hcase). rewrite <- Hit in HN |- *.
  assert (Hst1 : stored (pr_os pr1) dir (zlen (items cs')) sz []) by (apply Hfr1; lia).
  destruct (refused_segment (set_lg_lock m lg) pr1 cs' q) as (rc & w' & Hres' & Hrun & Hout);
    try (done || apply Hix); [by right|].
  rewrite <- (trywrite_rolls (set_lg_lock m lg) pr pr1 cs cs' q) in Hrun; [|by apply indexed_lock|done..].
  destruct (Hm _ _ Hrun) as (m' & Hfree' & Hw).
  assert (Hix' : indexed (set_lg_lock m' lg) cs').
  { apply indexed_lock. destruct Hix as [Hi ? ? ?]. split; try done. by rewrite Hk. }
  exists rc, m', (Process w' (pr_segments pr1)), cs'. split; [done|]. split; [done|]. split; [done|]. split; [done|].
  destruct Hout as [[-> Hstub]|[Hrc Ht]]; [right; by split|left]. split; [done|].
  destruct Hix' as [Hi ? ? ?]. split; try done. split; [done|].
  unfold max_offset in HN. apply (fresh_touched _ _ (pr_os pr1) _ (zlen (items cs'))); [done|unfold max_offset; lia|lia|done].
Qed.

(** [C30]: On any log at rest, a write of a payload that fits no segment
    (below 2^63 bytes) either fails with an error of the system and leaves the
    payloads of the log as they were, or it is refused with [ELNOWCP], leaves
    behind the last segment a file that holds nothing but an end mark, and the
    log takes nothing more: whatever is written next, any number of nonempty
    payloads of any size below 2^63, every write is refused with [ELNOWCP] or
    fails with an error of the system. Assumed: [msync] works; the size is a
    multiple of the page size below 2^32 whose index file has two slots; fewer
    than 2^63 - 2^32 payloads; descriptor 0 is open; the index never runs out
    of memory; the directory name has 1 to 200 characters. *)
Theorem oversized_write_bricks_log lg pr cs q :
  log_inv lg pr cs → zlen (items cs) < max_offset → oversized q →
  ∃ rc lg' pr' cs', mqlog_write lg q pr = Ok (rc, lg', pr') ∧ items cs' = items cs ∧
    (rc ∈ os_errors ∧ log_inv lg' pr' cs' ∨
     rc = ELNOWCP ∧ stub dir (zlen (items cs)) sz (pr_os pr') ∧
     ∀ qs, Forall (λ q, 0 < zlen q < 2 ^ 63) qs →
       ∃ rcs lg2 pr2, write_all qs lg' pr' = Ok (rcs, lg2, pr2) ∧ length rcs = length qs ∧
         Forall (λ rc, rc = ELNOWCP ∨ rc ∈ os_errors) rcs).
Proof using All.
  intros I HN Hq. destruct (oversized_write lg pr cs q I HN Hq) as (rc & m & pr' & cs' & Hw & Hm & Hix & Hit & Hout).
  exists rc, (set_lg_lock m lg), pr', cs'. split; [done|]. split; [done|].
  destruct Hout as [|[-> Hb]]; [by left|right]. split; [done|]. split; [rewrite <- Hit; apply Hb|].
  intros qs Hqs. destruct (bricked_writes qs _ _ cs' Hix Hm Hb Hqs) as (rcs & lg2 & pr2 & ? & ? & ? & _).
  by exists rcs, lg2, pr2.
Qed.
End oversized.

(** ** A directory listed out of order *)

Section unordered.
Context {W T It M : Type}.
Context `{!Posix W, !PosixLaws W, !Index T It, !IndexLaws T It, !Pthread M, !PthreadLaws M}.
Implicit Types (lg : mqlog T M) (pr : process W).

(** A log of segments at any offsets, given by its index entries. *)
Record closable lg pr (kvs : list (Z * Z)) : Prop := {
  cb_index : ∃ t, lg_index lg = Some t ∧ ix_stores t kvs;
  cb_addrs : NoDup kvs.*2;
  cb_present a : a ∈ kvs.*2 → a ∈ dom (pr_segments pr);
  cb_lock : mutex_free (lg_lock lg)
}.

Lemma close_segment_total a pr :
  a ∈ dom (pr_segments pr) → ∃ rc pr', close_segment a pr = Ok (rc, pr') ∧
    ∀ x, x ≠ a → x ∈ dom (pr_segments pr) → x ∈ dom (pr_segments pr').
Proof using Type.
  intros [sgm Hs]%elem_of_dom. unfold close_segment, deref_segment. rewrite Hs. simpl of_option. rewrite bind_Ok.
  destruct (segment_close a sgm (pr_os pr)) as [[rc sgm'] w']. eexists _, _. split; [done|].
  intros x Hx Hin. destruct (rc <? 0); simpl; set_solver.
Qed.

Lemma close_loop_total (t : T) rest : ∀ (it : It) errors fuel pr,
  ix_at t it rest → NoDup rest.*2 → (∀ a, a ∈ rest.*2 → a ∈ dom (pr_segments pr)) →
  (length rest < fuel)%nat → ∃ e pr', close_loop fuel t it errors pr = Ok (e, pr').
Proof using Type*.
  induction rest as [|kv rest IH]; intros it errors fuel pr Hat Hnd Hin Hfuel;
    (destruct fuel as [|fuel]; [simpl in Hfuel; lia|]); cbn [close_loop]; run (law_valid _ _ _ Hat);
    [by eexists _, _|].
  rewrite bool_decide_eq_false_2 by done. cbn [negb]. run (law_value _ _ _ _ Hat).
  rewrite fmap_cons in Hnd, Hin. apply NoDup_cons in Hnd as [Hni Hnd].
  destruct (close_segment_total kv.2 pr) as (rc & pr1 & Hrun & Hk); [apply Hin; left|]. run Hrun.
  destruct (law_next _ _ _ _ Hat) as (it' & Hn & Hat'). run Hn.
  apply IH; [done|done| |simpl in Hfuel; lia]. intros a Ha. apply Hk; [by intros ->|]. apply Hin. by right.
Qed.

Lemma floor_suffix key kvs rest : floor_entries key kvs rest → ∃ before, kvs = before ++ rest.
Proof using Type. intros [|before]; [by exists kvs0; rewrite app_nil_r|by exists before]. Qed.

Lemma mqlog_close_total p lg pr kvs :
  closable lg pr kvs → ∃ rc pr', mqlog_close p lg pr = Ok (rc, pr').
Proof using Type*.
  intros [(t & Ht & Hst) Hnd Hin Hfree]. unfold mqlog_close. rewrite Ht.
  destruct (law_mutex_destroy _ Hfree) as (rcd & md & Hdes). rewrite Hdes.
  destruct (law_first _ _ Hst) as (it & rest & Hf & Hat & (before & ->)%floor_suffix). run Hf.
  rewrite fmap_app in Hnd, Hin. apply NoDup_app in Hnd as (_ & _ & Hnd).
  assert (Hin' : ∀ a, a ∈ rest.*2 → a ∈ dom (pr_segments pr)) by (intros a Ha; apply Hin, elem_of_app; by right).
  destruct (close_loop_total t rest it 0 (S (base.size (pr_segments pr))) pr Hat Hnd Hin') as (e & pr' & Hrun).
  { rewrite <- (length_fmap snd). by apply Nat.lt_succ_r, length_le_size. }
  run Hrun. run (law_free_index _ _ Hst). by eexists _, _.
Qed.

(** *** Loading *)

Context (dir : string) (sz lo : Z).
Context (Hdir : dir_ok dir) (Hsz : 0 ≤ sz < 2 ^ 32) (Hmod : sz mod os_pagesize = 0).
Context (Hlo : 0 ≤ lo) (Hslash : last_char dir ≠ Ok "/"%char).

Record loading lg pr (kvs : list (Z * Z)) : Prop := {
  ld_closable : closable lg pr kvs;
  ld_sorted : StronglySorted Z.lt kvs.*1;
  ld_blocks : dom (pr_segments pr) ⊆ v_blocks (ps_view (pr_os pr));
  ld_stdin : is_Some (v_fds (ps_view (pr_os pr)) !! 0);
  ld_dir : lg_dir lg = dir
}.

(** A new offset is above the others, or not above the last. *)
Lemma above_or_not (kvs : list (Z * Z)) b :
  StronglySorted Z.lt kvs.*1 → Forall (λ kv, kv.1 < b) kvs ∨ ∃ kvs0 kv, kvs = kvs0 ++ [kv] ∧ b ≤ kv.1.
Proof using Type.
  destruct kvs as [|kv kvs _] using rev_ind; [by left|]. rewrite fmap_app, StronglySorted_app. intros [Hlt _].
  destruct (Z.le_gt_cases b kv.1); [right; by exists kvs, kv|left].
  apply Forall_app. split; [|by apply Forall_singleton; lia]. apply Forall_forall. intros x Hx.
  assert (x.1 < kv.1); [|lia]. apply Hlt; [by apply list_elem_of_fmap_2|left].
Qed.

(** An open segment enters the index when its offset is above the others. *)
Lemma load_above lg pr kvs b a sgm w' t :
  loading lg pr kvs → Forall (λ kv, kv.1 < b) kvs → a ∉ v_blocks (ps_view (pr_os pr)) →
  v_blocks (ps_view w') = {[a]} ∪ v_blocks (ps_view (pr_os pr)) → is_Some (v_fds (ps_view w') !! 0) →
  ix_stores t (kvs ++ [(b, a)]) →
  loading (set_lg_index t lg) (Process w' (<[a := sgm]> (pr_segments pr))) (kvs ++ [(b, a)]).
Proof using Type.
  intros [[_ Hnd Hin Hlock] Hsort Hbl _ Hd] Habove Ha Hbk H0 Hts. split; simpl; [|..|done|done].
  - split; simpl; [by exists t| | |done]; rewrite fmap_app; simpl.
    + apply NoDup_app. split; [done|]. split; [|apply NoDup_singleton].
      intros x Hx ->%list_elem_of_singleton. by apply Ha, Hbl, Hin.
    + intros x [Hx|Hx]%elem_of_app; rewrite dom_insert; [by apply elem_of_union_r, Hin|].
      apply list_elem_of_singleton in Hx as ->. by apply elem_of_union_l, elem_of_singleton.
  - rewrite fmap_app. apply StronglySorted_app. split; [|split; [done|repeat constructor]].
    intros x y (kv & -> & Hkv)%list_elem_of_fmap ->%list_elem_of_singleton. simpl.
    rewrite Forall_forall in Habove. by apply Habove.
  - rewrite dom_insert, Hbk. by apply union_mono_l.
Qed.

(** Otherwise it is closed again. *)
Lemma load_segment_any lg pr kvs b ps :
  loading lg pr kvs → stored (pr_os pr) dir b sz ps → ps ≠ [] → 0 ≤ b < max_offset →
  ∃ rc lg' pr', load_segment (data_name b) lg pr = Ok (rc, lg', pr') ∧
    match rc with
    | None => ∃ a, loading lg' pr' (kvs ++ [(b, a)]) ∧ touched dir b sz (pr_os pr) (pr_os pr')
    | Some rc => rc = ELLDSGM ∧ closable lg' pr' kvs
    end.
Proof using All.
  intros Hld Hst Hne Hb. pose proof Hld as [[(t & Hlt & Hts) Hnd Hin Hlock] Hsort Hbl H0 Hd].
  unfold max_offset in Hb. unfold load_segment.
  unfold data_name at 1. rewrite has_suffix_app, Hd, load_path by done. unfold file_size.
  destruct (stored_file dir sz Hsz _ _ _ Hst Hne) as (dat & Hfile & Hlen).
  destruct (os_stat _ (pr_os pr)) as [n|] eqn:Hstat.
  2:{ cbn [Z.eqb Pos.eqb]. exists (Some ELLDSGM), lg, pr. split; [done|]. split; [done|apply Hld]. }
  pose proof (law_stat _ _ _ _ Hstat Hfile). rewrite (proj2 (Z.eqb_neq n (-1))) by lia.
  assert (Hoff : u64 (strtoll (data_name b)) = b) by (apply strtoll_print_jd; lia).
  rewrite load_name, Hoff. replace n with sz by lia. unfold open_segment. rewrite u32_small by lia.
  destruct (segment_open_stored dir b sz (lg_flags lg) (pr_os pr) ps Hdir Hst Hsz Hmod) as (rc & o & w' & Ho & Hres); [lia|].
  run Ho. pose proof (segment_open_touched _ _ _ _ _ _ _ _ Hdir Hsz Ho) as Ht.
  apply segment_open_held in Ho; [|done|done]. destruct o as [[a sgm]|].
  2:{ rewrite bind_Ok, (proj2 (Z.eqb_neq rc 0)) by (intros ->; set_solver). exists (Some ELLDSGM), lg. eexists.
      split; [done|]. split; [done|]. by destruct Hld as [[]]. }
  destruct Hres as (-> & _). destruct Ho as (_ & pi & pd & _ & _ & Hacq). rewrite bind_Ok. cbn [Z.eqb negb].
  unfold the_index. rewrite Hlt. simpl of_option. rewrite bind_Ok.
  assert (Hnew : ∀ x, x ∈ kvs.*2 → x ≠ a) by (intros x Hx ->; by apply (acq_block _ _ _ _ _ _ Hacq), Hbl, Hin).
  destruct (above_or_not kvs b Hsort) as [Habove|(kvs0 & kv & -> & Hle)].
  - destruct (law_append t _ b a Hts Habove) as (t' & Hap & Hts'). run Hap. change (0 =? ELIDXPC) with false. cbn [Z.eqb negb].
    eexists None, _, _. split; [done|]. exists a. split; [|done]. pose proof (acq_held _ _ _ _ _ _ Hacq) as Hh.
    injection Hh as _ _ Hbk _. apply load_above; try done; [apply Hacq|by eapply (acquires_stdin _ _ _ _ _ _ Hacq)].
  - rewrite (law_append_refused t _ kv b a Hts Hle), bind_Ok. change (ELIDXNM =? ELIDXPC) with false.
    change (negb (ELIDXNM =? 0)) with true. cbn iota.
    destruct (close_segment_total a (Process w' (<[a := sgm]> (pr_segments pr)))) as (rc & pr' & Hcl & Hk).
    { simpl. rewrite dom_insert. by apply elem_of_union_l, elem_of_singleton. }
    run Hcl. eexists (Some ELLDSGM), _, _. split; [done|]. split; [done|]. split; simpl; [by exists t|done| |done].
    intros x Hx. apply Hk; [by apply Hnew|]. simpl. rewrite dom_insert. by apply elem_of_union_r, Hin.
Qed.

(** A file that can be loaded. *)
Definition loadable (w : W) (b : Z) : Prop :=
  0 ≤ b < max_offset ∧ ∃ ps, stored w dir b sz ps ∧ ps ≠ [].

Lemma load_files offs : ∀ lg pr kvs,
  loading lg pr kvs → Forall (loadable (pr_os pr)) offs →
  ∃ rc lg' pr' kvs', load_loop (data_name <$> offs) lg pr = Ok (rc, lg', pr') ∧ closable lg' pr' kvs' ∧
    (rc = ELLDSGM ∨ rc = 0 ∧ StronglySorted Z.lt (kvs.*1 ++ offs)).
Proof using All.
  induction offs as [|b offs IH]; intros lg pr kvs Hld Hoffs.
  { exists 0, lg, pr, kvs. split; [done|]. split; [apply Hld|right]. split; [done|]. rewrite app_nil_r. apply Hld. }
  apply Forall_cons in Hoffs as [(Hb & ps & Hst & Hne) Hoffs]. rewrite fmap_cons. cbn [load_loop].
  destruct (load_segment_any lg pr kvs b ps Hld Hst Hne Hb) as (rc & lg1 & pr1 & Hrun & Hcase). run Hrun.
  destruct rc as [rc|]; [destruct Hcase as [-> Hc]; exists ELLDSGM, lg1, pr1, kvs; split_and!; try done; by left|].
  destruct Hcase as (a & Hld1 & Ht). destruct (IH lg1 pr1 _ Hld1) as (rc & lg2 & pr2 & kvs2 & Hrun2 & Hc & Hout).
  { eapply Forall_impl; [exact Hoffs|]. intros b' (Hb' & ps' & Hst' & Hne'). split; [done|]. exists ps'. split; [|done].
    unfold max_offset in *. by apply (stored_touched _ _ dir b b' sz ps' Ht); [lia..|]. }
  exists rc, lg2, pr2, kvs2. split; [done|]. split; [done|]. by rewrite fmap_app, <- app_assoc in Hout.
Qed.

Lemma starts_loading (mode : Mode) d w w' lg : starts dir sz lo d w w' lg → loading lg (Process w' ∅) [].
Proof using Type.
  intros [_ _ [_ _ _ Hbl H0] [Hi Hd _ _] Hlock]. split; try done; [|constructor].
  split; try done; [by apply NoDup_nil|]. by intros a ?%elem_of_nil.
Qed.

(** The keys of a log ascend. *)
Lemma keys_sorted cs b : nonempty_chunks cs → StronglySorted Z.lt (keys b cs).*1.
Proof using Type.
  revert b. induction cs as [|c cs IH]; intros b Hne; [constructor|]. apply Forall_cons in Hne as [Hc Hne].
  cbn [keys]. rewrite fmap_cons. constructor; [by apply IH|]. apply Forall_fmap.
  eapply Forall_impl; [apply keys_from|]. intros kv Hkv. cbn [fst compose] in *.
  destruct (c_items c); [done|]. rewrite length_cons in Hkv. simpl. lia.
Qed.

Lemma keys_loadable w cs :
  chunks_ok (chunk_stored dir sz lo w) 0 cs → zlen (items cs) < max_offset →
  Forall (loadable w) (keys 0 cs).*1.
Proof using Type.
  intros Hcs Hn. apply Forall_forall. intros b (kv & -> & Hkv)%list_elem_of_fmap.
  apply list_elem_of_split in Hkv as (before & after & Hk).
  destruct (keys_lookup _ _ _ _ _ Hk) as (cs1 & c & cs2 & -> & -> & _). cbn [fst].
  apply chunks_ok_at in Hcs as (Hst & Hne & _). rewrite items_app, length_app in Hn.
  split; [lia|by exists (c_items c)].
Qed.

(** [C33]: [load_segments] appends the segments to the index in the order
    [readdir] yields them, which POSIX leaves open: a log that was closed
    without error, and whose segments can be reopened, is refused by
    [mqlog_open], whatever the flags, with [ELLDSGM] (or an earlier [ELLGDIR]
    or [ELALLC] of the system), when [opendir] succeeds and the directory
    lists its data files in any order but the ascending one. Assumed: fewer
    than 2^63 - 2^32 payloads, each index file with a free slot; a directory
    name of 1 to 200 characters that does not end in a slash; a size that is a
    multiple of the page size below 2^32; descriptor 0 open; an index that
    never runs out of memory. *)
Theorem unordered_directory_is_refused (mode : Mode) p lg pr cs flags pr1 offs :
  log_inv dir sz lo lg pr cs → zlen (items cs) < max_offset → mqlog_close p lg pr = Ok (0, pr1) →
  reopenable sz cs →
  listing dir (pr_os pr1) (λ names, filter (λ n, has_suffix n ".log" = true) names = data_name <$> offs) →
  offs ≡ₚ (keys 0 cs).*1 → offs ≠ (keys 0 cs).*1 →
  ∃ rc pr2, mqlog_open dir sz flags pr1 = Ok (rc, None, pr2) ∧ rc ∈ [ELLGDIR; ELALLC; ELLDSGM].
Proof using All.
  intros I Hn Hclose Hr Hlist Hperm Hne. destruct (li_store _ _ _ _ _ _ I) as [Hres _].
  pose proof (keys_sorted cs 0 (li_nonempty _ _ _ _ _ _ I)) as Hsort.
  assert (Hix : indexed dir sz lg cs) by (by destruct I).
  destruct (close_log dir sz lo Hdir Hsz Hmod Hlo p lg pr cs Hres (li_nonempty _ _ _ _ _ _ I) Hix
    (li_lock _ _ _ _ _ _ I) Hn) as (rc & pr' & Hrun & _ & Hok).
  rewrite Hclose in Hrun. injection Hrun as <- <-. destruct (Hok eq_refl) as (Hcl & Hsegs & Hk).
  pose proof (keys_loadable _ _ (closed_stored _ _ _ _ _ Hcl Hr) Hn) as Hload. rewrite <- Hperm in Hload.
  assert (H0 : is_Some (v_fds (ps_view (pr_os pr1)) !! 0)) by apply Hk, (rs_stdin _ _ _ _ _ Hres).
  destruct (open_loads (mode := (Z.land flags MQLOG_RDCMT =? MQLOG_RDCMT)) dir sz lo Hdir Hmod flags pr1 _ Hsegs H0 eq_refl Hlist)
    as [(rc & pr' & Hrc & Hrun)|(a & d & w & lg' & names & Hnames & Hst & Hrun)].
  { exists rc, pr'. split; [done|]. set_solver. }
  assert (Hload' : Forall (loadable w) offs).
  { eapply Forall_impl; [exact Hload|]. intros b (Hb & ps & Hs & ?). split; [done|]. exists ps. split; [|done].
    by apply (stored_touched (pr_os pr1) _ dir b b sz ps); [apply touched_files, (st_files _ _ _ _ _ _ _ Hst)|unfold max_offset in Hb; lia..|]. }
  destruct (load_files offs lg' (Process w ∅) [] (starts_loading _ _ _ _ _ Hst) Hload') as (rc & lg2 & pr2 & kvs & Hl & Hc & Hout).
  destruct (mqlog_close_total a _ _ _ Hc) as (rc3 & pr3 & Hclose2).
  rewrite Hrun, load_loop_filter, Hnames, Hl. unfold finish_open. rewrite bind_Ok.
  destruct Hout as [->|[_ Hs]].
  - change (negb (ELLDSGM =? 0)) with true. cbn iota. run Hclose2. eexists _, _. split; [done|]. set_solver.
  - destruct Hne. assert (AntiSymm (=) Z.lt) by (intros x y ? ?; lia). by apply (StronglySorted_unique Z.lt).
Qed.
End unordered.

(** ** A concrete log *)

#[local] Existing Instance reads_written.

Lemma mem_msync_works : msync_works (W := mem_os).
Proof.
  intros r a n w rc w' p c Hm Hc Ha _ _ _. simpl in *. unfold mo_msync. change os_pagesize with mo_page in Ha.
  rewrite Ha. cbn [Z.eqb]. rewrite (mo_write_back_ok _ _ _ _ Hm Hc). by intros [= <- _].
Qed.

Lemma oversized_write_bricks_log_witness :
  ∃ lg' pr', mqlog_write demo_log1 (zeros 5000) demo_process1 = Ok (ELNOWCP, lg', pr') ∧
    ∀ qs, Forall (λ q, 0 < zlen q < 2 ^ 63) qs →
      ∃ rcs lg2 pr2, write_all qs lg' pr' = Ok (rcs, lg2, pr2) ∧ length rcs = length qs ∧
        Forall (λ rc, rc = ELNOWCP ∨ rc ∈ os_errors) rcs.
Proof.
  destruct demo_log1_inv as (cs & I & Hcs).
  destruct (oversized_write_bricks_log "/log" 4096 0 demo_dir ltac:(lia) demo_mod ltac:(by vm_compute)
    mem_msync_works demo_log1 demo_process1 cs (zeros 5000) I) as (rc & lg' & pr' & cs' & Hw & _ & H).
  - rewrite Hcs. by vm_compute.
  - split; by vm_compute.
  - assert (Hrc : (r ← mqlog_write demo_log1 (zeros 5000) demo_process1; Ok r.1.1) = Ok ELNOWCP) by (by vm_compute).
    rewrite Hw, bind_Ok in Hrc. injection Hrc as ->. exists lg', pr'. split; [exact Hw|].
    destruct H as [[Hbad _]|(_ & _ & H)]; [exfalso; clear -Hbad; set_solver|exact H].
Defined.

(** A log of two segments, closed. *)
Definition big : bytes := zeros 3900.
Definition two_written : result (list Z * demo_log_t * process mem_os) :=
  write_all [big; big] demo_log demo_opened_process.
Definition two_log : demo_log_t := match two_written with Ok (_, lg, _) => lg | _ => demo_log end.
Definition two_process : process mem_os := match two_written with Ok (_, _, pr) => pr | _ => demo_process end.
Definition two_closed : process mem_os :=
  match mqlog_close 3 two_log two_process with Ok (_, pr) => pr | _ => demo_process end.

Lemma big_ok : payload_ok 4096 0 big.
Proof. split; by vm_compute. Qed.

Lemma two_inv : ∃ cs, log_inv "/log" 4096 0 two_log two_process cs ∧ items cs = [big; big].
Proof.
  pose proof (write_ok "/log" 4096 0 demo_dir ltac:(lia) demo_mod ltac:(lia) demo_slots) as Hw.
  destruct (Hw demo_log demo_opened_process [] big demo_log_inv ltac:(by vm_compute) big_ok)
    as (rc1 & lg1 & pr1 & cs1 & Hrun1 & I1 & Hc1 & _).
  assert (Hn : zlen (items cs1) < max_offset).
  { destruct Hc1 as [[_ ->]|[_ ->]]; by vm_compute. }
  destruct (Hw lg1 pr1 cs1 big I1 Hn big_ok) as (rc2 & lg2 & pr2 & cs2 & Hrun2 & I2 & Hc2 & _).
  assert (Hrun : two_written = Ok ([3900; 3900], two_log, two_process)) by (by vm_compute).
  assert (Hrun' : two_written = Ok ([rc1; rc2], lg2, pr2)).
  { unfold two_written. cbn [write_all]. run Hrun1. by run Hrun2. }
  rewrite Hrun in Hrun'. apply Ok_triple in Hrun' as (Hrc & <- & <-). injection Hrc as <- <-.
  exists cs2. split; [exact I2|]. clear -Hc1 Hc2.
  assert (Hno : 3900 ∉ os_errors) by (by apply (bool_decide_eq_true_1 (3900 ∉ os_errors)); vm_compute).
  destruct Hc1 as [[_ Hi]|[]]; [|done]. destruct Hc2 as [[_ Hj]|[]]; [|done]. rewrite Hj, Hi. done.
Qed.

(** Each of the two has its segment. *)
Lemma two_segments lg pr cs :
  log_inv "/log" 4096 0 lg pr cs → items cs = [big; big] → ∃ a b e f, cs = [Chunk a [big] e; Chunk b [big] f].
Proof.
  intros I Hit. pose proof (li_nonempty _ _ _ _ _ _ I) as Hne.
  pose proof (rs_chunks _ _ _ _ _ (si_resident _ _ _ _ _ (li_store _ _ _ _ _ _ I))) as Hch.
  destruct cs as [|[a ps e] cs]; [done|]. apply Forall_cons in Hne as [Hps Hne]. rewrite items_cons in Hit.
  cbn [c_items] in *. destruct ps as [|p1 [|p2 ps]]; [done| |].
  - injection Hit as -> Hit. destruct (demo_single cs _ Hne Hit) as (b & f & ->). by exists a, b, e, f.
  - exfalso. injection Hit as -> -> Hit. cbn [chunks_ok] in Hch. destruct Hch as [[[sgm Hl] _] _].
    pose proof (inv_used _ _ _ (lv_inv _ _ _ _ _ _ Hl)) as Hu. rewrite (lv_size _ _ _ _ _ _ Hl) in Hu.
    cbn [c_items] in Hu. pose proof (zlen_frame_bytes big) as Hb. assert (zlen big = 3900) by (by vm_compute).
    unfold used in Hu. change (frames (big :: big :: ps)) with (frame_bytes big ++ frame_bytes big ++ frames ps) in Hu.
    rewrite !length_app in Hu. clear -Hu Hb H. cbn [c_eos] in Hu. destruct e; size_lia.
Qed.

Lemma two_listed : listing "/log" (pr_os two_closed)
  (λ names, filter (λ n, has_suffix n ".log" = true) names = data_name <$> [1; 0]).
Proof.
  intros w1 p w2 d w3 H1 H2 H3.
  assert (Hl : demo_listing (pr_os two_closed) = (3, ["1.idx"; "1.log"; "0.idx"; "0.log"]%string)) by (by vm_compute).
  unfold demo_listing in Hl. rewrite H1 in Hl. cbn [snd] in Hl. rewrite H2 in Hl. cbn [snd] in Hl.
  rewrite H3 in Hl. apply pair_equal_spec in Hl as [-> Hl]. split; [done|]. by rewrite Hl.
Qed.

Lemma unordered_directory_is_refused_witness :
  ∃ rc pr2, mqlog_open "/log" 4096 MQLOG_RDDRT two_closed = Ok (rc, None, pr2) ∧ rc ∈ [ELLGDIR; ELALLC; ELLDSGM].
Proof.
  destruct two_inv as (cs & I & Hit). destruct (two_segments _ _ _ I Hit) as (a & b & e & f & ->).
  apply (unordered_directory_is_refused "/log" 4096 0 demo_dir ltac:(lia) demo_mod ltac:(lia) demo_slash
    reads_written 3 two_log two_process _ MQLOG_RDDRT two_closed [1; 0] I).
  - by vm_compute.
  - by vm_compute.
  - repeat constructor; by vm_compute.
  - apply two_listed.
  - apply Permutation_swap.
  - done.
Defined.
