(* ===== verification/MqlogThreads.v ===== *)
(** * The log under concurrent calls (src/mqlog.c)

    mqlog.h declares [mqlog_write], [mqlog_read] and [mqlog_sync] thread safe.
    A write holds the mutex of the log throughout, a read only while it looks
    for a segment in the index, and a sync never. This file cuts the calls at
    their accesses to what the threads share: the mutex, the index, and the
    memory of the segments, where the accesses are those of SegmentThreads.v
    and SegmentThreadsSync.v. What a writer does to a segment that is not yet
    in the index (opening it, or closing it again) is one step, since no other
    call has its address. A call on the index is one step too: the mutex keeps
    the append of a write from every lookup and from every last value but that
    of a sync, which [sync_race] names. A read loads the value of its iterator
    without the mutex, perhaps in the middle of an append; what it loads is the
    cell of an entry, which no append stores to ([leaves_kept]). *)

From S2P Require Import Prelude Errno Prot Posix Util Segment SegmentFile SegmentThreads SegmentThreadsSync Index Pthread Mqlog.

Section threads.
Context {W T It M : Type} `{!Posix W, !Index T It, !Pthread M}.
Implicit Types (lg : mqlog T M) (pr : process W).

(** ** Where a call stands *)

Inductive log_write_pc :=
  | LW_lock                                       (* [pthread_mutex_trylock] *)
  | LW_last                                       (* [mbptree_last_value] *)
  | LW_create (base_offset : Z)                   (* [create_segment] *)
  | LW_segment (sgm : Z) (new_segment : bool) (pc : write_pc)   (* [segment_write] *)
  | LW_roll (sgm : Z)                             (* [segment_write_offset] *)
  | LW_close (sgm : Z)                            (* [segment_close] *)
  | LW_index (sgm written : Z)                    (* [mbptree_append] *)
  | LW_unlock (written : Z)                       (* [pthread_mutex_unlock] *)
  | LW_return (rc : Z).

Inductive log_read_pc :=
  | LR_lock                                       (* [pthread_mutex_trylock] *)
  | LR_floor                                      (* [mbptree_leaf_floor] *)
  | LR_unlock (iterator : It) (valid : bool)      (* [pthread_mutex_unlock] *)
  | LR_value (iterator : It)                      (* [mbptree_leaf_iterator_value] *)
  | LR_base (sgm : Z)                             (* [segment_base_offset] *)
  | LR_segment (sgm relative_offset : Z) (pc : read_pc)         (* [segment_read] *)
  | LR_return (rc : Z) (fr : frame).

Inductive log_sync_pc :=
  | LS_last                                       (* [mbptree_last_value] *)
  | LS_segment (sgm : Z) (pc : sync_pc)           (* [segment_sync] *)
  | LS_return (rc : Z).

(** A call with its arguments. *)
Inductive log_call :=
  | Writing (buf : bytes) (pc : log_write_pc)
  | Reading (offset : Z) (fr : frame) (pc : log_read_pc)
  | Syncing (pc : log_sync_pc).

(** ** One access *)

(** [segment_write] has returned. *)
Definition segment_written (sgm : Z) (new_segment : bool) (written : Z) : log_write_pc :=
  if written =? ELEOS then if new_segment then LW_close sgm else LW_roll sgm
  else if new_segment then LW_index sgm written else LW_unlock written.

Definition log_write_step (buf : bytes) (pc : log_write_pc) lg pr
    : result (log_write_pc * mqlog T M * process W) :=
  match pc with
  | LW_lock =>
    if zlen buf =? 0 then Ok (LW_return 0, lg, pr)
    else
      let '(rc, errno, m) := pthread_mutex_trylock (lg_lock lg) in
      let lg := set_lg_lock m lg in
      Ok (if rc =? EBUSY then LW_return ELLOCK
          else if negb (rc =? 0) then LW_return (if errno =? EBUSY then ELLOCK else ELLCKOP)
          else LW_last, lg, pr)
  | LW_last =>
    index ← the_index lg;
    '(rc, value) ← ix_last_value index;
    Ok (match value with Some sgm => LW_segment sgm false W_begin | None => LW_create 0 end, lg, pr)
  | LW_create base_offset =>
    '(rc, sgm, pr) ← create_segment base_offset lg pr;
    Ok (if negb (rc =? 0) then LW_unlock rc else LW_segment sgm true W_begin, lg, pr)
  | LW_segment sgm new_segment (W_return written) => Ok (segment_written sgm new_segment written, lg, pr)
  | LW_segment sgm new_segment pc =>
    s ← deref_segment sgm pr;
    '(pc, s) ← write_step buf pc s;
    Ok (LW_segment sgm new_segment pc, lg, Process (pr_os pr) (<[sgm := s]> (pr_segments pr)))
  | LW_roll sgm =>
    s ← deref_segment sgm pr;
    Ok (LW_create (segment_write_offset s), lg, pr)
  | LW_close sgm => '(_, pr) ← close_segment sgm pr; Ok (LW_unlock ELNOWCP, lg, pr)
  | LW_index sgm written =>
    '(rc, lg, pr) ← index_segment sgm written lg pr;
    Ok (LW_unlock rc, lg, pr)
  | LW_unlock written =>
    let '(rc, m) := pthread_mutex_unlock (lg_lock lg) in
    Ok (LW_return (if negb (rc =? 0) then ELLCKOP else written), set_lg_lock m lg, pr)
  | LW_return rc => Ok (LW_return rc, lg, pr)
  end.

Definition log_read_step (offset : Z) (fr : frame) (pc : log_read_pc) lg pr
    : result (log_read_pc * mqlog T M) :=
  match pc with
  | LR_lock =>
    let '(rc, errno, m) := pthread_mutex_trylock (lg_lock lg) in
    let lg := set_lg_lock m lg in
    Ok (if rc =? EBUSY then LR_return ELLOCK fr
        else if negb (rc =? 0) then LR_return (if errno =? EBUSY then ELLOCK else ELLCKOP) fr
        else LR_floor, lg)
  | LR_floor =>
    index ← the_index lg;
    '(rc, iterator, index) ← ix_leaf_floor index offset;
    let lg := set_lg_index index lg in
    match iterator with
    | None => Ok (LR_return rc fr, lg)
    | Some iterator =>
      valid ← ix_iterator_valid index iterator;
      Ok (LR_unlock iterator valid, lg)
    end
  | LR_unlock iterator valid =>
    let '(rc, m) := pthread_mutex_unlock (lg_lock lg) in
    Ok (if negb (rc =? 0) then LR_return ELLCKOP fr
        else if (valid : bool) then LR_value iterator else LR_return ELNORD fr, set_lg_lock m lg)
  | LR_value iterator =>
    index ← the_index lg;
    sgm ← ix_iterator_value index iterator;
    Ok (LR_base sgm, lg)
  | LR_base sgm =>
    s ← deref_segment sgm pr;
    Ok (LR_segment sgm (u64 (offset - segment_base_offset s)) R_begin, lg)
  | LR_segment sgm relative_offset pc =>
    s ← deref_segment sgm pr;
    pc ← read_step relative_offset fr pc s;
    Ok (LR_segment sgm relative_offset pc, lg)
  | LR_return rc fr => Ok (LR_return rc fr, lg)
  end.

Definition log_sync_step (pc : log_sync_pc) lg pr : result (log_sync_pc * process W) :=
  match pc with
  | LS_last =>
    index ← the_index lg;
    '(rc, value) ← ix_last_value index;
    Ok (match value with Some sgm => LS_segment sgm S_addr | None => LS_return 0 end, pr)
  | LS_segment sgm pc =>
    s ← deref_segment sgm pr;
    let '(pc, s, w) := sync_step pc s (pr_os pr) in
    Ok (LS_segment sgm pc, Process w (<[sgm := s]> (pr_segments pr)))
  | LS_return rc => Ok (LS_return rc, pr)
  end.

Definition log_call_step (c : log_call) lg pr : result (log_call * mqlog T M * process W) :=
  match c with
  | Writing buf pc => '(pc, lg, pr) ← log_write_step buf pc lg pr; Ok (Writing buf pc, lg, pr)
  | Reading off fr pc => '(pc, lg) ← log_read_step off fr pc lg pr; Ok (Reading off fr pc, lg, pr)
  | Syncing pc => '(pc, pr) ← log_sync_step pc lg pr; Ok (Syncing pc, lg, pr)
  end.

(** ** Interleavings *)

(** A log, its process, and the calls on it, by the order of their start. *)
Record log_state := LogState { ls_log : mqlog T M; ls_process : process W; ls_calls : list log_call }.

(** A call starts, or the call [i] makes its next access. *)
Inductive log_event :=
  | Log_write (buf : bytes)
  | Log_read (offset : Z) (fr : frame)
  | Log_sync
  | Log_run (i : nat).

(** [mbptree_append] and [mbptree_last_value] are several accesses each, and
    the second takes no lock: [last_value_meets_half_entry] shows what it can
    return in the middle of the first. The mutex keeps them apart, except that
    [mqlog_sync] calls [mbptree_last_value] without it: to do so while a write
    is at [mbptree_append] is a data race, which is undefined. *)
Definition indexing (c : log_call) : bool :=
  match c with Writing _ (LW_index _ _) => true | _ => false end.

Definition sync_race (ev : log_event) (cs : list log_call) : bool :=
  match ev with
  | Log_run i =>
    match cs !! i with
    | Some (Syncing LS_last) => existsb indexing cs
    | _ => false
    end
  | _ => false
  end.

Definition exec_log_event (ev : log_event) (st : log_state) : result log_state :=
  let '(LogState lg pr cs) := st in
  if sync_race ev cs then UB
  else
    match ev with
    | Log_write buf => Ok (LogState lg pr (cs ++ [Writing buf LW_lock]))
    | Log_read off fr => Ok (LogState lg pr (cs ++ [Reading off fr LR_lock]))
    | Log_sync => Ok (LogState lg pr (cs ++ [Syncing LS_last]))
    | Log_run i =>
      match cs !! i with
      | Some c => '(c, lg, pr) ← log_call_step c lg pr; Ok (LogState lg pr (<[i := c]> cs))
      | None => Ok st
      end
    end.

Fixpoint exec_log (evs : list log_event) (st : log_state) : result log_state :=
  match evs with
  | [] => Ok st
  | ev :: evs => st ← exec_log_event ev st; exec_log evs st
  end.

(** A call that runs with no other call in between. *)
Fixpoint log_alone (n : nat) (c : log_call) lg pr : result (log_call * mqlog T M * process W) :=
  match n with
  | O => Ok (c, lg, pr)
  | S n => '(c, lg, pr) ← log_call_step c lg pr; log_alone n c lg pr
  end.

Definition log_returned (c : log_call) : bool :=
  match c with
  | Writing _ (LW_return _) | Reading _ _ (LR_return _ _) | Reading _ _ (LR_segment _ _ (R_return _ _))
  | Syncing (LS_return _) | Syncing (LS_segment _ (S_return _)) => true
  | _ => false
  end.

(** What a returned call of [mqlog_read] returned. *)
Definition read_result (c : log_call) : option (Z * frame) :=
  match c with
  | Reading _ _ (LR_return rc fr) | Reading _ _ (LR_segment _ _ (R_return rc fr)) => Some (rc, fr)
  | _ => None
  end.

(** What a returned call of [mqlog_sync] returned. *)
Definition sync_result (c : log_call) : option Z :=
  match c with
  | Syncing (LS_return rc) | Syncing (LS_segment _ (S_return rc)) => Some rc
  | _ => None
  end.

(** The payload of a call of [mqlog_write] that has stored it. *)
Definition log_accepted (c : log_call) : option bytes :=
  match c with
  | Writing buf (LW_unlock rc | LW_return rc) => if rc <=? 0 then None else Some buf
  | _ => None
  end.
Definition log_written (cs : list log_call) : list bytes := omap log_accepted cs.

(** The accesses of the call [i] in a sequence of events. *)
Fixpoint log_runs (i : nat) (evs : list log_event) : nat :=
  match evs with
  | [] => 0
  | Log_run j :: evs => (if (j =? i)%nat then 1 else 0) + log_runs i evs
  | _ :: evs => log_runs i evs
  end.

(** A bound on the accesses a call has left. *)
Definition sync_rank (pc : sync_pc) : nat :=
  match pc with
  | S_addr => 10 | S_end _ => 9 | S_length _ _ => 8 | S_msync _ _ _ => 7 | S_store _ _ => 6
  | S_index_addr => 5 | S_index_end _ => 4 | S_index_length _ _ => 3 | S_index_msync _ _ _ => 2
  | S_index_store _ _ => 1 | S_return _ => 0
  end.

Definition log_rank (c : log_call) : nat :=
  match c with
  | Writing buf pc =>
    let segment_write_rank := rank (Write buf W_begin) in
    match pc with
    | LW_lock => 2 * segment_write_rank + 8
    | LW_last => 2 * segment_write_rank + 7
    | LW_segment _ false pc => rank (Write buf pc) + segment_write_rank + 6
    | LW_roll _ => segment_write_rank + 5
    | LW_create _ => segment_write_rank + 4
    | LW_segment _ true pc => rank (Write buf pc) + 3
    | LW_close _ | LW_index _ _ => 2
    | LW_unlock _ => 1
    | LW_return _ => 0
    end
  | Reading off fr pc =>
    match pc with
    | LR_lock => 11 | LR_floor => 10 | LR_unlock _ _ => 9 | LR_value _ => 8 | LR_base _ => 7
    | LR_segment _ rel pc => rank (Read rel fr pc)
    | LR_return _ _ => 0
    end
  | Syncing pc => match pc with LS_last => 11 | LS_segment _ pc => sync_rank pc | LS_return _ => 0 end
  end.

(** ** Executions *)

(** The arguments a caller may give: an empty payload or one that [P] admits. *)
Definition log_event_ok (P : bytes → Prop) (ev : log_event) : Prop :=
  match ev with
  | Log_write buf => zlen buf = 0 ∨ P buf
  | Log_read off _ => 0 ≤ off < 2 ^ 64
  | Log_sync | Log_run _ => True
  end.

Inductive log_reachable (P : bytes → Prop) (st : log_state) : log_state → Prop :=
  | log_reach_start : log_reachable P st st
  | log_reach_event ev st1 st2 :
      log_reachable P st st1 → log_event_ok P ev → exec_log_event ev st1 = Ok st2 →
      log_reachable P st st2.
End threads.
Arguments log_read_pc : clear implicits.
Arguments log_call : clear implicits.
Arguments log_event : clear implicits.
Arguments log_state : clear implicits.
