(* ===== verification/MqlogThreadsAlone.v ===== *)
(** * The log under concurrent calls: one call

    Every call returns after so many accesses of its own, whatever the others
    do; and with nothing in between its accesses are the operation of Mqlog.v.
    Neither needs the laws of the interfaces. *)

From S2P Require Import Prelude Errno Prot Posix Util Segment SegmentInv SegmentOps SegmentFile SegmentThreads SegmentThreadsSpec SegmentThreadsSync MemOs MbptreeSpec Index Mbptree MbptreeIndex Pthread Mqlog MqlogInv MqlogSynced MqlogOps MqlogSpec MqlogThreads.

Section alone.
Context {W T It M : Type} `{!Posix W, !Index T It, !Pthread M}.
Implicit Types (lg : mqlog T M) (pr : process W) (c : log_call It).

(** ** Calls that have returned *)

Lemma log_returned_stays c lg pr c' lg' pr' :
  log_call_step c lg pr = Ok (c', lg', pr') → log_returned c = true → c' = c ∧ lg' = lg ∧ pr' = pr.
Proof using Type.
  destruct c as [buf pc|o fr pc|pc];
    [destruct pc; try done|destruct pc as [| | | | |p rel rpc|rc fr']; try done|destruct pc as [|p spc|rc]; try done];
    cbn [log_call_step log_write_step log_read_step log_sync_step].
  - by intros [= <- <- <-].
  - destruct rpc; try done. unfold deref_segment. intros ([pc1 lg1] & (s & _ & Hs)%bind_Ok_inv & [= <- <- <-])%bind_Ok_inv _.
    by injection Hs as <- <-.
  - by intros [= <- <- <-].
  - destruct spc; try done. intros ([pc1 pr1] & (s & Hs & [= <- <-])%bind_Ok_inv & [= <- <- <-])%bind_Ok_inv _.
    unfold deref_segment in Hs. destruct (pr_segments pr !! p) as [s'|] eqn:Hp; [|done]. injection Hs as ->.
    rewrite insert_id by done. by destruct pr.
  - by intros [= <- <- <-].
Qed.

Lemma log_rank_zero c : log_rank c = 0%nat ↔ log_returned c = true.
Proof using Type.
  destruct c as [buf pc|o fr pc|pc].
  - destruct pc as [| |b|p new wpc|p|p|p n|rc|rc]; try destruct new; simpl; split; (lia || done).
  - destruct pc as [| |it v|it|p|p rel rpc|rc fr']; try destruct rpc; simpl; split; (lia || done).
  - destruct pc as [|p spc|rc]; try destruct spc; simpl; split; (lia || done).
Qed.

(** ** Every access brings a call closer to its end *)

Lemma log_write_rank buf pc lg pr pc' lg' pr' :
  log_write_step buf pc lg pr = Ok (pc', lg', pr') → log_returned (Writing buf pc : log_call It) = false →
  (log_rank (Writing buf pc' : log_call It) < log_rank (Writing buf pc : log_call It))%nat.
Proof using Type.
  destruct pc as [| |b|p new wpc|p|p|p n|rc|rc]; intros Hrun Hn; cbn [log_write_step] in Hrun; [..|done].
  - destruct (zlen buf =? 0); [injection Hrun as <- _ _; simpl; lia|].
    destruct (pthread_mutex_trylock (lg_lock lg)) as [[rc e] m]. injection Hrun as <- _ _.
    destruct (rc =? EBUSY); [simpl; lia|]. destruct (negb _); simpl; lia.
  - apply bind_Ok_inv in Hrun as (t & _ & ([rc v] & _ & [= <- _ _])%bind_Ok_inv). destruct v; simpl; lia.
  - apply bind_Ok_inv in Hrun as ([[rc p] pr2] & _ & [= <- _ _]). destruct (negb _); simpl; lia.
  - destruct (returned (Write buf wpc)) eqn:Hret.
    + destruct wpc; try done. injection Hrun as <- _ _. unfold segment_written.
      destruct (_ =? ELEOS), new; simpl; lia.
    + assert (Hstep : ∃ s s' wpc', write_step buf wpc s = Ok (wpc', s') ∧ pc' = LW_segment p new wpc').
      { destruct wpc; try done; apply bind_Ok_inv in Hrun as (s & _ & ([wpc' s'] & ? & [= <- _ _])%bind_Ok_inv);
          by eexists s, s', _. }
      destruct Hstep as (s & s' & wpc' & Hw & ->). pose proof (write_rank _ _ _ _ _ Hw Hret).
      destruct new; cbn [log_rank]; lia.
  - apply bind_Ok_inv in Hrun as (s & _ & [= <- _ _]). simpl. lia.
  - apply bind_Ok_inv in Hrun as ([rc pr2] & _ & [= <- _ _]). simpl. lia.
  - apply bind_Ok_inv in Hrun as ([[rc lg2] pr2] & _ & [= <- _ _]). simpl. lia.
  - destruct (pthread_mutex_unlock (lg_lock lg)) as [rc2 m]. injection Hrun as <- _ _. simpl. lia.
Qed.

Lemma log_read_rank o fr pc lg pr pc' lg' :
  log_read_step o fr pc lg pr = Ok (pc', lg') → log_returned (Reading o fr pc) = false →
  (log_rank (Reading o fr pc') < log_rank (Reading o fr pc))%nat.
Proof using Type.
  destruct pc as [| |it v|it|p|p rel rpc|rc fr']; intros Hrun Hn; cbn [log_read_step] in Hrun; [..|done].
  - destruct (pthread_mutex_trylock (lg_lock lg)) as [[rc e] m]. injection Hrun as <- _.
    destruct (rc =? EBUSY); [simpl; lia|]. destruct (negb _); simpl; lia.
  - apply bind_Ok_inv in Hrun as (t & _ & ([[rc it] t'] & _ & Hrun)%bind_Ok_inv).
    destruct it; [apply bind_Ok_inv in Hrun as (v & _ & Hrun)|]; injection Hrun as <- _; simpl; lia.
  - destruct (pthread_mutex_unlock (lg_lock lg)) as [rc2 m]. injection Hrun as <- _.
    destruct (negb _); [simpl; lia|]. destruct v; simpl; lia.
  - apply bind_Ok_inv in Hrun as (t & _ & (p & _ & [= <- _])%bind_Ok_inv). simpl. lia.
  - apply bind_Ok_inv in Hrun as (s & _ & [= <- _]). simpl. lia.
  - apply bind_Ok_inv in Hrun as (s & _ & (rpc' & Hr & [= <- _])%bind_Ok_inv).
    apply (read_rank _ _ _ _ _ Hr). by destruct rpc.
Qed.

Lemma log_call_rank c lg pr c' lg' pr' :
  log_call_step c lg pr = Ok (c', lg', pr') → log_returned c = false → (log_rank c' < log_rank c)%nat.
Proof using Type.
  destruct c as [buf pc|o fr pc|pc]; cbn [log_call_step]; intros Hrun Hn.
  - apply bind_Ok_inv in Hrun as ([[pc' lg2] pr2] & Hrun & [= <- _ _]). by eapply log_write_rank.
  - apply bind_Ok_inv in Hrun as ([pc' lg2] & Hrun & [= <- _ _]). by eapply log_read_rank.
  - apply bind_Ok_inv in Hrun as ([pc' pr2] & Hrun & [= <- _ _]).
    destruct pc as [|p spc|rc]; cbn [log_sync_step] in Hrun; [..|done].
    + apply bind_Ok_inv in Hrun as (t & _ & ([rc v] & _ & [= <- _])%bind_Ok_inv). destruct v; simpl; lia.
    + apply bind_Ok_inv in Hrun as (s & _ & Hrun).
      destruct spc; cbn [sync_step] in Hrun; repeat case_match; simplify_eq; simpl; lia || done.
Qed.

(** [C19]: the calls of a log are wait-free: a write returns after
    at most [34 + 2 * length buf] accesses of its own, a read and a sync after
    at most eleven, whatever the other calls do in between; none waits for the
    mutex. *)
Theorem log_calls_are_wait_free evs (st st' : log_state W T It M) i c :
  exec_log evs st = Ok st' → ls_calls st !! i = Some c → (log_rank c ≤ log_runs i evs)%nat →
  ∃ c', ls_calls st' !! i = Some c' ∧ log_returned c' = true.
Proof using Type.
  revert st c. induction evs as [|ev evs IH]; intros st c Hrun Hc Hrank; cbn [exec_log log_runs] in *.
  { injection Hrun as <-. exists c. split; [done|]. apply log_rank_zero. lia. }
  apply bind_Ok_inv in Hrun as (st1 & Hev & Hrun). destruct st as [lg pr cs]. cbn [ls_calls] in Hc.
  unfold exec_log_event in Hev. destruct (sync_race ev cs); [done|].
  destruct ev as [buf|o fr| |j];
    try (injection Hev as <-; eapply (IH _ c Hrun); [by apply lookup_app_l_Some|done]).
  destruct (cs !! j) as [c1|] eqn:Hc1.
  2:{ injection Hev as <-. apply (IH _ c Hrun Hc). destruct (Nat.eqb_spec j i) as [->|]; [congruence|done]. }
  apply bind_Ok_inv in Hev as ([[c1' lg'] pr'] & Hstep & [= <-]). destruct (Nat.eqb_spec j i) as [->|Hne].
  - rewrite Hc in Hc1. injection Hc1 as <-. apply (IH _ c1' Hrun).
    + apply list_lookup_insert_eq. by eapply lookup_lt_Some.
    + destruct (log_returned c) eqn:Hret; [|pose proof (log_call_rank _ _ _ _ _ _ Hstep Hret); lia].
      destruct (log_returned_stays _ _ _ _ _ _ Hstep Hret) as [-> _].
      apply log_rank_zero in Hret. lia.
  - apply (IH _ c Hrun); [cbn [ls_calls]; by rewrite list_lookup_insert_ne|done].
Qed.

(** ** A call that runs alone *)

Lemma log_alone_app n k c lg pr :
  log_alone (n + k) c lg pr = ('(c, lg, pr) ← log_alone n c lg pr; log_alone k c lg pr).
Proof using Type.
  revert c lg pr. induction n as [|n IH]; intros c lg pr; [done|]. cbn [log_alone Nat.add].
  destruct (log_call_step c lg pr) as [[[c1 lg1] pr1]| |]; [|done..]. rewrite !bind_Ok. apply IH.
Qed.

(** After so many accesses of its own, alone. *)
Definition log_goes c lg pr c' lg' pr' : Prop := ∃ n, log_alone n c lg pr = Ok (c', lg', pr').

Lemma log_goes_refl c lg pr : log_goes c lg pr c lg pr.
Proof using Type. by exists 0%nat. Qed.

Lemma log_goes_step c lg pr c1 lg1 pr1 c' lg' pr' :
  log_call_step c lg pr = Ok (c1, lg1, pr1) → log_goes c1 lg1 pr1 c' lg' pr' → log_goes c lg pr c' lg' pr'.
Proof using Type. intros Hs [n Hn]. exists (S n). cbn [log_alone]. by rewrite Hs, bind_Ok. Qed.

Lemma log_goes_trans c lg pr c1 lg1 pr1 c' lg' pr' :
  log_goes c lg pr c1 lg1 pr1 → log_goes c1 lg1 pr1 c' lg' pr' → log_goes c lg pr c' lg' pr'.
Proof using Type. intros [n Hn] [k Hk]. exists (n + k)%nat. by rewrite log_alone_app, Hn, bind_Ok. Qed.

(** The rank is enough. *)
Lemma log_goes_rank c lg pr c' lg' pr' :
  log_goes c lg pr c' lg' pr' → ∃ n, (n ≤ log_rank c)%nat ∧ log_alone n c lg pr = Ok (c', lg', pr').
Proof using Type.
  intros [n Hn]. revert c lg pr Hn. induction n as [|n IH]; intros c lg pr Hn; cbn [log_alone] in Hn.
  { exists 0%nat. split; [lia|done]. }
  apply bind_Ok_inv in Hn as ([[c1 lg1] pr1] & Hstep & Hn). destruct (log_returned c) eqn:Hc.
  - destruct (log_returned_stays _ _ _ _ _ _ Hstep Hc) as (-> & -> & ->). by apply IH.
  - pose proof (log_call_rank _ _ _ _ _ _ Hstep Hc) as Hlt. destruct (IH _ _ _ Hn) as (m & Hm & Hrun).
    exists (S m). split; [lia|]. cbn [log_alone]. by rewrite Hstep, bind_Ok.
Qed.

(** ** Its accesses of a segment *)

Lemma segment_write_goes lg p new buf pr rc pr' :
  write_segment p buf pr = Ok (rc, pr') →
  log_goes (Writing buf (LW_segment p new W_begin)) lg pr (Writing buf (LW_segment p new (W_return rc))) lg pr'.
Proof using Type.
  unfold write_segment. intros (s0 & Hs0 & ([rc0 s'] & [n Hn]%write_goes & [= -> <-])%bind_Ok_inv)%bind_Ok_inv.
  assert (Hs : pr_segments pr !! p = Some s0).
  { unfold deref_segment in Hs0. destruct (pr_segments pr !! p) as [s|]; [|done]. by injection Hs0 as ->. }
  clear Hs0. revert pr s0 Hs Hn. generalize W_begin. induction n as [|n IH]; intros wpc pr s Hs Hn; cbn [alone] in Hn.
  { injection Hn as -> ->. rewrite insert_id by done. destruct pr. apply log_goes_refl. }
  apply bind_Ok_inv in Hn as ([c1 s1] & Hstep & Hn).
  destruct (returned (Write buf wpc)) eqn:Hret.
  { destruct (returned_stays _ _ _ _ Hret Hstep) as [-> ->]. by apply (IH wpc pr s). }
  cbn [call_step] in Hstep. apply bind_Ok_inv in Hstep as ([wpc1 s2] & Hstep & [= <- <-]).
  eapply (log_goes_step _ lg pr (Writing buf (LW_segment p new wpc1)) lg (Process (pr_os pr) (<[p := s2]> (pr_segments pr)))).
  - cbn [log_call_step log_write_step]. unfold deref_segment. rewrite Hs. simpl of_option.
    destruct wpc; try done; by rewrite bind_Ok, Hstep, !bind_Ok.
  - eapply eq_ind; [apply (IH wpc1 (Process (pr_os pr) (<[p := s2]> (pr_segments pr))) s2); [apply lookup_insert_eq|done]|].
    simpl. by rewrite insert_insert_eq.
Qed.

Lemma segment_read_goes lg p rel o fr pr s rc fr' :
  pr_segments pr !! p = Some s → segment_read s rel fr = Ok (rc, fr') →
  log_goes (Reading o fr (LR_segment p rel R_begin)) lg pr (Reading o fr (LR_segment p rel (R_return rc fr'))) lg pr.
Proof using Type.
  intros Hs [n Hn]%read_goes. revert Hn. generalize R_begin. induction n as [|n IH]; intros rpc Hn; cbn [alone] in Hn.
  { injection Hn as ->. apply log_goes_refl. }
  apply bind_Ok_inv in Hn as ([c1 s1] & Hstep & Hn). cbn [call_step] in Hstep.
  apply bind_Ok_inv in Hstep as (rpc1 & Hstep & [= <- <-]).
  eapply log_goes_step; [|by apply IH]. cbn [log_call_step log_read_step]. unfold deref_segment. rewrite Hs.
  simpl of_option. by rewrite bind_Ok, Hstep, !bind_Ok.
Qed.

Lemma segment_sync_goes lg p pr rc pr' :
  sync_segment p pr = Ok (rc, pr') →
  log_goes (Syncing (LS_segment p S_addr)) lg pr (Syncing (LS_segment p (S_return rc))) lg pr'.
Proof using Type.
  unfold sync_segment. intros (s & Hs & Hrun)%bind_Ok_inv.
  assert (Hs' : pr_segments pr !! p = Some s).
  { unfold deref_segment in Hs. destruct (pr_segments pr !! p) as [s1|]; [|done]. by injection Hs as ->. }
  pose proof (sync_alone_is_sequential s (pr_os pr)) as Hn.
  destruct (segment_sync s (pr_os pr)) as [[rc1 s'] w'] eqn:Hsync. injection Hrun as -> <-.
  clear Hs Hsync. revert Hn. generalize S_addr as spc. revert pr s Hs'. generalize 10%nat as n.
  induction n as [|n IH]; intros pr s Hs spc Hn; cbn [sync_alone] in Hn.
  { injection Hn as -> -> <-. rewrite insert_id by done. destruct pr. apply log_goes_refl. }
  destruct (sync_step spc s (pr_os pr)) as [[spc1 s1] w1] eqn:Hstep.
  eapply (log_goes_step _ lg pr (Syncing (LS_segment p spc1)) lg (Process w1 (<[p := s1]> (pr_segments pr)))).
  - cbn [log_call_step log_sync_step]. unfold deref_segment. rewrite Hs. simpl of_option. by rewrite bind_Ok, Hstep.
  - eapply eq_ind; [apply (IH (Process w1 (<[p := s1]> (pr_segments pr))) s1); [apply lookup_insert_eq|done]|].
    simpl. by rewrite insert_insert_eq.
Qed.

(** ** The operations of the log *)

(** One access, by the equations for it. *)
Local Ltac go H :=
  eapply log_goes_step; [cbn [log_call_step log_write_step log_read_step log_sync_step]; H; reflexivity|].

(** The write to a new segment, from its creation on. *)
Lemma new_segment_goes buf b lg pr rc lg' pr' :
  ('(rc, sgm, pr) ← create_segment b lg pr;
   if negb (rc =? 0) then Ok (rc, lg, pr)
   else
     '(written, pr) ← write_segment sgm buf pr;
     if written =? ELEOS then '(_, pr) ← close_segment sgm pr; Ok (ELNOWCP, lg, pr)
     else index_segment sgm written lg pr) = Ok (rc, lg', pr') →
  log_goes (Writing buf (LW_create b)) lg pr (Writing buf (LW_unlock rc)) lg' pr'.
Proof using Type.
  intros ([[rc1 p] pr1] & Hcreate & Hrun)%bind_Ok_inv. go ltac:(rewrite Hcreate, !bind_Ok).
  destruct (negb (rc1 =? 0)); [injection Hrun as <- <- <-; apply log_goes_refl|].
  apply bind_Ok_inv in Hrun as ([n pr2] & Hw & Hrun). eapply log_goes_trans; [by apply segment_write_goes|].
  go idtac. unfold segment_written. destruct (n =? ELEOS).
  - apply bind_Ok_inv in Hrun as ([rc2 pr3] & Hclose & [= <- <- <-]). go ltac:(rewrite Hclose, !bind_Ok). apply log_goes_refl.
  - go ltac:(rewrite Hrun, !bind_Ok). apply log_goes_refl.
Qed.

Lemma trywrite_goes buf lg pr rc lg' pr' :
  mqlog_trywrite lg buf pr = Ok (rc, lg', pr') →
  log_goes (Writing buf LW_last) lg pr (Writing buf (LW_unlock rc)) lg' pr'.
Proof using Type.
  unfold mqlog_trywrite. intros (t & Ht & ([rc1 v] & Hv & Hrun)%bind_Ok_inv)%bind_Ok_inv.
  go ltac:(rewrite Ht, bind_Ok, Hv, !bind_Ok). destruct v as [p|]; [|by apply new_segment_goes].
  apply bind_Ok_inv in Hrun as ([n pr1] & Hw & Hrun). eapply log_goes_trans; [by apply segment_write_goes|].
  go idtac. unfold segment_written. destruct (n =? ELEOS); [|injection Hrun as <- <- <-; apply log_goes_refl].
  apply bind_Ok_inv in Hrun as (s & Hs & Hrun). cbv zeta in Hrun. go ltac:(rewrite Hs, !bind_Ok). by apply new_segment_goes.
Qed.

Lemma write_call_goes buf lg pr rc lg' pr' :
  mqlog_write lg buf pr = Ok (rc, lg', pr') →
  log_goes (Writing buf LW_lock) lg pr (Writing buf (LW_return rc)) lg' pr'.
Proof using Type.
  unfold mqlog_write. intros Hrun. destruct (zlen buf =? 0) eqn:Hz.
  { injection Hrun as <- <- <-. go ltac:(rewrite Hz). apply log_goes_refl. }
  destruct (pthread_mutex_trylock (lg_lock lg)) as [[rc1 e] m] eqn:Hlock. go ltac:(rewrite Hz, Hlock).
  destruct (rc1 =? EBUSY); [injection Hrun as <- <- <-; apply log_goes_refl|].
  destruct (negb (rc1 =? 0)); [injection Hrun as <- <- <-; apply log_goes_refl|].
  apply bind_Ok_inv in Hrun as ([[n lg1] pr1] & Hw & Hrun). eapply log_goes_trans; [by apply trywrite_goes|].
  destruct (pthread_mutex_unlock (lg_lock lg1)) as [rc2 m2] eqn:Hun. injection Hrun as <- <- <-.
  go ltac:(rewrite Hun). apply log_goes_refl.
Qed.

(** A read that will return this. *)
Definition reads c lg pr (rc : Z) (fr : frame) (lg' : mqlog T M) : Prop :=
  ∃ c', log_goes c lg pr c' lg' pr ∧ read_result c' = Some (rc, fr).

Lemma reads_step c lg pr c1 lg1 rc fr lg' :
  log_call_step c lg pr = Ok (c1, lg1, pr) → reads c1 lg1 pr rc fr lg' → reads c lg pr rc fr lg'.
Proof using Type. intros Hs (c' & Hg & Hr). exists c'. split; [by eapply log_goes_step|done]. Qed.

Lemma reads_return o fr0 lg pr rc fr : reads (Reading o fr0 (LR_return rc fr)) lg pr rc fr lg.
Proof using Type. eexists. split; [apply log_goes_refl|done]. Qed.

Local Ltac go_read H := eapply reads_step; [cbn [log_call_step log_read_step]; H; reflexivity|].

Lemma read_call_goes o fr lg pr rc fr' lg' :
  mqlog_read lg o fr pr = Ok (rc, fr', lg') → reads (Reading o fr LR_lock) lg pr rc fr' lg'.
Proof using Type.
  unfold mqlog_read, mqlog_tryread. intros Hrun.
  destruct (pthread_mutex_trylock (lg_lock lg)) as [[rc1 e] m] eqn:Hlock. go_read ltac:(rewrite Hlock).
  destruct (rc1 =? EBUSY); [injection Hrun as <- <- <-; apply reads_return|].
  destruct (negb (rc1 =? 0)); [injection Hrun as <- <- <-; apply reads_return|].
  apply bind_Ok_inv in Hrun as (t & Ht & ([[rc2 it] t'] & Hf & Hrun)%bind_Ok_inv).
  destruct it as [it|]; cbv zeta in Hrun.
  2:{ injection Hrun as <- <- <-. go_read ltac:(rewrite Ht, bind_Ok, Hf, !bind_Ok). apply reads_return. }
  apply bind_Ok_inv in Hrun as (v & Hv & Hrun). go_read ltac:(rewrite Ht, bind_Ok, Hf, bind_Ok, Hv, !bind_Ok).
  destruct (pthread_mutex_unlock _) as [rc3 m3] eqn:Hun. go_read ltac:(rewrite Hun).
  destruct v; cbn [negb] in Hrun.
  2:{ destruct (negb (rc3 =? 0)); injection Hrun as <- <- <-; apply reads_return. }
  destruct (negb (rc3 =? 0)); [injection Hrun as <- <- <-; apply reads_return|].
  apply bind_Ok_inv in Hrun as (p & Hp & (s & Hs & ([rc4 fr4] & Hr & [= <- <- <-])%bind_Ok_inv)%bind_Ok_inv).
  go_read ltac:(simpl; rewrite Hp, !bind_Ok). go_read ltac:(rewrite Hs, !bind_Ok).
  unfold deref_segment in Hs. destruct (pr_segments pr !! p) as [s1|] eqn:Hps; [|done]. injection Hs as ->.
  eexists. split; [by eapply segment_read_goes|done].
Qed.

Lemma sync_call_goes lg pr rc pr' :
  mqlog_sync lg pr = Ok (rc, pr') →
  ∃ c, log_goes (Syncing LS_last) lg pr c lg pr' ∧ sync_result c = Some rc.
Proof using Type.
  unfold mqlog_sync. intros (t & Ht & ([rc1 v] & Hv & Hrun)%bind_Ok_inv)%bind_Ok_inv. destruct v as [p|].
  - eexists. split; [go ltac:(rewrite Ht, bind_Ok, Hv, !bind_Ok); by apply segment_sync_goes|done].
  - injection Hrun as <- <-. exists (Syncing (LS_return 0)). split; [|done].
    go ltac:(rewrite Ht, bind_Ok, Hv, !bind_Ok). apply log_goes_refl.
Qed.

(** The accesses of a call of the log, one after the other
    with nothing in between, are [mqlog_write], [mqlog_read] and [mqlog_sync]:
    whenever these are defined, a call that runs alone returns what they return
    and leaves the log and the process they leave. *)
Theorem log_alone_is_sequential lg pr :
  (∀ buf rc lg' pr', mqlog_write lg buf pr = Ok (rc, lg', pr') →
     ∃ n, (n ≤ 34 + 2 * length buf)%nat ∧
       log_alone n (Writing buf LW_lock) lg pr = Ok (Writing buf (LW_return rc), lg', pr')) ∧
  (∀ o fr rc fr' lg', mqlog_read lg o fr pr = Ok (rc, fr', lg') →
     ∃ n c, (n ≤ 11)%nat ∧ log_alone n (Reading o fr LR_lock) lg pr = Ok (c, lg', pr) ∧
       read_result c = Some (rc, fr')) ∧
  (∀ rc pr', mqlog_sync lg pr = Ok (rc, pr') →
     ∃ n c, (n ≤ 11)%nat ∧ log_alone n (Syncing LS_last) lg pr = Ok (c, lg, pr') ∧ sync_result c = Some rc).
Proof using Type.
  split; [|split].
  - intros buf rc lg' pr' Hrun%write_call_goes. apply log_goes_rank in Hrun as (n & Hn & Hrun). exists n.
    split; [cbn [log_rank rank] in Hn; lia|done].
  - intros o fr rc fr' lg' (c & Hrun & Hres)%read_call_goes. apply log_goes_rank in Hrun as (n & Hn & Hrun). by exists n, c.
  - intros rc pr' (c & Hrun & Hres)%sync_call_goes. apply log_goes_rank in Hrun as (n & Hn & Hrun). by exists n, c.
Qed.
End alone.

(** Two writes in turn: one finds the log locked. *)
Definition two_writes : log_state mem_os tree_and_heap mbptree_leaf_iterator flag_mutex :=
  LogState demo_log demo_opened_process [Writing (zeros 100) LW_lock; Writing (zeros 100) LW_lock].
Definition turns : list log_event := flat_map (λ _, [Log_run 0; Log_run 1]) (seq 0 234).

Lemma log_calls_are_wait_free_witness :
  ∃ c', ls_calls (match exec_log turns two_writes with Ok st => st | _ => two_writes end) !! 0%nat = Some c' ∧
    log_returned c' = true.
Proof.
  apply (log_calls_are_wait_free turns two_writes _ 0 (Writing (zeros 100) LW_lock)).
  - by vm_compute.
  - reflexivity.
  - apply Nat.leb_le. by vm_compute.
Defined.
