(* ===== verification/MqlogThreadsInv.v ===== *)
(** * The log under concurrent calls: the invariant

    The mutex makes one call the holder. As far as the log is concerned the
    process is the one at the last moment nobody was in [segment_write], and
    what the holder has left to do is a suffix of the sequential operation;
    each segment sees its own calls, and keeps the invariant of
    SegmentThreadsInv.v with them. *)

From S2P Require Import Prelude Errno Prot Posix Util Segment SegmentInv SegmentOps SegmentFile SegmentFileSpec SegmentThreads SegmentThreadsInv SegmentThreadsOps SegmentThreadsStep SegmentThreadsSpec SegmentThreadsSync SegmentThreadsRest Index Pthread Mqlog MqlogInv MqlogSynced MqlogOps MqlogThreads.

(** ** Chunks that grow *)

(** Every chunk stays where it is, and its payloads too. *)
Definition chunks_grow (cs cs' : list chunk) : Prop :=
  ∀ b c, chunk_at cs b c →
    ∃ c', chunk_at cs' b c' ∧ c_addr c' = c_addr c ∧ c_items c `prefix_of` c_items c'.

#[export] Instance chunks_grow_preorder : PreOrder chunks_grow.
Proof.
  split.
  - intros cs b c Hc. by exists c.
  - intros cs1 cs2 cs3 H12 H23 b c Hc. destruct (H12 b c Hc) as (c2 & Hc2 & Ha2 & Hi2).
    destruct (H23 b c2 Hc2) as (c3 & Hc3 & Ha3 & Hi3). exists c3. split_and!; [done|congruence|by etrans].
Qed.

Lemma grow_snoc cs c : chunks_grow cs (cs ++ [c]).
Proof. intros b c0 (cs1 & cs2 & -> & ->). exists c0. split; [|done]. exists cs1, (cs2 ++ [c]). by rewrite <- app_assoc. Qed.

Lemma grow_last cs c c' :
  c_addr c' = c_addr c → c_items c `prefix_of` c_items c' → chunks_grow (cs ++ [c]) (cs ++ [c']).
Proof.
  intros Ha Hi b c0 (cs1 & cs2 & Heq & ->). destruct cs2 as [|c2 cs2 _] using rev_ind.
  - apply app_inj_tail in Heq as [-> ->]. exists c'. split; [apply chunk_at_last|done].
  - rewrite app_comm_cons, app_assoc in Heq. apply app_inj_tail in Heq as [-> ->]. exists c0.
    split; [|done]. exists cs1, (cs2 ++ [c']). by rewrite <- !app_assoc.
Qed.

Lemma grow_items cs cs' : chunks_grow cs cs' → items cs `prefix_of` items cs'.
Proof.
  intros Hg. assert (Hl : ∀ i p, items cs !! i = Some p → items cs' !! i = Some p).
  { intros i p (b & c & j & Hc & Hj & ->)%items_chunk. destruct (Hg _ _ Hc) as (c' & Hc' & _ & Hpre).
    apply (chunk_at_lookup _ _ c'); [done|]. by eapply prefix_lookup_Some. }
  revert Hl. generalize (items cs) (items cs'). clear. intros l. induction l as [|p l IH]; intros l' Hl; [apply prefix_nil|].
  destruct l' as [|p' l']; [by specialize (Hl 0%nat p eq_refl)|]. pose proof (Hl 0%nat p eq_refl) as Heq. injection Heq as ->.
  apply prefix_cons, IH. intros i q. apply (Hl (S i)).
Qed.

(** ** The calls on a segment *)

Section calls.
Context {It : Type}.
Implicit Types (c : log_call It).

(** The call, as the segment at [a] sees it. *)
Definition seen_by (a : Z) c : call :=
  match c with
  | Writing buf (LW_segment p _ pc) => if p =? a then Write buf pc else idle_call
  | Reading _ fr (LR_segment p rel pc) => if p =? a then Read rel fr pc else idle_call
  | _ => idle_call
  end.

Lemma seen_insert a (cs : list (log_call It)) i c :
  seen_by a <$> <[i := c]> cs = <[i := seen_by a c]> (seen_by a <$> cs).
Proof. apply list_fmap_insert. Qed.

Lemma seen_same a (cs : list (log_call It)) i c c' :
  cs !! i = Some c → seen_by a c' = seen_by a c → seen_by a <$> <[i := c']> cs = seen_by a <$> cs.
Proof. intros Hc Hs. rewrite seen_insert, Hs. apply list_insert_id. by rewrite list_lookup_fmap, Hc. Qed.

Lemma seen_lookup a (cs : list (log_call It)) i c : cs !! i = Some c → (seen_by a <$> cs) !! i = Some (seen_by a c).
Proof. intros Hc. by rewrite list_lookup_fmap, Hc. Qed.

(** The calls that hold the mutex. *)
Definition holding c : bool :=
  match c with
  | Writing _ (LW_lock | LW_return _) => false
  | Writing _ _ => true
  | Reading _ _ (LR_floor | LR_unlock _ _) => true
  | _ => false
  end.

(** Only the holder is in [segment_write]. *)
Lemma seen_reading a c : holding c = false → reading (seen_by a c).
Proof.
  destruct c as [buf pc|off fr pc|pc]; [|destruct pc; simpl; try done; by destruct (_ =? _)|done].
  destruct pc; done.
Qed.

Lemma seen_pending a c : pending (seen_by a c) = true → holding c = true.
Proof.
  intros Hp. destruct (holding c) eqn:Hh; [done|]. apply (seen_reading a) in Hh. by destruct (seen_by a c).
Qed.

Lemma written_insert (cs : list (log_call It)) i c c' :
  cs !! i = Some c → log_accepted c = None →
  log_written (<[i := c']> cs) ≡ₚ log_written cs ++ option_list (log_accepted c').
Proof.
  intros Hc Hn. rewrite (insert_take_drop cs i c') by (by eapply lookup_lt_Some).
  rewrite <- (take_drop_middle cs i c Hc) at 3. unfold log_written. rewrite !omap_app. simpl. rewrite Hn.
  destruct (log_accepted c') as [p|]; simpl; [solve_Permutation|by rewrite app_nil_r].
Qed.

Lemma written_same (cs : list (log_call It)) i c c' :
  cs !! i = Some c → log_accepted c' = log_accepted c → log_written (<[i := c']> cs) = log_written cs.
Proof.
  intros Hc He. rewrite (insert_take_drop cs i c') by (by eapply lookup_lt_Some).
  rewrite <- (take_drop_middle cs i c Hc) at 3. unfold log_written. rewrite !omap_app. simpl. by rewrite He.
Qed.

Lemma written_length (cs : list (log_call It)) : (length (log_written cs) ≤ length cs)%nat.
Proof.
  induction cs as [|c cs IH]; [done|]. unfold log_written in *. rewrite omap_cons.
  destruct (log_accepted c); simpl; lia.
Qed.
End calls.

(** ** The invariant *)

Section inv.
Context {W T It M : Type}.
Context `{!Posix W, !PosixLaws W, !Index T It, !IndexLaws T It, !Pthread M, !PthreadLaws M}.
Context {mode : Mode}.
Context (dir : string) (sz lo : Z).
Implicit Types (lg : mqlog T M) (pr : process W) (c : log_call It).

(** The chunks of the index, and perhaps one of a segment that is not yet
    there. *)
Record at_rest lg pr (cs ex : list chunk) : Prop := {
  ar_store : store_inv dir sz lo pr (cs ++ ex);
  ar_nonempty : nonempty_chunks cs;
  ar_indexed : indexed dir sz lg cs
}.

(** The process and the one at rest, while a call stands in [segment_write]. *)
Definition segment_writer c : option (bytes * Z * write_pc) :=
  match c with Writing buf (LW_segment p _ pc) => Some (buf, p, pc) | _ => None end.

Definition in_segment (o : option (bytes * Z * write_pc)) pr pr0 : Prop :=
  match o with
  | None => pr = pr0
  | Some (buf, p, pc) => ∃ sgm0 sgm, pr_segments pr0 !! p = Some sgm0 ∧ wrote buf sgm0 pc sgm ∧
      pr = Process (pr_os pr0) (<[p := sgm]> (pr_segments pr0))
  end.

(** What the holder knows. *)
Definition last_at (cs : list chunk) (p : Z) : Prop := ∃ cs1 k, cs = cs1 ++ [k] ∧ c_addr k = p.

Definition holder_ok c (cs ex : list chunk) : Prop :=
  match c with
  | Writing buf pc =>
    payload_ok sz lo buf ∧
    match pc with
    | LW_last => ex = []
    | LW_create b => ex = [] ∧ b = zlen (items cs)
    | LW_segment p new _ => if new then ex = [Chunk p [] false] else ex = [] ∧ last_at cs p
    | LW_roll p => ex = [] ∧ last_at cs p
    | LW_index p n => n = zlen buf ∧ ∃ k, ex = [k] ∧ c_addr k = p ∧ c_items k = [buf]
    | LW_unlock rc => ex = [] ∧ (rc = zlen buf ∨ rc ∈ os_errors)
    | _ => False
    end
  | _ => ex = []
  end.

(** An iterator on a chunk whose base is not above the offset. *)
Definition on_chunk lg (cs : list chunk) (it : It) (o : Z) : Prop :=
  ∃ t b k, lg_index lg = Some t ∧ ix_on t it (b, c_addr k) ∧ chunk_at cs b k ∧ b ≤ o.

(** What a call knows. *)
Definition log_call_ok lg (cs : list chunk) c : Prop :=
  match c with
  | Writing buf pc =>
    (zlen buf = 0 ∨ payload_ok sz lo buf) ∧
    match pc with
    | LW_return rc => rc = zlen buf ∨ rc ∈ ELLOCK :: os_errors
    | _ => True
    end
  | Reading o fr pc =>
    0 ≤ o < 2 ^ 64 ∧
    match pc with
    | LR_unlock it true | LR_value it => on_chunk lg cs it o
    | LR_base p => ∃ b k, chunk_at cs b k ∧ c_addr k = p ∧ b ≤ o
    | LR_segment p rel pc => sound pc ∧ ∃ b k, chunk_at cs b k ∧ c_addr k = p ∧ b ≤ o ∧ rel = o - b
    | LR_return rc fr' => rc ∈ [ELLOCK; ELNORD] ∧ fr' = fr
    | _ => True
    end
  | Syncing (LS_segment p _) => p ∈ c_addr <$> cs
  | Syncing _ => True
  end.

(** The mutex, and the call that holds it. *)
Definition mutex_ok (h : option nat) (m : M) (cs : list (log_call It)) : Prop :=
  (∀ i c, cs !! i = Some c → holding c = true → h = Some i) ∧
  match h with
  | None => mutex_free m
  | Some i => mutex_held m ∧ ∃ c, cs !! i = Some c ∧ holding c = true
  end.

(** A segment and its calls. *)
Definition segment_ok pr (cs : list (log_call It)) (g : Z → ghost) (k : chunk) : Prop :=
  ∃ sgm, pr_segments pr !! c_addr k = Some sgm ∧
    conc_inv lo (c_items k) (State sgm (seen_by (c_addr k) <$> cs)) (g (c_addr k)).

Record log_ghost := LogGhost {
  gh_holder : option nat;
  gh_process : process W;
  gh_chunks : list chunk;
  gh_new : list chunk;
  gh_segments : Z → ghost
}.

Record log_conc (items0 : list bytes) (st : log_state W T It M) (gh : log_ghost) : Prop := {
  lc_rest : at_rest (ls_log st) (gh_process gh) (gh_chunks gh) (gh_new gh);
  lc_items : ∃ ws, items (gh_chunks gh) = items0 ++ ws ∧ ws ≡ₚ log_written (ls_calls st);
  lc_mutex : mutex_ok (gh_holder gh) (lg_lock (ls_log st)) (ls_calls st);
  lc_process :
    in_segment (gh_holder gh ≫= λ i, ls_calls st !! i ≫= segment_writer) (ls_process st) (gh_process gh);
  lc_idle : gh_holder gh = None → gh_new gh = [];
  lc_holder i c : gh_holder gh = Some i → ls_calls st !! i = Some c →
    holder_ok c (gh_chunks gh) (gh_new gh);
  lc_calls i c : ls_calls st !! i = Some c → log_call_ok (ls_log st) (gh_chunks gh) c;
  lc_segments k : k ∈ gh_chunks gh ++ gh_new gh →
    segment_ok (ls_process st) (ls_calls st) (gh_segments gh) k
}.

(** What a step does to the chunks and to the payloads of the segments. *)
Record log_grows (gh gh' : log_ghost) : Prop := {
  gr_chunks : chunks_grow (gh_chunks gh) (gh_chunks gh');
  gr_payloads k : k ∈ gh_chunks gh →
    g_payloads (gh_segments gh (c_addr k)) `prefix_of` g_payloads (gh_segments gh' (c_addr k))
}.
End inv.
Arguments log_ghost : clear implicits.
Arguments LogGhost {W}.
Arguments gh_holder {W}.
Arguments gh_process {W}.
Arguments gh_chunks {W}.
Arguments gh_new {W}.
Arguments gh_segments {W}.
