(* ===== verification/MqlogThreadsOps.v ===== *)
(** * The log under concurrent calls: moves of one call *)

From S2P Require Import Prelude Errno Prot Posix Util Segment SegmentInv SegmentOps SegmentFile SegmentFileSpec SegmentFrame SegmentThreads SegmentThreadsInv SegmentThreadsOps SegmentThreadsStep SegmentThreadsSpec SegmentThreadsSync SegmentThreadsRest Index Pthread Mqlog MqlogInv MqlogSynced MqlogOps MqlogThreads MqlogThreadsInv.

Section moves.
Context {W T It M : Type}.
Context `{!Posix W, !PosixLaws W, !Index T It, !IndexLaws T It, !Pthread M, !PthreadLaws M}.
Context {mode : Mode}.
Context (dir : string) (sz lo : Z) (items0 : list bytes).
Implicit Types (lg : mqlog T M) (pr : process W) (c : log_call It) (gh : log_ghost W).

Abbreviation inv := (log_conc dir sz lo items0).
Abbreviation holder_ok := (holder_ok sz lo).
Abbreviation log_call_ok := (log_call_ok sz lo).
Abbreviation segment_ok := (segment_ok lo).

(** ** A segment and its files change, the payloads do not *)

Lemma store_chunk pr w' sgm' cs1 k cs2 (b := zlen (items cs1))
    (pr' := Process w' (<[c_addr k := sgm']> (pr_segments pr))) :
  store_inv dir sz lo pr (cs1 ++ k :: cs2) → nonempty_chunks (cs1 ++ [k]) → live dir sz pr' b k sgm' →
  elsewhere dir b (pr_os pr) w' → held w' = held (pr_os pr) → store_inv dir sz lo pr' (cs1 ++ k :: cs2).
Proof using Type.
  intros [[Hcs Hnd Honly Hbl H0] Hfresh] Hne Hl' He Hh. unfold held in Hh.
  injection Hh as Hfds Hmaps Hblocks. pose proof (live_base _ _ _ _ _ _ Hl') as Hb.
  apply Forall_app in Hne as [Hne Hnek]. rewrite Forall_singleton in Hnek.
  assert (Hpos : 0 < zlen (c_items k)) by (destruct (c_items k); [done|simpl; lia]).
  pose proof Hnd as Hnd'. rewrite fmap_app, fmap_cons in Hnd'. apply NoDup_app in Hnd' as (_ & Hd1 & Hd2).
  apply NoDup_cons in Hd2 as [Hd2 _].
  assert (Hother : ∀ k0 b0, chunk_ok dir sz lo pr b0 k0 → b ≠ b0 → c_addr k ≠ c_addr k0 → chunk_ok dir sz lo pr' b0 k0).
  { intros k0 b0 Hk0 Hnb Hna. apply (chunk_ok_other _ _ _ pr _ b _ _ Hk0); try done.
    - intros x q. unfold pr'. simpl. congruence.
    - unfold pr'. simpl. by apply lookup_insert_ne. }
  apply chunks_ok_app in Hcs as [H1 [[[sgm Hl] Hp] H2]]. split; [split|]; simpl; try done.
  - apply chunks_ok_app. split; [|split; [split; [by exists sgm'|done]|]].
    + eapply chunks_ok_impl; [|exact H1]. intros k0 l1 l2 Heq Hk0. apply Hother; [done|..].
      * rewrite Z.add_0_l. unfold b. rewrite Heq in *. apply items_nonempty in Hne. lia.
      * intros Ha. apply (Hd1 (c_addr k0)); [rewrite Heq, fmap_app; apply elem_of_app; right; left|].
        rewrite <- Ha. left.
    + eapply chunks_ok_impl; [|exact H2]. intros k0 l1 l2 Heq Hk0. apply Hother; [done|unfold b; lia|].
      intros Ha. apply Hd2. rewrite Ha, Heq, fmap_app. apply elem_of_app. right. left.
  - intros a Ha. destruct (decide (c_addr k = a)) as [<-|Hneq].
    { rewrite fmap_app. apply elem_of_app. right. left. }
    rewrite lookup_insert_ne in Ha by done. by apply Honly.
  - rewrite dom_insert, Hblocks. apply union_least; [|done].
    apply singleton_subseteq_l, Hbl, elem_of_dom. eexists. apply Hl.
  - by rewrite Hfds.
  - intros off Hoff. assert (b < zlen (items (cs1 ++ k :: cs2))).
    { unfold b. rewrite items_app, items_cons, !length_app. lia. }
    eapply stored_elsewhere; [exact He|lia|done|unfold max_offset in Hoff; lia|by apply Hfresh].
Qed.

(** ** What the calls know, when the log moves on *)

Lemma index_kept_refl lg lg' : lg_index lg' = lg_index lg → index_kept lg lg'.
Proof using Type. intros Heq t it kv Ht Hon. exists t. by rewrite Heq. Qed.

Lemma call_ok_kept lg lg' ks ks' c :
  index_kept lg lg' → chunks_grow ks ks' → log_call_ok lg ks c → log_call_ok lg' ks' c.
Proof using Type.
  intros Hix Hg.
  assert (Hon : ∀ it o, on_chunk lg ks it o → on_chunk lg' ks' it o).
  { intros it o (t & b & k & Ht & Hit & Hk & Hb). destruct (Hix _ _ _ Ht Hit) as (t' & Ht' & Hit').
    destruct (Hg _ _ Hk) as (k' & Hk' & Ha & _). exists t', b, k'. by rewrite Ha. }
  destruct c as [buf pc|o fr pc|pc]; [done| |].
  - intros [Ho Hpc]. split; [done|]. destruct pc as [| |it valid|it|p|p rel rpc|rc fr']; try done.
    + destruct valid; [|done]. by apply Hon.
    + by apply Hon.
    + destruct Hpc as (b & k & Hk & Ha & Hb). destruct (Hg _ _ Hk) as (k' & Hk' & Ha' & _).
      exists b, k'. split_and!; [done|congruence|done].
    + destruct Hpc as [Hs (b & k & Hk & Ha & Hb)]. destruct (Hg _ _ Hk) as (k' & Hk' & Ha' & _).
      split; [done|]. exists b, k'. split_and!; [done|congruence|apply Hb..].
  - destruct pc as [|p spc|rc]; try done. intros (k & -> & Hk)%list_elem_of_fmap.
    apply list_elem_of_split in Hk as (k1 & k2 & ->).
    destruct (Hg _ _ (ex_intro _ k1 (ex_intro _ k2 (conj eq_refl eq_refl)))) as (k' & Hk' & Ha & _).
    rewrite <- Ha. apply list_elem_of_fmap_2. by eapply chunk_at_in.
Qed.

(** ** The mutex *)

Lemma mutex_keep h m cs i c c' :
  mutex_ok h m cs → cs !! i = Some c → holding c' = holding c → mutex_ok h m (<[i := c']> cs).
Proof using Type.
  intros [Hone Hh] Hc Heq. split.
  - intros j c2 [(<- & <- & _)|[Hne Hj]]%list_lookup_insert_Some Hhold; [|by eapply Hone].
    apply (Hone i c); [done|congruence].
  - destruct h as [j|]; [|done]. destruct Hh as [Hm (cj & Hj & Hcj)]. split; [done|].
    destruct (decide (i = j)) as [->|Hne].
    + exists c'. rewrite list_lookup_insert_eq by (by eapply lookup_lt_Some). split; [done|].
      rewrite Hc in Hj. injection Hj as <-. congruence.
    + exists cj. by rewrite list_lookup_insert_ne.
Qed.

Lemma mutex_take m m' cs i c c' :
  mutex_ok None m cs → cs !! i = Some c → holding c' = true → mutex_held m' →
  mutex_ok (Some i) m' (<[i := c']> cs).
Proof using Type.
  intros [Hone _] Hc Hc' Hm. split.
  - intros j c2 [(<- & _)|[Hne Hj]]%list_lookup_insert_Some Hhold; [done|]. by specialize (Hone _ _ Hj Hhold).
  - split; [done|]. exists c'. by rewrite list_lookup_insert_eq by (by eapply lookup_lt_Some).
Qed.

Lemma mutex_give m m' cs i c' :
  mutex_ok (Some i) m cs → holding c' = false → mutex_free m' → mutex_ok None m' (<[i := c']> cs).
Proof using Type.
  intros [Hone _] Hc' Hm. split; [|done].
  intros j c2 [(-> & <- & _)|[Hne Hj]]%list_lookup_insert_Some Hhold; [congruence|].
  specialize (Hone _ _ Hj Hhold). congruence.
Qed.

Lemma holder_of h m cs i c : mutex_ok h m cs → cs !! i = Some c → holding c = true → h = Some i ∧ mutex_held m.
Proof using Type.
  intros [Hone Hh] Hc Hhold. pose proof (Hone _ _ Hc Hhold) as ->. split; [done|apply Hh].
Qed.

Lemma not_holder h m cs i c : mutex_ok h m cs → cs !! i = Some c → holding c = false → h ≠ Some i.
Proof using Type.
  intros [Hone Hh] Hc Hhold ->. destruct Hh as [_ (c2 & Hc2 & ?)]. rewrite Hc in Hc2. by injection Hc2 as <-; congruence.
Qed.

(** ** A call moves on *)

(** The payload a step stores. *)
Definition gain c c' : list bytes :=
  match log_accepted c with Some _ => [] | None => option_list (log_accepted c') end.

Lemma written_move cs i c c' :
  cs !! i = Some c → (log_accepted c = None ∨ log_accepted c' = log_accepted c) →
  log_written (<[i := c']> cs) ≡ₚ log_written cs ++ gain c c'.
Proof using Type.
  intros Hc Hacc. unfold gain. destruct (log_accepted c) eqn:Ha.
  - rewrite app_nil_r. rewrite (written_same cs i c c' Hc); [done|]. destruct Hacc; congruence.
  - by apply (written_insert cs i c c').
Qed.

Record moves lg pr gh i c c' lg' pr' gh' cs : Prop := {
  mv_rest : at_rest dir sz lo lg' (gh_process gh') (gh_chunks gh') (gh_new gh');
  mv_index : index_kept lg lg';
  mv_chunks : chunks_grow (gh_chunks gh) (gh_chunks gh');
  mv_items : items (gh_chunks gh') = items (gh_chunks gh) ++ gain c c';
  mv_accepted : log_accepted c = None ∨ log_accepted c' = log_accepted c;
  mv_mutex : mutex_ok (gh_holder gh') (lg_lock lg') (<[i := c']> cs);
  mv_process : in_segment (gh_holder gh' ≫= λ j, <[i := c']> cs !! j ≫= segment_writer) pr' (gh_process gh');
  mv_idle : gh_holder gh' = None → gh_new gh' = [];
  mv_holder : gh_holder gh' = Some i → holder_ok c' (gh_chunks gh') (gh_new gh');
  mv_other j : gh_holder gh' = Some j → j ≠ i →
    gh_holder gh = Some j ∧ gh_chunks gh' = gh_chunks gh ∧ gh_new gh' = gh_new gh;
  mv_call : log_call_ok lg' (gh_chunks gh') c';
  mv_segments k : k ∈ gh_chunks gh' ++ gh_new gh' → segment_ok pr' (<[i := c']> cs) (gh_segments gh') k
}.

Lemma move lg pr gh cs i c c' lg' pr' gh' :
  inv (LogState lg pr cs) gh → cs !! i = Some c → moves lg pr gh i c c' lg' pr' gh' cs →
  inv (LogState lg' pr' (<[i := c']> cs)) gh'.
Proof using Type.
  intros [Irest (ws & Iws & Iperm) Imx Ipr Iidle Ihold Icalls Iseg] Hc [Mrest Mix Mch Mit Macc Mmx Mpr Midle Mhold Moth Mcall Mseg].
  cbn [ls_log ls_process ls_calls] in *. split; cbn [ls_log ls_process ls_calls]; try done.
  - exists (ws ++ gain c c'). split; [by rewrite Mit, Iws, app_assoc|].
    rewrite Iperm. symmetry. by apply written_move.
  - intros j cj Hj [(<- & <- & _)|[Hne Hcj]]%list_lookup_insert_Some; [by apply Mhold|].
    destruct (Moth j Hj (not_eq_sym Hne)) as (Hh & -> & ->). by eapply Ihold.
  - intros j cj [(<- & <- & _)|[Hne Hcj]]%list_lookup_insert_Some; [done|].
    eapply call_ok_kept; [exact Mix|exact Mch|by eapply Icalls].
Qed.

(** A step that leaves the chunks and the index. *)
Lemma move_same lg pr gh cs i c c' m h' pr' gs' :
  inv (LogState lg pr cs) gh → cs !! i = Some c → log_accepted c' = log_accepted c →
  mutex_ok h' m (<[i := c']> cs) →
  in_segment (h' ≫= λ j, <[i := c']> cs !! j ≫= segment_writer) pr' (gh_process gh) →
  (h' = None → gh_new gh = []) → (h' = Some i → holder_ok c' (gh_chunks gh) (gh_new gh)) →
  (∀ j, h' = Some j → j ≠ i → gh_holder gh = Some j) → log_call_ok lg (gh_chunks gh) c' →
  (∀ k, k ∈ gh_chunks gh ++ gh_new gh → segment_ok pr' (<[i := c']> cs) gs' k) →
  inv (LogState (set_lg_lock m lg) pr' (<[i := c']> cs))
    (LogGhost h' (gh_process gh) (gh_chunks gh) (gh_new gh) gs').
Proof using Type.
  intros I Hc Hacc Hm Hp Hi Hh Ho Hok Hseg. apply (move lg pr gh cs i c c'); [done..|]. split; simpl; try done.
  - destruct (lc_rest _ _ _ _ _ _ I) as [Hst Hne [Hix Hd Hz Hf]]. by split.
  - intros t it kv Ht Hon. by exists t.
  - unfold gain. rewrite Hacc. destruct (log_accepted c); by rewrite app_nil_r.
  - by right.
  - intros j Hj Hne. split; [by apply Ho|done].
Qed.

Lemma set_lock_same lg : set_lg_lock (lg_lock lg) lg = lg.
Proof using Type. by destruct lg. Qed.

Lemma ghost_same gh :
  LogGhost (gh_holder gh) (gh_process gh) (gh_chunks gh) (gh_new gh) (gh_segments gh) = gh.
Proof using Type. by destruct gh. Qed.

(** ** The segments and their calls *)

Lemma segs_same pr cs gs (ks : list chunk) i c c' :
  (∀ k, k ∈ ks → segment_ok pr cs gs k) → cs !! i = Some c → (∀ a, seen_by a c' = seen_by a c) →
  ∀ k, k ∈ ks → segment_ok pr (<[i := c']> cs) gs k.
Proof using Type.
  intros Hseg Hc Hs k Hk. destruct (Hseg k Hk) as (sgm & Hsgm & I). exists sgm. split; [done|].
  by rewrite (seen_same _ _ _ c).
Qed.

(** A call comes to a segment. *)
Lemma segs_enter pr cs gs (ks : list chunk) i c c' :
  (∀ k, k ∈ ks → segment_ok pr cs gs k) → cs !! i = Some c → (∀ a, seen_by a c = idle_call) →
  (∀ a sgm g, call_ok lo sgm g i (seen_by a c')) →
  ∀ k, k ∈ ks → segment_ok pr (<[i := c']> cs) gs k.
Proof using Type.
  intros Hseg Hc Hs Hok k Hk. destruct (Hseg k Hk) as (sgm & Hsgm & I). exists sgm. split; [done|].
  rewrite seen_insert. apply (local_step lo (c_items k) _ _ _ _ idle_call); [done| |done|apply Hok].
  by rewrite (seen_lookup _ _ _ _ Hc), Hs.
Qed.

(** A call starts. *)
Lemma segs_start pr cs gs (ks : list chunk) c :
  (∀ k, k ∈ ks → segment_ok pr cs gs k) → (∀ a, seen_by a c = idle_call) →
  ∀ k, k ∈ ks → segment_ok pr (cs ++ [c]) gs k.
Proof using Type.
  intros Hseg Hs k Hk. destruct (Hseg k Hk) as (sgm & Hsgm & I). exists sgm. split; [done|].
  rewrite fmap_app. simpl. rewrite Hs. apply start_step; [done|apply idle_ok].
Qed.

(** The calls on a segment are calm, since the mutex lets in one writer. *)
Lemma mutex_calm h m (cs : list (log_call It)) a sgm : mutex_ok h m cs → calm (State sgm (seen_by a <$> cs)) = true.
Proof using Type.
  intros [Hone _]. apply (calm_one _ _ (default 0%nat h)). intros j sc Hj Hp.
  rewrite list_lookup_fmap in Hj. destruct (cs !! j) as [c|] eqn:Hc; [|done]. injection Hj as <-.
  apply seen_pending in Hp. by rewrite (Hone _ _ Hc Hp).
Qed.

Definition update_ghost (p : Z) (g : ghost) (gs : Z → ghost) : Z → ghost := λ a, if a =? p then g else gs a.

(** The call on the segment at [p] makes its next access. *)
Lemma segs_run h m pr cs gs (ks : list chunk) k0 i c sc :
  (∀ k, k ∈ ks → segment_ok pr cs gs k) → NoDup (c_addr <$> ks) → mutex_ok h m cs → 0 ≤ lo →
  k0 ∈ ks → cs !! i = Some c → seen_by (c_addr k0) c = sc → (∀ a, a ≠ c_addr k0 → seen_by a c = idle_call) →
  ∃ sgm sgm' sc' g', pr_segments pr !! c_addr k0 = Some sgm ∧ call_step sc sgm = Ok (sc', sgm') ∧
    g_payloads (gs (c_addr k0)) `prefix_of` g_payloads g' ∧
    ∀ c', seen_by (c_addr k0) c' = sc' → (∀ a, a ≠ c_addr k0 → seen_by a c' = idle_call) →
      ∀ k, k ∈ ks → segment_ok (Process (pr_os pr) (<[c_addr k0 := sgm']> (pr_segments pr))) (<[i := c']> cs)
        (update_ghost (c_addr k0) g' gs) k.
Proof using Type.
  intros Hseg Hnd Hm Hlo Hk0 Hc Hsc Hidle. destruct (Hseg k0 Hk0) as (sgm & Hsgm & I).
  destruct (event_inv lo (c_items k0) Hlo _ _ (Run i) I) as (st' & g' & Hrun & I' & Hext);
    [by eapply mutex_calm|done|].
  cbn [exec_event] in Hrun. rewrite (seen_lookup _ _ _ _ Hc), Hsc in Hrun.
  apply bind_Ok_inv in Hrun as ([sc' sgm'] & Hstep & [= <-]).
  exists sgm, sgm', sc', g'. split; [done|]. split; [done|]. split.
  { destruct (ext_prefix _ _ _ _ Hext) as [ps ->]. by eexists. }
  intros c' Hc' Hidle' k Hk. unfold segment_ok, update_ghost. destruct (Z.eqb_spec (c_addr k) (c_addr k0)) as [Ha|Ha].
  - assert (k = k0) as ->.
    { apply list_elem_of_lookup in Hk as [x Hx], Hk0 as [y Hy].
      assert (x = y) as ->; [|congruence]. apply (NoDup_lookup (c_addr <$> ks) x y (c_addr k0)); [done|..].
      - by rewrite list_lookup_fmap, Hx; simpl; rewrite Ha.
      - by rewrite list_lookup_fmap, Hy. }
    exists sgm'. split; [apply lookup_insert_eq|]. by rewrite seen_insert, Hc'.
  - destruct (Hseg k Hk) as (sgm1 & Hsgm1 & I1). exists sgm1. split.
    + simpl. by rewrite lookup_insert_ne by done.
    + rewrite (seen_same _ _ _ c c'); [done|done|]. by rewrite Hidle', Hidle.
Qed.

(** ** Moves between the segments *)

Lemma writer_same h (cs : list (log_call It)) i c c' :
  cs !! i = Some c → segment_writer c' = segment_writer c →
  (h ≫= λ j : nat, <[i := c']> cs !! j ≫= segment_writer) = (h ≫= λ j : nat, cs !! j ≫= segment_writer).
Proof using Type.
  intros Hc Hw. destruct h as [j|]; [|done]. simpl. destruct (decide (i = j)) as [->|Hne].
  - rewrite list_lookup_insert_eq by (by eapply lookup_lt_Some). by rewrite Hc; simpl; rewrite Hw.
  - by rewrite list_lookup_insert_ne.
Qed.

(** A step that changes nothing but the call. *)
Lemma move_quiet lg pr gh cs i c c' :
  inv (LogState lg pr cs) gh → cs !! i = Some c → log_accepted c' = log_accepted c →
  holding c' = holding c → segment_writer c' = segment_writer c → (∀ a, seen_by a c' = seen_by a c) →
  (holding c = true → holder_ok c' (gh_chunks gh) (gh_new gh)) → log_call_ok lg (gh_chunks gh) c' →
  inv (LogState lg pr (<[i := c']> cs)) gh.
Proof using Type.
  intros I Hc Hacc Hh Hw Hs Hhold Hok. rewrite <- (set_lock_same lg), <- (ghost_same gh).
  pose proof (lc_mutex _ _ _ _ _ _ I) as Hm. simpl in Hm.
  apply (move_same lg pr gh cs i c); try done.
  - by apply (mutex_keep _ _ _ _ c).
  - rewrite (writer_same _ _ _ c) by done. apply (lc_process _ _ _ _ _ _ I).
  - apply (lc_idle _ _ _ _ _ _ I).
  - intros Hi. destruct (holding c) eqn:Hhc; [by apply Hhold|]. by destruct (not_holder _ _ _ _ _ Hm Hc Hhc).
  - apply (segs_same _ _ _ _ _ c); [apply (lc_segments _ _ _ _ _ _ I)|done|done].
Qed.

(** The holder outside [segment_write] finds the process at rest. *)
Lemma holder_rest lg pr gh cs i c :
  inv (LogState lg pr cs) gh → cs !! i = Some c → gh_holder gh = None ∨ gh_holder gh = Some i →
  segment_writer c = None → pr = gh_process gh.
Proof using Type.
  intros I Hc Hh Hw. pose proof (lc_process _ _ _ _ _ _ I) as Hp. cbn [ls_calls ls_process] in Hp.
  destruct Hh as [Hh|Hh]; rewrite Hh in Hp; [done|]. simpl in Hp. rewrite Hc in Hp. simpl in Hp. by rewrite Hw in Hp.
Qed.

(** The mutex is taken or given back, or its holder moves on, outside the
    segments. *)
Lemma move_mutex lg pr gh cs i c c' h' m :
  inv (LogState lg pr cs) gh → cs !! i = Some c → log_accepted c' = log_accepted c →
  (∀ a, seen_by a c' = seen_by a c) → segment_writer c = None → segment_writer c' = None →
  gh_holder gh = None ∨ gh_holder gh = Some i → h' = None ∨ h' = Some i → mutex_ok h' m (<[i := c']> cs) →
  (h' = None → gh_new gh = []) → (h' = Some i → holder_ok c' (gh_chunks gh) (gh_new gh)) →
  log_call_ok lg (gh_chunks gh) c' →
  inv (LogState (set_lg_lock m lg) pr (<[i := c']> cs))
    (LogGhost h' (gh_process gh) (gh_chunks gh) (gh_new gh) (gh_segments gh)).
Proof using Type.
  intros I Hc Hacc Hs Hw Hw' Hh Hh' Hm Hi Hhold Hok.
  pose proof (holder_rest _ _ _ _ _ _ I Hc Hh Hw) as Hpr.
  apply (move_same lg pr gh cs i c); try done.
  - destruct Hh' as [-> | ->]; [done|]. simpl. rewrite list_lookup_insert_eq by (by eapply lookup_lt_Some).
    simpl. by rewrite Hw'.
  - intros j Hj Hne. destruct Hh' as [-> | ->]; congruence.
  - apply (segs_same _ _ _ _ _ c); [apply (lc_segments _ _ _ _ _ _ I)|done|done].
Qed.
End moves.
