(* ===== verification/MqlogThreadsStep.v ===== *)
(** * The log under concurrent calls: every access keeps the invariant *)

From S2P Require Import Prelude Errno Prot Posix Util Segment SegmentInv SegmentOps SegmentSpec SegmentFile SegmentFileSpec SegmentDurable SegmentFrame SegmentThreads SegmentThreadsInv SegmentThreadsOps SegmentThreadsStep SegmentThreadsSpec SegmentThreadsSync SegmentThreadsRest Index Pthread Mqlog MqlogInv MqlogSynced MqlogOps MqlogThreads MqlogThreadsInv MqlogThreadsOps.

Section steps.
Context {W T It M : Type}.
Context `{!Posix W, !PosixLaws W, !Index T It, !IndexLaws T It, !Pthread M, !PthreadLaws M}.
Context {mode : Mode}.
Context (dir : string) (sz lo : Z) (items0 : list bytes).
Context (Hdir : dir_ok dir) (Hsz : 0 ≤ sz < 2 ^ 32) (Hmod : sz mod os_pagesize = 0).
Context (Hlo : 0 ≤ lo) (Hslots : index_mapped (W := W) sz lo).
Implicit Types (lg : mqlog T M) (pr : process W) (c : log_call It) (gh : log_ghost W).

Abbreviation inv := (log_conc dir sz lo items0).

(** The call [i] makes its next access. *)
Definition log_steps gh lg pr (cs : list (log_call It)) (i : nat) c : Prop :=
  ∃ c' lg' pr' gh', log_call_step c lg pr = Ok (c', lg', pr') ∧
    inv (LogState lg' pr' (<[i := c']> cs)) gh' ∧ log_grows gh gh'.

Lemma grows_same gh gh' :
  gh_chunks gh' = gh_chunks gh → gh_segments gh' = gh_segments gh → log_grows gh gh'.
Proof using Type. intros Hc Hs. split; [by rewrite Hc|]. intros k _. by rewrite Hs. Qed.

Lemma call_at gh lg pr cs i c :
  inv (LogState lg pr cs) gh → cs !! i = Some c → log_call_ok sz lo lg (gh_chunks gh) c.
Proof using Type. intros I Hc. exact (lc_calls _ _ _ _ _ _ I i c Hc). Qed.

(** The holder of the mutex. *)
Lemma holding_at gh lg pr cs i c :
  inv (LogState lg pr cs) gh → cs !! i = Some c → holding c = true →
  gh_holder gh = Some i ∧ mutex_held (lg_lock lg) ∧ holder_ok sz lo c (gh_chunks gh) (gh_new gh).
Proof using Type.
  intros I Hc Hh. destruct (holder_of _ _ _ _ _ (lc_mutex _ _ _ _ _ _ I) Hc Hh) as [Hi Hm].
  split; [done|]. split; [done|]. by apply (lc_holder _ _ _ _ _ _ I i).
Qed.

(** The segment of a chunk, at rest. *)
Lemma rest_live lg pr ks ex b k :
  at_rest dir sz lo lg pr ks ex → chunk_at (ks ++ ex) b k → ∃ sgm, live dir sz pr b k sgm.
Proof using Type.
  intros [Hst _ _] (k1 & k2 & Heq & ->). pose proof (rs_chunks _ _ _ _ _ (si_resident _ _ _ _ _ Hst)) as Hch.
  rewrite Heq in Hch. apply chunks_ok_at in Hch as [Hl _]. by rewrite Z.add_0_l in Hl.
Qed.

Lemma rest_segment lg pr ks ex k :
  at_rest dir sz lo lg pr ks ex → k ∈ ks ++ ex → is_Some (pr_segments pr !! c_addr k).
Proof using Type.
  intros Hr (k1 & k2 & Heq)%list_elem_of_split.
  destruct (rest_live lg pr ks ex (zlen (items k1)) k Hr) as [sgm Hl]; [by exists k1, k2|]. eexists. apply Hl.
Qed.

(** A call comes to a segment that is at rest. *)
Lemma enter_segment buf p pr :
  is_Some (pr_segments pr !! p) → in_segment (Some (buf, p, W_begin)) pr pr.
Proof using Type.
  intros [sgm Hs]. exists sgm, sgm. split; [done|]. split; [apply wrote_begin|]. rewrite insert_id by done. by destruct pr.
Qed.

(** A step that only the call sees. *)
Lemma quiet_steps gh lg pr cs i c c' :
  inv (LogState lg pr cs) gh → cs !! i = Some c → log_call_step c lg pr = Ok (c', lg, pr) →
  log_accepted c' = log_accepted c → holding c' = holding c → segment_writer c' = segment_writer c →
  (∀ a, seen_by a c' = seen_by a c) → (holding c = true → holder_ok sz lo c' (gh_chunks gh) (gh_new gh)) →
  log_call_ok sz lo lg (gh_chunks gh) c' → log_steps gh lg pr cs i c.
Proof using Type.
  intros I Hc Hrun Hacc Hh Hw Hs Hhold Hok. exists c', lg, pr, gh. split; [done|].
  split; [by eapply move_quiet|by apply grows_same].
Qed.

(** A step of the holder that changes at most the mutex. *)
Lemma mutex_steps gh lg pr cs i c c' h' m :
  inv (LogState lg pr cs) gh → cs !! i = Some c → log_call_step c lg pr = Ok (c', set_lg_lock m lg, pr) →
  log_accepted c' = log_accepted c →
  (∀ a, seen_by a c' = seen_by a c) → segment_writer c = None → segment_writer c' = None →
  gh_holder gh = None ∨ gh_holder gh = Some i → h' = None ∨ h' = Some i → mutex_ok h' m (<[i := c']> cs) →
  (h' = None → gh_new gh = []) → (h' = Some i → holder_ok sz lo c' (gh_chunks gh) (gh_new gh)) →
  log_call_ok sz lo lg (gh_chunks gh) c' → log_steps gh lg pr cs i c.
Proof using Type.
  intros I Hc Hrun. intros. eexists c', _, pr, _. split; [exact Hrun|].
  split; [by eapply (move_mutex _ _ _ _ lg pr gh cs i c c' h' m)|by apply grows_same].
Qed.

(** A call comes to a segment. *)
Lemma enter_steps gh lg pr cs i c c' :
  inv (LogState lg pr cs) gh → cs !! i = Some c → log_call_step c lg pr = Ok (c', lg, pr) →
  log_accepted c' = log_accepted c → holding c' = holding c → (∀ a, seen_by a c = idle_call) →
  (∀ a sgm g, call_ok lo sgm g i (seen_by a c')) →
  in_segment (gh_holder gh ≫= λ j, <[i := c']> cs !! j ≫= segment_writer) pr (gh_process gh) →
  (holding c = true → holder_ok sz lo c' (gh_chunks gh) (gh_new gh)) →
  log_call_ok sz lo lg (gh_chunks gh) c' → log_steps gh lg pr cs i c.
Proof using Type.
  intros I Hc Hrun Hacc Hh Hs Hok Hp Hhold Hcall. exists c', lg, pr, gh. split; [done|].
  split; [|by apply grows_same]. pose proof (lc_mutex _ _ _ _ _ _ I) as Hm. simpl in Hm.
  rewrite <- (set_lock_same lg), <- (ghost_same gh). apply (move_same _ _ _ _ lg pr gh cs i c); try done.
  - by apply (mutex_keep _ _ _ _ c).
  - apply (lc_idle _ _ _ _ _ _ I).
  - intros Hi. destruct (holding c) eqn:Hhc; [by apply Hhold|]. by destruct (not_holder _ _ _ _ _ Hm Hc Hhc).
  - apply (segs_enter _ _ _ _ _ _ c); [apply (lc_segments _ _ _ _ _ _ I)|done..].
Qed.

(** The segment now and at rest. *)
Lemma in_segment_same o pr pr0 p sgm0 :
  in_segment o pr pr0 → pr_segments pr0 !! p = Some sgm0 →
  ∃ sgm, pr_segments pr !! p = Some sgm ∧ same_segment sgm0 sgm.
Proof using Type.
  destruct o as [[[buf q] pc]|]; simpl; [|intros -> Hs; by exists sgm0].
  intros (sgm1 & sgm & Hq & Hw & ->) Hs. simpl. destruct (decide (q = p)) as [->|Hne].
  - exists sgm. rewrite lookup_insert_eq. split; [done|]. rewrite Hs in Hq. injection Hq as <-. by eapply wrote_same.
  - exists sgm0. by rewrite lookup_insert_ne.
Qed.

(** A segment of the index, now. *)
Lemma segment_now gh lg pr cs b k :
  inv (LogState lg pr cs) gh → chunk_at (gh_chunks gh) b k →
  ∃ sgm0 sgm, live dir sz (gh_process gh) b k sgm0 ∧ pr_segments pr !! c_addr k = Some sgm ∧ same_segment sgm0 sgm.
Proof using Type.
  intros I Hk. destruct (rest_live _ _ _ _ b k (lc_rest _ _ _ _ _ _ I)) as [sgm0 Hl].
  { destruct Hk as (k1 & k2 & -> & ->). exists k1, (k2 ++ gh_new gh). by rewrite <- app_assoc. }
  destruct (in_segment_same _ _ _ _ _ (lc_process _ _ _ _ _ _ I) (lv_sgm _ _ _ _ _ _ Hl)) as (sgm & Hs & Hsame).
  by exists sgm0, sgm.
Qed.

(** *** The mutex *)

(** A call that tries the mutex: it becomes the holder, or returns. *)
Lemma trylock_cases gh lg pr cs :
  inv (LogState lg pr cs) gh →
  (gh_holder gh = None ∧ ∃ e m, pthread_mutex_trylock (lg_lock lg) = (0, e, m) ∧ mutex_held m) ∨
  (∃ e, pthread_mutex_trylock (lg_lock lg) = (EBUSY, e, lg_lock lg)).
Proof using Type.
  intros I. destruct (lc_mutex _ _ _ _ _ _ I) as [_ Hh]. simpl in Hh. destruct (gh_holder gh) as [j|].
  - right. by apply law_trylock_held, Hh.
  - left. split; [done|]. by apply law_trylock_free.
Qed.

Lemma write_locks gh lg pr cs i buf :
  inv (LogState lg pr cs) gh → cs !! i = Some (Writing buf LW_lock) →
  log_steps gh lg pr cs i (Writing buf LW_lock).
Proof using Type.
  intros I Hc. destruct (call_at _ _ _ _ _ _ I Hc) as [Hbuf _]. pose proof (lc_mutex _ _ _ _ _ _ I) as Hmx. simpl in Hmx.
  destruct (Z.eqb_spec (zlen buf) 0) as [Hz|Hnz].
  { apply (quiet_steps gh lg pr cs i _ (Writing buf (LW_return 0))); try done.
    - cbn [log_call_step log_write_step]. by rewrite Hz.
    - split; [done|]. left. lia. }
  destruct Hbuf as [|Hbuf]; [done|].
  destruct (trylock_cases _ _ _ _ I) as [(Hnone & e & m & Hlock & Hheld)|(e & Hlock)].
  - rewrite Hnone in Hmx. eapply (mutex_steps gh lg pr cs i _ (Writing buf LW_last) (Some i) m); try done; [|by left|by right|..].
    + cbn [log_call_step log_write_step]. rewrite (proj2 (Z.eqb_neq _ _) Hnz), Hlock. done.
    + by eapply mutex_take.
    + intros _. split; [done|]. by apply (lc_idle _ _ _ _ _ _ I).
    + split; [by right|done].
  - apply (quiet_steps gh lg pr cs i _ (Writing buf (LW_return ELLOCK))); try done.
    + cbn [log_call_step log_write_step]. rewrite (proj2 (Z.eqb_neq _ _) Hnz), Hlock, set_lock_same. done.
    + split; [by right|]. right. left.
Qed.

Lemma write_unlocks gh lg pr cs i buf rc :
  inv (LogState lg pr cs) gh → cs !! i = Some (Writing buf (LW_unlock rc)) →
  log_steps gh lg pr cs i (Writing buf (LW_unlock rc)).
Proof using Type.
  intros I Hc. destruct (call_at _ _ _ _ _ _ I Hc) as [Hbuf _].
  destruct (holding_at _ _ _ _ _ _ I Hc eq_refl) as (Hh & Hm & Hp & Hnew & Hrc).
  destruct (law_unlock _ Hm) as (m' & Hun & Hfree).
  eapply (mutex_steps gh lg pr cs i _ (Writing buf (LW_return rc)) None m'); try done; [|by right|by left|..].
  - cbn [log_call_step log_write_step]. by rewrite Hun.
  - eapply mutex_give; [|done|done]. rewrite <- Hh. apply (lc_mutex _ _ _ _ _ _ I).
  - split; [done|]. destruct Hrc as [->|Hrc]; [by left|right]. by right.
Qed.

Lemma read_locks gh lg pr cs i o fr :
  inv (LogState lg pr cs) gh → cs !! i = Some (Reading o fr LR_lock) →
  log_steps gh lg pr cs i (Reading o fr LR_lock).
Proof using Type.
  intros I Hc. destruct (call_at _ _ _ _ _ _ I Hc) as [Ho _]. pose proof (lc_mutex _ _ _ _ _ _ I) as Hmx. simpl in Hmx.
  destruct (trylock_cases _ _ _ _ I) as [(Hnone & e & m & Hlock & Hheld)|(e & Hlock)].
  - rewrite Hnone in Hmx. eapply (mutex_steps gh lg pr cs i _ (Reading o fr LR_floor) (Some i) m); try done; [|by left|by right|..].
    + cbn [log_call_step log_read_step]. by rewrite Hlock.
    + by eapply mutex_take.
    + intros _. by apply (lc_idle _ _ _ _ _ _ I).
  - apply (quiet_steps gh lg pr cs i _ (Reading o fr (LR_return ELLOCK fr))); try done.
    + cbn [log_call_step log_read_step]. by rewrite Hlock, set_lock_same.
    + split; [done|]. split; [left|done].
Qed.

Lemma read_unlocks gh lg pr cs i o fr it valid :
  inv (LogState lg pr cs) gh → cs !! i = Some (Reading o fr (LR_unlock it valid)) →
  log_steps gh lg pr cs i (Reading o fr (LR_unlock it valid)).
Proof using Type.
  intros I Hc. destruct (call_at _ _ _ _ _ _ I Hc) as [Ho Hok].
  destruct (holding_at _ _ _ _ _ _ I Hc eq_refl) as (Hh & Hm & Hnew).
  destruct (law_unlock _ Hm) as (m' & Hun & Hfree).
  eapply (mutex_steps gh lg pr cs i _ (Reading o fr (if valid then LR_value it else LR_return ELNORD fr)) None m');
    try done; try (by destruct valid).
  - cbn [log_call_step log_read_step]. by rewrite Hun.
  - by right.
  - by left.
  - eapply mutex_give; [|by destruct valid|done]. rewrite <- Hh. apply (lc_mutex _ _ _ _ _ _ I).
  - split; [done|]. destruct valid; [done|]. split; [right; left|done].
Qed.

(** *** The index *)

(** The index holds the chunks, whoever looks. *)
Lemma index_stores gh lg pr cs :
  inv (LogState lg pr cs) gh → ∃ t, lg_index lg = Some t ∧ ix_stores t (keys 0 (gh_chunks gh)).
Proof using Type. intros I. apply (lc_rest _ _ _ _ _ _ I). Qed.

Lemma write_looks gh lg pr cs i buf :
  inv (LogState lg pr cs) gh → cs !! i = Some (Writing buf LW_last) →
  log_steps gh lg pr cs i (Writing buf LW_last).
Proof using Hlo Hsz.
  intros I Hc. destruct (index_stores _ _ _ _ I) as (t & Ht & Hts).
  destruct (call_at _ _ _ _ _ _ I Hc) as [Hbuf _].
  destruct (holding_at _ _ _ _ _ _ I Hc eq_refl) as (Hh & Hm & Hp & Hnew).
  assert (Hrun : ∀ v, ix_last_value t = Ok v → log_write_step buf LW_last lg pr =
    Ok (match v.2 with Some sgm => LW_segment sgm false W_begin | None => LW_create 0 end, lg, pr)).
  { intros [rc v] Hv. cbn [log_write_step]. unfold the_index. rewrite Ht. simpl of_option. rewrite bind_Ok. by run Hv. }
  specialize (Hrun _ (law_last _ _ Hts)). pose proof (lc_rest _ _ _ _ _ _ I) as Irest.
  destruct (gh_chunks gh) as [|k ks _] eqn:Hks using rev_ind.
  - apply (quiet_steps gh lg pr cs i _ (Writing buf (LW_create 0))); try done.
    + cbn [log_call_step]. by rewrite Hrun, bind_Ok.
    + intros _. rewrite Hks. done.
  - rewrite keys_snoc, last_snoc in Hrun. cbn [snd] in Hrun.
    eapply (enter_steps gh lg pr cs i _ (Writing buf (LW_segment (c_addr k) false W_begin))); try done.
    + cbn [log_call_step]. by rewrite Hrun, bind_Ok.
    + intros a sgm g. simpl. destruct (_ =? a); [|apply idle_ok]. apply begin_write_ok.
      pose proof (po_min _ _ _ Hp). pose proof (po_max _ _ _ Hp). size_lia.
    + rewrite Hh. simpl. rewrite list_lookup_insert_eq by (by eapply lookup_lt_Some). simpl.
      rewrite (holder_rest _ _ _ _ _ _ _ _ _ _ I Hc (or_intror Hh) eq_refl).
      apply enter_segment. eapply rest_segment; [exact Irest|]. apply elem_of_app. left. apply elem_of_app. right. left.
    + intros _. split; [done|]. split; [done|]. rewrite Hks. by exists ks, k.
Qed.

Lemma read_floors gh lg pr cs i o fr :
  inv (LogState lg pr cs) gh → cs !! i = Some (Reading o fr LR_floor) →
  log_steps gh lg pr cs i (Reading o fr LR_floor).
Proof using Type.
  intros I Hc. destruct (index_stores _ _ _ _ I) as (t & Ht & Hts).
  destruct (call_at _ _ _ _ _ _ I Hc) as [Ho _].
  destruct (holding_at _ _ _ _ _ _ I Hc eq_refl) as (Hh & Hm & Hnew).
  destruct (law_floor t _ o Hts) as (it & rest & Hfl & Hat & Hrest).
  apply (quiet_steps gh lg pr cs i _ (Reading o fr (LR_unlock it (negb (bool_decide (rest = [])))))); try done.
  - cbn [log_call_step log_read_step]. unfold the_index. rewrite Ht. simpl of_option. rewrite bind_Ok. run Hfl.
    run (law_valid _ _ _ Hat). do 3 f_equal. destruct lg. simpl in Ht. by rewrite Ht.
  - split; [done|]. apply floor_chunk in Hrest; [|lia]. destruct rest as [|kv rest]; [done|].
    destruct Hrest as (ks1 & k & ks2 & b & Hks & Hb & -> & Hle & _). rewrite bool_decide_eq_false_2 by done. simpl.
    exists t, b, k. split; [done|]. split; [by eapply law_on|]. split; [|done]. by exists ks1, ks2.
Qed.

Lemma read_values gh lg pr cs i o fr it :
  inv (LogState lg pr cs) gh → cs !! i = Some (Reading o fr (LR_value it)) →
  log_steps gh lg pr cs i (Reading o fr (LR_value it)).
Proof using Type.
  intros I Hc. destruct (call_at _ _ _ _ _ _ I Hc) as [Ho (t & b & k & Ht & Hon & Hk & Hb)].
  apply (quiet_steps gh lg pr cs i _ (Reading o fr (LR_base (c_addr k)))); try done.
  - cbn [log_call_step log_read_step]. unfold the_index. rewrite Ht. simpl of_option. rewrite bind_Ok.
    by run (law_on_value _ _ _ Hon).
  - split; [done|]. by exists b, k.
Qed.

Lemma read_bases gh lg pr cs i o fr p :
  inv (LogState lg pr cs) gh → cs !! i = Some (Reading o fr (LR_base p)) →
  log_steps gh lg pr cs i (Reading o fr (LR_base p)).
Proof using Type.
  intros I Hc. destruct (call_at _ _ _ _ _ _ I Hc) as [Ho (b & k & Hk & <- & Hb)].
  destruct (segment_now _ _ _ _ _ _ I Hk) as (sgm0 & sgm & Hl & Hs & Hsame).
  pose proof (live_base _ _ _ _ _ _ Hl) as Hb0.
  assert (Hrel : u64 (o - segment_base_offset sgm) = o - b).
  { unfold segment_base_offset. rewrite (same_base _ _ Hsame), (lv_base _ _ _ _ _ _ Hl). apply u64_small. lia. }
  apply (enter_steps gh lg pr cs i _ (Reading o fr (LR_segment (c_addr k) (o - b) R_begin))); try done.
  - cbn [log_call_step log_read_step]. unfold deref_segment. rewrite Hs. simpl of_option. by rewrite bind_Ok, Hrel.
  - intros a sgm1 g. simpl. destruct (_ =? a); [|apply idle_ok]. apply begin_read_ok. lia.
  - rewrite (writer_same _ _ _ (Reading o fr (LR_base (c_addr k)))) by done. apply (lc_process _ _ _ _ _ _ I).
  - split; [done|]. split; [done|]. by exists b, k.
Qed.

(** *** The accesses of a segment *)

Lemma chunk_addrs gh lg pr cs : inv (LogState lg pr cs) gh → NoDup (c_addr <$> gh_chunks gh ++ gh_new gh).
Proof using Type. intros I. apply (rs_addrs _ _ _ _ _ (si_resident _ _ _ _ _ (ar_store _ _ _ _ _ _ _ (lc_rest _ _ _ _ _ _ I)))). Qed.

Lemma run_grows gh p g' :
  g_payloads (gh_segments gh p) `prefix_of` g_payloads g' →
  log_grows gh (LogGhost (gh_holder gh) (gh_process gh) (gh_chunks gh) (gh_new gh) (update_ghost p g' (gh_segments gh))).
Proof using Type.
  intros Hp. split; [done|]. intros k _. simpl. unfold update_ghost. by destruct (Z.eqb_spec (c_addr k) p) as [->|].
Qed.

(** A read in a chunk. *)
Lemma read_stays_sound gh lg pr cs i o fr b k sgm pc pc' :
  inv (LogState lg pr cs) gh → cs !! i = Some (Reading o fr (LR_segment (c_addr k) (o - b) pc)) →
  chunk_at (gh_chunks gh) b k → pr_segments pr !! c_addr k = Some sgm →
  read_step (o - b) fr pc sgm = Ok pc' → sound pc → sound pc'.
Proof using Type.
  intros I Hc Hk Hs Hstep. destruct (lc_segments _ _ _ _ _ _ I k) as (sgm1 & Hs1 & I1).
  { apply elem_of_app. left. by eapply chunk_at_in. }
  cbn [ls_process ls_calls] in *. rewrite Hs in Hs1. injection Hs1 as <-.
  pose proof (seen_lookup (c_addr k) cs i _ Hc) as Hsc. simpl in Hsc. rewrite Z.eqb_refl in Hsc.
  destruct (ci_calls _ _ _ _ I1 i _ Hsc) as [Hrange Hok].
  apply (read_sound lo (c_items k) _ _ (o - b) fr pc pc' I1); [|lia|done|done].
  pose proof (ar_nonempty _ _ _ _ _ _ _ (lc_rest _ _ _ _ _ _ I)) as Hne. unfold nonempty_chunks in Hne.
  rewrite Forall_forall in Hne. apply Hne. by eapply chunk_at_in.
Qed.

Lemma read_segments gh lg pr cs i o fr p rel pc :
  inv (LogState lg pr cs) gh → cs !! i = Some (Reading o fr (LR_segment p rel pc)) →
  log_steps gh lg pr cs i (Reading o fr (LR_segment p rel pc)).
Proof using Hlo.
  intros I Hc. destruct (call_at _ _ _ _ _ _ I Hc) as [Ho [Hsound (b & k & Hk & <- & Hb & ->)]].
  pose proof (lc_mutex _ _ _ _ _ _ I) as Hm. simpl in Hm.
  set (c := Reading o fr (LR_segment (c_addr k) (o - b) pc) : log_call It) in Hc |- *.
  destruct (segs_run lo _ _ pr cs (gh_segments gh) _ k i c (Read (o - b) fr pc)
    (lc_segments _ _ _ _ _ _ I) (chunk_addrs _ _ _ _ I) Hm Hlo) as (sgm & sgm' & sc & g' & Hs & Hstep & Hpre & Hseg).
  { apply elem_of_app. left. by eapply chunk_at_in. }
  { exact Hc. } { simpl. by rewrite Z.eqb_refl. } { intros a Ha. simpl. by rewrite (proj2 (Z.eqb_neq _ _)) by done. }
  cbn [call_step] in Hstep. apply bind_Ok_inv in Hstep as (pc' & Hstep & [= <- <-]).
  pose proof (read_stays_sound _ _ _ _ _ _ _ _ _ _ _ _ I Hc Hk Hs Hstep Hsound) as Hsound'.
  set (c' := Reading o fr (LR_segment (c_addr k) (o - b) pc') : log_call It).
  eexists c', lg, pr, _. split; [|split; [|by apply run_grows]].
  - unfold c. cbn [log_call_step log_read_step]. unfold deref_segment. rewrite Hs. simpl of_option. rewrite bind_Ok.
    by rewrite Hstep, !bind_Ok.
  - rewrite <- (set_lock_same lg). apply (move_same _ _ _ _ lg pr gh cs i c); try done.
    + by apply (mutex_keep _ _ _ _ c).
    + rewrite (writer_same _ _ _ c) by done. apply (lc_process _ _ _ _ _ _ I).
    + apply (lc_idle _ _ _ _ _ _ I).
    + intros Hi. by destruct (not_holder _ _ _ _ _ Hm Hc eq_refl).
    + split; [done|]. split; [done|]. by exists b, k.
    + rewrite insert_id in Hseg by done. destruct pr as [w segs]. apply Hseg; simpl; [by rewrite Z.eqb_refl|].
      intros a Ha. by rewrite (proj2 (Z.eqb_neq _ _)) by done.
Qed.
End steps.
