(* ===== verification/MqlogThreadsSync.v ===== *)
(** * The log under concurrent calls: the steps of a sync

    A sync has no mutex: it stores to the synced offset of a segment, and to
    the files of that segment, in the middle of what the other calls do. *)

From S2P Require Import Prelude Errno Prot Posix Util Segment SegmentInv SegmentOps SegmentFile SegmentFileSpec SegmentFrame SegmentThreads SegmentThreadsInv SegmentThreadsOps SegmentThreadsStep SegmentThreadsSpec SegmentThreadsSync SegmentThreadsRest Index Pthread Mqlog MqlogInv MqlogSynced MqlogOps MqlogThreads MqlogThreadsInv MqlogThreadsOps MqlogThreadsStep.

(** ** One access of [segment_sync] *)

Section access.
Context {W : Type} `{!Posix W, !PosixLaws W}.

Inductive synced (sgm : segment) (w : W) : segment → W → Prop :=
  | synced_load : synced sgm w sgm w
  | synced_file r a n rc w' : r = buffer sgm ∨ r = index sgm → os_msync r a n w = (rc, w') → synced sgm w sgm w'
  | synced_store s : synced sgm w (set_s_offset_pair s sgm) w.

Lemma sync_step_synced pc sgm w pc' sgm' w' : sync_step pc sgm w = (pc', sgm', w') → synced sgm w sgm' w'.
Proof using Type.
  destruct pc; cbn [sync_step]; try (by intros [= _ <- <-]; constructor).
  - destruct (aligned_range _ _) as [a n]. destruct (os_msync (buffer sgm) a n w) as [rc w1] eqn:E.
    intros [= _ <- <-]. eapply synced_file; [by left|exact E].
  - destruct (aligned_range _ _) as [a n]. destruct (os_msync (index sgm) a n w) as [rc w1] eqn:E.
    intros [= _ <- <-]. eapply synced_file; [by right|exact E].
Qed.

(** A segment over its files, while it is written to. *)
Lemma attached_now w dir off sgm0 sgm :
  attached w dir off sgm0 → same_segment sgm0 sgm → zlen (r_mem (buffer sgm)) = size sgm → attached w dir off sgm.
Proof using Type.
  intros [] [_ _ _ _ Hs _ Hb Hi Hn] Hl. split; rewrite ?Hb, ?Hi, ?Hs; try done; [congruence|by rewrite Hn].
Qed.

Lemma msync_view dir off sgm r a n w rc w' :
  attached w dir off sgm → r = buffer sgm ∨ r = index sgm → os_msync r a n w = (rc, w') →
  same_lengths w w' ∧ elsewhere dir off w w'.
Proof using Type.
  intros Hat Hr E. destruct (attached_covers _ _ _ _ Hat) as [Hcb Hci]. destruct Hr as [-> | ->].
  - split; [by apply (msync_lengths _ _ _ _ _ _ Hcb E)|]. destruct (at_data_file _ _ _ _ Hat) as (c & Hc & _). intros q Hq _.
    exact (msync_elsewhere _ _ _ _ _ _ _ _ q (at_data_map _ _ _ _ Hat) Hc E Hq).
  - split; [by apply (msync_lengths _ _ _ _ _ _ Hci E)|]. destruct (at_index_file _ _ _ _ Hat) as (c & Hc & _). intros q _ Hq.
    exact (msync_elsewhere _ _ _ _ _ _ _ _ q (at_index_map _ _ _ _ Hat) Hc E Hq).
Qed.
End access.

Section steps.
Context {W T It M : Type}.
Context `{!Posix W, !PosixLaws W, !Index T It, !IndexLaws T It, !Pthread M, !PthreadLaws M}.
Context {mode : Mode}.
Context (dir : string) (sz lo : Z) (items0 : list bytes).
Implicit Types (lg : mqlog T M) (pr : process W) (c : log_call It) (gh : log_ghost W).

Abbreviation inv := (log_conc dir sz lo items0).
Abbreviation log_steps := (log_steps dir sz lo items0).

Lemma sync_looks gh lg pr cs i :
  inv (LogState lg pr cs) gh → cs !! i = Some (Syncing LS_last) →
  log_steps gh lg pr cs i (Syncing LS_last).
Proof using Type.
  intros I Hc. destruct (index_stores _ _ _ _ _ _ _ _ I) as (t & Ht & Hts).
  pose proof (law_last _ _ Hts) as Hv.
  assert (Hrun : ∀ v, ix_last_value t = Ok v → log_call_step (Syncing LS_last : log_call It) lg pr =
    Ok (Syncing (match v.2 with Some sgm => LS_segment sgm S_addr | None => LS_return 0 end), lg, pr)).
  { intros [rc v] Hrv. cbn [log_call_step log_sync_step]. unfold the_index. rewrite Ht. simpl of_option.
    rewrite bind_Ok. by run Hrv. }
  specialize (Hrun _ Hv). destruct (gh_chunks gh) as [|k ks _] eqn:Hks using rev_ind.
  - by eapply (quiet_steps _ _ _ _ gh lg pr cs i _ (Syncing (LS_return 0))).
  - rewrite keys_snoc, last_snoc in Hrun. cbn [snd] in Hrun.
    eapply (quiet_steps _ _ _ _ gh lg pr cs i _ (Syncing (LS_segment (c_addr k) S_addr))); try done.
    simpl. rewrite Hks, fmap_app. apply elem_of_app. right. left.
Qed.

(** The writer is where it was. *)
Lemma in_segment_file o pr pr0 (w' : W) :
  in_segment o pr pr0 → in_segment o (Process w' (pr_segments pr)) (Process w' (pr_segments pr0)).
Proof using Type.
  destruct o as [[[buf q] pc]|]; simpl; [|by intros ->].
  intros (sgm0 & sgm & Hq & Hw & ->). by exists sgm0, sgm.
Qed.

Lemma in_segment_store o pr pr0 p sgm0 sgm s :
  in_segment o pr pr0 → pr_segments pr0 !! p = Some sgm0 → pr_segments pr !! p = Some sgm →
  in_segment o (Process (pr_os pr) (<[p := set_s_offset_pair s sgm]> (pr_segments pr)))
    (Process (pr_os pr0) (<[p := set_s_offset_pair s sgm0]> (pr_segments pr0))).
Proof using Type.
  destruct o as [[[buf q] pc]|]; simpl; [|intros ->; congruence].
  intros (sgm1 & sgm2 & Hq & Hw & ->) H0 H1. simpl in *. destruct (decide (q = p)) as [->|Hne].
  - rewrite lookup_insert_eq in H1. injection H1 as ->. rewrite H0 in Hq. injection Hq as ->.
    eexists _, _. split; [apply lookup_insert_eq|]. split; [by apply wrote_synced|]. by rewrite !insert_insert_eq.
  - rewrite lookup_insert_ne in H1 by done. rewrite H0 in H1. injection H1 as <-.
    exists sgm1, sgm2. split; [by rewrite lookup_insert_ne|]. split; [done|]. by rewrite insert_insert_ne.
Qed.

(** The process at rest, after an access of the sync of a segment. *)
Lemma rest_synced lg pr0 ks ex b k sgm0 sgm (w' : W) :
  at_rest dir sz lo lg pr0 ks ex → chunk_at ks b k → live dir sz pr0 b k sgm0 →
  (∃ s, sgm = set_s_offset_pair s sgm0) ∨ sgm = sgm0 → same_lengths (pr_os pr0) w' → elsewhere dir b (pr_os pr0) w' →
  at_rest dir sz lo lg (Process w' (<[c_addr k := sgm]> (pr_segments pr0))) ks ex.
Proof using Type.
  intros [Hst Hne Hix] (k1 & k2 & -> & ->) Hl Hsgm HL He. split; [|done..].
  rewrite <- app_assoc in Hst |- *. apply store_chunk; try done.
  - apply Forall_app in Hne as [Hne1 Hne2]. apply Forall_cons in Hne2 as [Hk _].
    apply Forall_app. by rewrite Forall_singleton.
  - destruct Hl as [Hs I Hat Hsize Hbase Hfl Hfds].
    assert (Hat' : attached w' dir (zlen (items k1)) sgm0) by (by eapply attached_same).
    destruct Hsgm as [[s ->]| ->]; (split; simpl; [apply lookup_insert_eq| | |try done..]); try done.
    + by destruct I.
    + by eapply attached_same; [exact Hat'|apply same_lengths_refl|..].
  - apply HL.
Qed.

Lemma segs_synced pr (cs : list (log_call It)) gs (ks : list chunk) p sgm s :
  (∀ k, k ∈ ks → segment_ok lo pr cs gs k) → pr_segments pr !! p = Some sgm →
  ∀ k, k ∈ ks → segment_ok lo (Process (pr_os pr) (<[p := set_s_offset_pair s sgm]> (pr_segments pr))) cs gs k.
Proof using Type.
  intros Hseg Hp k Hk. destruct (Hseg k Hk) as (sgm1 & Hs & I). unfold segment_ok. simpl.
  destruct (decide (c_addr k = p)) as [<-|Hne].
  - rewrite Hs in Hp. injection Hp as ->. exists (set_s_offset_pair s sgm). rewrite lookup_insert_eq.
    split; [done|]. by apply SegmentThreadsStep.sync_step.
  - exists sgm1. by rewrite lookup_insert_ne.
Qed.

(** A sync has changed the process; the process at rest changes with it. *)
Lemma move_synced gh lg pr cs i c c' pr' pr0' :
  inv (LogState lg pr cs) gh → cs !! i = Some c → log_accepted c = None → log_accepted c' = None → holding c = false →
  holding c' = false → segment_writer c = None → segment_writer c' = None → (∀ a, seen_by a c' = seen_by a c) →
  log_call_ok sz lo lg (gh_chunks gh) c' →
  at_rest dir sz lo lg pr0' (gh_chunks gh) (gh_new gh) →
  in_segment (gh_holder gh ≫= λ j, cs !! j ≫= segment_writer) pr' pr0' →
  (∀ k, k ∈ gh_chunks gh ++ gh_new gh → segment_ok lo pr' cs (gh_segments gh) k) →
  inv (LogState lg pr' (<[i := c']> cs)) (LogGhost (gh_holder gh) pr0' (gh_chunks gh) (gh_new gh) (gh_segments gh)).
Proof using Type.
  intros I Hc Ha Ha' Hh Hh' Hw Hw' Hs Hok Hrest Hp Hseg. pose proof (lc_mutex _ _ _ _ _ _ I) as Hm. simpl in Hm.
  apply (move _ _ _ _ lg pr gh cs i c); [done|done|]. split; simpl; try done.
  - intros t it kv Ht Hon. by exists t.
  - unfold gain. by rewrite Ha, Ha', app_nil_r.
  - by left.
  - apply (mutex_keep _ _ _ _ c); [done|done|congruence].
  - rewrite (writer_same _ _ _ c) by (done || congruence). done.
  - apply (lc_idle _ _ _ _ _ _ I).
  - intros Hi. by destruct (not_holder _ _ _ _ _ Hm Hc Hh).
  - by apply (segs_same _ _ _ _ _ _ c).
Qed.

Lemma in_segment_os o pr pr0 : in_segment o pr pr0 → pr_os pr = pr_os pr0.
Proof using Type. destruct o as [[[buf q] pc]|]; simpl; [|by intros ->]. by intros (sgm0 & sgm & _ & _ & ->). Qed.

Lemma sync_segments gh lg pr cs i p pc :
  inv (LogState lg pr cs) gh → cs !! i = Some (Syncing (LS_segment p pc)) →
  log_steps gh lg pr cs i (Syncing (LS_segment p pc)).
Proof using Type.
  intros I Hc. pose proof (call_at _ _ _ _ _ _ _ _ _ _ I Hc) as Hp. simpl in Hp. pose proof Hp as Hin.
  apply list_elem_of_fmap in Hin as (k & -> & (k1 & k2 & Hks)%list_elem_of_split).
  assert (Hk : chunk_at (gh_chunks gh) (zlen (items k1)) k) by (by exists k1, k2).
  destruct (segment_now _ _ _ _ _ _ _ _ _ _ I Hk) as (sgm0 & sgm & Hl & Hs & Hsame).
  pose proof (lc_process _ _ _ _ _ _ I) as Hpr. pose proof (lc_rest _ _ _ _ _ _ I) as Hrest.
  pose proof (lc_segments _ _ _ _ _ _ I) as Hseg. cbn [ls_process ls_calls ls_log] in Hpr, Hrest, Hseg.
  pose proof (lv_attached _ _ _ _ _ _ Hl) as Hat. pose proof (in_segment_os _ _ _ Hpr) as Hos. rewrite <- Hos in Hat.
  destruct (sync_step pc sgm (pr_os pr)) as [[pc' sgm'] w'] eqn:Hstep.
  assert (Hrun : log_call_step (Syncing (LS_segment (c_addr k) pc) : log_call It) lg pr =
    Ok (Syncing (LS_segment (c_addr k) pc'), lg, Process w' (<[c_addr k := sgm']> (pr_segments pr)))).
  { cbn [log_call_step log_sync_step]. unfold deref_segment. rewrite Hs. simpl of_option. by rewrite bind_Ok, Hstep. }
  apply sync_step_synced in Hstep. set (c' := Syncing (LS_segment (c_addr k) pc') : log_call It).
  assert (Hdone : ∀ pr0' pr', pr' = Process w' (<[c_addr k := sgm']> (pr_segments pr)) →
    at_rest dir sz lo lg pr0' (gh_chunks gh) (gh_new gh) →
    in_segment (gh_holder gh ≫= λ j, cs !! j ≫= segment_writer) pr' pr0' →
    (∀ k, k ∈ gh_chunks gh ++ gh_new gh → segment_ok lo pr' cs (gh_segments gh) k) →
    log_steps gh lg pr cs i (Syncing (LS_segment (c_addr k) pc))).
  { intros pr0' pr' -> Hr' Hp' Hs'. eexists c', lg, _, _. split; [exact Hrun|].
    split; [by eapply (move_synced gh lg pr cs i _ c')|by apply grows_same]. }
  destruct Hstep as [|r a n rc w' Hr E|s].
  - apply (Hdone (gh_process gh) pr); [|done..]. rewrite insert_id by done. by destruct pr.
  - assert (Hat' : attached (pr_os pr) dir (zlen (items k1)) sgm).
    { eapply attached_now; [exact Hat|done|]. destruct (Hseg k) as (sgm1 & Hs1 & I1).
      { apply elem_of_app. left. by eapply chunk_at_in. }
      rewrite Hs in Hs1. injection Hs1 as <-. apply (lay_len _ _ _ (ci_layout _ _ _ _ I1)). }
    destruct (msync_view _ _ _ _ _ _ _ _ _ Hat' Hr E) as [HL He]. rewrite Hos in HL, He.
    apply (Hdone (Process w' (pr_segments (gh_process gh))) (Process w' (pr_segments pr))).
    + by rewrite insert_id.
    + pose proof (rest_synced lg _ _ _ _ k sgm0 sgm0 w' Hrest Hk Hl (or_intror eq_refl) HL He) as Hr'.
      rewrite insert_id in Hr'; [done|apply Hl].
    + by apply in_segment_file.
    + intros k' Hk'. destruct (Hseg k' Hk') as (sgm1 & Hs1 & I1). by exists sgm1.
  - eapply Hdone; [done| | |by apply segs_synced].
    + eapply (rest_synced lg _ _ _ _ k sgm0 (set_s_offset_pair s sgm0) (pr_os (gh_process gh)) Hrest Hk Hl);
        [left; by exists s|apply same_lengths_refl|done].
    + apply in_segment_store; [done|apply Hl|done].
Qed.
End steps.
