(* ===== verification/MqlogThreadsWrite.v ===== *)
(** * The log under concurrent calls: the steps of a write *)

From S2P Require Import Prelude Errno Prot Posix Util Segment SegmentInv SegmentOps SegmentSpec SegmentFile SegmentFileSpec SegmentDurable SegmentFrame SegmentThreads SegmentThreadsInv SegmentThreadsOps SegmentThreadsStep SegmentThreadsSpec SegmentThreadsSync SegmentThreadsRest Index Pthread Mqlog MqlogInv MqlogSynced MqlogOps MqlogThreads MqlogThreadsInv MqlogThreadsOps MqlogThreadsStep.

Section steps.
Context {W T It M : Type}.
Context `{!Posix W, !PosixLaws W, !Index T It, !IndexLaws T It, !Pthread M, !PthreadLaws M}.
Context {mode : Mode}.
Context (dir : string) (sz lo : Z) (items0 : list bytes).
Context (Hdir : dir_ok dir) (Hsz : 0 ≤ sz < 2 ^ 32) (Hmod : sz mod os_pagesize = 0).
Context (Hlo : 0 ≤ lo) (Hslots : index_mapped (W := W) sz lo).
Implicit Types (lg : mqlog T M) (pr : process W) (c : log_call It) (gh : log_ghost W).

Abbreviation inv := (log_conc dir sz lo items0).
Abbreviation log_steps := (log_steps dir sz lo items0).

(** The holder moves on, and what it does may change the log: only what the
    other calls need of it is left to show. *)
Lemma holder_moves gh lg pr cs i c c' lg' pr' gh' :
  inv (LogState lg pr cs) gh → cs !! i = Some c → holding c = true → holding c' = true → log_accepted c = None →
  gh_holder gh' = Some i → lg_lock lg' = lg_lock lg →
  at_rest dir sz lo lg' (gh_process gh') (gh_chunks gh') (gh_new gh') → index_kept lg lg' →
  chunks_grow (gh_chunks gh) (gh_chunks gh') →
  items (gh_chunks gh') = items (gh_chunks gh) ++ option_list (log_accepted c') →
  in_segment (segment_writer c') pr' (gh_process gh') → holder_ok sz lo c' (gh_chunks gh') (gh_new gh') →
  log_call_ok sz lo lg' (gh_chunks gh') c' →
  (∀ k, k ∈ gh_chunks gh' ++ gh_new gh' → segment_ok lo pr' (<[i := c']> cs) (gh_segments gh') k) →
  inv (LogState lg' pr' (<[i := c']> cs)) gh'.
Proof using Type.
  intros I Hc Hh Hh' Ha Hi Hlock Hrest Hix Hgr Hit Hin Hhold Hcall Hseg.
  destruct (holding_at _ _ _ _ _ _ _ _ _ _ I Hc Hh) as (Hgh & _).
  pose proof (lc_mutex _ _ _ _ _ _ I) as Hm. simpl in Hm.
  apply (move _ _ _ _ lg pr gh cs i c); [done|done|]. split; try done.
  - unfold gain. by rewrite Ha.
  - by left.
  - rewrite Hi, Hlock. rewrite Hgh in Hm. apply (mutex_keep _ _ _ _ c); [done|done|congruence].
  - rewrite Hi. simpl. by rewrite list_lookup_insert_eq by (by eapply lookup_lt_Some).
  - congruence.
  - intros j Hj Hne. congruence.
Qed.

(** Nobody else is on a segment that is not in the index. *)
Lemma new_segment_unseen gh lg pr cs i buf pc a :
  inv (LogState lg pr cs) gh → cs !! i = Some (Writing buf pc) → holding (Writing buf pc : log_call It) = true →
  seen_by a (Writing buf pc : log_call It) = idle_call → a ∉ c_addr <$> gh_chunks gh →
  seen_by a <$> cs = replicate (length cs) idle_call.
Proof using Type.
  intros I Hc Hh Hidle Ha. destruct (lc_mutex _ _ _ _ _ _ I) as [Hone _]. cbn [ls_calls] in Hone.
  pose proof (Hone _ _ Hc Hh) as Hi. apply list_eq. intros j. rewrite list_lookup_fmap.
  destruct (cs !! j) as [cj|] eqn:Hj; simpl.
  2:{ symmetry. apply lookup_ge_None_2. rewrite length_replicate. by apply lookup_ge_None. }
  rewrite lookup_replicate_2 by (by eapply lookup_lt_Some). f_equal.
  destruct cj as [buf' pc'|o fr pc'|pc']; [|destruct pc' as [| | | | |p rel rpc|]; try done|done].
  - destruct (holding (Writing buf' pc' : log_call It)) eqn:Hhj.
    + pose proof (Hone _ _ Hj Hhj) as Hij. rewrite Hi in Hij. injection Hij as ->. rewrite Hc in Hj. by injection Hj as <- <-.
    + by destruct pc'.
  - destruct (call_at _ _ _ _ _ _ _ _ _ _ I Hj) as [_ [_ (b & k & Hk & Hka & _)]]. simpl.
    rewrite (proj2 (Z.eqb_neq _ _)); [done|]. intros ->. apply Ha. rewrite <- Hka.
    apply list_elem_of_fmap_2. by eapply chunk_at_in.
Qed.

(** A segment at rest, with no call on it. *)
Lemma resting_segment_inv pr b k : chunk_ok dir sz lo pr b k →
  ∃ sgm g, pr_segments pr !! c_addr k = Some sgm ∧ conc_inv lo (c_items k) (State sgm []) g ∧ g_payloads g = c_items k.
Proof using Hlo Hslots Hsz.
  intros [[sgm [Hs I Hat Hsize _ _ _]] Hps].
  destruct (start_conc lo (c_items k) sgm (c_eos k) I) as [g Ig].
  - eapply Forall_impl; [exact Hps|]. by intros p [].
  - rewrite (at_index_mem _ _ _ _ Hat), Hsize. apply Hslots.
  - exists sgm, g. split; [done|]. split; [done|]. by apply (readers_payloads lo _ sgm []).
Qed.

(** The segments of the index, and the new one, to which the write comes. *)
Lemma segs_created gh lg pr pr' cs i buf b a g (c' := Writing buf (LW_segment a true W_begin) : log_call It) :
  inv (LogState lg pr cs) gh → cs !! i = Some (Writing buf (LW_create b)) → payload_ok sz lo buf →
  (∀ k, k ∈ gh_chunks gh → segment_ok lo pr' cs (gh_segments gh) k) → a ∉ c_addr <$> gh_chunks gh →
  (∃ sgm, pr_segments pr' !! a = Some sgm ∧ conc_inv lo [] (State sgm []) g) →
  ∀ k, k ∈ gh_chunks gh ++ [Chunk a [] false] →
    segment_ok lo pr' (<[i := c']> cs) (update_ghost a g (gh_segments gh)) k.
Proof using Hsz.
  intros I Hc Hp Hkeep Ha (sgm & Hs & Ig) k [Hk|Hk]%elem_of_app.
  - assert (Hka : c_addr k ≠ a) by (intros <-; by apply Ha, list_elem_of_fmap_2).
    destruct (Hkeep k Hk) as (sgm1 & Hs1 & I1). exists sgm1. split; [done|]. unfold update_ghost.
    rewrite (proj2 (Z.eqb_neq _ _) Hka), (seen_same _ _ _ _ c' Hc); [done|].
    simpl. by rewrite (proj2 (Z.eqb_neq _ _)) by done.
  - apply list_elem_of_singleton in Hk as ->. exists sgm. split; [done|]. simpl. unfold update_ghost.
    rewrite Z.eqb_refl, seen_insert, (new_segment_unseen _ _ _ _ _ _ _ a I Hc eq_refl eq_refl Ha). simpl. rewrite Z.eqb_refl.
    apply (local_step lo [] _ _ _ _ idle_call); [by apply idle_calls| |done|].
    + apply lookup_replicate_2. by eapply lookup_lt_Some.
    + apply begin_write_ok. pose proof (po_min _ _ _ Hp). pose proof (po_max _ _ _ Hp). size_lia.
Qed.

Lemma create_enters gh lg pr pr' cs i buf b a :
  inv (LogState lg pr cs) gh → cs !! i = Some (Writing buf (LW_create b)) →
  create_segment b lg pr = Ok (0, a, pr') → store_inv dir sz lo pr' (gh_chunks gh ++ [Chunk a [] false]) →
  (∀ k, k ∈ gh_chunks gh → segment_ok lo pr' cs (gh_segments gh) k) → log_steps gh lg pr cs i (Writing buf (LW_create b)).
Proof using Hlo Hslots Hsz.
  intros I Hc Hrun Hst Hkeep. destruct (call_at _ _ _ _ _ _ _ _ _ _ I Hc) as [Hbuf _].
  destruct (holding_at _ _ _ _ _ _ _ _ _ _ I Hc eq_refl) as (Hh & Hm & Hp & Hnew & ->).
  pose proof (lc_rest _ _ _ _ _ _ I) as [_ Hne Hix]. cbn [ls_log] in Hix.
  destruct (rest_live dir sz lo lg pr' (gh_chunks gh) [Chunk a [] false] (zlen (items (gh_chunks gh))) (Chunk a [] false)) as [sgm Hl].
  { by split. } { apply chunk_at_last. }
  destruct (resting_segment_inv pr' (zlen (items (gh_chunks gh))) (Chunk a [] false)) as (sgm1 & g & Hs1 & Ig & _).
  { by split; [exists sgm|]. }
  assert (Ha : a ∉ c_addr <$> gh_chunks gh).
  { pose proof (rs_addrs _ _ _ _ _ (si_resident _ _ _ _ _ Hst)) as Hnd. rewrite fmap_app in Hnd.
    apply NoDup_app in Hnd as (_ & Hd & _). intros Hin. apply (Hd a Hin). left. }
  eexists (Writing buf (LW_segment a true W_begin)), lg, pr', (LogGhost (Some i) pr' (gh_chunks gh) [Chunk a [] false] (update_ghost a g (gh_segments gh))).
  split; [cbn [log_call_step log_write_step]; by run Hrun|]. split.
  - eapply (holder_moves gh lg pr cs i _ (Writing buf (LW_segment a true W_begin))); simpl; try done.
    + intros t it kv Ht Hon. by exists t.
    + by rewrite app_nil_r.
    + apply enter_segment. eexists. apply Hl.
    + eapply segs_created; [exact I|exact Hc|done|done|done|by exists sgm1].
  - split; [done|]. intros k Hk. simpl. unfold update_ghost. rewrite (proj2 (Z.eqb_neq _ _)); [done|].
    intros <-. by apply Ha, list_elem_of_fmap_2.
Qed.

Lemma create_fails gh lg pr pr' cs i buf b rc a :
  inv (LogState lg pr cs) gh → cs !! i = Some (Writing buf (LW_create b)) →
  create_segment b lg pr = Ok (rc, a, pr') → rc ∈ os_errors → store_inv dir sz lo pr' (gh_chunks gh) →
  (∀ k, k ∈ gh_chunks gh → segment_ok lo pr' cs (gh_segments gh) k) → log_steps gh lg pr cs i (Writing buf (LW_create b)).
Proof using Type.
  intros I Hc Hrun Hrc Hst Hkeep. destruct (call_at _ _ _ _ _ _ _ _ _ _ I Hc) as [Hbuf _].
  destruct (holding_at _ _ _ _ _ _ _ _ _ _ I Hc eq_refl) as (Hh & Hm & Hp & Hnew & ->).
  pose proof (lc_rest _ _ _ _ _ _ I) as [_ Hne Hix]. cbn [ls_log] in Hix.
  assert (Hneg : rc < 0) by (clear -Hrc; unfold os_errors in Hrc; rewrite !elem_of_cons, elem_of_nil in Hrc; naive_solver lia).
  eexists (Writing buf (LW_unlock rc)), lg, pr', (LogGhost (Some i) pr' (gh_chunks gh) [] (gh_segments gh)).
  split; [cbn [log_call_step log_write_step]; run Hrun; by rewrite (proj2 (Z.eqb_neq rc 0)) by lia|].
  split; [|by apply grows_same]. eapply (holder_moves gh lg pr cs i _ (Writing buf (LW_unlock rc))); simpl; try done.
  - split; [by rewrite app_nil_r|done..].
  - intros t it kv Ht Hon. by exists t.
  - rewrite (proj2 (Z.leb_le _ _)) by lia. by rewrite app_nil_r.
  - split_and!; [done..|]. by right.
  - rewrite app_nil_r. by apply (segs_same _ _ _ _ _ _ (Writing buf (LW_create (zlen (items (gh_chunks gh)))))).
Qed.

Lemma write_creates gh lg pr cs i buf b :
  inv (LogState lg pr cs) gh → cs !! i = Some (Writing buf (LW_create b)) →
  zlen (items (gh_chunks gh)) < max_offset → log_steps gh lg pr cs i (Writing buf (LW_create b)).
Proof using All.
  intros I Hc HN. destruct (holding_at _ _ _ _ _ _ _ _ _ _ I Hc eq_refl) as (Hh & _ & _ & Hnew & ->).
  pose proof (holder_rest _ _ _ _ _ _ _ _ _ _ I Hc (or_intror Hh) eq_refl) as Hpr.
  pose proof (lc_rest _ _ _ _ _ _ I) as [Hst Hne Hix]. cbn [ls_log] in Hix. rewrite Hnew, app_nil_r, <- Hpr in Hst.
  pose proof (lc_segments _ _ _ _ _ _ I) as Hseg. cbn [ls_process ls_calls] in Hseg. rewrite Hnew, app_nil_r in Hseg.
  destruct (create_ok dir sz lo Hdir Hsz Hmod lg pr _ Hst Hne HN (ix_dir _ _ _ _ Hix) (ix_size _ _ _ _ Hix) (ix_flags _ _ _ _ Hix))
    as (rc & a & pr' & Hrun & Hsub & _ & Hcase).
  assert (Hkeep : ∀ k, k ∈ gh_chunks gh → segment_ok lo pr' cs (gh_segments gh) k).
  { intros k Hk. destruct (Hseg k Hk) as (sgm & Hs & I1). exists sgm. split; [|done]. by eapply lookup_weaken. }
  destruct Hcase as [[-> Hst']|[Hrc Hst']]; [by eapply create_enters|by eapply create_fails].
Qed.

Lemma write_rolls gh lg pr cs i buf p :
  inv (LogState lg pr cs) gh → cs !! i = Some (Writing buf (LW_roll p)) →
  zlen (items (gh_chunks gh)) < max_offset → log_steps gh lg pr cs i (Writing buf (LW_roll p)).
Proof using Type.
  intros I Hc HN. destruct (call_at _ _ _ _ _ _ _ _ _ _ I Hc) as [Hbuf _].
  destruct (holding_at _ _ _ _ _ _ _ _ _ _ I Hc eq_refl) as (Hh & Hm & Hp & Hnew & ks & k & Hks & <-).
  pose proof (holder_rest _ _ _ _ _ _ _ _ _ _ I Hc (or_intror Hh) eq_refl) as Hpr.
  destruct (rest_live _ _ _ _ _ _ _ (zlen (items ks)) k (lc_rest _ _ _ _ _ _ I)) as [sgm Hl].
  { rewrite Hnew, app_nil_r, Hks. apply chunk_at_last. }
  rewrite <- Hpr in Hl. rewrite Hks in HN.
  assert (Hoff : segment_write_offset sgm = zlen (items (ks ++ [k]))).
  { pose proof (lv_inv _ _ _ _ _ _ Hl) as I1. pose proof (live_base _ _ _ _ _ _ Hl). unfold segment_write_offset.
    rewrite (lv_base _ _ _ _ _ _ Hl), (inv_w _ _ _ I1). cbn [op_index].
    rewrite items_app, items_single, length_app in *. unfold max_offset in HN. rewrite u64_small; lia. }
  apply (quiet_steps _ _ _ _ gh lg pr cs i _ (Writing buf (LW_create (zlen (items (ks ++ [k])))))); try done.
  - cbn [log_call_step log_write_step]. unfold deref_segment. rewrite (lv_sgm _ _ _ _ _ _ Hl). simpl of_option.
    by rewrite !bind_Ok, Hoff.
  - intros _. split; [done|]. split; [done|]. by rewrite Hks.
Qed.

(** The chunk a write is in. *)
Lemma written_chunk gh lg pr cs i buf p new pc :
  inv (LogState lg pr cs) gh → cs !! i = Some (Writing buf (LW_segment p new pc)) →
  ∃ ks k, gh_chunks gh ++ gh_new gh = ks ++ [k] ∧ c_addr k = p ∧ payload_ok sz lo buf ∧ gh_holder gh = Some i ∧
    if new then gh_chunks gh = ks ∧ gh_new gh = [k] ∧ k = Chunk p [] false else gh_chunks gh = ks ++ [k] ∧ gh_new gh = [].
Proof using Type.
  intros I Hc. destruct (holding_at _ _ _ _ _ _ _ _ _ _ I Hc eq_refl) as (Hh & _ & Hp & Hk). destruct new.
  - exists (gh_chunks gh), (Chunk p [] false). by rewrite Hk.
  - destruct Hk as (-> & ks & k & -> & <-). exists ks, k. by rewrite app_nil_r.
Qed.

Lemma write_runs gh lg pr cs i buf p new pc :
  inv (LogState lg pr cs) gh → cs !! i = Some (Writing buf (LW_segment p new pc)) → returned (Write buf pc) = false →
  log_steps gh lg pr cs i (Writing buf (LW_segment p new pc)).
Proof using Hlo.
  intros I Hc Hret. destruct (call_at _ _ _ _ _ _ _ _ _ _ I Hc) as [Hbuf _].
  destruct (holding_at _ _ _ _ _ _ _ _ _ _ I Hc eq_refl) as (Hh & _ & Hok).
  destruct (written_chunk _ _ _ _ _ _ _ _ _ I Hc) as (ks & k & Hks & Hkp & Hp & _).
  pose proof (lc_mutex _ _ _ _ _ _ I) as Hm. simpl in Hm. set (c := Writing buf (LW_segment p new pc) : log_call It) in *.
  assert (Hin : k ∈ gh_chunks gh ++ gh_new gh) by (rewrite Hks; apply elem_of_app; right; left).
  destruct (segs_run lo _ _ pr cs (gh_segments gh) _ k i c (Write buf pc)
    (lc_segments _ _ _ _ _ _ I) (chunk_addrs _ _ _ _ _ _ _ _ I) Hm Hlo Hin Hc) as (sgm & sgm' & sc & g' & Hs & Hstep & Hpre & Hseg).
  { simpl. by rewrite Hkp, Z.eqb_refl. } { intros a Ha. simpl. by rewrite (proj2 (Z.eqb_neq _ _)) by congruence. }
  rewrite Hkp in *. cbn [call_step] in Hstep. apply bind_Ok_inv in Hstep as ([pc' sgm2] & Hstep & [= <- <-]).
  pose proof (lc_process _ _ _ _ _ _ I) as Hin'. cbn [ls_process ls_calls] in Hin'.
  rewrite Hh in Hin'. simpl in Hin'. rewrite Hc in Hin'. destruct Hin' as (sgm0 & sgm1 & Hs0 & Hw & Hpr).
  rewrite Hpr in Hs. simpl in Hs. rewrite lookup_insert_eq in Hs. injection Hs as ->.
  set (c' := Writing buf (LW_segment p new pc') : log_call It).
  eexists c', lg, _, (LogGhost (gh_holder gh) (gh_process gh) (gh_chunks gh) (gh_new gh) (update_ghost p g' (gh_segments gh))).
  split; [|split; [|by apply run_grows]].
  - unfold c, c'. assert (Hrun : ∀ s, pr_segments pr !! p = Some s → write_step buf pc s = Ok (pc', sgm2) →
      log_call_step (Writing buf (LW_segment p new pc)) lg pr =
        Ok (Writing buf (LW_segment p new pc'), lg, Process (pr_os pr) (<[p := sgm2]> (pr_segments pr)))).
    { intros s Hs Hws. cbn [log_call_step log_write_step]. unfold deref_segment. rewrite Hs. simpl of_option.
      destruct pc; try done; by rewrite bind_Ok, Hws, !bind_Ok. }
    apply (Hrun sgm); [|done]. rewrite Hpr. apply lookup_insert_eq.
  - eapply (holder_moves gh lg pr cs i c c'); simpl; try done.
    + apply (lc_rest _ _ _ _ _ _ I).
    + intros t it kv Ht Hon. by exists t.
    + by rewrite app_nil_r.
    + exists sgm0, sgm2. split; [done|]. split; [by eapply wrote_step|]. rewrite Hpr. simpl. by rewrite insert_insert_eq.
    + apply Hseg; simpl; [by rewrite Z.eqb_refl|]. intros a Ha. by rewrite (proj2 (Z.eqb_neq _ _)) by done.
Qed.

(** [segment_write] has returned: the process is at rest again. *)
Lemma write_at_rest gh lg pr cs i buf p new rc :
  inv (LogState lg pr cs) gh → cs !! i = Some (Writing buf (LW_segment p new (W_return rc))) →
  ∃ ks k k', gh_chunks gh ++ gh_new gh = ks ++ [k] ∧ c_addr k = p ∧ c_addr k' = p ∧
    (if new then gh_chunks gh = ks ∧ c_items k = [] else gh_chunks gh = ks ++ [k]) ∧
    store_inv dir sz lo pr (ks ++ [k']) ∧ nonempty_chunks (ks ++ [k']) ∧
    (rc = zlen buf ∧ c_items k' = c_items k ++ [buf] ∨ rc = ELEOS ∧ new = false ∧ c_items k' = c_items k).
Proof using Hlo Hslots Hsz.
  intros I Hc. destruct (written_chunk _ _ _ _ _ _ _ _ _ I Hc) as (ks & k & Hks & Hkp & Hp & Hh & Hnew).
  pose proof (lc_process _ _ _ _ _ _ I) as Hin. cbn [ls_process ls_calls] in Hin.
  rewrite Hh in Hin. simpl in Hin. rewrite Hc in Hin. destruct Hin as (sgm0 & sgm & Hs0 & Hw & Hpr).
  pose proof (lc_rest _ _ _ _ _ _ I) as [Hst Hne _]. rewrite Hks in Hst.
  assert (Hne' : nonempty_chunks ks ∧ (new = false → c_items k ≠ [])).
  { destruct new; [by destruct Hnew as (<- & _)|]. destruct Hnew as [Heq _]. rewrite Heq in Hne.
    apply Forall_app in Hne as [Hne Hk]. by rewrite Forall_singleton in Hk. }
  destruct Hne' as [Hne' Hknil].
  destruct (write_last dir sz lo Hsz Hlo Hslots _ ks k buf Hst Hne' Hp) as (rc' & pr1 & k' & Hrun & _ & Hls & Hst' & Hcase).
  pose proof (la_addr _ _ _ _ Hls) as Haddr.
  unfold write_segment, deref_segment in Hrun. rewrite Hkp, Hs0 in Hrun. simpl of_option in Hrun. rewrite bind_Ok in Hrun.
  apply bind_Ok_inv in Hrun as ([rc1 sgm1] & Hrun & [= -> <-]).
  destruct (wrote_returned _ _ _ _ _ _ Hw Hrun) as [-> ->]. rewrite <- Hpr in Hst'.
  assert (Hknil' : c_items k' ≠ []).
  { destruct Hcase as [[-> Hitems]|(-> & Hitems & Hempty)]; rewrite Hitems; [by intros [_ ?]%app_nil|].
    destruct new; [destruct Hnew as (_ & _ & ->); by specialize (Hempty eq_refl)|by apply Hknil]. }
  exists ks, k, k'. split; [done|]. split; [done|]. split; [congruence|]. split; [destruct new; naive_solver|].
  split; [by apply Hst'|]. split; [apply Forall_app; by rewrite Forall_singleton|].
  destruct Hcase as [[-> Hitems]|(-> & Hitems & Hempty)]; [by left|right]. split; [done|]. split; [|done].
  destruct new; [|done]. destruct Hnew as (_ & _ & ->). by specialize (Hempty eq_refl).
Qed.

(** The segments, when the write has left. *)
Lemma segs_settled gh lg pr cs i buf p new rc c' ks k k' (gs' := update_ghost p (settled (gh_segments gh p)) (gh_segments gh)) :
  inv (LogState lg pr cs) gh → cs !! i = Some (Writing buf (LW_segment p new (W_return rc))) →
  (∀ a, seen_by a c' = idle_call) → gh_chunks gh ++ gh_new gh = ks ++ [k] → c_addr k = p → c_addr k' = p →
  c_items k' = c_items k ++ (if rc <? 0 then [] else [buf]) →
  ∀ k0, k0 ∈ ks ++ [k'] → segment_ok lo pr (<[i := c']> cs) gs' k0.
Proof using Hlo.
  intros I Hc Hidle Hks Hkp Hkp' Hitems. pose proof (lc_segments _ _ _ _ _ _ I) as Hseg. cbn [ls_process ls_calls] in Hseg.
  pose proof (chunk_addrs _ _ _ _ _ _ _ _ I) as Hnd. rewrite Hks in Hseg, Hnd. rewrite fmap_app in Hnd.
  apply NoDup_app in Hnd as (_ & Hnd & _). intros k0 [Hk0|Hk0]%elem_of_app.
  - assert (Hne : c_addr k0 ≠ p).
    { intros Heq. apply (Hnd (c_addr k0)); [by apply list_elem_of_fmap_2|]. rewrite Heq, <- Hkp. left. }
    destruct (Hseg k0) as (sgm & Hs & I1); [apply elem_of_app; by left|]. exists sgm. split; [done|].
    unfold gs', update_ghost. rewrite (proj2 (Z.eqb_neq _ _) Hne).
    rewrite (seen_same _ _ _ _ c' Hc); [done|]. rewrite Hidle. simpl. by rewrite (proj2 (Z.eqb_neq _ _)) by congruence.
  - apply list_elem_of_singleton in Hk0 as ->. destruct (Hseg k) as (sgm & Hs & I1); [apply elem_of_app; right; left|].
    rewrite Hkp in *. exists sgm. rewrite Hkp'. split; [done|]. unfold gs', update_ghost. rewrite Z.eqb_refl.
    pose proof (seen_lookup p _ _ _ Hc) as Hcp. simpl in Hcp. rewrite Z.eqb_refl in Hcp.
    assert (Hothers : ∀ j sc, (seen_by p <$> cs) !! j = Some sc → j ≠ i → reading sc).
    { intros j sc Hj Hne. rewrite list_lookup_fmap in Hj. destruct (cs !! j) as [cj|] eqn:Hcj; [|done].
      injection Hj as <-. apply seen_reading. destruct (holding cj) eqn:Hh; [exfalso|done].
      destruct (lc_mutex _ _ _ _ _ _ I) as [Hone _]. cbn [ls_calls] in Hone.
      pose proof (Hone _ _ Hcj Hh). pose proof (Hone _ _ Hc eq_refl). congruence. }
    rewrite seen_insert, Hidle, Hitems.
    rewrite <- (settled_items lo _ _ _ _ i buf rc I1 Hcp Hothers).
    by apply (settle lo (c_items k) _ _ _ i buf rc).
Qed.

Lemma settled_grows gh h pr0 ks ks' p :
  chunks_grow (gh_chunks gh) ks →
  log_grows gh (LogGhost h pr0 ks ks' (update_ghost p (settled (gh_segments gh p)) (gh_segments gh))).
Proof using Type.
  intros Hg. split; [done|]. intros k _. simpl. unfold update_ghost. destruct (Z.eqb_spec (c_addr k) p) as [->|]; [|done].
  by rewrite settled_payloads.
Qed.

(** The first write to a new segment has returned. *)
Lemma returns_new gh lg pr cs i buf p k' gs' :
  inv (LogState lg pr cs) gh → cs !! i = Some (Writing buf (LW_segment p true (W_return (zlen buf)))) →
  store_inv dir sz lo pr (gh_chunks gh ++ [k']) → c_addr k' = p → c_items k' = [buf] →
  (∀ k0, k0 ∈ gh_chunks gh ++ [k'] → segment_ok lo pr (<[i := Writing buf (LW_index p (zlen buf))]> cs) gs' k0) →
  inv (LogState lg pr (<[i := Writing buf (LW_index p (zlen buf))]> cs)) (LogGhost (gh_holder gh) pr (gh_chunks gh) [k'] gs').
Proof using Type.
  intros I Hc Hst Hkp Hitems Hseg. destruct (call_at _ _ _ _ _ _ _ _ _ _ I Hc) as [Hbuf _].
  destruct (holding_at _ _ _ _ _ _ _ _ _ _ I Hc eq_refl) as (Hh & _ & Hp & _).
  pose proof (lc_rest _ _ _ _ _ _ I) as [_ Hne Hix]. cbn [ls_log] in Hix.
  eapply (holder_moves gh lg pr cs i); simpl; try done.
  - intros t it kv Ht Hon. by exists t.
  - by rewrite app_nil_r.
  - split; [done|]. split; [done|]. by exists k'.
Qed.

(** A write to the last segment has returned: it is done, or finds no room. *)
Lemma returns_old gh lg pr cs i buf p rc ks k k' pc' gs' :
  inv (LogState lg pr cs) gh → cs !! i = Some (Writing buf (LW_segment p false (W_return rc))) →
  gh_chunks gh = ks ++ [k] → c_addr k = p → c_addr k' = p →
  store_inv dir sz lo pr (ks ++ [k']) → nonempty_chunks (ks ++ [k']) →
  (pc' = LW_unlock (zlen buf) ∧ c_items k' = c_items k ++ [buf] ∨ pc' = LW_roll p ∧ c_items k' = c_items k) →
  (∀ k0, k0 ∈ ks ++ [k'] → segment_ok lo pr (<[i := Writing buf pc']> cs) gs' k0) →
  inv (LogState lg pr (<[i := Writing buf pc']> cs)) (LogGhost (gh_holder gh) pr (ks ++ [k']) [] gs').
Proof using Type.
  intros I Hc Hcs Hkp Hkp' Hst Hne Hcase Hseg. destruct (call_at _ _ _ _ _ _ _ _ _ _ I Hc) as [Hbuf _].
  destruct (holding_at _ _ _ _ _ _ _ _ _ _ I Hc eq_refl) as (Hh & _ & Hp & _). pose proof (po_nonempty _ _ _ Hp) as Hpos.
  assert (Hix : indexed dir sz lg (ks ++ [k'])).
  { destruct (ar_indexed _ _ _ _ _ _ _ (lc_rest _ _ _ _ _ _ I)) as [(t & Ht & Hts) ? ? ?]. split; try done. exists t.
    split; [done|]. rewrite Hcs in Hts. rewrite keys_snoc in Hts |- *. congruence. }
  assert (Hkept : index_kept lg lg) by (intros t it kv Ht Hon; by exists t).
  assert (Hgrow : chunks_grow (gh_chunks gh) (ks ++ [k'])).
  { rewrite Hcs. apply grow_last; [congruence|]. destruct Hcase as [[_ ->]|[_ ->]]; [by eexists|done]. }
  eapply (holder_moves gh lg pr cs i _ (Writing buf pc')); simpl; try done.
  - by destruct Hcase as [[-> _]|[-> _]].
  - by split; [rewrite app_nil_r|..].
  - rewrite Hcs, !items_app, !items_single. destruct Hcase as [[-> ->]|[-> ->]]; simpl; [|by rewrite app_nil_r].
    rewrite (proj2 (Z.leb_gt _ _)) by lia. simpl. by rewrite app_assoc.
  - by destruct Hcase as [[-> _]|[-> _]].
  - destruct Hcase as [[-> _]|[-> _]]; simpl; (split_and!; [done..|]); [by left|by exists ks, k'].
  - by destruct Hcase as [[-> _]|[-> _]].
  - by rewrite app_nil_r.
Qed.

Lemma write_returns gh lg pr cs i buf p new rc :
  inv (LogState lg pr cs) gh → cs !! i = Some (Writing buf (LW_segment p new (W_return rc))) →
  log_steps gh lg pr cs i (Writing buf (LW_segment p new (W_return rc))).
Proof using Hlo Hslots Hsz.
  intros I Hc. destruct (holding_at _ _ _ _ _ _ _ _ _ _ I Hc eq_refl) as (_ & _ & Hp & _). pose proof (po_nonempty _ _ _ Hp) as Hpos.
  destruct (write_at_rest _ _ _ _ _ _ _ _ _ I Hc) as (ks & k & k' & Hks & Hkp & Hkp' & Hcs & Hst & Hne & Hcase).
  set (gs' := update_ghost p (settled (gh_segments gh p)) (gh_segments gh)).
  assert (Hitems : c_items k' = c_items k ++ (if rc <? 0 then [] else [buf])).
  { destruct Hcase as [[-> ->]|(-> & _ & ->)]; [by rewrite (proj2 (Z.ltb_ge _ _)) by lia|by rewrite app_nil_r]. }
  assert (Hnext : segment_written p new rc = if rc =? ELEOS then if new then LW_close p else LW_roll p
    else if new then LW_index p rc else LW_unlock rc) by done.
  assert (Hseg : ∀ k0, k0 ∈ ks ++ [k'] → segment_ok lo pr (<[i := Writing buf (segment_written p new rc)]> cs) gs' k0).
  { eapply (segs_settled gh lg pr cs i buf p new rc); try done. intros a. rewrite Hnext. by destruct (rc =? ELEOS), new. }
  rewrite Hnext in Hseg. destruct new.
  - destruct Hcs as [<- Hnil], Hcase as [[-> Hitems']|(_ & ? & _)]; [|done]. rewrite Hnil in Hitems'.
    rewrite (proj2 (Z.eqb_neq (zlen buf) ELEOS)) in Hnext, Hseg by (unfold ELEOS; lia).
    eexists (Writing buf (LW_index p (zlen buf))), lg, pr, _. split; [cbn [log_call_step log_write_step]; by rewrite Hnext|].
    split; [by apply returns_new|by apply settled_grows].
  - assert (Hpc : segment_written p false rc = LW_unlock (zlen buf) ∧ c_items k' = c_items k ++ [buf] ∨
      segment_written p false rc = LW_roll p ∧ c_items k' = c_items k).
    { rewrite Hnext. destruct Hcase as [[-> ?]|(-> & _ & ?)]; [left|by right]. by rewrite (proj2 (Z.eqb_neq _ _)) by (unfold ELEOS; lia). }
    rewrite <- Hnext in Hseg.
    eexists (Writing buf (segment_written p false rc)), lg, pr, _. split; [done|].
    split; [by eapply (returns_old _ _ _ _ _ _ _ rc ks k)|apply settled_grows]. rewrite Hcs. apply grow_last; [congruence|].
    rewrite Hitems. by eexists.
Qed.

Lemma write_indexes gh lg pr cs i buf p n :
  inv (LogState lg pr cs) gh → cs !! i = Some (Writing buf (LW_index p n)) →
  log_steps gh lg pr cs i (Writing buf (LW_index p n)).
Proof using All.
  intros I Hc. destruct (call_at _ _ _ _ _ _ _ _ _ _ I Hc) as [Hbuf _].
  destruct (holding_at _ _ _ _ _ _ _ _ _ _ I Hc eq_refl) as (Hh & _ & Hp & -> & k & Hnew & <- & Hitems).
  pose proof (holder_rest _ _ _ _ _ _ _ _ _ _ I Hc (or_intror Hh) eq_refl) as Hpr.
  pose proof (lc_rest _ _ _ _ _ _ I) as [Hst Hne Hix]. cbn [ls_log] in Hix. rewrite Hnew, <- Hpr in Hst.
  pose proof (lc_segments _ _ _ _ _ _ I) as Hseg. cbn [ls_process ls_calls] in Hseg. rewrite Hnew in Hseg.
  pose proof (po_nonempty _ _ _ Hp) as Hpos.
  destruct (index_segment_ok dir sz lo Hdir Hsz Hmod Hlo Hslots lg pr _ k (zlen buf) Hix Hst Hne) as (lg' & Hrun & Hix' & Hlock & Hkept).
  set (c' := Writing buf (LW_unlock (zlen buf)) : log_call It).
  exists c', lg', pr, (LogGhost (Some i) pr (gh_chunks gh ++ [k]) [] (gh_segments gh)).
  split; [cbn [log_call_step log_write_step]; by run Hrun|]. split; [|split; [apply grow_snoc|done]].
  eapply (holder_moves gh lg pr cs i _ c'); simpl; try done.
  - split; simpl; [by rewrite app_nil_r| |done]. apply Forall_app. split; [done|]. by rewrite Forall_singleton, Hitems.
  - apply grow_snoc.
  - rewrite items_app, items_single, Hitems. by rewrite (proj2 (Z.leb_gt _ _)) by lia.
  - split_and!; [done..|]. by left.
  - rewrite app_nil_r. by apply (segs_same _ _ _ _ _ _ _ c' Hseg Hc).
Qed.

(** ** Every call of [mqlog_write] *)

Lemma write_steps gh lg pr cs i buf pc :
  inv (LogState lg pr cs) gh → cs !! i = Some (Writing buf pc) → zlen (items (gh_chunks gh)) < max_offset →
  log_steps gh lg pr cs i (Writing buf pc).
Proof using All.
  intros I Hc HN. destruct pc as [| |b|p new pc|p|p|p n|rc|rc].
  - by apply write_locks.
  - by apply write_looks.
  - by apply write_creates.
  - destruct (returned (Write buf pc)) eqn:Hret; [|by apply write_runs]. destruct pc; try done. by apply write_returns.
  - by apply write_rolls.
  - by destruct (holding_at _ _ _ _ _ _ _ _ _ _ I Hc eq_refl) as (_ & _ & _ & ?).
  - by apply write_indexes.
  - by apply write_unlocks.
  - by apply (quiet_steps _ _ _ _ gh lg pr cs i _ (Writing buf (LW_return rc))); try done; eapply call_at.
Qed.
End steps.
