(* ===== verification/MqlogThreadsSpec.v ===== *)
(** * The log under concurrent calls: the properties *)

From S2P Require Import Prelude Errno Prot Posix Util Segment SegmentInv SegmentOps SegmentSpec SegmentFile SegmentFileSpec SegmentDurable SegmentFrame SegmentThreads SegmentThreadsInv SegmentThreadsOps SegmentThreadsStep SegmentThreadsSpec SegmentThreadsSync SegmentThreadsRest MemOs MbptreeSpec Index Mbptree MbptreeIndex Pthread Mqlog MqlogInv MqlogSynced MqlogOps MqlogSpec MqlogThreads MqlogThreadsAlone MqlogThreadsInv MqlogThreadsOps MqlogThreadsStep MqlogThreadsSync MqlogThreadsWrite.

(** A choice of ghosts, one for each segment. *)
Lemma choose_ghosts (P : chunk → ghost → Prop) ks :
  NoDup (c_addr <$> ks) → (∀ k, k ∈ ks → ∃ g, P k g) → ∃ gs, ∀ k, k ∈ ks → P k (gs (c_addr k)).
Proof.
  induction ks as [|k ks IH]; intros Hnd Hex.
  { exists (λ _, Ghost [] false None [] []). intros k Hk. by apply elem_of_nil in Hk. }
  rewrite fmap_cons in Hnd. apply NoDup_cons in Hnd as [Hk Hnd].
  destruct IH as [gs Hgs]; [done|intros k' Hk'; apply Hex; by right|].
  destruct (Hex k) as [g Hg]; [left|]. exists (update_ghost (c_addr k) g gs).
  intros k' [->|Hk']%elem_of_cons; unfold update_ghost; [by rewrite Z.eqb_refl|].
  rewrite (proj2 (Z.eqb_neq _ _)); [by apply Hgs|]. intros Heq. apply Hk. rewrite <- Heq. by apply list_elem_of_fmap_2.
Qed.

Section spec.
Context {W T It M : Type}.
Context `{!Posix W, !PosixLaws W, !Index T It, !IndexLaws T It, !Pthread M, !PthreadLaws M}.
Context {mode : Mode}.
Context (dir : string) (sz lo : Z) (items0 : list bytes).
Context (Hdir : dir_ok dir) (Hsz : 0 ≤ sz < 2 ^ 32) (Hmod : sz mod os_pagesize = 0).
Context (Hlo : 0 ≤ lo) (Hslots : index_mapped (W := W) sz lo).
Implicit Types (lg : mqlog T M) (pr : process W) (c : log_call It) (gh : log_ghost W) (st : log_state W T It M).

Abbreviation inv := (log_conc dir sz lo items0).
Abbreviation reaches := (log_reachable (payload_ok sz lo)).

Lemma grows_trans gh1 gh2 gh3 : log_grows gh1 gh2 → log_grows gh2 gh3 → log_grows gh1 gh3.
Proof using Type.
  intros [Hc1 Hp1] [Hc2 Hp2]. split; [by etrans|]. intros k Hk. etrans; [by apply Hp1|].
  apply list_elem_of_split in Hk as (k1 & k2 & Hks).
  destruct (Hc1 (zlen (items k1)) k) as (k' & Hk' & <- & _); [by exists k1, k2|]. apply Hp2. by eapply chunk_at_in.
Qed.

Lemma grows_refl gh : log_grows gh gh.
Proof using Type. by apply grows_same. Qed.

(** ** Events *)

Lemma call_steps gh lg pr cs i c :
  inv (LogState lg pr cs) gh → cs !! i = Some c → zlen (items (gh_chunks gh)) < max_offset →
  log_steps dir sz lo items0 gh lg pr cs i c.
Proof using All.
  intros I Hc HN. destruct c as [buf pc|o fr pc|pc].
  - by apply write_steps.
  - destruct pc as [| |it valid|it|p|p rel pc|rc fr'].
    + by apply read_locks.
    + by apply read_floors.
    + by apply read_unlocks.
    + by apply read_values.
    + by apply read_bases.
    + by apply read_segments.
    + apply (quiet_steps _ _ _ _ gh lg pr cs i _ (Reading o fr (LR_return rc fr'))); try done. by eapply call_at.
  - destruct pc as [|p pc|rc].
    + by apply sync_looks.
    + by apply sync_segments.
    + by apply (quiet_steps _ _ _ _ gh lg pr cs i _ (Syncing (LS_return rc))).
Qed.

Lemma call_starts gh lg pr cs c :
  inv (LogState lg pr cs) gh → log_accepted c = None → holding c = false → (∀ a, seen_by a c = idle_call) →
  log_call_ok sz lo lg (gh_chunks gh) c → inv (LogState lg pr (cs ++ [c])) gh.
Proof using Type.
  intros [Irest (ws & Iws & Iperm) Imx Ipr Iidle Ihold Icalls Iseg] Ha Hh Hs Hok. simpl in *. split; simpl; try done.
  - exists ws. split; [done|]. unfold log_written. rewrite omap_app. simpl. by rewrite Ha, app_nil_r.
  - destruct Imx as [Hone Hm]. split.
    + intros i c2 [Hi|[_ Hi]]%lookup_app_Some Hhold; [by eapply Hone|].
      apply list_lookup_singleton_Some in Hi as [_ <-]. congruence.
    + destruct (gh_holder gh) as [j|]; [|done]. destruct Hm as [Hm (c2 & Hc2 & Hh2)]. split; [done|].
      exists c2. split; [by apply lookup_app_l_Some|done].
  - destruct Imx as [_ Hm]. destruct (gh_holder gh) as [j|]; [|done]. destruct Hm as [_ (c2 & Hc2 & _)].
    simpl in *. by rewrite lookup_app_l by (by eapply lookup_lt_Some).
  - intros i c2 Hi [Hc2|[Hle Hc2]]%lookup_app_Some; [by eapply Ihold|exfalso].
    destruct Imx as [_ Hm]. rewrite Hi in Hm. destruct Hm as [_ (c3 & Hc3 & _)]. apply lookup_lt_Some in Hc3. lia.
  - intros i c2 [Hc2|[_ Hc2]]%lookup_app_Some; [by eapply Icalls|].
    by apply list_lookup_singleton_Some in Hc2 as [_ <-].
  - by apply segs_start.
Qed.

Lemma log_event_inv st gh ev :
  inv st gh → zlen (items (gh_chunks gh)) < max_offset → log_event_ok (payload_ok sz lo) ev →
  sync_race ev (ls_calls st) = false →
  ∃ st' gh', exec_log_event ev st = Ok st' ∧ inv st' gh' ∧ log_grows gh gh'.
Proof using All.
  intros I HN Hev Hrace. destruct st as [lg pr cs]. cbn [ls_calls] in Hrace. unfold exec_log_event. rewrite Hrace.
  destruct ev as [buf|o fr| |i]; simpl in Hev.
  - eexists _, gh. split; [done|]. split; [by apply call_starts|apply grows_refl].
  - eexists _, gh. split; [done|]. split; [by apply call_starts|apply grows_refl].
  - eexists _, gh. split; [done|]. split; [by apply call_starts|apply grows_refl].
  - destruct (cs !! i) as [c|] eqn:Hc; [|eexists _, gh; split; [done|split; [done|apply grows_refl]]].
    destruct (call_steps _ _ _ _ _ _ I Hc HN) as (c' & lg' & pr' & gh' & Hrun & I' & Hg).
    run Hrun. by eexists _, gh'.
Qed.

(** ** Executions *)

Lemma event_calls ev st st' : exec_log_event ev st = Ok st' → (length (ls_calls st) ≤ length (ls_calls st'))%nat.
Proof using Type.
  destruct st as [lg pr cs]. unfold exec_log_event. destruct (sync_race ev cs); [done|].
  destruct ev as [buf|o fr| |i]; try (intros [= <-]; simpl; rewrite length_app; simpl; lia).
  destruct (cs !! i) as [c|]; [|by intros [= <-]].
  intros ([[c' lg'] pr'] & _ & [= <-])%bind_Ok_inv. simpl. by rewrite length_insert.
Qed.

Lemma exec_reaches evs : ∀ st st', Forall (log_event_ok (payload_ok sz lo)) evs → exec_log evs st = Ok st' → reaches st st'.
Proof using Type.
  assert (H : ∀ st0 st st', reaches st0 st → Forall (log_event_ok (payload_ok sz lo)) evs → exec_log evs st = Ok st' → reaches st0 st').
  { induction evs as [|ev evs IH]; intros st0 st st' Hr Hevs Hrun; cbn [exec_log] in Hrun; [by injection Hrun as <-|].
    apply Forall_cons in Hevs as [Hev Hevs]. apply bind_Ok_inv in Hrun as (st1 & Hst & Hrun).
    apply (IH st0 st1); [|done..]. by eapply log_reach_event. }
  intros st st'. apply H. apply log_reach_start.
Qed.

Lemma reaches_calls st st' : reaches st st' → (length (ls_calls st) ≤ length (ls_calls st'))%nat.
Proof using Type. induction 1 as [|ev st1 st2 _ IH _ Hrun]; [done|]. apply event_calls in Hrun. lia. Qed.

Lemma items_bound st gh : inv st gh → zlen (items (gh_chunks gh)) ≤ zlen items0 + zlen (ls_calls st).
Proof using Type.
  intros I. destruct (lc_items _ _ _ _ _ _ I) as (ws & -> & Hperm). apply Permutation_length in Hperm.
  pose proof (written_length (ls_calls st)). rewrite length_app. lia.
Qed.

Lemma reaches_inv st st' gh :
  inv st gh → reaches st st' → zlen items0 + zlen (ls_calls st') < max_offset →
  ∃ gh', inv st' gh' ∧ log_grows gh gh'.
Proof using All.
  intros I. induction 1 as [|ev st1 st2 Hr IH Hev Hrun]; intros Hb; [exists gh; split; [done|apply grows_refl]|].
  pose proof (event_calls _ _ _ Hrun) as Hlen. destruct IH as (gh1 & I1 & Hg1); [lia|].
  destruct (log_event_inv st1 gh1 ev I1) as (st3 & gh2 & Hrun' & I2 & Hg2).
  - pose proof (items_bound _ _ I1). lia.
  - done.
  - destruct st1 as [lg pr cs]. unfold exec_log_event in Hrun. cbn [ls_calls]. by destruct (sync_race ev cs).
  - rewrite Hrun in Hrun'. injection Hrun' as <-. exists gh2. split; [done|]. by eapply grows_trans.
Qed.

(** ** What a read has found *)

Lemma returned_holds c : log_returned c = true → holding c = false.
Proof using Type. by destruct c as [buf pc|o fr pc|pc]; destruct pc. Qed.

(** A read that returned a length has its payload in the segment of a chunk. *)
Lemma read_found st gh i o fr a rel rc fr' :
  inv st gh → ls_calls st !! i = Some (Reading o fr (LR_segment a rel (R_return rc fr'))) →
  rc = ELNORD ∨
  ∃ b k q, chunk_at (gh_chunks gh) b k ∧ c_addr k = a ∧ b ≤ o ∧ rel = o - b ∧
    g_payloads (gh_segments gh a) !! Z.to_nat rel = Some q ∧ rc = zlen q ∧ points_to (ls_process st) fr' q.
Proof using Type.
  intros I Hc. destruct st as [lg pr cs]. cbn [ls_calls ls_process] in *.
  destruct (call_at _ _ _ _ _ _ _ _ _ _ I Hc) as [Ho [Hsound (b & k & Hk & <- & Hb & ->)]].
  destruct (lc_segments _ _ _ _ _ _ I k) as (sgm & Hs & I1); [apply elem_of_app; left; by eapply chunk_at_in|].
  cbn [ls_process ls_calls] in *. pose proof (seen_lookup (c_addr k) _ _ _ Hc) as Hsc. simpl in Hsc. rewrite Z.eqb_refl in Hsc.
  destruct (ci_calls _ _ _ _ I1 _ _ Hsc) as [_ [Hrc|(sl & Hi & Hp & -> & ->)]]; [left|right].
  { simpl in Hsound. rewrite !elem_of_cons, elem_of_nil in Hrc. by destruct Hrc as [?|[?|[]]]. }
  exists b, k, (sl_payload sl). rewrite list_lookup_fmap, Hi. split_and!; try done.
  exists (c_addr k), sgm. split; [done|]. by apply (published_header lo _ _ _ _ (ci_layout _ _ _ _ I1) Hi).
Qed.

(** When every call has returned the log is at rest. *)
Lemma quiet_holder st gh : inv st gh → forallb log_returned (ls_calls st) = true → gh_holder gh = None.
Proof using Type.
  intros I Hq. destruct (lc_mutex _ _ _ _ _ _ I) as [_ Hm]. destruct (gh_holder gh) as [j|]; [exfalso|done].
  destruct Hm as [_ (c & Hc & Hh)]. rewrite forallb_forall in Hq.
  apply list_elem_of_lookup_2, list_elem_of_In, Hq in Hc. apply returned_holds in Hc. congruence.
Qed.

Lemma idle_log st gh : inv st gh → gh_holder gh = None →
  log_inv dir sz lo (ls_log st) (ls_process st) (gh_chunks gh) ∧
  ∀ k, k ∈ gh_chunks gh → g_payloads (gh_segments gh (c_addr k)) = c_items k.
Proof using Type.
  intros I Hn. destruct (lc_rest _ _ _ _ _ _ I) as [Hst Hne [Hix Hd Hs Hf]].
  pose proof (lc_process _ _ _ _ _ _ I) as Hp. rewrite Hn in Hp. simpl in Hp.
  pose proof (lc_idle _ _ _ _ _ _ I Hn) as Hnew. rewrite Hnew, app_nil_r, <- Hp in Hst.
  destruct (lc_mutex _ _ _ _ _ _ I) as [Hone Hm]. rewrite Hn in Hm. split; [by split|].
  intros k Hk. destruct (lc_segments _ _ _ _ _ _ I k) as (sgm & _ & I1); [apply elem_of_app; by left|].
  apply (readers_payloads lo _ _ _ _ I1). intros j sc Hj. rewrite list_lookup_fmap in Hj.
  destruct (ls_calls st !! j) as [c|] eqn:Hc; [|done]. injection Hj as <-. apply seen_reading.
  destruct (holding c) eqn:Hh; [|done]. specialize (Hone _ _ Hc Hh). congruence.
Qed.

(** ** From a log at rest *)

Lemma start_log lg pr cs0 :
  log_inv dir sz lo lg pr cs0 → items cs0 = items0 → ∃ gh, inv (LogState lg pr []) gh.
Proof using Hlo Hslots Hsz.
  intros [Hst Hne Hix Hlock Hd Hs Hf] Hitems. pose proof (si_resident _ _ _ _ _ Hst) as Hres.
  destruct (choose_ghosts (λ k g, ∃ sgm, pr_segments pr !! c_addr k = Some sgm ∧
    conc_inv lo (c_items k) (State sgm []) g) cs0) as [gs Hgs]; [apply Hres| |].
  { intros k (k1 & k2 & ->)%list_elem_of_split. pose proof (rs_chunks _ _ _ _ _ Hres) as Hch.
    apply chunks_ok_at in Hch. destruct (resting_segment_inv dir sz lo Hsz Hlo Hslots _ _ _ Hch) as (sgm & g & ? & ? & _).
    by exists g, sgm. }
  exists (LogGhost None pr cs0 [] gs). split; simpl; try done.
  - split; [by rewrite app_nil_r|done|by split].
  - exists []. by rewrite app_nil_r.
  - rewrite app_nil_r. exact Hgs.
Qed.

(** ** Calls that have returned *)

Lemma log_event_returned ev st st' i c :
  exec_log_event ev st = Ok st' → ls_calls st !! i = Some c → log_returned c = true → ls_calls st' !! i = Some c.
Proof using Type.
  destruct st as [lg pr cs]. unfold exec_log_event. destruct (sync_race ev cs); [done|].
  destruct ev as [buf|o fr| |j]; try (intros [= <-] Hc _; by apply lookup_app_l_Some).
  destruct (cs !! j) as [cj|] eqn:Hj; [|by intros [= <-]].
  intros ([[c' lg'] pr'] & Hstep & [= <-])%bind_Ok_inv Hc Hret. simpl in *.
  destruct (decide (j = i)) as [->|Hne]; [|by rewrite list_lookup_insert_ne].
  rewrite Hc in Hj. injection Hj as <-. destruct (log_returned_stays _ _ _ _ _ _ Hstep Hret) as [-> _].
  apply list_lookup_insert_eq. by eapply lookup_lt_Some.
Qed.

Lemma reaches_returned st st' i c :
  reaches st st' → ls_calls st !! i = Some c → log_returned c = true → ls_calls st' !! i = Some c.
Proof using Type. intros Hr Hc Hret. induction Hr; [done|]. by eapply log_event_returned. Qed.

(** What a read has returned: the errors, or where its payload is. *)
Lemma result_found st gh i o fr pc rc fr' :
  inv st gh → ls_calls st !! i = Some (Reading o fr pc) → read_result (Reading o fr pc) = Some (rc, fr') →
  rc ∈ [ELLOCK; ELNORD] ∨
  ∃ a rel, pc = LR_segment a rel (R_return rc fr') ∧
    ∃ b k q, chunk_at (gh_chunks gh) b k ∧ c_addr k = a ∧ b ≤ o ∧ rel = o - b ∧
      g_payloads (gh_segments gh a) !! Z.to_nat rel = Some q ∧ rc = zlen q ∧ points_to (ls_process st) fr' q.
Proof using Type.
  intros I Hc Hres. destruct pc as [| |it v|it|p|p rel rpc|rc0 fr0]; try done.
  - destruct rpc as [| | | | | |rc0 fr0]; try done. injection Hres as -> ->.
    destruct (read_found _ _ _ _ _ _ _ _ _ I Hc) as [->|Hf]; [left; right; left|right]. by exists p, rel.
  - injection Hres as -> ->. left. destruct st as [lg pr cs].
    destruct (call_at _ _ _ _ _ _ _ _ _ _ I Hc) as [_ [Hin _]]. done.
Qed.

(** A payload found in a log at rest is the one at the offset. *)
Lemma found_at_rest gh b k o q :
  (∀ k, k ∈ gh_chunks gh → g_payloads (gh_segments gh (c_addr k)) = c_items k) →
  chunk_at (gh_chunks gh) b k → 0 ≤ b ≤ o → g_payloads (gh_segments gh (c_addr k)) !! Z.to_nat (o - b) = Some q →
  items (gh_chunks gh) !! Z.to_nat o = Some q.
Proof using Type.
  intros Hrest Hk Hb Hq. rewrite Hrest in Hq by (by eapply chunk_at_in).
  rewrite <- (chunk_at_lookup _ _ _ _ _ Hk Hq). f_equal. lia.
Qed.
End spec.

(** ** The properties *)

Section properties.
Context {W T It M : Type}.
Context `{!Posix W, !PosixLaws W, !Index T It, !IndexLaws T It, !Pthread M, !PthreadLaws M}.
Context {mode : Mode}.
Context (dir : string) (sz lo : Z) (lg : mqlog T M) (pr : process W) (cs0 : list chunk).
Context (Hdir : dir_ok dir) (Hsz : 0 ≤ sz < 2 ^ 32) (Hmod : sz mod os_pagesize = 0).
Context (Hlo : 0 ≤ lo) (Hslots : index_mapped (W := W) sz lo) (I0 : log_inv dir sz lo lg pr cs0).
Implicit Types (st : log_state W T It M).

Abbreviation start := (LogState lg pr []).
Abbreviation inv := (log_conc dir sz lo (items cs0)).
Abbreviation reaches := (log_reachable (payload_ok sz lo)).
Abbreviation bounded st := (zlen (items cs0) + zlen (ls_calls st) < max_offset).

Lemma start_reaches st : reaches start st → bounded st → ∃ gh, inv st gh.
Proof using All.
  intros Hr Hb. destruct (start_log dir sz lo (items cs0) Hsz Hlo Hslots lg pr cs0 I0 eq_refl) as [gh I].
  destruct (reaches_inv dir sz lo (items cs0) Hdir Hsz Hmod Hlo Hslots _ _ _ I Hr Hb) as (gh' & I' & _). by exists gh'.
Qed.

Lemma reaches_more st st' gh : inv st gh → reaches st st' → bounded st' → ∃ gh', inv st' gh' ∧ log_grows gh gh'.
Proof using Hdir Hsz Hmod Hlo Hslots. intros I Hr Hb. by apply (reaches_inv dir sz lo (items cs0) Hdir Hsz Hmod Hlo Hslots st). Qed.

(** [C7]: From a log at rest, whatever calls of [mqlog_write], [mqlog_read]
    and [mqlog_sync] on payloads as below have started, and however far each
    has come, any of them can make its next access, and any such call can
    start, without undefined behaviour, but for a sync that loads the last
    value of the index within an append to it ([sync_race]), a data race of
    the code; at most one call is in the part the mutex protects; and a write
    that has returned returned the length of its payload, [ELLOCK], or an
    error of the system. Assumed: the size of a segment is a multiple of the
    page size below 2^32, the directory name has 1 to 200 characters,
    descriptor 0 is open, the index never runs out of memory; every payload is
    nonempty, leaves room for its header and an end mark in a segment (its
    length + 24 is at most the size), does not imitate an end mark (bytes
    0xaaaa twelve from its end), and has at least [lo] bytes, where the pages
    mapped for the index have a slot for every payload of that length that
    fits ([index_mapped]: 84 bytes are enough for any size, no minimum is
    needed when a segment is one page); or it is empty, which [mqlog_write]
    refuses to store; fewer than 2^63 - 2^32 payloads and calls; read offsets
    are 64-bit. Smaller payloads can overrun the index ([index_too_small]). *)
Theorem log_calls_are_safe st :
  reaches start st → bounded st →
  (∀ ev, log_event_ok (payload_ok sz lo) ev → sync_race ev (ls_calls st) = false →
    ∃ st', exec_log_event ev st = Ok st') ∧
  (∀ i j ci cj, ls_calls st !! i = Some ci → ls_calls st !! j = Some cj → holding ci = true → holding cj = true →
    i = j) ∧
  (∀ i buf rc, ls_calls st !! i = Some (Writing buf (LW_return rc)) → rc = zlen buf ∨ rc ∈ ELLOCK :: os_errors).
Proof using All.
  intros Hr Hb. destruct (start_reaches st Hr Hb) as [gh I]. split; [|split].
  - intros ev Hev Hrace. pose proof (items_bound _ _ _ _ _ _ I).
    destruct (log_event_inv dir sz lo (items cs0) Hdir Hsz Hmod Hlo Hslots st gh ev I) as (st' & _ & Hrun & _);
      [lia|done|done|]. by exists st'.
  - intros i j ci cj Hi Hj Hci Hcj. destruct (lc_mutex _ _ _ _ _ _ I) as [Hone _].
    pose proof (Hone _ _ Hi Hci). pose proof (Hone _ _ Hj Hcj). congruence.
  - intros i buf rc Hc. apply (lc_calls _ _ _ _ _ _ I _ _ Hc).
Qed.

(** [C6]: From a log at rest, whatever the interleaving of calls of
    [mqlog_write], [mqlog_read] and [mqlog_sync], at every moment the log has
    a list of payloads, those of the start and then, each once, the payloads
    of the writes that have come past the store of theirs, in an order that no
    later event changes; and whenever every call has returned, the log is a
    log at rest that holds such a list. Assumed: the size of a segment is a
    multiple of the page size below 2^32, the directory name has 1 to 200
    characters, descriptor 0 is open, the index never runs out of memory;
    every payload is nonempty, leaves room for its header and an end mark in a
    segment (its length + 24 is at most the size), does not imitate an end
    mark (bytes 0xaaaa twelve from its end), and has at least [lo] bytes,
    where the pages mapped for the index have a slot for every payload of that
    length that fits ([index_mapped]: 84 bytes are enough for any size, no
    minimum is needed when a segment is one page); fewer than 2^63 - 2^32
    payloads and calls; no [mqlog_sync] loads the last value of the index
    within an append to it ([sync_race]), a data race of the code. Both read
    modes. *)
Theorem log_writes_linearize st :
  reaches start st → bounded st →
  ∃ ws, ws ≡ₚ log_written (ls_calls st) ∧
    (∀ st', reaches st st' → bounded st' → ∃ ws', ws ++ ws' ≡ₚ log_written (ls_calls st') ∧
      (forallb log_returned (ls_calls st') = true →
        ∃ cs, log_inv dir sz lo (ls_log st') (ls_process st') cs ∧ items cs = items cs0 ++ ws ++ ws')).
Proof using All.
  intros Hr Hb. destruct (start_reaches st Hr Hb) as [gh I].
  destruct (lc_items _ _ _ _ _ _ I) as (ws & Hws & Hperm). exists ws. split; [done|].
  intros st' Hr' Hb'. destruct (reaches_more _ _ _ I Hr' Hb') as (gh' & I' & [Hgrow _]).
  apply grow_items in Hgrow as [ws' Heq]. destruct (lc_items _ _ _ _ _ _ I') as (ws2 & Hws2 & Hperm2).
  rewrite Hws2, Hws, <- app_assoc in Heq. apply app_inv_head in Heq as ->. exists ws'. split; [done|].
  intros Hq. pose proof (quiet_holder _ _ _ _ _ _ I' Hq) as Hn.
  destruct (idle_log _ _ _ _ _ _ I' Hn) as [Hlog _]. by exists (gh_chunks gh').
Qed.

(** [C8]: From a log at rest, a call of [mqlog_read] that has returned,
    concurrently with writes, reads and syncs, returned [ELLOCK] or [ELNORD],
    or the length of a payload to which its frame points from then on,
    whatever the other calls do; and when every call has returned that payload
    is the one the log holds at the offset. Assumed: the size of a segment is
    a multiple of the page size below 2^32, the directory name has 1 to 200
    characters, descriptor 0 is open, the index never runs out of memory;
    every payload is nonempty, leaves room for its header and an end mark in a
    segment (its length + 24 is at most the size), does not imitate an end
    mark (bytes 0xaaaa twelve from its end), and has at least [lo] bytes,
    where the pages mapped for the index have a slot for every payload of that
    length that fits ([index_mapped]: 84 bytes are enough for any size, no
    minimum is needed when a segment is one page); fewer than 2^63 - 2^32
    payloads and calls; no [sync_race]. With an index that runs out of memory
    a read also returns its code ([failed_read_keeps_lock]). *)
Theorem log_reads_are_stable st i o fr pc rc fr' :
  reaches start st → bounded st → ls_calls st !! i = Some (Reading o fr pc) →
  read_result (Reading o fr pc) = Some (rc, fr') →
  rc ∈ [ELLOCK; ELNORD] ∨
  ∃ p, rc = zlen p ∧
    ∀ st', reaches st st' → bounded st' → points_to (ls_process st') fr' p ∧
      (forallb log_returned (ls_calls st') = true →
        ∃ cs, log_inv dir sz lo (ls_log st') (ls_process st') cs ∧ items cs !! Z.to_nat o = Some p).
Proof using All.
  intros Hr Hb Hc Hres. destruct (start_reaches st Hr Hb) as [gh I].
  destruct (result_found _ _ _ _ _ _ _ _ _ _ _ _ I Hc Hres) as [Hin|(a & rel & -> & b & k & q & Hk & <- & Hbo & -> & Hq & -> & _)];
    [by left|right]. exists q. split; [done|]. intros st' Hr' Hb'.
  destruct (reaches_more _ _ _ I Hr' Hb') as (gh' & I' & [_ Hgrow]).
  pose proof (reaches_returned _ _ _ _ _ _ Hr' Hc eq_refl) as Hc'.
  destruct (result_found _ _ _ _ _ _ _ _ _ _ _ _ I' Hc' Hres) as [Hin|(a' & rel' & Hpc & b' & k' & q' & Hk' & Ha' & Hbo' & Hrel' & Hq' & _ & Hpt)].
  { exfalso. rewrite !elem_of_cons, elem_of_nil in Hin. unfold ELLOCK, ELNORD in Hin. lia. }
  injection Hpc as <- <-.
  pose proof (prefix_lookup_Some _ _ _ _ Hq (Hgrow k (chunk_at_in _ _ _ Hk))) as Hq2. rewrite Hq2 in Hq'. injection Hq' as <-.
  split; [done|]. intros Hquiet. pose proof (quiet_holder _ _ _ _ _ _ I' Hquiet) as Hn.
  destruct (idle_log _ _ _ _ _ _ I' Hn) as [Hlog Hrest]. exists (gh_chunks gh'). split; [done|].
  rewrite <- Ha', Hrel' in Hq2. apply (found_at_rest _ _ _ _ _ Hrest Hk'); [|done]. pose proof (chunk_at_base _ _ _ Hk'). lia.
Qed.
End properties.

(** ** A concrete execution

    A write meets an empty log; a read that comes in between finds the log
    locked. Then a read, a write and a sync go on together. *)

#[local] Existing Instance reads_written.

Abbreviation demo_state := (log_state mem_os tree_and_heap mbptree_leaf_iterator flag_mutex).

Definition demo_calls : list log_event :=
  Log_write (zeros 100) :: replicate 3 (Log_run 0) ++ [Log_read 0 (Frame 0 0); Log_run 1] ++ replicate 160 (Log_run 0).
Definition demo_more : list log_event :=
  [Log_read 0 (Frame 0 0); Log_write (zeros 200); Log_sync] ++ replicate 3 (Log_run 2) ++
  flat_map (λ _, [Log_run 2; Log_run 3; Log_run 4]) (seq 0 240).

Definition state_after (evs : list log_event) (st : demo_state) : demo_state :=
  match exec_log evs st with Ok st' => st' | _ => st end.
Definition demo_start : demo_state := LogState demo_log demo_opened_process [].
Definition demo_middle : demo_state := state_after demo_calls demo_start.
Definition demo_end : demo_state := state_after demo_more demo_middle.

Lemma demo_calls_reach : log_reachable (payload_ok 4096 0) demo_start demo_middle.
Proof.
  apply (exec_reaches 4096 0 demo_calls); [|by vm_compute]. unfold demo_calls.
  rewrite Forall_cons, !Forall_app. split; [right; split; by vm_compute|].
  split_and!; try (by apply Forall_replicate). by repeat constructor.
Qed.

Lemma demo_more_reach : log_reachable (payload_ok 4096 0) demo_middle demo_end.
Proof.
  apply (exec_reaches 4096 0 demo_more); [|by vm_compute]. unfold demo_more.
  rewrite !Forall_app. split; [|split].
  - constructor; [done|]. constructor; [right; split; by vm_compute|]. by repeat constructor.
  - by apply Forall_replicate.
  - apply Forall_forall. intros ev (n & _ & Hev)%list_elem_of_In%in_flat_map. by destruct Hev as [<-|[<-|[<-|[]]]].
Qed.

Lemma demo_reach : log_reachable (payload_ok 4096 0) demo_start demo_end.
Proof.
  pose proof demo_more_reach as H. induction H; [apply demo_calls_reach|]. by eapply log_reach_event.
Qed.

Lemma log_calls_are_safe_witness :
  (∀ ev, log_event_ok (payload_ok 4096 0) ev → sync_race ev (ls_calls demo_end) = false →
    ∃ st', exec_log_event ev demo_end = Ok st') ∧
  (∀ i j ci cj, ls_calls demo_end !! i = Some ci → ls_calls demo_end !! j = Some cj → holding ci = true →
    holding cj = true → i = j) ∧
  (∀ i buf rc, ls_calls demo_end !! i = Some (Writing buf (LW_return rc)) → rc = zlen buf ∨ rc ∈ ELLOCK :: os_errors).
Proof.
  apply (log_calls_are_safe "/log" 4096 0 demo_log demo_opened_process [] demo_dir ltac:(lia) demo_mod ltac:(lia)
    demo_slots demo_log_inv demo_end).
  - apply demo_reach.
  - by vm_compute.
Defined.

Lemma log_writes_linearize_witness :
  ∃ ws, ws ≡ₚ [zeros 100] ∧
    (∀ st', log_reachable (payload_ok 4096 0) demo_middle st' → 0 + zlen (ls_calls st') < max_offset →
      ∃ ws', ws ++ ws' ≡ₚ log_written (ls_calls st') ∧
      (forallb log_returned (ls_calls st') = true →
        ∃ cs, log_inv "/log" 4096 0 (ls_log st') (ls_process st') cs ∧ items cs = [] ++ ws ++ ws')).
Proof.
  apply (log_writes_linearize "/log" 4096 0 demo_log demo_opened_process [] demo_dir ltac:(lia) demo_mod ltac:(lia)
    demo_slots demo_log_inv demo_middle).
  - apply demo_calls_reach.
  - by vm_compute.
Defined.

(** The read returns 100 and a frame. *)
Definition demo_found : frame :=
  match ls_calls demo_end !! 2%nat ≫= read_result with Some (_, fr) => fr | None => Frame 0 0 end.

Lemma log_reads_are_stable_witness :
  100 ∈ [ELLOCK; ELNORD] ∨
  ∃ p, 100 = zlen p ∧
    ∀ st', log_reachable (payload_ok 4096 0) demo_end st' → 0 + zlen (ls_calls st') < max_offset →
      points_to (ls_process st') demo_found p ∧
      (forallb log_returned (ls_calls st') = true →
        ∃ cs, log_inv "/log" 4096 0 (ls_log st') (ls_process st') cs ∧ items cs !! 0%nat = Some p).
Proof.
  apply (log_reads_are_stable "/log" 4096 0 demo_log demo_opened_process [] demo_dir ltac:(lia) demo_mod ltac:(lia)
    demo_slots demo_log_inv demo_end 2 0 (Frame 0 0)
    (match ls_calls demo_end !! 2%nat with Some (Reading _ _ pc) => pc | _ => LR_lock end)).
  - apply demo_reach.
  - by vm_compute.
  - by vm_compute.
  - by vm_compute.
Defined.

(** At the end every call has returned, two of them writes with their lengths. *)
Lemma demo_returns :
  forallb log_returned (ls_calls demo_end) = true ∧ log_written (ls_calls demo_end) = [zeros 100; zeros 200].
Proof. split; by vm_compute. Qed.
