(* ===== verification/MqlogThreadsSeen.v ===== *)
(** * The log under concurrent calls: what a completed write guarantees

    A read of an offset below the number of payloads at its start finds the
    payload there, unless it finds the log locked. *)

From S2P Require Import Prelude Errno Prot Posix Util Segment SegmentInv SegmentOps SegmentSpec SegmentFile SegmentFileSpec SegmentDurable SegmentFrame SegmentThreads SegmentThreadsInv SegmentThreadsOps SegmentThreadsStep SegmentThreadsSpec SegmentThreadsSeen SegmentThreadsSync SegmentThreadsRest MemOs MbptreeSpec Index Mbptree MbptreeIndex Pthread Mqlog MqlogInv MqlogSynced MqlogOps MqlogSpec MqlogThreads MqlogThreadsAlone MqlogThreadsInv MqlogThreadsOps MqlogThreadsStep MqlogThreadsSync MqlogThreadsWrite MqlogThreadsSpec.

(** Where a frame is does not depend on the base, until a read returns it. *)
Lemma on_the_way_base o buf base base' pc :
  (∀ rc fr, pc ≠ R_return rc fr) → on_the_way o buf base pc → on_the_way o buf base' pc.
Proof. intros Hn. destruct pc; try done. by destruct (Hn rc fr). Qed.

Section seen.
Context {W T It M : Type}.
Context `{!Posix W, !PosixLaws W, !Index T It, !IndexLaws T It, !Pthread M, !PthreadLaws M}.
#[local] Existing Instance reads_written.
Context (dir : string) (sz lo : Z) (items0 : list bytes).
Context (Hdir : dir_ok dir) (Hsz : 0 ≤ sz < 2 ^ 32) (Hmod : sz mod os_pagesize = 0).
Context (Hlo : 0 ≤ lo) (Hslots : index_mapped (W := W) sz lo).
Implicit Types (lg : mqlog T M) (pr : process W) (c : log_call It) (gh : log_ghost W) (st : log_state W T It M).

Abbreviation inv := (log_conc dir sz lo items0).
Abbreviation reaches := (log_reachable (payload_ok sz lo)).

(** ** Steps and the iterators on the index *)

(** Only an append changes the index of a log. *)
Lemma write_step_index buf pc lg pr pc' lg' pr' :
  log_write_step buf pc lg pr = Ok (pc', lg', pr') → lg_index lg' = lg_index lg ∨ ∃ p n, pc = LW_index p n.
Proof using Type.
  destruct pc as [| |b|p new wpc|p|p|p n|rc|rc]; cbn [log_write_step]; [..|by right; exists p, n| |]; intros Hstep; left.
  - destruct (zlen buf =? 0); [by injection Hstep as _ <- _|].
    destruct (pthread_mutex_trylock (lg_lock lg)) as [[rc e] m]. by injection Hstep as _ <- _.
  - apply bind_Ok_inv in Hstep as (t & _ & ([rc v] & _ & [= _ <- _])%bind_Ok_inv). done.
  - by apply bind_Ok_inv in Hstep as ([[rc p] pr2] & _ & [= _ <- _]).
  - destruct wpc; try (by apply bind_Ok_inv in Hstep as (s & _ & ([wpc s2] & _ & [= _ <- _])%bind_Ok_inv)).
    by injection Hstep as _ <- _.
  - by apply bind_Ok_inv in Hstep as (s & _ & [= _ <- _]).
  - by apply bind_Ok_inv in Hstep as ([rc pr2] & _ & [= _ <- _]).
  - destruct (pthread_mutex_unlock (lg_lock lg)) as [rc2 m]. by injection Hstep as _ <- _.
  - by injection Hstep as _ <- _.
Qed.

Lemma read_step_index gh lg pr cs o fr pc pc' lg' :
  inv (LogState lg pr cs) gh → log_read_step o fr pc lg pr = Ok (pc', lg') → lg_index lg' = lg_index lg.
Proof using Type.
  intros I. destruct (index_stores _ _ _ _ _ _ _ _ I) as (t & Ht & Hts).
  destruct pc as [| |it v|it|p|p rel rpc|rc fr']; cbn [log_read_step]; intros Hstep.
  - destruct (pthread_mutex_trylock (lg_lock lg)) as [[rc e] m]. by injection Hstep as _ <-.
  - destruct (law_floor t _ o Hts) as (it & rest & Hfl & Hat & _).
    unfold the_index in Hstep. rewrite Ht in Hstep. simpl of_option in Hstep. rewrite bind_Ok, Hfl, bind_Ok in Hstep.
    apply bind_Ok_inv in Hstep as (v & _ & [= _ <-]). by simpl.
  - destruct (pthread_mutex_unlock (lg_lock lg)) as [rc2 m]. by injection Hstep as _ <-.
  - by apply bind_Ok_inv in Hstep as (s & _ & (a & _ & [= _ <-])%bind_Ok_inv).
  - by apply bind_Ok_inv in Hstep as (s & _ & [= _ <-]).
  - by apply bind_Ok_inv in Hstep as (s & _ & (a & _ & [= _ <-])%bind_Ok_inv).
  - by injection Hstep as _ <-.
Qed.

Lemma index_segment_kept lg pr t kvs p n rc lg' pr' :
  lg_index lg = Some t → ix_stores t kvs → index_segment p n lg pr = Ok (rc, lg', pr') → index_kept lg lg'.
Proof using Type.
  intros Ht Hts Hrun t2 it kv Ht2 Hon. rewrite Ht in Ht2. injection Ht2 as <-. unfold index_segment, the_index in Hrun.
  apply bind_Ok_inv in Hrun as (s & _ & Hrun). rewrite Ht in Hrun. simpl of_option in Hrun. rewrite bind_Ok in Hrun.
  apply bind_Ok_inv in Hrun as ([rc1 t'] & Happ & Hrun). exists t'.
  split; [|by eapply law_on_append].
  destruct (rc1 =? ELIDXPC); [by apply bind_Ok_inv in Hrun as ([? ?] & _ & [= _ <- _])|].
  destruct (negb (rc1 =? 0)); [by apply bind_Ok_inv in Hrun as ([? ?] & _ & [= _ <- _])|by injection Hrun as _ <- _].
Qed.

Lemma step_index_kept gh lg pr cs c c' lg' pr' :
  inv (LogState lg pr cs) gh → log_call_step c lg pr = Ok (c', lg', pr') → index_kept lg lg'.
Proof using Type.
  intros I. destruct (index_stores _ _ _ _ _ _ _ _ I) as (t & Ht & Hts).
  destruct c as [buf pc|o fr pc|pc]; cbn [log_call_step].
  - intros ([[pc' lg2] pr2] & Hstep & [= _ -> _])%bind_Ok_inv.
    destruct (write_step_index _ _ _ _ _ _ _ Hstep) as [Heq|(p & n & ->)]; [by apply index_kept_refl|].
    cbn [log_write_step] in Hstep. apply bind_Ok_inv in Hstep as ([[rc lg3] pr3] & Hrun & [= _ -> _]).
    by eapply index_segment_kept.
  - intros ([pc' lg2] & Hstep & [= _ -> _])%bind_Ok_inv. by eapply index_kept_refl, read_step_index.
  - intros ([pc' pr2] & _ & [= _ -> _])%bind_Ok_inv. by apply index_kept_refl.
Qed.

(** ** A read that will find its payload *)

(** The chunk [k] at [b] holds [p] at the offset [o]. *)
Record holds gh (o : Z) (p : bytes) (b : Z) (k : chunk) : Prop := {
  hd_chunk : chunk_at (gh_chunks gh) b k;
  hd_base : b ≤ o;
  hd_payload : c_items k !! Z.to_nat (o - b) = Some p
}.

Lemma holds_grows gh gh' o p b k :
  chunks_grow (gh_chunks gh) (gh_chunks gh') → holds gh o p b k →
  ∃ k', holds gh' o p b k' ∧ c_addr k' = c_addr k ∧
    frame_offset (c_items k') (Z.to_nat (o - b)) = frame_offset (c_items k) (Z.to_nat (o - b)).
Proof using Type.
  intros Hg [Hk Hb Hp]. destruct (Hg _ _ Hk) as (k' & Hk' & Ha & Hpre). exists k'. split; [|split; [done|]].
  - split; [done|done|]. by eapply prefix_lookup_Some.
  - destruct Hpre as [ps ->]. apply frame_offset_prefix. apply lookup_lt_Some in Hp. lia.
Qed.

(** Where a read of [o] stands that will return [p], unless the log is locked. *)
Definition coming lg gh (o : Z) (p : bytes) (pc : log_read_pc It) : Prop :=
  match pc with
  | LR_lock | LR_floor => True
  | LR_unlock it valid => valid = true ∧
      ∃ t b k, lg_index lg = Some t ∧ ix_on t it (b, c_addr k) ∧ holds gh o p b k
  | LR_value it => ∃ t b k, lg_index lg = Some t ∧ ix_on t it (b, c_addr k) ∧ holds gh o p b k
  | LR_base a => ∃ b k, c_addr k = a ∧ holds gh o p b k
  | LR_segment a rel pc => ∃ b k, c_addr k = a ∧ rel = o - b ∧ holds gh o p b k ∧
      ∃ base, on_the_way (frame_offset (c_items k) (Z.to_nat rel)) p base pc
  | LR_return rc _ => rc = ELLOCK
  end.

Lemma coming_grows lg lg' gh gh' o p pc :
  index_kept lg lg' → chunks_grow (gh_chunks gh) (gh_chunks gh') → coming lg gh o p pc → coming lg' gh' o p pc.
Proof using Type.
  intros Hix Hg.
  assert (Hon : ∀ it, (∃ t b k, lg_index lg = Some t ∧ ix_on t it (b, c_addr k) ∧ holds gh o p b k) →
    ∃ t b k, lg_index lg' = Some t ∧ ix_on t it (b, c_addr k) ∧ holds gh' o p b k).
  { intros it (t & b & k & Ht & Hit & Hk). destruct (Hix _ _ _ Ht Hit) as (t' & Ht' & Hit').
    destruct (holds_grows _ _ _ _ _ _ Hg Hk) as (k' & Hk' & Ha & _). exists t', b, k'. by rewrite Ha. }
  destruct pc as [| |it v|it|a|a rel rpc|rc fr]; simpl; try done.
  - intros [-> H]. split; [done|]. by apply Hon.
  - apply Hon.
  - intros (b & k & <- & Hk). destruct (holds_grows _ _ _ _ _ _ Hg Hk) as (k' & Hk' & Ha & _). by exists b, k'.
  - intros (b & k & <- & -> & Hk & base & Hw).
    destruct (holds_grows _ _ _ _ _ _ Hg Hk) as (k' & Hk' & Ha & Hfo). exists b, k'. split_and!; [done..|].
    exists base. by rewrite Hfo.
Qed.
(** The slot of a payload in the segment of its chunk. *)
Lemma holds_slot gh o p b k g sgm (cs : list call) :
  holds gh o p b k → conc_inv lo (c_items k) (State sgm cs) g →
  g_slots g !! Z.to_nat (o - b) = Some (stored_slot p) ∧
  frame_offset (g_payloads g) (Z.to_nat (o - b)) = frame_offset (c_items k) (Z.to_nat (o - b)).
Proof using Type.
  intros [Hk Hb Hp] I. destruct (ci_old _ _ _ _ I) as (news & Hg & _). split.
  - rewrite Hg. apply lookup_app_l_Some. by rewrite list_lookup_fmap, Hp.
  - rewrite Hg, fmap_app, stored_payloads. apply frame_offset_prefix. apply lookup_lt_Some in Hp. lia.
Qed.

Lemma coming_segment gh lg pr cs r o fr p b k rpc rpc' sgm base :
  inv (LogState lg pr cs) gh → cs !! r = Some (Reading o fr (LR_segment (c_addr k) (o - b) rpc)) →
  holds gh o p b k → pr_segments pr !! c_addr k = Some sgm →
  on_the_way (frame_offset (c_items k) (Z.to_nat (o - b))) p base rpc →
  read_step (o - b) fr rpc sgm = Ok rpc' →
  ∃ base', on_the_way (frame_offset (c_items k) (Z.to_nat (o - b))) p base' rpc'.
Proof using Type.
  intros I Hc Hk Hs Hw Hstep. destruct (segment_now _ _ _ _ _ _ _ _ _ _ I (hd_chunk _ _ _ _ _ Hk)) as (sgm0 & sgm1 & Hl & Hs1 & Hsame).
  rewrite Hs in Hs1. injection Hs1 as <-. destruct (lc_segments _ _ _ _ _ _ I k) as (sgm1 & Hs1 & I1).
  { apply elem_of_app. left. eapply chunk_at_in, Hk. }
  cbn [ls_process ls_calls] in *. rewrite Hs in Hs1. injection Hs1 as <-.
  destruct (holds_slot _ _ _ _ _ _ _ _ Hk I1) as [Hi Hfo]. rewrite <- Hfo in *.
  assert (Hret : (∃ rc fr', rpc = R_return rc fr') ∨ ∀ rc fr', rpc ≠ R_return rc fr').
  { destruct rpc; try (by right). left. by eexists _, _. }
  destruct Hret as [(rc & fr' & ->)|Hret]; [injection Hstep as <-; by exists base|].
  exists (r_base (buffer sgm)).
  apply (read_on_the_way lo (c_items k) _ _ (Z.to_nat (o - b)) (stored_slot p) (o - b) fr rpc rpc' I1 Hi); try done.
  - pose proof (hd_base _ _ _ _ _ Hk). lia.
  - cbn [st_segment]. rewrite (same_flags _ _ Hsame). exact (lv_flags _ _ _ _ _ _ Hl).
  - by eapply on_the_way_base.
Qed.

Lemma coming_step gh lg pr cs r o fr pc p pc' lg' :
  inv (LogState lg pr cs) gh → cs !! r = Some (Reading o fr pc) → items (gh_chunks gh) !! Z.to_nat o = Some p →
  coming lg gh o p pc → log_read_step o fr pc lg pr = Ok (pc', lg') → coming lg' gh o p pc'.
Proof using Type.
  intros I Hc Hp Hcome Hstep. destruct (call_at _ _ _ _ _ _ _ _ _ _ I Hc) as [Ho _].
  pose proof (read_step_index _ _ _ _ _ _ _ _ _ I Hstep) as Hix. destruct (index_stores _ _ _ _ _ _ _ _ I) as (t & Ht & Hts).
  destruct pc as [| |it v|it|a|a rel rpc|rc fr']; cbn [log_read_step coming] in Hstep, Hcome.
  - destruct (trylock_cases _ _ _ _ _ _ _ _ I) as [(_ & e & m & Hlock & _)|(e & Hlock)]; rewrite Hlock in Hstep; by injection Hstep as <- _.
  - destruct (law_floor t _ o Hts) as (it & rest & Hfl & Hat & Hrest).
    unfold the_index in Hstep. rewrite Ht in Hstep. simpl of_option in Hstep.
    rewrite bind_Ok, Hfl, bind_Ok, (law_valid _ _ _ Hat), bind_Ok in Hstep. injection Hstep as <- <-.
    apply floor_chunk in Hrest; [|lia]. destruct rest as [|kv rest]; [by rewrite Hrest in Hp|].
    destruct Hrest as (ks1 & k & ks2 & b & Hks & Hb & -> & Hle & Hin). rewrite bool_decide_eq_false_2 by done. split; [done|].
    exists t, b, k. split; [done|]. split; [by eapply law_on|]. split; [by exists ks1, ks2|done|].
    rewrite (chunk_lookup ks1 k ks2) by (clear -Hle Hin; lia || naive_solver lia). rewrite <- Hks, <- Hb. by replace (b + (o - b)) with o by lia.
  - destruct Hcome as [-> Hcome]. destruct (holding_at _ _ _ _ _ _ _ _ _ _ I Hc eq_refl) as (_ & Hm & _).
    destruct (law_unlock _ Hm) as (m' & Hun & _). rewrite Hun in Hstep. by injection Hstep as <- <-.
  - destruct Hcome as (t2 & b & k & Ht2 & Hon & Hk). unfold the_index in Hstep. rewrite Ht2 in Hstep. simpl of_option in Hstep.
    rewrite bind_Ok, (law_on_value _ _ _ Hon), bind_Ok in Hstep. injection Hstep as <- _. by exists b, k.
  - destruct Hcome as (b & k & <- & Hk). destruct (segment_now _ _ _ _ _ _ _ _ _ _ I (hd_chunk _ _ _ _ _ Hk)) as (sgm0 & sgm & Hl & Hs & Hsame).
    unfold deref_segment in Hstep. rewrite Hs in Hstep. simpl of_option in Hstep. rewrite bind_Ok in Hstep. injection Hstep as <- _.
    exists b, k. split; [done|]. split; [|split; [done|by exists 0]].
    pose proof (live_base _ _ _ _ _ _ Hl) as Hb0. pose proof (hd_base _ _ _ _ _ Hk).
    unfold segment_base_offset. rewrite (same_base _ _ Hsame), (lv_base _ _ _ _ _ _ Hl). apply u64_small. lia.
  - destruct Hcome as (b & k & <- & -> & Hk & base & Hw). unfold deref_segment in Hstep.
    apply bind_Ok_inv in Hstep as (sgm & Hs & (rpc' & Hstep & [= <- _])%bind_Ok_inv).
    exists b, k. split_and!; [done..|]. eapply coming_segment; try done.
    destruct (pr_segments pr !! c_addr k) as [s|]; [|done]. simpl in Hs. by injection Hs as ->.
  - by injection Hstep as <- _.
Qed.

(** ** Executions *)

(** Every read of [o] started after [n] calls is on its way. *)
Definition all_coming (n : nat) (o : Z) (p : bytes) st gh : Prop :=
  items (gh_chunks gh) !! Z.to_nat o = Some p ∧
  ∀ r fr pc, (n ≤ r)%nat → ls_calls st !! r = Some (Reading o fr pc) → coming (ls_log st) gh o p pc.

Lemma event_coming n o p st gh ev st' gh' :
  inv st gh → exec_log_event ev st = Ok st' → log_grows gh gh' →
  all_coming n o p st gh → all_coming n o p st' gh'.
Proof using Hsz.
  intros I Hrun [Hg _] [Hp Hall]. split; [by eapply prefix_lookup_Some, grow_items|].
  intros r fr pc Hr. destruct st as [lg pr cs]. unfold exec_log_event in Hrun. cbn [ls_log ls_calls] in *.
  destruct (sync_race ev cs); [done|].
  assert (Hstart : ∀ c, (∀ o' fr' pc', c = Reading o' fr' pc' → pc' = LR_lock) → st' = LogState lg pr (cs ++ [c]) →
    ls_calls st' !! r = Some (Reading o fr pc) → coming (ls_log st') gh' o p pc).
  { intros c Hc -> [Hcs|[_ Hcs]]%lookup_app_Some; simpl.
    - eapply coming_grows; [by apply index_kept_refl|exact Hg|by eapply Hall].
    - apply list_lookup_singleton_Some in Hcs as [_ ->]. by rewrite (Hc _ _ _ eq_refl). }
  destruct ev as [buf|o' fr'| |i].
  - injection Hrun as <-. by apply (Hstart (Writing buf LW_lock)).
  - injection Hrun as <-. apply (Hstart (Reading o' fr' LR_lock)); [|done]. by intros ? ? ? [= _ _ <-].
  - injection Hrun as <-. by apply (Hstart (Syncing LS_last)).
  - destruct (cs !! i) as [c|] eqn:Hc.
    2:{ injection Hrun as <-. intros Hcs. simpl. eapply coming_grows; [by apply index_kept_refl|exact Hg|by eapply Hall]. }
    apply bind_Ok_inv in Hrun as ([[c' lg'] pr'] & Hstep & [= <-]). cbn [ls_log ls_calls].
    intros [(<- & -> & _)|[Hne Hcs]]%list_lookup_insert_Some.
    2:{ eapply coming_grows; [by eapply step_index_kept|exact Hg|by eapply Hall]. }
    destruct c as [buf pc0|o0 fr0 pc0|pc0]; cbn [log_call_step] in Hstep; [by apply bind_Ok_inv in Hstep as ([[? ?] ?] & _ & ?)| |by apply bind_Ok_inv in Hstep as ([? ?] & _ & ?)].
    apply bind_Ok_inv in Hstep as ([pc1 lg1] & Hstep & [= -> -> -> <- <-]).
    eapply (coming_grows lg1 lg1 gh); [by apply index_kept_refl|exact Hg|]. eapply coming_step; [exact I|exact Hc|done| |exact Hstep].
    by eapply Hall.
Qed.

Lemma reaches_coming n o p st gh st' :
  inv st gh → reaches st st' → zlen items0 + zlen (ls_calls st') < max_offset → all_coming n o p st gh →
  ∃ gh', inv st' gh' ∧ all_coming n o p st' gh'.
Proof using All.
  intros I Hr Hb H0. induction Hr as [|ev st1 st2 Hr IH Hev Hrun]; [by exists gh|].
  pose proof (event_calls _ _ _ Hrun) as Hlen. destruct IH as (gh1 & I1 & H1); [lia|].
  destruct (log_event_inv dir sz lo items0 Hdir Hsz Hmod Hlo Hslots st1 gh1 ev I1) as (st3 & gh2 & Hrun' & I2 & Hg).
  - pose proof (items_bound _ _ _ _ _ _ I1). lia.
  - done.
  - destruct st1 as [lg pr cs]. unfold exec_log_event in Hrun. cbn [ls_calls]. by destruct (sync_race ev cs).
  - rewrite Hrun in Hrun'. injection Hrun' as <-. exists gh2. split; [done|].
    by apply (event_coming _ _ _ st1 gh1 ev).
Qed.

(** What such a read has returned. *)
Lemma coming_result n o p st gh r fr pc rc fr' :
  inv st gh → all_coming n o p st gh → (n ≤ r)%nat → ls_calls st !! r = Some (Reading o fr pc) →
  read_result (Reading o fr pc : log_call It) = Some (rc, fr') →
  rc = ELLOCK ∨ rc = zlen p ∧ points_to (ls_process st) fr' p.
Proof using Type.
  intros I [_ Hall] Hr Hc Hres. pose proof (Hall _ _ _ Hr Hc) as Hcome.
  destruct pc as [| |it v|it|a|a rel rpc|rc0 fr0]; try done.
  2:{ injection Hres as -> ->. left. exact Hcome. }
  destruct rpc as [| | | | | |rc0 fr0]; try done. injection Hres as -> ->. right.
  destruct Hcome as (b & k & <- & -> & Hk & base & [-> _]). split; [done|].
  destruct (result_found _ _ _ _ _ _ _ _ _ _ _ _ I Hc eq_refl) as [Hin|(a & rel & Hpc & b' & k' & q & _ & _ & _ & _ & Hq & _ & Hpt)].
  { exfalso. rewrite !elem_of_cons, elem_of_nil in Hin. unfold ELLOCK, ELNORD in Hin. lia. }
  injection Hpc as <- <-. destruct (lc_segments _ _ _ _ _ _ I k) as (sgm & _ & I1).
  { apply elem_of_app. left. eapply chunk_at_in, Hk. }
  destruct (holds_slot _ _ _ _ _ _ _ _ Hk I1) as [Hi _]. rewrite list_lookup_fmap, Hi in Hq. by injection Hq as <-.
Qed.
End seen.

Section properties.
Context {W T It M : Type}.
Context `{!Posix W, !PosixLaws W, !Index T It, !IndexLaws T It, !Pthread M, !PthreadLaws M}.
#[local] Existing Instance reads_written.
Context (dir : string) (sz lo : Z) (lg : mqlog T M) (pr : process W) (cs0 : list chunk).
Context (Hdir : dir_ok dir) (Hsz : 0 ≤ sz < 2 ^ 32) (Hmod : sz mod os_pagesize = 0).
Context (Hlo : 0 ≤ lo) (Hslots : index_mapped (W := W) sz lo) (I0 : log_inv dir sz lo lg pr cs0).
Implicit Types (st : log_state W T It M).

(** [C9]: A completed write of a log that was not opened with [MQLOG_RDCMT] is
    visible: when some concurrent calls have returned, the payloads of the
    writes among them have offsets, after those of the start, and every
    [mqlog_read] of one of those offsets that starts from then on returns the
    payload or [ELLOCK], whatever the other calls do. Assumed: the size of a
    segment is a multiple of the page size below 2^32, the directory name has
    1 to 200 characters, descriptor 0 is open, the index never runs out of
    memory; every payload is nonempty, leaves room for its header and an end
    mark in a segment (its length + 24 is at most the size), does not imitate
    an end mark (bytes 0xaaaa twelve from its end), and has at least [lo]
    bytes, where the pages mapped for the index have a slot for every payload
    of that length that fits ([index_mapped]: 84 bytes are enough for any
    size, no minimum is needed when a segment is one page); the log starts at
    rest; fewer than 2^63 - 2^32 payloads and calls; no [sync_race]. In
    committed mode an unsynced payload is hidden
    ([committed_log_refines_clog]). *)
Theorem completed_log_writes_are_seen st :
  log_reachable (payload_ok sz lo) (LogState lg pr []) st →
  zlen (items cs0) + zlen (ls_calls st) < max_offset →
  ∃ ws, ws ≡ₚ log_written (ls_calls st) ∧
    ∀ o p, 0 ≤ o → (items cs0 ++ ws) !! Z.to_nat o = Some p →
    ∀ st' r fr pc rc fr', log_reachable (payload_ok sz lo) st st' →
      zlen (items cs0) + zlen (ls_calls st') < max_offset →
      (length (ls_calls st) ≤ r)%nat → ls_calls st' !! r = Some (Reading o fr pc) →
      read_result (Reading o fr pc : log_call It) = Some (rc, fr') →
      rc = ELLOCK ∨ rc = zlen p ∧ points_to (ls_process st') fr' p.
Proof using All.
  intros Hr Hb. destruct (start_reaches dir sz lo lg pr cs0 Hdir Hsz Hmod Hlo Hslots I0 st Hr Hb) as [gh I].
  destruct (lc_items _ _ _ _ _ _ I) as (ws & Hws & Hperm). exists ws. split; [done|]. rewrite <- Hws.
  intros o p Ho Hp st' r fr pc rc fr' Hr' Hb' Hle Hc Hres.
  destruct (reaches_coming dir sz lo (items cs0) Hdir Hsz Hmod Hlo Hslots (length (ls_calls st)) o p st gh st' I Hr' Hb')
    as (gh' & I' & H').
  - split; [done|]. intros r0 fr0 pc0 Hle0 Hc0. apply lookup_lt_Some in Hc0. lia.
  - by eapply coming_result.
Qed.
End properties.

(** In [demo_end] the read that started after [demo_middle] has returned. *)
Lemma completed_log_writes_are_seen_witness :
  ∃ ws, ws ≡ₚ [zeros 100] ∧
    ∀ o p, 0 ≤ o → ([] ++ ws) !! Z.to_nat o = Some p →
    ∀ (st' : demo_state) r fr pc rc fr', log_reachable (payload_ok 4096 0) demo_middle st' →
      0 + zlen (ls_calls st') < max_offset →
      (2 ≤ r)%nat → ls_calls st' !! r = Some (Reading o fr pc) →
      read_result (Reading o fr pc) = Some (rc, fr') →
      rc = ELLOCK ∨ rc = zlen p ∧ points_to (ls_process st') fr' p.
Proof.
  apply (completed_log_writes_are_seen "/log" 4096 0 demo_log demo_opened_process [] demo_dir ltac:(lia) demo_mod
    ltac:(lia) demo_slots demo_log_inv demo_middle).
  - apply demo_calls_reach.
  - by vm_compute.
Defined.
